(* ===== verification/_CoqProject ===== *)
-Q . S2P
Prelude.v
GoStrings.v
GoSort.v
Utf8.v
Strconv.v
Sha256.v
Term.v
Decode.v
NumericGrammar.v
TermKey.v
SmallMap.v
TripleIndex.v
Store.v
MemoryStore.v
Namespace.v
Reachability.v
Graph.v
Badger.v
BadgerCorrect.v
BadgerRefine.v
BadgerReads.v
BadgerRun.v
Skolem.v
SkolemCorrect.v
Dataset.v
Collection.v
LiteralValue.v
XsdSpec.v
XsdCorrect.v
Iri.v
IriSpec.v
ParseScope.v
SkolemRoundTrip.v
NTSyntax.v
NTReadBack.v
NTRoundTrip.v
NTSound.v
LineReader.v
NTriples.v
NTDocument.v
NTStream.v
UnionFind.v
Reasoning.v
Rdfs.v
RdfsCorrect.v
Paths.v
PathsCorrect.v
PathRelation.v
Owl.v
OwlRules.v
OwlEngine.v
OwlSpec.v
OwlIndex.v
OwlInput.v
OwlBuild.v
OwlPasses.v
OwlClash.v
OwlRun.v
OwlCorrect.v
OwlExpand.v
