(* ===== verification/Prelude.v ===== *)
(** * goRDFlib: a verification development

    goRDFlib is an RDF library in Go: terms, stores of triples, graphs and
    datasets over them, and readers and writers of RDF syntaxes.  This library
    models its core as executable definitions and proves what each part
    promises to the parts that use it.

    ** The parts and where they are

    - [Prelude]: Go errors, results, the supply of random identifiers, map
      iteration, push iterators, and the generic lemmas and tactics.
    - [GoStrings], [GoSort], [Utf8], [Strconv], [Sha256]: the functions of Go's
      [strings], [sort], [unicode/utf8], [strconv], [math/big] and
      [crypto/sha256] the program calls.  They are the standard library, modelled
      on the inputs the program uses.
    - [Term] ([src/term]: term.go, literal.go, triple.go, triple_term.go, key.go,
      xsd.go, turtle_numeric.go): the terms, their constructors, their N3 forms
      and their keys.  [Decode] (decode.go): reading a key back.
      [NumericGrammar]: the numeric scanners against the Turtle grammar.
      [TermKey]: keys, equality and decoding agree.
    - [LiteralValue] (src/term/literal_value.go): the value space of literals,
      with IEEE floats ([SpecFloat]), exact decimals ([Q]) and dates.  [XsdSpec]
      writes the lexical and value spaces of XML Schema as grammars, apart from the
      code; [XsdCorrect] compares [ValueEqual] and the dateTime parser with them.
    - [SmallMap], [TripleIndex], [MemoryStore], [Reachability] (src/store:
      memory_smallmap.go, memory_index.go, memory.go, reachability.go): the
      in-memory store.  [Store] (store.go, context.go) is the contract of a
      store: a class of operations with the laws every client is proved
      against, stated over an abstract dataset [ds].  [MemoryStore] discharges
      it by an instance.
    - [Badger] (src/store/badgerstore: encoding.go, store.go): the persistent
      store, as transactions on a key-value database that is a parameter, the
      class [Badger].  [BadgerCorrect]: keys and values are unambiguous.
      [BadgerRefine]: what is relied on of the database, its transactions included
      (the class [BadgerLaws]), and the writes; [BadgerReads]: the reads;
      [BadgerRun]: whole runs, snapshots, and a database in memory that keeps the
      laws.
    - [Graph] (src/graph: graph.go, resource.go), [Dataset] (conjunctive.go,
      dataset.go), [Collection] (collection.go), [Skolem] (skolem.go): the views
      of a store, for any store of the class.  [SkolemCorrect] and
      [SkolemRoundTrip] show that structural identifiers do not depend on labels
      and that skolemization can be undone.
    - [Namespace] (src/namespace/namespace.go): prefixed names over the prefixes
      of a store, with the class of what it relies on.
    - [Iri] (src/internal/iri): reference resolution and relativisation; [IriSpec]
      has the grammar and the rules of RFC 3986, apart from the code, and compares.
    - [ParseScope] (src/internal/bnodes, src/internal/iricache), [NTSyntax]
      (src/internal/ntsyntax): what the readers of one document share, and the
      reader and writer of N-Triples terms; [NTReadBack] has their lemmas.
    - [NTRoundTrip], [NTSound]: what the writer writes the reader reads back, and
      what the reader accepts the writer can write.  [LineReader]
      (src/internal/ntsyntax/linereader.go, src/internal/stream), [NTriples]
      (src/nt, src/nq): the parsers and serializers of N-Triples and N-Quads
      documents, with their scanner of lines, stoppers and handlers;
      [NTDocument]: documents are read back, and parses stop; [NTStream]: what any
      text does, line by line, as a relation.
    - [UnionFind] (src/reasoning/unionfind.go), [Reasoning] (cancel.go,
      helpers.go, rdflist.go), [Rdfs] (rdfs.go): the forest of equal terms, the
      parts the closures share, the RDFS closure; [RdfsCorrect] compares the
      closure with its rules.
    - [Paths] (src/paths): property paths, evaluated by push iterators with
      captured state, by traversals, or by asking the store.  [PathsCorrect]
      reduces the iterators to lists (a simulation, for every consumer);
      [PathRelation] compares the lists with the relation of the path.
    - [Owl], [OwlRules], [OwlEngine] (src/reasoning: owlrl.go, owlrl_equality.go,
      owlrl_property.go, owlrl_class.go, owlrl_consistency.go, entailment.go): the
      schema indexes, the rules and the runs of the OWL 2 RL closure, its checks,
      and the entailment regimes.  [OwlSpec] has the rules as an inductive relation
      and the axioms as relations between triples; [OwlIndex], [OwlBuild] show that
      the indexes hold what the axioms say, [OwlInput] how the lists of a graph can
      be checked, [OwlPasses] that each rule derives what follows, [OwlClash] that
      the checks report contradictions, [OwlRun] that passes and runs do;
      [OwlCorrect] and [OwlExpand] have the theorems.

    ** How the model follows the code

    A Go value is the Rocq value with the same parts: structs are records,
    sealed interfaces are inductive types ([Term]), maps are [gmap], byte
    strings are [string], [int] is [Z] (no quantity here reaches its width;
    where a width matters, as in [ParseInt64] and [ParseHex32], it is written
    out).  A method that changes its receiver returns the new one.  A method that
    can fail returns a [result], and one that fails after changing state
    returns both.  An operation that holds a lock for its whole body is one
    step, so the model of the stores is sequential.

    An iterator is the list of what it yields; the ones whose early stop matters
    ([each], [TriplesWithLimit]) are push iterators ([drive]) with the
    consumer's state.  The order in which Go ranges over a map is unspecified: it
    is the class [GoRange], of which only that it visits every entry once is
    known; theorems hold for every order.  [uuid.New] is a parameter [uuid],
    whose [i]-th value the [i]-th call returns.  A [context.Context] is the
    error it has, if it is done.

    Loops with no structural measure take fuel, and a theorem shows that the
    fuel given is enough: the decoder and the readers are given the length of
    their text, which every round shortens; the graph walks the number of nodes,
    each of which is visited once; [dot_loop] the length of the path.

    ** What the theorems show

    - Terms: decoding inverts keys; term equality, key equality and identity
      agree on well-formed terms; the cached key is the N3 form; the numeric
      scanners accept the Turtle grammar; [ValueEqual] decides identity in the
      value spaces of XML Schema, and the dateTime parser reads their grammar.
    - Stores: the index keeps its three trees and its counters consistent and
      is a set of triples; the store refines the abstract dataset, leaves other
      graphs alone, and reads pages, counts and reachable nodes correctly.
    - Graphs: set operations, projections, connectedness, names, conjunctive
      graphs, dataset removal and collections, over any store of the contract.
    - IRIs: resolution follows RFC 3986, written as a grammar and relations, and
      relativisation is its inverse.
    - N-Triples and N-Quads: graphs of triples the syntax can express survive being
      written and read when their lines fit the reader's buffer; on UTF-8 text the
      readers accept only what can be written; blank, malformed, repaired, refused
      and overlong lines do what a relation on the lines of the text says; a parse
      stops within 1024 statements of a poll.
    - Names: over coherent prefixes a computed name expands to its IRI again;
      skolemized graphs without IRIs under the prefix are restored up to the labels
      of blank nodes, and structural identifiers that separate the blank nodes
      depend on the shape of the graph only; both when no blank node stands inside
      a triple term ([sk_back_nested] shows why).
    - Reasoning: the RDFS closure adds exactly the derivable triples of its four
      rules, and only derivable ones when it is stopped; the union-find stands
      for the equivalence its merges generate.
    - Paths: evaluation gives the pairs of the path's relation, for any consumer,
      with a reachability backend or without, on graphs without literals or for
      paths that do not leave one ([literal_ends_of_paths] has the others).
    - OWL 2 RL, on graphs whose intersections, chains and keys name lists written in
      full, those of chains and keys of IRIs ([ex_chain_shortened] shows what else
      happens): the closure ends, adds derivable triples only and, when functional
      properties have resources as values, leaves a graph closed under the rules
      for equality and for properties; its reports are contradictions, and plain
      contradictions are reported; the alternation with RDFS ends with a graph
      closed under RDFS and these rules.  Passes are bounded by the number
      of triples over the keys of the graph, [rdf:type] and [owl:sameAs].
    - The persistent store answers as the dataset of the contract for triples that
      can be stored, but that it goes on to name graphs that have been emptied; a read
      cut short by its context has given a prefix of the answer.

    ** What is not modelled

    The SPARQL parser, evaluator and result formats, SHACL and its rule language,
    and the readers and writers of Turtle and TriG are left out for their size:
    each is as large as what is here, and none of it is stubbed.  RDF/XML and
    JSON-LD are glue over an XML decoder and a JSON-LD processor that are not in
    the repository; the SQL and SPARQL stores over a query language and a remote
    service; the HTTP endpoint, the loaders and the plugin tables over network and
    files; the order of terms ([CompareTerm]) over the parsing of floats in every
    notation.  Concurrency is left out of the modelled parts: a method that holds a
    lock, or works in one transaction, is one step.  Generated tables, tests,
    benchmarks and bindings are left out on purpose. *)

From Stdlib Require Export Ascii ZArith NArith Lia.
From stdpp Require Export base tactics option list strings gmap fin_maps.
From stdpp Require Import options.

#[global] Open Scope nat_scope.
#[global] Open Scope stdpp_scope.

Create HintDb go discriminated.
Create Rewrite HintDb go.

(** ** Errors

    A Go [error] value.  [Sentinel] is a package-level [errors.New] value,
    which [errors.Is] compares by identity; [Errorf] is the result of
    [fmt.Errorf] with its format and the strings it formats, and [Wrapf] the
    same with one error wrapped by a [%w] verb, and [Wrapf2] with two. *)
Inductive error :=
| Sentinel (name : string)
| Errorf (format : string) (args : list string)
| Wrapf (format : string) (args : list string) (inner : error)
| Wrapf2 (format : string) (inner1 inner2 : error).

(** [errors.Is(e, Sentinel n)]: walk the wrapped errors. *)
Fixpoint errors_Is (e : error) (n : string) : bool :=
  match e with
  | Sentinel m => bool_decide (m = n)
  | Errorf _ _ => false
  | Wrapf _ _ e' => errors_Is e' n
  | Wrapf2 _ e1 e2 => errors_Is e1 n || errors_Is e2 n
  end.

(** A Go [(value, error)] result. *)
Inductive result (A : Type) :=
| Ok (a : A)
| Err (e : error).
Arguments Ok {A} a.
Arguments Err {A} e.

#[global] Instance result_ret : MRet result := λ A, @Ok A.
#[global] Instance result_bind : MBind result := λ A B f m,
  match m with Ok a => f a | Err e => Err e end.
#[global] Instance result_fmap : FMap result := λ A B f m,
  match m with Ok a => Ok (f a) | Err e => Err e end.

Definition is_Ok {A} (r : result A) : bool :=
  match r with Ok _ => true | Err _ => false end.

(** [fmt.Errorf("ctx: %w", err)] applied to a failing call. *)
Definition wrap_err {A} (ctx : string) (r : result A) : result A :=
  match r with Ok a => Ok a | Err e => Err (Wrapf ctx [] e) end.

(** The values of a sequence. *)
Definition oks {A} (l : list (result A)) : list A := omap (λ r, match r with Ok a => Some a | Err _ => None end) l.

Lemma oks_fmap {A} (l : list A) : oks (Ok <$> l) = l.
Proof. unfold oks. induction l as [|a l IH]; [done|]. rewrite fmap_cons. cbn. by rewrite IH. Qed.

Lemma bind_Ok_inv {A B} (m : result A) (f : A → result B) b :
  (m ≫= f) = Ok b → ∃ a, m = Ok a ∧ f a = Ok b.
Proof. destruct m; cbn; [eauto | discriminate]. Qed.

(** ** Randomness

    [uuid.New] is code outside the repository: the [i]-th call of a run returns
    [uuid i].  A computation that may draw a UUID threads the number of draws
    made so far. *)
Definition drawM (A : Type) : Type := nat → result A * nat.

#[global] Instance drawM_ret : MRet drawM := λ A a n, (Ok a, n).
#[global] Instance drawM_bind : MBind drawM := λ A B f m n,
  match m n with
  | (Ok a, n') => f a n'
  | (Err e, n') => (Err e, n')
  end.

Definition fail {A} (e : error) : drawM A := λ n, (Err e, n).
Definition lift {A} (r : result A) : drawM A := λ n, (r, n).
Definition wrapM {A} (ctx : string) (m : drawM A) : drawM A :=
  λ n, let '(r, n') := m n in (wrap_err ctx r, n').

(** ** Tactics *)

(** Case analysis on every boolean test of the goal or a hypothesis. *)
Ltac bool_cases :=
  repeat match goal with
  | H : _ && _ = true |- _ => apply andb_true_iff in H as [??]
  | H : _ || _ = false |- _ => apply orb_false_iff in H as [??]
  | H : negb _ = true |- _ => apply negb_true_iff in H
  | H : negb _ = false |- _ => apply negb_false_iff in H
  | H : bool_decide _ = true |- _ => apply bool_decide_eq_true in H
  | H : bool_decide _ = false |- _ => apply bool_decide_eq_false in H
  | H : Is_true _ |- _ => apply Is_true_true in H
  | H : (_ =? _)%string = true |- _ => apply String.eqb_eq in H
  | H : (_ =? _)%string = false |- _ => apply String.eqb_neq in H
  | H : (_ =? _)%char = true |- _ => apply Ascii.eqb_eq in H
  | H : (_ =? _)%char = false |- _ => apply Ascii.eqb_neq in H
  end.

(** Split the discriminee of the first [match] or [if] of the goal. *)
Ltac case_goal :=
  match goal with
  | |- context [match ?x with _ => _ end] => destruct x eqn:?
  end.

Ltac case_hyp H :=
  match type of H with
  | context [match ?x with _ => _ end] => destruct x eqn:?
  end.

(** ** Lists *)

Lemma NoDup_fmap_perm {A B} (f : A → B) (l l' : list A) :
  l ≡ₚ l' → NoDup (f <$> l) → NoDup (f <$> l').
Proof. intros Hp. by rewrite Hp. Qed.

(** Distinct under one key are distinct under a key that separates as much. *)
Lemma NoDup_fmap_finer {A B C} (f : A → B) (g : A → C) (l : list A) :
  NoDup (f <$> l) → (∀ x y, x ∈ l → y ∈ l → g x = g y → f x = f y) → NoDup (g <$> l).
Proof.
  induction l as [|z l IH]; cbn; intros Hf Hg; [constructor|].
  apply NoDup_cons in Hf as [Hz Hl]. apply NoDup_cons. split; [|apply IH; [done|intros; apply Hg; set_solver]].
  intros (y & Hy & Hin)%list_elem_of_fmap. apply Hz, list_elem_of_fmap. exists y. split; [|done]. apply Hg; set_solver.
Qed.

Lemma NoDup_fmap_inj_on {A B} (f : A → B) (l : list A) (x y : A) :
  NoDup (f <$> l) → x ∈ l → y ∈ l → f x = f y → x = y.
Proof.
  induction l as [|z l IH]; cbn; [intros _ Hx; by apply not_elem_of_nil in Hx|].
  intros [Hz Hl]%NoDup_cons Hx Hy Hf.
  apply elem_of_cons in Hx as [->|Hx], Hy as [->|Hy]; auto.
  - destruct Hz. rewrite Hf. by apply list_elem_of_fmap_2.
  - destruct Hz. rewrite <- Hf. by apply list_elem_of_fmap_2.
Qed.

Lemma filter_all {A} (P : A → Prop) `{∀ x, Decision (P x)} (l : list A) :
  (∀ x, P x) → filter P l = l.
Proof. intros HP. induction l as [|x l IH]; [done|]. by rewrite filter_cons_True, IH. Qed.

Lemma list_insert_middle {A} (s1 s2 : list A) x y :
  <[length s1:=y]> (s1 ++ x :: s2) = s1 ++ y :: s2.
Proof. rewrite <- (Nat.add_0_r (length s1)), insert_app_r. done. Qed.

(** ** Go maps

    A Go [map[string]V] is a [gmap string V]; a map keyed by a struct of two
    strings is a [gmap (string * string) V].  The order in which [range] visits
    a map is unspecified; it is a parameter, of which only that it visits each
    entry once is known. *)
Class GoRange := {
  range : ∀ {V : Type}, gmap string V → list (string * V);
  range_perm : ∀ {V : Type} (m : gmap string V), range m ≡ₚ map_to_list m;
  range2 : ∀ {V : Type}, gmap (string * string) V → list ((string * string) * V);
  range2_perm : ∀ {V : Type} (m : gmap (string * string) V), range2 m ≡ₚ map_to_list m
}.

(** One possible order, for concrete examples. *)
Definition sorted_range : GoRange := {|
  range V m := map_to_list m; range_perm V m := reflexivity _;
  range2 V m := map_to_list m; range2_perm V m := reflexivity _ |}.

(** ** Push iterators

    A Go iterator calls [yield] on its items until [yield] returns false, and
    says whether it ran to the end.  [drive l] is the iterator over the items
    [l]; the consumer's captured variables are the state [S]. *)
Section drive.
Context {A B S : Type}.

Fixpoint drive (l : list A) (yield : A → S → bool * S) (s : S) : bool * S :=
  match l with
  | [] => (true, s)
  | x :: l => let '(continue, s) := yield x s in
              if continue then drive l yield s else (false, s)
  end.

Lemma drive_app l1 l2 yield s :
  drive (l1 ++ l2) yield s =
  let '(continue, s') := drive l1 yield s in
  if continue then drive l2 yield s' else (false, s').
Proof.
  revert s. induction l1 as [|x l1 IH]; intros s; cbn; [done|].
  destruct (yield x s) as [[] s']; [apply IH|done].
Qed.
End drive.

Lemma drive_concat {A B S} (f : A → list B) (l : list A) (yield : B → S → bool * S) s :
  drive l (λ x s, drive (f x) yield s) s = drive (mjoin (f <$> l)) yield s.
Proof.
  revert s. induction l as [|x l IH]; intros s; [done|]. cbn [drive fmap list_fmap mjoin list_join].
  rewrite drive_app. destruct (drive (f x) yield s) as [[] s']; [apply IH|done].
Qed.

Lemma drive_ext {A S} (l : list A) (y1 y2 : A → S → bool * S) s :
  (∀ x s, y1 x s = y2 x s) → drive l y1 s = drive l y2 s.
Proof.
  intros H. revert s. induction l as [|x l IH]; intros s; cbn; [done|].
  rewrite H. destruct (y2 x s) as [[] s']; [apply IH|done].
Qed.

Lemma drive_fmap {A B S} (f : A → B) (l : list A) (yield : B → S → bool * S) s :
  drive (f <$> l) yield s = drive l (λ a, yield (f a)) s.
Proof.
  revert s. induction l as [|a l IH]; intros s; [done|]. cbn [fmap list_fmap drive]. destruct (yield (f a) s) as [[] s1]; [apply IH|done].
Qed.

(** A consumer that keeps everything. *)
Definition keep {A} (x : A) (acc : list A) : bool * list A := (true, acc ++ [x]).

Lemma drive_keep {A} (l acc : list A) : drive l keep acc = (true, acc ++ l).
Proof.
  revert acc. induction l as [|x l IH]; intros acc; cbn; [by rewrite app_nil_r|].
  rewrite IH. by rewrite <- app_assoc.
Qed.

(** ** The items under the entries of a map *)

Section munion.
Context {A B : Type} (f : A → list B).

Definition munion (m : gmap string A) : list B := mjoin ((λ p, f p.2) <$> map_to_list m).

Lemma munion_perm l (m : gmap string A) :
  l ≡ₚ map_to_list m → mjoin ((λ p, f p.2) <$> l) ≡ₚ munion m.
Proof. intros Hl. unfold munion. by rewrite Hl. Qed.

Lemma munion_empty : munion ∅ = [].
Proof. unfold munion. by rewrite map_to_list_empty. Qed.

Lemma munion_insert_new m k a : m !! k = None → munion (<[k:=a]> m) ≡ₚ f a ++ munion m.
Proof. intros Hk. unfold munion. by rewrite map_to_list_insert. Qed.

Lemma munion_lookup m k a : m !! k = Some a → munion m ≡ₚ f a ++ munion (delete k m).
Proof.
  intros Hk. rewrite <- munion_insert_new by apply lookup_delete_eq. by rewrite insert_delete_id.
Qed.

Lemma munion_insert m k a : munion (<[k:=a]> m) ≡ₚ f a ++ munion (delete k m).
Proof. rewrite <- insert_delete_eq. apply munion_insert_new, lookup_delete_eq. Qed.

Lemma munion_elem m b : b ∈ munion m ↔ ∃ k a, m !! k = Some a ∧ b ∈ f a.
Proof.
  unfold munion. rewrite list_elem_of_join. setoid_rewrite list_elem_of_fmap.
  setoid_rewrite <- elem_of_map_to_list. split.
  - intros (l & Hb & ([k a] & -> & Hk)). eauto.
  - intros (k & a & Hk & Hb). exists (f a). split; [done|by exists (k, a)].
Qed.

(** The entry under [k0] holds exactly the items whose key is [k0]. *)
Lemma munion_filter (key : B → string) m k0 :
  (∀ k a, m !! k = Some a → Forall (λ b, key b = k) (f a)) →
  filter (λ b, key b = k0) (munion m) ≡ₚ default [] (f <$> m !! k0).
Proof.
  intros Hkey. assert (Hnone : ∀ l, (∀ b, b ∈ l → key b ≠ k0) → filter (λ b, key b = k0) l = []).
  { intros l Hl. induction l as [|b l IH]; [done|]. rewrite filter_cons_False; [|apply Hl; set_solver].
    apply IH. set_solver. }
  destruct (m !! k0) as [a|] eqn:Hk; cbn.
  - rewrite (munion_lookup _ _ _ Hk), filter_app. rewrite (Hnone (munion _)), app_nil_r.
    + specialize (Hkey _ _ Hk). induction Hkey; [done|]. by rewrite filter_cons_True, IHHkey.
    + intros b (k & a' & [Hne Hk']%lookup_delete_Some & Hb)%munion_elem.
      specialize (Hkey _ _ Hk'). rewrite Forall_forall in Hkey. rewrite (Hkey _ Hb). congruence.
  - rewrite Hnone; [done|]. intros b (k & a & Hk' & Hb)%munion_elem Heq.
    specialize (Hkey _ _ Hk'). rewrite Forall_forall in Hkey. rewrite (Hkey _ Hb) in Heq. congruence.
Qed.
End munion.
