(* ===== verification/GoStrings.v ===== *)
(** * Go strings

    A Go [string] is a sequence of bytes; here it is Rocq's [string], whose
    [ascii] characters are those bytes.  The file models the functions of Go's
    [strings], [strconv] and [unicode/utf8] that the program calls, on the
    inputs it calls them with, and proves the lemmas the components share.  An
    index that Go reports as [-1] is [None]. *)

From S2P Require Import Prelude.
From stdpp Require Import options.

(** ** Bytes *)

Definition byte_val (c : ascii) : N := N_of_ascii c.
Definition byte_of (n : N) : ascii := ascii_of_N n.

Definition dquote : ascii := "034"%char.
Definition bslash : ascii := "092"%char.
Definition lf : ascii := "010"%char.
Definition cr : ascii := "013"%char.
Definition tab : ascii := "009"%char.
Definition nul : ascii := "000"%char.
Definition space : ascii := "032"%char.

(** [lo <= c && c <= hi] on bytes. *)
Definition byte_in (lo hi c : ascii) : bool :=
  (byte_val lo <=? byte_val c)%N && (byte_val c <=? byte_val hi)%N.
Definition is_digit (c : ascii) : bool := byte_in "0" "9" c.
Definition is_upper (c : ascii) : bool := byte_in "A" "Z" c.
Definition is_lower (c : ascii) : bool := byte_in "a" "z" c.
Definition is_letter (c : ascii) : bool := is_lower c || is_upper c.
Definition is_alnum (c : ascii) : bool := is_letter c || is_digit c.

Definition digit_val (c : ascii) : Z := (Z.of_N (byte_val c) - 48)%Z.

(** ** Strings as byte sequences *)

Definition len (s : string) : nat := String.length s.

(** The one-byte string. *)
Definition str1 (c : ascii) : string := String c EmptyString.

(** [s[:n]] and [s[n:]]. *)
Fixpoint stake (n : nat) (s : string) : string :=
  match n, s with
  | S n, String c s => String c (stake n s)
  | _, _ => EmptyString
  end.
Fixpoint sdrop (n : nat) (s : string) : string :=
  match n, s with
  | O, _ => s
  | S n, String _ s => sdrop n s
  | S _, EmptyString => EmptyString
  end.

(** [s[i]], [None] out of range. *)
Fixpoint byte_at (s : string) (i : nat) : option ascii :=
  match s, i with
  | EmptyString, _ => None
  | String c _, O => Some c
  | String _ s, S i => byte_at s i
  end.

Fixpoint sforall (p : ascii → bool) (s : string) : bool :=
  match s with EmptyString => true | String c s => p c && sforall p s end.
Definition sexists (p : ascii → bool) (s : string) : bool :=
  negb (sforall (λ c, negb (p c)) s).
Definition has_byte (c : ascii) (s : string) : bool := sexists (Ascii.eqb c) s.

(** [strings.NewReplacer] with one-byte old strings. *)
Fixpoint sflat_map (f : ascii → string) (s : string) : string :=
  match s with EmptyString => EmptyString | String c s => f c +:+ sflat_map f s end.
Definition smap (f : ascii → ascii) (s : string) : string := sflat_map (λ c, str1 (f c)) s.

Definition is_empty (s : string) : bool :=
  match s with EmptyString => true | _ => false end.

(** ** strings *)

Definition HasPrefix (s p : string) : bool := String.prefix p s.

(** [strings.IndexFunc] for a byte predicate; [IndexByte] and [IndexAny] with
    an ASCII set are instances. *)
Fixpoint IndexP (p : ascii → bool) (s : string) : option nat :=
  match s with
  | EmptyString => None
  | String c s => if p c then Some O else S <$> IndexP p s
  end.
Definition IndexByte (s : string) (c : ascii) : option nat := IndexP (Ascii.eqb c) s.

Fixpoint LastIndexByte (s : string) (c : ascii) : option nat :=
  match s with
  | EmptyString => None
  | String d s => match LastIndexByte s c with
                  | Some i => Some (S i)
                  | None => if Ascii.eqb c d then Some O else None
                  end
  end.

(** [strings.Index(s, sub)]. *)
Fixpoint Index (s sub : string) : option nat :=
  if HasPrefix s sub then Some O
  else match s with
       | EmptyString => None
       | String _ s' => S <$> Index s' sub
       end.
Definition Contains (s sub : string) : bool :=
  match Index s sub with Some _ => true | None => false end.

Definition HasSuffix (s p : string) : bool :=
  (len p <=? len s) && String.eqb (sdrop (len s - len p) s) p.

(** [strings.Cut(s, sep)] for a one-byte separator. *)
Definition CutByte (s : string) (c : ascii) : string * string * bool :=
  match IndexByte s c with
  | Some i => (stake i s, sdrop (S i) s, true)
  | None => (s, EmptyString, false)
  end.

(** [strings.CutPrefix]. *)
Definition CutPrefix (s p : string) : option string :=
  if HasPrefix s p then Some (sdrop (len p) s) else None.

Definition TrimSuffix (s p : string) : string :=
  if HasSuffix s p then stake (len s - len p) s else s.

(** [strings.SplitN(s, sep, n)] for a one-byte separator and [n > 0]. *)
Fixpoint SplitN (s : string) (c : ascii) (n : nat) : list string :=
  match n with
  | O | S O => [s]
  | S n' => match IndexByte s c with
            | Some i => stake i s :: SplitN (sdrop (S i) s) c n'
            | None => [s]
            end
  end.

(** [strings.Split(s, sep)] for a one-byte separator. *)
Fixpoint SplitByte (s : string) (c : ascii) : list string :=
  match s with
  | EmptyString => [EmptyString]
  | String d s' =>
      if Ascii.eqb c d then EmptyString :: SplitByte s' c
      else match SplitByte s' c with
           | [] => [str1 d]
           | w :: ws => String d w :: ws
           end
  end.

(** [strings.TrimLeft] and [strings.TrimRight] with a cutset of ASCII bytes. *)
Fixpoint TrimLeftP (p : ascii → bool) (s : string) : string :=
  match s with
  | String c s' => if p c then TrimLeftP p s' else s
  | EmptyString => EmptyString
  end.
Fixpoint TrimRightP (p : ascii → bool) (s : string) : string :=
  match s with
  | EmptyString => EmptyString
  | String c s' => match TrimRightP p s' with
                   | EmptyString => if p c then EmptyString else str1 c
                   | t => String c t
                   end
  end.

(** [strings.ToLower] and [strings.ToUpper] on ASCII strings. *)
Definition to_lower (c : ascii) : ascii :=
  if is_upper c then byte_of (byte_val c + 32) else c.
Definition to_upper (c : ascii) : ascii :=
  if is_lower c then byte_of (byte_val c - 32) else c.
Definition ToLower (s : string) : string := smap to_lower s.
Definition ToUpper (s : string) : string := smap to_upper s.

(** [strings.Compare], and [<] on strings. *)
Definition Compare (a b : string) : Z :=
  match String.compare a b with Lt => -1 | Eq => 0 | Gt => 1 end%Z.
Definition str_lt (a b : string) : bool := String.ltb a b.

(** [strings.Join]. *)
Fixpoint Join (l : list string) (sep : string) : string :=
  match l with
  | [] => EmptyString
  | [s] => s
  | s :: l => s +:+ sep +:+ Join l sep
  end.

(** ** Lemmas *)

Lemma sapp_nil_r s : s +:+ EmptyString = s.
Proof. induction s; cbn; [done|]. unfold String.append; fold String.append. by f_equal. Qed.

Lemma sapp_cons c s t : String c s +:+ t = String c (s +:+ t).
Proof. done. Qed.

Lemma sapp_nil_l t : EmptyString +:+ t = t.
Proof. done. Qed.

Lemma app_assoc_s s t u : (s +:+ t) +:+ u = s +:+ (t +:+ u).
Proof. induction s; [done|]. by rewrite !sapp_cons, IHs. Qed.

Lemma len_app s t : len (s +:+ t) = (len s + len t).
Proof. induction s; [done|]. rewrite sapp_cons. unfold len in *; cbn. lia. Qed.

Lemma len_nil : len EmptyString = 0. Proof. done. Qed.
Lemma len_cons c s : len (String c s) = S (len s). Proof. done. Qed.

Lemma len_0 s : len s = 0 → s = EmptyString.
Proof. by destruct s. Qed.

Lemma stake_app s t : stake (len s) (s +:+ t) = s.
Proof. induction s; [by destruct t|]. rewrite sapp_cons, len_cons; cbn. by f_equal. Qed.

Lemma sdrop_app s t : sdrop (len s) (s +:+ t) = t.
Proof. induction s; [done|]. by rewrite sapp_cons, len_cons. Qed.

Lemma sdrop_app_add s t n : sdrop (len s + n) (s +:+ t) = sdrop n t.
Proof. induction s; [done|]. by rewrite sapp_cons, len_cons. Qed.

Lemma sdrop_nil n : sdrop n EmptyString = EmptyString.
Proof. by destruct n. Qed.

Lemma stake_nil n : stake n EmptyString = EmptyString.
Proof. by destruct n. Qed.

Lemma stake_all s : stake (len s) s = s.
Proof. rewrite <- (sapp_nil_r s) at 2. apply stake_app. Qed.

Lemma stake_sdrop n s : stake n s +:+ sdrop n s = s.
Proof.
  revert s; induction n; intros [|c s]; cbn; try done.
  rewrite sapp_cons. by f_equal.
Qed.

Lemma len_stake n s : len (stake n s) = (n `min` len s).
Proof. revert s; induction n; intros [|c s]; try done. cbn [stake]. rewrite !len_cons, IHn. lia. Qed.

Lemma len_sdrop n s : len (sdrop n s) = (len s - n).
Proof. revert s; induction n; intros [|c s]; try done. cbn [sdrop]. rewrite len_cons, IHn. lia. Qed.

Lemma app_inv_len s1 s2 t1 t2 :
  len s1 = len s2 → s1 +:+ t1 = s2 +:+ t2 → s1 = s2 ∧ t1 = t2.
Proof.
  revert s2; induction s1; intros [|d s2] Hl; rewrite ?len_cons in Hl; try done.
  rewrite !sapp_cons. intros [= -> H]. destruct (IHs1 s2) as [-> ->]; auto.
Qed.

Lemma app_inj_l s t1 t2 : s +:+ t1 = s +:+ t2 → t1 = t2.
Proof. intros H. by apply (inj (String.append s)) in H. Qed.

Lemma app_inj_r s1 s2 t : s1 +:+ t = s2 +:+ t → s1 = s2.
Proof.
  intros H. apply (app_inv_len s1 s2 t t); [|done].
  apply (f_equal len) in H. rewrite !len_app in H. lia.
Qed.

Lemma HasPrefix_true s p : HasPrefix s p = true ↔ ∃ t, s = p +:+ t.
Proof.
  unfold HasPrefix. split.
  - revert s; induction p as [|c p IH]; intros s; [by exists s|].
    destruct s as [|d s]; cbn; [done|].
    destruct (ascii_dec c d) as [->|]; [|done].
    intros [t ->]%IH. by exists t.
  - intros [t ->]. induction p as [|c p IH]; [by destruct t|].
    rewrite sapp_cons; cbn. by destruct (ascii_dec c c).
Qed.

Lemma HasPrefix_app p t : HasPrefix (p +:+ t) p = true.
Proof. apply HasPrefix_true. eauto. Qed.

Lemma HasPrefix_cons c d s t :
  HasPrefix (String c s) (String d t) = Ascii.eqb c d && HasPrefix s t.
Proof.
  unfold HasPrefix; cbn. destruct (Ascii.eqb_spec c d) as [->|Hn].
  - by destruct (ascii_dec d d).
  - destruct (ascii_dec d c); [by subst|done].
Qed.

Lemma HasPrefix_nil s : HasPrefix s EmptyString = true.
Proof. by destruct s. Qed.

Lemma sforall_app p s t : sforall p (s +:+ t) = sforall p s && sforall p t.
Proof. induction s; [done|]. rewrite sapp_cons; cbn. by rewrite IHs, andb_assoc. Qed.

Lemma sforall_split p k s : sforall p s = sforall p (stake k s) && sforall p (sdrop k s).
Proof. by rewrite <- sforall_app, stake_sdrop. Qed.

Lemma sforall_impl (p q : ascii → bool) s :
  (∀ c, p c = true → q c = true) → sforall p s = true → sforall q s = true.
Proof.
  intros Hpq. induction s as [|c s IH]; cbn; [done|].
  intros [Hc Hs]%andb_true_iff. rewrite (Hpq _ Hc). by apply IH.
Qed.

Lemma has_byte_false c s :
  has_byte c s = false ↔ sforall (λ d, negb (Ascii.eqb c d)) s = true.
Proof. unfold has_byte, sexists. by rewrite negb_false_iff. Qed.

Lemma has_byte_app c s t : has_byte c (s +:+ t) = has_byte c s || has_byte c t.
Proof. unfold has_byte, sexists. by rewrite sforall_app, negb_andb. Qed.

Lemma has_byte_cons c d s : has_byte c (String d s) = Ascii.eqb c d || has_byte c s.
Proof. unfold has_byte, sexists; cbn. rewrite negb_andb, negb_involutive. done. Qed.

Lemma Contains_byte c s : Contains s (str1 c) = has_byte c s.
Proof.
  unfold Contains. induction s as [|d s IH]; [done|].
  cbn [Index]. unfold str1 at 1. rewrite HasPrefix_cons, HasPrefix_nil, andb_true_r, has_byte_cons.
  rewrite Ascii.eqb_sym. destruct (Ascii.eqb c d); cbn; [done|].
  rewrite <- IH. by destruct (Index s (str1 c)).
Qed.

Lemma IndexP_None p s : IndexP p s = None ↔ sforall (λ c, negb (p c)) s = true.
Proof.
  induction s as [|c s IH]; cbn; [done|].
  destruct (p c); cbn; [split; done|].
  rewrite <- IH. destruct (IndexP p s); cbn; split; congruence.
Qed.

Lemma IndexByte_None s c : IndexByte s c = None ↔ has_byte c s = false.
Proof. unfold IndexByte. by rewrite IndexP_None, has_byte_false. Qed.

(** Splitting at the first byte that satisfies [p]. *)
Lemma IndexP_Some p s i :
  IndexP p s = Some i ↔
  ∃ a c b, s = a +:+ String c b ∧ len a = i ∧ p c = true ∧ sforall (λ d, negb (p d)) a = true.
Proof.
  split.
  - revert i; induction s as [|c s IH]; intros i; cbn; [done|].
    destruct (p c) eqn:Hc.
    + intros [= <-]. by exists EmptyString, c, s.
    + destruct (IndexP p s) eqn:E; [|done]. cbn. intros [= <-].
      destruct (IH _ eq_refl) as (a & d & b & -> & Hl & Hd & Ha).
      exists (String c a), d, b. rewrite sapp_cons, len_cons, Hl; cbn.
      by rewrite Hc, Ha.
  - intros (a & c & b & -> & <- & Hc & Ha). induction a as [|d a IH].
    + rewrite sapp_nil_l; cbn. by rewrite Hc.
    + cbn in Ha. apply andb_true_iff in Ha as [Hd Ha]. apply negb_true_iff in Hd.
      rewrite sapp_cons; cbn. by rewrite Hd, IH.
Qed.

Lemma IndexByte_app a c b :
  has_byte c a = false → IndexByte (a +:+ String c b) c = Some (len a).
Proof.
  intros Ha. apply IndexP_Some. exists a, c, b.
  rewrite Ascii.eqb_refl. by apply has_byte_false in Ha.
Qed.

Lemma IndexByte_Some s c i :
  IndexByte s c = Some i ↔
  ∃ a b, s = a +:+ String c b ∧ len a = i ∧ has_byte c a = false.
Proof.
  unfold IndexByte. rewrite IndexP_Some. split.
  - intros (a & d & b & -> & Hl & Hc & Ha). apply Ascii.eqb_eq in Hc as <-.
    exists a, b. by rewrite has_byte_false.
  - intros (a & b & -> & Hl & Ha). exists a, c, b.
    rewrite Ascii.eqb_refl. by rewrite <- has_byte_false.
Qed.

Lemma CutByte_app a c b :
  has_byte c a = false → CutByte (a +:+ String c b) c = (a, b, true).
Proof.
  intros Ha. unfold CutByte. rewrite IndexByte_app by done.
  rewrite stake_app. f_equal. f_equal.
  replace (S (len a)) with (len a + 1) by lia. by rewrite sdrop_app_add.
Qed.

Lemma SplitN_app a c b n :
  has_byte c a = false → SplitN (a +:+ String c b) c (S (S n)) = a :: SplitN b c (S n).
Proof.
  intros Ha. cbn [SplitN]. rewrite IndexByte_app by done.
  rewrite stake_app. f_equal.
  replace (S (len a)) with (len a + 1) by lia. by rewrite sdrop_app_add.
Qed.

Lemma sflat_map_app f s t : sflat_map f (s +:+ t) = sflat_map f s +:+ sflat_map f t.
Proof. induction s; [done|]. rewrite sapp_cons; cbn. by rewrite IHs, app_assoc_s. Qed.

Lemma byte_val_inj c d : byte_val c = byte_val d → c = d.
Proof.
  unfold byte_val. intros H. rewrite <- (ascii_N_embedding c), <- (ascii_N_embedding d).
  by rewrite H.
Qed.

Lemma byte_val_of n : (n < 256)%N → byte_val (byte_of n) = n.
Proof. intros. by apply N_ascii_embedding. Qed.

Lemma byte_val_bound c : (byte_val c < 256)%N.
Proof. apply N_ascii_bounded. Qed.

Lemma Compare_refl a : Compare a a = 0%Z.
Proof.
  unfold Compare. enough (String.compare a a = Eq) as -> by done.
  induction a; cbn; [done|]. unfold Ascii.compare. by rewrite N.compare_refl.
Qed.

Lemma Compare_antisym a b : Compare b a = (- Compare a b)%Z.
Proof. unfold Compare. rewrite String.compare_antisym. by destruct (String.compare a b). Qed.

Lemma Compare_eq a b : Compare a b = 0%Z → a = b.
Proof. unfold Compare. destruct (String.compare a b) eqn:E; try done. by apply String.compare_eq_iff in E. Qed.

#[export] Hint Rewrite sapp_nil_r sapp_nil_l sapp_cons app_assoc_s len_app len_cons len_nil
  stake_app sdrop_app sforall_app has_byte_app has_byte_cons : go.

#[global] Arguments len : simpl never.

(** Compute away a case analysis over all 256 bytes. *)
Ltac byte_cases c := destruct c as [[] [] [] [] [] [] [] []]; vm_compute; try done; try congruence.
