(* ===== verification/GoSort.v ===== *)
(** * Sorting strings

    [slices.Sort] on strings.  The order of strings is total, so the result
    depends only on which strings are sorted. *)

From S2P Require Import Prelude GoStrings.
From Stdlib Require Import OrdersEx.
From stdpp Require Import sorting options.

Definition str_le (a b : string) : Prop := String.leb a b = true.
#[global] Instance str_le_dec a b : Decision (str_le a b).
Proof. unfold str_le. apply _. Defined.
Definition Sort (l : list string) : list string := merge_sort str_le l.

Lemma str_le_cons a b s t : str_le (String a s) (String b t) ↔ (N_of_ascii a < N_of_ascii b)%N ∨ (a = b ∧ str_le s t).
Proof.
  unfold str_le, String.leb. cbn [String.compare]. unfold Ascii.compare. destruct (N.compare_spec (N_of_ascii a) (N_of_ascii b)) as [E|E|E].
  - assert (a = b) as <- by (rewrite <- (ascii_N_embedding a), E; apply ascii_N_embedding). split; [by right|]. intros [|[_ ?]]; [lia|done].
  - split; [by left|done].
  - split; [done|]. intros [|[-> _]]; lia.
Qed.

#[global] Instance str_le_po : PartialOrder str_le.
Proof.
  split; [split|].
  - intros s. induction s as [|c s IH]; [done|]. apply str_le_cons. by right.
  - intros s. induction s as [|c s IH]; intros [|d t] [|e u]; try done. rewrite !str_le_cons.
    intros [H1|[-> H1]] [H2|[-> H2]]; [left; lia|by left|by left|]. right. split; [done|]. by apply (IH t).
  - intros s. induction s as [|c s IH]; intros [|d t]; try done. rewrite !str_le_cons. intros [H1|[-> H1]] [H2|[E H2]]; [lia|subst; lia|lia|].
    f_equal. by apply IH.
Qed.

#[global] Instance str_le_total : Total str_le.
Proof.
  intros s. induction s as [|c s IH]; intros [|d t]; [by left|by left|by right|]. rewrite !str_le_cons.
  destruct (N.lt_trichotomy (N_of_ascii c) (N_of_ascii d)) as [E|[E|E]]; [by left; left| |by right; left].
  assert (c = d) as <- by (rewrite <- (ascii_N_embedding c), E; apply ascii_N_embedding). destruct (IH t); [left|right]; by right.
Qed.

Lemma Sort_perm l : Sort l ≡ₚ l.
Proof. apply merge_sort_Permutation. Qed.

Lemma Sort_sorted l : StronglySorted str_le (Sort l).
Proof. apply StronglySorted_merge_sort; apply _. Qed.

(** The order of the input does not matter. *)
Lemma Sort_ext l l' : l ≡ₚ l' → Sort l = Sort l'.
Proof.
  intros H. apply (StronglySorted_unique str_le); [apply Sort_sorted..|]. by rewrite !Sort_perm.
Qed.
