(* ===== verification/Utf8.v ===== *)
(** * UTF-8

    Go's [unicode/utf8] and the [for _, r := range s] loop: a rune is a code
    point in [N]; a byte that starts no well-formed sequence decodes to
    [RuneError] with width 1. *)

From S2P Require Import Prelude GoStrings.
From stdpp Require Import options.

#[local] Open Scope N_scope.

Definition rune : Type := N.
Definition RuneError : rune := 0xFFFD.

Definition in_range (lo hi n : N) : bool := (lo <=? n) && (n <=? hi).
Definition cont (b : ascii) : bool := in_range 0x80 0xBF (byte_val b).

(** The accept range of the second byte of a sequence starting with [b0]. *)
Definition second_ok (b0 b1 : ascii) : bool :=
  let b := byte_val b0 in
  let c := byte_val b1 in
  if b =? 0xE0 then in_range 0xA0 0xBF c
  else if b =? 0xED then in_range 0x80 0x9F c
  else if b =? 0xF0 then in_range 0x90 0xBF c
  else if b =? 0xF4 then in_range 0x80 0x8F c
  else in_range 0x80 0xBF c.

Definition low6 (b : ascii) : N := byte_val b - 0x80.
Definition rune2 (b0 b1 : ascii) : rune := (byte_val b0 - 0xC0) * 64 + low6 b1.
Definition rune3 (b0 b1 b2 : ascii) : rune :=
  ((byte_val b0 - 0xE0) * 64 + low6 b1) * 64 + low6 b2.
Definition rune4 (b0 b1 b2 b3 : ascii) : rune :=
  (((byte_val b0 - 0xF0) * 64 + low6 b1) * 64 + low6 b2) * 64 + low6 b3.

(** [utf8.DecodeRuneInString]: the rune and its width. *)
Definition DecodeRune (s : string) : rune * nat :=
  match s with
  | EmptyString => (RuneError, 0%nat)
  | String b0 s1 =>
      let n := byte_val b0 in
      if n <? 0x80 then (n, 1%nat)
      else match s1 with
      | EmptyString => (RuneError, 1%nat)
      | String b1 s2 =>
          if in_range 0xC2 0xDF n then
            if second_ok b0 b1 then (rune2 b0 b1, 2%nat) else (RuneError, 1%nat)
          else match s2 with
          | EmptyString => (RuneError, 1%nat)
          | String b2 s3 =>
              if in_range 0xE0 0xEF n then
                if second_ok b0 b1 && cont b2 then (rune3 b0 b1 b2, 3%nat)
                else (RuneError, 1%nat)
              else match s3 with
              | EmptyString => (RuneError, 1%nat)
              | String b3 _ =>
                  if in_range 0xF0 0xF4 n && second_ok b0 b1 && cont b2 && cont b3
                  then (rune4 b0 b1 b2 b3, 4%nat) else (RuneError, 1%nat)
              end
          end
      end
  end.

(** [utf8.ValidRune]. *)
Definition valid_rune (r : rune) : bool :=
  (r <? 0xD800) || in_range 0xE000 0x10FFFF r.

(** [strings.Builder.WriteRune]: an invalid rune is written as [RuneError]. *)
Definition encode_rune (r : rune) : string :=
  let r := if valid_rune r then r else RuneError in
  if r <=? 0x7F then str1 (byte_of r)
  else if r <=? 0x7FF then
    String (byte_of (0xC0 + r / 64)) (str1 (byte_of (0x80 + r mod 64)))
  else if r <=? 0xFFFF then
    String (byte_of (0xE0 + r / 4096))
      (String (byte_of (0x80 + (r / 64) mod 64)) (str1 (byte_of (0x80 + r mod 64))))
  else
    String (byte_of (0xF0 + r / 262144))
      (String (byte_of (0x80 + (r / 4096) mod 64))
        (String (byte_of (0x80 + (r / 64) mod 64)) (str1 (byte_of (0x80 + r mod 64))))).

(** The runes of [range s], each with its width, in order; [fuel] bounds the
    number of steps and [len s] is enough. *)
Fixpoint runes_go (fuel : nat) (s : string) : list (rune * nat) :=
  match fuel, s with
  | S fuel, String _ _ =>
      let '(r, w) := DecodeRune s in (r, w) :: runes_go fuel (sdrop w s)
  | _, _ => []
  end.
Definition runes_w (s : string) : list (rune * nat) := runes_go (len s) s.
Definition runes (s : string) : list rune := (runes_w s).*1.

(** [utf8.ValidString]. *)
Definition ValidString (s : string) : bool :=
  forallb (λ rw, negb ((rw.1 =? RuneError) && (rw.2 =? 1)%nat)) (runes_w s).

Definition write_runes (l : list rune) : string :=
  foldr (λ r s, encode_rune r +:+ s) EmptyString l.

(** ** Lemmas *)

Lemma DecodeRune_width s : s ≠ EmptyString → (1 ≤ (DecodeRune s).2 ≤ len s)%nat.
Proof.
  destruct s as [|b0 s]; [done|intros _]. unfold DecodeRune, len.
  repeat (case_match; cbn); lia.
Qed.

Lemma runes_go_enough n s : (len s ≤ n)%nat → runes_go n s = runes_w s.
Proof.
  unfold runes_w.
  enough (∀ n m s, len s ≤ n → len s ≤ m → runes_go n s = runes_go m s)%nat as H by (intros; apply H; lia).
  clear n s. induction n as [|n IH]; intros [|m] [|c s]; rewrite ?len_cons, ?len_nil; try done; try lia.
  intros Hn Hm. cbn [runes_go]. pose proof (DecodeRune_width (String c s) ltac:(done)) as Hw.
  destruct (DecodeRune _) as [r w] eqn:E. cbn in Hw. f_equal. rewrite len_cons in Hw.
  apply IH; rewrite len_sdrop, len_cons; lia.
Qed.

Lemma runes_w_step s :
  s ≠ EmptyString → runes_w s = DecodeRune s :: runes_w (sdrop (DecodeRune s).2 s).
Proof.
  destruct s as [|c s]; [done|intros Hs].
  unfold runes_w at 1. rewrite len_cons. cbn [runes_go].
  pose proof (DecodeRune_width (String c s) Hs) as Hw. rewrite len_cons in Hw.
  destruct (DecodeRune _) as [r w]. cbn in *. f_equal.
  apply runes_go_enough. rewrite len_sdrop, len_cons. lia.
Qed.

Lemma runes_step s :
  s ≠ EmptyString → runes s = (DecodeRune s).1 :: runes (sdrop (DecodeRune s).2 s).
Proof. intros. unfold runes. by rewrite runes_w_step. Qed.

Lemma DecodeRune_ascii c s : byte_val c < 0x80 → DecodeRune (String c s) = (byte_val c, 1%nat).
Proof. intros H. unfold DecodeRune. by apply N.ltb_lt in H as ->. Qed.

(** A rune below [0x80] is decoded from that byte and from nothing else. *)
Lemma DecodeRune_small c s r w :
  DecodeRune (String c s) = (r, w) → r < 0x80 → byte_val c = r ∧ w = 1%nat.
Proof.
  unfold DecodeRune, rune2, rune3, rune4, RuneError, second_ok, in_range, cont, low6.
  destruct (N.ltb_spec (byte_val c) 0x80) as [Hc|Hc]; [intros [= <- <-]; done|].
  repeat case_match; intros [= <- <-] ?; bool_cases;
    repeat match goal with
    | H : (_ <=? _) = true |- _ => apply N.leb_le in H
    | H : (_ =? _) = true |- _ => apply N.eqb_eq in H
    | H : (_ =? _) = false |- _ => apply N.eqb_neq in H
    end; lia.
Qed.

Lemma string_len_ind (P : string → Prop) :
  (∀ s, (∀ t, (len t < len s)%nat → P t) → P s) → ∀ s, P s.
Proof.
  intros H s. remember (len s) as n eqn:E.
  revert s E. induction n as [n IH] using lt_wf_ind. intros s ->.
  apply H. intros t Ht. by apply (IH (len t)).
Qed.

(** The bytes of a sequence that decodes to a rune of [0x80] or more, or of an
    invalid byte, are themselves [0x80] or more. *)
Lemma DecodeRune_high s r w :
  DecodeRune s = (r, w) → 0x80 ≤ r →
  sforall (λ c, 0x80 <=? byte_val c) (stake w s) = true.
Proof.
  intros E Hr. destruct s as [|c s]; cbn in E; [by injection E as <- <-|].
  destruct (N.ltb_spec (byte_val c) 0x80) as [Hc|Hc]; [injection E as <- <-; lia|].
  apply N.leb_le in Hc.
  assert (∀ b, cont b = true → (0x80 <=? byte_val b) = true) as Hcont.
  { intros b Hb. unfold cont, in_range in Hb. by bool_cases. }
  assert (∀ a b, second_ok a b = true → (0x80 <=? byte_val b) = true) as Hsec.
  { intros a b Hb. unfold second_ok, in_range in Hb. apply N.leb_le.
    repeat case_match; bool_cases;
    repeat match goal with H : (_ <=? _) = true |- _ => apply N.leb_le in H end; lia. }
  repeat case_match; injection E as <- <-; bool_cases; cbn [stake sforall];
    rewrite ?Hc; cbn [andb]; erewrite ?Hsec, ?Hcont by eauto; done.
Qed.

(** Checking every rune against an ASCII-only predicate is checking every
    byte: no byte of a longer sequence, and no invalid byte, is ASCII. *)
Lemma forallb_runes_bytes (p : rune → bool) s :
  (∀ r, 0x80 ≤ r → p r = true) →
  forallb p (runes s) = sforall (λ c, p (byte_val c)) s.
Proof.
  intros Hp. induction s as [s IH] using string_len_ind.
  destruct s as [|c s]; [done|].
  rewrite runes_step by done. cbn [forallb].
  pose proof (DecodeRune_width (String c s) ltac:(done)) as Hw. rewrite len_cons in Hw.
  destruct (DecodeRune (String c s)) as [r w] eqn:E. cbn [fst snd] in *.
  rewrite IH by (rewrite len_sdrop, len_cons; lia).
  rewrite (sforall_split _ w (String c s)). f_equal.
  destruct (N.lt_ge_cases r 0x80) as [Hr|Hr].
  - apply DecodeRune_small in E as [<- ->]; [|done]. cbn [stake sforall].
    by rewrite andb_true_r.
  - rewrite Hp by done. symmetry.
    eapply sforall_impl; [|by eapply DecodeRune_high].
    intros b Hb%N.leb_le. by apply Hp.
Qed.

(** The same for a predicate that holds of ASCII runes only. *)
Lemma forallb_runes_ascii (p : rune → bool) s :
  (∀ r, 0x80 ≤ r → p r = false) →
  forallb p (runes s) = sforall (λ c, p (byte_val c)) s.
Proof.
  intros Hp. induction s as [s IH] using string_len_ind.
  destruct s as [|c s]; [done|].
  rewrite runes_step by done. cbn [forallb].
  pose proof (DecodeRune_width (String c s) ltac:(done)) as Hw. rewrite len_cons in Hw.
  destruct (DecodeRune (String c s)) as [r w] eqn:E. cbn [fst snd] in *.
  destruct (N.lt_ge_cases r 0x80) as [Hr|Hr].
  - apply DecodeRune_small in E as [<- ->]; [|done]. cbn [sdrop sforall]. rewrite IH by (rewrite len_cons; lia). done.
  - rewrite Hp by done. cbn [andb sforall]. apply DecodeRune_high in E; [|done]. destruct w as [|w]; [lia|].
    cbn [stake sforall] in E. apply andb_true_iff in E as [E%N.leb_le _]. by rewrite Hp.
Qed.

(** ** Encoding and decoding *)

Lemma byte_of_val c : byte_of (byte_val c) = c.
Proof. apply ascii_N_embedding. Qed.

(** Decide the comparisons of the goal that follow from the context. *)
Ltac decide_tests :=
  repeat match goal with
  | |- context [?a <? ?b] =>
      first [replace (a <? b) with true by (symmetry; apply N.ltb_lt; lia)
            |replace (a <? b) with false by (symmetry; apply N.ltb_ge; lia)]
  | |- context [?a <=? ?b] =>
      first [replace (a <=? b) with true by (symmetry; apply N.leb_le; lia)
            |replace (a <=? b) with false by (symmetry; apply N.leb_gt; lia)]
  | |- context [?a =? ?b] =>
      first [replace (a =? b) with true by (symmetry; apply N.eqb_eq; lia)
            |replace (a =? b) with false by (symmetry; apply N.eqb_neq; lia)]
  end; cbn [andb orb negb].

Lemma encode_rune_eq (v : rune) : valid_rune v = true → encode_rune v =
  if v <=? 0x7F then str1 (byte_of v)
  else if v <=? 0x7FF then String (byte_of (0xC0 + v / 64)) (str1 (byte_of (0x80 + v mod 64)))
  else if v <=? 0xFFFF then
    String (byte_of (0xE0 + v / 64 / 64)) (String (byte_of (0x80 + (v / 64) mod 64)) (str1 (byte_of (0x80 + v mod 64))))
  else
    String (byte_of (0xF0 + v / 64 / 64 / 64)) (String (byte_of (0x80 + (v / 64 / 64) mod 64))
      (String (byte_of (0x80 + (v / 64) mod 64)) (str1 (byte_of (0x80 + v mod 64))))).
Proof. intros Hv. unfold encode_rune. rewrite Hv, !N.Div0.div_div. done. Qed.

Lemma valid_rune_true r : valid_rune r = true ↔ r < 0xD800 ∨ 0xE000 ≤ r ∧ r ≤ 0x10FFFF.
Proof. unfold valid_rune, in_range. by rewrite orb_true_iff, andb_true_iff, N.ltb_lt, !N.leb_le. Qed.

Lemma div64 a b : b < 64 → (a * 64 + b) / 64 = a ∧ (a * 64 + b) mod 64 = b.
Proof.
  intros Hb. rewrite (N.add_comm _ b), N.div_add, N.Div0.mod_add, N.div_small, N.mod_small by lia. done.
Qed.

Lemma encode_rune_1 r : r ≤ 0x7F → encode_rune r = str1 (byte_of r).
Proof.
  intros H. rewrite encode_rune_eq by (apply valid_rune_true; lia). by decide_tests.
Qed.

Lemma encode_rune_2 a b : 2 ≤ a → a < 32 → b < 64 →
  encode_rune (a * 64 + b) = String (byte_of (0xC0 + a)) (str1 (byte_of (0x80 + b))).
Proof.
  intros. destruct (div64 a b) as [Q1 R1]; [done|].
  rewrite encode_rune_eq by (apply valid_rune_true; lia). rewrite Q1, R1. by decide_tests.
Qed.

Lemma encode_rune_3 a b c : a < 16 → b < 64 → c < 64 → (a = 0 → 32 ≤ b) → (a = 13 → b < 32) →
  encode_rune ((a * 64 + b) * 64 + c) =
  String (byte_of (0xE0 + a)) (String (byte_of (0x80 + b)) (str1 (byte_of (0x80 + c)))).
Proof.
  intros. destruct (div64 a b) as [Q1 R1]; [done|]. destruct (div64 (a * 64 + b) c) as [Q2 R2]; [done|].
  rewrite encode_rune_eq by (apply valid_rune_true; lia). rewrite R2, Q2, R1, Q1. by decide_tests.
Qed.

Lemma encode_rune_4 a b c d : a < 5 → b < 64 → c < 64 → d < 64 → (a = 0 → 16 ≤ b) → (a = 4 → b < 16) →
  encode_rune (((a * 64 + b) * 64 + c) * 64 + d) =
  String (byte_of (0xF0 + a)) (String (byte_of (0x80 + b)) (String (byte_of (0x80 + c)) (str1 (byte_of (0x80 + d))))).
Proof.
  intros. destruct (div64 a b) as [Q1 R1]; [done|]. destruct (div64 (a * 64 + b) c) as [Q2 R2]; [done|].
  destruct (div64 ((a * 64 + b) * 64 + c) d) as [Q3 R3]; [done|].
  rewrite encode_rune_eq by (apply valid_rune_true; lia). rewrite R3, Q3, R2, Q2, R1, Q1. by decide_tests.
Qed.

(** A valid rune has one of the four shapes. *)
Lemma valid_rune_shape r : valid_rune r = true →
  r ≤ 0x7F ∨
  (∃ a b, r = a * 64 + b ∧ 2 ≤ a ∧ a < 32 ∧ b < 64) ∨
  (∃ a b c, r = (a * 64 + b) * 64 + c ∧ a < 16 ∧ b < 64 ∧ c < 64 ∧ (a = 0 → 32 ≤ b) ∧ (a = 13 → b < 32)) ∨
  (∃ a b c d, r = ((a * 64 + b) * 64 + c) * 64 + d ∧ a < 5 ∧ b < 64 ∧ c < 64 ∧ d < 64 ∧ (a = 0 → 16 ≤ b) ∧ (a = 4 → b < 16)).
Proof.
  intros Hr%valid_rune_true. pose proof (N.div_mod' r 64) as H0. pose proof (N.mod_lt r 64 ltac:(lia)) as M0.
  set (q := r / 64) in *. set (m0 := r mod 64) in *.
  pose proof (N.div_mod' q 64) as H1. pose proof (N.mod_lt q 64 ltac:(lia)) as M1.
  set (q1 := q / 64) in *. set (m1 := q mod 64) in *.
  pose proof (N.div_mod' q1 64) as H2. pose proof (N.mod_lt q1 64 ltac:(lia)) as M2.
  set (q2 := q1 / 64) in *. set (m2 := q1 mod 64) in *. clearbody q m0 q1 m1 q2 m2.
  destruct (N.le_gt_cases r 0x7F); [by left|right].
  destruct (N.le_gt_cases r 0x7FF); [left; exists q, m0; split_and!; lia|right].
  destruct (N.le_gt_cases r 0xFFFF); [left; exists q1, m1, m0; split_and!; lia|right].
  exists q2, m2, m1, m0. split_and!; lia.
Qed.

(** Decode what was encoded. *)
Lemma DecodeRune_encode r t :
  valid_rune r = true → DecodeRune (encode_rune r +:+ t) = (r, len (encode_rune r)).
Proof.
  intros [Hr|[(a & b & -> & ? & ? & ?)|[(a & b & c & -> & ? & ? & ? & ? & ?)|(a & b & c & d & -> & ? & ? & ? & ? & ? & ?)]]]%valid_rune_shape.
  - rewrite encode_rune_1 by done. unfold str1. rewrite sapp_cons, sapp_nil_l. unfold DecodeRune.
    rewrite byte_val_of by lia. by decide_tests.
  - rewrite encode_rune_2 by done. unfold str1. rewrite !sapp_cons, sapp_nil_l.
    unfold DecodeRune, second_ok, rune2, low6, in_range. rewrite !byte_val_of by lia. decide_tests.
    f_equal. lia.
  - rewrite encode_rune_3 by done. unfold str1. rewrite !sapp_cons, sapp_nil_l.
    unfold DecodeRune, second_ok, cont, rune3, low6, in_range. rewrite !byte_val_of by lia.
    destruct (N.eqb_spec a 0), (N.eqb_spec a 13); decide_tests; f_equal; lia.
  - rewrite encode_rune_4 by done. unfold str1. rewrite !sapp_cons, sapp_nil_l.
    unfold DecodeRune, second_ok, cont, rune4, low6, in_range. rewrite !byte_val_of by lia.
    destruct (N.eqb_spec a 0), (N.eqb_spec a 4); decide_tests; f_equal; lia.
Qed.

Lemma encode_rune_nonempty r : encode_rune r ≠ EmptyString.
Proof. unfold encode_rune. by repeat case_match. Qed.

(** A rune a well-formed sequence stands for, in its shape. *)
Lemma in_range_true lo hi n : in_range lo hi n = true ↔ lo ≤ n ∧ n ≤ hi.
Proof. unfold in_range. by rewrite andb_true_iff, !N.leb_le. Qed.

Lemma second_ok_range b0 b1 : second_ok b0 b1 = true →
  0x80 ≤ byte_val b1 ∧ byte_val b1 ≤ 0xBF ∧ (byte_val b0 = 0xE0 → 0xA0 ≤ byte_val b1) ∧
  (byte_val b0 = 0xED → byte_val b1 ≤ 0x9F) ∧ (byte_val b0 = 0xF0 → 0x90 ≤ byte_val b1) ∧
  (byte_val b0 = 0xF4 → byte_val b1 ≤ 0x8F).
Proof.
  unfold second_ok. repeat case_match; rewrite in_range_true; rewrite ?N.eqb_eq, ?N.eqb_neq in *; lia.
Qed.

(** Encode what was decoded. *)
Lemma encode_DecodeRune s r w :
  DecodeRune s = (r, w) → s ≠ EmptyString → (r =? RuneError) && (w =? 1)%nat = false →
  valid_rune r = true ∧ encode_rune r = stake w s.
Proof.
  destruct s as [|b0 s]; [done|]. intros E _ Hne. revert E. unfold DecodeRune.
  assert (Hb : ∀ x c, x = byte_val c → byte_of x = c) by (intros x c ->; apply ascii_N_embedding).
  assert (Hbad : (RuneError, 1%nat) = (r, w) → False) by (intros [= <- <-]; done).
  destruct (N.ltb_spec (byte_val b0) 0x80) as [H0|H0].
  { intros [= <- <-]. rewrite encode_rune_1 by lia. rewrite (Hb _ _ eq_refl). split; [|done].
    apply valid_rune_true. lia. }
  destruct s as [|b1 s]; [intros []%Hbad|]. destruct (in_range 0xC2 0xDF _) eqn:R2.
  { apply in_range_true in R2. destruct (second_ok b0 b1) eqn:S1; [|intros []%Hbad].
    apply second_ok_range in S1. intros [= <- <-]. unfold rune2, low6.
    rewrite encode_rune_2 by lia. cbn [stake]. rewrite (Hb _ b0), (Hb _ b1) by lia. split; [|done].
    apply valid_rune_true. lia. }
  destruct s as [|b2 s]; [intros []%Hbad|]. destruct (in_range 0xE0 0xEF _) eqn:R3.
  { apply in_range_true in R3. destruct (second_ok b0 b1) eqn:S1, (cont b2) eqn:S2; try (intros []%Hbad).
    apply second_ok_range in S1. apply in_range_true in S2. cbn [andb]. intros [= <- <-]. unfold rune3, low6.
    rewrite encode_rune_3 by lia. cbn [stake]. rewrite (Hb _ b0), (Hb _ b1), (Hb _ b2) by lia. split; [|done].
    apply valid_rune_true. lia. }
  destruct s as [|b3 s]; [intros []%Hbad|].
  destruct (in_range 0xF0 0xF4 _) eqn:R4, (second_ok b0 b1) eqn:S1, (cont b2) eqn:S2, (cont b3) eqn:S3; cbn [andb]; try (intros []%Hbad).
  apply in_range_true in R4, S2, S3. apply second_ok_range in S1. intros [= <- <-]. unfold rune4, low6.
  rewrite encode_rune_4 by lia. cbn [stake]. rewrite (Hb _ b0), (Hb _ b1), (Hb _ b2), (Hb _ b3) by lia. split; [|done].
  apply valid_rune_true. lia.
Qed.

(** ** Valid strings *)

Definition valid_runes (l : list rune) : Prop := Forall (λ r, valid_rune r = true) l.

Lemma write_runes_cons r l : write_runes (r :: l) = encode_rune r +:+ write_runes l.
Proof. done. Qed.

Lemma write_runes_app l l' : write_runes (l ++ l') = write_runes l +:+ write_runes l'.
Proof. induction l as [|r l IH]; [done|]. cbn [app]. by rewrite !write_runes_cons, IH, app_assoc_s. Qed.

Lemma runes_w_encode r t : valid_rune r = true → runes_w (encode_rune r +:+ t) = (r, len (encode_rune r)) :: runes_w t.
Proof.
  intros Hr. rewrite runes_w_step.
  - rewrite DecodeRune_encode by done. cbn [snd]. by rewrite sdrop_app.
  - pose proof (encode_rune_nonempty r). by destruct (encode_rune r).
Qed.

Lemma runes_write l : valid_runes l → runes (write_runes l) = l.
Proof.
  induction 1 as [|r l Hr _ IH]; [done|]. unfold runes. rewrite write_runes_cons, runes_w_encode by done.
  cbn. by f_equal.
Qed.

Lemma ValidString_write l : valid_runes l → ValidString (write_runes l) = true.
Proof.
  induction 1 as [|r l Hr _ IH]; [done|]. unfold ValidString in *. rewrite write_runes_cons, runes_w_encode by done.
  cbn [forallb]. rewrite IH, andb_true_r. cbn [fst snd]. destruct (N.eqb_spec r RuneError) as [->|]; [|done]. by vm_compute.
Qed.

Lemma ValidString_inv s : ValidString s = true → valid_runes (runes s) ∧ write_runes (runes s) = s.
Proof.
  induction s as [s IH] using string_len_ind. destruct s as [|c s]; [by repeat constructor|].
  unfold ValidString. rewrite runes_w_step by done. cbn [forallb]. intros [H1%negb_true_iff H2]%andb_true_iff.
  pose proof (DecodeRune_width (String c s) ltac:(done)) as Hw.
  destruct (DecodeRune (String c s)) as [r w] eqn:E. cbn [fst snd] in *.
  destruct (encode_DecodeRune _ _ _ E) as [Hv He]; [done..|].
  destruct (IH (sdrop w (String c s))) as [H3 H4]; [rewrite len_sdrop; lia|done|].
  rewrite runes_step by done. rewrite E. cbn [fst snd]. split; [by constructor|].
  rewrite write_runes_cons, H4, He. apply stake_sdrop.
Qed.

Lemma ValidString_iff s : ValidString s = true ↔ ∃ l, valid_runes l ∧ s = write_runes l.
Proof.
  split.
  - intros [H1 H2]%ValidString_inv. by exists (runes s).
  - intros (l & Hl & ->). by apply ValidString_write.
Qed.

Lemma ValidString_app s t : ValidString s = true → ValidString t = true → ValidString (s +:+ t) = true.
Proof.
  rewrite !ValidString_iff. intros (l & Hl & ->) (l' & Hl' & ->). exists (l ++ l').
  rewrite write_runes_app. split; [by apply Forall_app|done].
Qed.

Lemma encode_rune_high r : valid_rune r = true → 0x80 ≤ r → sforall (λ c, 0x80 <=? byte_val c) (encode_rune r) = true.
Proof.
  intros Hv Hr. pose proof (DecodeRune_encode r EmptyString Hv) as H. apply DecodeRune_high in H; [|done].
  rewrite sapp_nil_r, stake_all in H. done.
Qed.

(** An ASCII byte of a valid string ends one valid string and starts another. *)
Lemma ValidString_split a c b :
  byte_val c < 0x80 → ValidString (a +:+ String c b) = true → ValidString a = true ∧ ValidString b = true.
Proof.
  intros Hc (l & Hl & He)%ValidString_iff. revert a He.
  induction Hl as [|r l Hr Hl IH]; intros a He; [by destruct a|].
  rewrite write_runes_cons in He. destruct (N.lt_ge_cases r 0x80) as [Hlo|Hhi].
  - rewrite encode_rune_1 in He by lia. unfold str1 in He. rewrite sapp_cons, sapp_nil_l in He. destruct a as [|d a].
    + injection He as -> ->. split; [done|]. by apply ValidString_write.
    + rewrite sapp_cons in He. injection He as -> He. destruct (IH a He) as [H1 H2]. split; [|done].
      change (String (byte_of r) a) with (str1 (byte_of r) +:+ a). apply ValidString_app; [|done].
      rewrite <- encode_rune_1 by lia. rewrite <- (sapp_nil_r (encode_rune r)). apply (ValidString_write [r]). by repeat constructor.
  - assert (Hlen : (len (encode_rune r) ≤ len a)%nat ∨ (len a < len (encode_rune r))%nat) by lia.
    destruct Hlen as [Hlen|Hlen].
    + assert (Ha : a = encode_rune r +:+ sdrop (len (encode_rune r)) a).
      { rewrite <- (stake_sdrop (len (encode_rune r)) a) at 1. f_equal.
        rewrite <- (stake_sdrop (len (encode_rune r)) a), app_assoc_s in He.
        apply app_inv_len in He as [He _]; [done|]. rewrite len_stake. lia. }
      rewrite Ha, app_assoc_s in He. apply app_inj_l in He. destruct (IH _ He) as [H1 H2]. split; [|done].
      rewrite Ha. apply ValidString_app; [|done].
      rewrite <- (sapp_nil_r (encode_rune r)). apply (ValidString_write [r]). by repeat constructor.
    + exfalso. pose proof (encode_rune_high r Hr Hhi) as Hb.
      rewrite <- (stake_sdrop (len a) (encode_rune r)), sforall_app in Hb. apply andb_true_iff in Hb as [_ Hb].
      rewrite <- (stake_sdrop (len a) (encode_rune r)), app_assoc_s in He.
      apply app_inv_len in He as [_ He]; [|rewrite len_stake; lia].
      destruct (sdrop (len a) (encode_rune r)) as [|d z] eqn:Ed.
      { apply (f_equal len) in Ed. rewrite len_sdrop, len_nil in Ed. lia. }
      rewrite sapp_cons in He. injection He as -> _. cbn in Hb. apply andb_true_iff in Hb as [Hb%N.leb_le _]. lia.
Qed.

Lemma ValidString_cons c s : byte_val c < 0x80 → ValidString (String c s) = true ↔ ValidString s = true.
Proof.
  intros Hc. split; [intros H; by apply (ValidString_split EmptyString c s)|].
  intros H. change (String c s) with (str1 c +:+ s). apply ValidString_app; [|done].
  unfold ValidString. rewrite runes_w_step by done. unfold str1. rewrite DecodeRune_ascii by done. cbn.
  destruct (N.eqb_spec (byte_val c) RuneError) as [He|]; [|done]. unfold RuneError in He. lia.
Qed.
