(* ===== verification/Strconv.v ===== *)
(** * Numbers as text

    The part of Go's [strconv] and [math/big] the program calls: decimal
    integers, exact and 64-bit, and hexadecimal. *)

From S2P Require Import Prelude GoStrings.
From Stdlib Require Import DecimalString DecimalZ SpecFloat.
From stdpp Require Import options.

#[local] Open Scope Z_scope.

Definition min_int64 : Z := - 2 ^ 63.
Definition max_int64 : Z := 2 ^ 63 - 1.
Definition in_int64 (z : Z) : bool := (min_int64 <=? z) && (z <=? max_int64).

(** The value of a string of decimal digits, [None] on any other byte. *)
Fixpoint digits_acc (acc : Z) (s : string) : option Z :=
  match s with
  | EmptyString => Some acc
  | String c s => if is_digit c then digits_acc (acc * 10 + digit_val c) s else None
  end.

Definition is_sign (c : ascii) : bool := Ascii.eqb c "+" || Ascii.eqb c "-".

(** The sign of a decimal integer and the text after it. *)
Definition split_sign (s : string) : bool * string :=
  match s with
  | String c s' => if is_sign c then (Ascii.eqb c "-", s') else (false, s)
  | EmptyString => (false, s)
  end.

(** [big.Int.SetString(s, 10)]. *)
Definition ParseBig (s : string) : option Z :=
  let '(neg, body) := split_sign s in
  match body with
  | EmptyString => None
  | _ => (λ n, if neg then - n else n) <$> digits_acc 0 body
  end.

(** [strconv.ParseInt(s, 10, 64)]: [None] for a syntax or a range error. *)
Definition ParseInt64 (s : string) : option Z :=
  match ParseBig s with
  | Some z => if in_int64 z then Some z else None
  | None => None
  end.

(** [strconv.FormatInt(z, 10)]. *)
Definition FormatInt (z : Z) : string := NilZero.string_of_int (Z.to_int z).

(** A hexadecimal digit, [strconv.FormatUint(n, 16)] and
    [strconv.ParseUint(s, 16, 32)]. *)
Definition hex_digit (n : N) : ascii :=
  if (n <? 10)%N then byte_of (48 + n) else byte_of (87 + n).
Definition hex_val (c : ascii) : option N :=
  if is_digit c then Some (byte_val c - 48)%N
  else if byte_in "a" "f" c then Some (byte_val c - 87)%N
  else if byte_in "A" "F" c then Some (byte_val c - 55)%N
  else None.

Fixpoint hex_acc (acc : N) (s : string) : option N :=
  match s with
  | EmptyString => Some acc
  | String c s => match hex_val c with
                  | Some d => hex_acc (acc * 16 + d)%N s
                  | None => None
                  end
  end.

Definition ParseHex32 (s : string) : option N :=
  match s with
  | EmptyString => None
  | _ => match hex_acc 0 s with
         | Some n => if (n <? 2 ^ 32)%N then Some n else None
         | None => None
         end
  end.

Fixpoint hex_go (fuel : nat) (n : N) (acc : string) : string :=
  match fuel with
  | O => acc
  | S fuel =>
      let acc := String (hex_digit (n mod 16)) acc in
      if (n <? 16)%N then acc else hex_go fuel (n / 16)%N acc
  end.
(** 16 digits are enough for a [uint64]. *)
Definition FormatHex (n : N) : string := hex_go 16 n EmptyString.

(** ** Lemmas *)

Definition all_digits (s : string) : bool := sforall is_digit s.

Lemma digits_acc_is_Some acc s : is_Some (digits_acc acc s) ↔ all_digits s = true.
Proof.
  revert acc. induction s as [|c s IH]; intros acc; cbn.
  - split; [done|]. intros _. by eexists.
  - destruct (is_digit c); cbn; [apply IH|].
    split; [by intros [? ?]|done].
Qed.

Lemma ParseInt64_Some s z : ParseInt64 s = Some z → ParseBig s = Some z ∧ in_int64 z = true.
Proof. unfold ParseInt64. repeat case_match; naive_solver. Qed.

(** ** Binary floating point

    [strconv.ParseFloat] on a decimal text: the IEEE value nearest to
    [m * 10^e], ties to even, infinite when it is out of range.  [prec] and
    [emax] choose the format: 53 and 1024, or 24 and 128. *)
Definition decimal_to_float (prec emax : Z) (neg : bool) (m e : Z) : spec_float :=
  let f := match m with
           | Zpos p => if 0 <=? e then binary_normalize prec emax (m * 10 ^ e) 0 false
                       else SFdiv prec emax (S754_finite false p 0) (S754_finite false (Z.to_pos (10 ^ (- e))) 0)
           | _ => S754_zero false
           end in
  if neg then SFopp f else f.

(** The exponent of [readFloat] stops growing at five digits. *)
Fixpoint exp_acc (e : Z) (s : string) : Z :=
  match s with
  | EmptyString => e
  | String c s => exp_acc (if e <? 10000 then e * 10 + digit_val c else e) s
  end.

Definition is_exp_mark (c : ascii) : bool := Ascii.eqb c "e" || Ascii.eqb c "E".

(** The value of the digits of a text without other bytes; 0 for none. *)
Definition digits_value (s : string) : Z := default 0 (digits_acc 0 s).

(** The text is a decimal mantissa with an optional exponent. *)
Definition ParseFloat (prec emax : Z) (s : string) : spec_float :=
  let '(neg, body) := split_sign s in
  let '(mantissa, exp) :=
    match IndexP is_exp_mark body with
    | Some i => (stake i body, let '(eneg, ds) := split_sign (sdrop (S i) body) in
                               if eneg then - exp_acc 0 ds else exp_acc 0 ds)
    | None => (body, 0)
    end in
  let '(int, frac, _) := CutByte mantissa "." in
  decimal_to_float prec emax neg (digits_value (int +:+ frac)) (exp - Z.of_nat (len frac)).

Lemma shr_1_nonneg r : 0 <= shr_m r → 0 <= shr_m (shr_1 r).
Proof. destruct r as [[|[]|] ? ?]; cbn; lia. Qed.

Lemma iter_shr_nonneg p r : 0 <= shr_m r → 0 <= shr_m (iter_pos shr_1 p r).
Proof. revert r. induction p; intros r Hr; cbn; auto using shr_1_nonneg. Qed.

Lemma shr_fexp_nonneg prec emax m e l : 0 <= m → 0 <= shr_m (fst (shr_fexp prec emax m e l)).
Proof.
  intros Hm. unfold shr_fexp, shr.
  assert (0 <= shr_m (shr_record_of_loc m l)) by (by destruct l as [|[]]).
  destruct (_ - e); cbn; auto using iter_shr_nonneg.
Qed.

Lemma round_nonneg m l : 0 <= m → 0 <= round_nearest_even m l.
Proof. intros Hm. destruct l as [|[]]; cbn; [lia| |lia..]. destruct (Z.even m); lia. Qed.

Lemma binary_round_aux_not_nan prec emax sx m e l : 0 <= m → binary_round_aux prec emax sx m e l ≠ S754_nan.
Proof.
  intros Hm. unfold binary_round_aux. pose proof (shr_fexp_nonneg prec emax m e l Hm) as H1.
  destruct (shr_fexp prec emax m e l) as [r e']. cbn in H1.
  pose proof (shr_fexp_nonneg prec emax _ e' loc_Exact (round_nonneg _ (loc_of_shr_record r) H1)) as H2.
  destruct (shr_fexp prec emax (round_nearest_even _ _) e' loc_Exact) as [r' e'']. cbn in H2.
  destruct (shr_m r'); [done| |lia]. by destruct (e'' <=? emax - prec).
Qed.

Lemma SFdiv_core_nonneg prec emax m1 e1 m2 e2 q e l :
  SFdiv_core_binary prec emax (Zpos m1) e1 (Zpos m2) e2 = (q, e, l) → 0 <= q.
Proof.
  unfold SFdiv_core_binary. set (s := e1 - e2 - _).
  set (m' := match s with Z0 => _ | _ => _ end).
  assert (Hm' : 0 <= m') by (unfold m'; destruct s; [lia|apply Z.shiftl_nonneg; lia|lia]).
  pose proof (Z.div_pos m' (Zpos m2) Hm' ltac:(lia)) as Hq. unfold Z.div in Hq.
  destruct (Z.div_eucl m' (Zpos m2)) as [q' r']. by intros [= <- _ _].
Qed.

(** A decimal text never denotes NaN. *)
Lemma decimal_to_float_not_nan prec emax neg m e : decimal_to_float prec emax neg m e ≠ S754_nan.
Proof.
  unfold decimal_to_float.
  enough (∀ f, f ≠ S754_nan → (if neg then SFopp f else f) ≠ S754_nan) as Hneg.
  { apply Hneg. destruct m as [|p|p]; [done| |done]. destruct (0 <=? e) eqn:E.
    - apply Z.leb_le in E. unfold binary_normalize. destruct (Zpos p * 10 ^ e) as [|q|q] eqn:Em; [done| |].
      + unfold binary_round. destruct (shl_align _ _ _). by apply binary_round_aux_not_nan.
      + pose proof (Z.pow_pos_nonneg 10 e). lia.
    - unfold SFdiv. destruct (SFdiv_core_binary _ _ _ _ _ _) as [[q e'] l] eqn:Ed.
      apply binary_round_aux_not_nan. by apply (SFdiv_core_nonneg _ _ _ _ _ _ _ _ _ Ed). }
  intros f Hf. destruct neg; [|done]. by destruct f.
Qed.
