(* ===== verification/Sha256.v ===== *)
(** * SHA-256

    [crypto/sha256.Sum256] and [encoding/hex] as FIPS 180-4 defines them, on
    32-bit words as [Z].  No theorem depends on how the hash is computed; it is
    here so that the definitions that hash are executable. *)

From S2P Require Import Prelude GoStrings Strconv.
From stdpp Require Import options.

#[local] Open Scope Z_scope.

Definition w32 (x : Z) : Z := x mod 2 ^ 32.
Definition rotr (n x : Z) : Z := Z.lor (Z.shiftr x n) (w32 (Z.shiftl x (32 - n))).

(** The constants are the first 32 bits of the fractional parts of the roots of
    the first primes: cube roots for the rounds, square roots for the start. *)
Definition is_prime (n : Z) : bool := forallb (λ d, negb (n mod d =? 0)) (seqZ 2 (n - 2)).
Definition first_primes : list Z := Eval vm_compute in List.filter is_prime (seqZ 2 310).
Fixpoint cube_root (bits : nat) (acc n : Z) : Z :=
  match bits with
  | O => acc
  | S b => let x := acc + 2 ^ Z.of_nat b in cube_root b (if x * x * x <=? n then x else acc) n
  end.
Definition round_constants : list Z := Eval vm_compute in (λ p, w32 (cube_root 36 0 (p * 2 ^ 96))) <$> first_primes.

Record hash_state := MkHash { ha : Z; hb : Z; hc : Z; hd : Z; he : Z; hf : Z; hg : Z; hh : Z }.

Definition of_words (l : list Z) : hash_state :=
  match l with
  | [a; b; c; d; e; f; g; h] => MkHash a b c d e f g h
  | _ => MkHash 0 0 0 0 0 0 0 0
  end.
Definition hash_init : hash_state := Eval vm_compute in of_words ((λ p, w32 (Z.sqrt (p * 2 ^ 64))) <$> firstn 8 first_primes).

(** The message schedule: the last sixteen words, newest first. *)
Definition next_word (w : list Z) : Z :=
  let at_ i := nth i w 0 in
  let s0 := Z.lxor (Z.lxor (rotr 7 (at_ 14%nat)) (rotr 18 (at_ 14%nat))) (Z.shiftr (at_ 14%nat) 3) in
  let s1 := Z.lxor (Z.lxor (rotr 17 (at_ 1%nat)) (rotr 19 (at_ 1%nat))) (Z.shiftr (at_ 1%nat) 10) in
  w32 (at_ 15%nat + s0 + at_ 6%nat + s1).
Fixpoint schedule (n : nat) (w : list Z) : list Z :=
  match n with O => [] | S n => let x := next_word w in x :: schedule n (x :: firstn 15 w) end.

Definition hash_round (s : hash_state) (kw : Z * Z) : hash_state :=
  let s1 := Z.lxor (Z.lxor (rotr 6 (he s)) (rotr 11 (he s))) (rotr 25 (he s)) in
  let ch := Z.lxor (Z.land (he s) (hf s)) (Z.land (Z.lxor (he s) 0xffffffff) (hg s)) in
  let t1 := w32 (hh s + s1 + ch + kw.1 + kw.2) in
  let s0 := Z.lxor (Z.lxor (rotr 2 (ha s)) (rotr 13 (ha s))) (rotr 22 (ha s)) in
  let maj := Z.lxor (Z.lxor (Z.land (ha s) (hb s)) (Z.land (ha s) (hc s))) (Z.land (hb s) (hc s)) in
  MkHash (w32 (t1 + w32 (s0 + maj))) (ha s) (hb s) (hc s) (w32 (hd s + t1)) (he s) (hf s) (hg s).

Definition hash_block (s : hash_state) (block : list Z) : hash_state :=
  let r := foldl hash_round s (zip round_constants (block ++ schedule 48 (reverse block))) in
  MkHash (w32 (ha s + ha r)) (w32 (hb s + hb r)) (w32 (hc s + hc r)) (w32 (hd s + hd r))
    (w32 (he s + he r)) (w32 (hf s + hf r)) (w32 (hg s + hg r)) (w32 (hh s + hh r)).

(** Padding to blocks of sixteen big-endian words. *)
Fixpoint bytes_of (s : string) : list Z :=
  match s with EmptyString => [] | String c s => Z.of_N (N_of_ascii c) :: bytes_of s end.
Definition be_bytes (n : nat) (x : Z) : list Z := (λ i, Z.land (Z.shiftr x (8 * Z.of_nat i)) 255) <$> reverse (seq 0 n).
Definition padded (s : string) : list Z :=
  let n := Z.of_nat (String.length s) in
  bytes_of s ++ [0x80] ++ repeat 0 (Z.to_nat ((55 - n) mod 64)) ++ be_bytes 8 (8 * n).
Fixpoint words (l : list Z) : list Z :=
  match l with
  | a :: b :: c :: d :: l => Z.lor (Z.lor (Z.shiftl a 24) (Z.shiftl b 16)) (Z.lor (Z.shiftl c 8) d) :: words l
  | _ => []
  end.
Fixpoint hash_blocks (n : nat) (ws : list Z) (s : hash_state) : hash_state :=
  match n with O => s | S n => hash_blocks n (skipn 16 ws) (hash_block s (firstn 16 ws)) end.

Definition Sum256 (s : string) : list Z :=
  let ws := words (padded s) in
  let h := hash_blocks (Nat.div (length ws) 16) ws hash_init in
  mjoin (be_bytes 4 <$> [ha h; hb h; hc h; hd h; he h; hf h; hg h; hh h]).

(** [hex.EncodeToString]. *)
Definition hex_nibble (x : Z) : ascii := ascii_of_N (Z.to_N (if x <? 10 then 48 + x else 87 + x)).
Fixpoint hex_bytes (l : list Z) : string :=
  match l with [] => EmptyString | x :: l => String (hex_nibble (Z.shiftr x 4)) (String (hex_nibble (Z.land x 15)) (hex_bytes l)) end.

Example sum256_abc :
  hex_bytes (Sum256 "abc") = "ba7816bf8f01cfea414140de5dae2223b00361a396177a9cb410ff61f20015ad".
Proof. vm_compute. reflexivity. Qed.
Example sum256_two_blocks :
  hex_bytes (Sum256 "abcdbcdecdefdefgefghfghighijhijkijkljklmklmnlmnomnopnopq") =
  "248d6a61d20638b8e5c026930c3e6039a33ce45964ff2167f6ecedd419db06c1".
Proof. vm_compute. reflexivity. Qed.

(** Hexadecimal text has no hyphen. *)
Lemma hex_bytes_hyphen l : Forall (λ x, 0 <= x < 256) l → has_byte "-" (hex_bytes l) = false.
Proof.
  assert (Hd : ∀ x, 0 <= x < 16 → Ascii.eqb "-" (hex_nibble x) = false).
  { intros x Hx. assert (x = 0 ∨ x = 1 ∨ x = 2 ∨ x = 3 ∨ x = 4 ∨ x = 5 ∨ x = 6 ∨ x = 7 ∨ x = 8 ∨ x = 9 ∨ x = 10 ∨ x = 11 ∨ x = 12 ∨ x = 13 ∨ x = 14 ∨ x = 15) as Hc by lia.
    by repeat (destruct Hc as [->|Hc]; [done|]); subst. }
  induction 1 as [|x l Hx Hl IH]; [done|]. cbn [hex_bytes]. rewrite !has_byte_cons, IH, !orb_false_r, !Hd; [done|..].
  - change 15 with (Z.ones 4). rewrite Z.land_ones by lia. apply Z.mod_pos_bound. lia.
  - rewrite Z.shiftr_div_pow2 by lia. split; [apply Z.div_pos; lia|apply Z.div_lt_upper_bound; lia].
Qed.

Lemma Sum256_bytes s : Forall (λ x, 0 <= x < 256) (Sum256 s).
Proof.
  unfold Sum256. apply Forall_forall. intros x (l & Hx & Hl)%list_elem_of_join. apply list_elem_of_fmap in Hl as (h & -> & _).
  unfold be_bytes in Hx. apply list_elem_of_fmap in Hx as (i & -> & _). change 255 with (Z.ones 8). rewrite Z.land_ones by lia.
  apply Z.mod_pos_bound. lia.
Qed.

#[global] Arguments Sum256 : simpl never.
