(* ===== verification/Term.v ===== *)
(** * RDF terms

    Package [term]: IRIs, blank nodes, variables, literals, triple terms,
    triples and quads ([term.go], [literal.go], [triple_term.go], [triple.go],
    [key.go], [xsd.go], [turtle_numeric.go]).  As in the code, every term built
    by a constructor carries its cached [TermKey]. *)

From S2P Require Import Prelude GoStrings Utf8 Strconv.
From stdpp Require Import options.

(** ** IRIs *)

Record URIRef := MkURIRef { uri_key : string }.

#[global] Instance URIRef_eq_dec : EqDecision URIRef.
Proof. solve_decision. Defined.

(** The Go zero value [URIRef{}]. *)
Definition URIRef_zero : URIRef := MkURIRef EmptyString.

Definition uriKey (value : string) : string := "U:" +:+ value.

Definition URIRef_value (u : URIRef) : string :=
  match uri_key u with
  | EmptyString => EmptyString
  | k => sdrop 2 k
  end.

(** An optional namespace manager: [Prefix(uri)]. *)
Definition NamespaceManager : Type := option (string → option string).

Definition URIRef_N3 (ns : NamespaceManager) (u : URIRef) : string :=
  match ns with
  | Some prefix =>
      match prefix (URIRef_value u) with
      | Some p => p
      | None => "<" +:+ URIRef_value u +:+ ">"
      end
  | None => "<" +:+ URIRef_value u +:+ ">"
  end.

(** The characters no IRI may contain. *)
Definition iri_forbidden (r : rune) : bool :=
  existsb (N.eqb r) (byte_val <$> ["<"; ">"; dquote; "{"; "}"; "|"; bslash; "^"; "`"]%char).

Definition isValidIRI (s : string) : bool :=
  forallb (λ c, negb (c <=? 0x20)%N && negb (iri_forbidden c)) (runes s).

Definition ValidIRI (s : string) : bool := isValidIRI s.

Definition NewURIRefUnsafe (value : string) : URIRef := MkURIRef (uriKey value).
Definition MustURIRef (value : string) : URIRef := MkURIRef (uriKey value).

Definition ErrInvalidIRI : error := Sentinel "rdflibgo: invalid IRI".

Definition NewURIRef (value : string) : result URIRef :=
  if negb (isValidIRI value)
  then Err (Wrapf "%w: %q contains forbidden characters" [value] ErrInvalidIRI)
  else Ok (MkURIRef (uriKey value)).

Definition Defrag (u : URIRef) : URIRef :=
  match Index (URIRef_value u) "#" with
  | Some i => NewURIRefUnsafe (stake i (URIRef_value u))
  | None => u
  end.

Definition Fragment (u : URIRef) : string :=
  match Index (URIRef_value u) "#" with
  | Some i => sdrop (S i) (URIRef_value u)
  | None => EmptyString
  end.

(** ** Blank nodes and variables *)

Record BNode := MkBNode { bnode_key : string }.

#[global] Instance BNode_eq_dec : EqDecision BNode.
Proof. solve_decision. Defined.

Definition BNode_value (b : BNode) : string :=
  match bnode_key b with
  | EmptyString => EmptyString
  | k => sdrop 2 k
  end.

Definition BNode_N3 (b : BNode) : string := "_:" +:+ BNode_value b.

Definition Skolemize (b : BNode) (authority basepath : string) : URIRef :=
  let authority := if HasSuffix authority "/" then authority else authority +:+ "/" in
  let bp := match basepath with
            | EmptyString => ".well-known/genid/"
            | bp => if HasSuffix bp "/" then bp else bp +:+ "/"
            end in
  NewURIRefUnsafe (authority +:+ bp +:+ BNode_value b).

(** [hex.EncodeToString]. *)
Definition hex_encode (s : string) : string :=
  sflat_map (λ c, String (hex_digit (byte_val c / 16)) (str1 (hex_digit (byte_val c mod 16)))) s.

(** [NewBNode(id)]: the empty id stands for no id and draws a UUID. *)
Definition NewBNode (uuid : nat → string) (id : string) : drawM BNode := λ n,
  match id with
  | EmptyString => (Ok (MkBNode ("B:N" +:+ hex_encode (uuid n))), S n)
  | v => (Ok (MkBNode ("B:" +:+ v)), n)
  end.

Record Variable_ := NewVariable { var_Name : string }.

#[global] Instance Variable_eq_dec : EqDecision Variable_.
Proof. solve_decision. Defined.

Definition Variable_N3 (v : Variable_) : string := "?" +:+ var_Name v.

(** ** XSD and RDF names *)

Definition XSDNamespace : string := "http://www.w3.org/2001/XMLSchema#".
Definition xsd (local : string) : URIRef := NewURIRefUnsafe (XSDNamespace +:+ local).
Definition XSDString := xsd "string".
Definition XSDInteger := xsd "integer".
Definition XSDInt := xsd "int".
Definition XSDLong := xsd "long".
Definition XSDFloat := xsd "float".
Definition XSDDouble := xsd "double".
Definition XSDDecimal := xsd "decimal".
Definition XSDBoolean := xsd "boolean".
Definition XSDDateTime := xsd "dateTime".
Definition XSDDate := xsd "date".
Definition XSDTime := xsd "time".
Definition XSDAnyURI := xsd "anyURI".

Definition RDFNamespace : string := "http://www.w3.org/1999/02/22-rdf-syntax-ns#".
Definition RDFLangString := NewURIRefUnsafe (RDFNamespace +:+ "langString").
Definition RDFDirLangString := NewURIRefUnsafe (RDFNamespace +:+ "dirLangString").
Definition RDFReifies := NewURIRefUnsafe (RDFNamespace +:+ "reifies").

(** ** Turtle's numeric shorthand

    The Go functions scan with an index; here the index [i] is the suffix
    [s[i:]] still to be read. *)

Definition skipSign (s : string) : string :=
  match s with
  | String c s' => if is_sign c then s' else s
  | EmptyString => s
  end.

Fixpoint skipDigits (s : string) : string :=
  match s with
  | String c s' => if is_digit c then skipDigits s' else s
  | EmptyString => s
  end.


(** [j > i] for the scan positions of two suffixes of one string. *)
Definition advanced (before after : string) : bool := len after <? len before.

Definition isTurtleInteger (s : string) : bool :=
  let i := skipSign s in
  let j := skipDigits i in
  advanced i j && is_empty j.

Definition isTurtleDecimal (s : string) : bool :=
  let i := skipDigits (skipSign s) in
  match i with
  | EmptyString => false
  | String c i1 =>
      if negb (Ascii.eqb c ".") then false
      else let j := skipDigits i1 in advanced i1 j && is_empty j
  end.

Definition isExponent (s : string) : bool :=
  match s with
  | EmptyString => false
  | String c s1 =>
      if negb (Ascii.eqb c "e") && negb (Ascii.eqb c "E") then false
      else let i := skipSign s1 in
           let j := skipDigits i in
           advanced i j && is_empty j
  end.

Definition isTurtleDouble (s : string) : bool :=
  let i := skipSign s in
  let intEnd := skipDigits i in
  let intDigits := advanced i intEnd in
  match intEnd with
  | String c i1 =>
      if Ascii.eqb c "." then
        let fracEnd := skipDigits i1 in
        if negb intDigits && negb (advanced i1 fracEnd) then false
        else isExponent fracEnd
      else if negb intDigits then false
      else isExponent intEnd
  | EmptyString => if negb intDigits then false else isExponent intEnd
  end.

(** ** Literals *)

Record Literal := MkLiteral {
  lexical : string;
  lang : string;
  dir : string;
  datatype : URIRef;
  lit_key : string
}.

#[global] Instance Literal_eq_dec : EqDecision Literal.
Proof. solve_decision. Defined.

(** [langTagRegex]: a subtag is 1 to 8 characters of its class; the first has
    letters, the ones after a hyphen letters and digits. *)
Definition subtag_ok (first : bool) (w : string) : bool :=
  (1 <=? len w) && (len w <=? 8) && sforall (if first then is_letter else is_alnum) w.

Definition ValidLanguageTag (tag : string) : bool :=
  match SplitByte tag "-" with
  | [] => false
  | w :: ws => subtag_ok true w && forallb (subtag_ok false) ws
  end.

Definition LiteralOption : Type := Literal → Literal.

Definition WithLang (lng : string) : LiteralOption := λ l,
  if negb (is_empty lng) && negb (ValidLanguageTag lng) then l
  else MkLiteral (lexical l) (ToLower lng) (dir l) (datatype l) (lit_key l).

Definition WithDir (d : string) : LiteralOption := λ l,
  if bool_decide (d = "ltr") || bool_decide (d = "rtl")
  then MkLiteral (lexical l) (lang l) d (datatype l) (lit_key l)
  else l.

Definition WithDatatype (dt : URIRef) : LiteralOption := λ l,
  MkLiteral (lexical l) (lang l) (dir l) dt (lit_key l).

(** [literalEscaper] and [tripleQuotedEscaper]: one-byte replacements. *)
Definition backslash_with (c : ascii) : string := String bslash (str1 c).

Definition literalEscaper (c : ascii) : string :=
  if Ascii.eqb c bslash then backslash_with bslash
  else if Ascii.eqb c dquote then backslash_with dquote
  else if Ascii.eqb c lf then backslash_with "n"
  else if Ascii.eqb c cr then backslash_with "r"
  else if Ascii.eqb c tab then backslash_with "t"
  else str1 c.

Definition escapeLiteral (s : string) : string := sflat_map literalEscaper s.

Definition tripleQuotedEscaper (c : ascii) : string :=
  if Ascii.eqb c bslash then backslash_with bslash
  else if Ascii.eqb c lf then backslash_with "n"
  else if Ascii.eqb c cr then backslash_with "r"
  else if Ascii.eqb c tab then backslash_with "t"
  else str1 c.

(** The loop of [escapeTripleQuotedLiteral]: [i] is the position of the first
    byte of [s], [q] the count of consecutive raw quotes before it. *)
Fixpoint escapeQuotes (trailing i q : nat) (s : string) : string :=
  match s with
  | EmptyString => EmptyString
  | String c s' =>
      if negb (Ascii.eqb c dquote) then String c (escapeQuotes trailing (S i) 0 s')
      else if (S q =? 3) || (trailing <=? i)
      then backslash_with dquote +:+ escapeQuotes trailing (S i) 0 s'
      else String c (escapeQuotes trailing (S i) (S q) s')
  end.

Definition escapeTripleQuotedLiteral (s : string) : string :=
  let s := sflat_map tripleQuotedEscaper s in
  let trailing := len (TrimRightP (Ascii.eqb dquote) s) in
  escapeQuotes trailing 0 0 s.

Definition dq : string := str1 dquote.
Definition dq3 : string := String dquote (String dquote (str1 dquote)).

(** The shortcut forms at the head of [Literal.N3]. *)
Definition N3_shortcut (l : Literal) : bool :=
  if decide (datatype l = XSDInteger) then
    match ParseInt64 (lexical l) with Some _ => true | None => false end
  else if decide (datatype l = XSDDouble) then isTurtleDouble (lexical l)
  else if decide (datatype l = XSDDecimal) then isTurtleDecimal (lexical l)
  else if decide (datatype l = XSDBoolean) then
    bool_decide (lexical l = "true") || bool_decide (lexical l = "false")
  else false.

Definition Literal_quoted (l : Literal) : string :=
  if Contains (lexical l) (str1 lf)
  then dq3 +:+ escapeTripleQuotedLiteral (lexical l) +:+ dq3
  else dq +:+ escapeLiteral (lexical l) +:+ dq.

Definition Literal_N3 (l : Literal) : string :=
  if N3_shortcut l then lexical l
  else
    let quoted := Literal_quoted l in
    if negb (is_empty (lang l)) then
      if negb (is_empty (dir l))
      then quoted +:+ "@" +:+ lang l +:+ "--" +:+ dir l
      else quoted +:+ "@" +:+ lang l
    else if negb (bool_decide (datatype l = URIRef_zero)) && negb (bool_decide (datatype l = XSDString))
    then quoted +:+ "^^" +:+ URIRef_N3 None (datatype l)
    else quoted.

(** [literalKey]: the single-allocation encoder of ["L:" + N3()]. *)
Definition literalKey (l : Literal) : string :=
  if Contains (lexical l) (str1 lf) then "L:" +:+ Literal_N3 l
  else if decide (datatype l = XSDInteger ∨ datatype l = XSDDouble
                  ∨ datatype l = XSDDecimal ∨ datatype l = XSDBoolean)
  then "L:" +:+ Literal_N3 l
  else
    let escape := sexists (λ c, Ascii.eqb c bslash || Ascii.eqb c dquote || Ascii.eqb c cr || Ascii.eqb c tab) (lexical l) in
    let dt :=
      if negb (is_empty (lang l)) then EmptyString
      else if negb (bool_decide (datatype l = URIRef_zero)) && negb (bool_decide (datatype l = XSDString))
      then URIRef_value (datatype l)
      else EmptyString in
    "L:" +:+ dq +:+ (if escape then escapeLiteral (lexical l) else lexical l) +:+ dq +:+
    (if negb (is_empty (lang l)) then
       "@" +:+ lang l +:+ (if negb (is_empty (dir l)) then "--" +:+ dir l else EmptyString)
     else if negb (is_empty dt) then "^^<" +:+ dt +:+ ">"
     else EmptyString).

(** [shareLexical]: the lexical form as a substring of the key. *)
Definition shareLexical (key lex : string) : string :=
  if (2 + len lex <=? len key) && String.eqb (stake (len lex) (sdrop 2 key)) lex
  then stake (len lex) (sdrop 2 key)
  else if (3 + len lex <=? len key) && String.eqb (stake (len lex) (sdrop 3 key)) lex
  then stake (len lex) (sdrop 3 key)
  else lex.

(** The Go values a literal is built from.  A float carries the text
    [strconv.FormatFloat] gives it; the special values are spelled by
    [formatXSDFloat]. *)
Inductive XSDFloatValue := FInf | FNegInf | FNaN | FFinite (formatted : string).

Inductive GoValue :=
| VString (s : string)
| VInt (z : Z)
| VInt64 (z : Z)
| VFloat32 (f : XSDFloatValue)
| VFloat64 (f : XSDFloatValue)
| VBool (b : bool)
| VOther (formatted : string).

Definition formatXSDFloat (f : XSDFloatValue) : string :=
  match f with
  | FInf => "INF"
  | FNegInf => "-INF"
  | FNaN => "NaN"
  | FFinite s => s
  end.

Definition goToLexical (v : GoValue) : string * URIRef :=
  match v with
  | VString s => (s, XSDString)
  | VInt z => (FormatInt z, XSDInteger)
  | VInt64 z => (FormatInt z, XSDInteger)
  | VFloat32 f => (formatXSDFloat f, XSDFloat)
  | VFloat64 f => (formatXSDFloat f, XSDDouble)
  | VBool true => ("true", XSDBoolean)
  | VBool false => ("false", XSDBoolean)
  | VOther s => (s, XSDString)
  end.

(** The end of [NewLiteral]: force the datatype of a tagged literal, drop a
    direction without a tag, and cache the key. *)
Definition finishLiteral (l : Literal) : Literal :=
  let l1 :=
    if negb (is_empty (lang l)) then
      MkLiteral (lexical l) (lang l) (dir l)
        (if negb (is_empty (dir l)) then RDFDirLangString else RDFLangString) (lit_key l)
    else MkLiteral (lexical l) (lang l) EmptyString (datatype l) (lit_key l) in
  let key := literalKey l1 in
  MkLiteral (shareLexical key (lexical l1)) (lang l1) (dir l1) (datatype l1) key.

Definition NewLiteral (value : GoValue) (opts : list LiteralOption) : Literal :=
  let '(lex, dt) := goToLexical value in
  finishLiteral (foldl (λ l opt, opt l) (MkLiteral lex EmptyString EmptyString dt EmptyString) opts).

Definition Literal_Equal (l o : Literal) : bool :=
  bool_decide (lexical l = lexical o) && bool_decide (lang l = lang o) &&
  bool_decide (dir l = dir o) && bool_decide (datatype l = datatype o).

(** ** Terms

    The sealed interface [Term].  [isSubject] is the type assertion
    [t.(Subject)]: IRIs, blank nodes and (in this package) triple terms carry
    the marker method. *)
Inductive Term :=
| TURIRef (u : URIRef)
| TBNode (b : BNode)
| TLiteral (l : Literal)
| TTripleTerm (subj : Term) (pred : URIRef) (obj : Term) (key : string)
| TVariable (v : Variable_).

#[global] Instance Term_eq_dec : EqDecision Term.
Proof. solve_decision. Defined.

Definition isSubject (t : Term) : bool :=
  match t with TURIRef _ | TBNode _ | TTripleTerm _ _ _ _ => true | _ => false end.

(** The type assertions [t.(Subject)] and [t.(URIRef)]. *)
Definition asSubject (t : Term) : option Term := if isSubject t then Some t else None.

Definition asURIRef (t : Term) : option URIRef :=
  match t with TURIRef u => Some u | _ => None end.

Fixpoint Term_N3 (ns : NamespaceManager) (t : Term) : string :=
  match t with
  | TURIRef u => URIRef_N3 ns u
  | TBNode b => BNode_N3 b
  | TLiteral l => Literal_N3 l
  | TTripleTerm s p o _ =>
      "<<( " +:+ Term_N3 ns s +:+ " " +:+ URIRef_N3 ns p +:+ " " +:+ Term_N3 ns o +:+ " )>>"
  | TVariable v => Variable_N3 v
  end.

Fixpoint Term_String (t : Term) : string :=
  match t with
  | TURIRef u => URIRef_value u
  | TBNode b => BNode_value b
  | TLiteral l => lexical l
  | TTripleTerm s p o _ =>
      "<<( " +:+ Term_String s +:+ " " +:+ URIRef_value p +:+ " " +:+ Term_String o +:+ " )>>"
  | TVariable v => "?" +:+ var_Name v
  end.

Fixpoint Equal (t o : Term) : bool :=
  match t, o with
  | TURIRef u, TURIRef u' => bool_decide (URIRef_value u = URIRef_value u')
  | TBNode b, TBNode b' => bool_decide (BNode_value b = BNode_value b')
  | TLiteral l, TLiteral l' => Literal_Equal l l'
  | TTripleTerm s p ob _, TTripleTerm s' p' ob' _ =>
      Equal s s' && bool_decide (URIRef_value p = URIRef_value p') && Equal ob ob'
  | TVariable v, TVariable v' => bool_decide (var_Name v = var_Name v')
  | _, _ => false
  end.

Definition TermKey (t : Term) : string :=
  match t with
  | TURIRef u => uri_key u
  | TBNode b => bnode_key b
  | TLiteral l => match lit_key l with
                  | EmptyString => "L:" +:+ Literal_N3 l
                  | k => k
                  end
  | TTripleTerm _ _ _ key => key
  | TVariable v => "V:" +:+ var_Name v
  end.

Definition OptTermKey (t : option Term) : string :=
  match t with None => EmptyString | Some t => TermKey t end.

Definition OptPredKey (p : option URIRef) : string :=
  match p with None => EmptyString | Some p => TermKey (TURIRef p) end.

(** [NewTripleTerm] panics on a nil subject or object: [None]. *)
Definition NewTripleTerm (subject : option Term) (predicate : URIRef) (object : option Term) : option Term :=
  match subject, object with
  | Some s, Some o =>
      let key := "T:" +:+ TermKey s +:+ str1 nul +:+ TermKey (TURIRef predicate) +:+ str1 nul +:+ TermKey o in
      Some (TTripleTerm s predicate o key)
  | _, _ => None
  end.

(** ** Triples *)

Record Triple := MkTriple { Subject : Term; Predicate : URIRef; Object : Term }.

#[global] Instance Triple_eq_dec : EqDecision Triple.
Proof. solve_decision. Defined.

Record Quad := MkQuad { quad_Triple : Triple; Graph : option Term }.

Record TriplePattern := MkPattern {
  pat_Subject : option Term;
  pat_Predicate : option URIRef;
  pat_Object : option Term
}.

Definition Matches (p : TriplePattern) (t : Triple) : bool :=
  if (match pat_Subject p with Some s => negb (Equal s (Subject t)) | None => false end) then false
  else if (match pat_Predicate p with
           | Some u => negb (bool_decide (u = Predicate t))
           | None => false end) then false
  else if (match pat_Object p with Some o => negb (Equal o (Object t)) | None => false end) then false
  else true.
