(* ===== verification/Decode.v ===== *)
(** * Decoding term keys

    [term/decode.go]: [TermFromKey] reads back what [TermKey] wrote.  The stores
    that persist keys depend on the two being inverse. *)

From S2P Require Import Prelude GoStrings Utf8 Strconv Term.
From stdpp Require Import options.

(** [findClosingQuote]: index of the first unescaped quote. *)
Fixpoint findClosingQuote (s : string) : option nat :=
  match s with
  | EmptyString => None
  | String c s1 =>
      if Ascii.eqb c bslash then
        match s1 with
        | EmptyString => None
        | String _ s2 => (λ i, S (S i)) <$> findClosingQuote s2
        end
      else if Ascii.eqb c dquote then Some 0
      else S <$> findClosingQuote s1
  end.

(** [findClosingTripleQuote]: the loop runs while three bytes are left. *)
Fixpoint findClosingTripleQuote (s : string) : option nat :=
  match s with
  | String c ((String c1 ((String c2 _) as s2)) as s1) =>
      if Ascii.eqb c bslash then (λ i, S (S i)) <$> findClosingTripleQuote s2
      else if Ascii.eqb c dquote && Ascii.eqb c1 dquote && Ascii.eqb c2 dquote then Some 0
      else S <$> findClosingTripleQuote s1
  | _ => None
  end.

(** The escapes [unescapeLiteral] knows. *)
Definition unescape_char (c : ascii) : option ascii :=
  if Ascii.eqb c dquote then Some dquote
  else if Ascii.eqb c bslash then Some bslash
  else if Ascii.eqb c "n" then Some lf
  else if Ascii.eqb c "r" then Some cr
  else if Ascii.eqb c "t" then Some tab
  else None.

Fixpoint unescape_go (s : string) : string :=
  match s with
  | EmptyString => EmptyString
  | String c s1 =>
      if Ascii.eqb c bslash then
        match s1 with
        | String d s2 => match unescape_char d with
                         | Some e => String e (unescape_go s2)
                         | None => String c (unescape_go s1)
                         end
        | EmptyString => str1 c
        end
      else String c (unescape_go s1)
  end.

Definition unescapeLiteral (s : string) : string :=
  if has_byte bslash s then unescape_go s else s.
Definition unescapeTripleQuotedLiteral (s : string) : string := unescapeLiteral s.

(** The lexical form and the text after the closing delimiter. *)
Definition splitQuoted (n3 : string) : result (string * string) :=
  if HasPrefix n3 dq3 then
    match findClosingTripleQuote (sdrop 3 n3) with
    | None => Err (Errorf "term: unterminated triple-quoted literal: %q" [n3])
    | Some e => Ok (unescapeTripleQuotedLiteral (stake e (sdrop 3 n3)), sdrop (3 + e + 3) n3)
    end
  else
    match findClosingQuote (sdrop 1 n3) with
    | None => Err (Errorf "term: unterminated literal: %q" [n3])
    | Some e => Ok (unescapeLiteral (stake e (sdrop 1 n3)), sdrop (1 + e + 1) n3)
    end.

(** The suffix: [@lang], [@lang--dir], [^^<datatype>] or nothing. *)
Definition literalSuffix (lex afterQuote : string) : result Literal :=
  if HasPrefix afterQuote "@" then
    let langDir := sdrop 1 afterQuote in
    match Index langDir "--" with
    | Some idx =>
        Ok (NewLiteral (VString lex) [WithLang (stake idx langDir); WithDir (sdrop (idx + 2) langDir)])
    | None => Ok (NewLiteral (VString lex) [WithLang langDir])
    end
  else if HasPrefix afterQuote "^^" then
    let dtStr := sdrop 2 afterQuote in
    if (2 <=? len dtStr) && bool_decide (byte_at dtStr 0 = Some "<"%char)
       && bool_decide (byte_at dtStr (len dtStr - 1) = Some ">"%char)
    then Ok (NewLiteral (VString lex)
               [WithDatatype (NewURIRefUnsafe (stake (len dtStr - 2) (sdrop 1 dtStr)))])
    else Err (Errorf "term: invalid datatype in literal: %q" [afterQuote])
  else Ok (NewLiteral (VString lex) []).

Definition literalFromN3 (n3 : string) : result Literal :=
  if isTurtleDouble n3 then Ok (NewLiteral (VString n3) [WithDatatype XSDDouble])
  else if isTurtleDecimal n3 then Ok (NewLiteral (VString n3) [WithDatatype XSDDecimal])
  else if isTurtleInteger n3 then Ok (NewLiteral (VString n3) [WithDatatype XSDInteger])
  else if bool_decide (n3 = "true") || bool_decide (n3 = "false")
  then Ok (NewLiteral (VString n3) [WithDatatype XSDBoolean])
  else if negb (bool_decide (byte_at n3 0 = Some dquote))
  then Err (Errorf "term: invalid literal N3: %q" [n3])
  else '(lex, afterQuote) ← splitQuoted n3; literalSuffix lex afterQuote.

(** [consumeLiteralN3]: how many bytes a literal at the start of [s] takes. *)
Definition is_ws (c : ascii) : bool :=
  Ascii.eqb c space || Ascii.eqb c tab || Ascii.eqb c lf || Ascii.eqb c cr.

Definition consumeSuffix (s : string) (i : nat) : nat :=
  let rest := sdrop i s in
  if HasPrefix rest "@" then
    S i + (match IndexP is_ws (sdrop 1 rest) with Some j => j | None => len (sdrop 1 rest) end)
  else if HasPrefix rest "^^" then
    if HasPrefix (sdrop 2 rest) "<" then
      match IndexByte (sdrop 2 rest) ">" with
      | Some e => i + 2 + (e + 1)
      | None => i + 2
      end
    else i + 2
  else i.

Definition consumeLiteralN3 (s : string) : nat :=
  if negb (HasPrefix s dq) then 0
  else if HasPrefix s dq3 then
    match findClosingTripleQuote (sdrop 3 s) with
    | None => len s
    | Some e => consumeSuffix s (3 + e + 3)
    end
  else
    match findClosingQuote (sdrop 1 s) with
    | None => len s
    | Some e => consumeSuffix s (1 + e + 1)
    end.

(** [strings.TrimSpace]: the UTF-8 forms of the runes [unicode.IsSpace]
    accepts are removed from both ends. *)
Definition space_runes : list rune :=
  [9; 10; 11; 12; 13; 32; 0x85; 0xA0; 0x1680; 0x2000; 0x2001; 0x2002; 0x2003; 0x2004;
   0x2005; 0x2006; 0x2007; 0x2008; 0x2009; 0x200A; 0x2028; 0x2029; 0x202F; 0x205F; 0x3000]%N.
Definition space_strings : list string := encode_rune <$> space_runes.

Fixpoint trimLeft_go (fuel : nat) (s : string) : string :=
  match fuel with
  | O => s
  | S fuel => match List.find (HasPrefix s) space_strings with
              | Some p => trimLeft_go fuel (sdrop (len p) s)
              | None => s
              end
  end.
Fixpoint trimRight_go (fuel : nat) (s : string) : string :=
  match fuel with
  | O => s
  | S fuel => match List.find (HasSuffix s) space_strings with
              | Some p => trimRight_go fuel (TrimSuffix s p)
              | None => s
              end
  end.
Definition TrimSpace (s : string) : string :=
  let s := trimLeft_go (len s) s in trimRight_go (len s) s.

(** The scan for the [)>>] that closes a nested triple term, after its [<<(]:
    the number of bytes the loop consumes. *)
Fixpoint tt_scan (depth : nat) (s : string) : nat :=
  match s with
  | EmptyString => 0
  | String _ s1 =>
      if HasPrefix s "<<(" then
        match s1 with String _ (String _ s3) => 3 + tt_scan (S depth) s3 | _ => 0 end
      else if HasPrefix s ")>>" then
        match s1 with
        | String _ (String _ s3) => if depth =? 1 then 3 else 3 + tt_scan (depth - 1) s3
        | _ => 0
        end
      else S (tt_scan depth s1)
  end.

Definition ErrFuel : error := Sentinel "model: out of fuel".

Section Decode.
(** [uuid.New], drawn by [NewBNode] for an empty blank node label. *)
Context (uuid : nat → string).

(** [parseOneTermN3]: a term at the start of [s], and the rest.  [self] is the
    recursive call of [tripleTermFromN3]. *)
Definition parseOneTermN3 (self : string → drawM Term) (s : string) : drawM (Term * string) :=
  match s with
  | EmptyString => fail (Errorf "empty input" [])
  | String c s1 =>
      if Ascii.eqb c "<" then
        if HasPrefix s "<<(" then
          let i := 3 + tt_scan 1 (sdrop 3 s) in
          tt ← self (stake i s); mret (tt, sdrop i s)
        else
          match IndexByte s ">" with
          | None => fail (Errorf "unterminated URI: %q" [s])
          | Some e => mret (TURIRef (NewURIRefUnsafe (stake (e - 1) s1)), sdrop (e + 1) s)
          end
      else if Ascii.eqb c "_" && HasPrefix s1 ":" then
        let r := sdrop 2 s in
        match IndexP is_ws r with
        | None => b ← NewBNode uuid r; mret (TBNode b, EmptyString)
        | Some e => b ← NewBNode uuid (stake e r); mret (TBNode b, sdrop e r)
        end
      else if Ascii.eqb c dquote then
        l ← lift (literalFromN3 s);
        mret (TLiteral l, sdrop (consumeLiteralN3 s) s)
      else
        match IndexP is_ws s with
        | None => l ← lift (literalFromN3 s); mret (TLiteral l, EmptyString)
        | Some e => l ← lift (literalFromN3 (stake e s)); mret (TLiteral l, sdrop e s)
        end
  end.

(** [NewTripleTerm] on terms that are not nil. *)
Definition mkTripleTerm (s : Term) (p : URIRef) (o : Term) : drawM Term :=
  match NewTripleTerm (Some s) p (Some o) with
  | Some t => mret t
  | None => fail (Errorf "term: NewTripleTerm called with nil" [])
  end.

Definition assertSubject (e : error) (t : Term) : drawM Term :=
  if isSubject t then mret t else fail e.
Definition assertURIRef (e : error) (t : Term) : drawM URIRef :=
  match asURIRef t with Some u => mret u | None => fail e end.

Fixpoint tripleTermFromN3 (fuel : nat) (n3 : string) : drawM Term :=
  match fuel with
  | O => fail ErrFuel
  | S fuel =>
      let s := TrimSpace n3 in
      if negb (HasPrefix s "<<(") || negb (HasSuffix s ")>>")
      then fail (Errorf "term: invalid triple term N3: %q" [n3])
      else
        let inner := TrimSpace (stake (len s - 6) (sdrop 3 s)) in
        '(subj, rest) ← wrapM "term: triple term subject: %w"
                          (parseOneTermN3 (tripleTermFromN3 fuel) inner);
        subjTerm ← assertSubject (Errorf "term: triple term subject must be URIRef or BNode" []) subj;
        '(pred, rest) ← wrapM "term: triple term predicate: %w"
                          (parseOneTermN3 (tripleTermFromN3 fuel) (TrimSpace rest));
        predURI ← assertURIRef (Errorf "term: triple term predicate must be URIRef" []) pred;
        '(obj, _) ← wrapM "term: triple term object: %w"
                          (parseOneTermN3 (tripleTermFromN3 fuel) (TrimSpace rest));
        mkTripleTerm subjTerm predURI obj
  end.

(** [tripleTermFromKey], with [self] the recursive call of [TermFromKey]. *)
Definition tripleTermFromKey (fuel : nat) (self : string → drawM Term) (key : string) : drawM Term :=
  if HasPrefix key "<<(" then tripleTermFromN3 fuel key
  else match SplitN key nul 3 with
  | [p0; p1; p2] =>
      subj ← wrapM "term: triple term subject: %w" (self p0);
      subjTerm ← assertSubject (Errorf "term: triple term subject must be URIRef or BNode, got %q" [p0]) subj;
      pred ← wrapM "term: triple term predicate: %w" (self p1);
      predURI ← assertURIRef (Errorf "term: triple term predicate must be URIRef, got %q" [p1]) pred;
      obj ← wrapM "term: triple term object: %w" (self p2);
      mkTripleTerm subjTerm predURI obj
  | _ => fail (Errorf "term: invalid triple term key: %q" [key])
  end.

Fixpoint TermFromKey_go (fuel : nat) (key : string) : drawM Term :=
  match fuel with
  | O => fail ErrFuel
  | S fuel =>
      if len key <? 2 then fail (Errorf "term: key too short: %q" [key])
      else
        let prefix := stake 2 key in
        let rest := sdrop 2 key in
        if bool_decide (prefix = "U:") then mret (TURIRef (NewURIRefUnsafe rest))
        else if bool_decide (prefix = "B:") then b ← NewBNode uuid rest; mret (TBNode b)
        else if bool_decide (prefix = "L:") then l ← lift (literalFromN3 rest); mret (TLiteral l)
        else if bool_decide (prefix = "T:") then tripleTermFromKey fuel (TermFromKey_go fuel) rest
        else fail (Errorf "term: unknown key prefix: %q" [prefix])
  end.

(** Every recursive call is on a shorter string. *)
Definition TermFromKey (key : string) : drawM Term := TermFromKey_go (S (len key)) key.
End Decode.

Example decode_lit :
  TermFromKey (λ _, EmptyString) (TermKey (TLiteral (NewLiteral (VString "say hi") [WithLang "en"]))) 0
  = (Ok (TLiteral (NewLiteral (VString "say hi") [WithLang "en"])), 0).
Proof. vm_compute. reflexivity. Qed.
