(* ===== verification/NumericGrammar.v ===== *)
(** * Turtle's numeric productions

    [term/turtle_numeric.go]: the three scanners accept exactly the INTEGER,
    DECIMAL and DOUBLE productions of the Turtle grammar. *)

From S2P Require Import Prelude GoStrings Strconv Term.
From stdpp Require Import options.

Definition opt_sign (s : string) : Prop := s = EmptyString ∨ s = "+" ∨ s = "-".
Definition digits_star (s : string) : Prop := all_digits s = true.
Definition digits_plus (s : string) : Prop := s ≠ EmptyString ∧ all_digits s = true.
Definition EXPONENT (s : string) : Prop :=
  ∃ e sg d, (e = "e" ∨ e = "E") ∧ opt_sign sg ∧ digits_plus d ∧ s = e +:+ sg +:+ d.

Definition INTEGER (s : string) : Prop := ∃ sg d, opt_sign sg ∧ digits_plus d ∧ s = sg +:+ d.
Definition DECIMAL (s : string) : Prop :=
  ∃ sg i f, opt_sign sg ∧ digits_star i ∧ digits_plus f ∧ s = sg +:+ i +:+ "." +:+ f.
Definition DOUBLE (s : string) : Prop :=
  ∃ sg m e, opt_sign sg ∧ EXPONENT e ∧ s = sg +:+ m +:+ e ∧
    (digits_plus m ∨ (∃ i f, digits_plus i ∧ digits_star f ∧ m = i +:+ "." +:+ f) ∨
     (∃ f, digits_plus f ∧ m = "." +:+ f)).

(** A text that does not go on with a digit. *)
Definition no_digit_head (s : string) : bool :=
  match s with String c _ => negb (is_digit c) | EmptyString => true end.
Definition no_sign_head (s : string) : bool :=
  match s with String c _ => negb (is_sign c) | EmptyString => true end.

Lemma skipDigits_app d r : all_digits d = true → no_digit_head r = true → skipDigits (d +:+ r) = r.
Proof.
  intros Hd Hr. induction d as [|c d IH]; cbn in Hd.
  - destruct r as [|c r]; [done|]. rewrite sapp_nil_l. cbn [skipDigits no_digit_head] in *. by destruct (is_digit c).
  - apply andb_true_iff in Hd as [Hc Hd]. rewrite sapp_cons; cbn. by rewrite Hc, IH.
Qed.

Lemma skipDigits_inv s : ∃ d, all_digits d = true ∧ s = d +:+ skipDigits s ∧ no_digit_head (skipDigits s) = true.
Proof.
  induction s as [|c s (d & Hd & Hs & Hn)]; [by exists EmptyString|]. cbn.
  destruct (is_digit c) eqn:Hc.
  - exists (String c d). unfold all_digits in *. cbn [sforall]. by rewrite Hc, Hd, sapp_cons, <- Hs.
  - exists EmptyString. cbn. by rewrite Hc.
Qed.

Lemma skipSign_app sg r : opt_sign sg → no_sign_head r = true → skipSign (sg +:+ r) = r.
Proof.
  intros [->|[->| ->]] Hr; try done. destruct r as [|c r]; [done|]. rewrite sapp_nil_l.
  cbn [skipSign no_sign_head] in *. by destruct (is_sign c).
Qed.

Lemma skipSign_inv s : ∃ sg, opt_sign sg ∧ s = sg +:+ skipSign s.
Proof.
  destruct s as [|c s]; [exists EmptyString; split; [by left|done]|]. cbn.
  destruct (is_sign c) eqn:Hc; [|exists EmptyString; split; [by left|done]].
  exists (str1 c). split; [|done]. apply orb_true_iff in Hc as [Hc|Hc]; bool_cases; subst; unfold opt_sign; auto.
Qed.

Lemma digits_no_sign d r : digits_plus d → no_sign_head (d +:+ r) = true.
Proof.
  intros [Hne Hd]. destruct d as [|c d]; [done|]. cbn in Hd. apply andb_true_iff in Hd as [Hc _].
  rewrite sapp_cons. cbn. revert Hc. byte_cases c.
Qed.

Lemma advanced_app d r : advanced (d +:+ r) r = negb (is_empty d).
Proof.
  unfold advanced. rewrite len_app. destruct d; rewrite ?len_nil, ?len_cons; cbn [is_empty negb].
  - apply Nat.ltb_ge. lia.
  - apply Nat.ltb_lt. lia.
Qed.

Lemma digits_plus_app d r :
  digits_plus d → no_digit_head r = true → skipDigits (d +:+ r) = r ∧ advanced (d +:+ r) r = true.
Proof. intros [Hne Hd] Hr. rewrite skipDigits_app, advanced_app by done. by destruct d. Qed.

Lemma isTurtleInteger_grammar s : isTurtleInteger s = true ↔ INTEGER s.
Proof.
  unfold isTurtleInteger. split.
  - destruct (skipSign_inv s) as (sg & Hsg & Hs). destruct (skipDigits_inv (skipSign s)) as (d & Hd & Ht & _).
    intros [Ha He]%andb_true_iff. destruct (skipDigits (skipSign s)) eqn:E; [|done].
    rewrite Ht, advanced_app in Ha. exists sg, d. rewrite sapp_nil_r in Ht. repeat split; auto.
    + by destruct d.
    + by rewrite <- Ht.
  - intros (sg & d & Hsg & Hd & ->). rewrite <- (sapp_nil_r d), skipSign_app by (done || by apply digits_no_sign).
    by destruct (digits_plus_app d EmptyString Hd) as [-> ->].
Qed.

Lemma no_sign_dot i r : digits_star i → no_sign_head (i +:+ String "." r) = true.
Proof. intros Hi. destruct i as [|c i]; [done|]. by apply digits_no_sign. Qed.

Lemma isTurtleDecimal_grammar s : isTurtleDecimal s = true ↔ DECIMAL s.
Proof.
  unfold isTurtleDecimal. split.
  - destruct (skipSign_inv s) as (sg & Hsg & Hs). destruct (skipDigits_inv (skipSign s)) as (i & Hi & Ht & _).
    destruct (skipDigits (skipSign s)) as [|c r]; [done|].
    destruct (Ascii.eqb_spec c ".") as [->|]; cbn [negb]; [|done].
    destruct (skipDigits_inv r) as (f & Hf & Hr & _). intros [Ha He]%andb_true_iff.
    destruct (skipDigits r); [|done]. rewrite Hr, advanced_app in Ha. rewrite sapp_nil_r in Hr. subst r.
    exists sg, i, f. repeat split; auto; [by destruct f|]. by rewrite Hs, Ht.
  - intros (sg & i & f & Hsg & Hi & Hf & ->). rewrite sapp_cons, sapp_nil_l.
    rewrite skipSign_app, skipDigits_app by (done || by apply no_sign_dot).
    rewrite <- (sapp_nil_r f). destruct (digits_plus_app f EmptyString Hf) as [-> ->]; done.
Qed.

Lemma isExponent_grammar s : isExponent s = true ↔ EXPONENT s.
Proof.
  unfold isExponent. split.
  - destruct s as [|c s]; [done|]. destruct (negb _ && negb _) eqn:E; [done|]. intros H.
    apply isTurtleInteger_grammar in H as (sg & d & Hsg & Hd & ->).
    exists (str1 c), sg, d. repeat split; try done; try apply Hd.
    apply andb_false_iff in E as [E|E]; bool_cases; subst; auto.
  - intros (e & sg & d & He & Hsg & Hd & ->).
    assert (H : INTEGER (sg +:+ d)) by (exists sg, d; auto). apply isTurtleInteger_grammar in H.
    by destruct He as [->| ->].
Qed.

Lemma EXPONENT_head s : EXPONENT s → ∃ c t, s = String c t ∧ is_digit c = false ∧ Ascii.eqb c "." = false ∧ is_sign c = false.
Proof. intros (e & sg & d & [->| ->] & _ & _ & ->); eexists _, _; repeat split; reflexivity. Qed.

Lemma isTurtleDouble_grammar s : isTurtleDouble s = true ↔ DOUBLE s.
Proof.
  unfold isTurtleDouble. split.
  - destruct (skipSign_inv s) as (sg & Hsg & Hs). destruct (skipDigits_inv (skipSign s)) as (i & Hi & Ht & Hn).
    set (t := skipSign s) in *. assert (Ha : advanced t (skipDigits t) = negb (is_empty i)).
    { rewrite Ht at 1. apply advanced_app. } rewrite Ha.
    destruct (skipDigits t) as [|c r].
    { destruct (is_empty i); done. }
    destruct (Ascii.eqb_spec c ".") as [->|].
    + destruct (skipDigits_inv r) as (f & Hf & Hr & _). rewrite Hr at 1. rewrite advanced_app.
      destruct (negb _ && negb _) eqn:E; [done|]. intros He%isExponent_grammar.
      exists sg, (i +:+ "." +:+ f), (skipDigits r). split_and!; [done..| |].
      * rewrite !app_assoc_s, <- Hr. by rewrite Hs, Ht.
      * destruct i; [|right; left; by exists (String a i), f].
        destruct f; [done|]. right; right. by exists (String a f).
    + destruct (is_empty i) eqn:Ei; cbn [negb]; [done|]. intros He%isExponent_grammar.
      exists sg, i, (String c r). rewrite <- Ht, <- Hs. split_and!; try done. left. split; [by destruct i|done].
  - intros (sg & m & e & Hsg & He & -> & Hm). destruct (EXPONENT_head _ He) as (c & t & Ee & Hc & Hcd & Hcs).
    assert (Hne : no_digit_head e = true) by (by rewrite Ee; cbn; rewrite Hc).
    apply isExponent_grammar in He.
    destruct Hm as [Hm|[(i & f & Hi & Hf & ->)|(f & Hf & ->)]].
    + rewrite skipSign_app by (done || by apply digits_no_sign).
      destruct (digits_plus_app m e Hm Hne) as [-> ->]. rewrite Ee, Hcd. cbn [negb]. by rewrite <- Ee.
    + rewrite !app_assoc_s. rewrite skipSign_app by (done || by apply digits_no_sign).
      destruct (digits_plus_app i ("." +:+ f +:+ e) Hi eq_refl) as [-> ->].
      rewrite sapp_cons, sapp_nil_l. cbn [negb andb Ascii.eqb Bool.eqb]. by rewrite skipDigits_app.
    + rewrite !app_assoc_s. rewrite skipSign_app by done.
      change (skipDigits ("." +:+ f +:+ e)) with (String "." (f +:+ e)).
      cbn [Ascii.eqb Bool.eqb].
      destruct (digits_plus_app f e Hf Hne) as [-> ->]. cbn [negb]. by rewrite andb_false_r.
Qed.

(** ** Properties *)

(** C20: [IsTurtleInteger], [IsTurtleDecimal] and [IsTurtleDouble] accept exactly
    the Turtle productions INTEGER, DECIMAL and DOUBLE, so a literal is written
    without quotes only when the grammar reads its text back as a number. *)
Theorem turtle_numeric_grammar : ∀ s,
  (isTurtleInteger s = true ↔ INTEGER s) ∧
  (isTurtleDecimal s = true ↔ DECIMAL s) ∧
  (isTurtleDouble s = true ↔ DOUBLE s).
Proof.
  intros s. split_and!; auto using isTurtleInteger_grammar, isTurtleDecimal_grammar, isTurtleDouble_grammar.
Qed.
