(* ===== verification/TermKey.v ===== *)
(** * Term keys are faithful

    The stores index triples by [TermKey] and persist it; this file proves that
    the key of a term built by the constructors determines the term, and that
    [TermFromKey] recovers it ([term/key.go], [term/literal.go],
    [term/decode.go]). *)

From S2P Require Import Prelude GoStrings Utf8 Strconv Term Decode.
From stdpp Require Import options.

(** ** Escaping *)

Lemma str1_app c s : str1 c +:+ s = String c s.
Proof. done. Qed.

Lemma backslash_app d s : backslash_with d +:+ s = String bslash (String d s).
Proof. done. Qed.

Lemma literalEscaper_cases c :
  (c ≠ bslash ∧ c ≠ dquote ∧ literalEscaper c = str1 c) ∨
  (∃ d, literalEscaper c = backslash_with d ∧ unescape_char d = Some c).
Proof.
  unfold literalEscaper. repeat case_match; bool_cases; subst; eauto 6.
Qed.

Lemma tripleQuotedEscaper_cases c :
  (c ≠ bslash ∧ tripleQuotedEscaper c = str1 c) ∨
  (∃ d, tripleQuotedEscaper c = backslash_with d ∧ d ≠ dquote ∧ unescape_char d = Some c).
Proof.
  unfold tripleQuotedEscaper. repeat case_match; bool_cases; subst; [right; eexists; repeat split; done..|by left].
Qed.

Lemma unescape_go_plain c s : c ≠ bslash → unescape_go (String c s) = String c (unescape_go s).
Proof. intros Hc. cbn. by apply Ascii.eqb_neq in Hc as ->. Qed.

Lemma unescape_go_pair d c s :
  unescape_char d = Some c → unescape_go (String bslash (String d s)) = String c (unescape_go s).
Proof. intros Hd. cbn. by rewrite Hd. Qed.

Lemma unescape_escape s : unescape_go (escapeLiteral s) = s.
Proof.
  unfold escapeLiteral. induction s as [|c s IH]; [done|]. cbn [sflat_map].
  destruct (literalEscaper_cases c) as [(Hb & _ & ->) | (d & -> & Hd)]; rewrite ?str1_app, ?backslash_app.
  - rewrite unescape_go_plain, IH; done.
  - rewrite (unescape_go_pair _ c), IH; done.
Qed.

Lemma unescapeLiteral_go s : unescapeLiteral s = unescape_go s.
Proof.
  unfold unescapeLiteral. destruct (has_byte bslash s) eqn:H; [done|].
  induction s as [|c s IH]; [done|].
  rewrite has_byte_cons in H. apply orb_false_iff in H as [Hc H].
  rewrite Ascii.eqb_sym in Hc. apply Ascii.eqb_neq in Hc.
  rewrite unescape_go_plain by done. by rewrite <- IH.
Qed.

Lemma findClosingQuote_escape s rest :
  findClosingQuote (escapeLiteral s +:+ String dquote rest) = Some (len (escapeLiteral s)).
Proof.
  unfold escapeLiteral. induction s as [|c s IH]; [done|]. cbn [sflat_map].
  destruct (literalEscaper_cases c) as [(Hb & Hq & ->) | (d & -> & Hd)];
    rewrite ?str1_app, ?backslash_app, !sapp_cons.
  - cbn. apply Ascii.eqb_neq in Hb as ->, Hq as ->. by rewrite IH.
  - cbn. by rewrite IH.
Qed.

Lemma escapeLiteral_head s c t : escapeLiteral s = String c t → c ≠ dquote.
Proof.
  destruct s as [|d s]; [done|]. unfold escapeLiteral; cbn [sflat_map].
  destruct (literalEscaper_cases d) as [(Hb & Hq & ->) | (e & -> & Hd)];
    rewrite ?str1_app, ?backslash_app; by intros [= <- _].
Qed.

Lemma escapeLiteral_id s :
  sforall (λ c, negb (Ascii.eqb c bslash || Ascii.eqb c dquote || Ascii.eqb c cr || Ascii.eqb c tab)) s = true →
  has_byte lf s = false → escapeLiteral s = s.
Proof.
  unfold escapeLiteral. induction s as [|c s IH]; [done|].
  cbn [sforall sflat_map]. rewrite has_byte_cons.
  intros [Hc Hs]%andb_true_iff [Hl Hs']%orb_false_iff.
  rewrite Ascii.eqb_sym in Hl. rewrite negb_true_iff in Hc. repeat apply orb_false_iff in Hc as [Hc ?].
  unfold literalEscaper. rewrite Hc, Hl. repeat match goal with H : _ = false |- _ => rewrite H; clear H end.
  rewrite str1_app. f_equal. by apply IH.
Qed.

(** ** Triple-quoted literals *)

(** The number of leading quotes. *)
Fixpoint nquotes (s : string) : nat :=
  match s with
  | String c s => if Ascii.eqb c dquote then S (nquotes s) else 0
  | EmptyString => 0
  end.

Definition trimq (s : string) : string := TrimRightP (Ascii.eqb dquote) s.

Lemma trimq_cons c s :
  trimq (String c s) = match trimq s with
                       | EmptyString => if Ascii.eqb dquote c then EmptyString else str1 c
                       | t => String c t
                       end.
Proof. done. Qed.

(** [trailing] is at or before the first of the closing quotes. *)
Definition trailing_ok (trailing i : nat) (s : string) : Prop := trailing ≤ i + len (trimq s).

Lemma trailing_ok_step trailing i c s :
  trailing_ok trailing i (String c s) → trailing_ok trailing (S i) s.
Proof.
  unfold trailing_ok. rewrite trimq_cons. destruct (trimq s).
  - destruct (Ascii.eqb dquote c); unfold str1; rewrite ?len_cons, ?len_nil; lia.
  - rewrite !len_cons. lia.
Qed.

(** A raw quote is never among the trailing ones. *)
Lemma trailing_ok_raw trailing i s :
  trailing_ok trailing i (String dquote s) → (trailing <=? i) = false → s ≠ EmptyString.
Proof.
  unfold trailing_ok. intros H1 H2%Nat.leb_gt ->. rewrite trimq_cons in H1.
  cbn in H1. rewrite len_nil in H1. lia.
Qed.

Lemma escapeQuotes_nquotes trailing i q s X :
  q ≤ 2 → trailing_ok trailing i s → s ≠ EmptyString →
  nquotes (escapeQuotes trailing i q s +:+ X) < 3 - q.
Proof.
  revert i q. induction s as [|c s IH]; [done|]. intros i q Hq Ht _. cbn [escapeQuotes].
  destruct (Ascii.eqb_spec c dquote) as [->|Hc]; cbn [negb].
  - destruct ((S q =? 3) || (trailing <=? i)) eqn:E.
    + rewrite backslash_app, !sapp_cons. cbn. lia.
    + apply orb_false_iff in E as [E1 E2]. apply Nat.eqb_neq in E1.
      rewrite sapp_cons; cbn [nquotes]. change (Ascii.eqb dquote dquote) with true. cbn iota.
      specialize (IH (S i) (S q)). pose proof (trailing_ok_raw _ _ _ Ht E2).
      apply trailing_ok_step in Ht. specialize (IH ltac:(lia) Ht ltac:(done)). lia.
  - rewrite sapp_cons. cbn. apply Ascii.eqb_neq in Hc as ->. lia.
Qed.

Lemma findClosingTripleQuote_plain c s :
  c ≠ bslash → nquotes (String c s) < 3 → 2 ≤ len s →
  findClosingTripleQuote (String c s) = S <$> findClosingTripleQuote s.
Proof.
  intros Hb Hn Hl. destruct s as [|d [|e s]]; rewrite ?len_cons, ?len_nil in Hl; try lia.
  cbn [findClosingTripleQuote]. apply Ascii.eqb_neq in Hb as ->. cbn [nquotes] in Hn.
  destruct (Ascii.eqb c dquote); cbn [andb]; [|done].
  destruct (Ascii.eqb d dquote); cbn [andb]; [|done].
  destruct (Ascii.eqb e dquote); [lia|done].
Qed.

Lemma findClosingTripleQuote_pair d s :
  1 ≤ len s →
  findClosingTripleQuote (String bslash (String d s)) = (λ i, S (S i)) <$> findClosingTripleQuote s.
Proof. destruct s; [rewrite len_nil; lia|done]. Qed.

(** The inner string of [escapeTripleQuotedLiteral], for induction over the
    literal's own characters. *)
Definition tq (s : string) : string := sflat_map tripleQuotedEscaper s.

Lemma findClosing_escapeQuotes trailing s X : ∀ i q,
  q ≤ 2 → trailing_ok trailing i (tq s) →
  findClosingTripleQuote (escapeQuotes trailing i q (tq s) +:+ dq3 +:+ X)
  = Some (len (escapeQuotes trailing i q (tq s))).
Proof.
  assert (Hlen : ∀ t, 2 ≤ len (t +:+ dq3 +:+ X)).
  { intros t. rewrite !len_app. unfold dq3, str1. rewrite !len_cons. lia. }
  induction s as [|c s IH]; intros i q Hq Ht; [done|].
  unfold tq in *; cbn [sflat_map] in *.
  destruct (tripleQuotedEscaper_cases c) as [(Hb & E) | (d & E & Hd & _)];
    rewrite E in *; rewrite ?str1_app, ?backslash_app in *.
  - pose proof (trailing_ok_step _ _ _ _ Ht) as Ht'.
    destruct (Ascii.eqb_spec c dquote) as [->|Hc].
    + pose proof (escapeQuotes_nquotes _ _ q _ (dq3 +:+ X) Hq Ht ltac:(done)) as Hn.
      cbn [escapeQuotes] in *. rewrite Ascii.eqb_refl in *; cbn [negb] in *.
      destruct ((S q =? 3) || (trailing <=? i)) eqn:E3.
      * rewrite backslash_app, !sapp_cons.
        rewrite findClosingTripleQuote_pair by (etrans; [|apply Hlen]; lia).
        rewrite IH; [done|lia|done].
      * apply orb_false_iff in E3 as [E3 _]. apply Nat.eqb_neq in E3. rewrite !sapp_cons in *.
        rewrite findClosingTripleQuote_plain; [|done|lia|apply Hlen].
        rewrite IH; [done|lia|done].
    + cbn [escapeQuotes] in *. rewrite (proj2 (Ascii.eqb_neq _ _) Hc) in *; cbn [negb] in *.
      rewrite !sapp_cons in *.
      rewrite findClosingTripleQuote_plain; [|done| |apply Hlen].
      * rewrite IH; [done|lia|done].
      * cbn. rewrite (proj2 (Ascii.eqb_neq _ _) Hc). lia.
  - do 2 apply trailing_ok_step in Ht. cbn [escapeQuotes].
    change (Ascii.eqb bslash dquote) with false. rewrite (proj2 (Ascii.eqb_neq _ _) Hd). cbn [negb].
    rewrite !sapp_cons, findClosingTripleQuote_pair by (etrans; [|apply Hlen]; lia).
    rewrite IH; [done|lia|done].
Qed.

Lemma unescape_escapeQuotes trailing s : ∀ i q, unescape_go (escapeQuotes trailing i q (tq s)) = s.
Proof.
  induction s as [|c s IH]; intros i q; [done|].
  unfold tq in *; cbn [sflat_map].
  destruct (tripleQuotedEscaper_cases c) as [(Hb & ->) | (d & -> & Hd & Hu)];
    rewrite ?str1_app, ?backslash_app; cbn [escapeQuotes].
  - destruct (Ascii.eqb_spec c dquote) as [->|Hc]; cbn [negb].
    + case_match; [|by rewrite unescape_go_plain, IH].
      rewrite backslash_app, (unescape_go_pair _ dquote), IH; done.
    + by rewrite unescape_go_plain, IH.
  - change (Ascii.eqb bslash dquote) with false. rewrite (proj2 (Ascii.eqb_neq _ _) Hd). cbn [negb].
    by rewrite (unescape_go_pair _ c), IH.
Qed.

Lemma trailing_ok_init s : trailing_ok (len (trimq s)) 0 s.
Proof. unfold trailing_ok. lia. Qed.

Lemma findClosingTripleQuote_escape s X :
  findClosingTripleQuote (escapeTripleQuotedLiteral s +:+ dq3 +:+ X)
  = Some (len (escapeTripleQuotedLiteral s)).
Proof. apply (findClosing_escapeQuotes _ s); [lia|apply trailing_ok_init]. Qed.

Lemma unescape_escapeTriple s : unescape_go (escapeTripleQuotedLiteral s) = s.
Proof. apply unescape_escapeQuotes. Qed.

(** ** The numeric shorthands *)

Lemma skipDigits_nil s : skipDigits s = EmptyString ↔ all_digits s = true.
Proof.
  induction s as [|c s IH]; cbn; [done|]. destruct (is_digit c); cbn; [done|by split].
Qed.

Lemma isTurtleInteger_spec s :
  isTurtleInteger s = true ↔ skipSign s ≠ EmptyString ∧ skipDigits (skipSign s) = EmptyString.
Proof.
  unfold isTurtleInteger, advanced. generalize (skipSign s); intros t.
  destruct (skipDigits t) as [|d r] eqn:E; cbn [is_empty].
  - rewrite andb_true_r, Nat.ltb_lt, len_nil. destruct t; rewrite ?len_nil, ?len_cons; naive_solver lia.
  - rewrite andb_false_r. by split; [|intros []].
Qed.

Lemma isTurtleInteger_not_decimal s : isTurtleInteger s = true → isTurtleDecimal s = false.
Proof. intros [_ H]%isTurtleInteger_spec. unfold isTurtleDecimal. by rewrite H. Qed.

Lemma isTurtleInteger_not_double s : isTurtleInteger s = true → isTurtleDouble s = false.
Proof.
  intros [_ H]%isTurtleInteger_spec. unfold isTurtleDouble. rewrite H. by case_match.
Qed.

Lemma isTurtleDecimal_not_double s : isTurtleDecimal s = true → isTurtleDouble s = false.
Proof.
  unfold isTurtleDecimal, isTurtleDouble. destruct (skipDigits (skipSign s)) as [|c r]; [done|].
  destruct (Ascii.eqb c "."); cbn [negb]; [|done].
  intros [_ H]%andb_true_iff. destruct (skipDigits r); [|done]. by case_match.
Qed.

Lemma ParseBig_Turtle s : isTurtleInteger s = true ↔ is_Some (ParseBig s).
Proof.
  rewrite isTurtleInteger_spec. rewrite skipDigits_nil.
  unfold ParseBig, skipSign, split_sign.
  destruct s as [|c s]; [split; [by intros []|by intros []]|].
  destruct (is_sign c).
  - destruct s as [|d s]; [split; [by intros []|by intros []]|].
    rewrite fmap_is_Some, digits_acc_is_Some. naive_solver.
  - rewrite fmap_is_Some, digits_acc_is_Some. naive_solver.
Qed.

Lemma ParseInt64_Turtle s z : ParseInt64 s = Some z → isTurtleInteger s = true.
Proof. intros [H _]%ParseInt64_Some. apply ParseBig_Turtle. eauto. Qed.

(** Text that starts with a quote is no shorthand. *)
Lemma quoted_not_numeric s :
  isTurtleDouble (String dquote s) = false ∧ isTurtleDecimal (String dquote s) = false ∧
  isTurtleInteger (String dquote s) = false.
Proof.
  assert (H : skipDigits (skipSign (String dquote s)) = String dquote s) by done.
  assert (H' : skipSign (String dquote s) = String dquote s) by done.
  unfold isTurtleDouble, isTurtleDecimal, isTurtleInteger, advanced.
  rewrite H, H', Nat.ltb_irrefl. done.
Qed.

(** ** Language tags *)

Lemma SplitByte_cons_ne s c : SplitByte s c ≠ [].
Proof. destruct s as [|d s]; cbn; [done|]. destruct (Ascii.eqb c d); [done|]. by destruct (SplitByte s c). Qed.

Lemma to_lower_letter c : is_letter (to_lower c) = is_letter c.
Proof. byte_cases c. Qed.
Lemma to_lower_alnum c : is_alnum (to_lower c) = is_alnum c.
Proof. byte_cases c. Qed.
Lemma to_lower_idem c : to_lower (to_lower c) = to_lower c.
Proof. byte_cases c. Qed.
Lemma to_lower_hyphen c : Ascii.eqb "-" (to_lower c) = Ascii.eqb "-" c.
Proof. byte_cases c. Qed.

Lemma ToLower_cons c s : ToLower (String c s) = String (to_lower c) (ToLower s).
Proof. done. Qed.

Lemma ToLower_idem s : ToLower (ToLower s) = ToLower s.
Proof. induction s as [|c s IH]; [done|]. by rewrite !ToLower_cons, to_lower_idem, IH. Qed.

Lemma len_ToLower s : len (ToLower s) = len s.
Proof. induction s as [|c s IH]; [done|]. by rewrite ToLower_cons, !len_cons, IH. Qed.

Lemma ToLower_empty s : is_empty (ToLower s) = is_empty s.
Proof. by destruct s. Qed.

Lemma SplitByte_ToLower s : SplitByte (ToLower s) "-" = ToLower <$> SplitByte s "-".
Proof.
  induction s as [|c s IH]; [done|]. rewrite ToLower_cons. cbn [SplitByte].
  rewrite to_lower_hyphen, IH. destruct (Ascii.eqb "-" c); [done|].
  by destruct (SplitByte s "-").
Qed.

Lemma sforall_ToLower p s :
  (∀ c, p (to_lower c) = p c) → sforall p (ToLower s) = sforall p s.
Proof. intros Hp. induction s as [|c s IH]; [done|]. rewrite ToLower_cons; cbn. by rewrite Hp, IH. Qed.

Lemma subtag_ok_ToLower b w : subtag_ok b (ToLower w) = subtag_ok b w.
Proof.
  unfold subtag_ok. rewrite len_ToLower. f_equal.
  destruct b; apply sforall_ToLower; auto using to_lower_letter, to_lower_alnum.
Qed.

Lemma ValidLanguageTag_ToLower t : ValidLanguageTag (ToLower t) = ValidLanguageTag t.
Proof.
  unfold ValidLanguageTag. rewrite SplitByte_ToLower. destruct (SplitByte t "-"); cbn; [done|].
  rewrite subtag_ok_ToLower. f_equal. induction l; cbn; [done|]. by rewrite subtag_ok_ToLower, IHl.
Qed.

(** No subtag is empty, so the tag has no [--] and does not end in a hyphen. *)
Definition nonempty (s : string) : bool := negb (is_empty s).

Lemma subtag_ok_nonempty b w : subtag_ok b w = true → nonempty w = true.
Proof. by destruct w. Qed.

Lemma ValidLanguageTag_words t :
  ValidLanguageTag t = true → forallb nonempty (SplitByte t "-") = true.
Proof.
  unfold ValidLanguageTag. destruct (SplitByte t "-") as [|w ws]; [done|].
  intros [Hw Hws]%andb_true_iff. cbn. rewrite (subtag_ok_nonempty _ _ Hw); cbn.
  rewrite forallb_forall in *. eauto using subtag_ok_nonempty.
Qed.

Lemma SplitByte_tail_step c t :
  forallb nonempty (tail (SplitByte (String c t) "-")) = true →
  forallb nonempty (tail (SplitByte t "-")) = true.
Proof.
  cbn [SplitByte]. destruct (Ascii.eqb "-" c).
  - cbn [tail]. destruct (SplitByte t "-"); [done|]. cbn. by intros [_ ?]%andb_true_iff.
  - by destruct (SplitByte t "-").
Qed.

(** After a hyphen comes a byte that is none. *)
Lemma SplitByte_tail_hyphen t X :
  forallb nonempty (tail (SplitByte (String "-" t) "-")) = true →
  HasPrefix (String "-" t +:+ X) "--" = false.
Proof.
  cbn [SplitByte]. rewrite Ascii.eqb_refl; cbn [tail].
  destruct t as [|d t]; [done|]. cbn [SplitByte]. destruct (Ascii.eqb_spec "-" d) as [<-|Hd]; [done|].
  intros _. rewrite !sapp_cons, !HasPrefix_cons. rewrite (Ascii.eqb_sym d), (proj2 (Ascii.eqb_neq _ _) Hd). done.
Qed.

Lemma Index_words t X :
  forallb nonempty (tail (SplitByte t "-")) = true →
  Index (t +:+ "--" +:+ X) "--" = Some (len t).
Proof.
  induction t as [|c t IH].
  { intros _. rewrite sapp_nil_l, !sapp_cons, sapp_nil_l. by destruct X. }
  intros H.
  assert (Hp : HasPrefix (String c t +:+ "--" +:+ X) "--" = false).
  { destruct (Ascii.eqb_spec c "-") as [->|Hc]; [by apply SplitByte_tail_hyphen|].
    rewrite sapp_cons, HasPrefix_cons. by rewrite (proj2 (Ascii.eqb_neq _ _) Hc). }
  apply SplitByte_tail_step in H. specialize (IH H).
  rewrite (sapp_cons c t) in *. cbn [Index]. by rewrite Hp, IH.
Qed.

Lemma Index_words_None t :
  forallb nonempty (tail (SplitByte t "-")) = true → Index t "--" = None.
Proof.
  induction t as [|c t IH]; [done|]. intros H.
  assert (Hp : HasPrefix (String c t) "--" = false).
  { destruct (Ascii.eqb_spec c "-") as [->|Hc].
    - rewrite <- (sapp_nil_r (String "-" t)). by apply SplitByte_tail_hyphen.
    - rewrite HasPrefix_cons. by rewrite (proj2 (Ascii.eqb_neq _ _) Hc). }
  cbn [Index]. rewrite Hp, IH; [done|]. by eapply SplitByte_tail_step.
Qed.

Lemma ValidLanguageTag_tail t :
  ValidLanguageTag t = true → forallb nonempty (tail (SplitByte t "-")) = true.
Proof.
  intros H%ValidLanguageTag_words. destruct (SplitByte t "-"); [done|].
  cbn in *. by apply andb_true_iff in H as [_ ?].
Qed.

(** ** Well-formed literals *)

(** What the constructor establishes: the key is cached, a tagged literal has a
    valid lower-case tag, a known direction and the matching datatype, and an
    untagged one has no direction. *)
Definition lit_wf (l : Literal) : Prop :=
  lit_key l = literalKey l ∧
  (if is_empty (lang l) then dir l = EmptyString
   else ValidLanguageTag (lang l) = true ∧ ToLower (lang l) = lang l ∧
        (dir l = EmptyString ∨ dir l = "ltr" ∨ dir l = "rtl") ∧
        datatype l = if is_empty (dir l) then RDFLangString else RDFDirLangString).

(** A datatype that names something: built by a constructor from a non-empty
    string. *)
Definition named_uri (u : URIRef) : Prop := ∃ v, v ≠ EmptyString ∧ u = NewURIRefUnsafe v.

Lemma stake_sdrop_eq n s t u : s = t +:+ u → len t = n → stake n s = t ∧ sdrop n s = u.
Proof. intros -> <-. by rewrite stake_app, sdrop_app. Qed.

Lemma shareLexical_id key lex : shareLexical key lex = lex.
Proof.
  unfold shareLexical. repeat case_match; bool_cases; auto.
Qed.

Lemma finishLiteral_wf_eq l :
  lit_wf l → finishLiteral (MkLiteral (lexical l) (lang l) (dir l) (datatype l) EmptyString) = l.
Proof.
  destruct l as [lex lng d dt k]. intros [Hk Hl]. cbn in Hk, Hl.
  unfold finishLiteral. cbn [lang dir datatype lexical lit_key].
  destruct (is_empty lng) eqn:El; cbn [negb].
  - subst d. rewrite shareLexical_id. cbn [lexical lang dir datatype]. by rewrite Hk.
  - destruct Hl as (_ & _ & _ & ->). rewrite shareLexical_id. cbn [lexical lang dir datatype].
    rewrite Hk. by destruct (is_empty d).
Qed.

(** The options a literal may be built with. *)
Inductive literal_option : LiteralOption → Prop :=
| lo_lang t : literal_option (WithLang t)
| lo_dir d : literal_option (WithDir d)
| lo_datatype u : literal_option (WithDatatype u).

Definition lang_ok (l : Literal) : Prop :=
  is_empty (lang l) = true ∨ (ValidLanguageTag (lang l) = true ∧ ToLower (lang l) = lang l).
Definition dir_ok (l : Literal) : Prop := dir l = EmptyString ∨ dir l = "ltr" ∨ dir l = "rtl".

Lemma literal_option_ok opt l : literal_option opt → lang_ok l ∧ dir_ok l → lang_ok (opt l) ∧ dir_ok (opt l).
Proof.
  intros [t|d|u] [Hl Hd]; split; unfold WithLang, WithDir, lang_ok, dir_ok; repeat case_match; auto; cbn.
  - destruct (is_empty t) eqn:Et; cbn in *.
    + left. by rewrite ToLower_empty.
    + bool_cases. right. by rewrite ValidLanguageTag_ToLower, ToLower_idem.
  - apply orb_true_iff in H as [H|H]; bool_cases; auto.
Qed.

Lemma options_ok opts l :
  Forall literal_option opts → lang_ok l ∧ dir_ok l →
  lang_ok (foldl (λ l opt, opt l) l opts) ∧ dir_ok (foldl (λ l opt, opt l) l opts).
Proof.
  intros Ho. revert l. induction Ho as [|opt opts Ho _ IH]; intros l Hl; [done|].
  cbn. by apply IH, literal_option_ok.
Qed.

Lemma finishLiteral_wf l : lang_ok l → dir_ok l → lit_wf (finishLiteral l).
Proof.
  intros Hl Hd. unfold lang_ok, dir_ok in *. unfold lit_wf, finishLiteral.
  destruct (is_empty (lang l)) eqn:El; cbn [negb lexical lang dir datatype lit_key];
    rewrite !shareLexical_id, El; split; try done.
  destruct Hl as [?|[? ?]]; [done|]. repeat split; try done.
  by destruct (is_empty (dir l)).
Qed.

Lemma NewLiteral_lit_wf v opts : Forall literal_option opts → lit_wf (NewLiteral v opts).
Proof.
  intros Ho. unfold NewLiteral. destruct (goToLexical v) as [lex dt].
  edestruct (options_ok opts) as [Hl Hd]; [done| |by apply finishLiteral_wf].
  split; by left.
Qed.

(** ** The key of a literal is its N3 form *)

Lemma named_uri_value u : named_uri u → ∃ v, URIRef_value u = v ∧ v ≠ EmptyString ∧ uri_key u = "U:" +:+ v.
Proof. intros (v & Hv & ->). by exists v. Qed.

Lemma named_uri_zero u : named_uri u → u ≠ URIRef_zero.
Proof. intros (v & Hv & ->). done. Qed.

Lemma XSDString_named : named_uri XSDString.
Proof. eexists; split; [|reflexivity]. done. Qed.

Lemma sexists_false p s : sexists p s = false ↔ sforall (λ c, negb (p c)) s = true.
Proof. unfold sexists. by rewrite negb_false_iff. Qed.

Lemma escape_if s :
  has_byte lf s = false →
  (if sexists (λ c, Ascii.eqb c bslash || Ascii.eqb c dquote || Ascii.eqb c cr || Ascii.eqb c tab) s
   then escapeLiteral s else s) = escapeLiteral s.
Proof.
  intros Hl. destruct (sexists _ s) eqn:E; [done|]. symmetry. apply escapeLiteral_id; [|done].
  by apply sexists_false in E.
Qed.

Lemma literalKey_N3_eq l : named_uri (datatype l) → literalKey l = "L:" +:+ Literal_N3 l.
Proof.
  intros Hn. unfold literalKey. rewrite Contains_byte. destruct (has_byte lf (lexical l)) eqn:Hlf; [done|].
  destruct (decide _) as [|Hdt]; [done|].
  apply Decidable.not_or in Hdt as [? Hdt]. apply Decidable.not_or in Hdt as [? Hdt].
  apply Decidable.not_or in Hdt as [? ?].
  unfold Literal_N3, N3_shortcut. rewrite !decide_False by done.
  unfold Literal_quoted. rewrite Contains_byte, Hlf, escape_if by done.
  destruct (named_uri_value _ Hn) as (v & Hv & Hne & _).
  rewrite (bool_decide_eq_false_2 _ (named_uri_zero _ Hn)). cbn [negb andb].
  destruct (is_empty (lang l)); cbn [negb].
  - destruct (bool_decide (datatype l = XSDString)); cbn [negb is_empty].
    + by rewrite sapp_nil_r.
    + rewrite Hv. destruct v; [done|]. cbn [is_empty negb]. unfold URIRef_N3. rewrite Hv.
      by rewrite !app_assoc_s.
  - destruct (is_empty (dir l)); cbn [negb]; by rewrite !app_assoc_s, ?sapp_nil_r.
Qed.

(** ** Reading a literal back *)

Lemma byte_at_0 c s : byte_at (String c s) 0 = Some c.
Proof. done. Qed.

Lemma Literal_quoted_dquote l : ∃ t, Literal_quoted l = String dquote t.
Proof. unfold Literal_quoted, dq, dq3. case_match; rewrite str1_app || rewrite sapp_cons; eauto. Qed.

(** The text after a literal's closing quote never starts with a quote. *)
Definition no_quote_head (s : string) : Prop := ∀ t, s ≠ String dquote t.

Lemma splitQuoted_triple s X :
  splitQuoted (dq3 +:+ escapeTripleQuotedLiteral s +:+ dq3 +:+ X) = Ok (s, X).
Proof.
  unfold splitQuoted. rewrite HasPrefix_app.
  rewrite (sdrop_app dq3 _ : sdrop 3 _ = _), findClosingTripleQuote_escape.
  unfold unescapeTripleQuotedLiteral.
  rewrite stake_app, unescapeLiteral_go, unescape_escapeTriple. do 2 f_equal.
  rewrite <- (Nat.add_assoc 3). rewrite (sdrop_app_add dq3 _ _ : sdrop (3 + _) _ = _).
  rewrite sdrop_app_add. apply (sdrop_app dq3).
Qed.

Lemma splitQuoted_single s X :
  no_quote_head X → splitQuoted (dq +:+ escapeLiteral s +:+ dq +:+ X) = Ok (s, X).
Proof.
  intros HX. unfold splitQuoted.
  assert (HasPrefix (dq +:+ escapeLiteral s +:+ dq +:+ X) dq3 = false) as ->.
  { unfold dq, dq3. rewrite !str1_app, HasPrefix_cons, Ascii.eqb_refl; cbn [andb].
    destruct (escapeLiteral s) as [|c e'] eqn:Ee.
    - rewrite sapp_nil_l, HasPrefix_cons, Ascii.eqb_refl; cbn [andb].
      destruct X as [|d X]; [done|]. unfold str1. rewrite HasPrefix_cons.
      destruct (Ascii.eqb_spec d dquote) as [->|]; [by destruct (HX X)|done].
    - rewrite sapp_cons, HasPrefix_cons. apply escapeLiteral_head in Ee.
      by rewrite (proj2 (Ascii.eqb_neq _ _) Ee). }
  rewrite (sdrop_app dq _ : sdrop 1 _ = _), (findClosingQuote_escape s X : findClosingQuote (_ +:+ dq +:+ _) = _).
  rewrite stake_app, unescapeLiteral_go, unescape_escape. do 2 f_equal.
  rewrite <- (Nat.add_assoc 1). rewrite (sdrop_app_add dq _ _ : sdrop (1 + _) _ = _).
  rewrite sdrop_app_add. apply (sdrop_app dq).
Qed.

Lemma splitQuoted_quoted l X :
  no_quote_head X → splitQuoted (Literal_quoted l +:+ X) = Ok (lexical l, X).
Proof.
  intros HX. unfold Literal_quoted. case_match; rewrite !app_assoc_s.
  - apply splitQuoted_triple.
  - by apply splitQuoted_single.
Qed.

(** The suffix [Literal_N3] writes after the quoted form. *)
Definition N3_suffix (l : Literal) : string :=
  if negb (is_empty (lang l)) then
    if negb (is_empty (dir l)) then "@" +:+ lang l +:+ "--" +:+ dir l else "@" +:+ lang l
  else if negb (bool_decide (datatype l = URIRef_zero)) && negb (bool_decide (datatype l = XSDString))
  then "^^<" +:+ URIRef_value (datatype l) +:+ ">"
  else EmptyString.

Lemma Literal_N3_suffix l :
  N3_shortcut l = false → Literal_N3 l = Literal_quoted l +:+ N3_suffix l.
Proof.
  intros H. unfold Literal_N3, N3_suffix. rewrite H.
  repeat case_match; try done; by rewrite sapp_nil_r.
Qed.

Lemma N3_suffix_head l : no_quote_head (N3_suffix l).
Proof. unfold N3_suffix, no_quote_head. intros t. repeat case_match; rewrite ?sapp_cons; done. Qed.

Lemma byte_at_app s c : byte_at (s +:+ str1 c) (len s) = Some c.
Proof. induction s as [|d s IH]; [done|]. by rewrite sapp_cons, len_cons. Qed.

Lemma WithLang_valid t l :
  ValidLanguageTag t = true → ToLower t = t →
  WithLang t l = MkLiteral (lexical l) t (dir l) (datatype l) (lit_key l).
Proof. intros Hv Ht. unfold WithLang. rewrite Hv, Ht. by rewrite andb_false_r. Qed.

Lemma literalSuffix_plain lex :
  literalSuffix lex EmptyString = Ok (finishLiteral (MkLiteral lex EmptyString EmptyString XSDString EmptyString)).
Proof. done. Qed.

Lemma literalSuffix_datatype lex v :
  literalSuffix lex ("^^<" +:+ v +:+ ">")
  = Ok (finishLiteral (MkLiteral lex EmptyString EmptyString (NewURIRefUnsafe v) EmptyString)).
Proof.
  unfold literalSuffix. set (dt := "<" +:+ v +:+ ">").
  assert (Hl : len dt = S (len v + 1)) by (unfold dt; rewrite sapp_cons, sapp_nil_l, len_cons, len_app; done).
  change ("^^<" +:+ v +:+ ">") with ("^^" +:+ dt).
  change (HasPrefix ("^^" +:+ dt) "@") with false.
  rewrite HasPrefix_app. rewrite (sdrop_app "^^" dt : sdrop 2 _ = _).
  assert ((2 <=? len dt) = true) as -> by (apply Nat.leb_le; lia).
  change (byte_at dt 0) with (Some "<"%char). cbn [andb].
  rewrite Hl. replace (S (len v + 1) - 1) with (S (len v)) by lia.
  change (byte_at dt (S (len v))) with (byte_at (v +:+ ">") (len v)).
  rewrite (byte_at_app v ">" : byte_at (v +:+ ">") _ = _). change (sdrop 1 dt) with (v +:+ ">").
  replace (S (len v + 1) - 2) with (len v) by lia. rewrite stake_app. done.
Qed.

Lemma literalSuffix_lang lex t d :
  ValidLanguageTag t = true → ToLower t = t → d = EmptyString ∨ d = "ltr" ∨ d = "rtl" →
  literalSuffix lex (if negb (is_empty d) then "@" +:+ t +:+ "--" +:+ d else "@" +:+ t)
  = Ok (finishLiteral (MkLiteral lex t d XSDString EmptyString)).
Proof.
  intros Hv Ht Hd. pose proof (ValidLanguageTag_tail _ Hv) as Hw.
  destruct (is_empty d) eqn:Ed; cbn [negb]; unfold literalSuffix; rewrite HasPrefix_app.
  - assert (d = EmptyString) as -> by (by destruct d).
    rewrite (sdrop_app "@" _ : sdrop 1 _ = _), Index_words_None by done.
    unfold NewLiteral. cbn [goToLexical foldl]. by rewrite WithLang_valid.
  - rewrite (sdrop_app "@" _ : sdrop 1 _ = _), Index_words by done.
    rewrite stake_app, sdrop_app_add. change (sdrop 2 ("--" +:+ d)) with d.
    unfold NewLiteral. cbn [goToLexical foldl]. rewrite WithLang_valid by done.
    by destruct Hd as [->|[->| ->]].
Qed.

Lemma literalSuffix_ok l :
  lit_wf l → named_uri (datatype l) → literalSuffix (lexical l) (N3_suffix l) = Ok l.
Proof.
  intros Hwf Hn. pose proof (finishLiteral_wf_eq l Hwf) as Hfin.
  destruct Hwf as [_ Hl]. unfold N3_suffix.
  destruct (is_empty (lang l)) eqn:El; cbn [negb].
  - rewrite (bool_decide_eq_false_2 _ (named_uri_zero _ Hn)). cbn [negb andb].
    assert (lang l = EmptyString) as Elang by (by destruct (lang l)).
    rewrite Hl, Elang in Hfin. case_bool_decide as Hs; cbn [negb].
    + rewrite literalSuffix_plain, <- Hs. by rewrite Hfin.
    + destruct Hn as (v & Hv & Hd). rewrite Hd in Hfin |- *.
      change (URIRef_value (NewURIRefUnsafe v)) with v. by rewrite literalSuffix_datatype, Hfin.
  - destruct Hl as (Hv & Ht & Hd & Hdt). rewrite literalSuffix_lang by done.
    f_equal. etrans; [|exact Hfin]. unfold finishLiteral; cbn [lang]. by rewrite El.
Qed.

Lemma literalFromN3_shortcut l :
  lit_wf l → lang l = EmptyString → N3_shortcut l = true → literalFromN3 (lexical l) = Ok l.
Proof.
  intros Hwf Hlang H. pose proof (finishLiteral_wf_eq l Hwf) as Hfin.
  destruct Hwf as [_ Hl]. rewrite Hlang in Hl; cbn in Hl. rewrite Hlang, Hl in Hfin.
  unfold N3_shortcut in H. unfold literalFromN3.
  destruct (decide (datatype l = XSDInteger)) as [Hd|_].
  { destruct (ParseInt64 (lexical l)) eqn:E; [|done]. apply ParseInt64_Turtle in E.
    rewrite isTurtleInteger_not_double, isTurtleInteger_not_decimal, E by done.
    rewrite <- Hfin at 2. by rewrite Hd. }
  destruct (decide (datatype l = XSDDouble)) as [Hd|_].
  { rewrite H. rewrite <- Hfin at 2. by rewrite Hd. }
  destruct (decide (datatype l = XSDDecimal)) as [Hd|_].
  { rewrite (isTurtleDecimal_not_double _ H), H. rewrite <- Hfin at 2. by rewrite Hd. }
  destruct (decide (datatype l = XSDBoolean)) as [Hd|_]; [|done].
  apply orb_true_iff in H as [H|H]; bool_cases; rewrite H in *; cbn; rewrite <- Hfin at 1; by rewrite Hd.
Qed.

Lemma literalFromN3_N3 l :
  lit_wf l → named_uri (datatype l) → literalFromN3 (Literal_N3 l) = Ok l.
Proof.
  intros Hwf Hn. destruct (N3_shortcut l) eqn:Hs.
  - unfold Literal_N3. rewrite Hs. apply literalFromN3_shortcut; try done.
    destruct Hwf as [_ Hl]. destruct (is_empty (lang l)) eqn:E; [by destruct (lang l)|].
    destruct Hl as (_ & _ & _ & Hd). unfold N3_shortcut in Hs. rewrite Hd in Hs.
    by destruct (is_empty (dir l)).
  - rewrite Literal_N3_suffix by done. unfold literalFromN3.
    destruct (Literal_quoted_dquote l) as [t Ht].
    pose proof (quoted_not_numeric (t +:+ N3_suffix l)) as (H1 & H2 & H3).
    rewrite <- sapp_cons, <- Ht in H1, H2, H3. rewrite H1, H2, H3.
    assert (Hb : byte_at (Literal_quoted l +:+ N3_suffix l) 0 = Some dquote) by (by rewrite Ht).
    rewrite Hb.
    rewrite !bool_decide_eq_false_2 by (rewrite Ht; done).
    rewrite bool_decide_eq_true_2 by done. cbn [orb negb].
    rewrite splitQuoted_quoted by apply N3_suffix_head. by apply literalSuffix_ok.
Qed.

(** ** Well-formed terms

    The terms the constructors build, other than those whose key is ambiguous:
    a triple term's key separates its parts with NUL bytes, so its subject and
    predicate must not contain one, and its subject is an IRI or a blank node as
    RDF 1.2 has it. *)

Definition uri_ok (u : URIRef) : Prop := ∃ v, u = NewURIRefUnsafe v.
Definition bnode_ok (b : BNode) : Prop := ∃ v, v ≠ EmptyString ∧ b = MkBNode ("B:" +:+ v).

Definition is_triple_term (t : Term) : bool :=
  match t with TTripleTerm _ _ _ _ => true | _ => false end.

Fixpoint term_wf (t : Term) : Prop :=
  match t with
  | TURIRef u => uri_ok u
  | TBNode b => bnode_ok b
  | TLiteral l => lit_wf l ∧ named_uri (datatype l)
  | TTripleTerm s p o key =>
      NewTripleTerm (Some s) p (Some o) = Some (TTripleTerm s p o key) ∧
      isSubject s = true ∧ is_triple_term s = false ∧
      has_byte nul (TermKey s) = false ∧ has_byte nul (uri_key p) = false ∧
      term_wf s ∧ uri_ok p ∧ term_wf o
  | TVariable _ => True
  end.

(** No variable anywhere: RDF data. *)
Fixpoint ground (t : Term) : bool :=
  match t with
  | TVariable _ => false
  | TTripleTerm s _ o _ => ground s && ground o
  | _ => true
  end.

Definition tt_body (s : Term) (p : URIRef) (o : Term) : string :=
  TermKey s +:+ String nul (uri_key p +:+ String nul (TermKey o)).

Lemma TermKey_tt s p o key :
  term_wf (TTripleTerm s p o key) → key = "T:" +:+ tt_body s p o.
Proof. by intros [[= <-] _]. Qed.

Lemma TermKey_lit l : lit_wf l → named_uri (datatype l) → TermKey (TLiteral l) = "L:" +:+ Literal_N3 l.
Proof.
  intros [Hk _] Hn. cbn [TermKey]. rewrite Hk, literalKey_N3_eq by done.
  by destruct (Literal_N3 l).
Qed.

Lemma TermKey_nonempty t : term_wf t → TermKey t ≠ EmptyString.
Proof.
  destruct t as [u|b|l|s p o key|v]; [| | | |done].
  - by intros [v ->].
  - by intros (v & _ & ->).
  - intros [H1 H2]. by rewrite TermKey_lit.
  - by intros ->%TermKey_tt.
Qed.

Lemma nul_split a a' b b' :
  has_byte nul a = false → has_byte nul a' = false →
  a +:+ String nul b = a' +:+ String nul b' → a = a' ∧ b = b'.
Proof.
  intros Ha Ha' H. pose proof (CutByte_app a nul b Ha) as H1.
  rewrite H, CutByte_app in H1 by done. by injection H1.
Qed.

Lemma uri_key_inj u u' : uri_ok u → uri_ok u' → uri_key u = uri_key u' → u = u'.
Proof. intros [v ->] [v' ->] H. apply (app_inj_l "U:") in H. by subst. Qed.

(** A key is a tag byte, a colon and a body. *)
Definition key_tag (t : Term) : ascii :=
  match t with
  | TURIRef _ => "U" | TBNode _ => "B" | TLiteral _ => "L" | TTripleTerm _ _ _ _ => "T" | TVariable _ => "V"
  end%char.

Definition key_body (t : Term) : string :=
  match t with
  | TURIRef u => URIRef_value u
  | TBNode b => BNode_value b
  | TLiteral l => Literal_N3 l
  | TTripleTerm s p o _ => tt_body s p o
  | TVariable v => var_Name v
  end.

Lemma TermKey_shape t : term_wf t → TermKey t = String (key_tag t) (String ":" (key_body t)).
Proof.
  destruct t as [u|b|l|s p o key|v]; cbn [key_tag key_body].
  - by intros [v ->].
  - by intros (v & _ & ->).
  - intros [H1 H2]. by apply TermKey_lit.
  - intros H. exact (TermKey_tt _ _ _ _ H).
  - done.
Qed.

Lemma TermKey_inj t t' : term_wf t → term_wf t' → TermKey t = TermKey t' → t = t'.
Proof.
  revert t'. induction t as [u|b|l|s IHs p o IHo key|v]; intros t' Ht Ht' H;
    rewrite (TermKey_shape t'), TermKey_shape in H by done; injection H as Htag H;
    destruct t' as [u'|b'|l'|s' p' o' key'|v']; try done; cbn [key_body] in H.
  - destruct Ht as [w ->], Ht' as [w' ->]. by rewrite (H : w = w').
  - destruct Ht as (w & _ & ->), Ht' as (w' & _ & ->). by rewrite (H : w = w').
  - destruct Ht as [? ?], Ht' as [? ?]. apply (f_equal literalFromN3) in H.
    rewrite !literalFromN3_N3 in H by done. by injection H as ->.
  - pose proof (TermKey_tt _ _ _ _ Ht) as ->. pose proof (TermKey_tt _ _ _ _ Ht') as ->.
    destruct Ht as (_ & _ & _ & Hn & Hp & Hs & Hu & Ho), Ht' as (_ & _ & _ & Hn' & Hp' & Hs' & Hu' & Ho').
    apply nul_split in H as [H1 H]; [|done..]. apply nul_split in H as [H2 H3]; [|done..].
    by rewrite (IHs _ Hs Hs' H1), (IHo _ Ho Ho' H3), (uri_key_inj _ _ Hu Hu' H2).
  - destruct v, v'. cbn in H. by rewrite H.
Qed.

Lemma URIRef_value_inj u u' : uri_ok u → uri_ok u' → URIRef_value u = URIRef_value u' → u = u'.
Proof. intros [v ->] [v' ->] H. by rewrite (H : v = v'). Qed.

Lemma Literal_Equal_eq l l' : lit_wf l → lit_wf l' → Literal_Equal l l' = true → l = l'.
Proof.
  intros H%finishLiteral_wf_eq H'%finishLiteral_wf_eq. unfold Literal_Equal.
  intros Heq. bool_cases. congruence.
Qed.

Lemma Equal_refl t : Equal t t = true.
Proof.
  induction t; cbn; rewrite ?bool_decide_eq_true_2 by done; try done.
  - unfold Literal_Equal. by rewrite !bool_decide_eq_true_2.
  - by rewrite IHt1, IHt2.
Qed.

Lemma Equal_eq t t' : term_wf t → term_wf t' → Equal t t' = true → t = t'.
Proof.
  revert t'. induction t as [u|b|l|s IHs p o IHo key|v]; intros [u'|b'|l'|s' p' o' key'|v'] Ht Ht';
    try done; intros H.
  - cbn in H. bool_cases. f_equal. by apply URIRef_value_inj.
  - cbn in H. bool_cases. destruct Ht as (w & _ & ->), Ht' as (w' & _ & ->). by rewrite (H : w = w').
  - f_equal. by apply Literal_Equal_eq; destruct Ht, Ht'.
  - cbn [Equal] in H. bool_cases. pose proof (TermKey_tt _ _ _ _ Ht) as ->.
    pose proof (TermKey_tt _ _ _ _ Ht') as ->. cbn in Ht, Ht'.
    destruct Ht as (_ & _ & _ & _ & _ & Hs & Hu & Ho), Ht' as (_ & _ & _ & _ & _ & Hs' & Hu' & Ho').
    by rewrite (IHs s'), (IHo o'), (URIRef_value_inj p p').
  - cbn in H. bool_cases. f_equal. destruct v, v'; cbn in *; congruence.
Qed.

(** ** Decoding *)

Section decode.
Context (uuid : nat → string).

Lemma TermFromKey_go_step fuel tag body n :
  TermFromKey_go uuid (S fuel) (String tag (String ":" body)) n =
  (if Ascii.eqb tag "U" then mret (TURIRef (NewURIRefUnsafe body))
   else if Ascii.eqb tag "B" then b ← NewBNode uuid body; mret (TBNode b)
   else if Ascii.eqb tag "L" then l ← lift (literalFromN3 body); mret (TLiteral l)
   else if Ascii.eqb tag "T" then tripleTermFromKey uuid fuel (TermFromKey_go uuid fuel) body
   else fail (Errorf "term: unknown key prefix: %q" [str1 tag +:+ ":"])) n.
Proof.
  cbn [TermFromKey_go]. rewrite !len_cons. change (S (S (len body)) <? 2) with false.
  cbn [stake sdrop]. 
  assert (Hd : ∀ c, bool_decide (String tag (String ":" EmptyString) = str1 c +:+ ":") = Ascii.eqb tag c).
  { intros c. case_bool_decide as E.
    - injection E as ->. by rewrite Ascii.eqb_refl.
    - symmetry. apply Ascii.eqb_neq. by intros ->. }
  rewrite <- !Hd. done.
Qed.

Lemma tripleTermFromKey_ok fuel s p o key self n :
  term_wf (TTripleTerm s p o key) →
  (∀ n, self (TermKey s) n = (Ok s, n)) → (∀ n, self (uri_key p) n = (Ok (TURIRef p), n)) →
  (∀ n, self (TermKey o) n = (Ok o, n)) →
  tripleTermFromKey uuid fuel self (tt_body s p o) n = (Ok (TTripleTerm s p o key), n).
Proof.
  intros (Hnew & Hsub & Htt & Hn & Hp & Hs & _ & _) IHs IHp IHo.
  unfold tripleTermFromKey.
  assert (HasPrefix (tt_body s p o) "<<(" = false) as ->.
  { unfold tt_body. rewrite (TermKey_shape s) by done. by destruct s. }
  unfold tt_body. rewrite (SplitN_app _ nul _ 1), (SplitN_app _ nul _ 0) by done. cbn [SplitN].
  unfold wrapM, mbind, drawM_bind. rewrite IHs. cbn [wrap_err].
  unfold assertSubject. rewrite Hsub. unfold mret, drawM_ret. rewrite IHp. cbn [wrap_err].
  unfold assertURIRef; cbn [asURIRef]. unfold mret, drawM_ret. rewrite IHo. cbn [wrap_err].
  unfold mkTripleTerm. by rewrite Hnew.
Qed.

Lemma len_tt_body s p o : len (tt_body s p o) = len (TermKey s) + S (len (uri_key p) + S (len (TermKey o))).
Proof. unfold tt_body. by rewrite !len_app, !len_cons, !len_app, !len_cons. Qed.

Lemma TermFromKey_go_ok t : ∀ fuel n,
  term_wf t → ground t = true → len (TermKey t) < fuel →
  TermFromKey_go uuid fuel (TermKey t) n = (Ok t, n).
Proof.
  induction t as [u|b|l|s IHs p o IHo key|v]; intros [|fuel] n Ht Hg Hf; try lia;
    rewrite TermKey_shape in * by done; rewrite !len_cons in Hf;
    rewrite TermFromKey_go_step; cbn [key_tag key_body]; try done.
  - by destruct Ht as [v ->].
  - destruct Ht as (v & Hv & ->). by destruct v.
  - destruct Ht as [Hwf Hn]. unfold lift, mret, mbind, drawM_bind, drawM_ret. cbn [Ascii.eqb Bool.eqb].
    by rewrite literalFromN3_N3.
  - change (Ascii.eqb "T" "U") with false. change (Ascii.eqb "T" "B") with false.
    change (Ascii.eqb "T" "L") with false. change (Ascii.eqb "T" "T") with true. cbn iota.
    cbn [key_body] in Hf. rewrite len_tt_body in Hf.
    cbn in Hg. apply andb_true_iff in Hg as [Hgs Hgo].
    pose proof Ht as (_ & _ & _ & _ & _ & Hs & [v ->] & Ho).
    apply tripleTermFromKey_ok; [done| | |].
    + intros m. apply IHs; try done. lia.
    + intros m. destruct fuel; [lia|]. cbn [uri_key NewURIRefUnsafe]. unfold uriKey.
      by rewrite sapp_cons, sapp_cons, sapp_nil_l, TermFromKey_go_step.
    + intros m. apply IHo; try done. lia.
Qed.
End decode.

(** ** The decoder's fuel *)

Definition no_fuel_error {A} (r : result A) : Prop :=
  ∀ e, r = Err e → errors_Is e "model: out of fuel" = false.

(** A computation that never runs out of fuel. *)
Definition enough {A} (m : drawM A) : Prop := ∀ n, no_fuel_error (m n).1.

Lemma enough_mret {A} (a : A) : enough (mret a).
Proof. done. Qed.
Lemma enough_fail {A} fmt args : enough (fail (A := A) (Errorf fmt args)).
Proof. by intros n e [= <-]. Qed.
Lemma enough_bind {A B} (m : drawM A) (f : A → drawM B) :
  enough m → (∀ a n n', m n = (Ok a, n') → enough (f a)) → enough (m ≫= f).
Proof.
  intros Hm Hf n. unfold mbind, drawM_bind. specialize (Hm n). destruct (m n) as [[a|e] n'] eqn:E.
  - by eapply Hf.
  - intros e' [= <-]. by apply Hm.
Qed.
Lemma enough_wrap {A} c (m : drawM A) : enough m → enough (wrapM c m).
Proof.
  intros Hm n. unfold wrapM. specialize (Hm n). destruct (m n) as [[a|e] n']; [done|].
  intros e' [= <-]. exact (Hm e eq_refl).
Qed.
Lemma enough_lift {A} (r : result A) : no_fuel_error r → enough (lift r).
Proof. intros H n. apply H. Qed.

Lemma literalFromN3_enough s : no_fuel_error (literalFromN3 s).
Proof.
  unfold literalFromN3, splitQuoted, literalSuffix, mbind, result_bind.
  repeat case_match; intros err Herr; simplify_eq; done.
Qed.

Lemma NewBNode_enough uuid id : enough (NewBNode uuid id).
Proof. by destruct id. Qed.
Lemma mkTripleTerm_enough s p o : enough (mkTripleTerm s p o).
Proof. done. Qed.
Lemma assertSubject_enough fmt args t : enough (assertSubject (Errorf fmt args) t).
Proof. unfold assertSubject. case_match; auto using enough_mret, enough_fail. Qed.
Lemma assertURIRef_enough fmt args t : enough (assertURIRef (Errorf fmt args) t).
Proof. unfold assertURIRef. case_match; auto using enough_mret, enough_fail. Qed.

#[local] Hint Resolve enough_mret enough_fail enough_bind enough_wrap enough_lift literalFromN3_enough
  NewBNode_enough mkTripleTerm_enough assertSubject_enough assertURIRef_enough : go.

Lemma len_trimLeft f s : len (trimLeft_go f s) ≤ len s.
Proof.
  revert s. induction f as [|f IH]; intros s; cbn; [done|]. case_match; [|done].
  etrans; [apply IH|]. rewrite len_sdrop. lia.
Qed.
Lemma len_TrimSuffix s p : len (TrimSuffix s p) ≤ len s.
Proof. unfold TrimSuffix. case_match; [|done]. rewrite len_stake. lia. Qed.
Lemma len_trimRight f s : len (trimRight_go f s) ≤ len s.
Proof.
  revert s. induction f as [|f IH]; intros s; cbn; [done|]. case_match; [|done].
  etrans; [apply IH|]. apply len_TrimSuffix.
Qed.
Lemma len_TrimSpace s : len (TrimSpace s) ≤ len s.
Proof. unfold TrimSpace. etrans; [apply len_trimRight|apply len_trimLeft]. Qed.

Lemma drawM_bind_Ok {A B} (m : drawM A) (f : A → drawM B) n b n' :
  (m ≫= f) n = (Ok b, n') → ∃ a k, m n = (Ok a, k) ∧ f a k = (Ok b, n').
Proof. unfold mbind, drawM_bind. destruct (m n) as [[a|e] k] eqn:E; [eauto|done]. Qed.

Lemma wrapM_Ok {A} c (m : drawM A) n a n' : wrapM c m n = (Ok a, n') → m n = (Ok a, n').
Proof. unfold wrapM. destruct (m n) as [[b|e] k]; cbn; congruence. Qed.

Lemma mret_rest (t t' : Term) (r r' : string) n n' :
  (mret (t, r) : drawM _) n = (Ok (t', r'), n') → r = r'.
Proof. unfold mret, drawM_ret. congruence. Qed.

Section fuel.
Context (uuid : nat → string).

Lemma parseOneTermN3_enough self s :
  (∀ s', len s' ≤ len s → enough (self s')) → enough (parseOneTermN3 uuid self s).
Proof.
  intros Hself. unfold parseOneTermN3. destruct s as [|c s]; [auto with go|].
  repeat case_match; auto with go.
  apply enough_bind; [|auto with go]. apply Hself. rewrite len_stake. lia.
Qed.

Lemma parseOneTermN3_rest self s t rest n n' :
  parseOneTermN3 uuid self s n = (Ok (t, rest), n') → len rest ≤ len s.
Proof.
  unfold parseOneTermN3. destruct s as [|c s]; [done|].
  repeat case_match; intros H'; try done;
    try (apply drawM_bind_Ok in H' as (? & ? & _ & H')); apply mret_rest in H' as <-;
    rewrite ?len_sdrop, ?len_nil; lia.
Qed.

Lemma tripleTermFromN3_enough fuel : ∀ s, len s < fuel → enough (tripleTermFromN3 uuid fuel s).
Proof.
  induction fuel as [|fuel IH]; intros n3 Hf; [lia|]. cbn [tripleTermFromN3].
  destruct (negb _ || negb _) eqn:E; [apply enough_fail|].
  apply orb_false_iff in E as [Hp _]. apply negb_false_iff, HasPrefix_true in Hp as [t Ht].
  pose proof (len_TrimSpace n3) as Hs.
  set (inner := TrimSpace (stake (len (TrimSpace n3) - 6) (sdrop 3 (TrimSpace n3)))).
  assert (Hi : len inner < fuel).
  { unfold inner. pose proof (len_TrimSpace (stake (len (TrimSpace n3) - 6) (sdrop 3 (TrimSpace n3)))) as Hi.
    rewrite len_stake, len_sdrop in Hi.
    assert (len (TrimSpace n3) = 3 + len t) by (rewrite Ht, len_app; done). lia. }
  assert (Hrec : ∀ s, len s ≤ len inner → enough (parseOneTermN3 uuid (tripleTermFromN3 uuid fuel) s)).
  { intros s Hsl. apply parseOneTermN3_enough. intros s' Hs'. apply IH. lia. }
  apply enough_bind; [by apply enough_wrap, Hrec|]. intros [subj r1] k k' H1%wrapM_Ok%parseOneTermN3_rest.
  apply enough_bind; [auto with go|]. intros subjT _ _ _.
  apply enough_bind; [apply enough_wrap, Hrec; pose proof (len_TrimSpace r1); lia|].
  intros [pr r2] m m' H2%wrapM_Ok%parseOneTermN3_rest. pose proof (len_TrimSpace r1). pose proof (len_TrimSpace r2).
  apply enough_bind; [auto with go|]. intros pu _ _ _.
  apply enough_bind; [apply enough_wrap, Hrec; lia|]. intros [ob r3] _ _ _. auto with go.
Qed.

Lemma SplitN_len s c n w : w ∈ SplitN s c n → len w ≤ len s.
Proof.
  revert s. induction n as [|n IH]; intros s; [intros ->%list_elem_of_singleton; done|].
  cbn [SplitN]. destruct n; [intros ->%list_elem_of_singleton; done|].
  destruct (IndexByte s c); [|intros ->%list_elem_of_singleton; done].
  rewrite elem_of_cons. intros [->|Hw%IH]; [rewrite len_stake; lia|].
  rewrite len_sdrop in Hw. lia.
Qed.

Lemma tripleTermFromKey_enough fuel self key :
  len key < fuel → (∀ s, len s ≤ len key → enough (self s)) →
  enough (tripleTermFromKey uuid fuel self key).
Proof.
  intros Hf Hself. unfold tripleTermFromKey. case_match; [by apply tripleTermFromN3_enough|].
  pose proof (SplitN_len key nul 3) as Hl.
  destruct (SplitN key nul 3) as [|p0 [|p1 [|p2 [|]]]]; auto with go.
  repeat (apply enough_bind; [first [apply enough_wrap, Hself, Hl; set_solver|auto with go]|intros ? _ _ _]).
  auto with go.
Qed.

Lemma TermFromKey_enough fuel : ∀ key, len key < fuel → enough (TermFromKey_go uuid fuel key).
Proof.
  induction fuel as [|fuel IH]; intros key Hf; [lia|]. cbn [TermFromKey_go].
  destruct (len key <? 2) eqn:E; [auto with go|]. apply Nat.ltb_ge in E.
  repeat case_match; auto with go.
  apply tripleTermFromKey_enough; [rewrite len_sdrop; lia|].
  intros s Hs. apply IH. rewrite len_sdrop in Hs. lia.
Qed.
End fuel.


(** ** Properties *)

(** A sample term for the witnesses: a triple term about a tagged literal. *)
Definition sample_literal : Literal := NewLiteral (VString "say hi") [WithLang "en-GB"; WithDir "ltr"].
Definition sample_iri : URIRef := NewURIRefUnsafe "http://example.org/p".
Definition sample_term : Term :=
  TTripleTerm (TBNode (MkBNode "B:b0")) sample_iri (TLiteral sample_literal)
    ("T:" +:+ tt_body (TBNode (MkBNode "B:b0")) sample_iri (TLiteral sample_literal)).

Lemma sample_literal_wf : lit_wf sample_literal ∧ named_uri (datatype sample_literal).
Proof.
  split; [apply NewLiteral_lit_wf; repeat constructor|].
  exists (RDFNamespace +:+ "dirLangString"). split; [done|vm_compute; reflexivity].
Qed.

Lemma sample_term_wf : term_wf sample_term.
Proof.
  split_and!; try (vm_compute; reflexivity).
  - by exists "b0".
  - by exists "http://example.org/p".
  - apply sample_literal_wf.
Qed.

(** C16: decoding inverts encoding: for every well-formed term without variables,
    [TermFromKey (TermKey t)] is [t] and draws no fresh blank node, so a store
    that persists keys gives back the terms it was given. *)
Theorem TermFromKey_TermKey : ∀ uuid t n,
  term_wf t → ground t = true → TermFromKey uuid (TermKey t) n = (Ok t, n).
Proof. intros uuid t n Ht Hg. apply TermFromKey_go_ok; [done..|lia]. Qed.

Lemma TermFromKey_TermKey_witness :
  TermFromKey (λ _, EmptyString) (TermKey sample_term) 0 = (Ok sample_term, 0).
Proof. apply TermFromKey_TermKey; [exact sample_term_wf|reflexivity]. Defined.

(** C19: on well-formed terms, [Equal], equality of [TermKey]s and identity agree,
    so an index keyed by [TermKey] neither merges different terms nor separates
    equal ones. *)
Theorem Equal_iff_TermKey : ∀ t t',
  term_wf t → term_wf t' →
  (Equal t t' = true ↔ TermKey t = TermKey t') ∧ (TermKey t = TermKey t' ↔ t = t').
Proof.
  intros t t' Ht Ht'. split; split.
  - by intros ->%Equal_eq.
  - intros ->%TermKey_inj; [apply Equal_refl|done..].
  - by apply TermKey_inj.
  - by intros ->.
Qed.

Lemma Equal_iff_TermKey_witness :
  (Equal sample_term (TLiteral sample_literal) = true ↔ TermKey sample_term = TermKey (TLiteral sample_literal)) ∧
  (TermKey sample_term = TermKey (TLiteral sample_literal) ↔ sample_term = TLiteral sample_literal).
Proof. apply Equal_iff_TermKey; [exact sample_term_wf|exact sample_literal_wf]. Defined.

(** a literal built by [NewLiteral] with a named datatype caches exactly
    ["L:"] and its N3 form as its key (the contract of [literalKey]'s comment),
    and [literalFromN3] reads that N3 form back to the very literal: escaping,
    triple quoting, the numeric and boolean shorthands, tags, directions and
    datatypes included. *)
Theorem NewLiteral_key : ∀ v opts,
  Forall literal_option opts →
  let l := NewLiteral v opts in
  named_uri (datatype l) →
  TermKey (TLiteral l) = "L:" +:+ Literal_N3 l ∧ literalFromN3 (Literal_N3 l) = Ok l.
Proof.
  intros v opts Ho l Hn. pose proof (NewLiteral_lit_wf v opts Ho).
  split; [by apply TermKey_lit|by apply literalFromN3_N3].
Qed.

Lemma NewLiteral_key_witness :
  TermKey (TLiteral sample_literal) = "L:" +:+ Literal_N3 sample_literal ∧
  literalFromN3 (Literal_N3 sample_literal) = Ok sample_literal.
Proof.
  apply NewLiteral_key; [repeat constructor|].
  exists (RDFNamespace +:+ "dirLangString"). split; [done|vm_compute; reflexivity].
Defined.

(** [TermFromKey] terminates on every input: the fuel of the model, one more
    than the key's length, is never exhausted. *)
Theorem TermFromKey_terminates : ∀ uuid key n, no_fuel_error (TermFromKey uuid key n).1.
Proof. intros uuid key n. apply TermFromKey_enough. lia. Qed.

(** A literal whose datatype is the IRI with the empty string, and the plain
    string literal with the same text. *)
Definition empty_datatype_literal : Literal := NewLiteral (VString "a") [WithDatatype (NewURIRefUnsafe EmptyString)].
Definition plain_literal : Literal := NewLiteral (VString "a") [].

(** the cached key is not always ["L:"] and the N3 form: a literal whose
    datatype is the IRI with the empty string shares its key with the plain
    string literal, although [Equal] tells the two apart and their N3 forms
    differ. *)
Theorem empty_datatype_key_collision :
  TermKey (TLiteral empty_datatype_literal) = TermKey (TLiteral plain_literal) ∧
  Equal (TLiteral empty_datatype_literal) (TLiteral plain_literal) = false ∧
  TermKey (TLiteral empty_datatype_literal) ≠ "L:" +:+ Literal_N3 empty_datatype_literal.
Proof. split_and!; [vm_compute; reflexivity..|vm_compute; discriminate]. Qed.
