(* ===== verification/SmallMap.v ===== *)
(** * Small maps

    [store/memory_smallmap.go]: a string-keyed map that keeps up to eight
    entries in a slice and becomes a Go map beyond that.  The file proves that
    it behaves as a finite map whatever its representation. *)

From S2P Require Import Prelude.
From stdpp Require Import options.

(** ** The code *)

Definition smallMapMax : nat := 8.

(** A [smallEntry] is a pair; [sm_m] is [Some] once promoted. *)
Definition smallEntry (V : Type) : Type := string * V.

Record smallMap (V : Type) := MkSmallMap {
  sm_s : list (smallEntry V);
  sm_m : option (gmap string V)
}.
Arguments MkSmallMap {V} sm_s sm_m.
Arguments sm_s {V} s.
Arguments sm_m {V} s.

(** The Go zero value [&smallMap[V]{}]. *)
Definition smallMap_zero {V} : smallMap V := MkSmallMap [] None.

Section ops.
Context {V : Type}.

Definition sm_len (x : smallMap V) : nat :=
  match sm_m x with
  | Some m => size m
  | None => length (sm_s x)
  end.

(** The scan [for i := range x.s { if x.s[i].k == k ... }]. *)
Fixpoint scan (k : string) (s : list (smallEntry V)) : option (nat * V) :=
  match s with
  | [] => None
  | (k', v) :: s =>
      if String.eqb k' k then Some (0, v)
      else match scan k s with Some (i, v) => Some (S i, v) | None => None end
  end.

Definition sm_get (x : smallMap V) (k : string) : option V :=
  match sm_m x with
  | Some m => m !! k
  | None => snd <$> scan k (sm_s x)
  end.

Definition sm_set (x : smallMap V) (k : string) (v : V) : smallMap V :=
  match sm_m x with
  | Some m => MkSmallMap (sm_s x) (Some (<[k:=v]> m))
  | None =>
      match scan k (sm_s x) with
      | Some (i, _) => MkSmallMap (<[i:=(k, v)]> (sm_s x)) None
      | None =>
          if length (sm_s x) <? smallMapMax then MkSmallMap (sm_s x ++ [(k, v)]) None
          else
            let m := foldl (λ m e, <[e.1:=e.2]> m) ∅ (sm_s x) in
            MkSmallMap [] (Some (<[k:=v]> m))
      end
  end.

Definition sm_delete (x : smallMap V) (k : string) : smallMap V :=
  match sm_m x with
  | Some m => MkSmallMap (sm_s x) (Some (delete k m))
  | None =>
      match scan k (sm_s x) with
      | Some (i, _) =>
          let last := length (sm_s x) - 1 in
          match sm_s x !! last with
          | Some e => MkSmallMap (take last (<[i:=e]> (sm_s x))) None
          | None => x
          end
      | None => x
      end
  end.

Context `{GoRange}.

(** [all] and [values]: what the iterators yield, in order. *)
Definition sm_all (x : smallMap V) : list (string * V) :=
  match sm_m x with
  | Some m => range m
  | None => sm_s x
  end.

Definition sm_values (x : smallMap V) : list V :=
  match sm_m x with
  | Some m => (range m).*2
  | None => (sm_s x).*2
  end.
End ops.

(** ** The finite map it stands for *)

Definition to_map {V} (x : smallMap V) : gmap string V :=
  match sm_m x with
  | Some m => m
  | None => list_to_map (sm_s x)
  end.

(** A slice holds at most eight entries, with distinct keys. *)
Definition sm_ok {V} (x : smallMap V) : Prop :=
  match sm_m x with
  | Some _ => sm_s x = []
  | None => NoDup (sm_s x).*1 ∧ length (sm_s x) ≤ smallMapMax
  end.

Section theory.
Context {V : Type}.
Implicit Types (x : smallMap V) (s : list (smallEntry V)).

Lemma scan_Some k s i v : scan k s = Some (i, v) → s !! i = Some (k, v).
Proof.
  revert i. induction s as [|[k' v'] s IH]; intros i; cbn; [done|].
  destruct (String.eqb_spec k' k) as [->|Hk]; [by intros [= <- <-]|].
  destruct (scan k s) as [[j w]|]; [|done]. intros [= <- ->]. by apply IH.
Qed.

Lemma scan_None k s : scan k s = None ↔ k ∉ s.*1.
Proof.
  induction s as [|[k' v'] s IH]; cbn; [by split; [set_solver|]|].
  destruct (String.eqb_spec k' k) as [->|Hk]; [set_solver|].
  destruct (scan k s) as [[j w]|]; [|set_solver]. rewrite not_elem_of_cons. naive_solver.
Qed.

Lemma scan_lookup k s : NoDup s.*1 → snd <$> scan k s = (list_to_map s : gmap string V) !! k.
Proof.
  intros Hs. destruct (scan k s) as [[i v]|] eqn:E; cbn.
  - symmetry. apply elem_of_list_to_map; [done|]. eapply list_elem_of_lookup_2, scan_Some, E.
  - apply scan_None in E. symmetry. by apply not_elem_of_list_to_map.
Qed.

Lemma sm_zero_ok : sm_ok (smallMap_zero (V := V)) ∧ to_map (smallMap_zero (V := V)) = ∅.
Proof. split; [|done]. split; [constructor|cbn; unfold smallMapMax; lia]. Qed.

Lemma sm_get_map x k : sm_ok x → sm_get x k = to_map x !! k.
Proof. unfold sm_ok, sm_get, to_map. destruct (sm_m x); [done|]. intros [Hd _]. by apply scan_lookup. Qed.

Lemma promote_map s : NoDup s.*1 → foldl (λ m e, <[e.1:=e.2]> m) ∅ s = (list_to_map s : gmap string V).
Proof.
  intros Hs. enough (∀ m : gmap string V, foldl (λ m e, <[e.1:=e.2]> m) m s = list_to_map s ∪ m) as Hm.
  { rewrite Hm. apply (right_id_L ∅ (∪)). }
  induction s as [|[k v] s IH]; intros m; cbn in *; [by rewrite (left_id_L ∅ (∪))|].
  apply NoDup_cons in Hs as [Hk Hs]. rewrite IH by done.
  rewrite <- insert_union_r by by apply not_elem_of_list_to_map. by rewrite insert_union_l.
Qed.

(** The entry [scan] finds, and what is around it. *)
Lemma scan_split k s i v :
  scan k s = Some (i, v) → ∃ s1 s2, s = s1 ++ (k, v) :: s2 ∧ i = length s1.
Proof. intros H%scan_Some. by apply list_elem_of_split_length. Qed.

Lemma list_to_map_middle k v s1 s2 :
  NoDup (s1 ++ (k, v) :: s2).*1 →
  (list_to_map (s1 ++ (k, v) :: s2) : gmap string V) = <[k:=v]> (list_to_map (s1 ++ s2)).
Proof.
  intros Hs. rewrite (list_to_map_proper _ ((k, v) :: s1 ++ s2)); [done|done|].
  by rewrite Permutation_middle.
Qed.

Lemma sm_set_ok x k v : sm_ok x → sm_ok (sm_set x k v) ∧ to_map (sm_set x k v) = <[k:=v]> (to_map x).
Proof.
  destruct x as [s [m|]]; unfold sm_ok, sm_set, to_map; cbn [sm_s sm_m]; [by intros ->|].
  intros [Hs Hl]. destruct (scan k s) as [[i w]|] eqn:E.
  - destruct (scan_split _ _ _ _ E) as (s1 & s2 & -> & ->). rewrite list_insert_middle. cbn [sm_m sm_s].
    assert (Hs' : NoDup (s1 ++ (k, v) :: s2).*1) by (by rewrite !fmap_app in *).
    rewrite !list_to_map_middle, insert_insert_eq by done.
    split; [|done]. split; [done|]. by rewrite !length_app in *.
  - apply scan_None in E. destruct (Nat.ltb_spec (length s) smallMapMax) as [Hlt|Hge]; cbn [sm_m sm_s].
    + assert (Hs' : NoDup (s ++ [(k, v)]).*1).
      { rewrite fmap_app. apply NoDup_app. split_and!; [done| |by apply NoDup_singleton].
        cbn. set_solver. }
      split.
      * split; [done|]. rewrite length_app; cbn. lia.
      * rewrite list_to_map_middle by done. by rewrite app_nil_r.
    + split; [done|]. by rewrite promote_map.
Qed.

Lemma sm_delete_ok x k : sm_ok x → sm_ok (sm_delete x k) ∧ to_map (sm_delete x k) = delete k (to_map x).
Proof.
  destruct x as [s [m|]]; unfold sm_ok, sm_delete, to_map; cbn [sm_s sm_m]; [by intros ->|].
  intros [Hs Hl]. destruct (scan k s) as [[i w]|] eqn:E; cbn [sm_s sm_m].
  2:{ apply scan_None in E. split; [done|]. rewrite delete_id; [done|]. by apply not_elem_of_list_to_map. }
  destruct (scan_split _ _ _ _ E) as (s1 & s2 & -> & ->). clear E.
  assert (Hs12 : NoDup (s1 ++ s2).*1).
  { rewrite !fmap_app in *. cbn in Hs. apply NoDup_app in Hs as (H1 & H2 & H3).
    apply NoDup_cons in H3 as [? ?]. apply NoDup_app. set_solver. }
  assert (Hk : (list_to_map (s1 ++ s2) : gmap string V) !! k = None).
  { apply not_elem_of_list_to_map. rewrite !fmap_app in *. cbn in Hs.
    apply NoDup_app in Hs as (_ & H2 & [H3 _]%NoDup_cons). set_solver. }
  rewrite list_to_map_middle, delete_insert_id by done. rewrite length_app in *; cbn in *.
  assert (Hperm : ∀ s', s' ≡ₚ s1 ++ s2 →
    (NoDup s'.*1 ∧ length s' ≤ smallMapMax) ∧ list_to_map s' = (list_to_map (s1 ++ s2) : gmap string V)).
  { intros s' Hp. split_and!; [by rewrite Hp|rewrite Hp, length_app; lia|].
    symmetry. by apply list_to_map_proper. }
  replace (length s1 + S (length s2) - 1) with (length s1 + length s2) by lia.
  destruct s2 as [|e s2 _] using rev_ind.
  - rewrite Nat.add_0_r, list_lookup_middle by done. rewrite list_insert_middle, take_app_length.
    apply Hperm. by rewrite app_nil_r.
  - rewrite length_app; cbn [length]. rewrite app_comm_cons, app_assoc, lookup_app_r by (rewrite length_app; cbn; lia).
    rewrite length_app; cbn [length].
    replace (length s1 + (length s2 + 1) - (length s1 + S (length s2))) with 0 by lia. cbn.
    rewrite <- app_assoc; cbn. rewrite list_insert_middle.
    replace (length s1 + (length s2 + 1)) with (length (s1 ++ e :: s2)) by (rewrite length_app; cbn; lia).
    rewrite app_comm_cons, app_assoc, take_app_length. apply Hperm.
    rewrite (Permutation_app_comm s2 [e]). done.
Qed.

Lemma sm_len_size x : sm_ok x → sm_len x = size (to_map x).
Proof.
  unfold sm_ok, sm_len, to_map. destruct (sm_m x); [done|]. intros [Hs _].
  rewrite <- length_map_to_list, map_to_list_to_map; done.
Qed.

Lemma sm_all_perm `{GoRange} x : sm_ok x → sm_all x ≡ₚ map_to_list (to_map x).
Proof.
  unfold sm_ok, sm_all, to_map. destruct (sm_m x); [intros _; apply range_perm|].
  intros [Hs _]. by rewrite map_to_list_to_map.
Qed.

Lemma sm_values_all `{GoRange} x : sm_values x = (sm_all x).*2.
Proof. unfold sm_values, sm_all. by destruct (sm_m x). Qed.
End theory.

(** ** Properties *)

(** The operations a client can apply to a small map. *)
Inductive sm_op (V : Type) := OpSet (k : string) (v : V) | OpDelete (k : string).
Arguments OpSet {V} k v.
Arguments OpDelete {V} k.

Definition sm_step {V} (x : smallMap V) (o : sm_op V) : smallMap V :=
  match o with OpSet k v => sm_set x k v | OpDelete k => sm_delete x k end.
Definition map_step {V} (m : gmap string V) (o : sm_op V) : gmap string V :=
  match o with OpSet k v => <[k:=v]> m | OpDelete k => delete k m end.

Lemma sm_run_ok {V} (ops : list (sm_op V)) x :
  sm_ok x → sm_ok (foldl sm_step x ops) ∧ to_map (foldl sm_step x ops) = foldl map_step (to_map x) ops.
Proof.
  revert x. induction ops as [|o ops IH]; intros x Hx; [done|]. cbn [foldl].
  assert (sm_ok (sm_step x o) ∧ to_map (sm_step x o) = map_step (to_map x) o) as [Ho <-]; [|by apply IH].
  destruct o; [by apply sm_set_ok|by apply sm_delete_ok].
Qed.

(** C21: a small map is a refinement of a finite map: after any sequence of
    insertions and deletions, before and after the promotion to a Go map, lookup,
    length and iteration answer as a finite map does, and the slice never holds
    more than eight entries. *)
Theorem smallMap_refines_map : ∀ `{GoRange} (V : Type) (ops : list (sm_op V)),
  let x := foldl sm_step smallMap_zero ops in
  let m := foldl map_step ∅ ops in
  (∀ k, sm_get x k = m !! k) ∧ sm_len x = size m ∧
  sm_all x ≡ₚ map_to_list m ∧ sm_values x ≡ₚ (map_to_list m).*2 ∧
  length (sm_s x) ≤ smallMapMax.
Proof.
  intros R V ops x m. destruct (sm_zero_ok (V := V)) as [Hz Hz']. destruct (sm_run_ok ops _ Hz) as [Hx Hm].
  fold x in Hx, Hm. rewrite Hz' in Hm. fold m in Hm. rewrite <- Hm. split_and!.
  - intros k. by apply sm_get_map.
  - by apply sm_len_size.
  - by apply sm_all_perm.
  - by rewrite sm_values_all, sm_all_perm.
  - unfold sm_ok in Hx. destruct (sm_m x); [rewrite Hx; cbn; lia|apply Hx].
Qed.
