(* ===== verification/TripleIndex.v ===== *)
(** * The index of one graph

    [store/memory_index.go]: three nested indices (SPO, POS, OSP) whose inner
    levels fold a single triple into the level above.  A pointer to an inner level
    is owned by the entry that holds it, so a level is a value here and a mutation
    through the pointer writes the new value back. *)

From S2P Require Import Prelude GoStrings Term SmallMap.
From stdpp Require Import options.

(** ** The code *)

Definition leaf : Type := smallMap Triple.

Record node := MkNode { node_one : option Triple; node_many : option leaf }.
Definition level : Type := smallMap node.
Record top := MkTop { top_one : option Triple; top_many : option level }.

Inductive position := posS | posP | posO.

Definition keyAt (t : Triple) (pos : position) : string :=
  match pos with
  | posS => TermKey (Subject t)
  | posP => TermKey (TURIRef (Predicate t))
  | posO => TermKey (Object t)
  end.

Record index := MkIndex { idx_m : gmap string top; p2 : position; p3 : position }.

Definition newIndex (p2 p3 : position) : index := MkIndex ∅ p2 p3.

Record tripleIndex := MkTripleIndex {
  spo : index;
  pos : index;
  osp : index;
  count : Z;
  predCount : gmap string Z
}.

Definition newTripleIndex : tripleIndex :=
  MkTripleIndex (newIndex posP posO) (newIndex posO posS) (newIndex posS posP) 0 ∅.

(** A method call through a nil [*smallMap] would panic; the two nil pointers of
    an entry are excluded by the invariant below, and the model reads such an
    entry as an empty level. *)
Definition many_or_zero {V} (m : option (smallMap V)) : smallMap V := default smallMap_zero m.

Definition node_lookup (n : node) (k3 : string) (p3 : position) : option Triple :=
  match node_one n with
  | Some t => if String.eqb (keyAt t p3) k3 then Some t else None
  | None => sm_get (many_or_zero (node_many n)) k3
  end.

Definition index_lookup (idx : index) (k1 k2 k3 : string) : option Triple :=
  match idx_m idx !! k1 with
  | None => None
  | Some e =>
      match top_one e with
      | Some t => if String.eqb (keyAt t (p2 idx)) k2 && String.eqb (keyAt t (p3 idx)) k3 then Some t else None
      | None =>
          match sm_get (many_or_zero (top_many e)) k2 with
          | None => None
          | Some n => node_lookup n k3 (p3 idx)
          end
      end
  end.

Definition index_pair (idx : index) (k1 k2 : string) : node :=
  match idx_m idx !! k1 with
  | None => MkNode None None
  | Some e =>
      match top_one e with
      | Some t => if String.eqb (keyAt t (p2 idx)) k2 then MkNode (Some t) None else MkNode None None
      | None => default (MkNode None None) (sm_get (many_or_zero (top_many e)) k2)
      end
  end.

Definition with_m (idx : index) (m : gmap string top) : index := MkIndex m (p2 idx) (p3 idx).

(** The level of an entry once a second triple arrives. *)
Definition unfold_top (e : top) (p2 : position) : level :=
  match top_one e with
  | Some t => sm_set smallMap_zero (keyAt t p2) (MkNode (Some t) None)
  | None => many_or_zero (top_many e)
  end.

Definition insert_node (n : option node) (t : Triple) (p3 : position) : node :=
  match n with
  | None => MkNode (Some t) None
  | Some n =>
      match node_one n with
      | Some t1 => MkNode None (Some (sm_set (sm_set smallMap_zero (keyAt t1 p3) t1) (keyAt t p3) t))
      | None => MkNode None (Some (sm_set (many_or_zero (node_many n)) (keyAt t p3) t))
      end
  end.

Definition index_insert (idx : index) (k1 : string) (t : Triple) : index :=
  match idx_m idx !! k1 with
  | None => with_m idx (<[k1 := MkTop (Some t) None]> (idx_m idx))
  | Some e =>
      let l2 := unfold_top e (p2 idx) in
      let k2 := keyAt t (p2 idx) in
      let n := insert_node (sm_get l2 k2) t (p3 idx) in
      with_m idx (<[k1 := MkTop None (Some (sm_set l2 k2 n))]> (idx_m idx))
  end.

Section iteration.
Context `{GoRange}.

(** The level left when the triple under [k2], [k3] is removed. *)
Definition level_delete (l2 : level) (k2 k3 : string) : level :=
  let n := default (MkNode None None) (sm_get l2 k2) in
  match node_one n with
  | Some _ => sm_delete l2 k2
  | None =>
      let l3 := sm_delete (many_or_zero (node_many n)) k3 in
      let l2 := sm_set l2 k2 (MkNode None (Some l3)) in
      if sm_len l3 =? 1
      then foldl (λ l2 e, sm_set l2 k2 (MkNode (Some e.2) None)) l2 (sm_all l3)
      else l2
  end.

(** The entry [m[k1]] once its level has lost a triple. *)
Definition fold_top (m : gmap string top) (k1 : string) (l2 : level) : gmap string top :=
  let m' := <[k1 := MkTop None (Some l2)]> m in
  match sm_len l2 with
  | 0 => delete k1 m
  | 1 => foldl (λ m e, match node_one e.2 with
                       | Some t => <[k1 := MkTop (Some t) None]> m
                       | None => m
                       end) m' (sm_all l2)
  | _ => m'
  end.

Definition index_delete (idx : index) (k1 k2 k3 : string) : index :=
  let e := default (MkTop None None) (idx_m idx !! k1) in
  match top_one e with
  | Some _ => with_m idx (delete k1 (idx_m idx))
  | None => with_m idx (fold_top (idx_m idx) k1 (level_delete (many_or_zero (top_many e)) k2 k3))
  end.

(** The consumer's [yield]: whether to go on, and its new state. *)
Definition Yield (S : Type) : Type := Triple → S → bool * S.

Definition eachNode {S} (n : node) (yield : Yield S) (s : S) : bool * S :=
  match node_one n with
  | Some t => yield t s
  | None => match node_many n with
            | None => (true, s)
            | Some l => drive (sm_values l) yield s
            end
  end.

Definition eachTop {S} (e : top) (yield : Yield S) (s : S) : bool * S :=
  match top_one e with
  | Some t => yield t s
  | None => match top_many e with
            | None => (true, s)
            | Some l => drive (sm_values l) (λ n s, eachNode n yield s) s
            end
  end.

Definition top_at (idx : index) (k1 : string) : top := default (MkTop None None) (idx_m idx !! k1).

Definition under {S} (idx : index) (k1 : string) (yield : Yield S) (s : S) : bool * S :=
  eachTop (top_at idx k1) yield s.

(** [s <> empty]: the position is bound. *)
Definition bound (k : string) : bool := negb (is_empty k).

Definition each {S} (x : tripleIndex) (pattern : TriplePattern) (yield : Yield S) (s : S) : bool * S :=
  let sk := OptTermKey (pat_Subject pattern) in
  let pk := OptPredKey (pat_Predicate pattern) in
  let ok := OptTermKey (pat_Object pattern) in
  if bound sk && bound pk && bound ok then
    match index_lookup (spo x) sk pk ok with
    | Some t => yield t s
    | None => (true, s)
    end
  else if bound sk && bound pk then eachNode (index_pair (spo x) sk pk) yield s
  else if bound pk && bound ok then eachNode (index_pair (pos x) pk ok) yield s
  else if bound sk && bound ok then eachNode (index_pair (osp x) ok sk) yield s
  else if bound sk then eachTop (top_at (spo x) sk) yield s
  else if bound pk then eachTop (top_at (pos x) pk) yield s
  else if bound ok then eachTop (top_at (osp x) ok) yield s
  else drive (range (idx_m (spo x))) (λ e s, eachTop e.2 yield s) s.

Definition ti_add (x : tripleIndex) (t : Triple) : tripleIndex :=
  let sk := TermKey (Subject t) in
  let pk := TermKey (TURIRef (Predicate t)) in
  let ok := TermKey (Object t) in
  match index_lookup (spo x) sk pk ok with
  | Some _ => x
  | None =>
      MkTripleIndex (index_insert (spo x) sk t) (index_insert (pos x) pk t) (index_insert (osp x) ok t)
        (count x + 1) (<[pk := (default 0 (predCount x !! pk) + 1)%Z]> (predCount x))
  end.

Definition ti_remove (x : tripleIndex) (t : Triple) : tripleIndex :=
  let sk := TermKey (Subject t) in
  let pk := TermKey (TURIRef (Predicate t)) in
  let ok := TermKey (Object t) in
  match index_lookup (spo x) sk pk ok with
  | None => x
  | Some _ =>
      let n := (default 0 (predCount x !! pk) - 1)%Z in
      MkTripleIndex (index_delete (spo x) sk pk ok) (index_delete (pos x) pk ok sk) (index_delete (osp x) ok sk pk)
        (count x - 1) (if (n =? 0)%Z then delete pk (predCount x) else <[pk := n]> (predCount x))
  end.

Definition removeMatching (x : tripleIndex) (pattern : TriplePattern) : tripleIndex :=
  let toRemove := (each x pattern keep []).2 in
  foldl ti_remove x toRemove.

Definition has (x : tripleIndex) (t : Triple) : bool :=
  match index_lookup (spo x) (TermKey (Subject t)) (TermKey (TURIRef (Predicate t))) (TermKey (Object t)) with
  | Some _ => true
  | None => false
  end.

Definition node_len (n : node) : nat :=
  match node_one n with
  | Some _ => 1
  | None => match node_many n with None => 0 | Some l => sm_len l end
  end.

Definition top_len (e : top) : nat :=
  match top_one e with
  | Some _ => 1
  | None => match top_many e with
            | None => 0
            | Some l => foldl (λ c n, c + node_len n) 0 (sm_values l)
            end
  end.

Definition cardinality (x : tripleIndex) (pattern : TriplePattern) : Z :=
  let sk := OptTermKey (pat_Subject pattern) in
  let pk := OptPredKey (pat_Predicate pattern) in
  let ok := OptTermKey (pat_Object pattern) in
  if bound sk && bound pk && bound ok then
    match index_lookup (spo x) sk pk ok with Some _ => 1 | None => 0 end%Z
  else if bound sk && bound pk then Z.of_nat (node_len (index_pair (spo x) sk pk))
  else if bound pk && bound ok then Z.of_nat (node_len (index_pair (pos x) pk ok))
  else if bound sk && bound ok then Z.of_nat (node_len (index_pair (osp x) ok sk))
  else if bound pk then default 0%Z (predCount x !! pk)
  else if bound sk then Z.of_nat (top_len (top_at (spo x) sk))
  else if bound ok then Z.of_nat (top_len (top_at (osp x) ok))
  else count x.
End iteration.

(** ** The triples an index holds *)

Definition one_triple (t : Triple) : list Triple := [t].
Definition leaf_den (l : leaf) : list Triple := munion one_triple (to_map l).
Definition node_den (n : node) : list Triple :=
  match node_one n with
  | Some t => [t]
  | None => leaf_den (many_or_zero (node_many n))
  end.
Definition level_den (l : level) : list Triple := munion node_den (to_map l).
Definition top_den (e : top) : list Triple :=
  match top_one e with
  | Some t => [t]
  | None => level_den (many_or_zero (top_many e))
  end.
Definition index_den (idx : index) : list Triple := munion top_den (idx_m idx).

Definition option_list {A} (o : option A) : list A := match o with Some a => [a] | None => [] end.

(** ** The invariant of an index

    Each triple is under its own keys, exactly one of an entry's two fields is
    set, and a level or leaf holds at least two triples. *)

Definition leaf_ok (p3 : position) (l : leaf) : Prop :=
  sm_ok l ∧ ∀ k t, to_map l !! k = Some t → keyAt t p3 = k.

Definition node_ok (p3 : position) (n : node) : Prop :=
  (∃ t, n = MkNode (Some t) None) ∨
  (∃ l, n = MkNode None (Some l) ∧ leaf_ok p3 l ∧ 2 ≤ length (leaf_den l)).

Definition level_ok (p2 p3 : position) (l : level) : Prop :=
  sm_ok l ∧ ∀ k n, to_map l !! k = Some n →
    node_ok p3 n ∧ Forall (λ t, keyAt t p2 = k) (node_den n).

Definition top_ok (p2 p3 : position) (e : top) : Prop :=
  (∃ t, e = MkTop (Some t) None) ∨
  (∃ l, e = MkTop None (Some l) ∧ level_ok p2 p3 l ∧ 2 ≤ length (level_den l)).

Definition index_ok (p1 : position) (idx : index) : Prop :=
  ∀ k e, idx_m idx !! k = Some e →
    top_ok (p2 idx) (p3 idx) e ∧ Forall (λ t, keyAt t p1 = k) (top_den e).

Lemma filter_one p k t :
  filter (λ t, keyAt t p = k) [t] = if String.eqb (keyAt t p) k then [t] else [].
Proof.
  destruct (String.eqb_spec (keyAt t p) k); [by rewrite filter_cons_True|by rewrite filter_cons_False].
Qed.

Lemma default_one (o : option Triple) : default [] (one_triple <$> o) = option_list o.
Proof. by destruct o. Qed.

(** ** Reading *)

Lemma leaf_filter p3 l k3 :
  leaf_ok p3 l → filter (λ t, keyAt t p3 = k3) (leaf_den l) ≡ₚ option_list (sm_get l k3).
Proof.
  intros [Hl Hk]. unfold leaf_den. rewrite munion_filter.
  - by rewrite sm_get_map, default_one.
  - intros k t Ht. repeat constructor. by apply Hk.
Qed.

Lemma node_filter p3 n k3 :
  node_ok p3 n → filter (λ t, keyAt t p3 = k3) (node_den n) ≡ₚ option_list (node_lookup n k3 p3).
Proof.
  intros [[t ->]|(l & -> & Hl & _)]; unfold node_lookup; cbn [node_den node_one node_many].
  - unfold node_den; cbn [node_one]. rewrite filter_one. by destruct (String.eqb (keyAt t p3) k3).
  - by apply leaf_filter.
Qed.

Lemma level_filter p2 p3 l k2 :
  level_ok p2 p3 l → filter (λ t, keyAt t p2 = k2) (level_den l) ≡ₚ default [] (node_den <$> sm_get l k2).
Proof.
  intros [Hl Hk]. unfold level_den. rewrite munion_filter; [by rewrite sm_get_map|]. intros k n Hn. by apply Hk.
Qed.

Lemma index_filter1 p1 idx k1 :
  index_ok p1 idx → filter (λ t, keyAt t p1 = k1) (index_den idx) ≡ₚ top_den (top_at idx k1).
Proof.
  intros Hok. unfold index_den. rewrite munion_filter by (intros k e He; by apply Hok).
  unfold top_at. by destruct (idx_m idx !! k1).
Qed.

Lemma index_filter2 p1 idx k1 k2 :
  index_ok p1 idx →
  filter (λ t, keyAt t (p2 idx) = k2) (filter (λ t, keyAt t p1 = k1) (index_den idx))
  ≡ₚ node_den (index_pair idx k1 k2).
Proof.
  intros Hok. rewrite (index_filter1 p1) by done. unfold top_at, index_pair.
  destruct (idx_m idx !! k1) as [e|] eqn:He; [|done].
  destruct (Hok _ _ He) as [[[t ->]|(l & -> & Hl & _)] _]; cbn [from_option id].
  - unfold top_den; cbn [top_one]. rewrite filter_one. by destruct (String.eqb (keyAt t (p2 idx)) k2).
  - unfold top_den, many_or_zero; cbn [top_one top_many from_option id]. rewrite (level_filter _ _ _ _ Hl).
    by destruct (sm_get l k2).
Qed.

Lemma index_pair_ok p1 idx k1 k2 :
  index_ok p1 idx → node_ok (p3 idx) (index_pair idx k1 k2) ∨ index_pair idx k1 k2 = MkNode None None.
Proof.
  intros Hok. unfold index_pair. destruct (idx_m idx !! k1) as [e|] eqn:He; [|by right].
  destruct (Hok _ _ He) as [[[t ->]|(l & -> & Hl & _)] _]; cbn [top_one top_many].
  - destruct (String.eqb _ _); [left; left; eauto|by right].
  - unfold many_or_zero; cbn [from_option id]. rewrite sm_get_map by apply Hl.
    destruct (to_map l !! k2) as [n|] eqn:Hn; [|by right]. left. by apply (proj2 Hl _ _ Hn).
Qed.

Lemma index_lookup_pair idx k1 k2 k3 :
  index_lookup idx k1 k2 k3 = node_lookup (index_pair idx k1 k2) k3 (p3 idx).
Proof.
  unfold index_lookup, index_pair. destruct (idx_m idx !! k1) as [[[t|] m]|]; cbn; try done.
  - by destruct (String.eqb (keyAt t (p2 idx)) k2).
  - by destruct (sm_get _ k2).
Qed.

Lemma index_filter3 p1 idx k1 k2 k3 :
  index_ok p1 idx →
  filter (λ t, keyAt t (p3 idx) = k3) (filter (λ t, keyAt t (p2 idx) = k2) (filter (λ t, keyAt t p1 = k1) (index_den idx)))
  ≡ₚ option_list (index_lookup idx k1 k2 k3).
Proof.
  intros Hok. rewrite (index_filter2 p1), index_lookup_pair by done.
  destruct (index_pair_ok p1 idx k1 k2 Hok) as [Hn| ->]; [by apply node_filter|done].
Qed.

Lemma index_lookup_elem p1 idx k1 k2 k3 t :
  index_ok p1 idx →
  index_lookup idx k1 k2 k3 = Some t ↔
  t ∈ index_den idx ∧ keyAt t p1 = k1 ∧ keyAt t (p2 idx) = k2 ∧ keyAt t (p3 idx) = k3.
Proof.
  intros Hok. transitivity (t ∈ option_list (index_lookup idx k1 k2 k3)).
  - destruct (index_lookup idx k1 k2 k3); cbn; set_solver.
  - rewrite <- (index_filter3 p1) by done. rewrite !list_elem_of_filter. naive_solver.
Qed.

(** ** Inserting *)

Lemma leaf_set_ok p3 l t :
  leaf_ok p3 l → sm_get l (keyAt t p3) = None →
  leaf_ok p3 (sm_set l (keyAt t p3) t) ∧ leaf_den (sm_set l (keyAt t p3) t) ≡ₚ t :: leaf_den l.
Proof.
  intros [Hl Hk] Hn. rewrite sm_get_map in Hn by done.
  destruct (sm_set_ok l (keyAt t p3) t Hl) as [Hl' Hm]. split.
  - split; [done|]. rewrite Hm. intros k t' [[<- <-]|[_ ?]]%lookup_insert_Some; [done|by apply Hk].
  - unfold leaf_den. by rewrite Hm, munion_insert_new.
Qed.

Lemma leaf_zero_ok p3 : leaf_ok p3 smallMap_zero ∧ leaf_den smallMap_zero = [].
Proof. split; [split; [apply sm_zero_ok|done]|apply munion_empty]. Qed.

Lemma insert_node_ok p3 o t :
  (∀ n, o = Some n → node_ok p3 n ∧ node_lookup n (keyAt t p3) p3 = None) →
  node_ok p3 (insert_node o t p3) ∧ node_den (insert_node o t p3) ≡ₚ t :: default [] (node_den <$> o).
Proof.
  destruct o as [n|]; [|intros _; split; [left; eauto|done]].
  intros Hn. destruct (Hn n eq_refl) as [[[t1 ->]|(l & -> & Hl & Hlen)] Hlk]; cbn [insert_node node_one node_many].
  - destruct (leaf_zero_ok p3) as [Hz Hz'].
    destruct (leaf_set_ok p3 _ t1 Hz) as [H1 H1']; [done|]. rewrite Hz' in H1'.
    destruct (leaf_set_ok p3 _ t H1) as [H2 H2'].
    { unfold node_lookup in Hlk; cbn in Hlk. rewrite sm_get_map by apply H1.
      rewrite (proj2 (sm_set_ok _ _ _ (proj1 Hz))). apply lookup_insert_None. split; [done|].
      destruct (String.eqb_spec (keyAt t1 p3) (keyAt t p3)); [done|congruence]. }
    rewrite H1' in H2'. split; [right; eexists; split_and!; [done..|by rewrite H2']|exact H2'].
  - destruct (leaf_set_ok p3 l t Hl Hlk) as [H1 H2].
    split; [right; eexists; split_and!; [done..|rewrite H2; cbn; lia]|exact H2].
Qed.

Lemma level_insert_ok p2 p3 l t :
  level_ok p2 p3 l →
  (∀ n, sm_get l (keyAt t p2) = Some n → node_lookup n (keyAt t p3) p3 = None) →
  let l' := sm_set l (keyAt t p2) (insert_node (sm_get l (keyAt t p2)) t p3) in
  level_ok p2 p3 l' ∧ level_den l' ≡ₚ t :: level_den l.
Proof.
  intros [Hl Hk] Hn. set (k2 := keyAt t p2) in *. set (n' := insert_node (sm_get l k2) t p3).
  destruct (insert_node_ok p3 (sm_get l k2) t) as [Hn' Hden].
  { intros n Hg. split; [|by apply Hn]. rewrite sm_get_map in Hg by done. by apply (Hk _ _ Hg). }
  fold n' in Hn', Hden. destruct (sm_set_ok l k2 n' Hl) as [Hl' Hm]. rewrite sm_get_map in Hden by done.
  split.
  - split; [done|]. rewrite Hm. intros k n [[<- <-]|[_ ?]]%lookup_insert_Some; [|by apply Hk].
    split; [done|]. rewrite Hden. constructor; [done|].
    destruct (to_map l !! k2) as [n|] eqn:E; [|constructor]. by apply (Hk _ _ E).
  - unfold level_den. rewrite Hm, munion_insert, Hden.
    destruct (to_map l !! k2) as [n|] eqn:E; cbn; [by rewrite (munion_lookup _ _ _ _ E)|by rewrite delete_id].
Qed.

Lemma level_zero_ok p2 p3 : level_ok p2 p3 smallMap_zero ∧ level_den smallMap_zero = [].
Proof. split; [split; [apply sm_zero_ok|done]|apply munion_empty]. Qed.

Lemma unfold_top_ok p2 p3 e :
  top_ok p2 p3 e → level_ok p2 p3 (unfold_top e p2) ∧ level_den (unfold_top e p2) ≡ₚ top_den e.
Proof.
  intros [[t ->]|(l & -> & Hl & _)]; [|done].
  destruct (level_zero_ok p2 p3) as [Hz Hz'].
  destruct (level_insert_ok p2 p3 smallMap_zero t Hz) as [H1 H2]; [done|]. by rewrite Hz' in H2.
Qed.

Lemma top_den_ne p2 p3 e : top_ok p2 p3 e → 1 ≤ length (top_den e).
Proof. intros [[t ->]|(l & -> & _ & ?)]; [done|]. unfold top_den; cbn. lia. Qed.

Lemma index_insert_ok p1 idx t :
  index_ok p1 idx → index_lookup idx (keyAt t p1) (keyAt t (p2 idx)) (keyAt t (p3 idx)) = None →
  let idx' := index_insert idx (keyAt t p1) t in
  index_ok p1 idx' ∧ p2 idx' = p2 idx ∧ p3 idx' = p3 idx ∧ index_den idx' ≡ₚ t :: index_den idx.
Proof.
  intros Hok Hnone. set (k1 := keyAt t p1) in *. unfold index_insert.
  destruct (idx_m idx !! k1) as [e|] eqn:He; cbn [p2 p3 with_m].
  - destruct (Hok _ _ He) as [Ht Hf]. destruct (unfold_top_ok _ _ _ Ht) as [Hl Hld].
    destruct (level_insert_ok _ _ _ t Hl) as [Hl' Hd'].
    { intros n Hn. rewrite sm_get_map in Hn by apply Hl. destruct (proj2 Hl _ _ Hn) as [Hno _].
      destruct (node_lookup n _ _) as [t'|] eqn:Hlk; [|done]. exfalso.
      enough (index_lookup idx k1 (keyAt t (p2 idx)) (keyAt t (p3 idx)) = Some t') by congruence.
      apply (index_lookup_elem p1); [done|].
      assert (Ht' : t' ∈ filter (λ u, keyAt u (p3 idx) = keyAt t (p3 idx)) (node_den n)).
      { rewrite node_filter by done. rewrite Hlk. set_solver. }
      apply list_elem_of_filter in Ht' as [H3 Hin].
      destruct (proj2 Hl _ _ Hn) as [_ H2]. rewrite Forall_forall in H2. specialize (H2 _ Hin).
      assert (Hin' : t' ∈ top_den e) by (rewrite <- Hld; apply munion_elem; eauto).
      split_and!; [apply munion_elem; eauto| |done..].
      rewrite Forall_forall in Hf. by apply Hf. }
    split_and!; try done.
    + intros k e'. cbn [idx_m with_m p2 p3]. intros [[<- <-]|[_ ?]]%lookup_insert_Some; [|by apply Hok]. split.
      * right. eexists. split_and!; [done..|]. rewrite Hd'. cbn. rewrite Hld.
        pose proof (top_den_ne _ _ _ Ht). lia.
      * unfold top_den; cbn. rewrite Hd', Hld. by constructor.
    + unfold index_den; cbn [idx_m with_m]. rewrite munion_insert, (munion_lookup _ _ _ _ He).
      unfold top_den at 1; cbn. by rewrite Hd', Hld.
  - split_and!; try done.
    + intros k e'. cbn [idx_m with_m p2 p3]. intros [[<- <-]|[_ ?]]%lookup_insert_Some; [|by apply Hok].
      split; [left; eauto|]. by repeat constructor.
    + unfold index_den; cbn [idx_m with_m]. by rewrite munion_insert_new.
Qed.

(** ** Deleting *)

Section delete.
Context `{GoRange}.

Lemma leaf_delete_ok p3 l k3 t :
  leaf_ok p3 l → sm_get l k3 = Some t →
  leaf_ok p3 (sm_delete l k3) ∧ leaf_den l ≡ₚ t :: leaf_den (sm_delete l k3).
Proof.
  intros [Hl Hk] Hg. rewrite sm_get_map in Hg by done.
  destruct (sm_delete_ok l k3 Hl) as [Hl' Hm]. split.
  - split; [done|]. rewrite Hm. intros k t' [_ ?]%lookup_delete_Some. by apply Hk.
  - unfold leaf_den. rewrite Hm. by rewrite (munion_lookup _ _ _ _ Hg).
Qed.

Lemma leaf_den_length l : length (leaf_den l) = size (to_map l).
Proof.
  unfold leaf_den, munion. rewrite <- length_map_to_list.
  induction (map_to_list (to_map l)); cbn; [done|by f_equal].
Qed.

(** The entries of a small map with one entry. *)
Lemma sm_all_one {V} (x : smallMap V) :
  sm_ok x → sm_len x = 1 → ∃ k v, sm_all x = [(k, v)] ∧ to_map x = {[k := v]}.
Proof.
  intros Hx Hl. rewrite sm_len_size in Hl by done. pose proof (sm_all_perm x Hx) as Hp.
  assert (Hlen : length (sm_all x) = 1) by (by rewrite Hp, length_map_to_list).
  destruct (sm_all x) as [|[k v] [|]]; try done. exists k, v. split; [done|].
  symmetry in Hp. apply Permutation_singleton_r in Hp. rewrite <- (list_to_map_to_list (to_map x)), Hp.
  apply insert_empty.
Qed.

Lemma leaf_den_one (l : leaf) k t : to_map l = {[k := t]} → leaf_den l = [t].
Proof. intros Hm. unfold leaf_den, munion. by rewrite Hm, map_to_list_singleton. Qed.

Lemma sm_set_set {V} (l : smallMap V) k v w :
  sm_ok l → sm_ok (sm_set (sm_set l k v) k w) ∧ to_map (sm_set (sm_set l k v) k w) = <[k:=w]> (to_map l).
Proof.
  intros Hl. destruct (sm_set_ok l k v Hl) as [H1 Hm1]. destruct (sm_set_ok _ k w H1) as [H2 Hm2].
  by rewrite Hm2, Hm1, insert_insert_eq.
Qed.

(** The node a level keeps when a node of two or more loses a triple. *)
Lemma level_replace_ok p2 p3 l k2 n n' t l' :
  level_ok p2 p3 l → to_map l !! k2 = Some n → node_ok p3 n' → node_den n ≡ₚ t :: node_den n' →
  sm_ok l' → to_map l' = <[k2:=n']> (to_map l) →
  level_ok p2 p3 l' ∧ level_den l ≡ₚ t :: level_den l'.
Proof.
  intros [Hl Hk] Hn Hok' Hd Hl' Hm. split.
  - split; [done|]. rewrite Hm. intros k m [[<- <-]|[_ ?]]%lookup_insert_Some; [|by apply Hk].
    split; [done|]. destruct (Hk _ _ Hn) as [_ Hf]. rewrite Hd in Hf. by inversion Hf.
  - unfold level_den. rewrite Hm, munion_insert, (munion_lookup _ _ _ _ Hn), Hd. done.
Qed.

Lemma level_delete_ok p2 p3 l k2 k3 n t :
  level_ok p2 p3 l → sm_get l k2 = Some n → node_lookup n k3 p3 = Some t →
  level_ok p2 p3 (level_delete l k2 k3) ∧ level_den l ≡ₚ t :: level_den (level_delete l k2 k3).
Proof.
  intros Hl Hg Hlk. unfold level_delete. rewrite Hg; cbn [from_option id].
  rewrite sm_get_map in Hg by apply Hl. destruct (proj2 Hl _ _ Hg) as [[[t1 ->]|(lf & -> & Hlf & Hlen)] _];
    cbn [node_one node_many many_or_zero].
  - unfold node_lookup in Hlk; cbn in Hlk. destruct (String.eqb _ _); [|done]. injection Hlk as ->.
    destruct (sm_delete_ok l k2 (proj1 Hl)) as [Hl' Hm]. split.
    + split; [done|]. rewrite Hm. intros k n [_ ?]%lookup_delete_Some. by apply (proj2 Hl).
    + unfold level_den. rewrite Hm. by rewrite (munion_lookup _ _ _ _ Hg).
  - unfold many_or_zero, node_lookup in *; cbn [from_option id node_one node_many] in *.
    destruct (leaf_delete_ok p3 lf k3 t Hlf Hlk) as [Hlf' Hd].
    assert (Hsz : length (leaf_den (sm_delete lf k3)) = sm_len (sm_delete lf k3)).
    { rewrite leaf_den_length, sm_len_size; [done|apply Hlf']. }
    destruct (Nat.eqb_spec (sm_len (sm_delete lf k3)) 1) as [H1|H1].
    + destruct (sm_all_one _ (proj1 Hlf') H1) as (k & t' & Hall & Hm). rewrite Hall; cbn [foldl snd].
      destruct (sm_set_set l k2 (MkNode None (Some (sm_delete lf k3))) (MkNode (Some t') None) (proj1 Hl)) as [Hok' Hm'].
      eapply level_replace_ok; [done|done|left; eauto| |done|done].
      unfold node_den at 1; cbn. by rewrite Hd, (leaf_den_one _ _ _ Hm).
    + destruct (sm_set_ok l k2 (MkNode None (Some (sm_delete lf k3))) (proj1 Hl)) as [Hok' Hm'].
      eapply level_replace_ok; [done|done| | |done|done].
      * right. eexists. split_and!; [done..|]. rewrite Hd in Hlen. cbn in Hlen. lia.
      * exact Hd.
Qed.

(** A level in use has a triple under each of its keys. *)
Lemma node_den_ne p3 n : node_ok p3 n → 1 ≤ length (node_den n).
Proof. intros [[t ->]|(l & -> & _ & Hl)]; [done|]. unfold node_den, many_or_zero; cbn. lia. Qed.

Lemma level_den_size p2 p3 l : level_ok p2 p3 l → size (to_map l) ≤ length (level_den l).
Proof.
  intros [_ Hk]. unfold level_den, munion. rewrite <- length_map_to_list.
  assert (Hn : Forall (λ p, 1 ≤ length (node_den p.2)) (map_to_list (to_map l))).
  { apply Forall_forall. intros [k n] Hin%elem_of_map_to_list. eapply node_den_ne, Hk, Hin. }
  induction Hn as [|[k n] m Hn _ IH]; cbn in *; [lia|]. rewrite length_app. apply (Nat.add_le_mono 1); [exact Hn|exact IH].
Qed.

Lemma fold_top_ok p2 p3 m k1 l :
  level_ok p2 p3 l → 1 ≤ length (level_den l) →
  ∃ e, fold_top m k1 l = <[k1 := e]> m ∧ top_ok p2 p3 e ∧ top_den e = level_den l.
Proof.
  intros Hl Hlen. unfold fold_top. pose proof (sm_len_size l (proj1 Hl)) as Hs.
  pose proof (level_den_size _ _ _ Hl) as Hsz.
  assert (Hbig : 2 ≤ length (level_den l) →
    top_ok p2 p3 (MkTop None (Some l)) ∧ top_den (MkTop None (Some l)) = level_den l).
  { intros H2. split; [right; eauto|done]. }
  destruct (sm_len l) as [|[|n]] eqn:El.
  - exfalso. symmetry in Hs. apply map_size_empty_iff in Hs. unfold level_den in Hlen.
    rewrite Hs, munion_empty in Hlen. cbn in Hlen. lia.
  - destruct (sm_all_one l (proj1 Hl) El) as (k & n & Hall & Hm). rewrite Hall; cbn [foldl snd].
    assert (Hd : level_den l = node_den n ++ []) by (unfold level_den, munion; by rewrite Hm, map_to_list_singleton).
    rewrite app_nil_r in Hd. destruct (proj2 Hl k n) as [[[t ->]|(lf & -> & Hlf & H2)] _];
      [rewrite Hm; apply lookup_singleton_eq|..]; cbn [node_one].
    + exists (MkTop (Some t) None). rewrite insert_insert_eq. split_and!; [done|left; eauto|by rewrite Hd].
    + exists (MkTop None (Some l)). split; [done|]. apply Hbig. rewrite Hd. exact H2.
  - exists (MkTop None (Some l)). split; [done|]. apply Hbig. lia.
Qed.

Lemma index_delete_ok p1 idx k1 k2 k3 t :
  index_ok p1 idx → index_lookup idx k1 k2 k3 = Some t →
  let idx' := index_delete idx k1 k2 k3 in
  index_ok p1 idx' ∧ p2 idx' = p2 idx ∧ p3 idx' = p3 idx ∧ index_den idx ≡ₚ t :: index_den idx'.
Proof.
  intros Hok Hlk. unfold index_delete. unfold index_lookup in Hlk.
  destruct (idx_m idx !! k1) as [e|] eqn:He; [|done]. cbn [from_option id].
  destruct (Hok _ _ He) as [Ht Hf]. pose proof Ht as [[t1 ->]|(l & -> & Hl & Hlen)]; cbn [top_one top_many] in *.
  - destruct (_ && _); [|done]. injection Hlk as ->. split_and!; try done.
    + intros k e. cbn [idx_m with_m p2 p3]. intros [_ ?]%lookup_delete_Some. by apply Hok.
    + unfold index_den; cbn [idx_m with_m]. by rewrite (munion_lookup _ _ _ _ He).
  - unfold many_or_zero in *; cbn [from_option id] in *.
    destruct (sm_get l k2) as [n|] eqn:Hg; [|done].
    destruct (level_delete_ok _ _ l k2 k3 n t Hl Hg Hlk) as [Hl' Hd].
    destruct (fold_top_ok _ _ (idx_m idx) k1 _ Hl') as (e' & -> & He' & Hd').
    { rewrite Hd in Hlen. cbn in Hlen. lia. }
    split_and!; try done.
    + intros k e. cbn [idx_m with_m p2 p3]. intros [[<- <-]|[_ ?]]%lookup_insert_Some; [|by apply Hok].
      split; [done|]. unfold top_den in Hf; cbn in Hf. rewrite Hd in Hf. rewrite Hd'. by inversion Hf.
    + unfold index_den; cbn [idx_m with_m]. rewrite munion_insert, (munion_lookup _ _ _ _ He), Hd'.
      unfold top_den at 1; cbn. by rewrite Hd.
Qed.
End delete.

(** ** One graph: three indices over the same triples *)

(** The three keys a triple is stored under. *)
Definition tkey (t : Triple) : string * string * string := (keyAt t posS, keyAt t posP, keyAt t posO).

Definition triples (x : tripleIndex) : list Triple := index_den (spo x).

(** A pattern position: the empty key is a wildcard. *)
Definition key_matches (k k' : string) : bool := negb (bound k) || String.eqb k' k.

Definition pattern_matches (p : TriplePattern) (t : Triple) : bool :=
  key_matches (OptTermKey (pat_Subject p)) (keyAt t posS) &&
  key_matches (OptPredKey (pat_Predicate p)) (keyAt t posP) &&
  key_matches (OptTermKey (pat_Object p)) (keyAt t posO).

(** How many triples of a list have predicate key [pk]. *)
Definition pred_triples (l : list Triple) (pk : string) : list Triple := filter (λ t, keyAt t posP = pk) l.

Record ti_ok (x : tripleIndex) : Prop := {
  ok_spo : index_ok posS (spo x);
  ok_pos : index_ok posP (pos x);
  ok_osp : index_ok posO (osp x);
  ok_spo_keys : p2 (spo x) = posP ∧ p3 (spo x) = posO;
  ok_pos_keys : p2 (pos x) = posO ∧ p3 (pos x) = posS;
  ok_osp_keys : p2 (osp x) = posS ∧ p3 (osp x) = posP;
  ok_pos_den : index_den (pos x) ≡ₚ triples x;
  ok_osp_den : index_den (osp x) ≡ₚ triples x;
  ok_count : count x = Z.of_nat (length (triples x));
  ok_pred : ∀ pk, predCount x !! pk =
    if decide (pred_triples (triples x) pk = []) then None
    else Some (Z.of_nat (length (pred_triples (triples x) pk)))
}.

Lemma newTripleIndex_ok : ti_ok newTripleIndex ∧ triples newTripleIndex = [].
Proof.
  assert (He : ∀ p q, index_den (newIndex p q) = []) by (intros; apply munion_empty).
  split; [|apply He]. split; try done.
Qed.

Lemma option_list_length {A} (o : option A) : length (option_list o) ≤ 1.
Proof. destruct o; cbn; lia. Qed.

(** No two triples of an index have the same keys. *)
Lemma NoDup_by_filter {K} `{EqDecision K} (f : Triple → K) (l : list Triple) :
  (∀ k, length (filter (λ t, f t = k) l) ≤ 1) → NoDup (f <$> l).
Proof.
  induction l as [|t l IH]; intros Hl; [constructor|]. cbn. apply NoDup_cons. split.
  - intros Hin. apply list_elem_of_fmap in Hin as (t' & Ht & Hin'). specialize (Hl (f t)).
    rewrite filter_cons_True in Hl by done. cbn in Hl.
    destruct (filter (λ u, f u = f t) l) as [|u l'] eqn:E; [|cbn in Hl; lia].
    enough (t' ∈ filter (λ u, f u = f t) l) by (rewrite E in *; set_solver).
    by apply list_elem_of_filter.
  - apply IH. intros k. specialize (Hl k). rewrite filter_cons in Hl. destruct (decide _); cbn in Hl; lia.
Qed.

Lemma triples_NoDup x : ti_ok x → NoDup (tkey <$> triples x).
Proof.
  intros Hx. apply NoDup_by_filter. intros [[k1 k2] k3].
  pose proof (index_filter3 posS (spo x) k1 k2 k3 (ok_spo x Hx)) as Hf.
  destruct (ok_spo_keys x Hx) as [E2 E3]. rewrite E2, E3 in Hf. rewrite !list_filter_filter in Hf.
  etrans; [|apply (option_list_length (index_lookup (spo x) k1 k2 k3))]. rewrite <- Hf.
  apply Nat.eq_le_incl. f_equal. apply list_filter_iff. intros t. unfold tkey. naive_solver congruence.
Qed.

Lemma spo_lookup x k1 k2 k3 t :
  ti_ok x → index_lookup (spo x) k1 k2 k3 = Some t ↔ t ∈ triples x ∧ tkey t = (k1, k2, k3).
Proof.
  intros Hx. rewrite (index_lookup_elem posS) by apply Hx.
  destruct (ok_spo_keys x Hx) as [-> ->]. unfold tkey, triples. naive_solver.
Qed.

Lemma index_lookup_perm p1 p1' idx idx' k1 k2 k3 k1' k2' k3' :
  index_ok p1 idx → index_ok p1' idx' → index_den idx' ≡ₚ index_den idx →
  (∀ t, keyAt t p1 = k1 ∧ keyAt t (p2 idx) = k2 ∧ keyAt t (p3 idx) = k3 ↔
        keyAt t p1' = k1' ∧ keyAt t (p2 idx') = k2' ∧ keyAt t (p3 idx') = k3') →
  index_lookup idx k1 k2 k3 = index_lookup idx' k1' k2' k3'.
Proof.
  intros H H' Hp Hk. apply option_eq. intros t.
  rewrite (index_lookup_elem p1), (index_lookup_elem p1') by done. rewrite Hp. naive_solver.
Qed.

Lemma ti_lookup_agree x k1 k2 k3 :
  ti_ok x →
  index_lookup (pos x) k2 k3 k1 = index_lookup (spo x) k1 k2 k3 ∧
  index_lookup (osp x) k3 k1 k2 = index_lookup (spo x) k1 k2 k3.
Proof.
  intros Hx. pose proof (ok_pos_den x Hx). pose proof (ok_osp_den x Hx).
  destruct (ok_spo_keys x Hx) as [E1 E2], (ok_pos_keys x Hx) as [E3 E4], (ok_osp_keys x Hx) as [E5 E6].
  split.
  - eapply (index_lookup_perm posP posS); [apply Hx..|by symmetry|].
    intros t. rewrite E1, E2, E3, E4. tauto.
  - eapply (index_lookup_perm posO posS); [apply Hx..|by symmetry|].
    intros t. rewrite E1, E2, E5, E6. tauto.
Qed.

(** ** Adding *)

Lemma ti_has x t : ti_ok x → has x t = bool_decide (tkey t ∈ tkey <$> triples x).
Proof.
  intros Hx. unfold has.
  change (TermKey (Subject t)) with (keyAt t posS). change (TermKey (TURIRef (Predicate t))) with (keyAt t posP).
  change (TermKey (Object t)) with (keyAt t posO).
  destruct (index_lookup _ _ _ _) as [t'|] eqn:E; symmetry.
  - apply bool_decide_eq_true. apply spo_lookup in E as [Hin Hk]; [|done].
    apply list_elem_of_fmap. exists t'. by rewrite Hk.
  - apply bool_decide_eq_false. intros (t' & Hk & Hin)%list_elem_of_fmap.
    assert (index_lookup (spo x) (keyAt t posS) (keyAt t posP) (keyAt t posO) = Some t') as E'
      by by apply spo_lookup. congruence.
Qed.

Lemma pred_triples_cons t l pk :
  pred_triples (t :: l) pk = if decide (keyAt t posP = pk) then t :: pred_triples l pk else pred_triples l pk.
Proof. unfold pred_triples. rewrite filter_cons. by case_decide. Qed.

Lemma pred_triples_perm l l' pk : l ≡ₚ l' → pred_triples l pk ≡ₚ pred_triples l' pk.
Proof. intros Hp. unfold pred_triples. by rewrite Hp. Qed.

(** [predCount] as a function of the triples. *)
Definition pred_count_of (l : list Triple) (pk : string) : option Z :=
  if decide (pred_triples l pk = []) then None else Some (Z.of_nat (length (pred_triples l pk))).

Lemma pred_count_perm l l' pk : l ≡ₚ l' → pred_count_of l pk = pred_count_of l' pk.
Proof.
  intros Hp%(pred_triples_perm _ _ pk). unfold pred_count_of. rewrite (Permutation_length Hp).
  apply decide_ext. split; intros E; rewrite E in Hp; [symmetry; by apply Permutation_nil_l|by apply Permutation_nil_r].
Qed.

Lemma pred_count_default l pk : default 0%Z (pred_count_of l pk) = Z.of_nat (length (pred_triples l pk)).
Proof. unfold pred_count_of. destruct (decide _) as [->|]; done. Qed.

Lemma pred_count_cons t l pk :
  pred_count_of (t :: l) pk =
  if decide (keyAt t posP = pk) then Some (Z.of_nat (length (pred_triples l pk)) + 1)%Z else pred_count_of l pk.
Proof.
  unfold pred_count_of. rewrite pred_triples_cons. destruct (decide (keyAt t posP = pk)); [|done].
  rewrite decide_False by done. cbn [length]. f_equal. lia.
Qed.

Lemma ti_add_ok x t :
  ti_ok x → ti_ok (ti_add x t) ∧
  triples (ti_add x t) ≡ₚ (if decide (tkey t ∈ tkey <$> triples x) then triples x else t :: triples x).
Proof.
  intros Hx. pose proof (ti_has x t Hx) as Hh. unfold has in Hh. unfold ti_add.
  destruct (index_lookup _ _ _ _) as [t'|] eqn:E.
  { symmetry in Hh. apply bool_decide_eq_true in Hh. by rewrite decide_True. }
  symmetry in Hh. apply bool_decide_eq_false in Hh. rewrite decide_False by done.
  pose proof E as E'. destruct (ti_lookup_agree x (keyAt t posS) (keyAt t posP) (keyAt t posO) Hx) as [Ep Eo].
  destruct (ok_spo_keys x Hx) as [S2 S3], (ok_pos_keys x Hx) as [P2 P3], (ok_osp_keys x Hx) as [O2 O3].
  destruct (index_insert_ok posS (spo x) t (ok_spo x Hx)) as (I1 & I2 & I3 & I4); [by rewrite S2, S3|].
  destruct (index_insert_ok posP (pos x) t (ok_pos x Hx)) as (J1 & J2 & J3 & J4); [by rewrite P2, P3, Ep|].
  destruct (index_insert_ok posO (osp x) t (ok_osp x Hx)) as (K1 & K2 & K3 & K4); [by rewrite O2, O3, Eo|].
  split; [|exact I4].
  change (TermKey (Subject t)) with (keyAt t posS). change (TermKey (TURIRef (Predicate t))) with (keyAt t posP).
  change (TermKey (Object t)) with (keyAt t posO).
  split; unfold triples; cbn [spo pos osp count predCount]; try done.
  - by rewrite I2, I3.
  - by rewrite J2, J3.
  - by rewrite K2, K3.
  - etrans; [exact J4|]. symmetry. etrans; [exact I4|]. by rewrite (ok_pos_den x Hx).
  - etrans; [exact K4|]. symmetry. etrans; [exact I4|]. by rewrite (ok_osp_den x Hx).
  - rewrite (Permutation_length I4), (ok_count x Hx). cbn. unfold triples. lia.
  - intros pk. match goal with |- ?a = _ => change (a = pred_count_of (index_den (index_insert (spo x) (keyAt t posS) t)) pk) end.
    rewrite (pred_count_perm _ _ pk I4), pred_count_cons.
    rewrite (ok_pred x Hx (keyAt t posP) : _ = pred_count_of _ _), pred_count_default.
    destruct (decide (keyAt t posP = pk)) as [<-|Hne]; [by rewrite lookup_insert_eq|].
    rewrite lookup_insert_ne by done. apply (ok_pred x Hx).
Qed.

(** ** Removing *)

Section remove.
Context `{GoRange}.

Lemma NoDup_triples_key l t t' :
  NoDup (tkey <$> l) → t ∈ l → t' ∈ l → tkey t = tkey t' → t = t'.
Proof. apply NoDup_fmap_inj_on. Qed.

Lemma filter_key_absent (l : list Triple) t :
  tkey t ∉ tkey <$> l → filter (λ u, tkey u ≠ tkey t) l = l.
Proof.
  induction l as [|u l IH]; [done|]. rewrite fmap_cons. intros [H1 H2]%not_elem_of_cons.
  rewrite filter_cons_True by congruence. by rewrite IH.
Qed.

Lemma filter_key_head (l : list Triple) t :
  NoDup (tkey <$> (t :: l)) → filter (λ u, tkey u ≠ tkey t) (t :: l) = l.
Proof.
  rewrite fmap_cons. intros [H1 H2]%NoDup_cons. rewrite filter_cons_False by tauto. by apply filter_key_absent.
Qed.

Lemma ti_remove_ok x t :
  ti_ok x → ti_ok (ti_remove x t) ∧
  triples (ti_remove x t) ≡ₚ filter (λ u, tkey u ≠ tkey t) (triples x).
Proof.
  intros Hx. unfold ti_remove.
  pose proof (ti_has x t Hx) as Hh. unfold has in Hh.
  destruct (index_lookup _ _ _ _) as [t'|] eqn:E.
  2:{ symmetry in Hh. apply bool_decide_eq_false in Hh. by rewrite filter_key_absent. }
  destruct (ti_lookup_agree x (keyAt t posS) (keyAt t posP) (keyAt t posO) Hx) as [Ep Eo].
  change (index_lookup (spo x) (keyAt t posS) (keyAt t posP) (keyAt t posO) = Some t') in E.
  rewrite E in Ep, Eo.
  destruct (ok_spo_keys x Hx) as [S2 S3], (ok_pos_keys x Hx) as [P2 P3], (ok_osp_keys x Hx) as [O2 O3].
  destruct (index_delete_ok posS (spo x) _ _ _ _ (ok_spo x Hx) E) as (I1 & I2 & I3 & I4).
  destruct (index_delete_ok posP (pos x) _ _ _ _ (ok_pos x Hx) Ep) as (J1 & J2 & J3 & J4).
  destruct (index_delete_ok posO (osp x) _ _ _ _ (ok_osp x Hx) Eo) as (K1 & K2 & K3 & K4).
  apply spo_lookup in E as [Hin Hk]; [|done].
  assert (Hpk : keyAt t' posP = keyAt t posP) by (unfold tkey in Hk; congruence).
  change (TermKey (Subject t)) with (keyAt t posS). change (TermKey (TURIRef (Predicate t))) with (keyAt t posP).
  change (TermKey (Object t)) with (keyAt t posO).
  split; [split; unfold triples; cbn [spo pos osp count predCount]; try done|].
  - by rewrite I2, I3.
  - by rewrite J2, J3.
  - by rewrite K2, K3.
  - apply (Permutation_cons_inv (a := t')). by rewrite <- J4, <- I4, (ok_pos_den x Hx).
  - apply (Permutation_cons_inv (a := t')). by rewrite <- K4, <- I4, (ok_osp_den x Hx).
  - rewrite (ok_count x Hx). unfold triples. rewrite (Permutation_length I4). cbn. lia.
  - intros pk. match goal with |- ?a = _ => change (a = pred_count_of (index_den (index_delete (spo x) (keyAt t posS) (keyAt t posP) (keyAt t posO))) pk) end.
    set (l := index_den (index_delete _ _ _ _)) in *.
    assert (Hold : ∀ q, predCount x !! q = pred_count_of (t' :: l) q).
    { intros q. rewrite <- (pred_count_perm _ _ q I4). apply (ok_pred x Hx). }
    rewrite Hold, pred_count_cons, decide_True by done. cbn [from_option id].
    replace (_ + 1 - 1)%Z with (Z.of_nat (length (pred_triples l (keyAt t posP)))) by lia.
    destruct (decide (keyAt t posP = pk)) as [<-|Hne].
    + unfold pred_count_of. destruct (Z.eqb_spec (Z.of_nat (length (pred_triples l (keyAt t posP)))) 0) as [H0|H0].
      * rewrite lookup_delete_eq, decide_True; [done|]. apply nil_length_inv. lia.
      * rewrite lookup_insert_eq, decide_False; [done|]. intros E0. by rewrite E0 in H0.
    + transitivity (predCount x !! pk).
      * destruct (_ =? 0)%Z; [by rewrite lookup_delete_ne|by rewrite lookup_insert_ne].
      * rewrite Hold, pred_count_cons, decide_False; [done|congruence].
  - pose proof (triples_NoDup x Hx) as Hnd. unfold triples in *; cbn [spo].
    symmetry. rewrite (list_filter_iff _ (λ u, tkey u ≠ tkey t')) by (intros u; by rewrite Hk).
    rewrite I4, filter_key_head; [done|]. by rewrite <- I4.
Qed.
End remove.

(** ** Iterating *)

Section each.
Context `{GoRange}.

Definition node_list (n : node) : list Triple :=
  match node_one n with
  | Some t => [t]
  | None => match node_many n with None => [] | Some l => sm_values l end
  end.

Definition top_list (e : top) : list Triple :=
  match top_one e with
  | Some t => [t]
  | None => match top_many e with None => [] | Some l => mjoin (node_list <$> sm_values l) end
  end.

(** What [each] yields to a consumer that never stops. *)
Definition each_list (x : tripleIndex) (pattern : TriplePattern) : list Triple :=
  let sk := OptTermKey (pat_Subject pattern) in
  let pk := OptPredKey (pat_Predicate pattern) in
  let ok := OptTermKey (pat_Object pattern) in
  if bound sk && bound pk && bound ok then option_list (index_lookup (spo x) sk pk ok)
  else if bound sk && bound pk then node_list (index_pair (spo x) sk pk)
  else if bound pk && bound ok then node_list (index_pair (pos x) pk ok)
  else if bound sk && bound ok then node_list (index_pair (osp x) ok sk)
  else if bound sk then top_list (top_at (spo x) sk)
  else if bound pk then top_list (top_at (pos x) pk)
  else if bound ok then top_list (top_at (osp x) ok)
  else mjoin ((λ e, top_list e.2) <$> range (idx_m (spo x))).

Lemma drive_one {S} t (yield : Yield S) s : yield t s = drive [t] yield s.
Proof. cbn. by destruct (yield t s) as [[] s']. Qed.

Lemma eachNode_list {S} n (yield : Yield S) s : eachNode n yield s = drive (node_list n) yield s.
Proof. unfold eachNode, node_list. repeat case_match; auto using drive_one. Qed.

Lemma eachTop_list {S} e (yield : Yield S) s : eachTop e yield s = drive (top_list e) yield s.
Proof.
  unfold eachTop, top_list. repeat case_match; auto using drive_one.
  rewrite <- drive_concat. apply drive_ext. intros. apply eachNode_list.
Qed.

Lemma each_drive {S} x p (yield : Yield S) s : each x p yield s = drive (each_list x p) yield s.
Proof.
  unfold each, each_list. repeat (case_match; cbn [option_list]; auto using drive_one, eachNode_list, eachTop_list).
  rewrite <- drive_concat. apply drive_ext. intros. apply eachTop_list.
Qed.

Lemma node_list_den p3 n : node_ok p3 n ∨ n = MkNode None None → node_list n ≡ₚ node_den n.
Proof.
  intros [[[t ->]|(l & -> & [Hl _] & _)]| ->]; [done| |by rewrite (munion_empty _ : node_den (MkNode None None) = _)].
  unfold node_list, node_den, leaf_den, many_or_zero; cbn. rewrite sm_values_all, sm_all_perm by done.
  unfold munion. induction (map_to_list (to_map l)); cbn; [done|by f_equiv].
Qed.

Lemma top_list_den p2 p3 e : top_ok p2 p3 e ∨ e = MkTop None None → top_list e ≡ₚ top_den e.
Proof.
  intros [[[t ->]|(l & -> & [Hl Hk] & _)]| ->]; [done| |by rewrite (munion_empty _ : top_den (MkTop None None) = _)].
  unfold top_list, top_den, level_den, many_or_zero; cbn. rewrite sm_values_all, sm_all_perm by done.
  unfold munion. assert (Hn : Forall (λ p, node_ok p3 p.2) (map_to_list (to_map l))).
  { apply Forall_forall. intros [k n] Hin%elem_of_map_to_list. by apply (Hk k n). }
  induction Hn as [|[k n] m Hn _ IH]; cbn; [done|]. cbn in Hn. rewrite (node_list_den p3) by auto.
  by rewrite <- IH.
Qed.

Lemma top_at_ok p1 idx k : index_ok p1 idx → top_ok (p2 idx) (p3 idx) (top_at idx k) ∨ top_at idx k = MkTop None None.
Proof.
  intros Hok. unfold top_at. destruct (idx_m idx !! k) as [e|] eqn:E; [|by right]. left. by apply (Hok _ _ E).
Qed.

Lemma range_den p1 idx : index_ok p1 idx → mjoin ((λ e, top_list e.2) <$> range (idx_m idx)) ≡ₚ index_den idx.
Proof.
  intros Hok. unfold index_den. rewrite <- (munion_perm _ _ _ (range_perm _)).
  assert (Hn : Forall (λ p, top_ok (p2 idx) (p3 idx) p.2) (range (idx_m idx))).
  { apply Forall_forall. intros [k e]. rewrite range_perm. intros Hin%elem_of_map_to_list. by apply (Hok k e). }
  induction Hn as [|[k n] m Hn _ IH]; cbn; [done|]. cbn in Hn. rewrite (top_list_den (p2 idx) (p3 idx)) by auto.
  by rewrite <- IH.
Qed.

(** The filters the index levels realise, brought to one form. *)
Lemma filter_iff_perm (P Q : Triple → Prop) `{∀ t, Decision (P t), ∀ t, Decision (Q t)} (l : list Triple) :
  (∀ t, P t ↔ Q t) → filter P l ≡ₚ filter Q l.
Proof. intros HPQ. by rewrite (list_filter_iff P Q). Qed.

Lemma filter_conj2 (l : list Triple) p q k k' :
  filter (λ t, keyAt t q = k') (filter (λ t, keyAt t p = k) l) = filter (λ t, keyAt t p = k ∧ keyAt t q = k') l.
Proof. rewrite list_filter_filter. apply list_filter_iff. naive_solver. Qed.

Lemma key_matches_iff k k' : key_matches k k' = true ↔ (bound k = true → k' = k).
Proof. unfold key_matches. destruct (bound k); cbn; [rewrite String.eqb_eq|]; naive_solver. Qed.

Lemma each_list_filter x p :
  ti_ok x → each_list x p ≡ₚ filter (λ t, pattern_matches p t = true) (triples x).
Proof.
  intros Hx. unfold each_list, pattern_matches.
  set (sk := OptTermKey _). set (pk := OptPredKey _). set (ok := OptTermKey (pat_Object p)).
  destruct (ok_spo_keys x Hx) as [S2 S3], (ok_pos_keys x Hx) as [P2 P3], (ok_osp_keys x Hx) as [O2 O3].
  pose proof (ok_pos_den x Hx) as Dp. pose proof (ok_osp_den x Hx) as Do.
  destruct (bound sk) eqn:Bs, (bound pk) eqn:Bp, (bound ok) eqn:Bo; cbn [andb].
  - rewrite <- (index_filter3 posS) by apply Hx. rewrite S2, S3, !list_filter_filter.
    apply filter_iff_perm. intros t.
    rewrite !andb_true_iff, !key_matches_iff, Bs, Bp, Bo. naive_solver.
  - rewrite (node_list_den (p3 (spo x))) by (eapply index_pair_ok, Hx).
    rewrite <- (index_filter2 posS) by apply Hx. rewrite S2, filter_conj2.
    apply filter_iff_perm. intros t.
    rewrite !andb_true_iff, !key_matches_iff, Bs, Bp, Bo. naive_solver.
  - rewrite (node_list_den (p3 (osp x))) by (eapply index_pair_ok, Hx).
    rewrite <- (index_filter2 posO) by apply Hx. rewrite O2, filter_conj2, Do.
    apply filter_iff_perm. intros t.
    rewrite !andb_true_iff, !key_matches_iff, Bs, Bp, Bo. naive_solver.
  - rewrite (top_list_den (p2 (spo x)) (p3 (spo x))) by (eapply top_at_ok, Hx).
    rewrite <- (index_filter1 posS) by apply Hx.
    apply filter_iff_perm. intros t.
    rewrite !andb_true_iff, !key_matches_iff, Bs, Bp, Bo. naive_solver.
  - rewrite (node_list_den (p3 (pos x))) by (eapply index_pair_ok, Hx).
    rewrite <- (index_filter2 posP) by apply Hx. rewrite P2, filter_conj2, Dp.
    apply filter_iff_perm. intros t.
    rewrite !andb_true_iff, !key_matches_iff, Bs, Bp, Bo. naive_solver.
  - rewrite (top_list_den (p2 (pos x)) (p3 (pos x))) by (eapply top_at_ok, Hx).
    rewrite <- (index_filter1 posP) by apply Hx. rewrite Dp.
    apply filter_iff_perm. intros t.
    rewrite !andb_true_iff, !key_matches_iff, Bs, Bp, Bo. naive_solver.
  - rewrite (top_list_den (p2 (osp x)) (p3 (osp x))) by (eapply top_at_ok, Hx).
    rewrite <- (index_filter1 posO) by apply Hx. rewrite Do.
    apply filter_iff_perm. intros t.
    rewrite !andb_true_iff, !key_matches_iff, Bs, Bp, Bo. naive_solver.
  - rewrite (range_den posS) by apply Hx. rewrite filter_all; [done|].
    intros t. rewrite !andb_true_iff, !key_matches_iff, Bs, Bp, Bo. naive_solver.
Qed.
End each.

(** ** Counting *)

Section cardinality.
Context `{GoRange}.

Lemma node_len_den p3 n : node_ok p3 n ∨ n = MkNode None None → node_len n = length (node_den n).
Proof.
  intros [[[t ->]|(l & -> & [Hl _] & _)]| ->]; [done| |by rewrite (munion_empty _ : node_den (MkNode None None) = _)].
  unfold node_len, node_den, many_or_zero; cbn. by rewrite leaf_den_length, sm_len_size.
Qed.

Lemma foldl_len (l : list node) p3 c :
  Forall (node_ok p3) l → foldl (λ c n, c + node_len n) c l = c + length (mjoin (node_den <$> l)).
Proof.
  intros Hl. revert c. induction Hl as [|n l Hn _ IH]; intros c; cbn [foldl fmap list_fmap mjoin list_join].
  - cbn. lia.
  - rewrite IH, length_app, <- (node_len_den p3 n) by auto. symmetry. apply Nat.add_assoc.
Qed.

Lemma level_values_ok p2 p3 l : level_ok p2 p3 l → Forall (node_ok p3) (sm_values l).
Proof.
  intros [Hl Hk]. apply Forall_forall. intros n. rewrite sm_values_all, sm_all_perm by done.
  intros ([k m] & -> & Hin%elem_of_map_to_list)%list_elem_of_fmap. by apply (Hk k m).
Qed.

Lemma level_values_den p2 p3 l : level_ok p2 p3 l → mjoin (node_den <$> sm_values l) ≡ₚ level_den l.
Proof.
  intros [Hl _]. unfold level_den, munion. rewrite sm_values_all, sm_all_perm by done.
  by rewrite <- list_fmap_compose.
Qed.

Lemma top_len_den p2 p3 e : top_ok p2 p3 e ∨ e = MkTop None None → top_len e = length (top_den e).
Proof.
  intros [[[t ->]|(l & -> & Hl & _)]| ->]; [done| |by rewrite (munion_empty _ : top_den (MkTop None None) = _)].
  unfold top_len, top_den, many_or_zero; cbn.
  rewrite (foldl_len _ p3), (level_values_den p2 p3); [done|done|by eapply level_values_ok].
Qed.

Lemma cardinality_length x p : ti_ok x → cardinality x p = Z.of_nat (length (each_list x p)).
Proof.
  intros Hx. unfold cardinality, each_list.
  set (sk := OptTermKey _). set (pk := OptPredKey _). set (ok := OptTermKey (pat_Object p)).
  destruct (bound sk), (bound pk), (bound ok); cbn [andb].
  - by destruct (index_lookup (spo x) sk pk ok).
  - pose proof (index_pair_ok posS (spo x) sk pk (ok_spo x Hx)) as Hn.
    by rewrite (node_len_den _ _ Hn), (node_list_den _ _ Hn).
  - pose proof (index_pair_ok posO (osp x) ok sk (ok_osp x Hx)) as Hn.
    by rewrite (node_len_den _ _ Hn), (node_list_den _ _ Hn).
  - pose proof (top_at_ok posS (spo x) sk (ok_spo x Hx)) as Hn.
    by rewrite (top_len_den _ _ _ Hn), (top_list_den _ _ _ Hn).
  - pose proof (index_pair_ok posP (pos x) pk ok (ok_pos x Hx)) as Hn.
    by rewrite (node_len_den _ _ Hn), (node_list_den _ _ Hn).
  - pose proof (top_at_ok posP (pos x) pk (ok_pos x Hx)) as Hn.
    rewrite (top_list_den _ _ _ Hn), <- (index_filter1 posP), (ok_pos_den x Hx) by apply Hx.
    rewrite (ok_pred x Hx pk : _ = pred_count_of _ _). apply pred_count_default.
  - pose proof (top_at_ok posO (osp x) ok (ok_osp x Hx)) as Hn.
    by rewrite (top_len_den _ _ _ Hn), (top_list_den _ _ _ Hn).
  - rewrite (range_den posS) by apply Hx. apply (ok_count x Hx).
Qed.

(** ** Removing all matches *)

Lemma foldl_remove_ok l x :
  ti_ok x → ti_ok (foldl ti_remove x l) ∧
  triples (foldl ti_remove x l) ≡ₚ filter (λ u, tkey u ∉ tkey <$> l) (triples x).
Proof.
  revert x. induction l as [|t l IH]; intros x Hx; cbn [foldl].
  - split; [done|]. rewrite filter_all; [done|]. intros u. cbn. set_solver.
  - destruct (ti_remove_ok x t Hx) as [Hx' Hd]. destruct (IH _ Hx') as [H1 H2]. split; [done|].
    rewrite H2, Hd, list_filter_filter. apply filter_iff_perm. intros u. rewrite fmap_cons, not_elem_of_cons. tauto.
Qed.

Lemma pattern_matches_key p t t' : tkey t = tkey t' → pattern_matches p t = pattern_matches p t'.
Proof. unfold tkey, pattern_matches. rewrite !pair_eq. by intros [[-> ->] ->]. Qed.

Lemma removeMatching_ok x p :
  ti_ok x → ti_ok (removeMatching x p) ∧
  triples (removeMatching x p) ≡ₚ filter (λ t, pattern_matches p t = false) (triples x).
Proof.
  intros Hx. unfold removeMatching. rewrite each_drive, drive_keep. cbn [snd app].
  destruct (foldl_remove_ok (each_list x p) x Hx) as [H1 H2]. split; [done|]. rewrite H2.
  pose proof (each_list_filter x p Hx) as He. apply Permutation_sym.
  assert (Hiff : ∀ l : list Triple, (∀ t, t ∈ l → t ∈ triples x) →
    filter (λ u, tkey u ∉ tkey <$> each_list x p) l = filter (λ t, pattern_matches p t = false) l).
  { intros l. induction l as [|t l IH]; [done|]. intros Hl. rewrite !filter_cons.
    rewrite IH by (intros; apply Hl; set_solver). apply decide_ext.
    rewrite He, list_elem_of_fmap. split.
    - intros Hno. destruct (pattern_matches p t) eqn:E; [|done]. destruct Hno.
      exists t. split; [done|]. apply list_elem_of_filter. split; [done|]. apply Hl. set_solver.
    - intros Hf (t' & Hk & [Hm _]%list_elem_of_filter). rewrite (pattern_matches_key _ _ _ Hk) in Hf. congruence. }
  by rewrite Hiff.
Qed.
End cardinality.

(** ** The set of triples a graph stands for *)

Definition tkey_t : Type := string * string * string.

Definition content (x : tripleIndex) : gmap tkey_t Triple :=
  list_to_map ((λ t, (tkey t, t)) <$> triples x).

(** A set of triples by key. *)
Definition keyed (m : gmap tkey_t Triple) : Prop := ∀ k t, m !! k = Some t → tkey t = k.

Definition graph_triples (m : gmap tkey_t Triple) : list Triple := (map_to_list m).*2.

Definition matching (p : TriplePattern) (m : gmap tkey_t Triple) : gmap tkey_t Triple :=
  filter (λ kt, pattern_matches p kt.2 = true) m.
Definition not_matching (p : TriplePattern) (m : gmap tkey_t Triple) : gmap tkey_t Triple :=
  filter (λ kt, pattern_matches p kt.2 = false) m.

(** Adding keeps a triple already present. *)
Definition graph_add (m : gmap tkey_t Triple) (t : Triple) : gmap tkey_t Triple :=
  match m !! tkey t with Some _ => m | None => <[tkey t := t]> m end.

Section content.
Context `{GoRange}.
Implicit Types (x : tripleIndex) (t : Triple) (p : TriplePattern).

Lemma content_keys x : ((λ t, (tkey t, t)) <$> triples x).*1 = tkey <$> triples x.
Proof. rewrite <- list_fmap_compose. by apply list_fmap_ext. Qed.

Lemma content_lookup x k t : ti_ok x → content x !! k = Some t ↔ t ∈ triples x ∧ tkey t = k.
Proof.
  intros Hx. unfold content. rewrite <- elem_of_list_to_map by (rewrite content_keys; by apply triples_NoDup).
  rewrite list_elem_of_fmap. split.
  - intros (t' & [= -> ->] & Hin). done.
  - intros [Hin <-]. eauto.
Qed.

Lemma content_keyed x : ti_ok x → keyed (content x).
Proof. intros Hx k t [_ ?]%content_lookup; done. Qed.

Lemma content_perm x : ti_ok x → graph_triples (content x) ≡ₚ triples x.
Proof.
  intros Hx. unfold graph_triples, content. rewrite map_to_list_to_map.
  - rewrite <- list_fmap_compose. by rewrite list_fmap_id.
  - rewrite content_keys. by apply triples_NoDup.
Qed.

Lemma content_size x : ti_ok x → size (content x) = length (triples x).
Proof. intros Hx. rewrite <- (content_perm x Hx). unfold graph_triples. by rewrite length_fmap, length_map_to_list. Qed.

(** Two indices over the same triples stand for the same set. *)
Lemma content_eq x (m : gmap tkey_t Triple) :
  ti_ok x → (∀ k t, m !! k = Some t ↔ t ∈ triples x ∧ tkey t = k) → content x = m.
Proof. intros Hx Hm. apply map_eq. intros k. apply option_eq. intros t. by rewrite content_lookup, Hm. Qed.

Lemma content_new : content newTripleIndex = ∅.
Proof. unfold content. by rewrite (proj2 newTripleIndex_ok). Qed.

Lemma content_has x k : ti_ok x → k ∈ tkey <$> triples x ↔ is_Some (content x !! k).
Proof.
  intros Hx. rewrite list_elem_of_fmap. split.
  - intros (t & -> & Hin). exists t. by apply content_lookup.
  - intros [t [Hin <-]%content_lookup]; eauto.
Qed.

Lemma content_add x t : ti_ok x → content (ti_add x t) = graph_add (content x) t.
Proof.
  intros Hx. destruct (ti_add_ok x t Hx) as [Hx' Hp]. apply content_eq; [done|]. intros k u. rewrite Hp.
  unfold graph_add. pose proof (content_has x (tkey t) Hx) as Hh.
  destruct (content x !! tkey t) as [t'|] eqn:E.
  - rewrite decide_True by (apply Hh; eauto). by apply content_lookup.
  - rewrite decide_False by (intros [? ?]%Hh; congruence).
    rewrite lookup_insert_Some, content_lookup, elem_of_cons by done. split; [naive_solver|].
    intros [[->|Hin] <-]; [auto|]. right. split; [|done]. intros Heq.
    assert (content x !! tkey t = Some u) by (by apply content_lookup). congruence.
Qed.

Lemma content_remove x t : ti_ok x → content (ti_remove x t) = delete (tkey t) (content x).
Proof.
  intros Hx. destruct (ti_remove_ok x t Hx) as [Hx' Hp]. apply content_eq; [done|]. intros k u.
  rewrite Hp, list_elem_of_filter, lookup_delete_Some, content_lookup by done. naive_solver congruence.
Qed.

Lemma content_removeMatching x p : ti_ok x → content (removeMatching x p) = not_matching p (content x).
Proof.
  intros Hx. destruct (removeMatching_ok x p Hx) as [Hx' Hp]. apply content_eq; [done|]. intros k u.
  unfold not_matching.
  rewrite Hp, list_elem_of_filter, map_lookup_filter_Some, content_lookup by done. naive_solver.
Qed.

Lemma each_content x p : ti_ok x → each_list x p ≡ₚ graph_triples (matching p (content x)).
Proof.
  intros Hx. rewrite each_list_filter, <- (content_perm x Hx) by done. unfold graph_triples, matching.
  rewrite map_filter_alt. set (l := map_to_list (content x)). rewrite map_to_list_to_map.
  - induction l as [|[k t] l IH]; [done|]. rewrite fmap_cons, !filter_cons. cbn [snd].
    case_decide; cbn; by rewrite IH.
  - apply NoDup_fmap_fst.
    + intros i t1 t2 [_ H1]%list_elem_of_filter [_ H2]%list_elem_of_filter.
      apply elem_of_map_to_list in H1, H2. congruence.
    + apply NoDup_filter, NoDup_map_to_list.
Qed.

Lemma cardinality_content x p : ti_ok x → cardinality x p = Z.of_nat (size (matching p (content x))).
Proof.
  intros Hx. rewrite cardinality_length, each_content by done. unfold graph_triples.
  by rewrite length_fmap, length_map_to_list.
Qed.

Lemma has_content x t : ti_ok x → has x t = bool_decide (is_Some (content x !! tkey t)).
Proof. intros Hx. rewrite ti_has by done. apply bool_decide_ext. by apply content_has. Qed.

Lemma count_content x : ti_ok x → count x = Z.of_nat (size (content x)).
Proof. intros Hx. by rewrite (ok_count x Hx), content_size. Qed.
End content.

(** ** Properties *)

(** The operations that change a graph. *)
Inductive ti_op :=
| TiAdd (t : Triple)
| TiRemove (t : Triple)
| TiRemoveMatching (p : TriplePattern).

Section properties.
Context `{GoRange}.

Definition ti_step (x : tripleIndex) (o : ti_op) : tripleIndex :=
  match o with
  | TiAdd t => ti_add x t
  | TiRemove t => ti_remove x t
  | TiRemoveMatching p => removeMatching x p
  end.

Definition graph_step (m : gmap tkey_t Triple) (o : ti_op) : gmap tkey_t Triple :=
  match o with
  | TiAdd t => graph_add m t
  | TiRemove t => delete (tkey t) m
  | TiRemoveMatching p => not_matching p m
  end.

Lemma ti_step_ok x o : ti_ok x → ti_ok (ti_step x o) ∧ content (ti_step x o) = graph_step (content x) o.
Proof.
  intros Hx. destruct o as [t|t|p]; cbn [ti_step graph_step].
  - split; [by apply ti_add_ok|by apply content_add].
  - split; [by apply ti_remove_ok|by apply content_remove].
  - split; [by apply removeMatching_ok|by apply content_removeMatching].
Qed.

Lemma ti_run_ok ops x :
  ti_ok x → ti_ok (foldl ti_step x ops) ∧ content (foldl ti_step x ops) = foldl graph_step (content x) ops.
Proof.
  revert x. induction ops as [|o ops IH]; intros x Hx; [done|]. cbn [foldl].
  destruct (ti_step_ok x o Hx) as [Ho <-]. by apply IH.
Qed.

Lemma ti_new_run ops :
  ti_ok (foldl ti_step newTripleIndex ops) ∧
  content (foldl ti_step newTripleIndex ops) = foldl graph_step ∅ ops.
Proof. rewrite <- content_new. apply ti_run_ok, newTripleIndex_ok. Qed.

Lemma each_list_NoDup x p : ti_ok x → NoDup (each_list x p).
Proof.
  intros Hx. rewrite each_list_filter by done. apply NoDup_filter. eapply NoDup_fmap_1, triples_NoDup, Hx.
Qed.
End properties.

(** C22: whatever is added and removed, in whatever order, the three indices stay
    consistent: they hold the same triples, each under its own keys; every level
    and leaf that is not folded away holds at least two triples; [count] and
    [predCount] are exact, with no entry for a predicate without triples. *)
Theorem tripleIndex_invariant : ∀ `{GoRange} ops, ti_ok (foldl ti_step newTripleIndex ops).
Proof. intros R ops. apply ti_new_run. Qed.

(** C9: an index refines a set of triples keyed by their three term keys: adding,
    removing one and removing the matches of a pattern act as on the set, and
    [has] and [count] answer for the set. *)
Theorem tripleIndex_refines_set : ∀ `{GoRange} ops,
  let x := foldl ti_step newTripleIndex ops in
  let m := foldl graph_step ∅ ops in
  content x = m ∧
  (∀ t, has x t = bool_decide (is_Some (m !! tkey t))) ∧
  count x = Z.of_nat (size m).
Proof.
  intros R ops x m. destruct (ti_new_run ops) as [Hx Hm]. fold x in Hx, Hm. fold m in Hm. rewrite <- Hm.
  split_and!; [done| |by apply count_content]. intros t. by apply has_content.
Qed.

(** C23: whichever positions a pattern binds, and so whichever index answers it,
    [each] hands the consumer every matching triple exactly once, no other, and
    stops as soon as the consumer asks: it is the iteration over a
    duplicate-free list of the matches. *)
Theorem each_yields_matches : ∀ `{GoRange} ops p,
  let x := foldl ti_step newTripleIndex ops in
  ∃ l, NoDup l ∧ l ≡ₚ graph_triples (matching p (foldl graph_step ∅ ops)) ∧
    ∀ (S : Type) (yield : Yield S) (s : S), each x p yield s = drive l yield s.
Proof.
  intros R ops p x. destruct (ti_new_run ops) as [Hx Hm]. fold x in Hx, Hm. rewrite <- Hm.
  exists (each_list x p). split_and!; [by apply each_list_NoDup|by apply each_content|].
  intros S yield s. apply each_drive.
Qed.

(** C24: [cardinality], computed from index sizes, is the number of triples
    [each] yields for the same pattern. *)
Theorem cardinality_counts_matches : ∀ `{GoRange} ops p,
  let x := foldl ti_step newTripleIndex ops in
  cardinality x p = Z.of_nat (length (each x p keep []).2) ∧
  cardinality x p = Z.of_nat (size (matching p (foldl graph_step ∅ ops))).
Proof.
  intros R ops p x. destruct (ti_new_run ops) as [Hx Hm]. fold x in Hx, Hm. rewrite <- Hm. split.
  - rewrite each_drive, drive_keep. by apply cardinality_length.
  - by apply cardinality_content.
Qed.
