(* ===== verification/Store.v ===== *)
(** * The store contract

    [store/store.go] and [store/context.go]: the interface every backend
    implements, as a type class, and the dataset it promises to behave as.  A
    context's [Err()] at the start of a call is an argument of the call; an
    iterator is the list of the (value, error) pairs it passes to [yield] until it
    is told to stop. *)

From S2P Require Import Prelude GoStrings Term TripleIndex.
From stdpp Require Import options.

(** ** Contexts (graphs) *)

Definition DefaultGraphIRI : string := "urn:x-rdflib:default".
Definition DefaultGraph : URIRef := NewURIRefUnsafe DefaultGraphIRI.

Definition IsDefaultGraph (ctx : option Term) : bool :=
  match ctx with
  | None => true
  | Some (TURIRef u) => bool_decide (URIRef_value u = DefaultGraphIRI)
  | Some _ => false
  end.

(** The graph a term addresses: [None] is the default graph. *)
Definition graph_key (g : option Term) : option string :=
  if IsDefaultGraph g then None else Some (OptTermKey g).

(** ** Iterators *)

(** [ctx.Err()] when a call starts. *)
Definition Context : Type := option error.

Definition TripleIterator : Type := list (result Triple).
Definition TermIterator : Type := list (result Term).

Record NamespaceBinding := MkBinding { nb_Prefix : string; nb_Namespace : URIRef }.
Definition NamespaceIterator : Type := list (result NamespaceBinding).

Definition ErrorIterator {A} (err : error) : list (result A) := [Err err].

Record TermPair := MkPair { First : Term; Second : Term }.

(** ** The interface *)

Class Store (St : Type) := {
  Add : Context → Triple → option Term → St → result unit * St;
  AddN : Context → list Quad → St → result unit * St;
  Remove : Context → TriplePattern → option Term → St → result unit * St;
  Set_ : Context → Triple → option Term → St → result unit * St;
  Triples : Context → TriplePattern → option Term → St → TripleIterator;
  Len : Context → option Term → St → result Z;
  Contexts : Context → option Triple → St → TermIterator;
  Bind : Context → string → URIRef → St → result unit * St;
  Namespace : Context → string → St → result (URIRef * bool);
  Prefix : Context → URIRef → St → result (string * bool);
  Namespaces : Context → St → NamespaceIterator
}.

(** ** Datasets: what a store stands for *)

Definition gcontent : Type := gmap tkey_t Triple.

(** A named graph exists exactly while it holds triples; its name is the term it
    was created with. *)
Record dataset := MkDataset { ds_default : gcontent; ds_named : gmap string (Term * gcontent) }.

Definition ds_graph (d : dataset) (g : option Term) : gcontent :=
  match graph_key g with
  | None => ds_default d
  | Some k => default ∅ (snd <$> ds_named d !! k)
  end.

(** Replace the content of a graph; an emptied named graph disappears. *)
Definition ds_update (d : dataset) (g : option Term) (m : gcontent) : dataset :=
  match graph_key g, g with
  | Some k, Some name =>
      let name := default name (fst <$> ds_named d !! k) in
      MkDataset (ds_default d)
        (if decide (m = ∅) then delete k (ds_named d) else <[k := (name, m)]> (ds_named d))
  | _, _ => MkDataset m (ds_named d)
  end.

(** The pattern [(s, p, any)] of a [Set]. *)
Definition set_pattern (t : Triple) : TriplePattern := MkPattern (Some (Subject t)) (Some (Predicate t)) None.

Inductive ds_op :=
| DsAdd (t : Triple) (g : option Term)
| DsSet (t : Triple) (g : option Term)
| DsAddN (qs : list Quad)
| DsRemove (p : TriplePattern) (g : option Term).

Definition ds_add (d : dataset) (t : Triple) (g : option Term) : dataset :=
  ds_update d g (graph_add (ds_graph d g) t).

Definition ds_step (d : dataset) (o : ds_op) : dataset :=
  match o with
  | DsAdd t g => ds_add d t g
  | DsSet t g => ds_update d g (graph_add (not_matching (set_pattern t) (ds_graph d g)) t)
  | DsAddN qs => foldl (λ d q, ds_add d (quad_Triple q) (Graph q)) d qs
  | DsRemove p g => ds_update d g (not_matching p (ds_graph d g))
  end.

Definition ds_run (ops : list ds_op) : dataset := foldl ds_step (MkDataset ∅ ∅) ops.

(** The same operation on a store. *)
Definition store_step `{Store St} (ctx : Context) (s : St) (o : ds_op) : result unit * St :=
  match o with
  | DsAdd t g => Add ctx t g s
  | DsSet t g => Set_ ctx t g s
  | DsAddN qs => AddN ctx qs s
  | DsRemove p g => Remove ctx p g s
  end.

(** Names of the graphs, or of those that contain a triple. *)
Definition contains (t : option Triple) (m : gcontent) : bool :=
  match t with
  | None => true
  | Some t => bool_decide (is_Some (m !! tkey t))
  end.

Definition ds_names (d : dataset) (t : option Triple) : list Term :=
  (λ kg : string * (Term * gcontent), kg.2.1) <$>
    filter (λ kg : string * (Term * gcontent), contains t kg.2.2 = true) (map_to_list (ds_named d)).

(** ** The contract

    [sinv] holds of every store a client can reach and [sabs] is the dataset it
    stands for.  With a done context every call returns the context's error and
    changes nothing. *)
Class StoreLaws (St : Type) `{Store St} := {
  sinv : St → Prop;
  sabs : St → dataset;
  graphs_keyed : ∀ s g, sinv s → keyed (ds_graph (sabs s) g);
  names_keyed : ∀ s k t m, sinv s → ds_named (sabs s) !! k = Some (t, m) → graph_key (Some t) = Some k ∧ m ≠ ∅;
  step_ok : ∀ s o, sinv s → ∃ s', store_step None s o = (Ok tt, s') ∧ sinv s' ∧ sabs s' = ds_step (sabs s) o;
  step_done : ∀ s o e, store_step (Some e) s o = (Err e, s);
  triples_ok : ∀ s p g, sinv s →
    ∃ l, Triples None p g s = Ok <$> l ∧ NoDup l ∧ l ≡ₚ graph_triples (matching p (ds_graph (sabs s) g));
  triples_done : ∀ s p g e, Triples (Some e) p g s = ErrorIterator e;
  len_ok : ∀ s g, sinv s → Len None g s = Ok (Z.of_nat (size (ds_graph (sabs s) g)));
  len_done : ∀ s g e, Len (Some e) g s = Err e;
  contexts_ok : ∀ s t, sinv s → ∃ l, Contexts None t s = Ok <$> l ∧ l ≡ₚ ds_names (sabs s) t;
  contexts_done : ∀ s t e, Contexts (Some e) t s = ErrorIterator e;
  bind_ok : ∀ s p u, sinv s → ∃ s', Bind None p u s = (Ok tt, s') ∧ sinv s' ∧ sabs s' = sabs s ∧
    Namespace None p s' = Ok (u, true) ∧ Prefix None u s' = Ok (p, true)
}.

(** ** Datasets: isolation and the default graph *)

Lemma ds_graph_default d g : IsDefaultGraph g = true → ds_graph d g = ds_default d.
Proof. unfold ds_graph, graph_key. by intros ->. Qed.

Lemma graph_key_Some g k : graph_key g = Some k → ∃ t, g = Some t ∧ k = TermKey t ∧ IsDefaultGraph g = false.
Proof.
  unfold graph_key. destruct (IsDefaultGraph g) eqn:E; [done|]. intros [= <-]. destruct g as [t|]; [|done]. eauto.
Qed.

Lemma graph_key_None g : graph_key g = None ↔ IsDefaultGraph g = true.
Proof. unfold graph_key. destruct (IsDefaultGraph g); done. Qed.

Lemma ds_update_same d g m : ds_graph (ds_update d g m) g = m.
Proof.
  unfold ds_update, ds_graph. destruct (graph_key g) as [k|] eqn:E; [|done].
  destruct (graph_key_Some g k E) as (t & -> & -> & _). cbn [ds_named].
  destruct (decide (m = ∅)) as [->|]; [by rewrite lookup_delete_eq|by rewrite lookup_insert_eq].
Qed.

Lemma ds_update_other d g g' m : graph_key g ≠ graph_key g' → ds_graph (ds_update d g m) g' = ds_graph d g'.
Proof.
  unfold ds_update, ds_graph. intros Hne. destruct (graph_key g) as [k|] eqn:E.
  - destruct (graph_key_Some g k E) as (t & -> & -> & _). cbn [ds_named].
    destruct (graph_key g') as [k'|]; [|done].
    destruct (decide (m = ∅)); [rewrite lookup_delete_ne|rewrite lookup_insert_ne]; congruence.
  - destruct (graph_key g') as [k'|]; [|done]. by destruct g.
Qed.

(** The graphs an operation writes to. *)
Definition op_graphs (o : ds_op) : list (option string) :=
  match o with
  | DsAdd _ g | DsSet _ g | DsRemove _ g => [graph_key g]
  | DsAddN qs => (λ q, graph_key (Graph q)) <$> qs
  end.

Lemma ds_step_other d o g : graph_key g ∉ op_graphs o → ds_graph (ds_step d o) g = ds_graph d g.
Proof.
  destruct o as [t h|t h|qs|p h]; cbn [op_graphs ds_step]; intros Hg;
    try (apply ds_update_other; set_solver).
  revert d Hg. induction qs as [|q qs IH]; intros d Hg; [done|]. cbn [foldl]. rewrite fmap_cons in Hg.
  rewrite IH by set_solver. apply ds_update_other. set_solver.
Qed.
