(* ===== verification/MemoryStore.v ===== *)
(** * The in-memory store

    [store/memory.go]: one [tripleIndex] for the default graph and one per named
    graph.  Every method holds the store's lock from its first access to its
    return (an iterator from its first item to its last), so a method is one atomic
    step on the state.  The file discharges the store contract of [Store]. *)

From S2P Require Import Prelude GoStrings Strconv Term Decode TermKey TripleIndex Store.
From stdpp Require Import options.

(** ** The code *)

Record namedGraph := MkNamedGraph { ng_name : Term; ng_idx : tripleIndex }.

Record MemoryStore := MkMemoryStore {
  def : tripleIndex;
  named : gmap string namedGraph;
  nsPrefix : gmap string URIRef;
  nsURI : gmap string string
}.

Definition NewMemoryStore : MemoryStore := MkMemoryStore newTripleIndex ∅ ∅ ∅.

Definition ContextAware (m : MemoryStore) : bool := true.
Definition TransactionAware (m : MemoryStore) : bool := false.

Definition isDefaultContext (ctx : option Term) : bool := IsDefaultGraph ctx.

(** The graph addressed by [ctx] for reading. *)
Definition ms_index (m : MemoryStore) (ctx : option Term) : option tripleIndex :=
  if isDefaultContext ctx then Some (def m)
  else ng_idx <$> named m !! OptTermKey ctx.

(** [writeIndex] creates a named graph that is not there, and returns a pointer to
    its index; [put_index] is a write through that pointer. *)
Definition writeIndex (m : MemoryStore) (ctx : option Term) : tripleIndex * MemoryStore :=
  match ctx with
  | Some name =>
      if isDefaultContext ctx then (def m, m)
      else
        let k := TermKey name in
        match named m !! k with
        | Some g => (ng_idx g, m)
        | None =>
            (newTripleIndex,
             MkMemoryStore (def m) (<[k := MkNamedGraph name newTripleIndex]> (named m)) (nsPrefix m) (nsURI m))
        end
  | None => (def m, m)
  end.

Definition put_index (m : MemoryStore) (ctx : option Term) (idx : tripleIndex) : MemoryStore :=
  if isDefaultContext ctx then MkMemoryStore idx (named m) (nsPrefix m) (nsURI m)
  else
    MkMemoryStore (def m) (alter (λ g, MkNamedGraph (ng_name g) idx) (OptTermKey ctx) (named m))
      (nsPrefix m) (nsURI m).

Definition dropIfEmpty (m : MemoryStore) (ctx : option Term) : MemoryStore :=
  if isDefaultContext ctx then m
  else
    let k := OptTermKey ctx in
    match named m !! k with
    | Some g => if (count (ng_idx g) =? 0)%Z then MkMemoryStore (def m) (delete k (named m)) (nsPrefix m) (nsURI m) else m
    | None => m
    end.

(** [m.writeIndex(graph).add(t)]. *)
Definition write_add (m : MemoryStore) (t : Triple) (graph : option Term) : MemoryStore :=
  let '(idx, m) := writeIndex m graph in put_index m graph (ti_add idx t).

Section methods.
Context `{GoRange}.

(** A call made with a done context returns its error. *)
Definition guard_ctx (ctx : Context) (m m' : MemoryStore) : result unit * MemoryStore :=
  match ctx with
  | Some err => (Err err, m)
  | None => (Ok tt, m')
  end.

Definition ms_Add (ctx : Context) (t : Triple) (graph : option Term) (m : MemoryStore) : result unit * MemoryStore :=
  guard_ctx ctx m (write_add m t graph).

Definition ms_Set (ctx : Context) (t : Triple) (graph : option Term) (m : MemoryStore) : result unit * MemoryStore :=
  guard_ctx ctx m
    (let '(idx, m) := writeIndex m graph in
     put_index m graph (ti_add (removeMatching idx (MkPattern (Some (Subject t)) (Some (Predicate t)) None)) t)).

Definition ms_AddN (ctx : Context) (quads : list Quad) (m : MemoryStore) : result unit * MemoryStore :=
  guard_ctx ctx m (foldl (λ m q, write_add m (quad_Triple q) (Graph q)) m quads).

Definition ms_Remove (ctx : Context) (pattern : TriplePattern) (graph : option Term) (m : MemoryStore)
    : result unit * MemoryStore :=
  guard_ctx ctx m
    (match ms_index m graph with
     | None => m
     | Some idx => dropIfEmpty (put_index m graph (removeMatching idx pattern)) graph
     end).

Definition ms_Triples (ctx : Context) (pattern : TriplePattern) (graph : option Term) (m : MemoryStore)
    : TripleIterator :=
  match ctx with
  | Some err => ErrorIterator err
  | None => match ms_index m graph with
            | Some idx => Ok <$> (each idx pattern keep []).2
            | None => []
            end
  end.

Definition ms_Len (ctx : Context) (graph : option Term) (m : MemoryStore) : result Z :=
  match ctx with
  | Some err => Err err
  | None => match ms_index m graph with
            | Some idx => Ok (count idx)
            | None => Ok 0%Z
            end
  end.

Definition ms_Contexts (ctx : Context) (triple : option Triple) (m : MemoryStore) : TermIterator :=
  match ctx with
  | Some err => ErrorIterator err
  | None =>
      foldr (λ kg acc,
        if match triple with Some t => negb (has (ng_idx kg.2) t) | None => false end then acc
        else Ok (ng_name kg.2) :: acc) [] (range (named m))
  end.

Definition ms_Bind (ctx : Context) (prefix : string) (namespace : URIRef) (m : MemoryStore)
    : result unit * MemoryStore :=
  guard_ctx ctx m
    (MkMemoryStore (def m) (named m) (<[prefix := namespace]> (nsPrefix m))
       (<[URIRef_value namespace := prefix]> (nsURI m))).

Definition ms_Namespace (ctx : Context) (prefix : string) (m : MemoryStore) : result (URIRef * bool) :=
  match ctx with
  | Some err => Err err
  | None => match nsPrefix m !! prefix with
            | Some ns => Ok (ns, true)
            | None => Ok (URIRef_zero, false)
            end
  end.

Definition ms_Prefix (ctx : Context) (namespace : URIRef) (m : MemoryStore) : result (string * bool) :=
  match ctx with
  | Some err => Err err
  | None => match nsURI m !! URIRef_value namespace with
            | Some p => Ok (p, true)
            | None => Ok (EmptyString, false)
            end
  end.

Definition ms_Namespaces (ctx : Context) (m : MemoryStore) : NamespaceIterator :=
  match ctx with
  | Some err => ErrorIterator err
  | None => (λ pn, Ok (MkBinding pn.1 pn.2)) <$> range (nsPrefix m)
  end.

(** The consumer of [TriplesWithLimit]: [skipped], [yielded] and what the caller's
    [yield] has received. *)
Definition limit_yield (limit offset : Z) : Yield (Z * Z * list Triple) := λ t '(skipped, yielded, acc),
  if (skipped <? offset)%Z then (true, ((skipped + 1)%Z, yielded, acc))
  else if (0 <? limit)%Z && (limit <=? yielded)%Z then (false, (skipped, yielded, acc))
  else (true, (skipped, (yielded + 1)%Z, acc ++ [t])).

Definition TriplesWithLimit (ctx : Context) (pattern : TriplePattern) (graph : option Term) (limit offset : Z)
    (m : MemoryStore) : TripleIterator :=
  match ctx with
  | Some err => ErrorIterator err
  | None => match ms_index m graph with
            | None => []
            | Some idx => Ok <$> (each idx pattern (limit_yield limit offset) (0%Z, 0%Z, [])).2.2
            end
  end.

Definition Cardinality (ctx : Context) (pattern : TriplePattern) (graph : option Term) (m : MemoryStore) : result Z :=
  match ctx with
  | Some err => Err err
  | None => match ms_index m graph with
            | Some idx => Ok (cardinality idx pattern)
            | None => Ok 0%Z
            end
  end.

Definition Count (ctx : Context) (pattern : TriplePattern) (graph : option Term) (m : MemoryStore) : result Z :=
  Cardinality ctx pattern graph m.

Definition Exists_ (ctx : Context) (pattern : TriplePattern) (graph : option Term) (m : MemoryStore) : result bool :=
  match ctx with
  | Some err => Err err
  | None => match ms_index m graph with
            | None => Ok false
            | Some idx => Ok (each idx pattern (λ _ _, (false, true)) false).2
            end
  end.

#[export] Instance MemoryStore_Store : Store MemoryStore := {|
  Add := ms_Add;
  AddN := ms_AddN;
  Remove := ms_Remove;
  Set_ := ms_Set;
  Triples := ms_Triples;
  Len := ms_Len;
  Contexts := ms_Contexts;
  Bind := ms_Bind;
  Namespace := ms_Namespace;
  Prefix := ms_Prefix;
  Namespaces := ms_Namespaces
|}.
End methods.

(** ** The invariant and the dataset of a store *)

Definition named_ok (k : string) (g : namedGraph) : Prop :=
  ti_ok (ng_idx g) ∧ content (ng_idx g) ≠ ∅ ∧ TermKey (ng_name g) = k ∧ IsDefaultGraph (Some (ng_name g)) = false.

Record ms_ok (m : MemoryStore) : Prop := {
  ms_ok_def : ti_ok (def m);
  ms_ok_named : ∀ k g, named m !! k = Some g → named_ok k g
}.

Definition ng_abs (g : namedGraph) : Term * gcontent := (ng_name g, content (ng_idx g)).
Definition ms_abs (m : MemoryStore) : dataset := MkDataset (content (def m)) (ng_abs <$> named m).

Lemma NewMemoryStore_ok : ms_ok NewMemoryStore ∧ ms_abs NewMemoryStore = MkDataset ∅ ∅.
Proof.
  split; [split; [apply newTripleIndex_ok|done]|].
  unfold ms_abs; cbn. by rewrite content_new, fmap_empty.
Qed.

Section theory.
Context `{GoRange}.
Implicit Types (m : MemoryStore) (g : option Term).

(** Reading a graph. *)
Lemma ms_index_content m g :
  ms_ok m → match ms_index m g with
            | Some idx => ti_ok idx ∧ content idx = ds_graph (ms_abs m) g
            | None => ds_graph (ms_abs m) g = ∅
            end.
Proof.
  intros [Hd Hn]. unfold ms_index, ds_graph, graph_key, isDefaultContext.
  destruct (IsDefaultGraph g); [done|]. cbn [ms_abs ds_named]. rewrite lookup_fmap.
  destruct (named m !! OptTermKey g) as [ng|] eqn:E; cbn; [|done]. split; [by apply (Hn _ _ E)|done].
Qed.

(** Writing a graph: after [writeIndex], an index with some content is put back. *)
Lemma put_writeIndex m g idx' :
  ms_ok m → ti_ok idx' → content idx' ≠ ∅ →
  let m' := put_index (writeIndex m g).2 g idx' in
  ms_ok m' ∧ ms_abs m' = ds_update (ms_abs m) g (content idx').
Proof.
  intros [Hd Hn] Hi Hne. unfold writeIndex, put_index, ds_update, graph_key, isDefaultContext.
  destruct g as [name|]; [|by split].
  destruct (IsDefaultGraph (Some name)) eqn:E; [by split|]. cbn [OptTermKey ms_abs ds_named ds_default].
  remember (TermKey name) as k eqn:Hkn. rewrite decide_False by done. rewrite lookup_fmap.
  destruct (named m !! k) as [ng|] eqn:Ek; cbn [snd named def ms_abs].
  - destruct (Hn _ _ Ek) as (_ & _ & Hk & Hdef). split; [split; [done|]|].
    + intros k' g'. cbn [named]. rewrite lookup_alter_Some. intros [(-> & g0 & Hg0 & ->)|[_ ?]]; [|by apply Hn].
      rewrite Ek in Hg0. injection Hg0 as <-. unfold named_ok; cbn [ng_idx ng_name]; by rewrite Hk.
    + unfold ms_abs; cbn. f_equal. apply map_eq. intros k'. rewrite lookup_fmap.
      destruct (decide (k = k')) as [<-|Hkk].
      * by rewrite lookup_alter_eq, lookup_insert_eq, Ek.
      * by rewrite lookup_alter_ne, lookup_insert_ne, lookup_fmap.
  - split; [split; [done|]|].
    + intros k' g'. cbn [named]. rewrite lookup_alter_Some.
      intros [(-> & g0 & Hg0 & ->)|[Hkk Hg]].
      * rewrite lookup_insert_eq in Hg0. injection Hg0 as <-. unfold named_ok; cbn [ng_idx ng_name]; by split_and!.
      * rewrite lookup_insert_ne in Hg by done. by apply Hn.
    + unfold ms_abs; cbn. f_equal. apply map_eq. intros k'. rewrite lookup_fmap.
      destruct (decide (k = k')) as [<-|Hkk].
      * by rewrite lookup_alter_eq, !lookup_insert_eq.
      * by rewrite lookup_alter_ne, !lookup_insert_ne, lookup_fmap.
Qed.

Lemma writeIndex_index m g :
  ms_ok m → ti_ok (writeIndex m g).1 ∧ content (writeIndex m g).1 = ds_graph (ms_abs m) g.
Proof.
  intros Hm. pose proof (ms_index_content m g Hm) as Hi. unfold ms_index, writeIndex in *.
  destruct g as [name|]; [|done]. destruct (isDefaultContext (Some name)); [done|]. cbn [OptTermKey] in Hi.
  destruct (named m !! TermKey name); cbn [fst fmap option_fmap option_map] in *; [done|].
  split; [apply newTripleIndex_ok|]. by rewrite content_new, Hi.
Qed.

Lemma graph_add_ne d t : graph_add d t ≠ ∅.
Proof.
  unfold graph_add. destruct (d !! tkey t) as [t'|] eqn:E.
  - intros ->. by rewrite lookup_empty in E.
  - apply insert_non_empty.
Qed.

Lemma write_add_ok m t g :
  ms_ok m → ms_ok (write_add m t g) ∧ ms_abs (write_add m t g) = ds_add (ms_abs m) t g.
Proof.
  intros Hm. destruct (writeIndex_index m g Hm) as [Hi Hc]. unfold write_add.
  destruct (put_writeIndex m g (ti_add (writeIndex m g).1 t) Hm) as [H1 H2].
  - by apply ti_add_ok.
  - rewrite content_add by done. apply graph_add_ne.
  - destruct (writeIndex m g) as [idx m'] eqn:E. cbn [fst snd] in *. split; [done|].
    by rewrite H2, content_add, Hc.
Qed.

Lemma ms_set_ok m t g :
  ms_ok m → ∃ m', ms_Set None t g m = (Ok tt, m') ∧ ms_ok m' ∧ ms_abs m' = ds_step (ms_abs m) (DsSet t g).
Proof.
  intros Hm. destruct (writeIndex_index m g Hm) as [Hi Hc].
  unfold ms_Set, guard_ctx. fold (set_pattern t).
  pose proof (proj1 (removeMatching_ok _ (set_pattern t) Hi)) as Hr.
  destruct (put_writeIndex m g (ti_add (removeMatching (writeIndex m g).1 (set_pattern t)) t) Hm) as [H1 H2].
  - by apply ti_add_ok.
  - rewrite content_add by done. apply graph_add_ne.
  - destruct (writeIndex m g) as [idx m'] eqn:E. cbn [fst snd] in *. eexists. split; [done|]. split; [done|].
    rewrite H2, content_add, content_removeMatching, Hc by done. done.
Qed.

Lemma ms_addN_ok m qs :
  ms_ok m → ms_ok (foldl (λ m q, write_add m (quad_Triple q) (Graph q)) m qs) ∧
  ms_abs (foldl (λ m q, write_add m (quad_Triple q) (Graph q)) m qs) = ds_step (ms_abs m) (DsAddN qs).
Proof.
  cbn [ds_step]. revert m. induction qs as [|q qs IH]; intros m Hm; [done|]. cbn [foldl].
  destruct (write_add_ok m (quad_Triple q) (Graph q) Hm) as [Hm' <-]. by apply IH.
Qed.
End theory.

Section laws.
Context `{GoRange}.
Implicit Types (m : MemoryStore) (g : option Term).

Lemma content_empty_count x : ti_ok x → (count x =? 0)%Z = bool_decide (content x = ∅).
Proof.
  intros Hx. rewrite count_content by done. case_bool_decide as E.
  - by rewrite E, map_size_empty.
  - apply Z.eqb_neq. intros H0. apply E, map_size_empty_inv. lia.
Qed.

Lemma not_matching_empty p : not_matching p ∅ = ∅.
Proof. apply map_filter_empty. Qed.

(** Putting back an index that is there and dropping it when it became empty. *)
Lemma put_drop m g idx idx' :
  ms_ok m → ms_index m g = Some idx → ti_ok idx' →
  let m' := dropIfEmpty (put_index m g idx') g in
  ms_ok m' ∧ ms_abs m' = ds_update (ms_abs m) g (content idx').
Proof.
  intros [Hd Hn] Hidx Hi. unfold dropIfEmpty, put_index, ms_index, ds_update, graph_key, isDefaultContext in *.
  destruct (IsDefaultGraph g) eqn:E; [by destruct g; split|].
  destruct g as [name|]; [|done]. cbn [OptTermKey ms_abs ds_named ds_default named] in *.
  remember (TermKey name) as k eqn:Hkn. destruct (named m !! k) as [ng|] eqn:Ek; [|done]. clear Hidx.
  rewrite lookup_alter_eq, Ek, lookup_fmap, Ek. cbn [fmap option_fmap option_map ng_idx from_option id ng_abs fst].
  rewrite content_empty_count by done. destruct (Hn _ _ Ek) as (_ & _ & Hk & Hdef).
  case_bool_decide as E0; [rewrite decide_True by done|rewrite decide_False by done].
  - split; [split; [done|]|].
    + intros k' g'. cbn [named]. rewrite lookup_delete_Some, lookup_alter_Some. naive_solver.
    + unfold ms_abs; cbn. f_equal. apply map_eq. intros k'. rewrite lookup_fmap.
      destruct (decide (k = k')) as [<-|Hkk]; [by rewrite !lookup_delete_eq|].
      by rewrite !lookup_delete_ne, lookup_alter_ne, lookup_fmap.
  - split; [split; [done|]|].
    + intros k' g'. cbn [named]. rewrite lookup_alter_Some. intros [(<- & g0 & Hg0 & ->)|[_ ?]]; [|by apply Hn].
      rewrite Ek in Hg0. injection Hg0 as <-. unfold named_ok; cbn [ng_idx ng_name]. by split_and!.
    + unfold ms_abs; cbn. f_equal. apply map_eq. intros k'. rewrite lookup_fmap.
      destruct (decide (k = k')) as [<-|Hkk]; [by rewrite lookup_alter_eq, lookup_insert_eq, Ek|].
      by rewrite lookup_alter_ne, lookup_insert_ne, lookup_fmap.
Qed.

(** Removing from a named graph that is not there changes nothing. *)
Lemma ds_update_absent m g :
  ms_index m g = None → ds_update (ms_abs m) g ∅ = ms_abs m.
Proof.
  unfold ms_index, ds_update, graph_key, isDefaultContext. destruct (IsDefaultGraph g) eqn:E; [done|].
  destruct g as [name|]; [|done]. cbn [OptTermKey ms_abs ds_named ds_default].
  destruct (named m !! TermKey name) eqn:Ek; [done|]. intros _. rewrite decide_True by done.
  unfold ms_abs. f_equal. apply delete_id. by rewrite lookup_fmap, Ek.
Qed.

Lemma ms_remove_ok m p g :
  ms_ok m → ∃ m', ms_Remove None p g m = (Ok tt, m') ∧ ms_ok m' ∧ ms_abs m' = ds_step (ms_abs m) (DsRemove p g).
Proof.
  intros Hm. unfold ms_Remove, guard_ctx. pose proof (ms_index_content m g Hm) as Hi. cbn [ds_step].
  destruct (ms_index m g) as [idx|] eqn:E.
  - destruct Hi as [Hi Hc]. pose proof (proj1 (removeMatching_ok idx p Hi)) as Hr.
    destruct (put_drop m g idx _ Hm E Hr) as [H1 H2]. eexists. split; [done|]. split; [done|].
    by rewrite H2, content_removeMatching, Hc.
  - eexists. split; [done|]. split; [done|]. by rewrite Hi, not_matching_empty, ds_update_absent.
Qed.

Lemma ms_step_ok m o :
  ms_ok m → ∃ m', store_step None m o = (Ok tt, m') ∧ ms_ok m' ∧ ms_abs m' = ds_step (ms_abs m) o.
Proof.
  intros Hm. destruct o as [t g|t g|qs|p g].
  - eexists. split; [done|]. by apply write_add_ok.
  - by apply ms_set_ok.
  - eexists. split; [done|]. by apply ms_addN_ok.
  - by apply ms_remove_ok.
Qed.

Lemma matching_empty p : matching p ∅ = ∅.
Proof. apply map_filter_empty. Qed.

Lemma ms_triples_ok m p g :
  ms_ok m → ∃ l, ms_Triples None p g m = Ok <$> l ∧ NoDup l ∧ l ≡ₚ graph_triples (matching p (ds_graph (ms_abs m) g)).
Proof.
  intros Hm. pose proof (ms_index_content m g Hm) as Hi. unfold ms_Triples.
  destruct (ms_index m g) as [idx|].
  - destruct Hi as [Hi <-]. exists (each_list idx p). rewrite each_drive, drive_keep. cbn [snd app].
    split_and!; [done|by apply each_list_NoDup|by apply each_content].
  - exists []. rewrite Hi, matching_empty. split_and!; [done|constructor|done].
Qed.

Lemma ms_len_ok m g : ms_ok m → ms_Len None g m = Ok (Z.of_nat (size (ds_graph (ms_abs m) g))).
Proof.
  intros Hm. pose proof (ms_index_content m g Hm) as Hi. unfold ms_Len. destruct (ms_index m g) as [idx|].
  - destruct Hi as [Hi <-]. by rewrite count_content.
  - by rewrite Hi.
Qed.

(** What [Contexts] yields is a filter of the named graphs. *)
Lemma ms_contexts_filter m t :
  (∀ k ng, named m !! k = Some ng → named_ok k ng) →
  ms_Contexts None t m = Ok <$> ((λ kg : string * namedGraph, ng_name kg.2) <$>
    filter (λ kg : string * namedGraph, contains t (content (ng_idx kg.2)) = true) (range (named m))).
Proof.
  intros Hn. unfold ms_Contexts.
  assert (Hl : Forall (λ kg : string * namedGraph, ti_ok (ng_idx kg.2)) (range (named m))).
  { apply Forall_forall. intros [k ng]. rewrite range_perm. intros Hin%elem_of_map_to_list. by apply (Hn k ng). }
  induction Hl as [|[k ng] l Hk _ IH]; [done|]. cbn [foldr snd]. rewrite IH, filter_cons. cbn [snd] in *.
  assert (Hc : match t with Some t => negb (has (ng_idx ng) t) | None => false end
               = negb (contains t (content (ng_idx ng)))).
  { destruct t as [t|]; [|done]. rewrite has_content by done. done. }
  rewrite Hc. by destruct (contains t (content (ng_idx ng))).
Qed.

Lemma ms_contexts_ok m t :
  ms_ok m → ∃ l, ms_Contexts None t m = Ok <$> l ∧ l ≡ₚ ds_names (ms_abs m) t.
Proof.
  intros [_ Hn]. eexists. split; [by apply ms_contexts_filter|]. unfold ds_names. cbn [ms_abs ds_named].
  rewrite range_perm, map_to_list_fmap. induction (map_to_list (named m)) as [|[k ng] l IH]; [done|].
  rewrite fmap_cons, !filter_cons. cbn [prod_map fst snd ng_abs].
  destruct (decide (contains t (content (ng_idx ng)) = true)); cbn; by rewrite IH.
Qed.

Lemma ms_bind_ok m p u :
  ms_ok m → ∃ m', ms_Bind None p u m = (Ok tt, m') ∧ ms_ok m' ∧ ms_abs m' = ms_abs m ∧
    ms_Namespace None p m' = Ok (u, true) ∧ ms_Prefix None u m' = Ok (p, true).
Proof.
  intros Hm. eexists. split; [done|]. split_and!; [by destruct Hm|done| |].
  - unfold ms_Namespace; cbn. by rewrite lookup_insert_eq.
  - unfold ms_Prefix; cbn. by rewrite lookup_insert_eq.
Qed.

Lemma ms_graphs_keyed m g : ms_ok m → keyed (ds_graph (ms_abs m) g).
Proof.
  intros Hm. pose proof (ms_index_content m g Hm) as Hi. destruct (ms_index m g).
  - destruct Hi as [Hi <-]. by apply content_keyed.
  - by rewrite Hi.
Qed.

Lemma ms_names_keyed m k t c : ms_ok m → ds_named (ms_abs m) !! k = Some (t, c) → graph_key (Some t) = Some k ∧ c ≠ ∅.
Proof.
  intros [_ Hn]. cbn [ms_abs ds_named]. rewrite lookup_fmap. intros (g & Hg & He)%fmap_Some. injection He as -> ->.
  destruct (Hn _ _ Hg) as (_ & Hne & Hk & Hd). unfold graph_key. rewrite Hd. cbn [OptTermKey]. by rewrite Hk.
Qed.

#[export] Instance MemoryStore_Laws : StoreLaws MemoryStore.
Proof.
  refine {| sinv := ms_ok; sabs := ms_abs |}; try done.
  - apply ms_graphs_keyed.
  - apply ms_names_keyed.
  - apply ms_step_ok.
  - by intros m [].
  - apply ms_triples_ok.
  - apply ms_len_ok.
  - apply ms_contexts_ok.
  - apply ms_bind_ok.
Defined.
End laws.

(** ** Pages *)

Section pages.
Context `{GoRange}.

(** The page of a list: skip [offset], then up to [limit] unless it is not
    positive; a negative offset skips nothing. *)
Definition page {A} (limit offset : Z) (l : list A) : list A :=
  let rest := drop (Z.to_nat offset) l in
  if (0 <? limit)%Z then take (Z.to_nat limit) rest else rest.

Lemma limit_yield_taking limit offset l : ∀ skipped yielded acc,
  (offset <= skipped)%Z → (0 <= yielded)%Z →
  (drive l (limit_yield limit offset) (skipped, yielded, acc)).2.2 =
  acc ++ if (0 <? limit)%Z then take (Z.to_nat (limit - yielded)) l else l.
Proof.
  induction l as [|t l IH]; intros skipped yielded acc Hs Hy; cbn [drive].
  - cbn. case_match; by rewrite ?take_nil, app_nil_r.
  - unfold limit_yield at 1. rewrite (proj2 (Z.ltb_ge _ _) Hs).
    destruct (Z.ltb_spec 0 limit) as [Hl|Hl]; cbn [andb].
    + destruct (Z.leb_spec limit yielded) as [Hd|Hd]; cbn [snd].
      * replace (Z.to_nat (limit - yielded)) with 0 by lia. by rewrite app_nil_r.
      * rewrite IH, <- app_assoc by lia. f_equal.
        replace (Z.to_nat (limit - yielded)) with (S (Z.to_nat (limit - (yielded + 1)))) by lia. done.
    + by rewrite IH, <- app_assoc by lia.
Qed.

Lemma limit_yield_page limit offset l : ∀ skipped acc,
  (0 <= skipped)%Z →
  (drive l (limit_yield limit offset) (skipped, 0%Z, acc)).2.2 = acc ++ page limit (offset - skipped) l.
Proof.
  induction l as [|t l IH]; intros skipped acc Hs.
  - cbn. unfold page. rewrite drop_nil, take_nil. by case_match; rewrite app_nil_r.
  - destruct (Z.ltb_spec skipped offset) as [Ho|Ho].
    + cbn [drive]. unfold limit_yield at 1. rewrite (proj2 (Z.ltb_lt _ _) Ho). rewrite IH by lia. f_equal.
      unfold page. replace (Z.to_nat (offset - skipped)) with (S (Z.to_nat (offset - (skipped + 1)))) by lia. done.
    + rewrite limit_yield_taking by lia. f_equal. unfold page.
      replace (Z.to_nat (offset - skipped)) with 0 by lia. by rewrite Z.sub_0_r.
Qed.

Lemma exists_yield l b : (drive l (λ (_ : Triple) (_ : bool), (false, true)) b).2 = b || negb (bool_decide (l = [])).
Proof. destruct l; cbn; [by rewrite orb_false_r|by rewrite orb_true_r]. Qed.
End pages.

(** ** Keys and patterns *)

Definition triple_wf (t : Triple) : Prop :=
  term_wf (Subject t) ∧ isSubject (Subject t) = true ∧ uri_ok (Predicate t) ∧ term_wf (Object t).
Definition opt_wf (t : option Term) : Prop := match t with Some t => term_wf t | None => True end.
Definition pattern_wf (p : TriplePattern) : Prop :=
  opt_wf (pat_Subject p) ∧ match pat_Predicate p with Some u => uri_ok u | None => True end ∧ opt_wf (pat_Object p).

Lemma key_matches_term o t :
  opt_wf o → term_wf t →
  key_matches (OptTermKey o) (TermKey t) = match o with Some s => Equal s t | None => true end.
Proof.
  destruct o as [s|]; [|done]. cbn. intros Hs Ht. unfold key_matches, bound.
  pose proof (TermKey_nonempty s Hs). destruct (TermKey s) eqn:E; [done|]. cbn [is_empty negb orb].
  destruct (Equal s t) eqn:Eq.
  - apply Equal_eq in Eq as ->; [|done..]. rewrite E. apply String.eqb_refl.
  - apply String.eqb_neq. intros Hk. assert (s = t) as -> by (apply TermKey_inj; [done..|congruence]).
    by rewrite Equal_refl in Eq.
Qed.

Lemma key_matches_pred o u :
  match o with Some v => uri_ok v | None => True end → uri_ok u →
  key_matches (OptPredKey o) (uri_key u) = match o with Some v => bool_decide (v = u) | None => true end.
Proof.
  destruct o as [v|]; [|done]. intros Hv Hu. unfold key_matches. cbn [OptPredKey TermKey].
  assert (bound (uri_key v) = true) as -> by (by destruct Hv as [w ->]). cbn [negb orb].
  case_bool_decide as E; [rewrite E; apply String.eqb_refl|].
  apply String.eqb_neq. intros Hk. by apply E, uri_key_inj.
Qed.

Lemma pattern_matches_Matches p t : pattern_wf p → triple_wf t → pattern_matches p t = Matches p t.
Proof.
  intros (Hs & Hp & Ho) (Ts & _ & Tp & To). unfold pattern_matches, Matches. cbn [keyAt TermKey].
  rewrite (key_matches_term _ _ Hs Ts), (key_matches_pred _ _ Hp Tp), (key_matches_term _ _ Ho To).
  destruct (pat_Subject p) as [s|]; [destruct (Equal s _)|];
    (destruct (pat_Predicate p) as [u|]; [case_bool_decide|]);
    (destruct (pat_Object p) as [o|]; [destruct (Equal o _)|]); done.
Qed.

(** ** Properties *)

(** A run of operations under contexts that are not done. *)
Definition store_run `{Store St} (s : St) (ops : list ds_op) : St :=
  foldl (λ s o, (store_step None s o).2) s ops.

Lemma store_run_ok `{StoreLaws St} (ops : list ds_op) s :
  sinv s → sinv (store_run s ops) ∧ sabs (store_run s ops) = foldl ds_step (sabs s) ops.
Proof.
  revert s. induction ops as [|o ops IH]; intros s Hs; [done|]. unfold store_run; cbn [foldl].
  destruct (step_ok s o Hs) as (s' & Ho & Hs' & Ha). rewrite Ho, <- Ha. by apply IH.
Qed.

Lemma ms_run_ok `{GoRange} ops :
  ms_ok (store_run NewMemoryStore ops) ∧ ms_abs (store_run NewMemoryStore ops) = ds_run ops.
Proof.
  destruct NewMemoryStore_ok as [Hm Ha]. unfold ds_run. rewrite <- Ha.
  exact (store_run_ok (St := MemoryStore) ops NewMemoryStore Hm).
Qed.

(** C7: the in-memory store refines a dataset: after any sequence of [Add],
    [Set], [AddN] and [Remove], every read of every graph ([Triples], [Len],
    [Cardinality], [Count], [Exists], [Contexts]) answers as the dataset built by
    the same operations. *)
Theorem memoryStore_refines_dataset : ∀ `{GoRange} ops,
  let m := store_run NewMemoryStore ops in
  let d := ds_run ops in
  (∀ p g, ∃ l, ms_Triples None p g m = Ok <$> l ∧ NoDup l ∧ l ≡ₚ graph_triples (matching p (ds_graph d g))) ∧
  (∀ g, ms_Len None g m = Ok (Z.of_nat (size (ds_graph d g)))) ∧
  (∀ p g, Cardinality None p g m = Ok (Z.of_nat (size (matching p (ds_graph d g))))) ∧
  (∀ p g, Count None p g m = Cardinality None p g m) ∧
  (∀ p g, Exists_ None p g m = Ok (negb (bool_decide (matching p (ds_graph d g) = ∅)))) ∧
  (∀ t, ∃ l, ms_Contexts None t m = Ok <$> l ∧ l ≡ₚ ds_names d t).
Proof.
  intros R ops m d. destruct (ms_run_ok ops) as [Hm Ha]. fold m in Hm, Ha. fold d in Ha. rewrite <- Ha.
  split_and!; [intros; by apply ms_triples_ok|intros; by apply ms_len_ok| |done| |intros; by apply ms_contexts_ok].
  - intros p g. pose proof (ms_index_content m g Hm) as Hi. unfold Cardinality.
    destruct (ms_index m g) as [idx|]; [|by rewrite Hi, matching_empty].
    destruct Hi as [Hi <-]. by rewrite cardinality_content.
  - intros p g. pose proof (ms_index_content m g Hm) as Hi. unfold Exists_.
    destruct (ms_index m g) as [idx|]; [|by rewrite Hi, matching_empty].
    destruct Hi as [Hi <-]. rewrite each_drive, exists_yield. cbn [orb]. do 2 f_equal.
    apply bool_decide_ext. rewrite <- (length_zero_iff_nil (each_list idx p)), <- map_size_empty_iff.
    rewrite (each_content idx p Hi). unfold graph_triples. by rewrite length_fmap, length_map_to_list.
Qed.

(** graphs are isolated, in every store that keeps the contract: an operation
    does not change what a graph it does not address holds, whether that graph is
    the default graph or a named one. *)
Theorem store_graph_isolation : ∀ `{StoreLaws St} (s : St) o g s',
  sinv s → graph_key g ∉ op_graphs o → store_step None s o = (Ok tt, s') →
  Len None g s' = Len None g s ∧
  ∀ p, Triples None p g s' ≡ₚ Triples None p g s.
Proof.
  intros St HS HL s o g s' Hs Hg Ho. destruct (step_ok s o Hs) as (s'' & Ho' & Hs' & Ha).
  rewrite Ho in Ho'. injection Ho' as <-.
  assert (Hd : ds_graph (sabs s') g = ds_graph (sabs s) g) by (rewrite Ha; by apply ds_step_other).
  split; [by rewrite !len_ok, Hd|]. intros p.
  destruct (triples_ok s' p g Hs') as (l' & -> & _ & Hl'), (triples_ok s p g Hs) as (l & -> & _ & Hl).
  by rewrite Hl', Hl, Hd.
Qed.

(** Sample data for the witnesses. *)
Definition ex_iri (s : string) : URIRef := NewURIRefUnsafe ("http://example.org/" +:+ s).
Definition ex_triple : Triple := MkTriple (TURIRef (ex_iri "s")) (ex_iri "p") (TURIRef (ex_iri "o")).
Definition ex_triple2 : Triple := MkTriple (TURIRef (ex_iri "s")) (ex_iri "p") (TURIRef (ex_iri "o2")).
Definition ex_graph : option Term := Some (TURIRef (ex_iri "g")).

(** a call made with a done context returns the context's error and changes
    nothing; an iterator yields that error once and stops. *)
Theorem done_context_is_inert : ∀ `{GoRange} (m : MemoryStore) e,
  (∀ o, store_step (Some e) m o = (Err e, m)) ∧
  (∀ p u, ms_Bind (Some e) p u m = (Err e, m)) ∧
  (∀ p g, ms_Triples (Some e) p g m = [Err e]) ∧
  (∀ p g l o, TriplesWithLimit (Some e) p g l o m = [Err e]) ∧
  (∀ t, ms_Contexts (Some e) t m = [Err e]) ∧
  ms_Namespaces (Some e) m = [Err e] ∧
  (∀ g, ms_Len (Some e) g m = Err e) ∧
  (∀ p g, Cardinality (Some e) p g m = Err e ∧ Exists_ (Some e) p g m = Err e).
Proof. intros R m e. split_and!; try done. by intros []. Qed.

(** [Contexts] reports exactly the named graphs that hold a triple, each once,
    and never the default graph; an emptied graph is gone. *)
Theorem contexts_are_the_non_empty_graphs : ∀ `{GoRange} ops,
  ∃ l, ms_Contexts None None (store_run NewMemoryStore ops) = Ok <$> l ∧
    NoDup (TermKey <$> l) ∧
    (∀ t, t ∈ l → IsDefaultGraph (Some t) = false) ∧
    ∀ t, IsDefaultGraph (Some t) = false →
      TermKey t ∈ TermKey <$> l ↔ ds_graph (ds_run ops) (Some t) ≠ ∅.
Proof.
  intros R ops. destruct (ms_run_ok ops) as [Hm Ha]. set (m := store_run _ ops) in *. rewrite <- Ha.
  destruct (ms_contexts_ok m None Hm) as (l & Hl & Hp). exists l. split; [done|]. destruct Hm as [Hd Hn].
  assert (Hkeys : TermKey <$> l ≡ₚ (map_to_list (named m)).*1).
  { rewrite Hp. unfold ds_names. cbn [contains ms_abs ds_named].
    rewrite filter_all, map_to_list_fmap, <- !list_fmap_compose by done.
    rewrite (Forall_fmap_ext_1 _ fst (map_to_list (named m))); [done|].
    apply Forall_forall. intros [k g] Hin%elem_of_map_to_list. by destruct (Hn _ _ Hin) as (_ & _ & Hk & _). }
  split_and!.
  - rewrite Hkeys. apply NoDup_fst_map_to_list.
  - intros t. rewrite Hp. unfold ds_names. cbn [contains ms_abs ds_named].
    intros ([k [n c]] & -> & [_ Hin]%list_elem_of_filter)%list_elem_of_fmap.
    apply elem_of_map_to_list in Hin. rewrite lookup_fmap in Hin.
    destruct (named m !! k) as [g|] eqn:E; [|done]. injection Hin as <- <-. by destruct (Hn _ _ E) as (_ & _ & _ & ?).
  - intros t Ht. rewrite Hkeys, list_elem_of_fmap. unfold ds_graph, graph_key. rewrite Ht.
    cbn [OptTermKey ms_abs ds_named]. rewrite lookup_fmap. split.
    + intros ([k g] & Hk & Hin%elem_of_map_to_list). cbn in Hk. subst k. rewrite Hin. cbn.
      by destruct (Hn _ _ Hin) as (_ & ? & _).
    + destruct (named m !! TermKey t) as [g|] eqn:E; [|done]. intros _. exists (TermKey t, g).
      split; [done|]. by apply elem_of_map_to_list.
Qed.

(** C25: [TriplesWithLimit] yields one page of an enumeration of the matches:
    [offset] items skipped, at most [limit] yielded, all of the rest when [limit]
    is not positive, nothing skipped when [offset] is negative. *)
Theorem triplesWithLimit_is_a_page : ∀ `{GoRange} ops p g limit offset,
  ∃ l, NoDup l ∧ l ≡ₚ graph_triples (matching p (ds_graph (ds_run ops) g)) ∧
    TriplesWithLimit None p g limit offset (store_run NewMemoryStore ops) = Ok <$> page limit offset l.
Proof.
  intros R ops p g limit offset. destruct (ms_run_ok ops) as [Hm Ha]. set (m := store_run _ ops) in *. rewrite <- Ha.
  pose proof (ms_index_content m g Hm) as Hi. unfold TriplesWithLimit. destruct (ms_index m g) as [idx|].
  - destruct Hi as [Hi <-]. exists (each_list idx p).
    split_and!; [by apply each_list_NoDup|by apply each_content|].
    rewrite each_drive, limit_yield_page by lia. by rewrite Z.sub_0_r.
  - exists []. rewrite Hi, matching_empty. split_and!; [constructor|done|].
    unfold page. rewrite drop_nil, take_nil. by case_match.
Qed.

(** matching by key, as the indices do, is [TriplePattern.Matches] on
    well-formed patterns and triples, so the answers above are the triples the
    pattern matches. *)
Theorem key_matching_is_Matches : ∀ p t, pattern_wf p → triple_wf t → pattern_matches p t = Matches p t.
Proof. intros p t. apply pattern_matches_Matches. Qed.

(** The matches of [Set]'s pattern after it. *)
Lemma set_matches `{StoreLaws St} (s : St) t g :
  sinv s → triple_wf t →
  ∃ s', Set_ None t g s = (Ok tt, s') ∧ sinv s' ∧ Triples None (set_pattern t) g s' = [Ok t].
Proof.
  intros Hs Ht. destruct (step_ok s (DsSet t g) Hs) as (s' & Ho & Hs' & Ha).
  exists s'. split; [exact Ho|]. split; [done|]. destruct (triples_ok s' (set_pattern t) g Hs') as (l & -> & _ & Hl).
  enough (graph_triples (matching (set_pattern t) (ds_graph (sabs s') g)) = [t]) as E.
  { rewrite E in Hl. by apply Permutation_singleton_r in Hl as ->. }
  rewrite Ha. cbn [ds_step]. rewrite ds_update_same. set (d := ds_graph _ g).
  assert (Htt : pattern_matches (set_pattern t) t = true).
  { rewrite pattern_matches_Matches; [|destruct Ht as (? & ? & ? & ?); done|done].
    unfold Matches; cbn. by rewrite Equal_refl, bool_decide_eq_true_2. }
  assert (Hadd : graph_add (not_matching (set_pattern t) d) t = <[tkey t := t]> (not_matching (set_pattern t) d)).
  { unfold graph_add. destruct (not_matching _ d !! tkey t) as [u|] eqn:E; [|done].
    apply map_lookup_filter_Some in E as [Hu Hf]. cbn in Hf.
    apply (graphs_keyed s g Hs) in Hu. rewrite (pattern_matches_key _ _ _ Hu) in Hf. congruence. }
  rewrite Hadd. assert (matching (set_pattern t) (<[tkey t:=t]> (not_matching (set_pattern t) d)) = {[tkey t := t]}) as ->.
  { apply map_eq. intros k. apply option_eq. intros u. unfold matching, not_matching.
    rewrite map_lookup_filter_Some, lookup_insert_Some, lookup_singleton_Some, map_lookup_filter_Some. cbn.
    split; [intros [[?|(_ & _ & ?)] ?]; [done|congruence]|]. intros [<- <-]. auto. }
  unfold graph_triples. by rewrite map_to_list_singleton.
Qed.

(** [Set] leaves exactly the new triple for its subject and predicate in the
    graph, in every store that keeps the contract. *)
Theorem set_replaces : ∀ `{StoreLaws St} (s : St) t g,
  sinv s → triple_wf t → ∃ s', Set_ None t g s = (Ok tt, s') ∧ Triples None (set_pattern t) g s' = [Ok t].
Proof. intros St HS HL s t g Hs Ht. destruct (set_matches s t g Hs Ht) as (s' & ? & _ & ?). by exists s'. Qed.

(** re-binding a prefix leaves the old namespace mapped to it, so [Prefix]
    then names a prefix whose [Namespace] is another IRI. *)
Theorem rebinding_a_prefix_leaves_the_old_namespace : ∀ `{GoRange} (m : MemoryStore) p n1 n2,
  URIRef_value n1 ≠ URIRef_value n2 →
  ∃ m', (ms_Bind None p n2 (ms_Bind None p n1 m).2) = (Ok tt, m') ∧
    ms_Prefix None n1 m' = Ok (p, true) ∧ ms_Namespace None p m' = Ok (n2, true).
Proof.
  intros R m p n1 n2 Hne. eexists. split; [reflexivity|]. unfold ms_Prefix, ms_Namespace; cbn.
  rewrite lookup_insert_ne, !lookup_insert_eq by done. done.
Qed.

(** ** Witnesses *)

#[local] Instance sorted_range_instance : GoRange | 100 := sorted_range.

Lemma store_graph_isolation_witness :
  let s := (store_step None NewMemoryStore (DsAdd ex_triple None)).2 in
  Len None None (store_step None s (DsAdd ex_triple ex_graph)).2 = Len None None s ∧
  ∀ p, Triples None p None (store_step None s (DsAdd ex_triple ex_graph)).2 ≡ₚ Triples None p None s.
Proof.
  eapply (store_graph_isolation (St := MemoryStore) _ (DsAdd ex_triple ex_graph)).
  - apply (ms_run_ok [DsAdd ex_triple None]).
  - set_solver.
  - reflexivity.
Defined.

Lemma key_matching_is_Matches_witness :
  pattern_matches (set_pattern ex_triple) ex_triple2 = Matches (set_pattern ex_triple) ex_triple2.
Proof.
  apply key_matching_is_Matches; repeat split; try (eexists; reflexivity).
Defined.

Lemma set_replaces_witness :
  let s := (store_step None NewMemoryStore (DsAdd ex_triple None)).2 in
  ∃ s', Set_ None ex_triple2 None s = (Ok tt, s') ∧ Triples None (set_pattern ex_triple2) None s' = [Ok ex_triple2].
Proof.
  apply (set_replaces (St := MemoryStore)).
  - apply (ms_run_ok [DsAdd ex_triple None]).
  - repeat split; try (eexists; reflexivity).
Defined.

Lemma rebinding_a_prefix_leaves_the_old_namespace_witness :
  ∃ m', (ms_Bind None "ex" (ex_iri "2/") (ms_Bind None "ex" (ex_iri "1/") NewMemoryStore).2) = (Ok tt, m') ∧
    ms_Prefix None (ex_iri "1/") m' = Ok ("ex", true) ∧ ms_Namespace None "ex" m' = Ok (ex_iri "2/", true).
Proof. apply rebinding_a_prefix_leaves_the_old_namespace. discriminate. Defined.
