(* ===== verification/Namespace.v ===== *)
(** * Namespaces

    Package [namespace] (namespace.go): namespaces, closed namespaces, and the
    manager of prefixes over a store.  The manager's mutexes make [Bind] and
    [generatePrefix] one step each; [ComputeQName] is modelled as called by one
    goroutine. *)

From S2P Require Import Prelude GoStrings Strconv Term TermKey TripleIndex Store MemoryStore.
From stdpp Require Import options.

Definition ErrTermNotInNamespace : error := Sentinel "rdflibgo: term not in closed namespace".
Definition ErrInvalidCURIE : error := Sentinel "rdflibgo: invalid CURIE".
Definition ErrPrefixNotBound : error := Sentinel "rdflibgo: prefix not bound".

(** ** Namespaces *)

Record Namespace_ := NewNamespace { ns_Base : string }.

Definition ns_Term (ns : Namespace_) (name : string) : URIRef := NewURIRefUnsafe (ns_Base ns +:+ name).
Definition ns_Contains (ns : Namespace_) (uri : string) : bool := HasPrefix uri (ns_Base ns).
Definition ns_URIRef (ns : Namespace_) : URIRef := NewURIRefUnsafe (ns_Base ns).

Record ClosedNamespace := MkClosed { cn_Base : string; cn_terms : gmap string URIRef }.

Definition NewClosedNamespace (base : string) (terms : list string) : ClosedNamespace :=
  MkClosed base (foldl (λ m t, <[t := NewURIRefUnsafe (base +:+ t)]> m) ∅ terms).
Definition cn_Term (ns : ClosedNamespace) (name : string) : result URIRef :=
  match cn_terms ns !! name with
  | Some u => Ok u
  | None => Err (Wrapf "%w: %q in %s" [name; cn_Base ns] ErrTermNotInNamespace)
  end.

(** [SplitURI]. *)
Definition SplitURI (uri : string) : string * string :=
  match LastIndexByte uri "#" with
  | Some i => (stake (S i) uri, sdrop (S i) uri)
  | None =>
      match LastIndexByte uri "/" with
      | Some i => (stake (S i) uri, sdrop (S i) uri)
      | None =>
          match LastIndexByte uri ":" with
          | Some i => (stake (S i) uri, sdrop (S i) uri)
          | None => (EmptyString, uri)
          end
      end
  end.

(** ** The manager *)

Record NSManager := MkNSManager { ns_cache : gmap string (string * string * string); genID : Z }.
Definition NewNSManager : NSManager := MkNSManager ∅ 0.

Section manager.
Context {St : Type} `{Store St}.

(** [NSManager.Bind]. *)
Definition nsm_Bind (ctx : Context) (prefix : string) (namespace : URIRef) (override : bool) (m : NSManager) (st : St)
    : result unit * NSManager * St :=
  let bind :=
    match Bind ctx prefix namespace st with
    | (Err e, st) => (Err e, m, st)
    | (Ok _, st) =>
        let nsStr := URIRef_value namespace in
        (Ok tt, MkNSManager (filter (λ kv, HasPrefix kv.1 nsStr = false) (ns_cache m)) (genID m), st)
    end in
  if negb override then
    match Namespace ctx prefix st with
    | Err e => (Err e, m, st)
    | Ok (_, true) => (Ok tt, m, st)
    | Ok (_, false) => bind
    end
  else bind.

(** The loop of [generatePrefix]. *)
Fixpoint generate_loop (fuel : nat) (ctx : Context) (nsRef : URIRef) (gen : Z) (st : St) : option (result string * Z * St) :=
  match fuel with
  | O => None
  | S fuel =>
      let gen := (gen + 1)%Z in
      let prefix := "ns" +:+ FormatInt gen in
      match Namespace ctx prefix st with
      | Err e => Some (Err e, gen, st)
      | Ok (_, true) => generate_loop fuel ctx nsRef gen st
      | Ok (_, false) =>
          match Bind ctx prefix nsRef st with
          | (Err e, st) => Some (Err e, gen, st)
          | (Ok _, st) => Some (Ok prefix, gen, st)
          end
      end
  end.

Definition generate_fuel (st : St) : nat := S (length (Namespaces None st)).

Definition generatePrefix (ctx : Context) (nsRef : URIRef) (m : NSManager) (st : St) : result string * NSManager * St :=
  match Prefix ctx nsRef st with
  | Err e => (Err e, m, st)
  | Ok (p, true) => (Ok p, m, st)
  | Ok (_, false) =>
      match generate_loop (generate_fuel st) ctx nsRef (genID m) st with
      | Some (r, gen, st) => (r, MkNSManager (ns_cache m) gen, st)
      | None => (Err (Sentinel "model: out of fuel"), m, st)
      end
  end.

(** [ComputeQName]: prefix, namespace and local name. *)
Definition ComputeQName (ctx : Context) (uri : string) (m : NSManager) (st : St) : result (string * string * string) * NSManager * St :=
  match ns_cache m !! uri with
  | Some cached => (Ok cached, m, st)
  | None =>
      let '(nsStr, localName) := SplitURI uri in
      if is_empty nsStr then (Err (Errorf "cannot compute qname for %q" [uri]), m, st)
      else
        let nsRef := NewURIRefUnsafe nsStr in
        let found (prefix : string) (m : NSManager) (st : St) :=
          (Ok (prefix, nsStr, localName), MkNSManager (<[uri := (prefix, nsStr, localName)]> (ns_cache m)) (genID m), st) in
        match Prefix ctx nsRef st with
        | Err e => (Err e, m, st)
        | Ok (p, true) => found p m st
        | Ok (_, false) =>
            match generatePrefix ctx nsRef m st with
            | (Err e, m, st) => (Err e, m, st)
            | (Ok prefix, m, st) => found prefix m st
            end
        end
  end.

Definition nsm_QName (ctx : Context) (uri : string) (m : NSManager) (st : St) : result string * NSManager * St :=
  match ComputeQName ctx uri m st with
  | (Ok (prefix, _, local), m, st) => (Ok (prefix +:+ ":" +:+ local), m, st)
  | (Err e, m, st) => (Err e, m, st)
  end.

(** The interface of [Term.N3]. *)
Definition nsm_Prefix (uri : string) (m : NSManager) (st : St) : option string * NSManager * St :=
  match nsm_QName None uri m st with
  | (Ok qn, m, st) => (Some qn, m, st)
  | (Err _, m, st) => (None, m, st)
  end.

Definition Absolutize (ctx : Context) (uri : string) (st : St) : result URIRef :=
  match SplitN uri ":" 2 with
  | [p; rest] =>
      match Namespace ctx p st with
      | Err e => Err e
      | Ok (ns, true) => Ok (NewURIRefUnsafe (URIRef_value ns +:+ rest))
      | Ok (_, false) => Ok (NewURIRefUnsafe uri)
      end
  | _ => Ok (NewURIRefUnsafe uri)
  end.

Definition ExpandCURIE (ctx : Context) (curie : string) (st : St) : result URIRef :=
  match SplitN curie ":" 2 with
  | [p; rest] =>
      match Namespace ctx p st with
      | Err e => Err e
      | Ok (_, false) => Err (Wrapf "%w: %q" [p] ErrPrefixNotBound)
      | Ok (ns, true) => Ok (NewURIRefUnsafe (URIRef_value ns +:+ rest))
      end
  | _ => Err (Wrapf "%w: %q" [curie] ErrInvalidCURIE)
  end.
End manager.

(** ** Decimal numerals *)

Lemma to_int_nonnil z : Z.to_int z ≠ Decimal.Pos Decimal.Nil ∧ Z.to_int z ≠ Decimal.Neg Decimal.Nil.
Proof.
  destruct z as [|p|p]; cbn; split; try done; intros [= E]; by apply DecimalPos.Unsigned.to_uint_nonnil in E.
Qed.

Lemma FormatInt_inj z z' : FormatInt z = FormatInt z' → z = z'.
Proof.
  unfold FormatInt. intros E. destruct (to_int_nonnil z) as [H1 H2], (to_int_nonnil z') as [H1' H2'].
  pose proof (DecimalString.NilZero.isi _ H1 H2) as E1. rewrite E, DecimalString.NilZero.isi in E1 by done.
  injection E1 as E1. by apply DecimalZ.to_int_inj.
Qed.

Lemma FormatInt_colon z : has_byte ":" (FormatInt z) = false.
Proof.
  assert (H : ∀ d, has_byte ":" (DecimalString.NilEmpty.string_of_uint d) = false).
  { induction d; cbn [DecimalString.NilEmpty.string_of_uint]; [done|..]; by rewrite has_byte_cons, IHd. }
  assert (H' : ∀ d, has_byte ":" (DecimalString.NilZero.string_of_uint d) = false) by (intros []; [done|apply H..]).
  unfold FormatInt. destruct (Z.to_int z); cbn [DecimalString.NilZero.string_of_int]; [apply H'|by rewrite has_byte_cons, H'].
Qed.

(** ** Prefixes of a store *)

(** What the manager needs of a store's prefixes: a prefix has one namespace; a
    namespace has the prefix it was last bound to, or none when the store has
    forgotten it. *)
Class PrefixLaws (St : Type) `{StoreLaws St} := {
  prefixes : St → gmap string URIRef;
  names_of : St → gmap string string;
  namespace_ok : ∀ s p, sinv s → Namespace None p s = Ok (match prefixes s !! p with Some u => (u, true) | None => (URIRef_zero, false) end);
  prefix_ok : ∀ s u, sinv s → Prefix None u s = Ok (match names_of s !! URIRef_value u with Some p => (p, true) | None => (EmptyString, false) end);
  namespaces_ok : ∀ s, sinv s → ∃ l, Namespaces None s = Ok <$> l ∧ l ≡ₚ (λ kv, MkBinding kv.1 kv.2) <$> map_to_list (prefixes s);
  bind_prefixes : ∀ s p u, sinv s → ∃ s', Bind None p u s = (Ok tt, s') ∧ sinv s' ∧ sabs s' = sabs s ∧
    prefixes s' = <[p := u]> (prefixes s) ∧ names_of s' !! URIRef_value u = Some p ∧
    ∀ v, v ≠ URIRef_value u → names_of s' !! v = names_of s !! v ∨ names_of s' !! v = None
}.

Section names.
Context {St : Type} {store_St : Store St} {laws_St : StoreLaws St} {prefix_St : PrefixLaws St}.
Implicit Types (st : St) (m : NSManager).

(** The prefix expands to the namespace. *)
Definition stands st (p ns : string) : Prop :=
  has_byte ":" p = false ∧ ∃ u, prefixes st !! p = Some u ∧ URIRef_value u = ns.

(** What the store says of a namespace, and what the manager remembers. *)
Definition coherent st : Prop := ∀ v p, names_of st !! v = Some p → stands st p v.
Definition cache_coherent m st : Prop := ∀ uri p ns local, ns_cache m !! uri = Some (p, ns, local) →
  SplitURI uri = (ns, local) ∧ ns ≠ EmptyString ∧ stands st p ns.

Lemma SplitURI_app uri : uri = (SplitURI uri).1 +:+ (SplitURI uri).2.
Proof.
  unfold SplitURI. destruct (LastIndexByte uri "#"); [cbn [fst snd]; by rewrite stake_sdrop|].
  destruct (LastIndexByte uri "/"); [cbn [fst snd]; by rewrite stake_sdrop|].
  destruct (LastIndexByte uri ":"); [cbn [fst snd]; by rewrite stake_sdrop|done].
Qed.

(** Binding a free prefix leaves every other binding alone. *)
Lemma stands_mono st st' p ns : prefixes st ⊆ prefixes st' → stands st p ns → stands st' p ns.
Proof. intros Hs (Hc & u & Hu & Hv). split; [done|]. exists u. split; [by eapply lookup_weaken|done]. Qed.

Lemma bind_free st p u : sinv st → coherent st → prefixes st !! p = None → has_byte ":" p = false →
  ∃ st', Bind None p u st = (Ok tt, st') ∧ sinv st' ∧ sabs st' = sabs st ∧ coherent st' ∧ prefixes st ⊆ prefixes st' ∧ stands st' p (URIRef_value u).
Proof.
  intros Hs Hc Hp Hcol. destruct (bind_prefixes st p u Hs) as (st' & E & Hs' & Ha & Hpre & Hn & Hother). exists st'.
  assert (Hsub : prefixes st ⊆ prefixes st') by (rewrite Hpre; by apply insert_subseteq).
  assert (Hst : stands st' p (URIRef_value u)) by (split; [done|]; exists u; rewrite Hpre; by rewrite lookup_insert_eq).
  split; [done|]. split; [done|]. split; [done|]. split; [|by split].
  intros v q Hv. destruct (decide (v = URIRef_value u)) as [->|Hne].
  - rewrite Hn in Hv. by injection Hv as <-.
  - destruct (Hother v Hne) as [E'|E']; rewrite E' in Hv; [|done]. by apply (stands_mono st), Hc.
Qed.

(** Some [nsN] among the next [n] is free when fewer than [n] prefixes are bound. *)
Definition gen_prefix (z : Z) : string := "ns" +:+ FormatInt z.

Lemma gen_prefix_inj z z' : gen_prefix z = gen_prefix z' → z = z'.
Proof. unfold gen_prefix. intros E. apply app_inv_len in E as [_ E]; [|done]. by apply FormatInt_inj. Qed.

Lemma gen_free (pre : gmap string URIRef) gen : ∃ i, i < S (size pre) ∧ pre !! gen_prefix (gen + 1 + Z.of_nat i) = None.
Proof.
  set (l := (λ i, gen_prefix (gen + 1 + Z.of_nat i)) <$> seq 0 (S (size pre))).
  destruct (decide (Exists (λ k, pre !! k = None) l)) as [Hex|Hall].
  - apply Exists_exists in Hex as (k & Hk & Hfree). apply list_elem_of_fmap in Hk as (i & -> & Hi). apply elem_of_seq in Hi. exists i. split; [lia|done].
  - exfalso. assert (Hsub : list_to_set l ⊆ dom pre).
    { intros k Hk%elem_of_list_to_set. apply elem_of_dom. destruct (pre !! k) eqn:E; [by eexists|].
      destruct Hall. apply Exists_exists. by exists k. }
    apply subseteq_size in Hsub. rewrite size_list_to_set in Hsub.
    + rewrite size_dom in Hsub. unfold l in Hsub. rewrite length_fmap, length_seq in Hsub. lia.
    + unfold l. apply NoDup_fmap_2_strong; [|apply NoDup_seq]. intros i j _ _ E%gen_prefix_inj. lia.
Qed.

Lemma generate_loop_ok u : ∀ fuel st gen, sinv st → coherent st →
  (∃ i, i < fuel ∧ prefixes st !! gen_prefix (gen + 1 + Z.of_nat i) = None) →
  ∃ z st', generate_loop fuel None u gen st = Some (Ok (gen_prefix z), z, st') ∧ prefixes st !! gen_prefix z = None ∧ sinv st' ∧ sabs st' = sabs st ∧
    coherent st' ∧ prefixes st ⊆ prefixes st' ∧ stands st' (gen_prefix z) (URIRef_value u).
Proof.
  induction fuel as [|fuel IH]; intros st gen Hs Hc (i & Hi & Hfree); [lia|]. cbn [generate_loop]. fold (gen_prefix (gen + 1)).
  rewrite namespace_ok by done. destruct (prefixes st !! gen_prefix (gen + 1)) as [ns|] eqn:E.
  - apply IH; [done|done|]. destruct i as [|i]; [by rewrite Z.add_0_r, E in Hfree|]. exists i. split; [lia|]. rewrite <- Hfree. do 2 f_equal. lia.
  - destruct (bind_free st (gen_prefix (gen + 1)) u Hs Hc E) as (st' & -> & H); [unfold gen_prefix; by rewrite has_byte_app, FormatInt_colon|].
    exists (gen + 1)%Z, st'. split; [done|]. split; [done|exact H].
Qed.

Lemma generatePrefix_ok u m st : sinv st → coherent st → names_of st !! URIRef_value u = None →
  ∃ p gen st', generatePrefix None u m st = (Ok p, MkNSManager (ns_cache m) gen, st') ∧ prefixes st !! p = None ∧ sinv st' ∧ sabs st' = sabs st ∧
    coherent st' ∧ prefixes st ⊆ prefixes st' ∧ stands st' p (URIRef_value u).
Proof.
  intros Hs Hc Hn. unfold generatePrefix. rewrite prefix_ok, Hn by done.
  assert (Hf : generate_fuel st = S (size (prefixes st))).
  { unfold generate_fuel. destruct (namespaces_ok st Hs) as (l & -> & Hl). rewrite length_fmap, Hl, length_fmap. f_equal. apply length_map_to_list. }
  rewrite Hf. destruct (generate_loop_ok u (S (size (prefixes st))) st (genID m) Hs Hc (gen_free _ _)) as (z & st' & -> & H).
  exists (gen_prefix z), z, st'. split; [done|exact H].
Qed.

(** C18: on a store whose namespaces have the prefixes it says, [ComputeQName] of any
    IRI with a separator ends with a prefix, a namespace and a local name: the
    namespace and local name make up the IRI, the prefix is bound to the namespace
    (found, or generated among the free [nsN] without disturbing a binding or any
    triple), [ExpandCURIE] of the prefixed name gives the IRI back, the next call
    gives the same answer and changes nothing, and the state stays so.  An IRI
    without a separator is an error that changes nothing. *)
Theorem qname_roundtrip : ∀ m st uri, sinv st → coherent st → cache_coherent m st →
  let '(r, m', st') := ComputeQName None uri m st in
  sinv st' ∧ sabs st' = sabs st ∧ coherent st' ∧ cache_coherent m' st' ∧ prefixes st ⊆ prefixes st' ∧
  (((SplitURI uri).1 = EmptyString ∧ r = Err (Errorf "cannot compute qname for %q" [uri]) ∧ m' = m ∧ st' = st) ∨
   ∃ p ns local, SplitURI uri = (ns, local) ∧ uri = ns +:+ local ∧ ns ≠ EmptyString ∧ r = Ok (p, ns, local) ∧ stands st' p ns ∧
     ExpandCURIE None (p +:+ ":" +:+ local) st' = Ok (NewURIRefUnsafe uri) ∧ ComputeQName None uri m' st' = (r, m', st')).
Proof.
  intros m st uri Hs Hc Hm.
  assert (Hexpand : ∀ st' p ns local, sinv st' → stands st' p ns → uri = ns +:+ local → ExpandCURIE None (p +:+ ":" +:+ local) st' = Ok (NewURIRefUnsafe uri)).
  { intros st' p ns local Hs' (Hcol & u & Hu & Hv) ->. unfold ExpandCURIE. change (":" +:+ local) with (String ":" local).
    rewrite (SplitN_app p ":" local 0 Hcol). cbn [SplitN]. rewrite namespace_ok, Hu by done. by rewrite Hv. }
  assert (Hfound : ∀ st' m0 p ns local, sinv st' → sabs st' = sabs st → coherent st' → prefixes st ⊆ prefixes st' → stands st' p ns →
    SplitURI uri = (ns, local) → ns ≠ EmptyString → ns_cache m0 = ns_cache m →
    let m' := MkNSManager (<[uri := (p, ns, local)]> (ns_cache m0)) (genID m0) in
    sinv st' ∧ sabs st' = sabs st ∧ coherent st' ∧ cache_coherent m' st' ∧ prefixes st ⊆ prefixes st' ∧
    (∃ p' ns' local', SplitURI uri = (ns', local') ∧ uri = ns' +:+ local' ∧ ns' ≠ EmptyString ∧ Ok (p, ns, local) = Ok (p', ns', local') ∧ stands st' p' ns' ∧
     ExpandCURIE None (p' +:+ ":" +:+ local') st' = Ok (NewURIRefUnsafe uri) ∧ ComputeQName None uri m' st' = (Ok (p, ns, local), m', st'))).
  { intros st' m0 p ns local Hs' Ha Hc' Hsub Hst Hsp Hne Hcache m'. pose proof (SplitURI_app uri) as Huri. rewrite Hsp in Huri. cbn [fst snd] in Huri.
    split; [done|]. split; [done|]. split; [done|]. split; [|split; [done|]].
    - intros uri' p' ns' local'. cbn [m' ns_cache]. rewrite lookup_insert, Hcache. case_decide as Eu; [intros [= <- <- <-]; by subst|].
      intros Hl. apply Hm in Hl as (H1 & H2 & H3). split; [done|]. split; [done|]. by apply (stands_mono st).
    - exists p, ns, local. split; [done|]. split; [done|]. split; [done|]. split; [done|]. split; [done|]. split; [by apply (Hexpand _ _ ns)|].
      unfold ComputeQName. cbn [m' ns_cache]. by rewrite lookup_insert_eq. }
  destruct (ComputeQName None uri m st) as [[r m'] st'] eqn:Ecq. unfold ComputeQName in Ecq.
  destruct (ns_cache m !! uri) as [[[p ns] local]|] eqn:Ecache.
  - injection Ecq as <- <- <-. destruct (Hm _ _ _ _ Ecache) as (Hsp & Hne & Hst). pose proof (SplitURI_app uri) as Huri. rewrite Hsp in Huri.
    do 5 (split; [done|]). right. exists p, ns, local. do 5 (split; [done|]). split; [by apply (Hexpand _ _ ns)|].
    unfold ComputeQName. by rewrite Ecache.
  - destruct (SplitURI uri) as [ns local] eqn:Hsp. destruct (is_empty ns) eqn:Ee.
    + injection Ecq as <- <- <-. do 5 (split; [done|]). left. by destruct ns.
    + assert (Hne : ns ≠ EmptyString) by (by intros ->). rewrite prefix_ok in Ecq by done.
      change (URIRef_value (NewURIRefUnsafe ns)) with ns in Ecq. destruct (names_of st !! ns) as [p|] eqn:En.
      * injection Ecq as <- <- <-. destruct (Hfound st m p ns local) as (H1 & H2 & H3 & H4 & H5 & H6); try done; [by apply Hc|].
        do 5 (split; [done|]). right. exact H6.
      * destruct (generatePrefix_ok (NewURIRefUnsafe ns) m st Hs Hc En) as (p & gen & st1 & Eg & Hfree & Hs' & Ha & Hc' & Hsub & Hst).
        rewrite Eg in Ecq. injection Ecq as <- <- <-.
        destruct (Hfound st1 (MkNSManager (ns_cache m) gen) p ns local) as (H1 & H2 & H3 & H4 & H5 & H6); try done.
        do 5 (split; [done|]). right. exact H6.
Qed.
End names.

(** ** Binding, and what overriding does *)

Section bind.
Context {St : Type} {store_St : Store St} {laws_St : StoreLaws St} {prefix_St : PrefixLaws St}.

(** [Bind] of a free prefix, or without override, keeps the manager's names right. *)
Lemma nsm_Bind_ok m (st : St) p u override : sinv st → coherent st → cache_coherent m st → has_byte ":" p = false →
  (override = true → prefixes st !! p = None) →
  ∃ m' st', nsm_Bind None p u override m st = (Ok tt, m', st') ∧ sinv st' ∧ sabs st' = sabs st ∧ coherent st' ∧ cache_coherent m' st' ∧
    prefixes st' = match prefixes st !! p with Some _ => prefixes st | None => <[p := u]> (prefixes st) end.
Proof.
  intros Hs Hc Hm Hcol Hover. unfold nsm_Bind.
  assert (Hbind : prefixes st !! p = None → ∃ m' st', match Bind None p u st with
      | (Err e, st) => (Err e, m, st)
      | (Ok _, st) => (Ok tt, MkNSManager (filter (λ kv, HasPrefix kv.1 (URIRef_value u) = false) (ns_cache m)) (genID m), st)
      end = (Ok tt, m', st') ∧ sinv st' ∧ sabs st' = sabs st ∧ coherent st' ∧ cache_coherent m' st' ∧ prefixes st' = <[p := u]> (prefixes st)).
  { intros Hfree. destruct (bind_free st p u Hs Hc Hfree Hcol) as (st' & E & Hs' & Ha & Hc' & Hsub & _).
    destruct (bind_prefixes st p u Hs) as (st2 & E2 & _ & _ & Hpre & _). rewrite E in E2. injection E2 as <-. rewrite E.
    eexists _, st'. split; [reflexivity|]. split; [done|]. split; [done|]. split; [done|]. split; [|done].
    intros uri q ns local [Hl _]%map_lookup_filter_Some. apply Hm in Hl as (H1 & H2 & H3). split; [done|]. split; [done|]. by apply (stands_mono st). }
  destruct override; cbn [negb].
  - rewrite (Hover eq_refl). by apply Hbind, Hover.
  - rewrite namespace_ok by done. destruct (prefixes st !! p) as [ns|] eqn:E; [|by apply Hbind]. by exists m, st.
Qed.
End bind.

(** The in-memory store. *)
#[export] Instance memory_prefix_laws `{GoRange} : PrefixLaws MemoryStore.
Proof.
  refine {| prefixes := nsPrefix; names_of := nsURI |}.
  - intros s p _. cbn. unfold ms_Namespace. by destruct (nsPrefix s !! p).
  - intros s u _. cbn. unfold ms_Prefix. by destruct (nsURI s !! URIRef_value u).
  - intros s _. exists ((λ kv, MkBinding kv.1 kv.2) <$> range (nsPrefix s)). split; [cbn; unfold ms_Namespaces; by rewrite <- list_fmap_compose|].
    by rewrite range_perm.
  - intros s p u Hs. destruct (bind_ok s p u Hs) as (s' & E & Hs' & Ha & _). exists s'. split; [done|]. split; [done|]. split; [done|].
    injection E as <-. cbn. split; [done|]. split; [by rewrite lookup_insert_eq|]. intros v Hv. left. by rewrite lookup_insert_ne.
Defined.

#[local] Instance namespace_range_instance : GoRange | 100 := sorted_range.

Lemma qname_roundtrip_witness :
  let uri := "http://example.org/x" in
  let '(r, m', st') := ComputeQName None uri NewNSManager NewMemoryStore in
  sinv st' ∧ sabs st' = sabs NewMemoryStore ∧ coherent st' ∧ cache_coherent m' st' ∧ prefixes NewMemoryStore ⊆ prefixes st' ∧
  (((SplitURI uri).1 = EmptyString ∧ r = Err (Errorf "cannot compute qname for %q" [uri]) ∧ m' = NewNSManager ∧ st' = NewMemoryStore) ∨
   ∃ p ns local, SplitURI uri = (ns, local) ∧ uri = ns +:+ local ∧ ns ≠ EmptyString ∧ r = Ok (p, ns, local) ∧ stands st' p ns ∧
     ExpandCURIE None (p +:+ ":" +:+ local) st' = Ok (NewURIRefUnsafe uri) ∧ ComputeQName None uri m' st' = (r, m', st')).
Proof.
  apply (qname_roundtrip (St := MemoryStore) NewNSManager NewMemoryStore "http://example.org/x").
  - apply (ms_run_ok []).
  - intros v p [=].
  - intros uri p ns local [=].
Defined.

(** Overriding a bound prefix leaves it on the IRIs of its old namespace, in the
    manager's cache and in the in-memory store, so their prefixed names expand to
    other IRIs. *)
Theorem overriding_a_prefix_misnames :
  let a := NewURIRefUnsafe "http://a/" in
  let b := NewURIRefUnsafe "http://b/" in
  let '(_, m, st) := nsm_Bind None "ex" a true NewNSManager NewMemoryStore in
  let '(_, m, st) := nsm_QName None "http://a/x" m st in
  let '(_, m, st) := nsm_Bind None "ex" b true m st in
  (nsm_QName None "http://a/x" m st).1.1 = Ok "ex:x" ∧ (nsm_QName None "http://a/y" m st).1.1 = Ok "ex:y" ∧
  ExpandCURIE None "ex:x" st = Ok (NewURIRefUnsafe "http://b/x").
Proof. split; [|split]; vm_compute; reflexivity. Qed.

(** A closed namespace has exactly its terms. *)
Lemma closed_Term_ok base terms name :
  (name ∈ terms → cn_Term (NewClosedNamespace base terms) name = Ok (NewURIRefUnsafe (base +:+ name))) ∧
  (name ∉ terms → is_Ok (cn_Term (NewClosedNamespace base terms) name) = false).
Proof.
  assert (H : ∀ l (m : gmap string URIRef), foldl (λ m t, <[t := NewURIRefUnsafe (base +:+ t)]> m) m l !! name =
    if decide (name ∈ l) then Some (NewURIRefUnsafe (base +:+ name)) else m !! name).
  { induction l as [|t l IH]; intros m; [done|]. cbn [foldl]. rewrite IH. destruct (decide (name ∈ l)) as [Hl|Hl].
    - by rewrite decide_True by (apply elem_of_cons; by right).
    - rewrite lookup_insert. case_decide as Et; [subst; by rewrite decide_True by (apply elem_of_cons; by left)|].
      by rewrite decide_False by (intros [->|]%elem_of_cons; done). }
  unfold cn_Term, NewClosedNamespace. cbn [cn_terms]. rewrite H. destruct (decide (name ∈ terms)); by split.
Qed.
