(* ===== verification/Reachability.v ===== *)
(** * Reachability in the in-memory store

    [store/reachability.go]: the breadth-first traversal behind SPARQL property
    paths, and the proof that it computes the transitive closure. *)

From S2P Require Import Prelude GoStrings Term TripleIndex Store MemoryStore.
From stdpp Require Import options.

(** ** The code *)

Definition ErrReachabilityUnsupported : error :=
  Sentinel "store: reachability query not supported by this backend".

Record ReachabilityQuery := MkQuery {
  Start : option Term;
  Predicates : list URIRef;
  Negated : bool;
  Inverse : bool;
  MaxDepth : Z;
  rq_Context : option Term
}.

(** [allowed], and the test on a predicate key. *)
Definition allowed (q : ReachabilityQuery) : gset string := list_to_set (uri_key <$> Predicates q).

Definition rq_matches (q : ReachabilityQuery) (pk : string) : bool :=
  if decide (allowed q = ∅) then true
  else if Negated q then negb (bool_decide (pk ∈ allowed q))
  else bool_decide (pk ∈ allowed q).

(** The captured variables of the traversal. *)
Record bfs := MkBfs {
  expanded : gset string;
  emitted : gset string;
  bfs_result : list Term;
  next : list Term
}.

(** The body of the inner loop, on the node [n] at the far end of an edge. *)
Definition visit (n : Term) (s : bfs) : bfs :=
  let k := TermKey n in
  let s := if decide (k ∈ emitted s) then s
           else MkBfs (expanded s) ({[k]} ∪ emitted s) (bfs_result s ++ [n]) (next s) in
  if decide (k ∈ expanded s) then s
  else MkBfs ({[k]} ∪ expanded s) (emitted s) (bfs_result s) (next s ++ [n]).

Definition far_end (q : ReachabilityQuery) (t : Triple) : Term := if Inverse q then Subject t else Object t.

Definition visit_edge (q : ReachabilityQuery) : Yield bfs := λ t s,
  if negb (rq_matches q (TermKey (TURIRef (Predicate t)))) then (true, s)
  else (true, visit (far_end q t) s).

Section traversal.
Context `{GoRange}.

Definition expand_node (q : ReachabilityQuery) (idx : tripleIndex) (s : bfs) (node : Term) : bfs :=
  (under (if Inverse q then osp idx else spo idx) (TermKey node) (visit_edge q) s).2.

(** The outer loop; [fuel] bounds its iterations. *)
Fixpoint bfs_loop (fuel : nat) (q : ReachabilityQuery) (idx : tripleIndex) (depth : Z) (frontier : list Term) (s : bfs)
    : option (list Term) :=
  match frontier with
  | [] => Some (bfs_result s)
  | _ =>
      if (0 <? MaxDepth q)%Z && (MaxDepth q <=? depth)%Z then Some (bfs_result s)
      else
        match fuel with
        | O => None
        | S fuel =>
            let s := foldl (expand_node q idx) (MkBfs (expanded s) (emitted s) (bfs_result s) []) frontier in
            bfs_loop fuel q idx (depth + 1) (next s) s
        end
  end.

Definition bfs_fuel (idx : tripleIndex) : nat := 2 + length (triples idx).

Definition Reachable (ctx : Context) (q : ReachabilityQuery) (m : MemoryStore) : result (list Term) :=
  match ctx with
  | Some err => Err err
  | None =>
      match Start q with
      | None => Err ErrReachabilityUnsupported
      | Some start =>
          match ms_index m (rq_Context q) with
          | None => Ok []
          | Some idx =>
              match bfs_loop (bfs_fuel idx) q idx 0 [start] (MkBfs {[TermKey start]} ∅ [] []) with
              | Some r => Ok r
              | None => Err (Sentinel "model: out of fuel")
              end
          end
      end
  end.
End traversal.

(** ** The graph relation *)

(** One step along an edge a query may traverse, on term keys. *)
Definition edge (q : ReachabilityQuery) (m : gcontent) (k k' : string) : Prop :=
  ∃ t, t ∈ graph_triples m ∧ rq_matches q (keyAt t posP) = true ∧
    keyAt t (if Inverse q then posO else posS) = k ∧ TermKey (far_end q t) = k'.

Definition keys_of (l : list Term) : gset string := list_to_set (TermKey <$> l).

(** ** One iteration *)

Lemma visit_spec n s :
  emitted (visit n s) = {[TermKey n]} ∪ emitted s ∧
  expanded (visit n s) = {[TermKey n]} ∪ expanded s ∧
  (∀ k, k ∈ TermKey <$> next (visit n s) ↔ k ∈ TermKey <$> next s ∨ (k = TermKey n ∧ k ∉ expanded s)).
Proof.
  unfold visit. destruct s as [ex em r nx]; cbn [expanded emitted bfs_result next].
  destruct (decide (TermKey n ∈ em)); cbn [expanded emitted bfs_result next];
    destruct (decide (TermKey n ∈ ex)); cbn [expanded emitted bfs_result next];
    (split_and!; [set_solver|set_solver|intros k; rewrite ?fmap_app; set_solver]).
Qed.

(** The result lists each emitted key once. *)
Definition result_ok (s : bfs) : Prop :=
  NoDup (TermKey <$> bfs_result s) ∧ ∀ k, k ∈ TermKey <$> bfs_result s ↔ k ∈ emitted s.

Lemma visit_result n s : result_ok s → result_ok (visit n s).
Proof.
  intros [Hn Hk]. unfold visit, result_ok. destruct s as [ex em r nx]; cbn [expanded emitted bfs_result next] in *.
  assert (Hadd : TermKey n ∉ em → result_ok (MkBfs ex ({[TermKey n]} ∪ em) (r ++ [n]) nx)).
  { intros Hne. split; cbn [emitted bfs_result]; rewrite fmap_app.
    - apply NoDup_app. split_and!; [done| |apply NoDup_singleton]. set_solver.
    - intros k. rewrite elem_of_app, Hk. set_solver. }
  destruct (decide (TermKey n ∈ em)) as [Hin|Hin]; cbn [expanded emitted bfs_result next];
    destruct (decide (TermKey n ∈ ex)); cbn [expanded emitted bfs_result next]; auto.
  all: by apply Hadd.
Qed.

(** Visiting a list of nodes. *)
Lemma visits_spec l s :
  let s' := foldl (λ s n, visit n s) s l in
  emitted s' = keys_of l ∪ emitted s ∧
  expanded s' = keys_of l ∪ expanded s ∧
  (∀ k, k ∈ TermKey <$> next s' ↔ k ∈ TermKey <$> next s ∨ (k ∈ TermKey <$> l ∧ k ∉ expanded s)) ∧
  (result_ok s → result_ok s').
Proof.
  revert s. induction l as [|n l IH]; intros s; cbn [foldl].
  { unfold keys_of. split_and!; [set_solver..|done]. }
  destruct (visit_spec n s) as (V1 & V2 & V3). destruct (IH (visit n s)) as (I1 & I2 & I3 & I4).
  rewrite fmap_cons. split_and!.
  - rewrite I1, V1. unfold keys_of. set_solver.
  - rewrite I2, V2. unfold keys_of. set_solver.
  - intros k. rewrite I3, V2, V3. clear. destruct (decide (k = TermKey n)); set_solver.
  - intros Hr. by apply I4, visit_result.
Qed.

Section theory.
Context `{GoRange}.
Context (q : ReachabilityQuery) (idx : tripleIndex) (Hidx : ti_ok idx).
Implicit Types (s : bfs).

Let E : string → string → Prop := edge q (content idx).

(** The nodes at the far ends of the edges of a node. *)
Definition successors (node : Term) : list Term :=
  far_end q <$> filter (λ t, rq_matches q (keyAt t posP) = true)
    (top_list (top_at (if Inverse q then osp idx else spo idx) (TermKey node))).

Lemma drive_visit l s :
  drive l (visit_edge q) s =
  (true, foldl (λ s n, visit n s) s (far_end q <$> filter (λ t, rq_matches q (keyAt t posP) = true) l)).
Proof.
  revert s. induction l as [|t l IH]; intros s; [done|]. cbn [drive]. unfold visit_edge at 1.
  change (TermKey (TURIRef (Predicate t))) with (keyAt t posP). rewrite filter_cons.
  destruct (rq_matches q (keyAt t posP)) eqn:Em; cbn [negb];
    [rewrite decide_True by done|rewrite decide_False by done]; by rewrite IH.
Qed.

Lemma expand_node_visits s node : expand_node q idx s node = foldl (λ s n, visit n s) s (successors node).
Proof. unfold expand_node, under. by rewrite eachTop_list, drive_visit. Qed.

Lemma expand_visits frontier s :
  foldl (expand_node q idx) s frontier = foldl (λ s n, visit n s) s (mjoin (successors <$> frontier)).
Proof.
  revert s. induction frontier as [|n l IH]; intros s; [done|]. cbn [foldl fmap list_fmap mjoin list_join].
  by rewrite foldl_app, IH, expand_node_visits.
Qed.

Lemma successors_elem node n :
  n ∈ successors node ↔ ∃ t, t ∈ graph_triples (content idx) ∧ rq_matches q (keyAt t posP) = true ∧
    keyAt t (if Inverse q then posO else posS) = TermKey node ∧ n = far_end q t.
Proof using Hidx.
  unfold successors. rewrite list_elem_of_fmap. setoid_rewrite list_elem_of_filter.
  set (i := if Inverse q then osp idx else spo idx). set (p := if Inverse q then posO else posS).
  assert (Hi : index_ok p i) by (unfold i, p; destruct (Inverse q); apply Hidx).
  assert (Hd : index_den i ≡ₚ triples idx).
  { unfold i. destruct (Inverse q); [apply (ok_osp_den _ Hidx)|done]. }
  assert (Ht : ∀ t, t ∈ top_list (top_at i (TermKey node)) ↔ t ∈ graph_triples (content idx) ∧ keyAt t p = TermKey node).
  { intros t. rewrite (top_list_den (p2 i) (p3 i)) by (eapply top_at_ok, Hi).
    rewrite <- (index_filter1 p) by done. rewrite list_elem_of_filter, Hd, (content_perm idx Hidx). tauto. }
  apply exist_proper. intros t. rewrite Ht. tauto.
Qed.

Lemma successors_edge node k : k ∈ TermKey <$> successors node ↔ E (TermKey node) k.
Proof using Hidx.
  unfold edge. rewrite list_elem_of_fmap. setoid_rewrite successors_elem. split.
  - intros (n & -> & t & Hin & Hm & Hk & ->). by exists t.
  - intros (t & Hin & Hm & Hk & <-). exists (far_end q t). split; [done|]. by exists t.
Qed.

Lemma successors_all frontier k :
  k ∈ TermKey <$> mjoin (successors <$> frontier) ↔ ∃ n, n ∈ TermKey <$> frontier ∧ E n k.
Proof using Hidx.
  rewrite list_elem_of_fmap. setoid_rewrite list_elem_of_join. split.
  - intros (t & -> & l & Hin & Hl). apply list_elem_of_fmap in Hl as (n & -> & Hn).
    exists (TermKey n). split; [by apply list_elem_of_fmap_2|]. apply successors_edge. by apply list_elem_of_fmap_2.
  - intros (k' & (n & -> & Hn)%list_elem_of_fmap & He). apply successors_edge in He.
    apply list_elem_of_fmap in He as (t & -> & Ht). exists t. split; [done|].
    exists (successors n). split; [done|]. by apply list_elem_of_fmap_2.
Qed.

(** The terms of a traversal are those of the triples. *)
Definition far_terms (l : list Term) : Prop := ∀ n, n ∈ l → ∃ t, t ∈ graph_triples (content idx) ∧ n = far_end q t.

Lemma visits_terms l s : far_terms l → far_terms (bfs_result s) → far_terms (bfs_result (foldl (λ s n, visit n s) s l)).
Proof.
  revert s. induction l as [|n l IH]; intros s Hl Hs; [done|]. cbn [foldl]. apply IH; [intros a Ha; apply Hl, elem_of_cons; by right|].
  assert (Hn : far_terms (bfs_result s ++ [n])).
  { intros a [Ha|Ha]%elem_of_app; [by apply Hs|]. apply list_elem_of_singleton in Ha as ->. apply Hl, elem_of_cons. by left. }
  unfold visit. destruct (decide (TermKey n ∈ emitted s)), (decide _); done.
Qed.

Lemma bfs_loop_terms fuel : ∀ depth frontier s r,
  bfs_loop fuel q idx depth frontier s = Some r → far_terms (bfs_result s) → far_terms r.
Proof using Hidx.
  induction fuel as [|fuel IH]; intros depth frontier s r; destruct frontier as [|n l]; cbn [bfs_loop]; try (by intros [= <-]).
  - destruct (_ && _); [by intros [= <-]|done].
  - destruct (_ && _); [by intros [= <-]|]. intros Hr Hs. eapply IH; [exact Hr|]. rewrite expand_visits. apply visits_terms; [|done].
    intros a (ns & Ha & Hns)%list_elem_of_join. apply list_elem_of_fmap in Hns as (node & -> & _).
    apply successors_elem in Ha as (t & Ht & _ & _ & ->). by exists t.
Qed.

(** The invariant of the outer loop at depth [d]. *)
Record bfs_inv (start : string) (d : nat) (frontier : list Term) (s : bfs) : Prop := {
  inv_result : result_ok s;
  inv_expanded : ∀ k, k ∈ expanded s ↔ k = start ∨ k ∈ emitted s;
  inv_frontier : ∀ k, k ∈ TermKey <$> frontier → k ∈ expanded s;
  inv_sound : ∀ k, k ∈ emitted s → ∃ n, 1 ≤ n ≤ d ∧ nsteps E n start k;
  inv_depth : ∀ k, k ∈ TermKey <$> frontier → ∃ n, n ≤ d ∧ nsteps E n start k;
  inv_closed : ∀ k k', k ∈ expanded s → k ∉ TermKey <$> frontier → E k k' → k' ∈ emitted s;
  inv_complete : ∀ n k, 1 ≤ n ≤ d → nsteps E n start k → k ∈ emitted s
}.

Lemma bfs_inv_init start : bfs_inv (TermKey start) 0 [start] (MkBfs {[TermKey start]} ∅ [] []).
Proof using Type.
  clear Hidx.
  split; cbn [expanded emitted bfs_result next].
  - split; [constructor|]. cbn. set_solver.
  - set_solver.
  - set_solver.
  - set_solver.
  - intros k [Hk|Hk%not_elem_of_nil]%elem_of_cons; [|done]. subst k. exists 0. split; [lia|constructor].
  - set_solver.
  - lia.
Qed.

Lemma bfs_inv_step start d frontier s :
  bfs_inv start d frontier s →
  let s' := foldl (expand_node q idx) (MkBfs (expanded s) (emitted s) (bfs_result s) []) frontier in
  bfs_inv start (S d) (next s') s' ∧
  expanded s ⊆ expanded s' ∧ (∀ k, k ∈ TermKey <$> next s' → k ∉ expanded s ∧ k ∈ expanded s').
Proof using Hidx.
  intros [Hr He Hf Hs Hd Hc Hm]. cbv zeta. rewrite expand_visits.
  destruct (visits_spec (mjoin (successors <$> frontier)) (MkBfs (expanded s) (emitted s) (bfs_result s) []))
    as (V1 & V2 & V3 & V4). set (s' := foldl _ _ _) in *. cbn [expanded emitted bfs_result next] in *.
  specialize (V4 Hr).
  assert (Hem : ∀ k, k ∈ emitted s' ↔ (∃ n, n ∈ TermKey <$> frontier ∧ E n k) ∨ k ∈ emitted s).
  { intros k. rewrite V1, elem_of_union. unfold keys_of. by rewrite elem_of_list_to_set, successors_all. }
  assert (Hex : ∀ k, k ∈ expanded s' ↔ (∃ n, n ∈ TermKey <$> frontier ∧ E n k) ∨ k ∈ expanded s).
  { intros k. rewrite V2, elem_of_union. unfold keys_of. by rewrite elem_of_list_to_set, successors_all. }
  assert (Hnx : ∀ k, k ∈ TermKey <$> next s' ↔ (∃ n, n ∈ TermKey <$> frontier ∧ E n k) ∧ k ∉ expanded s).
  { intros k. rewrite V3, successors_all. cbn. set_solver. }
  assert (Hedge : ∀ k k', k ∈ expanded s → E k k' → k' ∈ emitted s').
  { intros k k' Hk Hkk. apply Hem. destruct (decide (k ∈ TermKey <$> frontier)); [left; eauto|right; eauto]. }
  split; [split|].
  - exact V4.
  - intros k. rewrite Hex, Hem, He. tauto.
  - intros k. rewrite Hnx, Hex. tauto.
  - intros k [(n & Hn & Hnk)|Hk]%Hem.
    + destruct (Hd n Hn) as (j & Hj & Hsj). exists (S j). split; [lia|]. by eapply nsteps_r.
    + destruct (Hs k Hk) as (j & Hj & ?). exists j. split; [lia|done].
  - intros k [(n & Hn & Hnk) _]%Hnx. destruct (Hd n Hn) as (j & Hj & Hsj). exists (S j).
    split; [lia|]. by eapply nsteps_r.
  - intros k k' Hk Hnk. apply Hedge. apply Hex in Hk as [Hk|Hk]; [|done].
    destruct (decide (k ∈ expanded s)); [done|]. destruct Hnk. by apply Hnx.
  - intros n k Hn Hst. destruct n as [|n]; [lia|]. apply nsteps_inv_r in Hst as (k' & Hst & Hkk).
    apply (Hedge k'); [|done]. apply He. destruct n as [|n]; [left; by inversion Hst|]. right. apply (Hm (S n)); [lia|done].
  - split; [intros k; rewrite Hex; tauto|]. intros k. rewrite Hnx, Hex. tauto.
Qed.
End theory.

(** ** The whole traversal *)

Section loop.
Context `{GoRange}.
Context (q : ReachabilityQuery) (idx : tripleIndex).
Implicit Types (s : bfs).

(** Every node the traversal can meet. *)
Definition universe (start : string) : gset string :=
  {[start]} ∪ keys_of (far_end q <$> triples idx).

Lemma keys_of_size l : size (keys_of l) ≤ length l.
Proof.
  induction l as [|n l IH]; [done|]. unfold keys_of in *. cbn [fmap list_fmap list_to_set].
  rewrite size_union_alt, size_singleton. cbn [length].
  assert (size ((list_to_set (TermKey <$> l) : gset string) ∖ {[TermKey n]}) ≤ size (list_to_set (TermKey <$> l) : gset string))
    by (apply subseteq_size; set_solver).
  lia.
Qed.

Lemma universe_size start : size (universe start) ≤ 1 + length (triples idx).
Proof.
  unfold universe. rewrite size_union_alt, size_singleton.
  assert (size (keys_of (far_end q <$> triples idx) ∖ {[start]}) ≤ size (keys_of (far_end q <$> triples idx)))
    by (apply subseteq_size; set_solver).
  pose proof (keys_of_size (far_end q <$> triples idx)) as Hl. rewrite length_fmap in Hl. lia.
Qed.

Lemma edge_universe start k k' : ti_ok idx → edge q (content idx) k k' → k' ∈ universe start.
Proof.
  intros Hidx (t & Hin & _ & _ & <-). unfold universe, keys_of. rewrite (content_perm idx Hidx) in Hin.
  apply elem_of_union_r, elem_of_list_to_set. by do 2 apply list_elem_of_fmap_2.
Qed.

(** The specification: a path of at least one and at most [MaxDepth] steps. *)
Definition reaches (m : gcontent) (start k : string) : Prop :=
  ∃ n, 1 ≤ n ∧ ((0 < MaxDepth q)%Z → (Z.of_nat n ≤ MaxDepth q)%Z) ∧ nsteps (edge q m) n start k.

Lemma closed_nsteps start d s n k :
  bfs_inv q idx start d [] s → nsteps (edge q (content idx)) n start k → 1 ≤ n → k ∈ emitted s.
Proof.
  intros Hi. revert k. induction n as [|n IH]; intros k Hst Hn; [lia|].
  apply nsteps_inv_r in Hst as (k' & Hst & Hkk). apply (inv_closed _ _ _ _ _ _ Hi k'); [|cbn; set_solver|done].
  apply (inv_expanded _ _ _ _ _ _ Hi). destruct n as [|n]; [left; by inversion Hst|]. right. apply IH; [done|lia].
Qed.

Lemma bfs_loop_ok start fuel : ∀ d frontier s,
  ti_ok idx → bfs_inv q idx start d frontier s → expanded s ⊆ universe start →
  ((0 < MaxDepth q)%Z → (Z.of_nat d ≤ MaxDepth q)%Z) →
  (frontier = [] ∨ 1 + (size (universe start) - size (expanded s)) ≤ fuel) →
  ∃ r, bfs_loop fuel q idx (Z.of_nat d) frontier s = Some r ∧
    NoDup (TermKey <$> r) ∧ ∀ k, k ∈ TermKey <$> r ↔ reaches (content idx) start k.
Proof.
  induction fuel as [|fuel IH]; intros d frontier s Hidx Hi Hu Hd Hf.
  all: assert (Hsound : ∀ k, k ∈ emitted s → reaches (content idx) start k)
    by (intros k Hk; destruct (inv_sound _ _ _ _ _ _ Hi k Hk) as (n & Hn & Hst); exists n; split_and!; [lia|lia|done]).
  all: destruct (inv_result _ _ _ _ _ _ Hi) as [Hnd Hres].
  all: destruct frontier as [|node rest];
    [cbn; exists (bfs_result s); split_and!; [done|done|]; intros k; rewrite Hres; split; [by apply Hsound|];
     intros (n & Hn & _ & Hst); by eapply closed_nsteps|].
  { destruct Hf as [Hf|Hf]; [done|lia]. }
  destruct Hf as [Hf|Hf]; [done|].
  cbn [bfs_loop]. destruct (_ && _) eqn:Eb.
  - apply andb_true_iff in Eb as [E1%Z.ltb_lt E2%Z.leb_le]. exists (bfs_result s). split_and!; [done|done|].
    intros k. rewrite Hres. split; [by apply Hsound|]. intros (n & Hn & Hmax & Hst).
    apply (inv_complete _ _ _ _ _ _ Hi n); [lia|done].
  - destruct (bfs_inv_step q idx Hidx start d _ s Hi) as (Hi' & Hsub & Hnew).
    set (s' := foldl _ _ _) in *. replace (Z.of_nat d + 1)%Z with (Z.of_nat (S d)) by lia.
    assert (Hu' : expanded s' ⊆ universe start).
    { intros k Hk. apply (inv_expanded _ _ _ _ _ _ Hi') in Hk as [->|Hk]; [unfold universe; set_solver|].
      destruct (inv_sound _ _ _ _ _ _ Hi' k Hk) as (n & Hn & Hst). destruct n as [|n]; [lia|].
      apply nsteps_inv_r in Hst as (k' & _ & Hkk). by eapply edge_universe. }
    apply IH; [done|done|done| |].
    + intros Hmax. apply andb_false_iff in Eb as [E%Z.ltb_ge|E%Z.leb_gt]; lia.
    + destruct (next s') as [|n l] eqn:En; [by left|right].
      destruct (Hnew (TermKey n)) as [Hno Hyes]; [set_solver|].
      assert (Hlt : size (expanded s) < size (expanded s')) by (apply subset_size; set_solver).
      pose proof (subseteq_size _ _ Hu'). lia.
Qed.

Lemma bfs_start_ok start :
  ti_ok idx → ∃ r, bfs_loop (bfs_fuel idx) q idx 0 [start] (MkBfs {[TermKey start]} ∅ [] []) = Some r ∧
    NoDup (TermKey <$> r) ∧ ∀ k, k ∈ TermKey <$> r ↔ reaches (content idx) (TermKey start) k.
Proof.
  intros Hidx. apply (bfs_loop_ok (TermKey start) (bfs_fuel idx) 0); [done|apply bfs_inv_init| |lia|].
  - cbn [expanded]. unfold universe. set_solver.
  - right. cbn [expanded]. rewrite size_singleton. pose proof (universe_size (TermKey start)). unfold bfs_fuel. lia.
Qed.
End loop.

Lemma graph_triples_empty t : t ∉ graph_triples ∅.
Proof. unfold graph_triples. rewrite map_to_list_empty. apply not_elem_of_nil. Qed.

Lemma Reachable_ok `{GoRange} (m : MemoryStore) q start : ms_ok m → Start q = Some start →
  ∃ r, Reachable None q m = Ok r ∧ NoDup (TermKey <$> r) ∧
    (∀ k, k ∈ TermKey <$> r ↔ reaches q (ds_graph (ms_abs m) (rq_Context q)) (TermKey start) k) ∧
    ∀ n, n ∈ r → ∃ t, t ∈ graph_triples (ds_graph (ms_abs m) (rq_Context q)) ∧ n = far_end q t.
Proof.
  intros Hm Hq. pose proof (ms_index_content m (rq_Context q) Hm) as Hi. unfold Reachable. rewrite Hq.
  destruct (ms_index m (rq_Context q)) as [idx|].
  - destruct Hi as [Hi <-]. destruct (bfs_start_ok q idx start Hi) as (r & Er & Hnd & Hr). rewrite Er. exists r.
    split_and!; [done..|]. eapply (bfs_loop_terms q idx Hi); [exact Er|]. by intros n ?%elem_of_nil.
  - exists []. split_and!; [done|constructor| |by intros n ?%elem_of_nil]. intros k. rewrite Hi. split; [by intros ?%not_elem_of_nil|].
    intros (n & Hn & _ & Hst). destruct n as [|n]; [lia|]. exfalso. inversion Hst as [|? ? ? ? (t & Hin & _) _].
    by apply graph_triples_empty in Hin.
Qed.

Lemma reaches_tc q m start k : (MaxDepth q ≤ 0)%Z → reaches q m start k ↔ tc (edge q m) start k.
Proof. intros Hmax. rewrite tc_nsteps. unfold reaches. naive_solver lia. Qed.

(** ** Properties *)

(** C26: [Reachable] always returns (cycles terminate), and its result is a set: it
    lists, once each, exactly the nodes with a path of one or more allowed edges
    from the start, of at most [MaxDepth] edges when that is positive; the start is
    in it only when a cycle leads back, and literals are reached but lead nowhere.
    Without a depth bound the result is the transitive closure. *)
Theorem reachable_is_transitive_closure : ∀ `{GoRange} ops q start,
  Start q = Some start →
  let m := ds_graph (ds_run ops) (rq_Context q) in
  ∃ r, Reachable None q (store_run NewMemoryStore ops) = Ok r ∧ NoDup (TermKey <$> r) ∧
    (∀ k, k ∈ TermKey <$> r ↔ reaches q m (TermKey start) k) ∧
    ((MaxDepth q ≤ 0)%Z → ∀ k, k ∈ TermKey <$> r ↔ tc (edge q m) (TermKey start) k).
Proof.
  intros R ops q start Hq d. destruct (ms_run_ok ops) as [Hm Ha]. set (m := store_run _ ops) in *.
  unfold d. rewrite <- Ha. clear d. destruct (Reachable_ok m q start Hm Hq) as (r & Er & Hnd & Hr & _).
  exists r. split_and!; [done..|]. intros Hmax k. by rewrite Hr, reaches_tc.
Qed.

Definition ex_query : ReachabilityQuery :=
  MkQuery (Some (TURIRef (ex_iri "s"))) [ex_iri "p"] false false 0 None.

Lemma reachable_is_transitive_closure_witness :
  let R := sorted_range in
  let m := ds_graph (ds_run [DsAdd ex_triple None]) None in
  ∃ r, Reachable None ex_query (store_run NewMemoryStore [DsAdd ex_triple None]) = Ok r ∧ NoDup (TermKey <$> r) ∧
    (∀ k, k ∈ TermKey <$> r ↔ reaches ex_query m (TermKey (TURIRef (ex_iri "s"))) k) ∧
    ((MaxDepth ex_query ≤ 0)%Z → ∀ k, k ∈ TermKey <$> r ↔ tc (edge ex_query m) (TermKey (TURIRef (ex_iri "s"))) k).
Proof. intros R m. apply (reachable_is_transitive_closure [DsAdd ex_triple None] ex_query). reflexivity. Defined.
