(* ===== verification/Graph.v ===== *)
(** * Graphs over a store

    [graph/graph.go] and [graph/resource.go]: a graph is a view of one context of a
    store.  The store is shared and mutable, so its state is an argument of every
    operation; the theorems are proved against the store contract and hold for
    every backend that keeps it. *)

From S2P Require Import Prelude GoStrings Term TermKey TripleIndex Store MemoryStore.
From stdpp Require Import options.

(** ** The code *)

(** [identifier] is never nil in a graph built by a constructor other than
    [NewGraphFromStore]. *)
Record Graph_ := MkGraph { identifier : option Term; base : string }.

Definition defaultBindings : list NamespaceBinding :=
  [MkBinding "rdf" (NewURIRefUnsafe "http://www.w3.org/1999/02/22-rdf-syntax-ns#");
   MkBinding "rdfs" (NewURIRefUnsafe "http://www.w3.org/2000/01/rdf-schema#");
   MkBinding "xsd" (NewURIRefUnsafe XSDNamespace);
   MkBinding "owl" (NewURIRefUnsafe "http://www.w3.org/2002/07/owl#")].

Definition default_identifier (id : option Term) : option Term :=
  match id with
  | None => Some (TURIRef DefaultGraph)
  | Some _ => id
  end.

Definition NewGraphFromStore (id : option Term) : Graph_ := MkGraph id EmptyString.

(** [distinct]: once per key, and an error ends the sequence. *)
Fixpoint distinct_go {T} (key : Triple → string) (pick : Triple → T) (seen : gset string) (seq : TripleIterator)
    : list (result T) :=
  match seq with
  | [] => []
  | Err e :: _ => [Err e]
  | Ok t :: seq =>
      let k := key t in
      if decide (k ∈ seen) then distinct_go key pick seen seq
      else Ok (pick t) :: distinct_go key pick ({[k]} ∪ seen) seq
  end.
Definition distinct {T} (seq : TripleIterator) (key : Triple → string) (pick : Triple → T) : list (result T) :=
  distinct_go key pick ∅ seq.

Definition predicateOf (t : Triple) : Term := TURIRef (Predicate t).

(** The loop of [AllNodes]: the last term seen under a key stays. *)
Fixpoint collect_nodes (seen : gmap string Term) (seq : TripleIterator) : result (gmap string Term) :=
  match seq with
  | [] => Ok seen
  | Err e :: _ => Err e
  | Ok t :: seq =>
      collect_nodes (<[TermKey (Object t) := Object t]> (<[TermKey (Subject t) := Subject t]> seen)) seq
  end.

(** The closure [visit] of [Connected]: [visited] and [stack], whose head is the
    top. *)
Fixpoint visit_terms (visited : gset string) (stack : list Term) (seq : TermIterator) : result (gset string * list Term) :=
  match seq with
  | [] => Ok (visited, stack)
  | Err e :: _ => Err e
  | Ok t :: seq =>
      let k := TermKey t in
      if decide (k ∈ visited) then visit_terms visited stack seq
      else visit_terms ({[k]} ∪ visited) (t :: stack) seq
  end.

Section graph.
Context {St : Type} `{Store St}.

(** [BindDefaults]: bind each prefix until one fails. *)
Fixpoint bind_all (ctx : Context) (bs : list NamespaceBinding) (s : St) : result unit * St :=
  match bs with
  | [] => (Ok tt, s)
  | b :: bs =>
      match Bind ctx (nb_Prefix b) (nb_Namespace b) s with
      | (Err e, s) => (Err e, s)
      | (Ok _, s) => bind_all ctx bs s
      end
  end.
Definition BindDefaults (ctx : Context) (s : St) : result unit * St := bind_all ctx defaultBindings s.

Definition g_Add (ctx : Context) (g : Graph_) (s : Term) (p : URIRef) (o : Term) (st : St) : result unit * St :=
  Add ctx (MkTriple s p o) (identifier g) st.

Definition g_Remove (ctx : Context) (g : Graph_) (s : option Term) (p : option URIRef) (o : option Term) (st : St)
    : result unit * St :=
  Remove ctx (MkPattern s p o) (identifier g) st.

Definition g_Set (ctx : Context) (g : Graph_) (s : Term) (p : URIRef) (o : Term) (st : St) : result unit * St :=
  Set_ ctx (MkTriple s p o) (identifier g) st.

Definition g_Len (ctx : Context) (g : Graph_) (st : St) : result Z := Len ctx (identifier g) st.

(** The loop of [Contains] returns in its first iteration. *)
Definition g_Contains (ctx : Context) (g : Graph_) (s : option Term) (p : URIRef) (o : option Term) (st : St) : result bool :=
  match Triples ctx (MkPattern s (Some p) o) (identifier g) st with
  | [] => Ok false
  | Ok _ :: _ => Ok true
  | Err e :: _ => Err e
  end.

Definition g_Triples (ctx : Context) (g : Graph_) (s : option Term) (p : option URIRef) (o : option Term) (st : St)
    : TripleIterator :=
  Triples ctx (MkPattern s p o) (identifier g) st.

Definition g_Subjects (ctx : Context) (g : Graph_) (p : option URIRef) (o : option Term) (st : St) : TermIterator :=
  distinct (g_Triples ctx g None p o st) (λ t, TermKey (Subject t)) Subject.

Definition g_Predicates (ctx : Context) (g : Graph_) (s o : option Term) (st : St) : TermIterator :=
  distinct (g_Triples ctx g s None o st) (λ t, TermKey (predicateOf t)) predicateOf.

Definition g_Objects (ctx : Context) (g : Graph_) (s : option Term) (p : option URIRef) (st : St) : TermIterator :=
  distinct (g_Triples ctx g s p None st) (λ t, TermKey (Object t)) Object.

Definition g_SubjectPredicates (ctx : Context) (g : Graph_) (o : option Term) (st : St) : list (result TermPair) :=
  distinct (g_Triples ctx g None None o st)
    (λ t, TermKey (Subject t) +:+ "|" +:+ TermKey (predicateOf t)) (λ t, MkPair (Subject t) (predicateOf t)).

Definition g_SubjectObjects (ctx : Context) (g : Graph_) (p : option URIRef) (st : St) : list (result TermPair) :=
  distinct (g_Triples ctx g None p None st)
    (λ t, TermKey (Subject t) +:+ "|" +:+ TermKey (Object t)) (λ t, MkPair (Subject t) (Object t)).

Definition g_PredicateObjects (ctx : Context) (g : Graph_) (s : option Term) (st : St) : list (result TermPair) :=
  distinct (g_Triples ctx g s None None st)
    (λ t, TermKey (predicateOf t) +:+ "|" +:+ TermKey (Object t)) (λ t, MkPair (predicateOf t) (Object t)).

(** [Value]: exactly two positions bound; the first match gives the third. *)
Definition n_bound (s : option Term) (p : option URIRef) (o : option Term) : nat :=
  (if s then 1 else 0) + (if p then 1 else 0) + (if o then 1 else 0).

Definition g_Value (ctx : Context) (g : Graph_) (s : option Term) (p : option URIRef) (o : option Term) (st : St)
    : result (option Term) :=
  if negb (n_bound s p o =? 2) then Ok None
  else match g_Triples ctx g s p o st with
       | [] => Ok None
       | Err e :: _ => Err e
       | Ok t :: _ =>
           match s, p with
           | None, _ => Ok (Some (Subject t))
           | _, None => Ok (Some (predicateOf t))
           | _, _ => Ok (Some (Object t))
           end
       end.

(** [QName]: the binding with the longest namespace that is a proper prefix. *)
Fixpoint best_namespace (uri bestPrefix bestNS : string) (seq : NamespaceIterator) : result (string * string) :=
  match seq with
  | [] => Ok (bestPrefix, bestNS)
  | Err e :: _ => Err e
  | Ok b :: seq =>
      let nsStr := URIRef_value (nb_Namespace b) in
      if (len bestNS <? len nsStr) && (len nsStr <? len uri) && String.eqb (stake (len nsStr) uri) nsStr
      then best_namespace uri (nb_Prefix b) nsStr seq
      else best_namespace uri bestPrefix bestNS seq
  end.

Definition QName (ctx : Context) (uri : string) (st : St) : result string :=
  '(bestPrefix, bestNS) ← best_namespace uri EmptyString EmptyString (Namespaces ctx st);
  if negb (is_empty bestNS) then Ok (bestPrefix +:+ ":" +:+ sdrop (len bestNS) uri) else Ok uri.

(** [graph/resource.go]: a node of a graph. *)
Record Resource := MkResource { res_graph : Graph_; res_identifier : Term }.
Definition NewResource (g : Graph_) (id : Term) : Resource := MkResource g id.

Definition res_Add (ctx : Context) (r : Resource) (p : URIRef) (o : Term) (st : St) : result unit * St :=
  g_Add ctx (res_graph r) (res_identifier r) p o st.
Definition res_Remove (ctx : Context) (r : Resource) (p : URIRef) (o : option Term) (st : St) : result unit * St :=
  g_Remove ctx (res_graph r) (Some (res_identifier r)) (Some p) o st.
Definition res_Set (ctx : Context) (r : Resource) (p : URIRef) (o : Term) (st : St) : result unit * St :=
  g_Set ctx (res_graph r) (res_identifier r) p o st.
Definition res_Objects (ctx : Context) (r : Resource) (p : URIRef) (st : St) : TermIterator :=
  g_Objects ctx (res_graph r) (Some (res_identifier r)) (Some p) st.
Definition res_Subjects (ctx : Context) (r : Resource) (p : URIRef) (st : St) : TermIterator :=
  g_Subjects ctx (res_graph r) (Some p) (Some (res_identifier r)) st.
Definition res_Value (ctx : Context) (r : Resource) (p : URIRef) (st : St) : result (option Term) :=
  g_Value ctx (res_graph r) (Some (res_identifier r)) (Some p) None st.
Definition res_PredicateObjects (ctx : Context) (r : Resource) (st : St) : list (result TermPair) :=
  g_PredicateObjects ctx (res_graph r) (Some (res_identifier r)) st.

Context `{GoRange}.

Definition AllNodes (ctx : Context) (g : Graph_) (st : St) : result (list Term) :=
  nodes ← collect_nodes ∅ (g_Triples ctx g None None None st);
  Ok (range nodes).*2.

(** The loop of [Connected]; every iteration pops one node, and a node is pushed
    once. *)
Fixpoint connect_loop (fuel : nat) (ctx : Context) (g : Graph_) (st : St) (visited : gset string) (stack : list Term)
    : result (gset string) :=
  match stack with
  | [] => Ok visited
  | node :: stack =>
      match fuel with
      | O => Err (Sentinel "model: out of fuel")
      | S fuel =>
          '(visited, stack) ←
            (if isSubject node then visit_terms visited stack (g_Objects ctx g (Some node) None st)
             else Ok (visited, stack));
          '(visited, stack) ← visit_terms visited stack (g_Subjects ctx g None (Some node) st);
          connect_loop fuel ctx g st visited stack
      end
  end.

Definition Connected (ctx : Context) (g : Graph_) (st : St) : result bool :=
  allNodes ← AllNodes ctx g st;
  match allNodes with
  | [] => Ok true
  | n :: _ =>
      visited ← connect_loop (length allNodes) ctx g st {[TermKey n]} [n];
      Ok (bool_decide (size visited = length allNodes))
  end.
End graph.

(** ** Set operations

    The result is a new graph over a new memory store, so its state is the value
    the operation returns; its identifier is the default graph. *)

Definition new_graph : Graph_ := MkGraph (default_identifier None) EmptyString.

Section setops.
Context `{GoRange}.

(** [NewGraph()]: a new memory store with the default prefixes. *)
Definition NewGraph : MemoryStore := (BindDefaults None NewMemoryStore).2.

Fixpoint addAll_go (ctx : Context) (keep : Triple → result bool) (seq : TripleIterator) (dst : MemoryStore)
    : result unit * MemoryStore :=
  match seq with
  | [] => (Ok tt, dst)
  | Err e :: _ => (Err e, dst)
  | Ok t :: seq =>
      match keep t with
      | Err e => (Err e, dst)
      | Ok false => addAll_go ctx keep seq dst
      | Ok true =>
          match g_Add ctx new_graph (Subject t) (Predicate t) (Object t) dst with
          | (Err e, dst) => (Err e, dst)
          | (Ok _, dst) => addAll_go ctx keep seq dst
          end
      end
  end.

Context {St St' : Type} `{Store St, Store St'}.

Definition addAll {S} `{Store S} (ctx : Context) (dst : MemoryStore) (src : Graph_) (st : S) (keep : Triple → result bool)
    : result unit * MemoryStore :=
  addAll_go ctx keep (g_Triples ctx src None None None st) dst.

Definition to_result (r : result unit * MemoryStore) : result MemoryStore :=
  match r with (Ok _, m) => Ok m | (Err e, _) => Err e end.

Definition Union (ctx : Context) (g : Graph_) (st : St) (other : Graph_) (st' : St') : result MemoryStore :=
  match addAll ctx NewGraph g st (λ _, Ok true) with
  | (Err e, _) => Err e
  | (Ok _, m) => to_result (addAll ctx m other st' (λ _, Ok true))
  end.

Definition Intersection (ctx : Context) (g : Graph_) (st : St) (other : Graph_) (st' : St') : result MemoryStore :=
  to_result (addAll ctx NewGraph g st
    (λ t, g_Contains ctx other (Some (Subject t)) (Predicate t) (Some (Object t)) st')).

Definition Difference (ctx : Context) (g : Graph_) (st : St) (other : Graph_) (st' : St') : result MemoryStore :=
  to_result (addAll ctx NewGraph g st
    (λ t, negb <$> g_Contains ctx other (Some (Subject t)) (Predicate t) (Some (Object t)) st')).
End setops.

(** ** Sequences without errors *)

(** The first element of each key that is not in [seen]. *)
Fixpoint first_by {A} (key : A → string) (seen : gset string) (l : list A) : list A :=
  match l with
  | [] => []
  | t :: l => if decide (key t ∈ seen) then first_by key seen l else t :: first_by key ({[key t]} ∪ seen) l
  end.

Lemma distinct_first_by {T} key (pick : Triple → T) seen l :
  distinct_go key pick seen (Ok <$> l) = Ok <$> (pick <$> first_by key seen l).
Proof.
  revert seen. induction l as [|t l IH]; intros seen; [done|]. cbn [fmap list_fmap distinct_go first_by].
  destruct (decide (key t ∈ seen)); [apply IH|]. cbn. f_equal. apply IH.
Qed.

Lemma first_by_spec {A} (key : A → string) seen (l : list A) :
  NoDup (key <$> first_by key seen l) ∧
  (∀ k, k ∈ key <$> first_by key seen l ↔ k ∈ key <$> l ∧ k ∉ seen) ∧
  (∀ t, t ∈ first_by key seen l → t ∈ l).
Proof.
  revert seen. induction l as [|t l IH]; intros seen; cbn [first_by].
  { split_and!; [constructor|set_solver|done]. }
  destruct (decide (key t ∈ seen)) as [Hin|Hin].
  - destruct (IH seen) as (I1 & I2 & I3). split_and!; [done| |set_solver]. intros k. rewrite I2, fmap_cons. set_solver.
  - destruct (IH ({[key t]} ∪ seen)) as (I1 & I2 & I3). rewrite !fmap_cons. split_and!.
    + apply NoDup_cons. split; [rewrite I2; set_solver|done].
    + intros k. rewrite !elem_of_cons, I2. destruct (decide (k = key t)); set_solver.
    + set_solver.
Qed.

(** What [distinct] yields over a sequence without errors. *)
Lemma distinct_ok {T} (l : list Triple) (key : Triple → string) (pick : Triple → T) :
  ∃ l', distinct (Ok <$> l) key pick = Ok <$> (pick <$> l') ∧ NoDup (key <$> l') ∧
    (∀ t, t ∈ l' → t ∈ l) ∧ ∀ k, k ∈ key <$> l' ↔ k ∈ key <$> l.
Proof.
  exists (first_by key ∅ l). destruct (first_by_spec key ∅ l) as (H1 & H2 & H3).
  split_and!; [apply distinct_first_by|done|done|]. intros k. rewrite H2. set_solver.
Qed.

(** The triples of a well-formed graph. *)
Definition graph_all (P : Triple → Prop) (m : gcontent) : Prop := keyed m ∧ ∀ k t, m !! k = Some t → P t.
Definition graph_wf (m : gcontent) : Prop := graph_all triple_wf m.

Lemma graph_triples_elem m t : keyed m → t ∈ graph_triples m ↔ m !! tkey t = Some t.
Proof.
  intros Hk. unfold graph_triples. rewrite list_elem_of_fmap. split.
  - intros ([k t'] & -> & Hin%elem_of_map_to_list). cbn [snd]. by rewrite (Hk _ _ Hin).
  - intros Ht. exists (tkey t, t). split; [done|]. by apply elem_of_map_to_list.
Qed.

Lemma matching_keyed p m : keyed m → keyed (matching p m).
Proof. intros Hk k t [Hm _]%map_lookup_filter_Some. by apply Hk. Qed.

Lemma matching_elem p m t : keyed m → t ∈ graph_triples (matching p m) ↔ t ∈ graph_triples m ∧ pattern_matches p t = true.
Proof.
  intros Hk. rewrite !graph_triples_elem by auto using matching_keyed. unfold matching.
  by rewrite map_lookup_filter_Some.
Qed.

Lemma matching_all m : matching (MkPattern None None None) m = m.
Proof. apply map_filter_id. done. Qed.

Section all_triples.
Context (P : Triple → Prop).

Lemma graph_all_empty : graph_all P ∅.
Proof. by split. Qed.

Lemma graph_all_add (m : gmap tkey_t Triple) t : graph_all P m → P t → graph_all P (graph_add m t).
Proof.
  intros Hm Ht. unfold graph_add. destruct (m !! tkey t); [done|].
  destruct Hm as [Hk Hw]. split.
  - apply map_Forall_insert_2; [done|exact Hk].
  - apply (map_Forall_insert_2 (λ _ u, P u)); [done|exact Hw].
Qed.

Lemma graph_all_filter (Q : tkey_t * Triple → Prop) `{∀ x, Decision (Q x)} (m : gmap tkey_t Triple) : graph_all P m → graph_all P (filter Q m).
Proof. intros [Hk Hw]. split; intros k t [Hm _]%map_lookup_filter_Some; [by apply Hk|by eapply Hw]. Qed.

(** The triples an operation writes. *)
Definition op_triples (o : ds_op) : list Triple :=
  match o with
  | DsAdd t _ | DsSet t _ => [t]
  | DsAddN qs => quad_Triple <$> qs
  | DsRemove _ _ => []
  end.

Definition ds_all (d : dataset) : Prop := ∀ g, graph_all P (ds_graph d g).

Lemma ds_update_all d g m : ds_all d → graph_all P m → ds_all (ds_update d g m).
Proof.
  intros Hd Hm g'. destruct (decide (graph_key g = graph_key g')) as [E|E]; [|by rewrite ds_update_other].
  replace (ds_graph (ds_update d g m) g') with m; [done|]. unfold ds_graph. rewrite <- E.
  symmetry. apply ds_update_same.
Qed.

Lemma ds_step_all d o : ds_all d → (∀ t, t ∈ op_triples o → P t) → ds_all (ds_step d o).
Proof.
  destruct o as [t g|t g|qs|p g]; cbn [op_triples ds_step]; intros Hd Ht.
  - apply ds_update_all; [done|]. apply graph_all_add; [done|]. apply Ht. set_solver.
  - apply ds_update_all; [done|]. apply graph_all_add; [by apply graph_all_filter|]. apply Ht. set_solver.
  - revert d Hd Ht. induction qs as [|q qs IH]; intros d Hd Ht; [done|]. rewrite fmap_cons in Ht. cbn [foldl].
    apply IH; [|set_solver]. apply ds_update_all; [done|]. apply graph_all_add; [done|]. apply Ht. set_solver.
  - apply ds_update_all; [done|]. by apply graph_all_filter.
Qed.

(** Operations on triples with a property keep it of every graph. *)
Lemma ds_run_all ops g : (∀ o, o ∈ ops → ∀ t, t ∈ op_triples o → P t) → graph_all P (ds_graph (ds_run ops) g).
Proof.
  intros Hops. assert (Hd : ds_all (foldl ds_step (MkDataset ∅ ∅) ops)); [|apply Hd].
  assert (H0 : ds_all (MkDataset ∅ ∅)).
  { intros g'. unfold ds_graph. destruct (graph_key g'); apply graph_all_empty. }
  revert H0 Hops. generalize (MkDataset ∅ ∅). induction ops as [|o ops IH]; intros d Hd Hops; [done|]. cbn [foldl].
  apply IH; [apply ds_step_all; [done|]; apply Hops; set_solver|set_solver].
Qed.
End all_triples.

(** ** Reading a graph *)

Section reading.
Context {St : Type} `{StoreLaws St}.
Implicit Types (st : St) (g : Graph_).

Definition graph_of (st : St) (g : Graph_) : gcontent := ds_graph (sabs st) (identifier g).

Lemma g_triples_ok st g s p o :
  sinv st → ∃ l, g_Triples None g s p o st = Ok <$> l ∧ NoDup l ∧
    l ≡ₚ graph_triples (matching (MkPattern s p o) (graph_of st g)).
Proof. intros Hs. by apply triples_ok. Qed.

Lemma graph_of_keyed st g : sinv st → keyed (graph_of st g).
Proof. intros Hs. by apply graphs_keyed. Qed.

(** A projection yields each value of its key once. *)
Lemma projection_ok {T} st g s p o (key : Triple → string) (pick : Triple → T) :
  sinv st → ∃ l, distinct (g_Triples None g s p o st) key pick = Ok <$> (pick <$> l) ∧ NoDup (key <$> l) ∧
    (∀ t, t ∈ l → t ∈ graph_triples (matching (MkPattern s p o) (graph_of st g))) ∧
    ∀ k, k ∈ key <$> l ↔ k ∈ key <$> graph_triples (matching (MkPattern s p o) (graph_of st g)).
Proof.
  intros Hs. destruct (g_triples_ok st g s p o Hs) as (l & -> & _ & Hl).
  destruct (distinct_ok l key pick) as (l' & -> & Hnd & Hsub & Hk). exists l'. split_and!; [done|done| |].
  - intros t Ht. rewrite <- Hl. by apply Hsub.
  - intros k. by rewrite Hk, Hl.
Qed.

(** The keys of a projection on one term. *)
Lemma term_projection_ok st g s p o (pick : Triple → Term) :
  sinv st → ∃ l, distinct (g_Triples None g s p o st) (λ t, TermKey (pick t)) pick = Ok <$> l ∧ NoDup (TermKey <$> l) ∧
    (∀ n, n ∈ l → ∃ t, n = pick t ∧ t ∈ graph_triples (matching (MkPattern s p o) (graph_of st g))) ∧
    ∀ k, k ∈ TermKey <$> l ↔ ∃ t, t ∈ graph_triples (matching (MkPattern s p o) (graph_of st g)) ∧ TermKey (pick t) = k.
Proof.
  intros Hs. destruct (projection_ok st g s p o (λ t, TermKey (pick t)) pick Hs) as (l & -> & Hnd & Hsub & Hk).
  exists (pick <$> l).
  assert (Hc : TermKey <$> (pick <$> l) = (λ t, TermKey (pick t)) <$> l) by (by rewrite <- list_fmap_compose).
  rewrite Hc. split_and!; [done|done| |].
  - intros n (t & -> & Ht)%list_elem_of_fmap. eauto.
  - intros k. rewrite Hk, list_elem_of_fmap. naive_solver.
Qed.

(** A fully bound pattern matches one triple. *)
Lemma bound_key t : term_wf t → bound (TermKey t) = true.
Proof. intros Ht. pose proof (TermKey_nonempty t Ht). unfold bound. by destruct (TermKey t). Qed.

Lemma key_matches_self k : key_matches k k = true.
Proof. unfold key_matches. rewrite String.eqb_refl. apply orb_true_r. Qed.

Definition exact (t : Triple) : TriplePattern := MkPattern (Some (Subject t)) (Some (Predicate t)) (Some (Object t)).

Lemma exact_matches t u : triple_wf t → pattern_matches (exact t) u = true ↔ tkey u = tkey t.
Proof.
  intros (Hs & _ & Hp & Ho). unfold pattern_matches, exact. cbn [pat_Subject pat_Predicate pat_Object OptTermKey OptPredKey].
  rewrite !andb_true_iff, !key_matches_iff.
  rewrite (bound_key _ Hs), (bound_key (TURIRef (Predicate t)) Hp), (bound_key _ Ho). unfold tkey. cbn [keyAt].
  rewrite !pair_eq. naive_solver.
Qed.

Lemma g_contains_ok st g t :
  sinv st → triple_wf t →
  g_Contains None g (Some (Subject t)) (Predicate t) (Some (Object t)) st
  = Ok (bool_decide (is_Some (graph_of st g !! tkey t))).
Proof.
  intros Hs Ht. unfold g_Contains. destruct (triples_ok st (exact t) (identifier g) Hs) as (l & Hl & _ & Hp).
  unfold exact in Hl at 1. rewrite Hl. fold (graph_of st g) in Hp. pose proof (graph_of_keyed st g Hs) as Hk.
  destruct l as [|u l]; cbn.
  - rewrite bool_decide_eq_false_2; [done|]. intros [v Hv]. apply (not_elem_of_nil v). rewrite Hp.
    apply matching_elem; [done|]. pose proof (Hk _ _ Hv) as Hkv. split; [|by apply exact_matches].
    apply graph_triples_elem; [done|]. by rewrite Hkv.
  - rewrite bool_decide_eq_true_2; [done|]. assert (Hu : u ∈ u :: l) by set_solver.
    rewrite Hp in Hu. apply matching_elem in Hu as [Hu Hm]; [|done]. apply exact_matches in Hm; [|done].
    apply graph_triples_elem in Hu; [|done]. rewrite <- Hm. eauto.
Qed.
End reading.

(** ** Building a graph *)

Section building.
Context `{GoRange}.

Lemma NewGraph_ok : ms_ok NewGraph ∧ ms_abs NewGraph = MkDataset ∅ ∅.
Proof.
  destruct NewMemoryStore_ok as [Hm Ha]. unfold NewGraph, BindDefaults, defaultBindings.
  cbn [bind_all Bind MemoryStore_Store ms_Bind guard_ctx snd]. split; [|exact Ha].
  split; [apply Hm|apply Hm].
Qed.

(** The content of the graph [Union] and the others return. *)
Definition result_graph (m : MemoryStore) : gcontent := ds_graph (ms_abs m) (identifier new_graph).

Lemma addAll_go_ok (f : Triple → bool) (keep : Triple → result bool) l m :
  ms_ok m → (∀ t, t ∈ l → keep t = Ok (f t)) →
  ∃ m', addAll_go None keep (Ok <$> l) m = (Ok tt, m') ∧ ms_ok m' ∧
    result_graph m' = foldl graph_add (result_graph m) (filter (λ t, f t = true) l).
Proof.
  revert m. induction l as [|t l IH]; intros m Hm Hk; [by exists m|].
  cbn [fmap list_fmap addAll_go]. rewrite (Hk t) by set_solver.
  assert (Hk' : ∀ t, t ∈ l → keep t = Ok (f t)) by (intros; apply Hk; set_solver).
  rewrite filter_cons. destruct (f t) eqn:Ef; [rewrite decide_True by done|rewrite decide_False by done]; [|by apply IH].
  unfold g_Add. destruct (ms_step_ok m (DsAdd (MkTriple (Subject t) (Predicate t) (Object t)) (identifier new_graph)) Hm)
    as (m' & Ho & Hm' & Ha). cbn [store_step] in Ho. rewrite Ho.
  destruct (IH m' Hm' Hk') as (m'' & H1 & H2 & H3). exists m''. split_and!; [done|done|]. rewrite H3. cbn [foldl]. f_equal.
  unfold result_graph. rewrite Ha. cbn [ds_step]. unfold ds_add. rewrite ds_update_same. by destruct t.
Qed.

Lemma foldl_graph_add (l : list Triple) (m : gmap tkey_t Triple) :
  NoDup (tkey <$> l) → foldl graph_add m l = m ∪ list_to_map ((λ t, (tkey t, t)) <$> l).
Proof.
  revert m. induction l as [|t l IH]; intros m Hl; cbn [foldl fmap list_fmap list_to_map foldr].
  - by rewrite (right_id_L ∅ (∪)).
  - rewrite fmap_cons in Hl. apply NoDup_cons in Hl as [Hn Hl]. rewrite IH by done. unfold graph_add. cbn [fst snd].
    destruct (m !! tkey t) as [u|] eqn:E.
    + apply map_eq. intros k. destruct (decide (k = tkey t)) as [->|Hk].
      * by rewrite !(lookup_union_Some_l _ _ _ u).
      * destruct (m !! k) as [v|] eqn:Ek; [by rewrite !(lookup_union_Some_l _ _ _ v)|].
        rewrite !lookup_union_r by done. by rewrite lookup_insert_ne.
    + rewrite <- insert_union_l. by rewrite insert_union_r.
Qed.

(** Adding the triples of one keyed graph to another, all or some of them. *)
Lemma foldl_graph_add_all (l : list Triple) (m d : gmap tkey_t Triple) (f : Triple → bool) :
  keyed d → l ≡ₚ graph_triples d →
  foldl graph_add m (filter (λ t, f t = true) l) = m ∪ filter (λ kt, f kt.2 = true) d.
Proof.
  intros Hd Hl.
  assert (Hk : NoDup (tkey <$> graph_triples d)).
  { unfold graph_triples. rewrite <- list_fmap_compose.
    rewrite (Forall_fmap_ext_1 _ fst); [apply NoDup_fst_map_to_list|].
    apply Forall_forall. intros [k t] Hin%elem_of_map_to_list. by apply (Hd k t). }
  assert (Hnd : NoDup (tkey <$> filter (λ t, f t = true) l)).
  { assert (Hkl : NoDup (tkey <$> l)) by (by rewrite Hl). eapply sublist_NoDup; [exact Hkl|].
    apply fmap_sublist, sublist_filter. }
  rewrite foldl_graph_add by done. f_equal. apply map_eq. intros k. apply option_eq. intros t.
  rewrite <- elem_of_list_to_map by (rewrite <- list_fmap_compose; exact Hnd).
  rewrite list_elem_of_fmap, map_lookup_filter_Some. cbn. split.
  - intros (u & [= -> ->] & [Hf Hu]%list_elem_of_filter). rewrite Hl in Hu. by apply graph_triples_elem in Hu.
  - intros [Hdk Hf]. exists t. pose proof (Hd _ _ Hdk) as <-. split; [done|].
    apply list_elem_of_filter. split; [done|]. rewrite Hl. by apply graph_triples_elem.
Qed.

Context {St St' : Type} `{StoreLaws St, StoreLaws St'}.

Lemma addAll_ok (st : St) g m (f : Triple → bool) (keep : Triple → result bool) :
  sinv st → ms_ok m → (∀ t, t ∈ graph_triples (graph_of st g) → keep t = Ok (f t)) →
  ∃ m', addAll None m g st keep = (Ok tt, m') ∧ ms_ok m' ∧
    result_graph m' = result_graph m ∪ filter (λ kt, f kt.2 = true) (graph_of st g).
Proof.
  intros Hs Hm Hk. unfold addAll. destruct (g_triples_ok st g None None None Hs) as (l & -> & _ & Hl).
  rewrite matching_all in Hl.
  destruct (addAll_go_ok f keep l m Hm) as (m' & R1 & R2 & R3); [intros t Ht; apply Hk; by rewrite <- Hl|].
  exists m'. split_and!; [done|done|]. rewrite R3. apply foldl_graph_add_all; [by apply graph_of_keyed|done].
Qed.

Lemma addAll_go_ext ctx (keep keep' : Triple → result bool) l m :
  (∀ t, keep t = keep' t) → addAll_go ctx keep l m = addAll_go ctx keep' l m.
Proof.
  intros Hk. revert m. induction l as [|[t|e] l IH]; intros m; [done| |done]. cbn [addAll_go]. rewrite Hk.
  destruct (keep' t) as [[]|]; [|done|done]. by destruct (g_Add _ _ _ _ _ m) as [[] ?].
Qed.

Lemma result_graph_new : result_graph NewGraph = ∅.
Proof. unfold result_graph. rewrite (proj2 NewGraph_ok). by destruct (graph_key (identifier new_graph)). Qed.
End building.

(** ** Connectedness *)

(** Two nodes of one triple. *)
Definition adjacent (m : gcontent) (k k' : string) : Prop :=
  ∃ t, t ∈ graph_triples m ∧
    ((keyAt t posS = k ∧ keyAt t posO = k') ∨ (keyAt t posO = k ∧ keyAt t posS = k')).

Definition is_node (m : gcontent) (k : string) : Prop :=
  ∃ t, t ∈ graph_triples m ∧ (keyAt t posS = k ∨ keyAt t posO = k).

Lemma visit_terms_ok l visited stack :
  ∃ visited' stack', visit_terms visited stack (Ok <$> l) = Ok (visited', stack' ++ stack) ∧
    (∀ k, k ∈ visited' ↔ k ∈ visited ∨ k ∈ TermKey <$> l) ∧
    (∀ k, k ∈ TermKey <$> stack' ↔ k ∈ TermKey <$> l ∧ k ∉ visited) ∧
    (∀ n, n ∈ stack' → n ∈ l) ∧ size visited' = size visited + length stack'.
Proof.
  revert visited stack. induction l as [|n l IH]; intros visited stack.
  { exists visited, []. cbn. split_and!; [done|set_solver..|lia]. }
  cbn [fmap list_fmap visit_terms]. destruct (decide (TermKey n ∈ visited)) as [Hin|Hin].
  - destruct (IH visited stack) as (v & s & -> & H1 & H2 & H3 & H4). exists v, s. split_and!; try done.
    + intros k. rewrite H1. set_solver.
    + intros k. rewrite H2. set_solver.
    + set_solver.
  - destruct (IH ({[TermKey n]} ∪ visited) (n :: stack)) as (v & s & -> & H1 & H2 & H3 & H4).
    exists v, (s ++ [n]). split_and!.
    + by rewrite <- app_assoc.
    + intros k. rewrite H1. set_solver.
    + intros k. rewrite fmap_app, elem_of_app, H2. cbn. destruct (decide (k = TermKey n)); set_solver.
    + intros n' Hn. apply elem_of_app in Hn as [Hn|Hn]; set_solver.
    + rewrite H4, size_union, size_singleton, length_app by set_solver. cbn. lia.
Qed.

Lemma collect_nodes_ok l seen :
  ∃ nodes, collect_nodes seen (Ok <$> l) = Ok nodes ∧
    (∀ k, is_Some (nodes !! k) ↔ is_Some (seen !! k) ∨ ∃ t, t ∈ l ∧ (keyAt t posS = k ∨ keyAt t posO = k)) ∧
    ((∀ k n, seen !! k = Some n → TermKey n = k) → ∀ k n, nodes !! k = Some n → TermKey n = k) ∧
    (∀ k n, nodes !! k = Some n → seen !! k = Some n ∨ ∃ t, t ∈ l ∧ (n = Subject t ∨ n = Object t)).
Proof.
  revert seen. induction l as [|t l IH]; intros seen; cbn [fmap list_fmap collect_nodes].
  { exists seen. split_and!; try done; [|by left]. intros k. set_solver. }
  edestruct IH as (nodes & -> & H1 & H2 & H3). exists nodes. split_and!; [done| | |].
  - intros k. rewrite H1, !lookup_insert_is_Some'. cbn [keyAt]. set_solver.
  - intros Hs. apply H2. intros k n. rewrite !lookup_insert_Some. naive_solver.
  - intros k n Hn. apply H3 in Hn as [Hn|(u & Hu & Hun)]; [|right; exists u; set_solver].
    rewrite !lookup_insert_Some in Hn. destruct Hn as [[_ <-]|[_ [[_ <-]|[_ Hn]]]]; [right; exists t; set_solver..|by left].
Qed.

Section connected.
Context {St : Type} `{StoreLaws St} `{GoRange}.
Implicit Types (st : St) (g : Graph_).

Lemma allNodes_ok st g :
  sinv st → ∃ l, AllNodes None g st = Ok l ∧ NoDup (TermKey <$> l) ∧
    (∀ k, k ∈ TermKey <$> l ↔ is_node (graph_of st g) k) ∧
    ∀ n, n ∈ l → ∃ t, t ∈ graph_triples (graph_of st g) ∧ (n = Subject t ∨ n = Object t).
Proof.
  intros Hs. unfold AllNodes. destruct (g_triples_ok st g None None None Hs) as (l & -> & _ & Hl).
  rewrite matching_all in Hl. destruct (collect_nodes_ok l ∅) as (nodes & -> & C1 & C2 & C3).
  unfold mbind, result_bind. exists (range nodes).*2.
  assert (Hkey : TermKey <$> (range nodes).*2 ≡ₚ (map_to_list nodes).*1).
  { rewrite range_perm, <- list_fmap_compose. rewrite (Forall_fmap_ext_1 _ fst); [done|].
    apply Forall_forall. intros [k n] Hin%elem_of_map_to_list. apply C2; [|done]. intros ? ?. by rewrite lookup_empty. }
  split_and!; [done|rewrite Hkey; apply NoDup_fst_map_to_list| |].
  - intros k. rewrite Hkey. unfold is_node. setoid_rewrite <- Hl. transitivity (is_Some (nodes !! k)).
    + rewrite list_elem_of_fmap. split.
      * intros ([k' n] & -> & Hin%elem_of_map_to_list). eauto.
      * intros [n Hn]. exists (k, n). split; [done|]. by apply elem_of_map_to_list.
    + rewrite C1, lookup_empty. rewrite is_Some_alt. naive_solver.
  - intros n ([k n'] & -> & Hin)%list_elem_of_fmap. rewrite range_perm in Hin. apply elem_of_map_to_list in Hin.
    apply C3 in Hin as [Hin|(t & Ht & Hn)]; [by rewrite lookup_empty in Hin|]. exists t. by rewrite <- Hl.
Qed.

(** The neighbours [Connected] visits from a node. *)
Lemma pattern_subject n t :
  term_wf n → pattern_matches (MkPattern (Some n) None None) t = true ↔ keyAt t posS = TermKey n.
Proof.
  intros Hn. unfold pattern_matches. cbn [pat_Subject pat_Predicate pat_Object OptTermKey OptPredKey].
  rewrite !andb_true_iff, !key_matches_iff, (bound_key n Hn). naive_solver.
Qed.
Lemma pattern_object n t :
  term_wf n → pattern_matches (MkPattern None None (Some n)) t = true ↔ keyAt t posO = TermKey n.
Proof.
  intros Hn. unfold pattern_matches. cbn [pat_Subject pat_Predicate pat_Object OptTermKey OptPredKey].
  rewrite !andb_true_iff, !key_matches_iff, (bound_key n Hn). naive_solver.
Qed.

Lemma graph_triple_wf m t : graph_wf m → t ∈ graph_triples m → triple_wf t.
Proof. intros [Hk Hw] Ht. apply graph_triples_elem in Ht; [|done]. by eapply Hw. Qed.

Lemma objects_ok st g n :
  sinv st → term_wf n → ∃ l, g_Objects None g (Some n) None st = Ok <$> l ∧
    (∀ o, o ∈ l → ∃ t, t ∈ graph_triples (graph_of st g) ∧ o = Object t) ∧
    ∀ k, k ∈ TermKey <$> l ↔ ∃ t, t ∈ graph_triples (graph_of st g) ∧ keyAt t posS = TermKey n ∧ keyAt t posO = k.
Proof.
  intros Hs Hn. destruct (term_projection_ok st g (Some n) None None Object Hs) as (l & Hl & _ & Hsub & Hk).
  pose proof (graph_of_keyed st g Hs) as Hkey. exists l. split_and!; [exact Hl| |].
  - intros o (t & -> & Ht)%Hsub. apply matching_elem in Ht as [Ht _]; [eauto|done].
  - intros k. rewrite Hk. setoid_rewrite (matching_elem _ _ _ Hkey). setoid_rewrite (pattern_subject n _ Hn).
    cbn [keyAt]. naive_solver.
Qed.

Lemma subjects_ok st g n :
  sinv st → term_wf n → ∃ l, g_Subjects None g None (Some n) st = Ok <$> l ∧
    (∀ o, o ∈ l → ∃ t, t ∈ graph_triples (graph_of st g) ∧ o = Subject t) ∧
    ∀ k, k ∈ TermKey <$> l ↔ ∃ t, t ∈ graph_triples (graph_of st g) ∧ keyAt t posO = TermKey n ∧ keyAt t posS = k.
Proof.
  intros Hs Hn. destruct (term_projection_ok st g None None (Some n) Subject Hs) as (l & Hl & _ & Hsub & Hk).
  pose proof (graph_of_keyed st g Hs) as Hkey. exists l. split_and!; [exact Hl| |].
  - intros o (t & -> & Ht)%Hsub. apply matching_elem in Ht as [Ht _]; [eauto|done].
  - intros k. rewrite Hk. setoid_rewrite (matching_elem _ _ _ Hkey). setoid_rewrite (pattern_object n _ Hn).
    cbn [keyAt]. naive_solver.
Qed.

(** A node that is no subject has no outgoing edge. *)
Lemma non_subject_no_edge m n t :
  graph_wf m → term_wf n → isSubject n = false → t ∈ graph_triples m → keyAt t posS ≠ TermKey n.
Proof.
  intros Hm Hn Hsub Ht Hk. destruct (graph_triple_wf m t Hm Ht) as (Hs & His & _).
  apply TermKey_inj in Hk; [|done..]. by rewrite Hk, Hsub in His.
Qed.

(** One iteration reaches exactly the neighbours of the popped node. *)
Lemma connect_step st g node visited stack :
  sinv st → graph_wf (graph_of st g) → term_wf node →
  ∃ visited' stack',
    ('(v, s) ← (if isSubject node then visit_terms visited stack (g_Objects None g (Some node) None st) else Ok (visited, stack));
     visit_terms v s (g_Subjects None g None (Some node) st)) = Ok (visited', stack' ++ stack) ∧
    (∀ k, k ∈ visited' ↔ k ∈ visited ∨ adjacent (graph_of st g) (TermKey node) k) ∧
    (∀ k, k ∈ TermKey <$> stack' ↔ k ∉ visited ∧ adjacent (graph_of st g) (TermKey node) k) ∧
    (∀ n, n ∈ stack' → ∃ t, t ∈ graph_triples (graph_of st g) ∧ (n = Subject t ∨ n = Object t)) ∧
    size visited' = size visited + length stack'.
Proof.
  intros Hs Hm Hn. destruct (subjects_ok st g node Hs Hn) as (ls & -> & S1 & S2).
  assert (Hout : ∃ lo, (if isSubject node then visit_terms visited stack (g_Objects None g (Some node) None st) else Ok (visited, stack))
      = visit_terms visited stack (Ok <$> lo) ∧
    (∀ o, o ∈ lo → ∃ t, t ∈ graph_triples (graph_of st g) ∧ o = Object t) ∧
    ∀ k, k ∈ TermKey <$> lo ↔ ∃ t, t ∈ graph_triples (graph_of st g) ∧ keyAt t posS = TermKey node ∧ keyAt t posO = k).
  { destruct (isSubject node) eqn:E.
    - destruct (objects_ok st g node Hs Hn) as (lo & -> & O1 & O2). by exists lo.
    - exists []. split_and!; [done|set_solver|]. intros k. split; [set_solver|].
      intros (t & Ht & Hk & _). by destruct (non_subject_no_edge _ _ _ Hm Hn E Ht Hk). }
  destruct Hout as (lo & -> & O1 & O2).
  destruct (visit_terms_ok lo visited stack) as (v1 & s1 & -> & A1 & A2 & A3 & A4).
  unfold mbind, result_bind. destruct (visit_terms_ok ls v1 (s1 ++ stack)) as (v2 & s2 & -> & B1 & B2 & B3 & B4).
  exists v2, (s2 ++ s1). split_and!.
  - by rewrite <- app_assoc.
  - intros k. rewrite B1, A1, O2, S2. unfold adjacent. naive_solver.
  - intros k. rewrite fmap_app, elem_of_app, B2, A2, A1, O2, S2. unfold adjacent.
    destruct (decide (k ∈ TermKey <$> lo)) as [Hd|Hd]; rewrite O2 in Hd; naive_solver.
  - intros n [Hin|Hin]%elem_of_app; [apply B3, S1 in Hin|apply A3, O1 in Hin]; naive_solver.
  - rewrite B4, A4, length_app. lia.
Qed.

Lemma adjacent_sym m k k' : adjacent m k k' → adjacent m k' k.
Proof. intros (t & Ht & Hk). exists t. naive_solver. Qed.

Lemma adjacent_rtc_sym m k k' : rtc (adjacent m) k k' → rtc (adjacent m) k' k.
Proof. induction 1; [done|]. eapply rtc_r; [done|]. by apply adjacent_sym. Qed.

Lemma adjacent_node m k k' : adjacent m k k' → is_node m k'.
Proof. intros (t & Ht & Hk). exists t. naive_solver. Qed.

Definition closed_under (m : gcontent) (v : gset string) (stack : list Term) : Prop :=
  ∀ k, k ∈ v → k ∈ TermKey <$> stack ∨ ∀ k', adjacent m k k' → k' ∈ v.

Lemma connect_loop_ok st g (nodes : gset string) fuel visited stack :
  sinv st → graph_wf (graph_of st g) →
  (∀ k, k ∈ nodes ↔ is_node (graph_of st g) k) → visited ⊆ nodes →
  (∀ n, n ∈ stack → TermKey n ∈ visited ∧ term_wf n) →
  closed_under (graph_of st g) visited stack →
  length stack + size nodes ≤ fuel + size visited →
  ∃ v, connect_loop fuel None g st visited stack = Ok v ∧ visited ⊆ v ∧ v ⊆ nodes ∧
    closed_under (graph_of st g) v [] ∧
    ∀ k, k ∈ v → ∃ k0, k0 ∈ visited ∧ rtc (adjacent (graph_of st g)) k0 k.
Proof.
  intros Hs Hm Hnodes. revert visited stack. induction fuel as [|fuel IH]; intros visited [|node stack] Hsub Hst Hcl Hf.
  1,3: (exists visited; split_and!; try done; intros k Hk; exists k; by split).
  { apply subseteq_size in Hsub. cbn in Hf. lia. }
  destruct (Hst node) as [Hnv Hnw]; [set_solver|].
  destruct (connect_step st g node visited stack Hs Hm Hnw) as (v' & s' & Heq & C1 & C2 & C3 & C4).
  assert (Hsub' : v' ⊆ nodes).
  { intros k [Hk|Hk]%C1; [by apply Hsub|]. apply Hnodes. by eapply adjacent_node. }
  destruct (IH v' (s' ++ stack)) as (v & E & V1 & V2 & V3 & V4); [done| | | |].
  - intros n [Hn|Hn]%elem_of_app.
    + split; [apply C1; right; by apply (C2 (TermKey n)), list_elem_of_fmap_2|].
      apply C3 in Hn as (t & Ht & Hn). destruct (graph_triple_wf _ _ Hm Ht) as (Hws & _ & _ & Hwo). by destruct Hn as [-> | ->].
    + split; [apply C1; left|]; apply Hst; set_solver.
  - intros k Hk. rewrite fmap_app, elem_of_app, C2. destruct (decide (k ∈ visited)) as [Hkv|Hkv].
    + apply Hcl in Hkv as [Hin|Hk']; [|right; intros k' Ha; apply C1; left; by apply Hk'].
      rewrite fmap_cons in Hin. apply elem_of_cons in Hin as [->|Hin]; [|by left; right].
      right. intros k' Ha. apply C1. by right.
    + left; left. split; [done|]. by apply C1 in Hk as [?|?].
  - rewrite length_app. cbn in Hf. lia.
  - exists v. split_and!; [|set_solver|done|done|].
    + cbn [connect_loop]. rewrite <- E. clear -Heq. unfold mbind, result_bind in *.
      destruct (if isSubject node then _ else _) as [[v1 s1]|e]; [|done]. by rewrite Heq.
    + intros k (k0 & Hk0 & Hr)%V4. apply C1 in Hk0 as [Hk0|Hk0]; [by exists k0|].
      exists (TermKey node). split; [done|]. by eapply rtc_l.
Qed.

Lemma size_keys (l : list Term) : NoDup (TermKey <$> l) → size (list_to_set (TermKey <$> l) : gset string) = length l.
Proof. intros Hl. rewrite size_list_to_set by done. apply length_fmap. Qed.

(** C27: [Connected] decides connectedness of the undirected graph the triples
    draw: for a store that keeps its contract and any of its graphs, it returns
    true exactly when every two nodes (subjects and objects) are joined by a path
    of triples followed in either direction. *)
Theorem connected_correct st g :
  sinv st → graph_wf (graph_of st g) →
  ∃ b, Connected None g st = Ok b ∧
    (b = true ↔ ∀ k k', is_node (graph_of st g) k → is_node (graph_of st g) k' → rtc (adjacent (graph_of st g)) k k').
Proof.
  intros Hs Hm. destruct (allNodes_ok st g Hs) as (l & Hl & Hnd & Hk & Hsub). unfold Connected. rewrite Hl.
  destruct l as [|n l].
  { exists true. split; [done|]. split; [|done]. intros _ k k' Hn%Hk. set_solver. }
  cbn [mbind result_bind].
  pose proof (size_keys _ Hnd) as Hsz. set (nodes := list_to_set (TermKey <$> n :: l) : gset string) in *.
  assert (Hnodes : ∀ k, k ∈ nodes ↔ is_node (graph_of st g) k) by (intros k; unfold nodes; by rewrite elem_of_list_to_set).
  destruct (connect_loop_ok st g nodes (length (n :: l)) {[TermKey n]} [n]) as (v & E & V1 & V2 & V3 & V4); try done.
  - intros k ->%elem_of_singleton. apply Hnodes, Hk. set_solver.
  - intros n' ->%list_elem_of_singleton. split; [set_solver|].
    destruct (Hsub n) as (t & Ht & Hn); [set_solver|].
    destruct (graph_triple_wf _ _ Hm Ht) as (Hws & _ & _ & Hwo). by destruct Hn as [-> | ->].
  - intros k ->%elem_of_singleton. left. set_solver.
  - rewrite size_singleton, Hsz. cbn. lia.
  - unfold mbind, result_bind in E |- *. rewrite E. eexists. split; [done|]. rewrite bool_decide_eq_true, <- Hsz.
    assert (Hreach : ∀ k, rtc (adjacent (graph_of st g)) (TermKey n) k → k ∈ v).
    { intros k Hr. apply rtc_ind_r with (P := λ k, k ∈ v) in Hr; [done|set_solver|].
      intros x y _ Hxy Hx. apply V3 in Hx as [Hx|Hx]; [set_solver|by apply Hx]. }
    assert (Hfrom : ∀ k, k ∈ v → rtc (adjacent (graph_of st g)) (TermKey n) k).
    { intros k (k0 & ->%elem_of_singleton & Hr)%V4. done. }
    split.
    + intros Hv k k' Hn Hn'. assert (Hvn : nodes ⊆ v) by (by rewrite (set_subseteq_size_eq v nodes) by (done || lia)).
      transitivity (TermKey n); [|by apply Hfrom, Hvn, Hnodes]. apply adjacent_rtc_sym. by apply Hfrom, Hvn, Hnodes.
    + intros Hall. f_equal. apply set_eq_subseteq. split; [done|]. intros k Hk'%Hnodes. apply Hreach, Hall; [|done].
      apply Hnodes. unfold nodes. set_solver.
Qed.
End connected.

(** ** Set operations *)

Section setops_correct.
Context {St St' : Type} `{StoreLaws St, StoreLaws St'} `{GoRange}.
Implicit Types (st : St) (g : Graph_).

Lemma filter_constant_true (d : gmap tkey_t Triple) : filter (λ kt : tkey_t * Triple, true = true) d = d.
Proof. by apply map_filter_id. Qed.

Lemma union_result st (st' : St') g (g' : Graph_) :
  sinv st → sinv st' → ∃ m, Union None g st g' st' = Ok m ∧ ms_ok m ∧
    result_graph m = graph_of st g ∪ graph_of st' g'.
Proof.
  intros Hs Hs'. unfold Union.
  destruct (addAll_ok st g NewGraph (λ _, true) (λ _, Ok true) Hs (proj1 NewGraph_ok)) as (m1 & -> & Hm1 & R1); [done|].
  destruct (addAll_ok st' g' m1 (λ _, true) (λ _, Ok true) Hs' Hm1) as (m2 & -> & Hm2 & R2); [done|].
  exists m2. split_and!; [done|done|]. rewrite R2, R1, result_graph_new, !filter_constant_true. by rewrite (left_id_L ∅ (∪)).
Qed.

(** [Intersection] and [Difference] keep the triples [other] answers for. *)
Lemma filtered_result st (st' : St') g (g' : Graph_) (f : bool → bool) :
  sinv st → sinv st' → graph_wf (graph_of st g) →
  ∃ m, to_result (addAll None NewGraph g st
      (λ t, f <$> g_Contains None g' (Some (Subject t)) (Predicate t) (Some (Object t)) st')) = Ok m ∧ ms_ok m ∧
    result_graph m = filter (λ kt, f (bool_decide (is_Some (graph_of st' g' !! kt.1))) = true) (graph_of st g).
Proof.
  intros Hs Hs' Hw.
  destruct (addAll_ok st g NewGraph (λ t, f (bool_decide (is_Some (graph_of st' g' !! tkey t))))
    (λ t, f <$> g_Contains None g' (Some (Subject t)) (Predicate t) (Some (Object t)) st') Hs (proj1 NewGraph_ok))
    as (m & -> & Hm & R).
  { intros t Ht. rewrite g_contains_ok; [done|done|]. by apply (graph_triple_wf _ _ Hw). }
  exists m. split_and!; [done|done|]. rewrite R, result_graph_new, (left_id_L ∅ (∪)).
  apply map_filter_ext. intros k t Hk. cbn. by rewrite (proj1 Hw k t Hk).
Qed.

(** [Union], [Intersection] and [Difference] return a new graph that holds the
    union, the intersection and the difference of the two triple sets (where both
    graphs hold a triple, the first one's copy), whatever stores the operands live
    in. *)
Theorem set_operations_correct st (st' : St') g (g' : Graph_) :
  sinv st → sinv st' → graph_wf (graph_of st g) →
  ∃ u i d, Union None g st g' st' = Ok u ∧ Intersection None g st g' st' = Ok i ∧ Difference None g st g' st' = Ok d ∧
    ms_ok u ∧ ms_ok i ∧ ms_ok d ∧
    result_graph u = graph_of st g ∪ graph_of st' g' ∧
    result_graph i = filter (λ kt, is_Some (graph_of st' g' !! kt.1)) (graph_of st g) ∧
    result_graph d = graph_of st g ∖ graph_of st' g'.
Proof.
  intros Hs Hs' Hw. destruct (union_result st st' g g' Hs Hs') as (u & Hu & Mu & Ru).
  destruct (filtered_result st st' g g' id Hs Hs' Hw) as (i & Hi & Mi & Ri).
  destruct (filtered_result st st' g g' negb Hs Hs' Hw) as (d & Hd & Md & Rd).
  exists u, i, d. split_and!; try done.
  - rewrite <- Hi. unfold Intersection, addAll. f_equal. apply addAll_go_ext. intros t. by destruct (g_Contains _ _ _ _ _ _).
  - rewrite Ri. apply map_filter_ext. intros k t _. cbn. apply bool_decide_eq_true.
  - rewrite Rd. apply map_eq. intros k. apply option_eq. intros t.
    rewrite map_lookup_filter_Some, lookup_difference_Some. cbn.
    by rewrite negb_true_iff, bool_decide_eq_false, <- eq_None_not_Some.
Qed.
End setops_correct.

(** ** Projections *)

Section projections.
Context {St : Type} `{StoreLaws St}.

(** The keys of two terms joined by the separator determine both keys when the
    first has no separator byte. *)
Lemma pair_key_inj a b c d :
  has_byte "|" a = false → has_byte "|" c = false → a +:+ "|" +:+ b = c +:+ "|" +:+ d → a = c ∧ b = d.
Proof.
  intros Ha Hc He. pose proof (CutByte_app a "|" b Ha) as Ea. pose proof (CutByte_app c "|" d Hc) as Ec.
  change ("|" +:+ b) with (String "|" b) in He. change ("|" +:+ d) with (String "|" d) in He.
  rewrite He in Ea. simplify_eq/=. rewrite Ec in Ea. by injection Ea as -> ->.
Qed.

(** the projections [Subjects], [Predicates] and [Objects] yield each value
    they should exactly once: the keys they yield have no repetition and are the
    keys of the chosen position in the matching triples, and every value yielded
    occurs in a matching triple. *)
Theorem projections_are_distinct (st : St) (g : Graph_) s p o :
  sinv st →
  (∃ l, g_Subjects None g p o st = Ok <$> l ∧ NoDup (TermKey <$> l) ∧
    ∀ k, k ∈ TermKey <$> l ↔ ∃ t, t ∈ graph_triples (matching (MkPattern None p o) (graph_of st g)) ∧ TermKey (Subject t) = k) ∧
  (∃ l, g_Predicates None g s o st = Ok <$> l ∧ NoDup (TermKey <$> l) ∧
    ∀ k, k ∈ TermKey <$> l ↔ ∃ t, t ∈ graph_triples (matching (MkPattern s None o) (graph_of st g)) ∧ TermKey (predicateOf t) = k) ∧
  (∃ l, g_Objects None g s p st = Ok <$> l ∧ NoDup (TermKey <$> l) ∧
    ∀ k, k ∈ TermKey <$> l ↔ ∃ t, t ∈ graph_triples (matching (MkPattern s p None) (graph_of st g)) ∧ TermKey (Object t) = k).
Proof.
  intros Hs. split_and!.
  - destruct (term_projection_ok st g None p o Subject Hs) as (l & ? & ? & _ & ?). by exists l.
  - destruct (term_projection_ok st g s None o predicateOf Hs) as (l & ? & ? & _ & ?). by exists l.
  - destruct (term_projection_ok st g s p None Object Hs) as (l & ? & ? & _ & ?). by exists l.
Qed.

(** The keys of a projection on two terms. *)
Definition pair_keys (t : Triple) (p1 p2 : Triple → Term) : string * string := (TermKey (p1 t), TermKey (p2 t)).

Lemma pair_projection_ok (st : St) (g : Graph_) s p o (p1 p2 : Triple → Term) :
  sinv st →
  (∀ t, t ∈ graph_triples (matching (MkPattern s p o) (graph_of st g)) → has_byte "|" (TermKey (p1 t)) = false) →
  ∃ l, distinct (g_Triples None g s p o st) (λ t, TermKey (p1 t) +:+ "|" +:+ TermKey (p2 t)) (λ t, MkPair (p1 t) (p2 t))
       = Ok <$> ((λ t, MkPair (p1 t) (p2 t)) <$> l) ∧
    NoDup ((λ t, pair_keys t p1 p2) <$> l) ∧
    ∀ kk, kk ∈ (λ t, pair_keys t p1 p2) <$> l ↔
      ∃ t, t ∈ graph_triples (matching (MkPattern s p o) (graph_of st g)) ∧ pair_keys t p1 p2 = kk.
Proof.
  intros Hs Hsep. destruct (projection_ok st g s p o (λ t, TermKey (p1 t) +:+ "|" +:+ TermKey (p2 t))
    (λ t, MkPair (p1 t) (p2 t)) Hs) as (l & Hl & Hnd & Hsub & Hk). exists l. split_and!; [exact Hl| |].
  - apply (NoDup_fmap_1 (λ kk : string * string, kk.1 +:+ "|" +:+ kk.2)). by rewrite <- list_fmap_compose.
  - intros [k k']. split.
    + intros (t & -> & Ht)%list_elem_of_fmap. exists t. auto.
    + intros (t & Ht & <-). apply list_elem_of_fmap.
      assert (Hin : TermKey (p1 t) +:+ "|" +:+ TermKey (p2 t) ∈ (λ t, TermKey (p1 t) +:+ "|" +:+ TermKey (p2 t)) <$> l).
      { apply Hk, list_elem_of_fmap. by exists t. }
      apply list_elem_of_fmap in Hin as (u & He & Hu). exists u. split; [|done].
      apply pair_key_inj in He as [He1 He2]; [|by apply Hsep|by apply Hsep, Hsub]. unfold pair_keys. congruence.
Qed.

(** [SubjectPredicates], [SubjectObjects] and [PredicateObjects] yield each
    pair of the matching triples exactly once, provided no first component has the
    separator byte in its key. *)
Theorem pair_projections_are_distinct (st : St) (g : Graph_) s p o :
  sinv st →
  (∀ t, t ∈ graph_triples (graph_of st g) →
     has_byte "|" (TermKey (Subject t)) = false ∧ has_byte "|" (TermKey (predicateOf t)) = false) →
  (∃ l, g_SubjectPredicates None g o st = Ok <$> ((λ t, MkPair (Subject t) (predicateOf t)) <$> l) ∧
    NoDup ((λ t, pair_keys t Subject predicateOf) <$> l) ∧
    ∀ kk, kk ∈ (λ t, pair_keys t Subject predicateOf) <$> l ↔
      ∃ t, t ∈ graph_triples (matching (MkPattern None None o) (graph_of st g)) ∧ pair_keys t Subject predicateOf = kk) ∧
  (∃ l, g_SubjectObjects None g p st = Ok <$> ((λ t, MkPair (Subject t) (Object t)) <$> l) ∧
    NoDup ((λ t, pair_keys t Subject Object) <$> l) ∧
    ∀ kk, kk ∈ (λ t, pair_keys t Subject Object) <$> l ↔
      ∃ t, t ∈ graph_triples (matching (MkPattern None p None) (graph_of st g)) ∧ pair_keys t Subject Object = kk) ∧
  (∃ l, g_PredicateObjects None g s st = Ok <$> ((λ t, MkPair (predicateOf t) (Object t)) <$> l) ∧
    NoDup ((λ t, pair_keys t predicateOf Object) <$> l) ∧
    ∀ kk, kk ∈ (λ t, pair_keys t predicateOf Object) <$> l ↔
      ∃ t, t ∈ graph_triples (matching (MkPattern s None None) (graph_of st g)) ∧ pair_keys t predicateOf Object = kk).
Proof.
  intros Hs Hsep. pose proof (graph_of_keyed st g Hs) as Hk.
  split_and!; apply pair_projection_ok; try done; intros t [Ht _]%matching_elem; try done; by apply Hsep.
Qed.
End projections.

(** after [Resource.Set] a resource has exactly the new value: [Value] returns
    it and [Objects] yields it alone. *)
Theorem resource_set_then_read `{StoreLaws St} : ∀ (st : St) (r : Resource) p o,
  sinv st → triple_wf (MkTriple (res_identifier r) p o) →
  ∃ st', res_Set None r p o st = (Ok tt, st') ∧ sinv st' ∧
    res_Value None r p st' = Ok (Some o) ∧ res_Objects None r p st' = [Ok o].
Proof.
  intros st r p o Hs Ht. destruct (set_matches st _ (identifier (res_graph r)) Hs Ht) as (st' & Hset & Hs' & Hread).
  exists st'. split_and!; [exact Hset|done| |];
    unfold res_Value, res_Objects, g_Value, g_Objects, g_Triples; unfold set_pattern in Hread; cbn [Subject Predicate] in Hread; by rewrite Hread.
Qed.

(** A blank node label with the separator makes two pairs collide, and the second
    is dropped. *)
Lemma pair_key_collision : ∃ t u : Triple, triple_wf t ∧ triple_wf u ∧ pair_keys t Subject Object ≠ pair_keys u Subject Object ∧
  distinct [Ok t; Ok u] (λ t, TermKey (Subject t) +:+ "|" +:+ TermKey (Object t)) (λ t, MkPair (Subject t) (Object t))
  = [Ok (MkPair (Subject t) (Object t))].
Proof.
  exists (MkTriple (TBNode (MkBNode "B:a")) (ex_iri "p") (TBNode (MkBNode "B:b|B:c"))),
         (MkTriple (TBNode (MkBNode "B:a|B:b")) (ex_iri "p") (TBNode (MkBNode "B:c"))).
  assert (Hb : ∀ v, v ≠ EmptyString → bnode_ok (MkBNode ("B:" +:+ v))) by (intros v Hv; by exists v).
  split_and!; [| |by intros [= ]|by vm_compute].
  all: repeat split; first [by eexists|by apply (Hb "a")|by apply (Hb "b|B:c")|by apply (Hb "a|B:b")|by apply (Hb "c")].
Qed.

(** ** Qualified names *)

(** A namespace [QName] may use for [uri]. *)
Definition candidate (uri : string) (b : NamespaceBinding) : Prop :=
  ∃ local, local ≠ EmptyString ∧ URIRef_value (nb_Namespace b) ≠ EmptyString ∧ uri = URIRef_value (nb_Namespace b) +:+ local.

Lemma candidate_iff uri b :
  candidate uri b ↔ 0 < len (URIRef_value (nb_Namespace b)) < len uri ∧
    stake (len (URIRef_value (nb_Namespace b))) uri = URIRef_value (nb_Namespace b).
Proof.
  set (ns := URIRef_value (nb_Namespace b)). split.
  - intros (local & Hl & Hns & ->). fold ns in Hns |- *. rewrite len_app, stake_app. split; [|done].
    unfold ns. destruct local, (URIRef_value (nb_Namespace b)); try done. rewrite !len_cons. lia.
  - intros [Hlen Ht]. exists (sdrop (len ns) uri). fold ns. split_and!.
    + intros E. apply (f_equal len) in E. rewrite len_sdrop, len_nil in E. lia.
    + intros E. fold ns in E. rewrite E, len_nil in Hlen. lia.
    + by rewrite <- Ht at 1; rewrite stake_sdrop.
Qed.

(** The binding [best_namespace] has chosen among those seen. *)
Definition chosen (uri : string) (seen : list NamespaceBinding) (bp bns : string) : Prop :=
  (bns = EmptyString ∧ bp = EmptyString ∧ ∀ b, b ∈ seen → ¬ candidate uri b) ∨
  (∃ b, b ∈ seen ∧ candidate uri b ∧ bp = nb_Prefix b ∧ bns = URIRef_value (nb_Namespace b) ∧
    ∀ b', b' ∈ seen → candidate uri b' → len (URIRef_value (nb_Namespace b')) ≤ len bns).

Lemma best_namespace_ok uri bs seen bp bns :
  chosen uri seen bp bns →
  ∃ bp' bns', best_namespace uri bp bns (Ok <$> bs) = Ok (bp', bns') ∧ chosen uri (seen ++ bs) bp' bns'.
Proof.
  revert seen bp bns. induction bs as [|b bs IH]; intros seen bp bns Hc.
  { exists bp, bns. by rewrite app_nil_r. }
  cbn [fmap list_fmap best_namespace]. set (ns := URIRef_value (nb_Namespace b)).
  assert (Hassoc : seen ++ b :: bs = (seen ++ [b]) ++ bs) by (by rewrite <- app_assoc). rewrite Hassoc. clear Hassoc.
  destruct (_ && _ && _) eqn:E; apply IH.
  - rewrite !andb_true_iff, !Nat.ltb_lt, String.eqb_eq in E. destruct E as [[E1 E2] E3].
    right. exists b. split_and!; [set_solver|apply candidate_iff; fold ns; split; [lia|done]|done|done|].
    intros b' [Hb'| ->%list_elem_of_singleton]%elem_of_app Hcand; [|done].
    destruct Hc as [(-> & _ & Hno)|(b0 & _ & _ & _ & -> & Hmax)]; [by destruct (Hno _ Hb')|].
    specialize (Hmax b' Hb' Hcand). fold ns. lia.
  - assert (Hb : candidate uri b → len ns ≤ len bns).
    { intros [Hl Ht]%candidate_iff. fold ns in Hl, Ht. rewrite !andb_false_iff, !Nat.ltb_ge in E.
      destruct E as [[E|E]|E]; [done|lia|]. by apply String.eqb_neq in E. }
    destruct Hc as [(-> & -> & Hno)|(b0 & Hin & Hc0 & -> & -> & Hmax)].
    + left. split_and!; [done..|]. intros b' [Hb'| ->%list_elem_of_singleton]%elem_of_app Hcand; [by destruct (Hno _ Hb')|].
      specialize (Hb Hcand). apply candidate_iff in Hcand as [Hl _]. fold ns in Hl. rewrite len_nil in Hb. lia.
    + right. exists b0. split_and!; [set_solver|done..|].
      intros b' [Hb'| ->%list_elem_of_singleton]%elem_of_app Hcand; [by apply Hmax|by apply Hb].
Qed.

(** [QName] abbreviates an IRI with the longest bound namespace that is a
    proper prefix of it, giving a name that expands back to the IRI; it returns the
    IRI itself exactly when no bound namespace qualifies. *)
Theorem qname_longest_namespace `{Store St} : ∀ (st : St) uri bs,
  Namespaces None st = Ok <$> bs →
  (QName None uri st = Ok uri ∧ ∀ b, b ∈ bs → ¬ candidate uri b) ∨
  ∃ b local, b ∈ bs ∧ QName None uri st = Ok (nb_Prefix b +:+ ":" +:+ local) ∧
    uri = URIRef_value (nb_Namespace b) +:+ local ∧ local ≠ EmptyString ∧
    ∀ b', b' ∈ bs → candidate uri b' → len (URIRef_value (nb_Namespace b')) ≤ len (URIRef_value (nb_Namespace b)).
Proof.
  intros st uri bs Hbs. unfold QName. rewrite Hbs.
  destruct (best_namespace_ok uri bs [] EmptyString EmptyString) as (bp & bns & -> & Hc).
  { left. split_and!; [done..|]. intros b Hb%elem_of_nil. done. }
  unfold mbind, result_bind. rewrite app_nil_l in Hc. destruct Hc as [(-> & -> & Hno)|(b & Hin & Hc & -> & -> & Hmax)].
  - left. by split.
  - right. destruct Hc as (local & Hl & Hns & Hu). exists b, local. split_and!; try done.
    destruct (URIRef_value (nb_Namespace b)) as [|c ns] eqn:E; [done|]. cbn [is_empty negb]. rewrite Hu. by rewrite sdrop_app.
Qed.

(** ** Witnesses *)

#[local] Instance graph_range_instance : GoRange | 100 := sorted_range.

Definition ex_node : Graph_ := MkGraph ex_graph EmptyString.
Definition ex_store : MemoryStore := (store_step None NewMemoryStore (DsAdd ex_triple ex_graph)).2.

Lemma ex_store_ok : ms_ok ex_store.
Proof. apply (ms_run_ok [DsAdd ex_triple ex_graph]). Qed.

Lemma ex_graph_wf : graph_wf (graph_of ex_store ex_node).
Proof.
  unfold graph_of. change (sabs ex_store) with (ms_abs (store_run NewMemoryStore [DsAdd ex_triple ex_graph])).
  rewrite (proj2 (ms_run_ok [DsAdd ex_triple ex_graph])). apply ds_run_all.
  intros o ->%list_elem_of_singleton t ->%list_elem_of_singleton. repeat split; by eexists.
Qed.

Lemma connected_correct_witness :
  ∃ b, Connected None ex_node ex_store = Ok b ∧
    (b = true ↔ ∀ k k', is_node (graph_of ex_store ex_node) k → is_node (graph_of ex_store ex_node) k' →
      rtc (adjacent (graph_of ex_store ex_node)) k k').
Proof. exact (connected_correct (St := MemoryStore) ex_store ex_node ex_store_ok ex_graph_wf). Defined.

Lemma set_operations_correct_witness :
  ∃ u i d, Union None ex_node ex_store ex_node ex_store = Ok u ∧ Intersection None ex_node ex_store ex_node ex_store = Ok i ∧
    Difference None ex_node ex_store ex_node ex_store = Ok d ∧
    ms_ok u ∧ ms_ok i ∧ ms_ok d ∧
    result_graph u = graph_of ex_store ex_node ∪ graph_of ex_store ex_node ∧
    result_graph i = filter (λ kt, is_Some (graph_of ex_store ex_node !! kt.1)) (graph_of ex_store ex_node) ∧
    result_graph d = graph_of ex_store ex_node ∖ graph_of ex_store ex_node.
Proof.
  exact (set_operations_correct (St := MemoryStore) (St' := MemoryStore) ex_store ex_store ex_node ex_node
    ex_store_ok ex_store_ok ex_graph_wf).
Defined.

Lemma projections_are_distinct_witness :
  (∃ l, g_Subjects None ex_node None None ex_store = Ok <$> l ∧ NoDup (TermKey <$> l) ∧
    ∀ k, k ∈ TermKey <$> l ↔ ∃ t, t ∈ graph_triples (matching (MkPattern None None None) (graph_of ex_store ex_node)) ∧ TermKey (Subject t) = k) ∧
  (∃ l, g_Predicates None ex_node None None ex_store = Ok <$> l ∧ NoDup (TermKey <$> l) ∧
    ∀ k, k ∈ TermKey <$> l ↔ ∃ t, t ∈ graph_triples (matching (MkPattern None None None) (graph_of ex_store ex_node)) ∧ TermKey (predicateOf t) = k) ∧
  (∃ l, g_Objects None ex_node None None ex_store = Ok <$> l ∧ NoDup (TermKey <$> l) ∧
    ∀ k, k ∈ TermKey <$> l ↔ ∃ t, t ∈ graph_triples (matching (MkPattern None None None) (graph_of ex_store ex_node)) ∧ TermKey (Object t) = k).
Proof. exact (projections_are_distinct (St := MemoryStore) ex_store ex_node None None None ex_store_ok). Defined.

Lemma pair_projections_are_distinct_witness :
  ∃ l, g_SubjectObjects None ex_node None ex_store = Ok <$> ((λ t, MkPair (Subject t) (Object t)) <$> l) ∧
    NoDup ((λ t, pair_keys t Subject Object) <$> l).
Proof.
  assert (Hs : sinv ex_store) by exact ex_store_ok.
  destruct (pair_projections_are_distinct (St := MemoryStore) ex_store ex_node None None None Hs) as (_ & (l & Hl1 & Hl2 & _) & _).
  - intros t Ht. apply graph_triples_elem in Ht; [|apply ex_graph_wf]. revert Ht.
    unfold graph_of. change (sabs ex_store) with (ms_abs (store_run NewMemoryStore [DsAdd ex_triple ex_graph])).
    rewrite (proj2 (ms_run_ok [DsAdd ex_triple ex_graph])).
    change (ds_graph _ _) with (<[tkey ex_triple := ex_triple]> ∅ : gmap tkey_t Triple).
    intros [[_ <-]|[_ Hx]]%lookup_insert_Some; [by vm_compute|by rewrite lookup_empty in Hx].
  - exists l. split; [exact Hl1|exact Hl2].
Defined.

Definition ex_bindings : list NamespaceBinding :=
  [MkBinding "a" (ex_iri EmptyString); MkBinding "b" (ex_iri "b/")].
Definition ex_bound : MemoryStore := (bind_all None ex_bindings NewMemoryStore).2.

Lemma qname_longest_namespace_witness :
  QName None "http://example.org/b/c" ex_bound = Ok "b:c" ∧
  ((QName None "http://example.org/b/c" ex_bound = Ok "http://example.org/b/c" ∧
    ∀ b, b ∈ ex_bindings → ¬ candidate "http://example.org/b/c" b) ∨
  ∃ b local, b ∈ ex_bindings ∧ QName None "http://example.org/b/c" ex_bound = Ok (nb_Prefix b +:+ ":" +:+ local) ∧
    "http://example.org/b/c" = URIRef_value (nb_Namespace b) +:+ local ∧ local ≠ EmptyString ∧
    ∀ b', b' ∈ ex_bindings → candidate "http://example.org/b/c" b' →
      len (URIRef_value (nb_Namespace b')) ≤ len (URIRef_value (nb_Namespace b))).
Proof.
  split; [by vm_compute|].
  apply (qname_longest_namespace (St := MemoryStore) ex_bound "http://example.org/b/c" ex_bindings). by vm_compute.
Defined.

Lemma resource_set_then_read_witness :
  ∃ st', res_Set None (NewResource ex_node (Subject ex_triple)) (Predicate ex_triple) (Object ex_triple2) ex_store = (Ok tt, st') ∧
    sinv st' ∧ res_Value None (NewResource ex_node (Subject ex_triple)) (Predicate ex_triple) st' = Ok (Some (Object ex_triple2)) ∧
    res_Objects None (NewResource ex_node (Subject ex_triple)) (Predicate ex_triple) st' = [Ok (Object ex_triple2)].
Proof.
  apply (resource_set_then_read (St := MemoryStore)); [apply ex_store_ok|]. repeat split; by eexists.
Defined.
