(* ===== verification/Badger.v ===== *)
(** * The persistent store over Badger

    [store/badgerstore] (encoding.go, store.go): triples under three keys of a
    key-value database, one for each order of their terms, and the methods of the
    store as transactions on it.  The database is code outside the repository: it
    is the class [Badger], whose laws [BadgerRefine] states. *)

From S2P Require Import Prelude GoStrings Strconv Term Decode TripleIndex Store MemoryStore.
From stdpp Require Import options.

(** ** Keys and values (encoding.go) *)

Definition sep : ascii := nul.
Definition pfxSPO : ascii := "s".
Definition pfxPOS : ascii := "p".
Definition pfxOSP : ascii := "o".
Definition pfxNS : ascii := "n".
Definition pfxNU : ascii := "u".
Definition pfxCTX : ascii := "c".

Definition makeKey (prefix : ascii) (gk k1 k2 k3 : string) : string :=
  String prefix (String sep (gk +:+ String sep (k1 +:+ String sep (k2 +:+ String sep k3)))).
Definition spoKey (gk sk pk ok : string) : string := makeKey pfxSPO gk sk pk ok.
Definition posKey (gk pk ok sk : string) : string := makeKey pfxPOS gk pk ok sk.
Definition ospKey (gk ok sk pk : string) : string := makeKey pfxOSP gk ok sk pk.

Definition makePrefixKey (prefix : ascii) (gk : string) (parts : list string) : string :=
  String prefix (String sep (gk +:+ String sep (foldr (λ p r, p +:+ String sep r) EmptyString parts))).
Definition nsKey (prefix : string) : string := String pfxNS (String sep prefix).
Definition nuKey (namespace : string) : string := String pfxNU (String sep namespace).
Definition ctxKey (gk : string) : string := String pfxCTX (String sep gk).

Definition graphKey (ctx : option Term) : string := if IsDefaultGraph ctx then EmptyString else OptTermKey ctx.

(** [binary.LittleEndian.PutUint32] of a length, and [Uint32] of the first bytes. *)
Definition PutUint32 (n : N) : string :=
  let b i := byte_of (N.land (N.shiftr n i) 255) in
  String (b 0%N) (String (b 8%N) (String (b 16%N) (str1 (b 24%N)))).
Definition Uint32 (data : string) : N :=
  match data with
  | String b0 (String b1 (String b2 (String b3 _))) =>
      byte_val b0 + N.shiftl (byte_val b1) 8 + N.shiftl (byte_val b2) 16 + N.shiftl (byte_val b3) 24
  | _ => 0
  end%N.
Definition put_field (k : string) : string := PutUint32 (N.of_nat (len k)) +:+ k.

Definition encodeTriple (t : Triple) : string :=
  put_field (TermKey (Subject t)) +:+ put_field (uri_key (Predicate t)) +:+ put_field (TermKey (Object t)).

(** A length and that many bytes, from the data still to be read. *)
Definition take_field (what : string) (data : string) : result (string * string) :=
  let l := Uint32 data in
  let rest := sdrop 4 data in
  if (N.of_nat (len rest) <? l)%N then Err (Errorf ("badgerstore: truncated " +:+ what) [])
  else Ok (stake (N.to_nat l) rest, sdrop (N.to_nat l) rest).
Definition next_field (what : string) (data : string) : result (string * string) :=
  if len data <? 4 then Err (Errorf ("badgerstore: truncated " +:+ what +:+ " length") []) else take_field what data.

Section decode.
Context (uuid : nat → string).

Definition decodeTriple (data : string) : drawM Triple :=
  if len data <? 12 then fail (Errorf "badgerstore: encoded triple too short" [])
  else
    '(sk, data) ← lift (take_field "subject" data);
    '(pk, data) ← lift (next_field "predicate" data);
    '(okStr, _) ← lift (next_field "object" data);
    s ← wrapM "badgerstore: decode subject: %w" (TermFromKey uuid sk);
    p ← wrapM "badgerstore: decode predicate: %w" (TermFromKey uuid pk);
    o ← wrapM "badgerstore: decode object: %w" (TermFromKey uuid okStr);
    match asSubject s with
    | None => fail (Errorf "badgerstore: subject is not Subject type" [])
    | Some subj => match asURIRef p with
                   | None => fail (Errorf "badgerstore: predicate is not URIRef" [])
                   | Some pred => mret (MkTriple subj pred o)
                   end
    end.
End decode.

(** ** The database *)

(** How often a method has looked at its context, and the identifiers drawn. *)
Record clock := MkClock { looks : nat; draws : nat }.

(** A transaction works on a view of the database.  [txn_Get] is [Get] with
    [ErrKeyNotFound] as [None]; reading the value of an item can fail on its own.
    [txn_Scan] is what an iterator finds under a prefix.  [db_Update] runs a
    function in a read-write transaction; whether and what it commits is the
    database's.  A write batch has its own view; what a flush that fails or a
    cancelled batch leaves behind is the database's too. *)
Class Badger (DB : Type) := {
  db_IsClosed : DB → bool;
  db_Close : DB → result unit * DB;
  txn_Get : string → DB → result (option (result string));
  txn_Set : string → string → DB → result unit * DB;
  txn_Delete : string → DB → result unit * DB;
  txn_Scan : string → DB → list (string * result string);
  db_Update : (DB → clock → result unit * DB * clock) → DB → clock → result unit * DB * clock;
  wb_Set : string → string → DB → result unit * DB;
  wb_Flush : DB → DB → result unit * DB;
  wb_Cancel : DB → DB → DB
}.

Definition ErrDBClosed : error := Sentinel "DB Closed".

(** A read or a write inside a transaction. *)
Definition txnM (DB A : Type) : Type := DB → clock → result A * DB * clock.

#[global] Instance txnM_ret DB : MRet (txnM DB) := λ A a d c, (Ok a, d, c).
#[global] Instance txnM_bind DB : MBind (txnM DB) := λ A B f m d c,
  match m d c with
  | (Ok a, d, c) => f a d c
  | (Err e, d, c) => (Err e, d, c)
  end.

Record BadgerStore (DB : Type) := MkBadger { bs_db : DB; snap : option DB }.
Arguments MkBadger {DB} bs_db snap.
Arguments bs_db {DB} b.
Arguments snap {DB} b.

Definition bs_pollEvery : nat := 1024.
Definition on_poll (n : nat) : bool := n mod bs_pollEvery =? 0.

(** The three keys of a triple in a graph. *)
Record tripleKeys := MkKeys { tk_gk : string; tk_sk : string; tk_pk : string; tk_ok : string }.

(** The prefix of the index that serves a pattern which is not fully bound. *)
Definition scanPrefix (pattern : TriplePattern) (gk : string) : string :=
  let sk := OptTermKey (pat_Subject pattern) in
  let pk := OptPredKey (pat_Predicate pattern) in
  let ok := OptTermKey (pat_Object pattern) in
  if bound sk && bound pk then makePrefixKey pfxSPO gk [sk; pk]
  else if bound sk && bound ok then makePrefixKey pfxOSP gk [ok; sk]
  else if bound sk then makePrefixKey pfxSPO gk [sk]
  else if bound pk && bound ok then makePrefixKey pfxPOS gk [pk; ok]
  else if bound pk then makePrefixKey pfxPOS gk [pk]
  else if bound ok then makePrefixKey pfxOSP gk [ok]
  else makePrefixKey pfxSPO gk [].

Definition all_given (p : TriplePattern) : bool :=
  match pat_Subject p, pat_Predicate p, pat_Object p with Some _, Some _, Some _ => true | _, _, _ => false end.

Section methods.
Context {DB : Type} `{Badger DB} (uuid : nat → string) (ctx : nat → option error).
Abbreviation store := (BadgerStore DB).
Implicit Types (s : store) (d : DB) (c : clock).

(** [ctx.Err()]. *)
Definition look (c : clock) : option error * clock := (ctx (looks c), MkClock (S (looks c)) (draws c)).
Definition look_if (b : bool) (c : clock) : option error * clock := if b then look c else (None, c).
Definition drawn {A} (m : drawM A) (c : clock) : result A * clock :=
  let '(r, n) := m (draws c) in (r, MkClock (looks c) n).

(** ** Transactions *)

Definition get (k : string) : txnM DB (option (result string)) := λ d c, (txn_Get k d, d, c).
Definition set (k v : string) : txnM DB unit := λ d c, let '(r, d) := txn_Set k v d in (r, d, c).
Definition del (k : string) : txnM DB unit := λ d c, let '(r, d) := txn_Delete k d in (r, d, c).

(** [read]: the transaction a read works in. *)
Definition read_view s : DB := default (bs_db s) (snap s).

(** A panic is the error it reports. *)
Definition panic_snapshot : error := Sentinel "panic: badgerstore: write on a read snapshot".

Definition begin_ (write : bool) s (c : clock) : result unit * clock :=
  match look c with
  | (Some err, c) => (Err err, c)
  | (None, c) =>
      (match snap s with
       | Some _ => if write then Err panic_snapshot else Ok tt
       | None => if db_IsClosed (bs_db s) then Err (Wrapf "badgerstore: %w" [] ErrDBClosed) else Ok tt
       end, c)
  end.

(** A method that writes in one transaction. *)
Definition write_method (what : string) (fn : txnM DB unit) s c : result unit * store * clock :=
  match begin_ true s c with
  | (Err e, c) => (Err e, s, c)
  | (Ok _, c) => let '(r, d, c) := db_Update fn (bs_db s) c in (wrap_err what r, MkBadger d (snap s), c)
  end.

(** ** Scans *)

Section scan.
Context {S : Type}.

Fixpoint iterate_items (prefix : string) (items : list (string * result string)) (n : nat) (fn : Triple → S → bool * S) (acc : S) c
    : result unit * S * clock :=
  match items with
  | [] => (Ok tt, acc, c)
  | (_, item) :: items =>
      let n := Datatypes.S n in
      match look_if (on_poll n) c with
      | (Some err, c) => (Err err, acc, c)
      | (None, c) =>
          let '(r, c) := match item with Err e => (Err e, c) | Ok val => drawn (decodeTriple uuid val) c end in
          match r with
          | Err e => (Err (Wrapf "undecodable triple under %q: %w" [prefix] e), acc, c)
          | Ok t => let '(continue, acc) := fn t acc in
                    if continue then iterate_items prefix items n fn acc c else (Ok tt, acc, c)
          end
      end
  end.

Definition iteratePrefix (prefix : string) (fn : Triple → S → bool * S) (acc : S) d c : result unit * S * clock :=
  iterate_items prefix (txn_Scan prefix d) 0 fn acc c.

(** [scanTriplesInTxn], and [scanTriples], which only calls it. *)
Definition scanTriplesInTxn (pattern : TriplePattern) (gk : string) (fn : string → string → string → Triple → S → bool * S) (acc : S) d c
    : result unit * S * clock :=
  let sk := OptTermKey (pat_Subject pattern) in
  let pk := OptPredKey (pat_Predicate pattern) in
  let ok := OptTermKey (pat_Object pattern) in
  if bound sk && bound pk && bound ok then
    match txn_Get (spoKey gk sk pk ok) d with
    | Err e => (Err e, acc, c)
    | Ok None => (Ok tt, acc, c)
    | Ok (Some (Err e)) => (Err e, acc, c)
    | Ok (Some (Ok val)) =>
        match drawn (decodeTriple uuid val) c with
        | (Err e, c) => (Err e, acc, c)
        | (Ok t, c) => (Ok tt, (fn sk pk ok t acc).2, c)
        end
    end
  else
    iteratePrefix (scanPrefix pattern gk)
      (λ t, fn (TermKey (Subject t)) (uri_key (Predicate t)) (TermKey (Object t)) t) acc d c.

Definition scanTripleValues (pattern : TriplePattern) (gk : string) (fn : Triple → S → bool * S) (acc : S) d c : result unit * S * clock :=
  if all_given pattern then scanTriplesInTxn pattern gk (λ _ _ _, fn) acc d c
  else iteratePrefix (scanPrefix pattern gk) fn acc d c.
End scan.

Fixpoint count_keys (items : list (string * result string)) (n : nat) c : result Z * clock :=
  match items with
  | [] => (Ok (Z.of_nat n), c)
  | _ :: items =>
      match look_if (on_poll n) c with
      | (Some err, c) => (Err err, c)
      | (None, c) => count_keys items (Datatypes.S n) c
      end
  end.
Definition countPrefix (prefix : string) d c : result Z * clock := count_keys (txn_Scan prefix d) 0 c.

(** ** Writing *)

(** The three entries of a triple. *)
Definition set_keys (gk sk pk ok val : string) : txnM DB unit :=
  _ ← set (spoKey gk sk pk ok) val;
  _ ← set (posKey gk pk ok sk) val;
  set (ospKey gk ok sk pk) val.
Definition del_keys (gk sk pk ok : string) : txnM DB unit :=
  _ ← del (spoKey gk sk pk ok);
  _ ← del (posKey gk pk ok sk);
  del (ospKey gk ok sk pk).
Definition track_context (gk : string) : txnM DB unit := if is_empty gk then mret tt else set (ctxKey gk) EmptyString.

Definition bs_Add (t : Triple) (graph : option Term) : store → clock → result unit * store * clock :=
  let gk := graphKey graph in
  let sk := TermKey (Subject t) in
  let pk := uri_key (Predicate t) in
  let ok := TermKey (Object t) in
  write_method "badgerstore: Add: %w"
    (present ← get (spoKey gk sk pk ok);
     match present with
     | Some _ => mret tt
     | None => _ ← set_keys gk sk pk ok (encodeTriple t); track_context gk
     end).

(** The batch of [AddN], on its own view [w] of the database. *)
Definition batch_set (k v : string) (w : DB) : result unit * DB :=
  let '(r, w) := wb_Set k v w in (wrap_err "badgerstore: AddN: %w" r, w).

Fixpoint add_quads (quads : list Quad) (i : nat) (w : DB) c : result unit * DB * clock :=
  match quads with
  | [] => (Ok tt, w, c)
  | q :: quads =>
      match look_if (on_poll i) c with
      | (Some err, c) => (Err err, w, c)
      | (None, c) =>
          let gk := graphKey (Graph q) in
          let sk := TermKey (Subject (quad_Triple q)) in
          let pk := uri_key (Predicate (quad_Triple q)) in
          let ok := TermKey (Object (quad_Triple q)) in
          let val := encodeTriple (quad_Triple q) in
          match batch_set (spoKey gk sk pk ok) val w with
          | (Err e, w) => (Err e, w, c)
          | (Ok _, w) =>
          match batch_set (posKey gk pk ok sk) val w with
          | (Err e, w) => (Err e, w, c)
          | (Ok _, w) =>
          match batch_set (ospKey gk ok sk pk) val w with
          | (Err e, w) => (Err e, w, c)
          | (Ok _, w) =>
          match (if is_empty gk then (Ok tt, w) else batch_set (ctxKey gk) EmptyString w) with
          | (Err e, w) => (Err e, w, c)
          | (Ok _, w) => add_quads quads (Datatypes.S i) w c
          end end end end
      end
  end.

Definition bs_AddN (quads : list Quad) s c : result unit * store * clock :=
  match begin_ true s c with
  | (Err e, c) => (Err e, s, c)
  | (Ok _, c) =>
      match quads with
      | [] => (Ok tt, s, c)
      | _ =>
          match add_quads quads 0 (bs_db s) c with
          | (Err e, w, c) => (Err e, MkBadger (wb_Cancel (bs_db s) w) (snap s), c)
          | (Ok _, w, c) =>
              let '(r, d) := wb_Flush (bs_db s) w in (wrap_err "badgerstore: AddN flush: %w" r, MkBadger d (snap s), c)
          end
      end
  end.

Fixpoint del_each (keys : list tripleKeys) : txnM DB unit :=
  match keys with
  | [] => mret tt
  | tk :: keys => _ ← del_keys (tk_gk tk) (tk_sk tk) (tk_pk tk) (tk_ok tk); del_each keys
  end.

(** The matches are collected in one transaction and deleted in another; nothing is
    deleted when the context is done by then. *)
Definition bs_Remove (pattern : TriplePattern) (graph : option Term) s c : result unit * store * clock :=
  match begin_ true s c with
  | (Err e, c) => (Err e, s, c)
  | (Ok _, c) =>
      let gk := graphKey graph in
      match scanTriplesInTxn pattern gk (λ sk pk ok _ ks, (true, ks ++ [MkKeys gk sk pk ok])) [] (read_view s) c with
      | (Err e, _, c) => (Err (Wrapf "badgerstore: Remove scan: %w" [] e), s, c)
      | (Ok _, [], c) => (Ok tt, s, c)
      | (Ok _, toRemove, c) =>
          match look c with
          | (Some err, c) => (Err err, s, c)
          | (None, c) =>
              let '(r, d, c) := db_Update (del_each toRemove) (bs_db s) c in
              (wrap_err "badgerstore: Remove delete: %w" r, MkBadger d (snap s), c)
          end
      end
  end.

Definition bs_Set (t : Triple) (graph : option Term) : store → clock → result unit * store * clock :=
  let gk := graphKey graph in
  let sk := TermKey (Subject t) in
  let pk := uri_key (Predicate t) in
  write_method "badgerstore: Set: %w" (λ d c,
    match scanTriplesInTxn (set_pattern t) gk (λ _ _ ok _ oks, (true, oks ++ [ok])) [] d c with
    | (Err e, _, c) => (Err e, d, c)
    | (Ok _, toDelete, c) =>
        (_ ← del_each ((λ oldOK, MkKeys gk sk pk oldOK) <$> toDelete);
         _ ← set_keys gk sk pk (TermKey (Object t)) (encodeTriple t);
         track_context gk) d c
    end).

Definition bs_Bind (prefix : string) (namespace : URIRef) : store → clock → result unit * store * clock :=
  write_method "badgerstore: Bind: %w"
    (_ ← set (nsKey prefix) (URIRef_value namespace);
     set (nuKey (URIRef_value namespace)) prefix).

(** ** Reading *)

(** The items passed to [yield], then the failure, if there is one. *)
Definition ending {A} (what : string) (r : result unit) (l : list A) : list (result A) :=
  (Ok <$> l) ++ match r with Ok _ => [] | Err e => [Err (Wrapf what [] e)] end.

Definition bs_Triples (pattern : TriplePattern) (graph : option Term) s c : TripleIterator * clock :=
  match begin_ false s c with
  | (Err e, c) => ([Err e], c)
  | (Ok _, c) =>
      let '(r, l, c) := scanTripleValues pattern (graphKey graph) keep [] (read_view s) c in
      (ending "badgerstore: Triples: %w" r l, c)
  end.

Definition bs_TriplesWithLimit (pattern : TriplePattern) (graph : option Term) (limit offset : Z) s c : TripleIterator * clock :=
  match begin_ false s c with
  | (Err e, c) => ([Err e], c)
  | (Ok _, c) =>
      let '(r, (_, _, l), c) := scanTripleValues pattern (graphKey graph) (limit_yield limit offset) (0%Z, 0%Z, []) (read_view s) c in
      (ending "badgerstore: TriplesWithLimit: %w" r l, c)
  end.

Definition bs_Len (graph : option Term) s c : result Z * clock :=
  match begin_ false s c with
  | (Err e, c) => (Err e, c)
  | (Ok _, c) =>
      let '(r, c) := countPrefix (makePrefixKey pfxSPO (graphKey graph) []) (read_view s) c in
      (wrap_err "badgerstore: Len: %w" r, c)
  end.

Definition hasKey (key : string) (d : DB) : result bool :=
  match txn_Get key d with
  | Ok None => Ok false
  | Ok (Some _) => Ok true
  | Err e => Err e
  end.

Definition exact_key (pattern : TriplePattern) (gk : string) : string :=
  spoKey gk (OptTermKey (pat_Subject pattern)) (OptPredKey (pat_Predicate pattern)) (OptTermKey (pat_Object pattern)).

Definition bs_Count (pattern : TriplePattern) (graph : option Term) s c : result Z * clock :=
  match begin_ false s c with
  | (Err e, c) => (Err e, c)
  | (Ok _, c) =>
      let gk := graphKey graph in
      let '(r, c) :=
        if all_given pattern
        then ((λ b : bool, if b then 1 else 0)%Z <$> hasKey (exact_key pattern gk) (read_view s), c)
        else countPrefix (scanPrefix pattern gk) (read_view s) c in
      (wrap_err "badgerstore: Count: %w" r, c)
  end.

Definition bs_Exists (pattern : TriplePattern) (graph : option Term) s c : result bool * clock :=
  match begin_ false s c with
  | (Err e, c) => (Err e, c)
  | (Ok _, c) =>
      let gk := graphKey graph in
      (wrap_err "badgerstore: Exists: %w"
         (if all_given pattern then hasKey (exact_key pattern gk) (read_view s)
          else Ok (match txn_Scan (scanPrefix pattern gk) (read_view s) with [] => false | _ => true end)), c)
  end.

(** The names under the context prefix. *)
Fixpoint context_items (triple : option Triple) (items : list (string * result string)) (n : nat) (d : DB) (acc : list Term) c
    : result unit * list Term * clock :=
  match items with
  | [] => (Ok tt, acc, c)
  | (key, _) :: items =>
      let n := S n in
      match look_if (on_poll n) c with
      | (Some err, c) => (Err err, acc, c)
      | (None, c) =>
          let gk := sdrop 2 key in
          if is_empty gk then context_items triple items n d acc c
          else
            match drawn (TermFromKey uuid gk) c with
            | (Err e, c) => (Err (Wrapf "undecodable graph key %q: %w" [gk] e), acc, c)
            | (Ok ctxTerm, c) =>
                match triple with
                | None => context_items triple items n d (acc ++ [ctxTerm]) c
                | Some t =>
                    match txn_Get (spoKey gk (TermKey (Subject t)) (uri_key (Predicate t)) (TermKey (Object t))) d with
                    | Err e => (Err e, acc, c)
                    | Ok None => context_items triple items n d acc c
                    | Ok (Some _) => context_items triple items n d (acc ++ [ctxTerm]) c
                    end
                end
            end
      end
  end.

Definition bs_Contexts (triple : option Triple) s c : TermIterator * clock :=
  match begin_ false s c with
  | (Err e, c) => ([Err e], c)
  | (Ok _, c) =>
      let '(r, l, c) := context_items triple (txn_Scan (ctxKey EmptyString) (read_view s)) 0 (read_view s) [] c in
      (ending "badgerstore: Contexts: %w" r l, c)
  end.

(** The value under a key. *)
Definition read_value (key : string) (d : DB) : result (option string) :=
  match txn_Get key d with
  | Err e => Err e
  | Ok None => Ok None
  | Ok (Some item) => Some <$> item
  end.

Definition bs_Namespace (prefix : string) s c : result (URIRef * bool) * clock :=
  match begin_ false s c with
  | (Err e, c) => (Err e, c)
  | (Ok _, c) =>
      (wrap_err "badgerstore: Namespace: %w"
         ((λ v : option string, match v with Some v => (NewURIRefUnsafe v, true) | None => (URIRef_zero, false) end)
            <$> read_value (nsKey prefix) (read_view s)), c)
  end.

Definition bs_Prefix (namespace : URIRef) s c : result (string * bool) * clock :=
  match begin_ false s c with
  | (Err e, c) => (Err e, c)
  | (Ok _, c) =>
      (wrap_err "badgerstore: Prefix: %w"
         ((λ v : option string, match v with Some v => (v, true) | None => (EmptyString, false) end)
            <$> read_value (nuKey (URIRef_value namespace)) (read_view s)), c)
  end.

Fixpoint namespace_items (items : list (string * result string)) : list (result NamespaceBinding) :=
  match items with
  | [] => []
  | (key, Ok v) :: items => Ok (MkBinding (sdrop 2 key) (NewURIRefUnsafe v)) :: namespace_items items
  | (_, Err e) :: _ => [Err (Wrapf "badgerstore: Namespaces: %w" [] e)]
  end.
Definition bs_Namespaces s c : NamespaceIterator * clock :=
  match begin_ false s c with
  | (Err e, c) => ([Err e], c)
  | (Ok _, c) => (namespace_items (txn_Scan (nsKey EmptyString) (read_view s)), c)
  end.

(** ** Snapshots *)

Definition bs_ReadSnapshot s c : result store * clock :=
  match look c with
  | (Some err, c) => (Err err, c)
  | (None, c) =>
      (match snap s with
       | Some _ => Ok s
       | None => if db_IsClosed (bs_db s) then Err (Wrapf "badgerstore: ReadSnapshot: %w" [] ErrDBClosed)
                 else Ok (MkBadger (bs_db s) (Some (bs_db s)))
       end, c)
  end.

(** [Close], which a snapshot refuses. *)
Definition bs_Close s : result unit * store :=
  match snap s with
  | Some _ => (Err (Sentinel "badgerstore: Close on a read snapshot; call its release function instead"), s)
  | None => let '(r, d) := db_Close (bs_db s) in (r, MkBadger d None)
  end.
End methods.
