(* ===== verification/BadgerCorrect.v ===== *)
(** * The persistent store: keys, scans, and the dataset it stands for

    What is relied on of the database, that a scan under a prefix finds the matches
    of a pattern, and that every operation keeps the entries of the database those
    of the dataset of the contract. *)

From S2P Require Import Prelude GoStrings Strconv Term Decode TermKey TripleIndex Store MemoryStore Badger.
From stdpp Require Import options.

(** ** Keys end where a zero byte follows *)

(** The key of a triple term holds zero bytes; it is still clear where it ends. *)
Inductive clean_key : string → Prop :=
| clean_flat k : has_byte nul k = false → HasPrefix k "T:" = false → clean_key k
| clean_triple a b k : has_byte nul a = false → has_byte nul b = false → clean_key k →
    clean_key ("T:" +:+ (a +:+ String nul (b +:+ String nul k))).

Lemma nul_prefix a b r r' : has_byte nul a = false → has_byte nul b = false →
  HasPrefix (a +:+ String nul r) (b +:+ String nul r') = true → a = b ∧ HasPrefix r r' = true.
Proof.
  intros Ha Hb (t & E)%HasPrefix_true. rewrite app_assoc_s in E.  apply nul_split in E as [-> E]; [|done..].
  split; [done|]. apply HasPrefix_true. by exists t.
Qed.

Lemma flat_not_tagged a r r' : has_byte nul a = false → HasPrefix a "T:" = false → HasPrefix (a +:+ String nul r) (String "T" (String ":" r')) = false.
Proof.
  intros Hn Ht. destruct a as [|c [|c' a]]; rewrite ?sapp_cons, ?sapp_nil_l, !HasPrefix_cons.
  - done.
  - cbn. by rewrite andb_false_r.
  - rewrite !HasPrefix_cons, HasPrefix_nil, andb_true_r in Ht. by rewrite andb_assoc, Ht.
Qed.

Lemma tagged_not_flat b r r' : has_byte nul b = false → HasPrefix b "T:" = false → HasPrefix (String "T" (String ":" r')) (b +:+ String nul r) = false.
Proof.
  intros Hn Ht. destruct b as [|c [|c' b]]; rewrite ?sapp_cons, ?sapp_nil_l, !HasPrefix_cons.
  - done.
  - cbn. by rewrite andb_false_r.
  - rewrite !HasPrefix_cons, HasPrefix_nil, andb_true_r in Ht. rewrite andb_assoc, (Ascii.eqb_sym "T"), (Ascii.eqb_sym ":"). by rewrite Ht.
Qed.

Lemma clean_prefix a : clean_key a → ∀ b r r', clean_key b →
  HasPrefix (a +:+ String nul r) (b +:+ String nul r') = true → a = b ∧ HasPrefix r r' = true.
Proof.
  induction 1 as [a Hn Ht|x y a Hx Hy _ IH]; intros b r r' Hb Hp; destruct Hb as [b Hnb Htb|x' y' b Hx' Hy' Hb].
  - by apply nul_prefix.
  - rewrite !sapp_cons, !sapp_nil_l, (flat_not_tagged a) in Hp; done.
  - rewrite !sapp_cons, !sapp_nil_l, (tagged_not_flat b) in Hp; done.
  - rewrite !sapp_cons, !sapp_nil_l, !HasPrefix_cons, !Ascii.eqb_refl, !app_assoc_s in Hp. cbn [andb] in Hp. rewrite !sapp_cons in Hp.
    apply nul_prefix in Hp as [-> Hp]; [|done..]. rewrite !app_assoc_s, !sapp_cons in Hp. apply nul_prefix in Hp as [-> Hp]; [|done..].
    by apply IH in Hp as [-> ?].
Qed.

Lemma clean_prefix_iff a b r r' : clean_key a → clean_key b →
  HasPrefix (a +:+ String nul r) (b +:+ String nul r') = bool_decide (a = b) && HasPrefix r r'.
Proof.
  intros Ha Hb. case_bool_decide as E; cbn [andb].
  - subst b. apply eq_true_iff_eq. split; [by intros [_ ?]%clean_prefix|]. intros (t & ->)%HasPrefix_true. apply HasPrefix_true.
    exists t. by rewrite app_assoc_s.
  - destruct (HasPrefix _ _) eqn:Hp; [|done]. by apply clean_prefix in Hp as [? _].
Qed.

Lemma clean_split a b r r' : clean_key a → clean_key b → a +:+ String nul r = b +:+ String nul r' → a = b ∧ r = r'.
Proof.
  intros Ha Hb E. assert (Hp : HasPrefix (a +:+ String nul r) (b +:+ String nul r') = true).
  { rewrite E. rewrite <- (sapp_nil_r (b +:+ String nul r')) at 1. apply HasPrefix_app. }
  apply clean_prefix in Hp as [-> _]; [|done..]. split; [done|]. apply app_inj_l in E. by injection E.
Qed.

(** The keys of a triple in a graph, one for each index. *)
Definition keys_of (gk : string) (k : tkey_t) : list string :=
  let '(sk, pk, ok) := k in [spoKey gk sk pk ok; posKey gk pk ok sk; ospKey gk ok sk pk].

Definition clean_keys (k : tkey_t) : Prop := clean_key k.1.1 ∧ clean_key k.1.2 ∧ clean_key k.2.

Lemma makeKey_inj x gk a b c y gk' a' b' c' : clean_key gk → clean_key a → clean_key b → clean_key gk' → clean_key a' → clean_key b' →
  makeKey x gk a b c = makeKey y gk' a' b' c' → x = y ∧ gk = gk' ∧ a = a' ∧ b = b' ∧ c = c'.
Proof.
  intros Hg Ha Hb Hg' Ha' Hb' E. injection E as -> E. apply clean_split in E as [-> E]; [|done..].
  apply clean_split in E as [-> E]; [|done..]. by apply clean_split in E as [-> ->].
Qed.

Lemma keys_disjoint key gk k gk' k' : clean_key gk → clean_keys k → clean_key gk' → clean_keys k' →
  key ∈ keys_of gk k → key ∈ keys_of gk' k' → gk = gk' ∧ k = k'.
Proof.
  destruct k as [[sk pk] ok], k' as [[sk' pk'] ok']. intros Hg (Hs & Hp & Ho) Hg' (Hs' & Hp' & Ho') H H'. cbn in *.
  repeat setoid_rewrite elem_of_cons in H. repeat setoid_rewrite elem_of_cons in H'. setoid_rewrite elem_of_nil in H. setoid_rewrite elem_of_nil in H'.
  destruct H as [->|[->|[->|[]]]]; destruct H' as [E|[E|[E|[]]]]; apply makeKey_inj in E as (Ex & -> & -> & -> & ->); done.
Qed.

(** ** Terms and triples that can be stored *)

(** A term without variables whose key is clean, as every term is whose parts have
    no zero byte in their text. *)
Definition storable_term (t : Term) : Prop := term_wf t ∧ ground t = true ∧ clean_key (TermKey t) ∧ (N.of_nat (len (TermKey t)) < 2 ^ 32)%N.
Definition storable (t : Triple) : Prop :=
  storable_term (Subject t) ∧ isSubject (Subject t) = true ∧ uri_ok (Predicate t) ∧ storable_term (TURIRef (Predicate t)) ∧ storable_term (Object t).

(** A text without zero bytes, but for the separators of triple terms. *)
Fixpoint zero_free (t : Term) : bool :=
  match t with
  | TTripleTerm _ _ o _ => zero_free o
  | _ => negb (has_byte nul (TermKey t))
  end.

Lemma zero_free_clean t : term_wf t → zero_free t = true → clean_key (TermKey t).
Proof.
  induction t as [u|b|l|s _ p o IH key|v]; cbn [zero_free]; intros Ht Hn; bool_cases.
  1-3, 5: apply clean_flat; [done|]; rewrite TermKey_shape by done; by rewrite !HasPrefix_cons.
  cbn [TermKey]. rewrite (TermKey_tt _ _ _ _ Ht). destruct Ht as (_ & _ & _ & Hs & Hp & _ & _ & Ho). apply clean_triple; [done|done|]. by apply IH.
Qed.

Lemma storable_clean t : storable t → clean_keys (tkey t).
Proof. intros (Hs & _ & _ & Hp & Ho). split; [apply Hs|]. split; [apply Hp|apply Ho]. Qed.

(** ** Values *)

Lemma len_PutUint32 n : len (PutUint32 n) = 4.
Proof. done. Qed.

Lemma Uint32_PutUint32 n r : (n < 2 ^ 32)%N → Uint32 (PutUint32 n +:+ r) = n.
Proof.
  intros Hn. unfold PutUint32, str1. rewrite !sapp_cons. cbn [Uint32]. rewrite !byte_val_of by (change 255%N with (N.ones 8); rewrite N.land_ones; apply N.mod_lt; done).
  change 255%N with (N.ones 8). rewrite !N.land_ones, !N.shiftr_div_pow2, !N.shiftl_mul_pow2.
  change (2 ^ 32)%N with 4294967296%N in Hn. change (2 ^ 0)%N with 1%N. change (2 ^ 8)%N with 256%N. change (2 ^ 16)%N with 65536%N. change (2 ^ 24)%N with 16777216%N.
  rewrite N.div_1_r. replace (n / 65536)%N with (n / 256 / 256)%N by (by rewrite N.Div0.div_div). replace (n / 16777216)%N with (n / 256 / 256 / 256)%N by (by rewrite !N.Div0.div_div).
  assert (H0 : n = (256 * (n / 256) + n mod 256)%N) by (apply N.div_mod; done). set (q := (n / 256)%N) in *.
  assert (H1 : q = (256 * (q / 256) + q mod 256)%N) by (apply N.div_mod; done). set (q1 := (q / 256)%N) in *.
  assert (H2 : q1 = (256 * (q1 / 256) + q1 mod 256)%N) by (apply N.div_mod; done). set (q2 := (q1 / 256)%N) in *.
  clearbody q2 q1 q. generalize dependent (n mod 256)%N. generalize dependent (q mod 256)%N. generalize dependent (q1 mod 256)%N. intros m1 H2 m2 H1 m3 H0. rewrite (N.mod_small q2 256) by lia. lia.
Qed.

Lemma take_put_field what k r : (N.of_nat (len k) < 2 ^ 32)%N → take_field what (put_field k +:+ r) = Ok (k, r).
Proof.
  intros Hk. unfold take_field, put_field. rewrite app_assoc_s, Uint32_PutUint32 by done.
  change 4 with (len (PutUint32 (N.of_nat (len k)))). rewrite sdrop_app, len_app, Nat2N.id.
  assert ((N.of_nat (len k + len r) <? N.of_nat (len k))%N = false) as -> by (apply N.ltb_ge; lia). by rewrite stake_app, sdrop_app.
Qed.

Lemma next_put_field what k r : (N.of_nat (len k) < 2 ^ 32)%N → next_field what (put_field k +:+ r) = Ok (k, r).
Proof.
  intros Hk. unfold next_field. rewrite take_put_field by done. assert (len (put_field k +:+ r) <? 4 = false) as ->; [|done].
  apply Nat.ltb_ge. unfold put_field. rewrite !len_app, len_PutUint32. lia.
Qed.

Lemma decodeTriple_encodeTriple uuid t n : storable t → decodeTriple uuid (encodeTriple t) n = (Ok t, n).
Proof.
  intros ((Hs & Gs & _ & Ls) & Hsub & Hu & (Hp & Gp & _ & Lp) & (Ho & Go & _ & Lo)). unfold decodeTriple, encodeTriple.
  assert (len (put_field (TermKey (Subject t)) +:+ put_field (uri_key (Predicate t)) +:+ put_field (TermKey (Object t))) <? 12 = false) as ->.
  { apply Nat.ltb_ge. unfold put_field. rewrite !len_app, !len_PutUint32. lia. }
  unfold lift, mbind, drawM_bind. rewrite take_put_field by done. rewrite next_put_field by done.
  rewrite <- (sapp_nil_r (put_field (TermKey (Object t)))), next_put_field by done.
  unfold wrapM. rewrite (TermFromKey_TermKey uuid (Subject t)) by done. cbn [wrap_err].
  change (uri_key (Predicate t)) with (TermKey (TURIRef (Predicate t))). rewrite (TermFromKey_TermKey uuid (TURIRef _)) by done. cbn [wrap_err].
  rewrite (TermFromKey_TermKey uuid (Object t)) by done. cbn [wrap_err]. unfold asSubject. rewrite Hsub. cbn [asURIRef]. by destruct t.
Qed.

(** ** Which keys a scan finds *)

Definition pattern_ok (p : TriplePattern) : Prop :=
  (∀ s, pat_Subject p = Some s → term_wf s ∧ clean_key (TermKey s)) ∧
  (∀ u, pat_Predicate p = Some u → uri_ok u ∧ clean_key (uri_key u)) ∧
  (∀ o, pat_Object p = Some o → term_wf o ∧ clean_key (TermKey o)).

Lemma clean_empty : clean_key EmptyString.
Proof. by apply clean_flat. Qed.

Lemma pattern_ok_clean p : pattern_ok p →
  clean_key (OptTermKey (pat_Subject p)) ∧ clean_key (OptPredKey (pat_Predicate p)) ∧ clean_key (OptTermKey (pat_Object p)).
Proof.
  intros (Hs & Hp & Ho). split_and!.
  - destruct (pat_Subject p) as [s|]; [by apply (Hs s)|apply clean_empty].
  - destruct (pat_Predicate p) as [u|]; [by apply (Hp u)|apply clean_empty].
  - destruct (pat_Object p) as [o|]; [by apply (Ho o)|apply clean_empty].
Qed.

(** The key of a triple in the index that serves a pattern. *)
Definition scan_key (p : TriplePattern) (gk : string) (k : tkey_t) : string :=
  let '(sk, pk, ok) := k in
  let bs := bound (OptTermKey (pat_Subject p)) in
  let bp := bound (OptPredKey (pat_Predicate p)) in
  let bo := bound (OptTermKey (pat_Object p)) in
  if bs && bp then spoKey gk sk pk ok
  else if bs && bo then ospKey gk ok sk pk
  else if bs then spoKey gk sk pk ok
  else if bp then posKey gk pk ok sk
  else if bo then ospKey gk ok sk pk
  else spoKey gk sk pk ok.

Definition fully_bound (p : TriplePattern) : bool :=
  bound (OptTermKey (pat_Subject p)) && bound (OptPredKey (pat_Predicate p)) && bound (OptTermKey (pat_Object p)).

Lemma scan_key_elem p gk k : scan_key p gk k ∈ keys_of gk k.
Proof. destruct k as [[sk pk] ok]. unfold scan_key, keys_of. repeat case_match; set_solver. Qed.

Lemma scan_prefix_iff p gk gk' t key : pattern_ok p → fully_bound p = false → clean_key gk → clean_key gk' → clean_keys (tkey t) →
  key ∈ keys_of gk' (tkey t) → HasPrefix key (scanPrefix p gk) = true ↔ gk' = gk ∧ key = scan_key p gk' (tkey t) ∧ pattern_matches p t = true.
Proof.
  intros (Cs & Cp & Co)%pattern_ok_clean Hb Hg Hg' (Ks & Kp & Ko) Hk. unfold tkey in *. cbn [fst snd] in *. unfold keys_of in Hk.
  unfold fully_bound in Hb. unfold scanPrefix, pattern_matches, key_matches, scan_key. cbn [keyAt] in *.
  generalize dependent (OptTermKey (pat_Subject p)). generalize dependent (OptPredKey (pat_Predicate p)). generalize dependent (OptTermKey (pat_Object p)).
  intros ok Co pk Cp sk Cs Hb. generalize dependent (TermKey (Subject t)). generalize dependent (TermKey (TURIRef (Predicate t))). generalize dependent (TermKey (Object t)).
  intros ok' Ko pk' Kp sk' Ks Hk. destruct (bound sk), (bound pk), (bound ok); try done; cbn [andb negb orb];
    repeat (apply elem_of_cons in Hk as [->|Hk]); try (by apply not_elem_of_nil in Hk);
    unfold spoKey, posKey, ospKey, makeKey, makePrefixKey; cbn [foldr];
    rewrite !HasPrefix_cons, ?clean_prefix_iff, ?HasPrefix_nil by done; cbn [Ascii.eqb Bool.eqb andb]; rewrite ?andb_true_iff, ?bool_decide_eq_true, ?String.eqb_eq; naive_solver.
Qed.

(** ** The entries of the database *)

Definition is_index (key : string) : bool :=
  match key with String c _ => Ascii.eqb c pfxSPO || Ascii.eqb c pfxPOS || Ascii.eqb c pfxOSP | EmptyString => false end.

Lemma keys_of_index key gk k : key ∈ keys_of gk k → is_index key = true.
Proof. destruct k as [[sk pk] ok]. cbn. set_solver. Qed.

(** The entries under the three index prefixes are those of the graphs [C]. *)
Record index_rep (v : gmap string string) (C : string → gmap tkey_t Triple) : Prop := {
  ir_ok gk k t : C gk !! k = Some t → tkey t = k ∧ storable t ∧ clean_key gk;
  ir_in key val : is_index key = true → v !! key = Some val ↔ ∃ gk k t, C gk !! k = Some t ∧ key ∈ keys_of gk k ∧ val = encodeTriple t
}.

Definition set_all (v : gmap string string) (l : list string) (val : string) : gmap string string := foldl (λ v k, <[k := val]> v) v l.
Definition delete_all (v : gmap string string) (l : list string) : gmap string string := foldl (λ v k, delete k v) v l.

Lemma lookup_set_all v l val key : set_all v l val !! key = if decide (key ∈ l) then Some val else v !! key.
Proof.
  unfold set_all. revert v. induction l as [|k l IH]; intros v; cbn [foldl]; [by rewrite decide_False by set_solver|]. rewrite IH. destruct (decide (key ∈ l)) as [Hl|Hl]; [by rewrite decide_True by (by right)|].
  destruct (decide (key = k)) as [->|Hne]; [by rewrite lookup_insert_eq, decide_True by (by left)|]. rewrite lookup_insert_ne by done. rewrite decide_False; [done|]. set_solver.
Qed.

Lemma lookup_delete_all v l key : delete_all v l !! key = if decide (key ∈ l) then None else v !! key.
Proof.
  unfold delete_all. revert v. induction l as [|k l IH]; intros v; cbn [foldl]; [by rewrite decide_False by set_solver|]. rewrite IH. destruct (decide (key ∈ l)) as [Hl|Hl]; [by rewrite decide_True by (by right)|].
  destruct (decide (key = k)) as [->|Hne]; [by rewrite lookup_delete_eq, decide_True by (by left)|]. rewrite lookup_delete_ne by done. rewrite decide_False; [done|]. set_solver.
Qed.

(** Graphs with the content of one replaced. *)
Definition put_graph (C : string → gmap tkey_t Triple) (gk : string) (m : gmap tkey_t Triple) : string → gmap tkey_t Triple := λ g, if decide (g = gk) then m else C g.

Lemma index_rep_put v C gk t : index_rep v C → storable t → clean_key gk →
  index_rep (set_all v (keys_of gk (tkey t)) (encodeTriple t)) (put_graph C gk (<[tkey t := t]> (C gk))).
Proof.
  intros [H1 H2] Ht Hg. split.
  - intros g k u. unfold put_graph. case_decide as E; [subst g|apply H1]. intros [[<- <-]|[_ Hu]]%lookup_insert_Some; [done|by apply H1].
  - intros key val Hi. rewrite lookup_set_all. destruct (decide (key ∈ keys_of gk (tkey t))) as [Hin|Hin].
    + split; [intros [= <-]; exists gk, (tkey t), t; unfold put_graph; by rewrite decide_True, lookup_insert_eq|].
      intros (g & k & u & Hu & Hk & ->). assert (Hgk : g = gk ∧ k = tkey t).
      { unfold put_graph in Hu. case_decide as E; [subst g|].
        - apply lookup_insert_Some in Hu as [[<- _]|[_ Hu]]; [done|]. destruct (H1 _ _ _ Hu) as (Kk & Su & _).
          eapply (keys_disjoint key); [done| | | |exact Hk|exact Hin]; [rewrite <- Kk; by apply storable_clean|done|by apply storable_clean].
        - destruct (H1 _ _ _ Hu) as (Kk & Su & Cg).
          eapply (keys_disjoint key); [exact Cg| | | |exact Hk|exact Hin]; [rewrite <- Kk; by apply storable_clean|done|by apply storable_clean]. }
      destruct Hgk as [-> ->]. unfold put_graph in Hu. rewrite decide_True, lookup_insert_eq in Hu by done. by injection Hu as ->.
    + rewrite H2 by done. unfold put_graph. split; intros (g & k & u & Hu & Hk & ->); exists g, k, u; (split; [|done]).
      * case_decide as E; [subst g|done]. rewrite lookup_insert_ne; [done|]. by intros <-.
      * case_decide as E; [subst g|done]. rewrite lookup_insert_ne in Hu; [done|]. by intros <-.
Qed.

Lemma index_rep_delete v C gk k : index_rep v C → clean_key gk → clean_keys k →
  index_rep (delete_all v (keys_of gk k)) (put_graph C gk (delete k (C gk))).
Proof.
  intros [H1 H2] Hg Hc. split.
  - intros g k' u. unfold put_graph. case_decide as E; [subst g|apply H1]. intros [_ Hu]%lookup_delete_Some. by apply H1.
  - intros key val Hi. rewrite lookup_delete_all. destruct (decide (key ∈ keys_of gk k)) as [Hin|Hin].
    + split; [done|]. intros (g & k' & u & Hu & Hk & ->). exfalso. assert (Hu' : C g !! k' = Some u).
      { unfold put_graph in Hu. case_decide as E; [subst g; by apply lookup_delete_Some in Hu as [_ ?]|done]. }
      destruct (H1 _ _ _ Hu') as (Kk & Su & Cg). destruct (keys_disjoint key g k' gk k) as [-> ->]; [done|rewrite <- Kk; by apply storable_clean|done..|].
      unfold put_graph in Hu. rewrite decide_True, lookup_delete_eq in Hu by done. done.
    + rewrite H2 by done. unfold put_graph. split; intros (g & k' & u & Hu & Hk & ->); exists g, k', u; (split; [|done]).
      * case_decide as E; [subst g|done]. rewrite lookup_delete_ne; [done|]. by intros <-.
      * case_decide as E; [subst g|done]. by apply lookup_delete_Some in Hu as [_ ?].
Qed.

(** Other entries do not matter. *)
Lemma index_rep_other v v' C C' : index_rep v C → (∀ gk, C gk = C' gk) → (∀ key, is_index key = true → v' !! key = v !! key) → index_rep v' C'.
Proof.
  intros [H1 H2] HC Hv. split; [intros gk k t; rewrite <- HC; apply H1|]. intros key val Hi. rewrite Hv, H2 by done. by setoid_rewrite HC.
Qed.

(** A scan finds the matches, and the entry of a fully given pattern is its triple. *)
Lemma index_rep_scan v C p gk : index_rep v C → pattern_ok p → fully_bound p = false → clean_key gk →
  filter (λ kv : string * string, HasPrefix kv.1 (scanPrefix p gk) = true) (map_to_list v) ≡ₚ
  (λ t, (scan_key p gk (tkey t), encodeTriple t)) <$> graph_triples (matching p (C gk)).
Proof.
  intros [H1 H2] Hp Hb Hg. assert (Hm : ∀ t, t ∈ graph_triples (matching p (C gk)) ↔ C gk !! tkey t = Some t ∧ pattern_matches p t = true).
  { intros t. unfold graph_triples. rewrite list_elem_of_fmap. split.
    - intros ([k u] & -> & Hu%elem_of_map_to_list). apply map_lookup_filter_Some in Hu as [Hu Hpu]. cbn in *. by destruct (H1 _ _ _ Hu) as (-> & _).
    - intros [Hu Hpu]. exists (tkey t, t). split; [done|]. apply elem_of_map_to_list, map_lookup_filter_Some. done. }
  apply NoDup_Permutation.
  - apply NoDup_filter, NoDup_map_to_list.
  - apply (NoDup_fmap_1 fst). rewrite <- list_fmap_compose. eapply NoDup_fmap_2_strong.
    + intros t u [Ht _]%Hm [Hu _]%Hm E. change (scan_key p gk (tkey t) = scan_key p gk (tkey u)) in E. destruct (H1 _ _ _ Ht) as (_ & St & _), (H1 _ _ _ Hu) as (_ & Su & _).
      destruct (keys_disjoint (scan_key p gk (tkey t)) gk (tkey t) gk (tkey u)) as [_ Ek];
        [done|by apply storable_clean|done|by apply storable_clean|apply scan_key_elem|rewrite E; apply scan_key_elem|].
      rewrite Ek in Ht. congruence.
    + apply (NoDup_fmap_1 tkey). unfold graph_triples. rewrite <- list_fmap_compose. rewrite (Forall_fmap_ext_1 _ fst); [apply NoDup_fst_map_to_list|].
      apply Forall_forall. intros [k t] Hkt%elem_of_map_to_list. apply map_lookup_filter_Some in Hkt as [Hkt _]. cbn. by destruct (H1 _ _ _ Hkt) as (-> & _).
  - intros [key val]. rewrite list_elem_of_filter, elem_of_map_to_list, list_elem_of_fmap. cbn [fst]. split.
    + intros [Hpre Hv]. assert (Hi : is_index key = true).
      { unfold scanPrefix, makePrefixKey in Hpre. destruct key as [|c key]; [by repeat case_match|]. repeat case_match; rewrite HasPrefix_cons in Hpre; bool_cases; by subst. }
      apply H2 in Hv as (g & k & t & Ht & Hk & ->); [|done]. destruct (H1 _ _ _ Ht) as (<- & St & Cg).
      destruct (proj1 (scan_prefix_iff p gk g t key Hp Hb Hg Cg (storable_clean t St) Hk) Hpre) as (-> & -> & Hmt). exists t. split; [done|]. by apply Hm.
    + intros (t & E & Ht%Hm). assert (key = scan_key p gk (tkey t)) as -> by exact (f_equal fst E). assert (val = encodeTriple t) as -> by exact (f_equal snd E). destruct Ht as [Ht Hpt]. destruct (H1 _ _ _ Ht) as (_ & St & _). split.
      * eapply (scan_prefix_iff p gk gk t); [done..|by apply storable_clean|apply scan_key_elem|done].
      * apply H2; [eapply keys_of_index, scan_key_elem|]. exists gk, (tkey t), t. split; [done|]. split; [apply scan_key_elem|done].
Qed.
