(* ===== verification/BadgerRefine.v ===== *)
(** * The persistent store refines the dataset

    Over a database that keeps its word, the store built by any operations answers
    every read as the dataset that the same operations build. *)

From S2P Require Import Prelude GoStrings Strconv Term Decode TermKey TripleIndex Store MemoryStore Badger BadgerCorrect.
From stdpp Require Import options.

(** ** The database *)

(** An open database of which no call fails: no full disk, and transactions within
    the size it can commit.  What a call does then is a map's. *)
Class BadgerLaws (DB : Type) `{Badger DB} := {
  view : DB → gmap string string;
  get_ok d k : db_IsClosed d = false → txn_Get k d = Ok (Ok <$> view d !! k);
  set_ok d k v : db_IsClosed d = false → ∃ d', txn_Set k v d = (Ok tt, d') ∧ db_IsClosed d' = false ∧ view d' = <[k := v]> (view d);
  delete_ok d k : db_IsClosed d = false → ∃ d', txn_Delete k d = (Ok tt, d') ∧ db_IsClosed d' = false ∧ view d' = delete k (view d);
  scan_ok d p : db_IsClosed d = false → ∃ l, txn_Scan p d = prod_map id Ok <$> l ∧
    l ≡ₚ filter (λ kv : string * string, HasPrefix kv.1 p = true) (map_to_list (view d));
  update_ok fn d c d' c' : db_IsClosed d = false → fn d c = (Ok tt, d', c') → db_IsClosed d' = false →
    ∃ d'', db_Update fn d c = (Ok tt, d'', c') ∧ db_IsClosed d'' = false ∧ view d'' = view d';
  batch_ok d k v : db_IsClosed d = false → ∃ d', wb_Set k v d = (Ok tt, d') ∧ db_IsClosed d' = false ∧ view d' = <[k := v]> (view d);
  flush_ok d w : db_IsClosed d = false → db_IsClosed w = false → ∃ d', wb_Flush d w = (Ok tt, d') ∧ db_IsClosed d' = false ∧ view d' = view w
}.

(** ** What the database stands for *)

(** The graph under a key of a graph. *)
Definition content_of (d : dataset) (gk : string) : gmap tkey_t Triple := if is_empty gk then ds_default d else default ∅ (snd <$> ds_named d !! gk).

Definition named_key (n : Term) (k : string) : Prop := storable_term n ∧ TermKey n = k ∧ IsDefaultGraph (Some n) = false.
Definition graph_ok (g : option Term) : Prop := IsDefaultGraph g = true ∨ ∃ n, g = Some n ∧ storable_term n.

Record bs_rep (v : gmap string string) (d : dataset) : Prop := {
  br_index : index_rep v (content_of d);
  br_named k n m : ds_named d !! k = Some (n, m) → named_key n k ∧ m ≠ ∅ ∧ is_Some (v !! ctxKey k);
  br_ctx key val : v !! key = Some val → HasPrefix key (ctxKey EmptyString) = true → ∃ n k, key = ctxKey k ∧ named_key n k
}.

Lemma graph_ok_cases g : graph_ok g → (IsDefaultGraph g = true ∧ graphKey g = EmptyString) ∨ ∃ n, g = Some n ∧ IsDefaultGraph g = false ∧ graphKey g = TermKey n ∧ named_key n (TermKey n).
Proof.
  unfold graph_ok, graphKey. destruct (IsDefaultGraph g) eqn:E; [by left|]. intros [?|(n & -> & Hn)]; [done|]. right. exists n. by split_and!.
Qed.

Lemma graphKey_clean g : graph_ok g → clean_key (graphKey g).
Proof. intros [[_ ->]|(n & _ & _ & -> & (_ & _ & ? & _) & _)]%graph_ok_cases; [apply clean_empty|done]. Qed.

Lemma named_nonempty n k : named_key n k → is_empty k = false.
Proof. intros ((Hw & _) & <- & _). pose proof (TermKey_nonempty n Hw). by destruct (TermKey n). Qed.

Lemma content_of_graph d g : graph_ok g → content_of d (graphKey g) = ds_graph d g.
Proof.
  intros [[Hg ->]|(n & -> & Hd & -> & Hn)]%graph_ok_cases; unfold content_of, ds_graph, graph_key; [by rewrite Hg|].
  rewrite (named_nonempty _ _ Hn), Hd. done.
Qed.

Lemma content_of_update (d : dataset) (g : option Term) (m : gcontent) gk : graph_ok g → content_of (ds_update d g m) gk = put_graph (content_of d) (graphKey g) m gk.
Proof.
  intros [[Hg ->]|(n & -> & Hd & -> & Hn)]%graph_ok_cases; unfold content_of, ds_update, graph_key, put_graph.
  - rewrite Hg. destruct gk; [by rewrite decide_True|by rewrite decide_False].
  - rewrite Hd. cbn [OptTermKey ds_default ds_named]. destruct (decide (gk = TermKey n)) as [->|E].
    + rewrite (named_nonempty _ _ Hn). destruct (decide (m = ∅)) as [->|]; [by rewrite lookup_delete_eq|by rewrite lookup_insert_eq].
    + destruct (is_empty gk); [done|]. destruct (decide (m = ∅)); [by rewrite lookup_delete_ne|by rewrite lookup_insert_ne].
Qed.

Lemma ctxKey_not_index k : is_index (ctxKey k) = false.
Proof. done. Qed.

(** A graph is replaced and the names that are tracked grow at most by its own. *)
Lemma bs_rep_update (v v' : gmap string string) (d : dataset) (g : option Term) (m : gcontent) : bs_rep v d → graph_ok g → index_rep v' (put_graph (content_of d) (graphKey g) m) →
  (∀ k, is_Some (v' !! ctxKey k) ↔ is_Some (v !! ctxKey k) ∨ (IsDefaultGraph g = false ∧ k = graphKey g ∧ is_Some (v' !! ctxKey k))) →
  (IsDefaultGraph g = false → m ≠ ∅ → is_Some (v' !! ctxKey (graphKey g))) → bs_rep v' (ds_update d g m).
Proof.
  intros [H1 H2 H3] Hg Hi Hc Hm. pose proof (graph_ok_cases g Hg) as Hgc. split.
  - eapply index_rep_other; [exact Hi|intros gk; symmetry; by apply content_of_update|done].
  - intros k n u. unfold ds_update, graph_key. destruct Hgc as [[Hd _]|(x & -> & Hd & Hk & Hx)]; rewrite ?Hd; cbn [ds_named OptTermKey].
    + intros Hn. destruct (H2 _ _ _ Hn) as (? & ? & ?). split; [done|]. split; [done|]. apply Hc. by left.
    + destruct (decide (k = TermKey x)) as [->|Hne].
      * destruct (decide (m = ∅)) as [|Hne]; [by rewrite lookup_delete_eq|]. rewrite lookup_insert_eq. intros [= <- <-].
        rewrite <- Hk. split; [|split; [done|by apply Hm]]. rewrite Hk. destruct (ds_named d !! TermKey x) as [[n' u']|] eqn:E; cbn; [|done]. by destruct (H2 _ _ _ E).
      * assert (Hold : ds_named d !! k = Some (n, u) → named_key n k ∧ u ≠ ∅ ∧ is_Some (v' !! ctxKey k)).
        { intros Hn. destruct (H2 _ _ _ Hn) as (? & ? & ?). split; [done|]. split; [done|]. apply Hc. by left. }
        destruct (decide (m = ∅)); [by rewrite lookup_delete_ne|by rewrite lookup_insert_ne].
  - intros key val Hv Hp. pose proof Hp as (k & E)%HasPrefix_true. assert (key = ctxKey k) as -> by (rewrite E; done).
    destruct (proj1 (Hc k)) as [[w Hw]|(Hd & -> & _)]; [by eexists|by apply (H3 _ w)|]. destruct Hgc as [[? _]|(x & _ & _ & -> & Hx)]; [congruence|].
    by exists x, (TermKey x).
Qed.

(** ** What the writes do to the entries *)

Lemma put_keys gk sk pk ok : keys_of gk (sk, pk, ok) = [spoKey gk sk pk ok; posKey gk pk ok sk; ospKey gk ok sk pk].
Proof. done. Qed.

Lemma set_all_ctx v l val k : (∀ key, key ∈ l → is_index key = true) → set_all v l val !! ctxKey k = v !! ctxKey k.
Proof. intros Hl. rewrite lookup_set_all, decide_False; [done|]. by intros ?%Hl. Qed.

Lemma delete_all_ctx v l k : (∀ key, key ∈ l → is_index key = true) → delete_all v l !! ctxKey k = v !! ctxKey k.
Proof. intros Hl. rewrite lookup_delete_all, decide_False; [done|]. by intros ?%Hl. Qed.

Lemma ctxKey_inj k k' : ctxKey k = ctxKey k' → k = k'.
Proof. by intros [= ->]. Qed.

Definition track (v : gmap string string) (gk : string) : gmap string string := if is_empty gk then v else <[ctxKey gk := EmptyString]> v.

(** The entries of a graph written, and its name tracked. *)
Lemma bs_rep_write (v v1 : gmap string string) (d : dataset) (g : option Term) (m : gcontent) : bs_rep v d → graph_ok g →
  index_rep v1 (put_graph (content_of d) (graphKey g) m) → (∀ k, v1 !! ctxKey k = v !! ctxKey k) → bs_rep (track v1 (graphKey g)) (ds_update d g m).
Proof.
  intros Hr Hg Hi Hctx. apply (bs_rep_update v); [done|done| | |].
  - eapply index_rep_other; [exact Hi|done|]. intros key Hk. unfold track. case_match; [done|]. apply lookup_insert_ne. by intros <-.
  - intros k. destruct (graph_ok_cases g Hg) as [[Hd ->]|(n & -> & Hd & -> & Hn)]; unfold track.
    + cbn [is_empty]. rewrite Hctx, Hd. naive_solver.
    + rewrite (named_nonempty _ _ Hn). destruct (decide (k = TermKey n)) as [->|Hne]; [rewrite lookup_insert_eq; naive_solver|].
      rewrite lookup_insert_ne by (by intros ?%ctxKey_inj). rewrite Hctx. naive_solver.
  - intros Hd _. destruct (graph_ok_cases g Hg) as [[? _]|(n & -> & _ & -> & Hn)]; [congruence|]. unfold track. rewrite (named_nonempty _ _ Hn), lookup_insert_eq. by eexists.
Qed.

Lemma set_keys_ctx v gk k0 val k : set_all v (keys_of gk k0) val !! ctxKey k = v !! ctxKey k.
Proof. apply set_all_ctx. intros key. apply keys_of_index. Qed.

Lemma bs_rep_put v d g t : bs_rep v d → storable t → graph_ok g →
  bs_rep (track (set_all v (keys_of (graphKey g) (tkey t)) (encodeTriple t)) (graphKey g)) (ds_update d g (<[tkey t := t]> (ds_graph d g : gmap tkey_t Triple))).
Proof.
  intros Hr Ht Hg. apply (bs_rep_write v); [done|done| |by intros k; apply set_keys_ctx].
  rewrite <- (content_of_graph d g Hg). apply index_rep_put; [apply Hr|done|by apply graphKey_clean].
Qed.

(** The entries of some keys taken away. *)
Definition drop_keys (v : gmap string string) (gk : string) (ks : list tkey_t) : gmap string string := foldl (λ v k, delete_all v (keys_of gk k)) v ks.
Definition drop_triples (m : gmap tkey_t Triple) (ks : list tkey_t) : gmap tkey_t Triple := foldl (λ m k, delete k m) m ks.

Lemma lookup_drop_triples m ks k : drop_triples m ks !! k = if decide (k ∈ ks) then None else m !! k.
Proof.
  unfold drop_triples. revert m. induction ks as [|k' ks IH]; intros m; cbn [foldl]; [by rewrite decide_False by set_solver|]. rewrite IH.
  destruct (decide (k ∈ ks)) as [Hk|Hk]; [by rewrite decide_True by (by right)|].
  destruct (decide (k = k')) as [->|Hne]; [by rewrite lookup_delete_eq, decide_True by (by left)|]. rewrite lookup_delete_ne by done. rewrite decide_False; [done|]. set_solver.
Qed.

Lemma drop_keys_ctx v gk ks k : drop_keys v gk ks !! ctxKey k = v !! ctxKey k.
Proof.
  unfold drop_keys. revert v. induction ks as [|k' ks IH]; intros v; cbn [foldl]; [done|]. rewrite IH. apply delete_all_ctx. intros key. apply keys_of_index.
Qed.

Lemma index_rep_drop v C gk ks : index_rep v C → clean_key gk → Forall clean_keys ks → index_rep (drop_keys v gk ks) (put_graph C gk (drop_triples (C gk) ks)).
Proof.
  unfold drop_keys, drop_triples. intros Hv Hg Hks. revert v C Hv. induction Hks as [|k ks Hk _ IH]; intros v C Hv; cbn [foldl].
  - eapply index_rep_other; [exact Hv| |done]. intros g. unfold put_graph. by case_decide as E; [subst g|].
  - eapply index_rep_other; [apply IH, (index_rep_delete _ _ _ _ Hv Hg Hk)| |done]. intros g. unfold put_graph. by case_decide as E; [rewrite decide_True by done|].
Qed.

Lemma bs_rep_drop v d g ks : bs_rep v d → graph_ok g → Forall clean_keys ks → bs_rep (drop_keys v (graphKey g) ks) (ds_update d g (drop_triples (ds_graph d g) ks)).
Proof.
  intros Hr Hg Hks. apply (bs_rep_update v); [done|done| | |].
  - rewrite <- (content_of_graph d g Hg). apply index_rep_drop; [apply Hr|by apply graphKey_clean|done].
  - intros k. rewrite drop_keys_ctx. naive_solver.
  - intros Hd Hne. rewrite drop_keys_ctx. destruct (graph_ok_cases g Hg) as [[? _]|(n & -> & _ & Hk & Hn)]; [congruence|].
    rewrite Hk. destruct (ds_named d !! TermKey n) as [[n' u]|] eqn:E; [by destruct (br_named _ _ Hr _ _ _ E) as (_ & _ & ?)|].
    destruct Hne. apply map_empty. intros k. rewrite lookup_drop_triples. case_decide; [done|]. unfold ds_graph, graph_key. rewrite Hd. cbn [OptTermKey].
    rewrite E. apply lookup_empty.
Qed.

(** A graph of storable triples. *)
Lemma rep_graph_storable v d g k t : bs_rep v d → graph_ok g → ds_graph d g !! k = Some t → tkey t = k ∧ storable t.
Proof. intros Hr Hg Ht. rewrite <- (content_of_graph d g Hg) in Ht. by destruct (ir_ok _ _ (br_index _ _ Hr) _ _ _ Ht) as (? & ? & _). Qed.

Lemma storable_wf t : storable t → triple_wf t.
Proof. intros ((Hs & _) & Hb & Hp & _ & (Ho & _)). by split_and!. Qed.

Lemma graph_add_insert (m : gmap tkey_t Triple) t : (∀ k u, m !! k = Some u → tkey u = k ∧ storable u) → storable t → graph_add m t = <[tkey t := t]> m.
Proof.
  intros Hm Ht. unfold graph_add. destruct (m !! tkey t) as [u|] eqn:E; [|done]. destruct (Hm _ _ E) as [Ek Hu].
  apply storable_wf in Hu as (Su & _ & Pu & Ou). apply storable_wf in Ht as (St & _ & Pt & Ot). assert (u = t) as ->; [|by rewrite insert_id].
  unfold tkey in Ek. injection Ek as E1 E2 E3. apply TermKey_inj in E1, E3; [|done..]. apply uri_key_inj in E2; [|done..]. by destruct u, t; cbn in *; subst.
Qed.

Lemma drop_matching (m : gmap tkey_t Triple) p ks : (∀ k u, m !! k = Some u → tkey u = k) → (∀ k, k ∈ ks ↔ k ∈ tkey <$> graph_triples (matching p m)) →
  drop_triples m ks = not_matching p m.
Proof.
  intros Hm Hks. apply map_eq. intros k. apply option_eq. intros t. rewrite lookup_drop_triples. unfold not_matching. rewrite map_lookup_filter_Some. cbn [snd].
  assert (Hin : k ∈ ks ↔ ∃ u, m !! k = Some u ∧ pattern_matches p u = true).
  { rewrite Hks. unfold graph_triples. rewrite <- list_fmap_compose, list_elem_of_fmap. split.
    - intros ([k' u] & -> & Hu%elem_of_map_to_list). apply map_lookup_filter_Some in Hu as [Hu Hpu]. exists u. cbn. by rewrite (Hm _ _ Hu).
    - intros (u & Hu & Hpu). exists (k, u). split; [symmetry; by apply Hm|]. by apply elem_of_map_to_list, map_lookup_filter_Some. }
  case_decide as Hk.
  - apply Hin in Hk as (u & Hu & Hpu). split; [done|]. intros [Ht Hpt]. rewrite Hu in Ht. injection Ht as ->. congruence.
  - split; [|by intros [? _]]. intros Ht. split; [done|]. destruct (pattern_matches p t) eqn:E; [|done]. destruct Hk. apply Hin. by exists t.
Qed.

(** ** Transactions *)

Section methods.
Context {DB : Type} {db_DB : Badger DB} {laws_DB : BadgerLaws DB} (uuid : nat → string) (ctx : nat → option error).
Abbreviation open d := (db_IsClosed d = false).

(** A step that succeeds and changes the view as [f] does. *)
Definition runs (m : txnM DB unit) (f : gmap string string → gmap string string) : Prop :=
  ∀ d c, open d → ∃ d' c', m d c = (Ok tt, d', c') ∧ open d' ∧ view d' = f (view d).

Lemma runs_ret : runs (mret tt) id.
Proof. intros d c Hd. by exists d, c. Qed.

Lemma runs_bind m m' f f' : runs m f → runs m' f' → runs (_ ← m; m') (f' ∘ f).
Proof.
  intros Hm Hm' d c Hd. destruct (Hm d c Hd) as (d1 & c1 & E1 & Hd1 & V1), (Hm' d1 c1 Hd1) as (d2 & c2 & E2 & Hd2 & V2).
  exists d2, c2. unfold mbind, txnM_bind. rewrite E1, E2. split; [done|]. split; [done|]. by rewrite V2, V1.
Qed.

Lemma runs_ext m f f' : runs m f → (∀ v, f v = f' v) → runs m f'.
Proof. intros Hm Hf d c Hd. destruct (Hm d c Hd) as (d' & c' & E & Hd' & V). exists d', c'. by rewrite V, Hf. Qed.

Lemma runs_set k v : runs (set k v) (<[k := v]>).
Proof. intros d c Hd. unfold set. destruct (set_ok d k v Hd) as (d' & -> & Hd' & V). by exists d', c. Qed.

Lemma runs_del k : runs (del k) (delete k).
Proof. intros d c Hd. unfold del. destruct (delete_ok d k Hd) as (d' & -> & Hd' & V). by exists d', c. Qed.

Lemma runs_set_keys gk sk pk ok val : runs (set_keys gk sk pk ok val) (λ v, set_all v (keys_of gk (sk, pk, ok)) val).
Proof. unfold set_keys. eapply runs_ext; [repeat (eapply runs_bind; [apply runs_set|]); apply runs_set|done]. Qed.

Lemma runs_track gk : runs (track_context gk) (λ v, track v gk).
Proof. unfold track_context, track. destruct (is_empty gk); [apply runs_ret|apply runs_set]. Qed.

Lemma runs_del_each gk ks : runs (del_each ((λ k : tkey_t, MkKeys gk k.1.1 k.1.2 k.2) <$> ks)) (λ v, drop_keys v gk ks).
Proof.
  induction ks as [|[[sk pk] ok] ks IH]; [exact runs_ret|]. cbn [fmap list_fmap del_each tk_gk tk_sk tk_pk tk_ok fst snd].
  eapply runs_ext; [eapply runs_bind; [|exact IH]|].
  - unfold del_keys. repeat (eapply runs_bind; [apply runs_del|]). apply runs_del.
  - done.
Qed.

Lemma Update_ok m f d c : runs m f → open d → ∃ d' c', db_Update m d c = (Ok tt, d', c') ∧ open d' ∧ view d' = f (view d).
Proof.
  intros Hm Hd. destruct (Hm d c Hd) as (d1 & c1 & E & Hd1 & V1).
  destruct (update_ok m d c d1 c1 Hd E Hd1) as (d2 & -> & Hd2 & V2). exists d2, c1. by rewrite V2.
Qed.

(** ** Scans *)

Definition live : Prop := ∀ i, ctx i = None.

Lemma look_if_cases b c : (∃ c', look_if ctx b c = (None, c')) ∨ ∃ e i c', ctx i = Some e ∧ look_if ctx b c = (Some e, c').
Proof.
  unfold look_if, look. destruct b; [|left; by eexists]. destruct (ctx (looks c)) as [e|] eqn:E; [right; by eexists e, _, _|left; by eexists].
Qed.

Lemma drawn_decode t c : storable t → ∃ c', drawn (decodeTriple uuid (encodeTriple t)) c = (Ok t, c').
Proof. intros Ht. unfold drawn. rewrite decodeTriple_encodeTriple by done. by eexists. Qed.

(** A scan hands its consumer the triples in the order of the items, as far as the
    context lets it. *)
Lemma iterate_items_ok {S} prefix key (fn : Triple → S → bool * S) l : Forall storable l → ∀ n acc c,
  ∃ r acc' c', iterate_items uuid ctx prefix ((λ t, (key t, Ok (encodeTriple t))) <$> l) n fn acc c = (r, acc', c') ∧
    ((r = Ok tt ∧ acc' = (drive l fn acc).2) ∨ ∃ k i e, ctx i = Some e ∧ r = Err e ∧ acc' = (drive (take k l) fn acc).2).
Proof.
  induction 1 as [|t l Ht _ IH]; intros n acc c; cbn [fmap list_fmap iterate_items].
  { eexists _, _, _. split; [done|]. by left. }
  destruct (look_if_cases (on_poll (Datatypes.S n)) c) as [(c1 & ->)|(e & i & c1 & He & ->)].
  2: { eexists _, _, _. split; [done|]. right. exists 0, i, e. by rewrite take_0. }
  destruct (drawn_decode t c1 Ht) as (c2 & ->). destruct (fn t acc) as [continue acc1] eqn:E. destruct continue.
  - destruct (IH (Datatypes.S n) acc1 c2) as (r & acc' & c' & -> & [[-> ->]|(k & i & e & He & -> & ->)]); eexists _, _, _; (split; [done|]).
    + left. split; [done|]. cbn [drive]. by rewrite E.
    + right. exists (Datatypes.S k), i, e. cbn [take drive]. by rewrite E.
  - eexists _, _, _. split; [done|]. left. cbn [drive]. by rewrite E.
Qed.

Lemma scan_items d p gk (m : dataset) : open d → bs_rep (view d) m → pattern_ok p → fully_bound p = false → clean_key gk →
  ∃ l, txn_Scan (scanPrefix p gk) d = (λ t, (scan_key p gk (tkey t), Ok (encodeTriple t))) <$> l ∧ l ≡ₚ graph_triples (matching p (content_of m gk)) ∧ Forall storable l.
Proof.
  intros Hd Hr Hp Hb Hg. destruct (scan_ok d (scanPrefix p gk) Hd) as (l & -> & Hl). rewrite (index_rep_scan _ _ _ _ (br_index _ _ Hr) Hp Hb Hg) in Hl.
  apply Permutation_map_inv in Hl as (l' & -> & Hl'). exists l'. split; [|split].
  - change (map ?f ?l) with (f <$> l). rewrite <- list_fmap_compose. by apply list_fmap_ext.
  - by symmetry.
  - rewrite <- Hl'. apply Forall_forall. unfold graph_triples. intros t ([k u] & -> & Hu%elem_of_map_to_list)%list_elem_of_fmap.
    apply map_lookup_filter_Some in Hu as [Hu _]. by destruct (ir_ok _ _ (br_index _ _ Hr) _ _ _ Hu) as (_ & ? & _).
Qed.

(** The entry of a pattern that is given in full. *)
Lemma exact_entry d p gk (m : dataset) : open d → bs_rep (view d) m → pattern_ok p → fully_bound p = true → clean_key gk →
  let k := (OptTermKey (pat_Subject p), OptPredKey (pat_Predicate p), OptTermKey (pat_Object p)) in
  txn_Get (exact_key p gk) d = Ok ((λ t, Ok (encodeTriple t)) <$> content_of m gk !! k) ∧
  matching p (content_of m gk) = match content_of m gk !! k with Some t => {[k := t]} | None => ∅ end.
Proof.
  intros Hd Hr Hp Hb Hg k. pose proof (pattern_ok_clean p Hp) as (Cs & Cp & Co). pose proof (br_index _ _ Hr) as Hi. assert (Hk : exact_key p gk ∈ keys_of gk k) by set_solver. split.
  - rewrite get_ok by done. do 2 f_equal. destruct (content_of m gk !! k) as [t|] eqn:E; cbn.
    + assert (Ev : view d !! exact_key p gk = Some (encodeTriple t)); [|by rewrite Ev]. apply (ir_in _ _ Hi); [done|]. by exists gk, k, t.
    + destruct (view d !! exact_key p gk) as [val|] eqn:Ev; [|done]. apply (ir_in _ _ Hi) in Ev as (g & k' & t & Ht & Hk' & _); [|done].
      destruct (ir_ok _ _ Hi _ _ _ Ht) as (Kt & St & Cg). destruct (keys_disjoint (exact_key p gk) g k' gk k) as [-> ->]; [done|rewrite <- Kt; by apply storable_clean|done|done|done|done|]. discriminate (eq_trans (eq_sym Ht) E).
  - apply map_eq. intros k'. apply option_eq. intros t. unfold matching. rewrite map_lookup_filter_Some. cbn [snd].
    assert (Hm : ∀ k' t, content_of m gk !! k' = Some t → pattern_matches p t = true ↔ k' = k).
    { intros k1 u Hu. destruct (ir_ok _ _ Hi _ _ _ Hu) as (<- & _ & _). unfold pattern_matches, key_matches, k, tkey. unfold fully_bound in Hb. bool_cases.
      rewrite H, H1, H0. cbn [negb orb]. rewrite !andb_true_iff, !String.eqb_eq. cbn [keyAt]. naive_solver congruence. }
    destruct (content_of m gk !! k) as [u|] eqn:E.
    + destruct (decide (k' = k)) as [->|Hne]; [rewrite lookup_singleton_eq|rewrite lookup_singleton_ne by done].
      * split; [intros [Ht _]; exact (eq_trans (eq_sym E) Ht)|]. intros [= ->]. split; [exact E|]. by eapply Hm.
      * split; [|done]. intros [Ht Hpt]. by apply (Hm _ _ Ht) in Hpt.
    + rewrite lookup_empty. split; [|done]. intros [Ht Hpt]. apply (Hm _ _ Ht) in Hpt. subst k'. discriminate (eq_trans (eq_sym Ht) E).
Qed.

Lemma graph_triples_keys (m : gmap tkey_t Triple) : (∀ k t, m !! k = Some t → tkey t = k) → NoDup (tkey <$> graph_triples m) ∧ ∀ t, t ∈ graph_triples m ↔ m !! tkey t = Some t.
Proof.
  intros Hm. split.
  - unfold graph_triples. rewrite <- list_fmap_compose. rewrite (Forall_fmap_ext_1 _ fst); [apply NoDup_fst_map_to_list|].
    apply Forall_forall. intros [k t] Hkt%elem_of_map_to_list. by apply Hm.
  - intros t. unfold graph_triples. rewrite list_elem_of_fmap. split.
    + intros ([k u] & -> & Hu%elem_of_map_to_list). cbn. by rewrite (Hm _ _ Hu).
    + intros Ht. exists (tkey t, t). split; [done|]. by apply elem_of_map_to_list.
Qed.

(** Any scan goes through the matches, each once. *)
Lemma scan_ok' d p gk (m : dataset) : open d → bs_rep (view d) m → pattern_ok p → clean_key gk →
  ∃ l, NoDup l ∧ l ≡ₚ graph_triples (matching p (content_of m gk)) ∧ ∀ S (fn : string → string → string → Triple → S → bool * S) acc c,
    ∃ r acc' c', scanTriplesInTxn uuid ctx p gk fn acc d c = (r, acc', c') ∧
      let fn t := fn (TermKey (Subject t)) (uri_key (Predicate t)) (TermKey (Object t)) t in
      ((r = Ok tt ∧ acc' = (drive l fn acc).2) ∨ ∃ k i e, ctx i = Some e ∧ r = Err e ∧ acc' = (drive (take k l) fn acc).2).
Proof.
  intros Hd Hr Hp Hg. assert (Hk : ∀ k t, matching p (content_of m gk) !! k = Some t → tkey t = k).
  { intros k t Ht. apply map_lookup_filter_Some in Ht as [Ht _]. by destruct (ir_ok _ _ (br_index _ _ Hr) _ _ _ Ht). }
  destruct (fully_bound p) eqn:Hb.
  - destruct (exact_entry d p gk m Hd Hr Hp Hb Hg) as [Eg Em]. set (k := (OptTermKey (pat_Subject p), OptPredKey (pat_Predicate p), OptTermKey (pat_Object p))) in *.
    unfold scanTriplesInTxn. unfold fully_bound in Hb. rewrite Hb. unfold exact_key in Eg. rewrite Eg, Em. destruct (content_of m gk !! k) as [t|] eqn:Et; cbn [fmap option_fmap option_map].
    + exists [t]. split; [apply NoDup_singleton|]. split; [unfold graph_triples; by rewrite map_to_list_singleton|]. intros S fn acc c.
      destruct (ir_ok _ _ (br_index _ _ Hr) _ _ _ Et) as (Kt & St & _). destruct (drawn_decode t c St) as (c' & ->). eexists _, _, _. split; [done|]. left. split; [done|].
      unfold k, tkey in Kt. injection Kt as <- <- <-. cbn [drive keyAt TermKey]. by destruct (fn _ _ _ t acc) as [[] ?].
    + exists []. split; [constructor|]. split; [unfold graph_triples; by rewrite map_to_list_empty|]. intros S fn acc c. eexists _, _, _. split; [done|]. by left.
  - destruct (scan_items d p gk m Hd Hr Hp Hb Hg) as (l & Hl & Hperm & Hs). exists l. split; [|split; [done|]].
    + rewrite Hperm. apply (NoDup_fmap_1 tkey). by apply graph_triples_keys.
    + intros S fn acc c. unfold scanTriplesInTxn. unfold fully_bound in Hb. rewrite Hb. unfold iteratePrefix. rewrite Hl. by apply iterate_items_ok.
Qed.

Lemma all_given_bound p : pattern_ok p → all_given p = fully_bound p.
Proof.
  intros (Hs & Hp & Ho). unfold all_given, fully_bound. destruct (pat_Subject p) as [s|]; [|done]. destruct (Hs s eq_refl) as [Ws _]. pose proof (TermKey_nonempty s Ws).
  destruct (pat_Predicate p) as [u|]; [|cbn [OptPredKey]; by rewrite andb_false_r]. destruct (Hp u eq_refl) as [[w ->] _].
  destruct (pat_Object p) as [o|]; [|by rewrite andb_false_r]. destruct (Ho o eq_refl) as [Wo _]. pose proof (TermKey_nonempty o Wo).
  cbn. unfold bound. by destruct (TermKey s), (TermKey o).
Qed.

Lemma scanTripleValues_eq {S} p gk (fn : Triple → S → bool * S) acc d c : pattern_ok p →
  scanTripleValues uuid ctx p gk fn acc d c = scanTriplesInTxn uuid ctx p gk (λ _ _ _, fn) acc d c.
Proof.
  intros Hp. unfold scanTripleValues. rewrite all_given_bound by done. destruct (fully_bound p) eqn:Hb; [done|].
  unfold scanTriplesInTxn. unfold fully_bound in Hb. by rewrite Hb.
Qed.

(** ** The methods *)

Definition bs_ok (s : BadgerStore DB) (m : dataset) : Prop := snap s = None ∧ open (bs_db s) ∧ bs_rep (view (bs_db s)) m.

Lemma begin_ok (w : bool) s m c : live → bs_ok s m → ∃ c', begin_ ctx w s c = (Ok tt, c').
Proof. intros Hl (Hsn & Ho & _). unfold begin_, look. rewrite Hl, Hsn, Ho. by eexists. Qed.

Lemma write_method_ok what fn f s m c : live → bs_ok s m → runs fn f →
  ∃ s' c', write_method ctx what fn s c = (Ok tt, s', c') ∧ snap s' = None ∧ open (bs_db s') ∧ view (bs_db s') = f (view (bs_db s)).
Proof.
  intros Hl Hs Hf. unfold write_method. destruct (begin_ok true s m c Hl Hs) as (c1 & ->). destruct Hs as (Hsn & Ho & _).
  destruct (Update_ok fn f (bs_db s) c1 Hf Ho) as (d' & c2 & -> & Ho' & V). rewrite Hsn. by eexists _, c2.
Qed.

Lemma bs_Add_ok t g s m c : live → bs_ok s m → storable t → graph_ok g → ∃ s' c', bs_Add ctx t g s c = (Ok tt, s', c') ∧ bs_ok s' (ds_add m t g).
Proof.
  intros Hl Hs Ht Hg. unfold bs_Add. pose proof Hs as (Hsn & Ho & Hr).
  set (body := _ ← set_keys _ _ _ _ _; track_context _).
  assert (Hbody : runs body (λ v, track (set_all v (keys_of (graphKey g) (tkey t)) (encodeTriple t)) (graphKey g))).
  { eapply runs_ext; [eapply runs_bind; [apply runs_set_keys|apply runs_track]|done]. }
  assert (Hadd : ds_add m t g = ds_update m g (<[tkey t := t]> (ds_graph m g : gmap tkey_t Triple))).
  { unfold ds_add. f_equal. apply graph_add_insert; [|done]. intros k u. by apply rep_graph_storable with (view (bs_db s)). }
  unfold write_method. destruct (begin_ok true s m c Hl Hs) as (c1 & ->). set (fn := _ ← get _; _).
  destruct (view (bs_db s) !! spoKey (graphKey g) (TermKey (Subject t)) (uri_key (Predicate t)) (TermKey (Object t))) as [val|] eqn:Ev.
  - assert (E : fn (bs_db s) c1 = (Ok tt, bs_db s, c1)) by (unfold fn, mbind, txnM_bind, get; by rewrite get_ok, Ev by done).
    destruct (update_ok fn (bs_db s) c1 _ _ Ho E Ho) as (d' & -> & Ho' & V). eexists _, _. split; [done|]. split; [done|]. split; [done|].
    cbn [bs_db]. rewrite V. apply (ir_in _ _ (br_index _ _ Hr)) in Ev as (gk & k & u & Hu & Hk & _); [|done]. destruct (ir_ok _ _ (br_index _ _ Hr) _ _ _ Hu) as (Ku & Su & Cg).
    destruct (keys_disjoint (spoKey (graphKey g) (TermKey (Subject t)) (uri_key (Predicate t)) (TermKey (Object t))) gk k (graphKey g) (tkey t)) as [-> ->];
      [done|rewrite <- Ku; by apply storable_clean|by apply graphKey_clean|by apply storable_clean|done|by left|].
    rewrite (content_of_graph m g Hg) in Hu. unfold ds_add. assert (graph_add (ds_graph m g) t = ds_graph m g) as ->.
    { unfold graph_add. case_match eqn:E1; [done|]. discriminate (eq_trans (eq_sym E1) Hu). }
    exact (bs_rep_drop _ m g [] Hr Hg (Forall_nil_2 _)).
  - destruct (Hbody (bs_db s) c1 Ho) as (d1 & c2 & E & Ho1 & V1).
    assert (E' : fn (bs_db s) c1 = (Ok tt, d1, c2)) by (unfold fn, mbind at 1, txnM_bind at 1, get; by rewrite get_ok, Ev by done).
    destruct (update_ok fn (bs_db s) c1 _ _ Ho E' Ho1) as (d2 & -> & Ho2 & V2).
    eexists _, _. split; [done|]. split; [done|]. split; [done|]. cbn [bs_db]. rewrite V2, V1, Hadd. by apply bs_rep_put.
Qed.

(** A batch sets every entry, new or not. *)
Definition batch_entries (v : gmap string string) (q : Quad) : gmap string string :=
  track (set_all v (keys_of (graphKey (Graph q)) (tkey (quad_Triple q))) (encodeTriple (quad_Triple q))) (graphKey (Graph q)).

Lemma batch_set_ok k v w : open w → ∃ w', batch_set k v w = (Ok tt, w') ∧ open w' ∧ view w' = <[k := v]> (view w).
Proof. intros Hw. unfold batch_set. destruct (batch_ok w k v Hw) as (w' & -> & Hw' & V). by exists w'. Qed.

Lemma add_quads_ok qs : live → ∀ i w c, open w → ∃ w' c', add_quads ctx qs i w c = (Ok tt, w', c') ∧ open w' ∧ view w' = foldl batch_entries (view w) qs.
Proof.
  intros Hl. induction qs as [|q qs IH]; intros i w c Hw; cbn [add_quads foldl]; [by exists w, c|].
  destruct (look_if_cases (on_poll i) c) as [(c1 & ->)|(e & j & c1 & He & _)]; [|by rewrite Hl in He].
  destruct (batch_set_ok (spoKey (graphKey (Graph q)) (TermKey (Subject (quad_Triple q))) (uri_key (Predicate (quad_Triple q))) (TermKey (Object (quad_Triple q)))) (encodeTriple (quad_Triple q)) w Hw) as (w1 & -> & Hw1 & V1).
  destruct (batch_set_ok (posKey (graphKey (Graph q)) (uri_key (Predicate (quad_Triple q))) (TermKey (Object (quad_Triple q))) (TermKey (Subject (quad_Triple q)))) (encodeTriple (quad_Triple q)) w1 Hw1) as (w2 & -> & Hw2 & V2).
  destruct (batch_set_ok (ospKey (graphKey (Graph q)) (TermKey (Object (quad_Triple q))) (TermKey (Subject (quad_Triple q))) (uri_key (Predicate (quad_Triple q)))) (encodeTriple (quad_Triple q)) w2 Hw2) as (w3 & -> & Hw3 & V3).
  assert (Hv : view w3 = set_all (view w) (keys_of (graphKey (Graph q)) (tkey (quad_Triple q))) (encodeTriple (quad_Triple q))) by (by rewrite V3, V2, V1).
  destruct (is_empty (graphKey (Graph q))) eqn:Ee.
  - destruct (IH (Datatypes.S i) w3 c1 Hw3) as (w' & c' & -> & Hw' & V'). exists w', c'. split; [done|]. split; [done|]. rewrite V', Hv. f_equal. unfold batch_entries, track. by rewrite Ee.
  - destruct (batch_set_ok (ctxKey (graphKey (Graph q))) EmptyString w3 Hw3) as (w4 & -> & Hw4 & V4).
    destruct (IH (Datatypes.S i) w4 c1 Hw4) as (w' & c' & -> & Hw' & V'). exists w', c'. split; [done|]. split; [done|]. rewrite V', V4, Hv. f_equal. unfold batch_entries, track. by rewrite Ee.
Qed.

Definition quad_ok (q : Quad) : Prop := storable (quad_Triple q) ∧ graph_ok (Graph q).

Lemma batch_rep qs : Forall quad_ok qs → ∀ v m, bs_rep v m → bs_rep (foldl batch_entries v qs) (foldl (λ m q, ds_add m (quad_Triple q) (Graph q)) m qs).
Proof.
  induction 1 as [|q qs [Ht Hg] _ IH]; intros v m Hr; cbn [foldl]; [done|]. apply IH. unfold ds_add.
  rewrite graph_add_insert; [by apply bs_rep_put| |done]. intros k u. by apply rep_graph_storable with v.
Qed.

Lemma bs_AddN_ok qs s m c : live → bs_ok s m → Forall quad_ok qs →
  ∃ s' c', bs_AddN ctx qs s c = (Ok tt, s', c') ∧ bs_ok s' (foldl (λ m q, ds_add m (quad_Triple q) (Graph q)) m qs).
Proof.
  intros Hl Hs Hqs. unfold bs_AddN. destruct (begin_ok true s m c Hl Hs) as (c1 & ->). destruct Hs as (Hsn & Ho & Hr). destruct qs as [|q qs]; [by exists s, c1|].
  destruct (add_quads_ok (q :: qs) Hl 0 (bs_db s) c1 Ho) as (w & c2 & -> & Hw & V). destruct (flush_ok (bs_db s) w Ho Hw) as (d' & -> & Hd' & V').
  eexists _, c2. split; [done|]. split; [done|]. split; [done|]. cbn [bs_db]. rewrite V', V. by apply batch_rep.
Qed.

Lemma drive_collect {S} (f : Triple → S) l : ∀ acc, drive l (λ t ks, (true, ks ++ [f t])) acc = (true, acc ++ (f <$> l)).
Proof. induction l as [|t l IH]; intros acc; cbn; [by rewrite app_nil_r|]. by rewrite IH, <- app_assoc. Qed.

Lemma collected_clean m gk p l v : bs_rep v m → l ≡ₚ graph_triples (matching p (content_of m gk)) → Forall clean_keys (tkey <$> l) ∧
  (∀ k, k ∈ tkey <$> l ↔ k ∈ tkey <$> graph_triples (matching p (content_of m gk))) ∧ ∀ t, t ∈ l → pattern_matches p t = true.
Proof.
  intros Hr Hl. assert (Hin : ∀ t, t ∈ l → storable t ∧ pattern_matches p t = true).
  { intros t. rewrite Hl. unfold graph_triples. intros ([k u] & -> & Hu%elem_of_map_to_list)%list_elem_of_fmap. apply map_lookup_filter_Some in Hu as [Hu Hpu].
    by destruct (ir_ok _ _ (br_index _ _ Hr) _ _ _ Hu) as (_ & ? & _). }
  split; [|split].
  - apply Forall_fmap, Forall_forall. intros t Ht. by apply storable_clean, Hin.
  - intros k. by rewrite Hl.
  - intros t Ht. by apply Hin.
Qed.

Lemma bs_Remove_ok p g s m c : live → bs_ok s m → pattern_ok p → graph_ok g →
  ∃ s' c', bs_Remove uuid ctx p g s c = (Ok tt, s', c') ∧ bs_ok s' (ds_update m g (not_matching p (ds_graph m g))).
Proof.
  intros Hl Hs Hp Hg. unfold bs_Remove. destruct (begin_ok true s m c Hl Hs) as (c1 & ->). pose proof Hs as (Hsn & Ho & Hr). unfold read_view. rewrite Hsn. cbn [default].
  destruct (scan_ok' (bs_db s) p (graphKey g) m Ho Hr Hp (graphKey_clean g Hg)) as (l & _ & Hperm & Hscan).
  destruct (Hscan _ (λ sk pk ok _ ks, (true, ks ++ [MkKeys (graphKey g) sk pk ok])) [] c1) as (r & acc & c2 & -> & [[-> ->]|(k & i & e & He & _)]); [|by rewrite Hl in He].
  rewrite (drive_collect (λ t, MkKeys (graphKey g) (TermKey (Subject t)) (uri_key (Predicate t)) (TermKey (Object t)))). cbn [snd app].
  destruct (collected_clean m (graphKey g) p l _ Hr Hperm) as (Hclean & Hkeys & _). rewrite (content_of_graph m g Hg) in Hkeys, Hperm.
  assert (Hdrop : drop_triples (ds_graph m g) (tkey <$> l) = not_matching p (ds_graph m g)).
  { apply drop_matching; [|done]. intros k u Hu. by destruct (rep_graph_storable _ _ _ _ _ Hr Hg Hu). }
  assert (Hrep : bs_rep (drop_keys (view (bs_db s)) (graphKey g) (tkey <$> l)) (ds_update m g (not_matching p (ds_graph m g)))) by (rewrite <- Hdrop; by apply bs_rep_drop).
  destruct l as [|t l]; [eexists _, _; split; [done|]; by split_and!|]. cbn [fmap list_fmap]. unfold look. rewrite Hl.
  set (ks := tkey <$> (t :: l)) in *. assert (Eks : MkKeys (graphKey g) (TermKey (Subject t)) (uri_key (Predicate t)) (TermKey (Object t)) :: ((λ t, MkKeys (graphKey g) (TermKey (Subject t)) (uri_key (Predicate t)) (TermKey (Object t))) <$> l) =
    (λ k : tkey_t, MkKeys (graphKey g) k.1.1 k.1.2 k.2) <$> ks).
  { unfold ks. rewrite <- list_fmap_compose. done. }
  rewrite Eks. destruct (Update_ok _ _ (bs_db s) (MkClock (Datatypes.S (looks c2)) (draws c2)) (runs_del_each (graphKey g) ks) Ho) as (d' & c3 & -> & Ho' & V).
  eexists _, _. split; [done|]. split; [done|]. split; [done|]. cbn [bs_db]. by rewrite V.
Qed.

Lemma set_pattern_ok t : storable t → pattern_ok (set_pattern t).
Proof.
  intros (Hs & _ & Hu & Hp & _). split_and!; cbn.
  - intros x [= <-]. by split; apply Hs.
  - intros u [= <-]. split; [done|]. apply Hp.
  - done.
Qed.

Lemma set_pattern_keys t u : storable t → pattern_matches (set_pattern t) u = true → TermKey (Subject u) = TermKey (Subject t) ∧ uri_key (Predicate u) = uri_key (Predicate t).
Proof.
  intros ((Hs & _) & _ & [w Hu] & _) Hm. unfold pattern_matches in Hm. rewrite !andb_true_iff in Hm. destruct Hm as [[Hk1 Hk2] _]. unfold key_matches in Hk1, Hk2.
  cbn [set_pattern pat_Subject pat_Predicate OptTermKey OptPredKey keyAt TermKey] in Hk1, Hk2.
  assert (bound (TermKey (Subject t)) = true) as Hb1 by (unfold bound; pose proof (TermKey_nonempty _ Hs); by destruct (TermKey (Subject t))).
  assert (bound (uri_key (Predicate t)) = true) as Hb2 by (by rewrite Hu).
  rewrite Hb1 in Hk1. rewrite Hb2 in Hk2. cbn [negb orb] in Hk1, Hk2. by split; apply String.eqb_eq.
Qed.

Lemma bs_Set_ok t g s m c : live → bs_ok s m → storable t → graph_ok g →
  ∃ s' c', bs_Set uuid ctx t g s c = (Ok tt, s', c') ∧ bs_ok s' (ds_update m g (graph_add (not_matching (set_pattern t) (ds_graph m g)) t)).
Proof.
  intros Hl Hs Ht Hg. unfold bs_Set, write_method. destruct (begin_ok true s m c Hl Hs) as (c1 & ->). destruct Hs as (Hsn & Ho & Hr). set (fn := λ d c, _).
  destruct (scan_ok' (bs_db s) (set_pattern t) (graphKey g) m Ho Hr (set_pattern_ok t Ht) (graphKey_clean g Hg)) as (l & _ & Hperm & Hscan).
  destruct (collected_clean m (graphKey g) (set_pattern t) l _ Hr Hperm) as (Hclean & Hkeys & Hmatch). rewrite (content_of_graph m g Hg) in Hkeys.
  assert (Eks : (λ oldOK, MkKeys (graphKey g) (TermKey (Subject t)) (uri_key (Predicate t)) oldOK) <$> ((λ t, TermKey (Object t)) <$> l) =
    (λ k : tkey_t, MkKeys (graphKey g) k.1.1 k.1.2 k.2) <$> (tkey <$> l)).
  { rewrite <- !list_fmap_compose. apply Forall_fmap_ext_1, Forall_forall. intros u Hu. destruct (set_pattern_keys t u Ht (Hmatch u Hu)) as [E1 E2].
    unfold compose, tkey. cbn [keyAt TermKey fst snd]. by rewrite E1, E2. }
  set (ks := tkey <$> l) in *.
  assert (Hdrop : drop_triples (ds_graph m g) ks = not_matching (set_pattern t) (ds_graph m g)).
  { apply drop_matching; [|done]. intros k u Hu. by destruct (rep_graph_storable _ _ _ _ _ Hr Hg Hu). }
  assert (Hadd : graph_add (not_matching (set_pattern t) (ds_graph m g)) t = <[tkey t := t]> (drop_triples (ds_graph m g) ks)).
  { rewrite Hdrop. apply graph_add_insert; [|done]. intros k u Hu. apply map_lookup_filter_Some in Hu as [Hu _]. by apply (rep_graph_storable _ _ _ _ _ Hr Hg Hu). }
  assert (Hfn : ∃ d1 c3, fn (bs_db s) c1 = (Ok tt, d1, c3) ∧ open d1 ∧
    view d1 = track (set_all (drop_keys (view (bs_db s)) (graphKey g) ks) (keys_of (graphKey g) (tkey t)) (encodeTriple t)) (graphKey g)).
  { unfold fn. destruct (Hscan _ (λ _ _ ok _ oks, (true, oks ++ [ok])) [] c1) as (r & acc & c2 & -> & [[-> ->]|(k & i & e & He & _)]); [|by rewrite Hl in He].
    rewrite (drive_collect (λ t, TermKey (Object t))). cbn [snd app]. rewrite Eks.
    eassert (Hw : runs _ _) by (eapply runs_bind; [apply runs_del_each|eapply runs_bind; [apply runs_set_keys|apply runs_track]]).
    exact (Hw (bs_db s) c2 Ho). }
  destruct Hfn as (d1 & c3 & Efn & Ho1 & V1). destruct (update_ok fn (bs_db s) c1 _ _ Ho Efn Ho1) as (d2 & -> & Ho2 & V2).
  eexists _, _. split; [done|]. split; [done|]. split; [done|]. cbn [bs_db]. rewrite V2, V1, Hadd. apply (bs_rep_write (view (bs_db s))); [done|done| |].
  - pose proof (index_rep_drop _ _ (graphKey g) ks (br_index _ _ Hr) (graphKey_clean g Hg) Hclean) as Hi.
    pose proof (index_rep_put _ _ (graphKey g) t Hi Ht (graphKey_clean g Hg)) as Hi2. eapply index_rep_other; [exact Hi2| |done].
    intros gk. unfold put_graph. case_decide as E; [|done]. by rewrite decide_True, (content_of_graph m g Hg) by done.
  - intros k. by rewrite set_keys_ctx, drop_keys_ctx.
Qed.
End methods.
