(* ===== verification/BadgerReads.v ===== *)
(** * The persistent store: reads

    What the reads answer over the dataset a store stands for: the matches of a
    pattern, pages of them, counts, the names of the graphs, the namespaces. *)

From S2P Require Import Prelude GoStrings Strconv Term Decode TermKey TripleIndex Store MemoryStore Graph Badger BadgerCorrect BadgerRefine.
From stdpp Require Import options.

Section reads.
Context {DB : Type} {db_DB : Badger DB} {laws_DB : BadgerLaws DB} (uuid : nat → string) (ctx : nat → option error).
Abbreviation open d := (db_IsClosed d = false).

(** The failure of an iteration whose context is done: at once, or during the scan. *)
Definition cut_short (what : string) (l : list Triple) (r : list (result Triple)) : Prop :=
  ∃ i e, ctx i = Some e ∧ (r = [Err e] ∨ ∃ k, r = (Ok <$> take k l) ++ [Err (Wrapf what [] e)]).

Lemma begin_read s m c : bs_ok s m → (∃ c', begin_ ctx false s c = (Ok tt, c')) ∨ ∃ i e c', ctx i = Some e ∧ begin_ ctx false s c = (Err e, c').
Proof.
  intros (Hsn & Ho & _). unfold begin_, look. destruct (ctx (looks c)) as [e|] eqn:E; [right; by eexists _, e, _|].
  left. rewrite Hsn, Ho. by eexists.
Qed.

Lemma take_prefix {A} (l : list A) k k' : ∃ j, take k (take k' l) = take j l.
Proof. exists (k `min` k'). by rewrite take_take. Qed.

Lemma bs_Triples_any p g s m : bs_ok s m → pattern_ok p → graph_ok g → ∃ l, NoDup l ∧ l ≡ₚ graph_triples (matching p (ds_graph m g)) ∧
  (∀ c, (bs_Triples uuid ctx p g s c).1 = Ok <$> l ∨ cut_short "badgerstore: Triples: %w" l (bs_Triples uuid ctx p g s c).1) ∧
  ∀ limit offset c, live ctx → (bs_TriplesWithLimit uuid ctx p g limit offset s c).1 = Ok <$> page limit offset l.
Proof.
  intros Hs Hp Hg. pose proof Hs as (Hsn & Ho & Hr). destruct (scan_ok' uuid ctx (bs_db s) p (graphKey g) m Ho Hr Hp (graphKey_clean g Hg)) as (l & Hnd & Hperm & Hscan).
  rewrite (content_of_graph m g Hg) in Hperm. exists l. split; [done|]. split; [done|]. split.
  - intros c. unfold bs_Triples. destruct (begin_read s m c Hs) as [(c1 & ->)|(i & e & c1 & He & ->)]; [|right; exists i, e; split; [done|by left]].
    rewrite scanTripleValues_eq by done. unfold read_view. rewrite Hsn. cbn [default]. destruct (Hscan _ (λ _ _ _, keep) [] c1) as (r & acc & c2 & -> & [[-> ->]|(k & i & e & He & -> & ->)]).
    + left. cbn [default fst]. rewrite drive_keep. unfold ending. cbn. by rewrite app_nil_r.
    + right. exists i, e. split; [done|]. right. exists k. cbn [default fst]. by rewrite drive_keep.
  - intros limit offset c Hl. unfold bs_TriplesWithLimit. destruct (begin_ok ctx false s m c Hl Hs) as (c1 & ->).
    rewrite scanTripleValues_eq by done. unfold read_view. rewrite Hsn. cbn [default]. destruct (Hscan _ (λ _ _ _, limit_yield limit offset) (0%Z, 0%Z, []) c1) as (r & acc & c2 & -> & [[-> E]|(k & i & e & He & _)]); [|by rewrite Hl in He].
    destruct acc as [[a1 a2] acc]. assert (Ea : acc = page limit offset l).
    { etransitivity; [exact (f_equal snd E)|]. etransitivity; [apply limit_yield_page; lia|]. by rewrite Z.sub_0_r. }
    cbn [default fst]. unfold ending. by rewrite Ea, app_nil_r.
Qed.

Lemma count_keys_ok (Hl : live ctx) items : ∀ n c, ∃ c', count_keys ctx items n c = (Ok (Z.of_nat (n + length items)), c').
Proof.
  induction items as [|x items IH]; intros n c; cbn [count_keys length]; [rewrite Nat.add_0_r; by eexists|].
  destruct (look_if_cases ctx (on_poll n) c) as [(c1 & ->)|(e & j & c1 & He & _)]; [|by rewrite Hl in He].
  destruct (IH (S n) c1) as (c' & ->). exists c'. do 3 f_equal. lia.
Qed.

Lemma scan_count s m p gk c : live ctx → bs_ok s m → pattern_ok p → fully_bound p = false → clean_key gk →
  ∃ c', countPrefix ctx (scanPrefix p gk) (bs_db s) c = (Ok (Z.of_nat (size (matching p (content_of m gk)))), c').
Proof.
  intros Hl (Hsn & Ho & Hr) Hp Hb Hg. destruct (scan_items (bs_db s) p gk m Ho Hr Hp Hb Hg) as (l & El & Hperm & _). unfold countPrefix. rewrite El.
  destruct (count_keys_ok Hl ((λ t, (scan_key p gk (tkey t), Ok (encodeTriple t))) <$> l) 0 c) as (c' & ->). exists c'. do 3 f_equal.
  rewrite length_fmap, Hperm. unfold graph_triples. by rewrite length_fmap, length_map_to_list.
Qed.

Lemma bs_Len_ok g s m c : live ctx → bs_ok s m → graph_ok g → (bs_Len ctx g s c).1 = Ok (Z.of_nat (size (ds_graph m g))).
Proof.
  intros Hl Hs Hg. unfold bs_Len. destruct (begin_ok ctx false s m c Hl Hs) as (c1 & ->). pose proof Hs as (Hsn & _ & _). unfold read_view. rewrite Hsn.
  destruct (scan_count s m (MkPattern None None None) (graphKey g) c1 Hl Hs) as (c2 & E); [done|done|by apply graphKey_clean|].
  change (scanPrefix (MkPattern None None None) (graphKey g)) with (makePrefixKey pfxSPO (graphKey g) []) in E. cbn [default].
  rewrite E, content_of_graph by done. cbn [wrap_err fst]. do 2 f_equal. rewrite matching_all. done.
Qed.

Lemma exact_hasKey s m p g : bs_ok s m → pattern_ok p → fully_bound p = true → graph_ok g →
  hasKey (exact_key p (graphKey g)) (bs_db s) = Ok (negb (bool_decide (matching p (ds_graph m g) = ∅))) ∧ size (matching p (ds_graph m g)) ≤ 1.
Proof.
  intros (Hsn & Ho & Hr) Hp Hb Hg. destruct (exact_entry (bs_db s) p (graphKey g) m Ho Hr Hp Hb (graphKey_clean g Hg)) as [E Em].
  unfold hasKey. rewrite E. rewrite content_of_graph in Em by done. rewrite Em. rewrite <- (content_of_graph m g Hg) in *. destruct (content_of m (graphKey g) !! _) as [t|]; cbn.
  - split; [|by rewrite map_size_singleton]. rewrite bool_decide_eq_false_2; [done|]. apply map_non_empty_singleton.
  - split; [by rewrite bool_decide_eq_true_2|]. rewrite map_size_empty. lia.
Qed.

Lemma bs_Count_ok p g s m c : live ctx → bs_ok s m → pattern_ok p → graph_ok g → (bs_Count ctx p g s c).1 = Ok (Z.of_nat (size (matching p (ds_graph m g)))).
Proof.
  intros Hl Hs Hp Hg. unfold bs_Count. destruct (begin_ok ctx false s m c Hl Hs) as (c1 & ->). pose proof Hs as (Hsn & _ & _). unfold read_view. rewrite Hsn. cbn [default].
  rewrite all_given_bound by done. destruct (fully_bound p) eqn:Hb.
  - destruct (exact_hasKey s m p g Hs Hp Hb Hg) as [-> Hsz]. cbn. case_bool_decide as E; cbn; [by rewrite E|]. do 2 f_equal.
    destruct (size (matching p (ds_graph m g))) as [|n] eqn:En; [by apply map_size_empty_inv in En|]. lia.
  - destruct (scan_count s m p (graphKey g) c1 Hl Hs Hp Hb (graphKey_clean g Hg)) as (c2 & ->). by rewrite content_of_graph.
Qed.

Lemma bs_Exists_ok p g s m c : live ctx → bs_ok s m → pattern_ok p → graph_ok g → (bs_Exists ctx p g s c).1 = Ok (negb (bool_decide (matching p (ds_graph m g) = ∅))).
Proof.
  intros Hl Hs Hp Hg. unfold bs_Exists. destruct (begin_ok ctx false s m c Hl Hs) as (c1 & ->). pose proof Hs as (Hsn & Ho & Hr). unfold read_view. rewrite Hsn. cbn [default].
  rewrite all_given_bound by done. destruct (fully_bound p) eqn:Hb.
  - by rewrite (proj1 (exact_hasKey s m p g Hs Hp Hb Hg)).
  - destruct (scan_items (bs_db s) p (graphKey g) m Ho Hr Hp Hb (graphKey_clean g Hg)) as (l & -> & Hperm & _). cbn [wrap_err fst]. rewrite content_of_graph in Hperm by done. do 2 f_equal.
    case_bool_decide as E.
    + rewrite E in Hperm. unfold graph_triples in Hperm. rewrite map_to_list_empty in Hperm. by apply Permutation_nil_r in Hperm as ->.
    + destruct l as [|t l]; [|done]. destruct E. apply map_size_empty_inv. apply Permutation_length in Hperm. unfold graph_triples in Hperm. by rewrite length_fmap, length_map_to_list in Hperm.
Qed.
(** ** Names *)

Lemma named_key_inj n n' k : named_key n k → named_key n' k → n = n'.
Proof. intros ((Hn & _) & E & _) ((Hn' & _) & E' & _). apply TermKey_inj; [done|done|congruence]. Qed.

Definition ctx_item (it : string * result string) (n : Term) : Prop := it.1 = ctxKey (TermKey n) ∧ named_key n (TermKey n).

(** The names the database lists, each once. *)
Lemma ctx_scan s m : bs_ok s m → ∃ ns, Forall2 ctx_item (txn_Scan (ctxKey EmptyString) (bs_db s)) ns ∧ NoDup ns ∧
  ∀ n, named_key n (TermKey n) → n ∈ ns ↔ is_Some (view (bs_db s) !! ctxKey (TermKey n)).
Proof.
  intros (_ & Ho & Hr). destruct (scan_ok (bs_db s) (ctxKey EmptyString) Ho) as (l & -> & Hl).
  set (v := view (bs_db s)) in *. assert (Hin : ∀ kv, kv ∈ l ↔ HasPrefix kv.1 (ctxKey EmptyString) = true ∧ v !! kv.1 = Some kv.2).
  { intros [key val]. rewrite Hl, list_elem_of_filter, elem_of_map_to_list. done. }
  assert (Hnd : NoDup (fst <$> l)).
  { rewrite Hl. apply NoDup_fmap_2_strong; [|apply NoDup_filter, NoDup_map_to_list].
    intros [k1 v1] [k2 v2] [_ H1%elem_of_map_to_list]%list_elem_of_filter [_ H2%elem_of_map_to_list]%list_elem_of_filter E. cbn in E. subst k2. congruence. }
  assert (Hns : ∃ ns, Forall2 (λ kv n, kv.1 = ctxKey (TermKey n) ∧ named_key n (TermKey n)) l ns).
  { assert (Hex : ∀ kv, kv ∈ l → ∃ n, kv.1 = ctxKey (TermKey n) ∧ named_key n (TermKey n)).
    { intros [key val] [Hp Hv]%Hin. destruct (br_ctx _ _ Hr key val Hv Hp) as (n & k & E & Hn). exists n. pose proof Hn as (_ & Ek & _). by rewrite Ek. }
    clear -Hex. induction l as [|kv l IH]; [by exists []|]. destruct (Hex kv ltac:(by left)) as (n & Hn). destruct IH as (ns & Hns); [intros; apply Hex; by right|].
    exists (n :: ns). by constructor. }
  destruct Hns as (ns & Hns). assert (Ens : fst <$> l = ctxKey ∘ TermKey <$> ns) by (clear -Hns; induction Hns as [|kv n l ns [E _] _ IH]; [done|]; cbn; by rewrite E, IH).
  exists ns. split; [|split].
  - clear -Hns. unfold ctx_item. induction Hns; by constructor.
  - rewrite Ens in Hnd. by apply NoDup_fmap_1 in Hnd.
  - intros n Hn. split.
    + intros Hi. assert (Hk : ctxKey (TermKey n) ∈ fst <$> l) by (rewrite Ens; apply list_elem_of_fmap; by exists n).
      apply list_elem_of_fmap in Hk as ([key val] & E & [_ Hv]%Hin). cbn in *. rewrite E, Hv. by eexists.
    + intros [val Hv]. assert (Hk : (ctxKey (TermKey n), val) ∈ l) by (apply Hin; split; [apply HasPrefix_true; by exists (TermKey n)|exact Hv]).
      apply (list_elem_of_fmap_2 fst) in Hk. rewrite Ens in Hk. apply list_elem_of_fmap in Hk as (n' & E & Hn').
      cbn in E. injection E as E. destruct (list_elem_of_lookup_1 _ _ Hn') as [i Hi]. destruct (Forall2_lookup_r _ _ _ _ _ Hns Hi) as (kv & _ & _ & Hk').
      rewrite <- E in Hk'. by rewrite (named_key_inj _ _ _ Hn Hk').
Qed.

Lemma full_pattern_ok t : storable t → pattern_ok (MkPattern (Some (Subject t)) (Some (Predicate t)) (Some (Object t))).
Proof.
  intros (Hs & _ & Hu & Hp & Ho). split_and!; cbn.
  - intros x [= <-]. by split; apply Hs.
  - intros u [= <-]. split; [done|]. apply Hp.
  - intros x [= <-]. by split; apply Ho.
Qed.

Lemma triple_entry d m t gk : open d → bs_rep (view d) m → storable t → clean_key gk →
  ∃ val, txn_Get (spoKey gk (TermKey (Subject t)) (uri_key (Predicate t)) (TermKey (Object t))) d = Ok val ∧
    (val = None ↔ content_of m gk !! tkey t = None).
Proof.
  intros Hd Hr Ht Hg. pose proof (full_pattern_ok t Ht) as Hp. assert (Hb : fully_bound (MkPattern (Some (Subject t)) (Some (Predicate t)) (Some (Object t))) = true).
  { rewrite <- all_given_bound by done. done. }
  destruct (exact_entry d _ gk m Hd Hr Hp Hb Hg) as [E _]. eexists. split; [exact E|].
  apply fmap_None.
Qed.

Lemma drawn_name n c : named_key n (TermKey n) → ∃ c', drawn (TermFromKey uuid (TermKey n)) c = (Ok n, c').
Proof. intros ((Hw & Hg & _) & _). unfold drawn. rewrite TermFromKey_TermKey by done. by eexists. Qed.

Lemma context_items_ok (Hl : live ctx) s m t : bs_ok s m → (∀ u, t = Some u → storable u) → ∀ items ns, Forall2 ctx_item items ns → ∀ n acc c,
  ∃ c', context_items uuid ctx t items n (bs_db s) acc c = (Ok tt, acc ++ filter (λ x, contains t (content_of m (TermKey x)) = true) ns, c').
Proof.
  intros (_ & Ho & Hr) Ht items ns. induction 1 as [|[key val] x items ns [Ek Hx] _ IH]; intros n acc c; cbn [context_items]; [rewrite filter_nil, app_nil_r; by eexists|].
  cbn in Ek. subst key. destruct (look_if_cases ctx (on_poll (S n)) c) as [(c1 & ->)|(e & j & c1 & He & _)]; [|by rewrite Hl in He].
  change (sdrop 2 (ctxKey (TermKey x))) with (TermKey x). rewrite (named_nonempty _ _ Hx). destruct (drawn_name x c1 Hx) as (c2 & ->). rewrite filter_cons.
  destruct t as [t|]; cbn [contains].
  - destruct (triple_entry (bs_db s) m t (TermKey x) Ho Hr (Ht t eq_refl)) as (w & -> & Hw); [by destruct Hx as ((_ & _ & ? & _) & _)|].
    destruct (content_of m (TermKey x) !! tkey t) as [u|] eqn:E.
    + rewrite decide_True by (apply bool_decide_eq_true; by eexists). destruct w as [w|]; [|pose proof (proj1 Hw eq_refl); congruence].
      destruct (IH (S n) (acc ++ [x]) c2) as (c3 & ->). exists c3. by rewrite <- app_assoc.
    + rewrite decide_False; [|intros [u Hu]%bool_decide_eq_true; discriminate (eq_trans (eq_sym Hu) E)]. rewrite (proj2 Hw ltac:(first [exact E|reflexivity])). destruct (IH (S n) acc c2) as (c3 & ->). by exists c3.
  - destruct (IH (S n) (acc ++ [x]) c2) as (c3 & ->). exists c3. rewrite decide_True by done. by rewrite <- app_assoc.
Qed.

Lemma content_cases (d : dataset) k : is_empty k = false →
  (∃ n u, ds_named d !! k = Some (n, u) ∧ content_of d k = u) ∨ (ds_named d !! k = None ∧ content_of d k = ∅).
Proof.
  intros Hk. unfold content_of. rewrite Hk. destruct (ds_named d !! k) as [[n u]|] eqn:E; [left; by exists n, u|by right].
Qed.

Lemma ds_names_elem (v : gmap string string) m n t : bs_rep v m → n ∈ ds_names m t ↔ ∃ u, ds_named m !! TermKey n = Some (n, u) ∧ contains t u = true.
Proof.
  intros Hr. unfold ds_names. rewrite list_elem_of_fmap. split.
  - intros ([k [n' u]] & -> & [Hc Hk%elem_of_map_to_list]%list_elem_of_filter). cbn in *. destruct (br_named _ _ Hr _ _ _ Hk) as [(_ & -> & _) _]. by exists u.
  - intros (u & Hu & Hc). exists (TermKey n, (n, u)). split; [done|]. apply list_elem_of_filter. split; [done|]. by apply elem_of_map_to_list.
Qed.

Lemma ds_names_NoDup (v : gmap string string) m t : bs_rep v m → NoDup (ds_names m t).
Proof.
  intros Hr. unfold ds_names. apply NoDup_fmap_2_strong; [|apply NoDup_filter, NoDup_map_to_list].
  intros [k1 [n1 u1]] [k2 [n2 u2]] [_ H1%elem_of_map_to_list]%list_elem_of_filter [_ H2%elem_of_map_to_list]%list_elem_of_filter E.
  cbn in E. subst n2. destruct (br_named _ _ Hr _ _ _ H1) as [(_ & <- & _) _], (br_named _ _ Hr _ _ _ H2) as [(_ & <- & _) _].
  rewrite H1 in H2. by injection H2 as ->.
Qed.

(** Every graph of the dataset is listed, and with a triple exactly those that hold it. *)
Lemma bs_Contexts_ok t s m c : live ctx → bs_ok s m → (∀ u, t = Some u → storable u) →
  ∃ l, (bs_Contexts uuid ctx t s c).1 = Ok <$> l ∧ NoDup l ∧ ds_names m t ⊆ l ∧ (t ≠ None → l ≡ₚ ds_names m t).
Proof.
  intros Hl Hs Ht. unfold bs_Contexts. destruct (begin_ok ctx false s m c Hl Hs) as (c1 & ->). pose proof Hs as (Hsn & Ho & Hr). unfold read_view. rewrite Hsn. cbn [default].
  destruct (ctx_scan s m Hs) as (ns & Hns & Hnd & Hin). destruct (context_items_ok Hl s m t Hs Ht _ _ Hns 0 [] c1) as (c2 & ->). cbn [app fst].
  set (l := filter (λ x, contains t (content_of m (TermKey x)) = true) ns). assert (Hl' : NoDup l) by (by apply NoDup_filter).
  assert (Hsub : ∀ n u, ds_named m !! TermKey n = Some (n, u) → contains t u = true → n ∈ l).
  { intros n u Hu Hc. destruct (br_named _ _ Hr _ _ _ Hu) as (Hk & _ & Hv). apply list_elem_of_filter. split; [|by apply Hin].
    destruct (content_cases m (TermKey n) (named_nonempty _ _ Hk)) as [(n' & u' & E & ->)|[E _]]; pose proof (eq_trans (eq_sym Hu) E) as Eq; [by injection Eq as <- <-|discriminate Eq]. }
  exists l. split; [unfold ending; by rewrite app_nil_r|]. split; [done|]. split.
  - intros n (u & Hu & Hc)%(ds_names_elem _ _ _ _ Hr). by apply (Hsub n u).
  - intros Hsome. apply NoDup_Permutation; [done|by eapply ds_names_NoDup|]. intros n. rewrite (ds_names_elem _ _ _ _ Hr). split; [|intros (u & ? & ?); by apply (Hsub n u)].
    intros [Hc Hn]%list_elem_of_filter. assert (Hk : named_key n (TermKey n)).
    { destruct (list_elem_of_lookup_1 _ _ Hn) as [i Hi]. by destruct (Forall2_lookup_r _ _ _ _ _ Hns Hi) as (it & _ & _ & ?). }
    destruct (content_cases m (TermKey n) (named_nonempty _ _ Hk)) as [(n' & u & E & Eu)|[_ Eu]]; rewrite Eu in Hc.
    + destruct (br_named _ _ Hr _ _ _ E) as [Hk' _]. exists u. by rewrite (named_key_inj _ _ _ Hk Hk') at 2.
    + destruct t as [t|]; [|done]. cbn in Hc. apply bool_decide_eq_true in Hc as [u Hu]. discriminate (eq_trans (eq_sym (lookup_empty (tkey t))) Hu).
Qed.

(** ** Namespaces *)

Lemma bs_rep_other (v v' : gmap string string) m : bs_rep v m → (∀ key, is_index key = true ∨ HasPrefix key (ctxKey EmptyString) = true → v' !! key = v !! key) → bs_rep v' m.
Proof.
  intros [H1 H2 H3] Hv. split.
  - eapply index_rep_other; [exact H1|done|]. intros key Hk. apply Hv. by left.
  - intros k n u Hn. destruct (H2 k n u Hn) as (? & ? & ?). split; [done|]. split; [done|]. rewrite Hv; [done|]. right. apply HasPrefix_true. by exists k.
  - intros key val E Hp. rewrite Hv in E by (by right). by apply (H3 key val).
Qed.

Lemma bs_Bind_ok p u s m c : live ctx → bs_ok s m → uri_ok u →
  ∃ s' c', bs_Bind ctx p u s c = (Ok tt, s', c') ∧ bs_ok s' m ∧
    ∀ c, (bs_Namespace ctx p s' c).1 = Ok (u, true) ∧ (bs_Prefix ctx u s' c).1 = Ok (p, true).
Proof.
  intros Hl Hs [w Hw]. unfold bs_Bind. destruct (write_method_ok ctx "badgerstore: Bind: %w" _ _ s m c Hl Hs (runs_bind _ _ _ _ (runs_set (nsKey p) (URIRef_value u)) (runs_set (nuKey (URIRef_value u)) p)))
    as (s' & c' & E & Hsn & Ho & V). exists s', c'. split; [exact E|]. assert (Hs' : bs_ok s' m).
  { split; [done|]. split; [done|]. rewrite V. destruct Hs as (_ & _ & Hr). apply (bs_rep_other (view (bs_db s))); [exact Hr|].
    intros key Hk. unfold compose. rewrite !lookup_insert_ne; [done|intros <-; by destruct Hk..]. }
  split; [exact Hs'|]. intros c0. unfold bs_Namespace, bs_Prefix. destruct (begin_ok ctx false s' m c0 Hl Hs') as (c1 & ->).
  unfold read_view, read_value. rewrite Hsn. cbn [default]. rewrite !get_ok, V by done. unfold compose. rewrite lookup_insert_eq, lookup_insert_ne, lookup_insert_eq by done. cbn.
  by subst u.
Qed.
End reads.
