(* ===== verification/BadgerRun.v ===== *)
(** * The persistent store: runs, failures, snapshots

    The refinement of whole runs, what a call that is cut short gives, reads on a
    snapshot, and a database in memory that keeps the laws. *)

From S2P Require Import Prelude GoStrings Strconv Term Decode TermKey TripleIndex Store MemoryStore Graph Badger BadgerCorrect BadgerRefine BadgerReads.
From stdpp Require Import options.

(** ** Runs *)

(** What an operation needs to be stored and found again. *)
Definition op_ok (o : ds_op) : Prop :=
  match o with
  | DsAdd t g | DsSet t g => storable t ∧ graph_ok g
  | DsAddN qs => Forall quad_ok qs
  | DsRemove p g => pattern_ok p ∧ graph_ok g
  end.

Section run.
Context {DB : Type} `{Badger DB} (uuid : nat → string) (ctx : nat → option error).

Definition bs_step (o : ds_op) : BadgerStore DB → clock → result unit * BadgerStore DB * clock :=
  match o with
  | DsAdd t g => bs_Add ctx t g
  | DsSet t g => bs_Set uuid ctx t g
  | DsAddN qs => bs_AddN ctx qs
  | DsRemove p g => bs_Remove uuid ctx p g
  end.

(** The operations in turn, up to the first that fails. *)
Fixpoint bs_run (ops : list ds_op) (s : BadgerStore DB) (c : clock) : result unit * BadgerStore DB * clock :=
  match ops with
  | [] => (Ok tt, s, c)
  | o :: ops => match bs_step o s c with
                | (Ok _, s, c) => bs_run ops s c
                | r => r
                end
  end.
End run.

Section laws.
Context {DB : Type} {db_DB : Badger DB} {laws_DB : BadgerLaws DB} (uuid : nat → string) (ctx : nat → option error).

Lemma bs_step_ok o s m c : live ctx → bs_ok s m → op_ok o → ∃ s' c', bs_step uuid ctx o s c = (Ok tt, s', c') ∧ bs_ok s' (ds_step m o).
Proof.
  intros Hl Hs Ho. destruct o as [t g|t g|qs|p g]; cbn [bs_step op_ok ds_step] in *.
  - destruct Ho. by apply bs_Add_ok.
  - destruct Ho. by apply bs_Set_ok.
  - by apply bs_AddN_ok.
  - destruct Ho. by apply bs_Remove_ok.
Qed.

Lemma bs_run_ok ops : live ctx → Forall op_ok ops → ∀ s m c, bs_ok s m → ∃ s' c', bs_run uuid ctx ops s c = (Ok tt, s', c') ∧ bs_ok s' (foldl ds_step m ops).
Proof.
  intros Hl. induction 1 as [|o ops Ho _ IH]; intros s m c Hs; cbn [bs_run foldl]; [by exists s, c|].
  destruct (bs_step_ok o s m c Hl Hs Ho) as (s1 & c1 & -> & Hs1). by apply IH.
Qed.

Lemma empty_ok d : db_IsClosed d = false → view d = ∅ → bs_ok (MkBadger d None) (MkDataset ∅ ∅).
Proof.
  intros Ho Hv. split; [done|]. split; [done|]. cbn [bs_db]. rewrite Hv.
  assert (Hc : ∀ gk, content_of (MkDataset ∅ ∅) gk = ∅) by (intros gk; unfold content_of; by destruct (is_empty gk)).
  split; [split|done|done].
  - intros gk k t Ht. by rewrite Hc in Ht.
  - intros key val _. rewrite lookup_empty. split; [done|]. intros (gk & k & t & Ht & _). by rewrite Hc in Ht.
Qed.
End laws.

(** ** A database in memory *)

Record memDB := MkMem { mem_entries : gmap string string; mem_closed : bool }.
Definition mem_map (f : gmap string string → gmap string string) (d : memDB) : memDB := MkMem (f (mem_entries d)) (mem_closed d).
Definition mem_empty : memDB := MkMem ∅ false.

#[global] Instance mem_Badger : Badger memDB := {|
  db_IsClosed := mem_closed;
  db_Close d := (Ok tt, MkMem (mem_entries d) true);
  txn_Get k d := Ok (Ok <$> mem_entries d !! k);
  txn_Set k v d := (Ok tt, mem_map <[k := v]> d);
  txn_Delete k d := (Ok tt, mem_map (delete k) d);
  txn_Scan p d := prod_map id Ok <$> filter (λ kv : string * string, HasPrefix kv.1 p = true) (map_to_list (mem_entries d));
  db_Update fn d c := match fn d c with (Err e, _, c) => (Err e, d, c) | (Ok _, d', c) => (Ok tt, d', c) end;
  wb_Set k v d := (Ok tt, mem_map <[k := v]> d);
  wb_Flush _ w := (Ok tt, w);
  wb_Cancel d _ := d
|}.

#[global] Instance mem_laws : BadgerLaws memDB.
Proof.
  refine {| view := mem_entries |}; try by (intros; first [done|by eexists]).
  intros fn d c d' c' _ E Hd'. exists d'. unfold db_Update, mem_Badger. by rewrite E.
Defined.

(** ** The refinement *)


(** A triple about a triple term, whose key holds the separator, in a named graph. *)
Definition sample_triple : Triple := MkTriple (TURIRef sample_iri) sample_iri sample_term.
Definition sample_graph : option Term := Some (TURIRef (NewURIRefUnsafe "http://example.org/g")).
Definition sample_ops : list ds_op := [DsAdd sample_triple sample_graph; DsSet sample_triple None; DsRemove (set_pattern sample_triple) None].

Lemma sample_storable : storable sample_triple.
Proof.
  assert (Hu : storable_term (TURIRef sample_iri)).
  { split; [by eexists|]. split; [done|]. split; [|done]. apply clean_flat; by vm_compute. }
  split; [exact Hu|]. split; [done|]. split; [by eexists|]. split; [exact Hu|]. split; [exact sample_term_wf|]. split; [done|].
  split; [|by vm_compute]. apply zero_free_clean; [exact sample_term_wf|by vm_compute].
Qed.

Lemma sample_graph_ok : graph_ok sample_graph.
Proof.
  right. eexists. split; [done|]. split; [by eexists|]. split; [done|]. split; [|done]. apply clean_flat; by vm_compute.
Qed.

Lemma sample_ops_ok : Forall op_ok sample_ops.
Proof.
  constructor; [split; [exact sample_storable|exact sample_graph_ok]|].
  constructor; [split; [exact sample_storable|by left]|]. constructor; [|constructor].
  split; [apply set_pattern_ok, sample_storable|by left].
Qed.


(** What the database then holds: the three keys of the triple in its graph and the
    name of the graph; nothing of the default graph. *)
Lemma sample_run_content :
  (fst ∘ fst <$> Some (bs_run (λ _, EmptyString) (λ _, None) sample_ops (MkBadger mem_empty None) (MkClock 0 0))) = Some (Ok tt) ∧
  size (mem_entries (bs_db (bs_run (λ _, EmptyString) (λ _, None) sample_ops (MkBadger mem_empty None) (MkClock 0 0)).1.2)) = 4.
Proof. by vm_compute. Qed.

(** ** Failures *)

(** A [Remove] whose context is done once the matches are collected deletes none of
    them: nothing reaches the database. *)
Lemma late_Remove DB (D : Badger DB) uuid ctx p g s c r s' c' :
  bs_Remove uuid ctx p g s c = (r, s', c') → s' = s ∨ ∃ ks c1 c2, ctx (looks c1) = None ∧ (r, s', c') =
    (let '(r, d, c) := db_Update (del_each ks) (bs_db s) c2 in (wrap_err "badgerstore: Remove delete: %w" r, MkBadger d (snap s), c)).
Proof.
  unfold bs_Remove. destruct (begin_ ctx true s c) as [[[]|e] c1]; [|intros [= _ <- _]; by left].
  destruct (scanTriplesInTxn _ _ _ _ _ _ _ _) as [[[[]|e] [|k ks]] c2]; [intros [= _ <- _]; by left| |intros [= _ <- _]; by left..].
  unfold look. destruct (ctx (looks c2)) eqn:E; [intros [= _ <- _]; by left|]. intros H. right. eexists _, c2, _. split; [done|]. by symmetry.
Qed.

(** A call whose context is done, or on a closed database, is refused with its
    reason and has touched nothing. *)
Lemma refused_write DB (D : Badger DB) what fn s ctx c :
  (∀ e, ctx (looks c) = Some e → (write_method ctx what fn s c).1 = (Err e, s)) ∧
  (ctx (looks c) = None → snap s = None → db_IsClosed (bs_db s) = true → (write_method ctx what fn s c).1 = (Err (Wrapf "badgerstore: %w" [] ErrDBClosed), s)) ∧
  (ctx (looks c) = None → is_Some (snap s) → (write_method ctx what fn s c).1 = (Err panic_snapshot, s)).
Proof.
  unfold write_method, begin_, look. split; [|split].
  - by intros e ->.
  - by intros -> -> ->.
  - by intros -> [d ->].
Qed.

(** After [Close] every write is refused. *)
Lemma closed_refuses s :
  snap s = None → (bs_Close s).1 = Ok tt ∧ ∀ what fn (ctx : nat → option error) c, live ctx →
    (write_method ctx what fn (bs_Close s).2 c).1 = (Err (Wrapf "badgerstore: %w" [] ErrDBClosed), (bs_Close (DB := memDB) s).2).
Proof.
  intros Hs. unfold bs_Close. rewrite Hs. split; [done|]. intros what fn ctx c Hl. by apply refused_write.
Qed.

(** ** Snapshots *)

(** A snapshot of a live store reads as the store did, whatever is written later. *)
Lemma snapshot_reads DB (D : Badger DB) uuid ctx s c c1 v d' : snap s = None → bs_ReadSnapshot ctx s c = (Ok v, c1) →
  let v' := MkBadger d' (snap v) in
  (∀ p g c, bs_Triples uuid ctx p g v' c = bs_Triples uuid ctx p g s c) ∧ (∀ p g lim off c, bs_TriplesWithLimit uuid ctx p g lim off v' c = bs_TriplesWithLimit uuid ctx p g lim off s c) ∧
  (∀ g c, bs_Len ctx g v' c = bs_Len ctx g s c) ∧ (∀ p g c, bs_Count ctx p g v' c = bs_Count ctx p g s c) ∧ (∀ p g c, bs_Exists ctx p g v' c = bs_Exists ctx p g s c) ∧
  (∀ t c, bs_Contexts uuid ctx t v' c = bs_Contexts uuid ctx t s c).
Proof.
  intros Hs. unfold bs_ReadSnapshot, look. destruct (ctx (looks c)); [done|]. rewrite Hs. destruct (db_IsClosed (bs_db s)) eqn:Ho; [done|]. intros E. injection E as <- <-. set (v' := MkBadger d' _). cbv zeta.
  assert (Hb : ∀ c, begin_ ctx false v' c = begin_ ctx false s c) by (intros c0; unfold begin_, look; destruct (ctx (looks c0)); [done|]; by rewrite Hs, Ho).
  assert (Hr : read_view v' = read_view s) by (unfold read_view; by rewrite Hs).
  split_and!; intros.
  - unfold bs_Triples. by rewrite Hb, Hr.
  - unfold bs_TriplesWithLimit. by rewrite Hb, Hr.
  - unfold bs_Len. by rewrite Hb, Hr.
  - unfold bs_Count. by rewrite Hb, Hr.
  - unfold bs_Exists. by rewrite Hb, Hr.
  - unfold bs_Contexts. by rewrite Hb, Hr.
Qed.

(** The name of a graph outlives its triples, unlike in the store in memory. *)
Lemma emptied_graph_still_listed :
  let '(_, s, _) := bs_run (λ _, EmptyString) (λ _, None) [DsAdd sample_triple sample_graph; DsRemove (MkPattern None None None) sample_graph] (MkBadger mem_empty None) (MkClock 0 0) in
  (bs_Len (λ _, None) sample_graph s (MkClock 0 0)).1 = Ok 0%Z ∧
  (bs_Contexts (λ _, EmptyString) (λ _, None) None s (MkClock 0 0)).1 = [Ok (TURIRef (NewURIRefUnsafe "http://example.org/g"))].
Proof. by vm_compute. Qed.
