(* ===== verification/Skolem.v ===== *)
(** * Skolemization

    [Graph.Skolemize] and [Graph.DeSkolemize] (graph/skolem.go): copies of a graph
    with its blank nodes replaced by IRIs, and back. *)

From S2P Require Import Prelude GoStrings GoSort Strconv Sha256 Term TermKey TripleIndex Store MemoryStore Graph.
From stdpp Require Import options.

Definition DefaultSkolemBasepath : string := ".well-known/genid/".
Definition skolemRounds : nat := 16.

Record skolemConfig := MkSkolem { basepath : string; stable : bool }.
Definition SkolemOption : Type := skolemConfig → skolemConfig.
Definition WithSkolemBasepath (p : string) : SkolemOption := λ c, MkSkolem p (stable c).
Definition WithStableSkolemIDs : SkolemOption := λ c, MkSkolem (basepath c) true.
Definition skolem_config (opts : list SkolemOption) : skolemConfig := foldl (λ c o, o c) (MkSkolem DefaultSkolemBasepath false) opts.

Definition skolemPrefix (authority basepath : string) : string :=
  let authority := if HasSuffix authority "/" then authority else authority +:+ "/" in
  let basepath := if negb (is_empty basepath) && negb (HasSuffix basepath "/") then basepath +:+ "/" else basepath in
  authority +:+ basepath.

(** [collect]. *)
Fixpoint collect_seq (seq : TripleIterator) : result (list Triple) :=
  match seq with
  | [] => Ok []
  | Err e :: _ => Err e
  | Ok t :: seq => out ← collect_seq seq; Ok (t :: out)
  end.

(** [skolemTerm]; [skolemSubject] is the same on a subject. *)
Fixpoint skolemTerm (mint : BNode → URIRef) (t : Term) : Term :=
  match t with
  | TBNode b => TURIRef (mint b)
  | TTripleTerm s p o _ => default t (NewTripleTerm (Some (skolemTerm mint s)) p (Some (skolemTerm mint o)))
  | _ => t
  end.

Definition skolemTriple (mint : BNode → URIRef) (t : Triple) : Triple :=
  MkTriple (skolemTerm mint (Subject t)) (Predicate t) (skolemTerm mint (Object t)).

(** ** Structural ids *)

Definition bnode_label (t : Term) : option string := match t with TBNode b => Some (BNode_value b) | _ => None end.

(** Every blank node's triples. *)
Definition add_incident (l : string) (t : Triple) (m : gmap string (list Triple)) : gmap string (list Triple) :=
  <[l := default [] (m !! l) ++ [t]]> m.
Definition incident_step (m : gmap string (list Triple)) (t : Triple) : gmap string (list Triple) :=
  let m := match bnode_label (Subject t) with Some l => add_incident l t m | None => m end in
  match bnode_label (Object t) with
  | Some l => if bool_decide (Subject t = Object t) then m else add_incident l t m
  | None => m
  end.
Definition incident_of (triples : list Triple) : gmap string (list Triple) := foldl incident_step ∅ triples.

(** A term as seen from node [self]. *)
Definition repr (sig : gmap string string) (t : Term) (self : string) : string :=
  match bnode_label t with
  | Some l => if String.eqb l self then "@self" else "_:" +:+ default EmptyString (sig !! l)
  | None => Term_N3 None t
  end.

Definition sig_of (sig : gmap string string) (incident : gmap string (list Triple)) (l : string) : string :=
  let parts := (λ t, repr sig (Subject t) l +:+ " " +:+ URIRef_N3 None (Predicate t) +:+ " " +:+ repr sig (Object t) l)
    <$> default [] (incident !! l) in
  hex_bytes (take 16 (Sum256 (Join (Sort parts) (str1 lf)))).

Definition countDistinct (sig : gmap string string) : nat := size (list_to_set (map_to_list sig).*2 : gset string).

Definition next_sig (incident : gmap string (list Triple)) (labels : list string) (sig : gmap string string) : gmap string string :=
  list_to_map ((λ l, (l, sig_of sig incident l)) <$> labels).

(** The rounds, from round number [skolemRounds - n]. *)
Fixpoint refine_loop (n : nat) (incident : gmap string (list Triple)) (labels : list string) (classes : nat) (sig : gmap string string)
    : gmap string string :=
  match n with
  | O => sig
  | S n' =>
      let sig := next_sig incident labels sig in
      let c := countDistinct sig in
      if (c =? classes)%nat && negb (n =? skolemRounds)%nat then sig else refine_loop n' incident labels c sig
  end.

(** Nodes that share a signature get suffixes in label order. *)
Definition suffix_step (sig : gmap string string) (acc : gmap string string * gmap string Z) (l : string) : gmap string string * gmap string Z :=
  let '(byLabel, seen) := acc in
  let s := default EmptyString (sig !! l) in
  let k := default 0%Z (seen !! s) in
  (<[l := if (k =? 0)%Z then s else s +:+ "-" +:+ FormatInt k]> byLabel, <[s := (k + 1)%Z]> seen).

Section skolem.
Context `{GoRange}.

Definition bnode_labels (triples : list Triple) : list string := Sort (range (incident_of triples)).*1.
Definition signatures (triples : list Triple) : gmap string string :=
  let labels := bnode_labels triples in
  refine_loop skolemRounds (incident_of triples) labels 1 (list_to_map ((λ l, (l, EmptyString)) <$> labels)).

Definition stableBNodeIDs (triples : list Triple) : gmap string string :=
  (foldl (suffix_step (signatures triples)) (∅, ∅) (bnode_labels triples)).1.

Definition skolem_mint (prefix : string) (ids : gmap string string) (b : BNode) : URIRef :=
  NewURIRefUnsafe (prefix +:+ default (BNode_value b) (ids !! BNode_value b)).

(** ** The copies: new graphs over new memory stores *)

Fixpoint add_each (ctx : Context) (g : Graph_) (ts : list Triple) (m : MemoryStore) : result unit * MemoryStore :=
  match ts with
  | [] => (Ok tt, m)
  | t :: ts =>
      match g_Add ctx g (Subject t) (Predicate t) (Object t) m with
      | (Err e, m) => (Err e, m)
      | (Ok _, m) => add_each ctx g ts m
      end
  end.

Context {St : Type} `{Store St}.

(** The bindings the copy takes over. *)
Fixpoint bind_each (ctx : Context) (bs : NamespaceIterator) (m : MemoryStore) : result MemoryStore :=
  match bs with
  | [] => Ok m
  | Err e :: _ => Err e
  | Ok b :: bs =>
      match Bind ctx (nb_Prefix b) (nb_Namespace b) m with
      | (Err e, _) => Err e
      | (Ok _, m) => bind_each ctx bs m
      end
  end.

Definition emptyCopy (ctx : Context) (g : Graph_) (st : St) : result (Graph_ * MemoryStore) :=
  m ← bind_each ctx (Namespaces ctx st) NewGraph;
  Ok (MkGraph (default_identifier (identifier g)) EmptyString, m).

Definition Skolemize (ctx : Context) (g : Graph_) (authority : string) (opts : list SkolemOption) (st : St) : result (Graph_ * MemoryStore) :=
  let cfg := skolem_config opts in
  let prefix := skolemPrefix authority (basepath cfg) in
  triples ← collect_seq (g_Triples ctx g None None None st);
  let ids : gmap string string := if stable cfg then stableBNodeIDs triples else ∅ in
  '(out, m) ← emptyCopy ctx g st;
  match add_each ctx out (skolemTriple (skolem_mint prefix ids) <$> triples) m with
  | (Err e, _) => Err e
  | (Ok _, m) => Ok (out, m)
  end.

(** [unmint], with the map [nodes]. *)
Definition unmint (uuid : nat → string) (prefix : string) (t : Term) (nodes : gmap string BNode) : drawM (Term * gmap string BNode) :=
  match t with
  | TURIRef u =>
      if negb (HasPrefix (URIRef_value u) prefix) then mret (t, nodes)
      else match nodes !! URIRef_value u with
           | Some b => mret (TBNode b, nodes)
           | None => b ← NewBNode uuid EmptyString; mret (TBNode b, <[URIRef_value u := b]> nodes)
           end
  | _ => mret (t, nodes)
  end.

Fixpoint unmint_all (uuid : nat → string) (prefix : string) (ctx : Context) (g : Graph_) (ts : list Triple) (nodes : gmap string BNode) (m : MemoryStore)
    : drawM MemoryStore :=
  match ts with
  | [] => mret m
  | t :: ts =>
      '(s, nodes) ← unmint uuid prefix (Subject t) nodes;
      '(o, nodes) ← unmint uuid prefix (Object t) nodes;
      match g_Add ctx g s (Predicate t) o m with
      | (Err e, _) => fail e
      | (Ok _, m) => unmint_all uuid prefix ctx g ts nodes m
      end
  end.

Definition DeSkolemize (uuid : nat → string) (ctx : Context) (g : Graph_) (authority : string) (opts : list SkolemOption) (st : St)
    : drawM (Graph_ * MemoryStore) :=
  let prefix := skolemPrefix authority (basepath (skolem_config opts)) in
  triples ← lift (collect_seq (g_Triples ctx g None None None st));
  '(out, m) ← lift (emptyCopy ctx g st);
  m ← unmint_all uuid prefix ctx out triples ∅ m;
  mret (out, m).
End skolem.
