(* ===== verification/SkolemCorrect.v ===== *)
(** * Skolemization: structural ids and round trips *)

From S2P Require Import Prelude GoStrings GoSort Strconv Sha256 Term TermKey TripleIndex Store MemoryStore Namespace Graph Skolem.
From stdpp Require Import options.

(** ** The triples of a blank node *)

Definition touches (l : string) (t : Triple) : Prop := bnode_label (Subject t) = Some l ∨ bnode_label (Object t) = Some l.
#[global] Instance touches_dec l t : Decision (touches l t).
Proof. unfold touches. apply _. Defined.

Lemma bnode_label_inj s o l : term_wf s → term_wf o → bnode_label s = Some l → bnode_label o = Some l → s = o.
Proof.
  destruct s as [|b| | |], o as [|b'| | |]; try done. cbn. intros (v & _ & ->) (v' & _ & ->).
  change (BNode_value (MkBNode ("B:" +:+ v))) with v. change (BNode_value (MkBNode ("B:" +:+ v'))) with v'. congruence.
Qed.

Lemma add_incident_lookup l l' t m :
  default [] (add_incident l t m !! l') = default [] (m !! l') ++ (if decide (l = l') then [t] else []).
Proof.
  unfold add_incident. rewrite lookup_insert. destruct (decide (l = l')) as [->|]; [done|]. by rewrite app_nil_r.
Qed.
Lemma add_incident_dom l l' t m : is_Some (add_incident l t m !! l') ↔ l = l' ∨ is_Some (m !! l').
Proof. unfold add_incident. rewrite lookup_insert_is_Some'. done. Qed.

Lemma incident_step_ok m t l : triple_wf t →
  default [] (incident_step m t !! l) = default [] (m !! l) ++ (if decide (touches l t) then [t] else []) ∧
  (is_Some (incident_step m t !! l) ↔ touches l t ∨ is_Some (m !! l)).
Proof.
  intros (Ws & _ & _ & Wo). assert (Ht : touches l t ↔ bnode_label (Subject t) = Some l ∨ bnode_label (Object t) = Some l) by done.
  unfold incident_step. destruct (bnode_label (Subject t)) as [ls|] eqn:Es, (bnode_label (Object t)) as [lo|] eqn:Eo.
  - case_bool_decide as Eq.
    + rewrite Eq in Es. assert (ls = lo) as -> by congruence. rewrite add_incident_lookup, add_incident_dom. split; [|naive_solver].
      destruct (decide (lo = l)); [rewrite decide_True by naive_solver|rewrite decide_False by naive_solver]; done.
    + assert (ls ≠ lo) by (intros ->; by apply Eq, (bnode_label_inj _ _ lo)).
      rewrite !add_incident_lookup, !add_incident_dom. split; [|naive_solver]. rewrite <- app_assoc. f_equal.
      destruct (decide (ls = l)), (decide (lo = l)); try congruence; [rewrite decide_True by naive_solver..|rewrite decide_False by naive_solver]; done.
  - rewrite add_incident_lookup, add_incident_dom. split; [|naive_solver].
    destruct (decide (ls = l)); [rewrite decide_True by naive_solver|rewrite decide_False by naive_solver]; done.
  - rewrite bool_decide_eq_false_2 by congruence. rewrite add_incident_lookup, add_incident_dom. split; [|naive_solver].
    destruct (decide (lo = l)); [rewrite decide_True by naive_solver|rewrite decide_False by naive_solver]; done.
  - rewrite decide_False by naive_solver. rewrite app_nil_r. split; [done|naive_solver].
Qed.

Lemma incident_of_ok ts l : Forall triple_wf ts →
  default [] (incident_of ts !! l) = filter (touches l) ts ∧ (is_Some (incident_of ts !! l) ↔ Exists (touches l) ts).
Proof.
  intros Hts. unfold incident_of. induction ts as [|t ts IH] using rev_ind.
  { cbn. rewrite lookup_empty. split; [done|]. rewrite Exists_nil, is_Some_alt. done. }
  apply Forall_app in Hts as [Hts [Ht _]%Forall_cons]. destruct (IH Hts) as [IH1 IH2]. rewrite foldl_app. cbn [foldl].
  destruct (incident_step_ok (foldl incident_step ∅ ts) t l Ht) as [E1 E2]. rewrite E1, E2, IH1, IH2, filter_app, Exists_app, Exists_cons, Exists_nil.
  split; [|naive_solver]. f_equal.
Qed.

Section labels.
Context `{GoRange}.

Lemma bnode_labels_elem ts l : Forall triple_wf ts → l ∈ bnode_labels ts ↔ Exists (touches l) ts.
Proof.
  intros Hts. unfold bnode_labels. rewrite Sort_perm, range_perm. destruct (incident_of_ok ts l Hts) as [_ <-]. rewrite list_elem_of_fmap. split.
  - intros ([k v] & -> & Hin%elem_of_map_to_list). by eexists.
  - intros [v Hv]. exists (l, v). split; [done|]. by apply elem_of_map_to_list.
Qed.

Lemma bnode_labels_NoDup ts : NoDup (bnode_labels ts).
Proof. unfold bnode_labels. rewrite Sort_perm, range_perm. apply NoDup_fst_map_to_list. Qed.
End labels.

(** ** Renaming *)

(** A term without blank nodes inside a triple term. *)
Fixpoint ground (t : Term) : bool :=
  match t with TBNode _ => false | TTripleTerm s _ o _ => ground s && ground o | _ => true end.
Definition flat (t : Term) : bool := match t with TBNode _ => true | _ => ground t end.
Definition flat_triple (t : Triple) : Prop := flat (Subject t) = true ∧ flat (Object t) = true.

(** Replacing the labels of the blank nodes of a flat term. *)
Definition rename (σ : string → string) (t : Term) : Term := match t with TBNode b => TBNode (MkBNode ("B:" +:+ σ (BNode_value b))) | _ => t end.
Definition rename_triple (σ : string → string) (t : Triple) : Triple := MkTriple (rename σ (Subject t)) (Predicate t) (rename σ (Object t)).

Section renaming.
Context `{GoRange}.
Context (σ : string → string) {σ_inj : Inj (=) (=) σ} (Hσ : ∀ l, l ≠ EmptyString → σ l ≠ EmptyString).
Context (ts ts' : list Triple) (Hts : Forall triple_wf ts) (Hts' : ts' ≡ₚ rename_triple σ <$> ts).

Lemma bnode_label_rename t : bnode_label (rename σ t) = σ <$> bnode_label t.
Proof. destruct t; try done. Qed.

Lemma rename_wf t : term_wf t → term_wf (rename σ t).
Proof using Hσ. destruct t as [|b| | |]; try done. intros (v & Hv & ->). cbn. exists (σ v). split; [by apply Hσ|done]. Qed.

Lemma renamed_wf : Forall triple_wf ts'.
Proof using Hσ Hts Hts'.
  rewrite Hts'. apply Forall_fmap. eapply Forall_impl; [exact Hts|]. intros t (H1 & H2 & H3 & H4).
  split; [by apply rename_wf|]. split; [unfold rename_triple; cbn [Subject]; by destruct (Subject t)|]. split; [done|by apply rename_wf].
Qed.

Lemma touches_rename l t : touches (σ l) (rename_triple σ t) ↔ touches l t.
Proof using σ_inj.
  unfold touches. cbn [rename_triple Subject Object]. rewrite !bnode_label_rename. destruct (bnode_label (Subject t)), (bnode_label (Object t)); cbn; naive_solver.
Qed.

Lemma touching_renamed l : filter (touches (σ l)) ts' ≡ₚ rename_triple σ <$> filter (touches l) ts.
Proof using σ_inj Hts'.
  rewrite Hts'. clear Hts' Hts. induction ts as [|t l0 IH]; [done|]. cbn [fmap list_fmap]. rewrite !filter_cons.
  destruct (decide (touches l t)) as [Ht|Ht].
  - rewrite decide_True by by apply touches_rename. cbn [fmap list_fmap]. by rewrite IH.
  - rewrite decide_False by by rewrite touches_rename. done.
Qed.

Lemma label_renamed l : Exists (touches l) ts' → ∃ l0, l = σ l0 ∧ Exists (touches l0) ts.
Proof using Hts'.
  intros (t' & Ht' & Hl)%Exists_exists. rewrite Hts' in Ht'. apply list_elem_of_fmap in Ht' as (t & -> & Ht).
  assert (Hx : ∃ l0, l = σ l0 ∧ touches l0 t); [|destruct Hx as (l0 & -> & Hl0); exists l0; split; [done|]; apply Exists_exists; by exists t].
  unfold touches in *. cbn [rename_triple Subject Object] in Hl. rewrite !bnode_label_rename in Hl.
  destruct (bnode_label (Subject t)) as [ls|], (bnode_label (Object t)) as [lo|]; cbn in Hl; naive_solver.
Qed.

Lemma labels_renamed : bnode_labels ts' ≡ₚ σ <$> bnode_labels ts.
Proof using Hσ σ_inj Hts Hts'.
  apply NoDup_Permutation; [apply bnode_labels_NoDup|apply NoDup_fmap; [done|apply bnode_labels_NoDup]|].
  intros l. rewrite list_elem_of_fmap. rewrite (bnode_labels_elem ts') by apply renamed_wf. setoid_rewrite (bnode_labels_elem ts); [|done]. split.
  - intros (l0 & -> & Hl)%label_renamed. by exists l0.
  - intros (l0 & -> & (t & Ht & Hl)%Exists_exists). apply Exists_exists. exists (rename_triple σ t). split; [|by apply touches_rename].
    rewrite Hts'. by apply list_elem_of_fmap_2.
Qed.

(** Signatures that agree on the renamed labels. *)
Definition agree (sig sig' : gmap string string) : Prop :=
  dom sig = list_to_set (bnode_labels ts) ∧ dom sig' = list_to_set (bnode_labels ts') ∧ ∀ l, l ∈ bnode_labels ts → sig' !! σ l = sig !! l.

Lemma next_sig_lookup incident labels sig l : NoDup labels → l ∈ labels → next_sig incident labels sig !! l = Some (sig_of sig incident l).
Proof.
  intros Hnd Hl. unfold next_sig. apply elem_of_list_to_map_1; [by rewrite <- list_fmap_compose, list_fmap_id|]. apply list_elem_of_fmap. by exists l.
Qed.

Lemma sig_of_renamed sig sig' l : agree sig sig' → l ∈ bnode_labels ts →
  sig_of sig' (incident_of ts') (σ l) = sig_of sig (incident_of ts) l.
Proof using Hσ σ_inj Hts Hts'.
  intros (_ & _ & Ha) Hl. unfold sig_of. do 4 f_equal. apply Sort_ext.
  destruct (incident_of_ok ts l Hts) as [-> _]. destruct (incident_of_ok ts' (σ l) renamed_wf) as [-> _].
  rewrite touching_renamed, <- list_fmap_compose. apply reflexive_eq, Forall_fmap_ext_1, Forall_forall. intros t [Htl Ht]%list_elem_of_filter.
  cbn [compose rename_triple Subject Object Predicate].
  assert (Hr : ∀ x, (∀ lx, bnode_label x = Some lx → touches lx t) → repr sig' (rename σ x) (σ l) = repr sig x l).
  { intros x Hx. unfold repr. rewrite bnode_label_rename. destruct (bnode_label x) as [lx|] eqn:Ex; cbn.
    - assert (Hlx : lx ∈ bnode_labels ts) by (apply bnode_labels_elem; [done|]; apply Exists_exists; exists t; split; [done|by apply Hx]).
      rewrite (Ha lx Hlx). destruct (String.eqb_spec (σ lx) (σ l)) as [E|E], (String.eqb_spec lx l) as [E'|E']; try done.
      + by apply (inj σ) in E.
      + by subst.
    - by destruct x. }
  rewrite !Hr; [done|..]; intros lx Hlx; [by right|by left].
Qed.

Lemma agree_next sig sig' : agree sig sig' → agree (next_sig (incident_of ts) (bnode_labels ts) sig) (next_sig (incident_of ts') (bnode_labels ts') sig').
Proof using Hσ σ_inj Hts Hts'.
  intros Ha. assert (Hdom : ∀ inc labels s, dom (next_sig inc labels s) = list_to_set labels).
  { intros inc labels s. unfold next_sig. rewrite dom_list_to_map_L, <- list_fmap_compose. by rewrite list_fmap_id. }
  split; [apply Hdom|]. split; [apply Hdom|]. intros l Hl. rewrite !next_sig_lookup; [|apply bnode_labels_NoDup|done|apply bnode_labels_NoDup|].
  - by rewrite (sig_of_renamed sig sig').
  - rewrite labels_renamed. by apply list_elem_of_fmap_2.
Qed.

Lemma agree_values sig sig' v : agree sig sig' → v ∈ (map_to_list sig).*2 ↔ v ∈ (map_to_list sig').*2.
Proof using Hσ σ_inj Hts Hts'.
  intros (Hd & Hd' & Ha). assert (Hv : ∀ s : gmap string string, v ∈ (map_to_list s).*2 ↔ ∃ l, s !! l = Some v).
  { intros s. rewrite list_elem_of_fmap. split; [intros ([l w] & -> & Hin%elem_of_map_to_list); by exists l|].
    intros [l Hl]. exists (l, v). split; [done|by apply elem_of_map_to_list]. }
  rewrite !Hv. split.
  - intros [l Hl]. exists (σ l). rewrite Ha; [done|]. assert (Hin : l ∈ dom sig) by (apply elem_of_dom; by eexists). rewrite Hd in Hin.
    by apply elem_of_list_to_set in Hin.
  - intros [l Hl]. assert (Hin : l ∈ dom sig') by (apply elem_of_dom; by eexists). rewrite Hd' in Hin.
    apply elem_of_list_to_set in Hin. rewrite labels_renamed in Hin. apply list_elem_of_fmap in Hin as (l0 & -> & Hl0). exists l0. by rewrite <- Ha.
Qed.

Lemma agree_count sig sig' : agree sig sig' → countDistinct sig = countDistinct sig'.
Proof using Hσ σ_inj Hts Hts'.
  intros Ha. unfold countDistinct. f_equal. apply set_eq. intros v. rewrite !elem_of_list_to_set. by apply agree_values.
Qed.

Lemma agree_refine n : ∀ classes sig sig', agree sig sig' →
  agree (refine_loop n (incident_of ts) (bnode_labels ts) classes sig) (refine_loop n (incident_of ts') (bnode_labels ts') classes sig').
Proof using Hσ σ_inj Hts Hts'.
  induction n as [|n IH]; intros classes sig sig' Ha; [done|]. cbn [refine_loop]. pose proof (agree_next sig sig' Ha) as Hn.
  rewrite <- (agree_count _ _ Hn). destruct (_ && _); [done|by apply IH].
Qed.

Lemma agree_signatures : agree (signatures ts) (signatures ts').
Proof using Hσ σ_inj Hts Hts'.
  apply agree_refine. assert (Hdom : ∀ labels : list string, dom (list_to_map ((λ l, (l, EmptyString)) <$> labels) : gmap string string) = list_to_set labels).
  { intros labels. rewrite dom_list_to_map_L, <- list_fmap_compose. by rewrite list_fmap_id. }
  assert (Hl0 : ∀ labels l, NoDup labels → l ∈ labels → (list_to_map ((λ l, (l, EmptyString)) <$> labels) : gmap string string) !! l = Some EmptyString).
  { intros labels l Hnd Hl. apply elem_of_list_to_map_1; [by rewrite <- list_fmap_compose, list_fmap_id|]. apply list_elem_of_fmap. by exists l. }
  split; [apply Hdom|]. split; [apply Hdom|]. intros l Hl. rewrite !Hl0; [done|apply bnode_labels_NoDup|done|apply bnode_labels_NoDup|].
  rewrite labels_renamed. by apply list_elem_of_fmap_2.
Qed.
End renaming.

(** ** Suffixes *)

Definition suffixed (s : string) (k : Z) : string := if (k =? 0)%Z then s else s +:+ "-" +:+ FormatInt k.

Lemma suffixed_inj s s' k k' : has_byte "-" s = false → has_byte "-" s' = false → suffixed s k = suffixed s' k' → s = s' ∧ k = k'.
Proof.
  intros Hs Hs'. assert (Hno : ∀ a b c, has_byte "-" a = false → a = b +:+ "-" +:+ c → False).
  { intros a b c Ha ->. rewrite !has_byte_app in Ha. cbn in Ha. by rewrite orb_true_r in Ha. }
  unfold suffixed. destruct (Z.eqb_spec k 0) as [->|Hk], (Z.eqb_spec k' 0) as [->|Hk']; intros E.
  - done.
  - by destruct (Hno _ _ _ Hs E).
  - by destruct (Hno _ _ _ Hs' (eq_sym E)).
  - pose proof (CutByte_app s "-" (FormatInt k) Hs) as E1. change (String "-" (FormatInt k)) with ("-" +:+ FormatInt k) in E1.
    rewrite E in E1. change ("-" +:+ FormatInt k') with (String "-" (FormatInt k')) in E1. rewrite CutByte_app in E1 by done.
    injection E1 as -> E1. by apply FormatInt_inj in E1.
Qed.

Section suffixes.
Context (sig : gmap string string).
Definition sg (l : string) : string := default EmptyString (sig !! l).

(** What the loop over the labels has done. *)
Definition suffix_inv (dn : list string) (acc : gmap string string * gmap string Z) : Prop :=
  (∀ l, is_Some (acc.1 !! l) ↔ l ∈ dn) ∧ (∀ s, (0 ≤ default 0 (acc.2 !! s))%Z) ∧
  ∃ K : string → Z,
    (∀ l, l ∈ dn → acc.1 !! l = Some (suffixed (sg l) (K l)) ∧ (0 ≤ K l < default 0 (acc.2 !! sg l))%Z) ∧
    (∀ l l', l ∈ dn → l' ∈ dn → sg l = sg l' → K l = K l' → l = l').

Lemma suffix_step_ok dn acc l : suffix_inv dn acc → l ∉ dn → suffix_inv (dn ++ [l]) (suffix_step sig acc l).
Proof.
  destruct acc as [byLabel seen]. intros (Hd & Hpos & K & HK & Hinj) Hl. cbn [fst snd] in *. unfold suffix_step. fold (sg l).
  set (s := sg l). set (k := default 0%Z (seen !! s)). split; [|split].
  - intros l'. cbn [fst]. rewrite lookup_insert_is_Some', Hd, elem_of_app, list_elem_of_singleton. naive_solver.
  - intros s'. cbn [snd]. rewrite lookup_insert. destruct (decide (s = s')) as [<-|]; cbn; [|apply Hpos]. pose proof (Hpos s). unfold k. lia.
  - exists (λ l', if decide (l' = l) then k else K l').
    assert (Hk : (0 ≤ k)%Z) by apply Hpos. split.
    + intros l' Hl'. cbn [fst snd]. destruct (decide (l' = l)) as [->|Hne].
      * rewrite lookup_insert_eq. split; [done|]. fold s. rewrite lookup_insert_eq. cbn. lia.
      * assert (Hin : l' ∈ dn) by (apply elem_of_app in Hl' as [?|?%list_elem_of_singleton]; done). destruct (HK l' Hin) as [H1 H2].
        rewrite lookup_insert_ne by done. split; [done|]. rewrite lookup_insert. destruct (decide (s = sg l')) as [E|]; [|done]. cbn.
        unfold k. rewrite E. lia.
    + intros l1 l2 H1 H2 Es. cbn beta. destruct (decide (l1 = l)) as [->|Hn1], (decide (l2 = l)) as [->|Hn2]; [done| | |].
      * assert (Hin : l2 ∈ dn) by (apply elem_of_app in H2 as [?|?%list_elem_of_singleton]; done). destruct (HK l2 Hin) as [_ Hb].
        intros Ek. fold s in Es. unfold k in Ek. rewrite Es in Ek. lia.
      * assert (Hin : l1 ∈ dn) by (apply elem_of_app in H1 as [?|?%list_elem_of_singleton]; done). destruct (HK l1 Hin) as [_ Hb].
        intros Ek. fold s in Es. unfold k in Ek. rewrite <- Es in Ek. lia.
      * apply elem_of_app in H1 as [H1|?%list_elem_of_singleton]; [|done]. apply elem_of_app in H2 as [H2|?%list_elem_of_singleton]; [|done].
        by apply Hinj.
Qed.

Lemma suffix_fold_ok labels : ∀ dn acc, suffix_inv dn acc → NoDup (dn ++ labels) → suffix_inv (dn ++ labels) (foldl (suffix_step sig) acc labels).
Proof.
  induction labels as [|l labels IH]; intros dn acc Ha Hnd; [by rewrite app_nil_r|]. cbn [foldl].
  replace (dn ++ l :: labels) with ((dn ++ [l]) ++ labels) in * by (by rewrite <- app_assoc). apply IH; [|done].
  apply suffix_step_ok; [done|]. apply NoDup_app in Hnd as (Hnd & _ & _). apply NoDup_app in Hnd as (_ & Hnd & _). intros Hl.
  apply (Hnd l Hl). by apply list_elem_of_singleton.
Qed.

Lemma suffix_start : suffix_inv [] (∅, ∅).
Proof.
  split; [intros l; cbn [fst]; rewrite lookup_empty, elem_of_nil, is_Some_alt; done|].
  split; [intros s; cbn [snd]; by rewrite lookup_empty|].
  exists (λ _, 0%Z). split; [by intros l ?%elem_of_nil|by intros l l' ?%elem_of_nil].
Qed.

(** Distinct labels get distinct ids. *)
Lemma suffix_ids labels : NoDup labels → (∀ l, l ∈ labels → has_byte "-" (sg l) = false) →
  let ids := (foldl (suffix_step sig) (∅, ∅) labels).1 in
  (∀ l, is_Some (ids !! l) ↔ l ∈ labels) ∧ ∀ l l' x, ids !! l = Some x → ids !! l' = Some x → l = l'.
Proof.
  intros Hnd Hh ids. destruct (suffix_fold_ok labels [] (∅, ∅) suffix_start Hnd) as (Hd & _ & K & HK & Hinj). cbn [app] in *. split; [exact Hd|].
  intros l l' x H1 H2. assert (Hl : l ∈ labels) by (apply Hd; by eexists). assert (Hl' : l' ∈ labels) by (apply Hd; by eexists).
  destruct (HK l Hl) as [E1 _], (HK l' Hl') as [E2 _]. unfold ids in *. rewrite H1 in E1. rewrite H2 in E2. injection E1 as E1. injection E2 as E2.
  rewrite E1 in E2. apply suffixed_inj in E2 as [Es Ek]; [|by apply Hh..]. by apply Hinj.
Qed.

(** Labels with signatures of their own get them for ids. *)
Lemma suffix_unique labels : NoDup labels → (∀ l l', l ∈ labels → l' ∈ labels → sg l = sg l' → l = l') →
  ∀ l, l ∈ labels → (foldl (suffix_step sig) (∅, ∅) labels).1 !! l = Some (sg l).
Proof.
  intros Hnd Hu l Hl.
  assert (Hgo : ∀ rest dn acc, dn ++ rest = labels → (∀ s, is_Some (acc.2 !! s) → ∃ l0, l0 ∈ dn ∧ sg l0 = s) →
    (∀ l0, l0 ∈ dn → acc.1 !! l0 = Some (sg l0)) → ∀ l0, l0 ∈ dn ++ rest → (foldl (suffix_step sig) acc rest).1 !! l0 = Some (sg l0)).
  { induction rest as [|l1 rest IH]; intros dn [byLabel seen] Hlabels Hseen Hby l0 Hl0; cbn [fst snd] in *.
    { rewrite app_nil_r in Hl0. by apply Hby. }
    cbn [foldl]. replace (dn ++ l1 :: rest) with ((dn ++ [l1]) ++ rest) in * by (by rewrite <- app_assoc).
    assert (Hl1 : l1 ∉ dn).
    { subst labels. apply NoDup_app in Hnd as (Hnd & _ & _). apply NoDup_app in Hnd as (_ & Hnd & _). intros Hin. apply (Hnd l1 Hin). by apply list_elem_of_singleton. }
    assert (Hnone : seen !! sg l1 = None).
    { destruct (seen !! sg l1) eqn:E; [|done]. destruct (Hseen (sg l1)) as (l2 & Hl2 & Es); [by eexists|]. exfalso. apply Hl1.
      rewrite <- (Hu l2 l1); [done|..|done]; subst labels; rewrite !elem_of_app, ?list_elem_of_singleton; naive_solver. }
    apply (IH (dn ++ [l1])); [done| |intros l2 Hl2|done]; unfold suffix_step; cbn [fst snd]; fold (sg l1).
    - intros s. rewrite lookup_insert_is_Some'. intros [<-|Hs]; [exists l1|destruct (Hseen s Hs) as (l2 & Hl2 & Es); exists l2].
      + split; [|done]. apply elem_of_app. right. by apply list_elem_of_singleton.
      + split; [|done]. apply elem_of_app. by left.
    - rewrite Hnone. cbn. rewrite lookup_insert. destruct (decide (l1 = l2)) as [<-|Hne]; [done|]. apply Hby.
      by apply elem_of_app in Hl2 as [?|?%list_elem_of_singleton]; [|subst]. }
  apply (Hgo labels [] (∅, ∅)); [done|intros s; cbn [snd]; rewrite lookup_empty, is_Some_alt; done|by intros l0 ?%elem_of_nil|done].
Qed.
End suffixes.

(** ** Signatures and ids of a graph *)

Section ids.
Context `{GoRange}.
Implicit Types (ts : list Triple).

Lemma signatures_next ts : ∃ sig, signatures ts = next_sig (incident_of ts) (bnode_labels ts) sig.
Proof.
  assert (Hgo : ∀ n c sig inc labels, ∃ sig', refine_loop (S n) inc labels c sig = next_sig inc labels sig').
  { induction n as [|n IH]; intros c sig inc labels; cbn [refine_loop] in *; [destruct (_ && _); by eexists|].
    destruct (_ && _); [by eexists|]. apply IH. }
  unfold signatures. cbv zeta. assert (E : skolemRounds = S 15) by done. rewrite E.
  exact (Hgo 15 1 _ (incident_of ts) (bnode_labels ts)).
Qed.

Lemma hex_bytes_take n s : has_byte "-" (hex_bytes (take n (Sum256 s))) = false.
Proof. apply hex_bytes_hyphen, Forall_take, Sum256_bytes. Qed.

Lemma stable_ids_ok ts : Forall triple_wf ts →
  (∀ l, is_Some (stableBNodeIDs ts !! l) ↔ Exists (touches l) ts) ∧
  ∀ l l' x, stableBNodeIDs ts !! l = Some x → stableBNodeIDs ts !! l' = Some x → l = l'.
Proof.
  intros Hts. destruct (signatures_next ts) as [sig Hsig].
  destruct (suffix_ids (signatures ts) (bnode_labels ts) (bnode_labels_NoDup ts)) as [H1 H2].
  - intros l Hl. unfold sg. rewrite Hsig, next_sig_lookup by (try apply bnode_labels_NoDup; done). cbn [from_option id]. apply hex_bytes_take.
  - split; [|exact H2]. intros l. rewrite <- bnode_labels_elem by done. apply H1.
Qed.

(** No two blank nodes have the same surroundings, as far as the refinement sees. *)
Definition discrete ts : Prop := ∀ l l', l ∈ bnode_labels ts → l' ∈ bnode_labels ts → sg (signatures ts) l = sg (signatures ts) l' → l = l'.

(** The ids of a discrete graph follow a renaming of its labels. *)
Lemma stable_ids_renamed (σ : string → string) `{!Inj (=) (=) σ} ts ts' : (∀ l, l ≠ EmptyString → σ l ≠ EmptyString) →
  Forall triple_wf ts → ts' ≡ₚ rename_triple σ <$> ts → discrete ts →
  ∀ l, Exists (touches l) ts → stableBNodeIDs ts' !! σ l = stableBNodeIDs ts !! l.
Proof.
  intros Hσ Hts Hts' Hdis l Hl. apply bnode_labels_elem in Hl; [|done].
  destruct (agree_signatures σ Hσ ts ts' Hts Hts') as (_ & _ & Ha).
  assert (Hsg : ∀ l, l ∈ bnode_labels ts → sg (signatures ts') (σ l) = sg (signatures ts) l) by (intros l0 Hl0; unfold sg; by rewrite Ha).
  pose proof (labels_renamed σ Hσ ts ts' Hts Hts') as Hlab. unfold stableBNodeIDs.
  rewrite (suffix_unique (signatures ts) (bnode_labels ts) (bnode_labels_NoDup ts) Hdis l Hl), <- (Hsg l Hl).
  apply (suffix_unique (signatures ts') (bnode_labels ts') (bnode_labels_NoDup ts')).
  - intros l1 l2. rewrite Hlab. intros (k1 & -> & H1)%list_elem_of_fmap (k2 & -> & H2)%list_elem_of_fmap. rewrite (Hsg k1 H1), (Hsg k2 H2). intros E. f_equal. by apply Hdis.
  - rewrite Hlab. by apply list_elem_of_fmap_2.
Qed.
End ids.
