(* ===== verification/Dataset.v ===== *)
(** * Conjunctive graphs and datasets

    [graph/conjunctive.go] and [graph/dataset.go]: many named graphs over one
    store, read as their union, and the registry of graphs of a dataset.  The
    theorems hold over every store that keeps the contract. *)

From S2P Require Import Prelude GoStrings Term TermKey TripleIndex Store MemoryStore Graph.
From stdpp Require Import options.

(** ** The code *)

Record ConjunctiveGraph := MkConjunctive { defaultContext : Graph_ }.

(** [NewConjunctiveGraph] over the default, a new memory store. *)
Definition NewConjunctiveGraph `{GoRange} (opts : option Term) : ConjunctiveGraph * MemoryStore :=
  (MkConjunctive (MkGraph (default_identifier opts) EmptyString), NewGraph).

Definition GetContext (cg : ConjunctiveGraph) (id : option Term) : Graph_ :=
  match id with
  | None => defaultContext cg
  | Some _ => MkGraph id EmptyString
  end.

(** The sequence up to and with its first error. *)
Fixpoint until_error {A} (l : list (result A)) : list (result A) :=
  match l with
  | [] => []
  | Err e :: _ => [Err e]
  | Ok a :: l => Ok a :: until_error l
  end.

(** Every value of a sequence, or its first error. *)
Fixpoint all_ok {A} (l : list (result A)) : result (list A) :=
  match l with
  | [] => Ok []
  | Err e :: _ => Err e
  | Ok a :: l => l ← all_ok l; Ok (a :: l)
  end.

Definition joined_key (t : Triple) : string :=
  TermKey (Subject t) +:+ str1 nul +:+ TermKey (predicateOf t) +:+ str1 nul +:+ TermKey (Object t).

Definition as_subject (t : option Term) : option Term :=
  match t with Some t => if isSubject t then Some t else None | None => None end.

Section conjunctive.
Context {St : Type} `{Store St}.
Implicit Types (cg : ConjunctiveGraph) (ctx : Context) (st : St).

Definition cg_Add ctx cg (s : Term) (p : URIRef) (o : Term) (graph : option Term) st : result unit * St :=
  Add ctx (MkTriple s p o) (match graph with None => identifier (defaultContext cg) | Some _ => graph end) st.

Definition cg_AddQuad ctx cg (q : Quad) st : result unit * St :=
  Add ctx (quad_Triple q) (match Term.Graph q with None => identifier (defaultContext cg) | g => g end) st.

(** The default graph, as nil, and then the named graphs. *)
Definition allContexts ctx st : result (list (option Term)) :=
  graphs ← all_ok (Contexts ctx None st);
  Ok (None :: (Some <$> graphs)).

Fixpoint remove_all ctx (pat : TriplePattern) (graphs : list (option Term)) st : result unit * St :=
  match graphs with
  | [] => (Ok tt, st)
  | c :: graphs => match Remove ctx pat c st with
                   | (Err e, st) => (Err e, st)
                   | (Ok _, st) => remove_all ctx pat graphs st
                   end
  end.

Definition cg_Remove ctx (s : option Term) (p : option URIRef) (o graph : option Term) st : result unit * St :=
  let pat := MkPattern s p o in
  match graph with
  | Some _ => Remove ctx pat graph st
  | None => match allContexts ctx st with
            | Err e => (Err e, st)
            | Ok graphs => remove_all ctx pat graphs st
            end
  end.

(** The loop over the graphs is a deduplicated pass over their triples. *)
Definition cg_Triples ctx (s : option Term) (p : option URIRef) (o : option Term) st : TripleIterator :=
  let pat := MkPattern s p o in
  match allContexts ctx st with
  | Err e => [Err e]
  | Ok graphs =>
      if length graphs =? 1 then Triples ctx pat None st
      else distinct (concat ((λ c, Triples ctx pat c st) <$> graphs)) joined_key id
  end.

Definition cg_Quads ctx cg (s : option Term) (p : option URIRef) (o : option Term) st : list (result Quad) :=
  let pat := MkPattern s p o in
  match allContexts ctx st with
  | Err e => [Err e]
  | Ok graphs =>
      let defaultID := as_subject (identifier (defaultContext cg)) in
      until_error (concat ((λ c,
        let graphID := match c with None => defaultID | Some _ => as_subject c end in
        (λ r : result Triple, (λ t, MkQuad t graphID) <$> r) <$> Triples ctx pat c st) <$> graphs))
  end.

Definition cg_Contexts ctx (triple : option Triple) st : TermIterator := Contexts ctx triple st.

Definition cg_Len ctx st : result Z :=
  graphs ← allContexts ctx st;
  if length graphs =? 1 then Len ctx None st
  else l ← all_ok (cg_Triples ctx None None None st); Ok (Z.of_nat (length l)).

Definition cg_Bind ctx (prefix : string) (ns : URIRef) st : result unit * St := Bind ctx prefix ns st.
Definition cg_Namespaces ctx st : NamespaceIterator := Namespaces ctx st.
End conjunctive.

(** The lock makes each method one atomic step on the registry [graphs]. *)
Record Dataset := MkDs { ds_cg : ConjunctiveGraph; graphs : gmap string Graph_ }.

Definition NewDataset `{GoRange} (opts : option Term) : Dataset * MemoryStore :=
  let '(cg, st) := NewConjunctiveGraph opts in
  (MkDs cg {[OptTermKey (identifier (defaultContext cg)) := defaultContext cg]}, st).

(** [Dataset.Graph]: the graph registered under the key, or a new one. *)
Definition ds_Graph (id : option Term) (d : Dataset) : Graph_ * Dataset :=
  match id with
  | None => (defaultContext (ds_cg d), d)
  | Some t =>
      match graphs d !! TermKey t with
      | Some g => (g, d)
      | None => let g := MkGraph id EmptyString in (g, MkDs (ds_cg d) (<[TermKey t := g]> (graphs d)))
      end
  end.

Definition AddGraph (g : Graph_) (d : Dataset) : Dataset :=
  MkDs (ds_cg d) (<[OptTermKey (identifier g) := g]> (graphs d)).

Definition RemoveGraph {St} `{Store St} (ctx : Context) (id : option Term) (d : Dataset) (st : St)
    : result unit * Dataset * St :=
  match id with
  | None => (Ok tt, d, st)
  | Some t =>
      let k := TermKey t in
      if String.eqb k (OptTermKey (identifier (defaultContext (ds_cg d)))) then (Ok tt, d, st)
      else match graphs d !! k with
           | None => (Ok tt, d, st)
           | Some g =>
               match Remove ctx (MkPattern None None None) (identifier g) st with
               | (Err e, st) => (Err e, d, st)
               | (Ok _, st) => (Ok tt, MkDs (ds_cg d) (delete k (graphs d)), st)
               end
           end
  end.

Definition Graphs `{GoRange} (d : Dataset) : list Graph_ := (range (graphs d)).*2.

(** ** The union of the graphs *)

Lemma all_ok_fmap {A} (l : list A) : all_ok (Ok <$> l) = Ok l.
Proof. induction l as [|a l IH]; [done|]. rewrite fmap_cons. cbn [all_ok]. by rewrite IH. Qed.

Lemma until_error_fmap {A} (l : list A) : until_error (Ok <$> l) = Ok <$> l.
Proof. induction l as [|a l IH]; [done|]. rewrite fmap_cons. cbn [until_error]. by rewrite IH. Qed.

Lemma concat_ok {A B} (f : A → list (result B)) (g : A → list B) l :
  (∀ a, a ∈ l → f a = Ok <$> g a) → concat (f <$> l) = Ok <$> concat (g <$> l).
Proof.
  induction l as [|a l IH]; intros Hf; [done|]. rewrite !fmap_cons. cbn [concat]. rewrite fmap_app.
  rewrite Hf, IH by set_solver. done.
Qed.

Section reading_all.
Context {St : Type} `{StoreLaws St}.
Implicit Types (st : St).

(** The contexts visited are the default graph and every non-empty named graph. *)
Lemma allContexts_ok st :
  sinv st → ∃ gs, allContexts None st = Ok gs ∧ head gs = Some None ∧
    NoDup (graph_key <$> gs) ∧
    ∀ g, ds_graph (sabs st) g ≠ ∅ ∨ graph_key g = None → graph_key g ∈ graph_key <$> gs.
Proof.
  intros Hs. unfold allContexts. destruct (contexts_ok st None Hs) as (l & -> & Hl). rewrite all_ok_fmap.
  exists (None :: (Some <$> l)). cbn [mbind result_bind head]. split_and!; [done|done| |].
  - assert (Hk : graph_key <$> (Some <$> l) ≡ₚ Some <$> (map_to_list (ds_named (sabs st))).*1).
    { rewrite Hl. unfold ds_names. cbn [contains]. rewrite filter_all by done. rewrite <- !list_fmap_compose.
      apply reflexive_eq, list_fmap_ext. intros i [k [t m]] Hi. cbn. apply list_elem_of_lookup_2, elem_of_map_to_list in Hi.
      by destruct (names_keyed st k t m Hs Hi). }
    rewrite fmap_cons, Hk. apply NoDup_cons. split; [|apply NoDup_fmap_2; [apply _|apply NoDup_fst_map_to_list]].
    intros (k & He & _)%list_elem_of_fmap. unfold graph_key in He. by vm_compute in He.
  - intros g Hg. destruct (graph_key g) as [k|] eqn:E; [|rewrite fmap_cons; apply elem_of_cons; by left].
    destruct Hg as [Hg|]; [|done]. unfold ds_graph in Hg. rewrite E in Hg.
    destruct (ds_named (sabs st) !! k) as [[t m]|] eqn:Ek; [|done].
    destruct (names_keyed st k t m Hs Ek) as [Ht _]. rewrite <- Ht. apply list_elem_of_fmap_2. right.
    apply list_elem_of_fmap_2. rewrite Hl. unfold ds_names. cbn [contains]. rewrite filter_all by done.
    apply list_elem_of_fmap. exists (k, (t, m)). split; [done|]. by apply elem_of_map_to_list.
Qed.

(** What every graph contributes to a read of them all. *)
Lemma graph_reads st pat c :
  sinv st → Triples None pat c st = Ok <$> oks (Triples None pat c st) ∧
    oks (Triples None pat c st) ≡ₚ graph_triples (matching pat (ds_graph (sabs st) c)).
Proof. intros Hs. destruct (triples_ok st pat c Hs) as (l & -> & _ & Hl). by rewrite oks_fmap. Qed.

Lemma graph_key_same st g g' : graph_key g = graph_key g' → ds_graph (sabs st) g = ds_graph (sabs st) g'.
Proof. unfold ds_graph. by intros ->. Qed.

Lemma keys_of_graph (m : gmap tkey_t Triple) k : keyed m → k ∈ tkey <$> graph_triples m ↔ is_Some (m !! k).
Proof.
  intros Hk. rewrite list_elem_of_fmap. split.
  - intros (t & -> & Ht%graph_triples_elem); [by eexists|done].
  - intros [t Ht]. pose proof (Hk _ _ Ht) as <-. exists t. split; [done|]. by apply graph_triples_elem.
Qed.

(** The triples read from every context are those of the graphs. *)
Lemma concat_reads st pat gs :
  sinv st → allContexts None st = Ok gs →
  concat ((λ c, Triples None pat c st) <$> gs) = Ok <$> concat ((λ c, oks (Triples None pat c st)) <$> gs) ∧
  ∀ t, t ∈ concat ((λ c, oks (Triples None pat c st)) <$> gs) ↔
    ∃ g, t ∈ graph_triples (matching pat (ds_graph (sabs st) g)).
Proof.
  intros Hs Hgs. destruct (allContexts_ok st Hs) as (gs' & Hgs' & _ & _ & Hall). rewrite Hgs in Hgs'. injection Hgs' as <-. split.
  - apply concat_ok. intros c _. by apply graph_reads.
  - intros t. rewrite list_elem_of_In, in_concat. setoid_rewrite <- list_elem_of_In. split.
    + intros (l & (c & -> & _)%list_elem_of_fmap & Ht). exists c. by rewrite <- (proj2 (graph_reads st pat c Hs)).
    + intros [g Hg].
      assert (Hin : graph_key g ∈ graph_key <$> gs).
      { apply Hall. left. intros He. rewrite He, matching_empty in Hg. by apply elem_of_nil in Hg. }
      apply list_elem_of_fmap in Hin as (c & Hc & Hin). exists (oks (Triples None pat c st)). split.
      * apply list_elem_of_fmap. by exists c.
      * rewrite (proj2 (graph_reads st pat c Hs)). by rewrite <- (graph_key_same st g c Hc).
Qed.

(** The separator of the joined key does not occur in subjects or predicates. *)
Definition nul_free (t : Triple) : Prop :=
  has_byte nul (TermKey (Subject t)) = false ∧ has_byte nul (TermKey (predicateOf t)) = false.
Definition all_nul_free (d : dataset) : Prop := ∀ g t, t ∈ graph_triples (ds_graph d g) → nul_free t.

Lemma separated_inj c a b a' b' :
  has_byte c a = false → has_byte c a' = false → a +:+ String c b = a' +:+ String c b' → a = a' ∧ b = b'.
Proof.
  intros Ha Ha' He. pose proof (CutByte_app a c b Ha) as E. rewrite He, CutByte_app in E by done. by injection E.
Qed.

Lemma joined_key_tkey t u : nul_free t → nul_free u → joined_key t = joined_key u ↔ tkey t = tkey u.
Proof.
  intros [Ht1 Ht2] [Hu1 Hu2]. unfold joined_key, tkey. cbn [keyAt]. fold (predicateOf t) (predicateOf u). split.
  - intros He. apply separated_inj in He as [-> He]; [|done..]. apply separated_inj in He as [-> He]; [|done..].
    by rewrite He.
  - intros He. injection He as E1 E2 E3. unfold predicateOf. cbn [TermKey]. by rewrite E1, E2, E3.
Qed.

Lemma matching_nul_free d pat g t : all_nul_free d → t ∈ graph_triples (matching pat (ds_graph d g)) → keyed (ds_graph d g) → nul_free t.
Proof. intros Hn Ht Hk. apply matching_elem in Ht as [Ht _]; [by eapply Hn|done]. Qed.

(** Reading the union of the graphs. *)
Lemma cg_triples_ok st s p o :
  sinv st → all_nul_free (sabs st) →
  ∃ l, cg_Triples None s p o st = Ok <$> l ∧ NoDup (tkey <$> l) ∧
    (∀ t, t ∈ l → ∃ g, t ∈ graph_triples (matching (MkPattern s p o) (ds_graph (sabs st) g))) ∧
    ∀ k, k ∈ tkey <$> l ↔ ∃ g, is_Some (matching (MkPattern s p o) (ds_graph (sabs st) g) !! k).
Proof.
  intros Hs Hn. set (pat := MkPattern s p o).
  assert (Hmk : ∀ g, keyed (matching pat (ds_graph (sabs st) g))) by (intros; by apply matching_keyed, graphs_keyed).
  destruct (allContexts_ok st Hs) as (gs & Hgs & Hhd & _ & Hall). unfold cg_Triples. rewrite Hgs. fold pat.
  destruct (concat_reads st pat gs Hs Hgs) as [Hc Hin]. destruct (length gs =? 1) eqn:Hlen.
  - apply Nat.eqb_eq in Hlen. destruct gs as [|c [|]]; [done| |done]. injection Hhd as ->.
    destruct (triples_ok st pat None Hs) as (l & Hl & Hnd & Hp). exists l.
    assert (Honly : ∀ g k, is_Some (matching pat (ds_graph (sabs st) g) !! k) → graph_key g = None).
    { intros g k [t Ht]. apply map_lookup_filter_Some in Ht as [Ht _].
      assert (Hg : ds_graph (sabs st) g ≠ ∅) by (intros He; by rewrite He in Ht).
      specialize (Hall g (or_introl Hg)). by apply list_elem_of_singleton in Hall. }
    split_and!; [done| | |].
    + rewrite Hp. unfold graph_triples. rewrite <- list_fmap_compose.
      rewrite (Forall_fmap_ext_1 _ fst); [apply NoDup_fst_map_to_list|].
      apply Forall_forall. intros [k t] Ht%elem_of_map_to_list. by apply (Hmk None k t).
    + intros t Ht. exists None. by rewrite <- Hp.
    + intros k. rewrite Hp, keys_of_graph by apply Hmk. split; [by exists None|]. intros [g Hg].
      by rewrite (graph_key_same st None g) by (rewrite (Honly g k Hg); done).
  - rewrite Hc. destruct (distinct_ok (concat ((λ c, oks (Triples None pat c st)) <$> gs)) joined_key (id (A := Triple)))
      as (l & -> & Hnd & Hsub & Hk). exists l. rewrite list_fmap_id.
    assert (Hl : ∀ t, t ∈ l → ∃ g, t ∈ graph_triples (matching pat (ds_graph (sabs st) g))) by (intros t Ht; by apply Hin, Hsub).
    assert (Hnf : ∀ t g, t ∈ graph_triples (matching pat (ds_graph (sabs st) g)) → nul_free t).
    { intros t g Ht. eapply matching_nul_free; [done|exact Ht|]. by apply graphs_keyed. }
    split_and!; [done| |done|].
    + apply (NoDup_fmap_finer joined_key); [done|]. intros t u Ht Hu He.
      destruct (Hl t Ht) as [g Hg], (Hl u Hu) as [g' Hg']. apply joined_key_tkey; eauto.
    + intros k. split.
      * intros (t & -> & Ht)%list_elem_of_fmap. destruct (Hl t Ht) as [g Hg]. exists g.
        apply keys_of_graph; [apply Hmk|]. by apply list_elem_of_fmap_2.
      * intros [g Hg]. apply keys_of_graph in Hg; [|apply Hmk]. apply list_elem_of_fmap in Hg as (t & -> & Ht).
        assert (Hj : joined_key t ∈ joined_key <$> l).
        { apply Hk, list_elem_of_fmap_2, Hin. by exists g. }
        apply list_elem_of_fmap in Hj as (u & He & Hu). destruct (Hl u Hu) as [g' Hg'].
        apply joined_key_tkey in He; [|by eapply Hnf|by eapply Hnf]. rewrite He. by apply list_elem_of_fmap_2.
Qed.

(** [Len] counts what [Triples] yields. *)
Lemma cg_len_ok st : sinv st → all_nul_free (sabs st) →
  ∃ l, cg_Triples None None None None st = Ok <$> l ∧ cg_Len None st = Ok (Z.of_nat (length l)).
Proof.
  intros Hs Hn. destruct (allContexts_ok st Hs) as (gs & Hgs & _). destruct (cg_triples_ok st None None None Hs Hn) as (l & Hl & _).
  exists l. split; [done|]. unfold cg_Len. rewrite Hgs. cbn [mbind result_bind].
  destruct (length gs =? 1) eqn:E; [|by rewrite Hl, all_ok_fmap].
  unfold cg_Triples in Hl. rewrite Hgs, E in Hl. destruct (triples_ok st (MkPattern None None None) None Hs) as (l' & Hl' & _ & Hp).
  rewrite Hl' in Hl. assert (l' = l) as -> by (rewrite <- (oks_fmap l'), <- (oks_fmap l); congruence).
  rewrite (len_ok st None Hs). rewrite matching_all in Hp. do 2 f_equal. rewrite Hp. unfold graph_triples.
  by rewrite length_fmap, length_map_to_list.
Qed.

(** C30: reading a conjunctive graph whose terms hold no zero byte (the separator of
    the joined keys) reads the union of its graphs: [Triples]
    yields, without an error, exactly the matching triples of the default graph and
    of every named graph, each once, and [Len] counts them. *)
Theorem conjunctive_graph_is_the_union st s p o :
  sinv st → all_nul_free (sabs st) →
  (∃ l, cg_Triples None s p o st = Ok <$> l ∧ NoDup (tkey <$> l) ∧
    (∀ t, t ∈ l → ∃ g, t ∈ graph_triples (matching (MkPattern s p o) (ds_graph (sabs st) g))) ∧
    ∀ k, k ∈ tkey <$> l ↔ ∃ g, is_Some (matching (MkPattern s p o) (ds_graph (sabs st) g) !! k)) ∧
  ∃ l, cg_Triples None None None None st = Ok <$> l ∧ cg_Len None st = Ok (Z.of_nat (length l)).
Proof. intros Hs Hn. split; [by apply cg_triples_ok|by apply cg_len_ok]. Qed.

Lemma not_matching_idemp pat m : not_matching pat (not_matching pat m) = not_matching pat m.
Proof. unfold not_matching. rewrite map_filter_filter. apply map_filter_ext. naive_solver. Qed.

Lemma remove_all_ok pat gs st :
  sinv st → ∃ st', remove_all None pat gs st = (Ok tt, st') ∧ sinv st' ∧
    ∀ g, ds_graph (sabs st') g =
      if decide (graph_key g ∈ graph_key <$> gs) then not_matching pat (ds_graph (sabs st) g) else ds_graph (sabs st) g.
Proof.
  revert st. induction gs as [|c gs IH]; intros st Hs; cbn [remove_all].
  { exists st. split_and!; [done|done|]. intros g. rewrite decide_False; [done|]. apply not_elem_of_nil. }
  destruct (step_ok st (DsRemove pat c) Hs) as (st1 & Hr & Hs1 & Ha). cbn [store_step] in Hr. rewrite Hr.
  destruct (IH st1 Hs1) as (st' & -> & Hs' & Hg). exists st'. split_and!; [done|done|]. intros g. rewrite Hg, Ha. cbn [ds_step].
  destruct (decide (graph_key g = graph_key c)) as [E|E].
  - assert (Hsame : ds_graph (ds_update (sabs st) c (not_matching pat (ds_graph (sabs st) c))) g = not_matching pat (ds_graph (sabs st) g)).
    { unfold ds_graph at 1 3. rewrite E. exact (ds_update_same (sabs st) c _). }
    rewrite (decide_True (P := graph_key g ∈ graph_key <$> c :: gs)) by (rewrite fmap_cons, E; set_solver).
    rewrite Hsame. destruct (decide _); [|done]. apply not_matching_idemp.
  - rewrite ds_update_other by done.
    destruct (decide (graph_key g ∈ graph_key <$> gs)) as [Hin|Hin].
    + by rewrite decide_True by (rewrite fmap_cons; set_solver).
    + rewrite decide_False; [done|]. rewrite fmap_cons. set_solver.
Qed.

(** C31: [ConjunctiveGraph.Remove] without a graph removes the matching triples, and
    nothing else, from the default graph and from every named graph. *)
Theorem conjunctive_remove_reaches_every_graph st s p o :
  sinv st → ∃ st', cg_Remove None s p o None st = (Ok tt, st') ∧ sinv st' ∧
    ∀ g, ds_graph (sabs st') g = not_matching (MkPattern s p o) (ds_graph (sabs st) g).
Proof.
  intros Hs. destruct (allContexts_ok st Hs) as (gs & Hgs & _ & _ & Hall). unfold cg_Remove. rewrite Hgs.
  destruct (remove_all_ok (MkPattern s p o) gs st Hs) as (st' & -> & Hs' & Hg). exists st'. split_and!; [done|done|].
  intros g. rewrite Hg. destruct (decide _) as [Hin|Hin]; [done|].
  destruct (decide (ds_graph (sabs st) g = ∅)) as [->|Hne]; [done|]. destruct Hin. apply Hall. by left.
Qed.

(** The name a quad of graph [c] carries. *)
Definition quad_graph (cg : ConjunctiveGraph) (c : option Term) : option Term :=
  match c with None => as_subject (identifier (defaultContext cg)) | Some _ => as_subject c end.

(** [Quads] yields exactly the matching triples of every graph, each with the
    name of a graph that holds it: the default context's identifier for the default
    graph. *)
Theorem quads_name_their_graph (cg : ConjunctiveGraph) st s p o :
  sinv st → ∃ gs l, allContexts None st = Ok gs ∧ cg_Quads None cg s p o st = Ok <$> l ∧
    (∀ q, q ∈ l ↔ ∃ c, c ∈ gs ∧ Term.Graph q = quad_graph cg c ∧
       quad_Triple q ∈ graph_triples (matching (MkPattern s p o) (ds_graph (sabs st) c))).
Proof.
  intros Hs. destruct (allContexts_ok st Hs) as (gs & Hgs & _). unfold cg_Quads. rewrite Hgs. set (pat := MkPattern s p o).
  exists gs, (concat ((λ c, (λ t, MkQuad t (quad_graph cg c)) <$> oks (Triples None pat c st)) <$> gs)).
  split; [done|]. split.
  - rewrite (concat_ok _ (λ c, (λ t, MkQuad t (quad_graph cg c)) <$> oks (Triples None pat c st))), until_error_fmap; [done|].
    intros c _. destruct (graph_reads st pat c Hs) as [Hl _]. rewrite Hl at 1. rewrite <- !list_fmap_compose.
    apply list_fmap_ext. by intros i t _.
  - intros q. rewrite list_elem_of_In, in_concat. setoid_rewrite <- list_elem_of_In. split.
    + intros (l & (c & -> & Hc)%list_elem_of_fmap & (t & -> & Ht)%list_elem_of_fmap). exists c. split_and!; [done|done|].
      by rewrite <- (proj2 (graph_reads st pat c Hs)).
    + intros (c & Hc & Hg & Ht). rewrite <- (proj2 (graph_reads st pat c Hs)) in Ht.
      eexists. split; [by apply list_elem_of_fmap_2|]. apply list_elem_of_fmap. exists (quad_Triple q). split; [|done].
      rewrite <- Hg. by destruct q.
Qed.
End reading_all.

(** ** The registry *)

Section registry.
Context {St : Type} `{StoreLaws St}.

(** C32: [RemoveGraph] on a registered graph other than the default one empties it
    and forgets it, and touches no other graph; with a done context, which fails
    the removal, the graph stays registered and the store is unchanged; on the
    default graph or an unregistered one it does nothing. *)
Theorem remove_graph_spec (st : St) (d : Dataset) (t : Term) (g : Graph_) :
  sinv st → graphs d !! TermKey t = Some g → TermKey t ≠ OptTermKey (identifier (defaultContext (ds_cg d))) →
  (∃ st', RemoveGraph None (Some t) d st = (Ok tt, MkDs (ds_cg d) (delete (TermKey t) (graphs d)), st') ∧ sinv st' ∧
     ds_graph (sabs st') (identifier g) = ∅ ∧
     ∀ g', graph_key g' ≠ graph_key (identifier g) → ds_graph (sabs st') g' = ds_graph (sabs st) g') ∧
  (∀ e, RemoveGraph (Some e) (Some t) d st = (Err e, d, st)) ∧
  (∀ ctx u, TermKey u = OptTermKey (identifier (defaultContext (ds_cg d))) ∨ graphs d !! TermKey u = None →
     RemoveGraph ctx (Some u) d st = (Ok tt, d, st)).
Proof.
  intros Hs Hg Hk. split_and!.
  - destruct (step_ok st (DsRemove (MkPattern None None None) (identifier g)) Hs) as (st' & Hr & Hs' & Ha). cbn [store_step] in Hr.
    exists st'. unfold RemoveGraph. apply String.eqb_neq in Hk. rewrite Hk, Hg, Hr. split_and!; [done|done| |].
    + rewrite Ha. cbn [ds_step]. rewrite ds_update_same. apply map_eq. intros k. unfold not_matching.
      apply option_eq. intros u. rewrite map_lookup_filter_Some. split; [|done]. intros [_ Hf]. by vm_compute in Hf.
    + intros g' Hne. rewrite Ha. cbn [ds_step]. by rewrite ds_update_other.
  - intros e. unfold RemoveGraph. apply String.eqb_neq in Hk. rewrite Hk, Hg.
    pose proof (step_done st (DsRemove (MkPattern None None None) (identifier g)) e) as Hd. cbn [store_step] in Hd. by rewrite Hd.
  - intros ctx u [Hu|Hu]; unfold RemoveGraph; rewrite Hu; [by rewrite String.eqb_refl|by destruct (String.eqb _ _)].
Qed.

(** [Graph] registers a graph once: asking again gives the same one. *)
Lemma ds_Graph_again (d : Dataset) (t : Term) :
  let '(g, d') := ds_Graph (Some t) d in ds_Graph (Some t) d' = (g, d') ∧ graphs d' !! TermKey t = Some g.
Proof.
  unfold ds_Graph. destruct (graphs d !! TermKey t) as [g|] eqn:E; [by rewrite E|]. cbn [graphs].
  by rewrite !lookup_insert_eq.
Qed.
End registry.

(** ** Witnesses *)

#[local] Instance dataset_range_instance : GoRange | 100 := sorted_range.

Definition ex_ds : Dataset := (ds_Graph ex_graph (NewDataset None).1).2.

Lemma ex_store_nul_free : all_nul_free (sabs ex_store).
Proof.
  intros g t Ht. change (sabs ex_store) with (ms_abs (store_run NewMemoryStore [DsAdd ex_triple ex_graph])) in Ht.
  rewrite (proj2 (ms_run_ok [DsAdd ex_triple ex_graph])) in Ht.
  destruct (ds_run_all nul_free [DsAdd ex_triple ex_graph] g) as [Hk Hall].
  - intros o ->%list_elem_of_singleton u ->%list_elem_of_singleton. by vm_compute.
  - apply graph_triples_elem in Ht; [|done]. by eapply Hall.
Qed.

Lemma conjunctive_graph_is_the_union_witness :
  (∃ l, cg_Triples None None None None ex_store = Ok <$> l ∧ NoDup (tkey <$> l) ∧
    (∀ t, t ∈ l → ∃ g, t ∈ graph_triples (matching (MkPattern None None None) (ds_graph (sabs ex_store) g))) ∧
    ∀ k, k ∈ tkey <$> l ↔ ∃ g, is_Some (matching (MkPattern None None None) (ds_graph (sabs ex_store) g) !! k)) ∧
  ∃ l, cg_Triples None None None None ex_store = Ok <$> l ∧ cg_Len None ex_store = Ok (Z.of_nat (length l)).
Proof.
  exact (conjunctive_graph_is_the_union (St := MemoryStore) ex_store None None None ex_store_ok ex_store_nul_free).
Defined.

Lemma conjunctive_remove_reaches_every_graph_witness :
  ∃ st', cg_Remove None None None None None ex_store = (Ok tt, st') ∧ sinv st' ∧
    ∀ g, ds_graph (sabs st') g = not_matching (MkPattern None None None) (ds_graph (sabs ex_store) g).
Proof. exact (conjunctive_remove_reaches_every_graph (St := MemoryStore) ex_store None None None ex_store_ok). Defined.

Lemma quads_name_their_graph_witness :
  ∃ gs l, allContexts None ex_store = Ok gs ∧ cg_Quads None (NewConjunctiveGraph None).1 None None None ex_store = Ok <$> l ∧
    (∀ q, q ∈ l ↔ ∃ c, c ∈ gs ∧ Term.Graph q = quad_graph (NewConjunctiveGraph None).1 c ∧
       quad_Triple q ∈ graph_triples (matching (MkPattern None None None) (ds_graph (sabs ex_store) c))).
Proof. exact (quads_name_their_graph (St := MemoryStore) (NewConjunctiveGraph None).1 ex_store None None None ex_store_ok). Defined.

Lemma remove_graph_spec_witness :
  (∃ st', RemoveGraph None ex_graph ex_ds ex_store
      = (Ok tt, MkDs (ds_cg ex_ds) (delete (TermKey (TURIRef (ex_iri "g"))) (graphs ex_ds)), st') ∧ sinv st' ∧
     ds_graph (sabs st') ex_graph = ∅ ∧
     ∀ g', graph_key g' ≠ graph_key ex_graph → ds_graph (sabs st') g' = ds_graph (sabs ex_store) g') ∧
  (∀ e, RemoveGraph (Some e) ex_graph ex_ds ex_store = (Err e, ex_ds, ex_store)) ∧
  (∀ ctx u, TermKey u = OptTermKey (identifier (defaultContext (ds_cg ex_ds))) ∨ graphs ex_ds !! TermKey u = None →
     RemoveGraph ctx (Some u) ex_ds ex_store = (Ok tt, ex_ds, ex_store)).
Proof.
  assert (Hs : sinv ex_store) by exact ex_store_ok.
  refine (remove_graph_spec (St := MemoryStore) ex_store ex_ds (TURIRef (ex_iri "g")) (MkGraph ex_graph EmptyString) Hs _ _).
  - by vm_compute.
  - by intros [= ].
Defined.
