(* ===== verification/Collection.v ===== *)
(** * RDF collections

    [graph/collection.go]: a list of [rdf:first] and [rdf:rest] triples.  The walk
    over the nodes survives any graph, cyclic ones too; on a well-formed list the
    operations are those of a list of items. *)

From S2P Require Import Prelude GoStrings Term TermKey TripleIndex Store MemoryStore Graph.
From stdpp Require Import options.

(** ** The code *)

Definition RDF_First : URIRef := NewURIRefUnsafe (RDFNamespace +:+ "first").
Definition RDF_Rest : URIRef := NewURIRefUnsafe (RDFNamespace +:+ "rest").
Definition RDF_Nil : URIRef := NewURIRefUnsafe (RDFNamespace +:+ "nil").

Record Collection := MkCollection { c_graph : Graph_; c_head : Term }.

Definition NewCollection (g : Graph_) (head : Term) : Collection := MkCollection g head.

(** [NewEmptyCollection]: the [n]th identifier drawn names the head. *)
Definition NewEmptyCollection (uuid : nat → string) (g : Graph_) : drawM Collection := λ n,
  match NewBNode uuid EmptyString n with
  | (Ok b, n) => (Ok (MkCollection g (TBNode b)), n)
  | (Err e, n) => (Err e, n)
  end.

Definition isRDFNil (t : Term) : bool :=
  match t with TURIRef u => bool_decide (URIRef_value u = URIRef_value RDF_Nil) | _ => false end.

(** The position of the first item that satisfies [p]; [-1] without one. *)
Fixpoint position_of (p : Term → bool) (i : Z) (items : list (result (option Term))) : result Z :=
  match items with
  | [] => Ok (-1)%Z
  | Err e :: _ => Err e
  | Ok None :: items => position_of p (i + 1)%Z items
  | Ok (Some v) :: items => if p v then Ok i else position_of p (i + 1)%Z items
  end.

(** [Iter]: items until one is missing. *)
Fixpoint iter_items (items : list (result (option Term))) : TermIterator :=
  match items with
  | [] => []
  | Err e :: _ => [Err e]
  | Ok None :: _ => []
  | Ok (Some v) :: items => Ok v :: iter_items items
  end.

Fixpoint count_items (count : Z) (seq : TermIterator) : result Z :=
  match seq with
  | [] => Ok count
  | Err e :: _ => Err e
  | Ok _ :: seq => count_items (count + 1)%Z seq
  end.

(** The nodes of a walk, or its first error. *)
Fixpoint collect (seq : TermIterator) : result (list Term) :=
  match seq with
  | [] => Ok []
  | Err e :: _ => Err e
  | Ok n :: seq => l ← collect seq; Ok (n :: l)
  end.

Section collection.
Context {St : Type} `{Store St}.
Implicit Types (ctx : Context) (c : Collection) (st : St).

(** The loop of [nodes]; every iteration visits a new object of the graph. *)
Fixpoint nodes_loop (fuel : nat) ctx c st (visited : gset string) (node : Term) : TermIterator :=
  Ok node ::
  match g_Value ctx (c_graph c) (Some node) (Some RDF_Rest) None st with
  | Err e => [Err e]
  | Ok None => []
  | Ok (Some next) =>
      if isRDFNil next then []
      else if negb (isSubject next) then []
      else if decide (TermKey next ∈ visited) then []
      else match fuel with
           | O => [Err (Sentinel "model: out of fuel")]
           | S fuel => nodes_loop fuel ctx c st ({[TermKey next]} ∪ visited) next
           end
  end.

Definition c_nodes ctx c st : TermIterator :=
  nodes_loop (length (g_Triples ctx (c_graph c) None None None st)) ctx c st {[TermKey (c_head c)]} (c_head c).

Definition c_first ctx c (node : Term) st : result (option Term) :=
  g_Value ctx (c_graph c) (Some node) (Some RDF_First) None st.

(** The item of each node, as the loops over [nodes] read it. *)
Definition node_items ctx c st : list (result (option Term)) :=
  (λ r : result Term, node ← r; c_first ctx c node st) <$> c_nodes ctx c st.

Definition c_Iter ctx c st : TermIterator := iter_items (node_items ctx c st).
Definition c_Len ctx c st : result Z := count_items 0 (c_Iter ctx c st).
Definition c_Index ctx c (item : Term) st : result Z :=
  position_of (λ v, Equal v item) 0 (node_items ctx c st).

Fixpoint get_go ctx c st (i index : Z) (seq : TermIterator) : result (option Term) :=
  match seq with
  | [] => Ok None
  | Err e :: _ => Err e
  | Ok node :: seq => if (i =? index)%Z then c_first ctx c node st else get_go ctx c st (i + 1)%Z index seq
  end.
Definition c_Get ctx c (index : Z) st : result (option Term) := get_go ctx c st 0 index (c_nodes ctx c st).

Definition c_end ctx c st : result (option Term) :=
  match c_first ctx c (c_head c) st with
  | Err e => Err e
  | Ok None => Ok None
  | Ok (Some _) => l ← collect (c_nodes ctx c st); Ok (last l)
  end.

Definition c_Append (uuid : nat → string) ctx c (item : Term) st (n : nat) : result unit * St * nat :=
  let g := c_graph c in
  match c_end ctx c st with
  | Err e => (Err e, st, n)
  | Ok None =>
      match g_Add ctx g (c_head c) RDF_First item st with
      | (Err e, st) => (Err e, st, n)
      | (Ok _, st) => (g_Add ctx g (c_head c) RDF_Rest (TURIRef RDF_Nil) st, n)
      end
  | Ok (Some end_) =>
      match NewBNode uuid EmptyString n with
      | (Err e, n) => (Err e, st, n)
      | (Ok b, n) =>
          let newNode := TBNode b in
          match g_Add ctx g newNode RDF_First item st with
          | (Err e, st) => (Err e, st, n)
          | (Ok _, st) =>
              match g_Add ctx g newNode RDF_Rest (TURIRef RDF_Nil) st with
              | (Err e, st) => (Err e, st, n)
              | (Ok _, st) => (g_Set ctx g end_ RDF_Rest newNode st, n)
              end
          end
      end
  end.

Fixpoint clear_nodes ctx c (nodes : list Term) st : result unit * St :=
  match nodes with
  | [] => (Ok tt, st)
  | node :: nodes =>
      match g_Remove ctx (c_graph c) (Some node) (Some RDF_First) None st with
      | (Err e, st) => (Err e, st)
      | (Ok _, st) =>
          match g_Remove ctx (c_graph c) (Some node) (Some RDF_Rest) None st with
          | (Err e, st) => (Err e, st)
          | (Ok _, st) => clear_nodes ctx c nodes st
          end
      end
  end.

Definition c_Clear ctx c st : result unit * St :=
  match collect (c_nodes ctx c st) with
  | Err e => (Err e, st)
  | Ok nodes => clear_nodes ctx c nodes st
  end.
End collection.

(** ** Reading one value *)

(** The pattern [(n, p, any)] of a value. *)
Definition value_pattern (n : Term) (p : URIRef) : TriplePattern := MkPattern (Some n) (Some p) None.

(** A node has exactly one value of a predicate, or none. *)
Definition has_value (m : gcontent) (n : Term) (p : URIRef) (o : Term) : Prop :=
  ∃ t, matching (value_pattern n p) m = ({[tkey t := t]} : gmap tkey_t Triple) ∧ Object t = o.
Definition no_value (m : gcontent) (n : Term) (p : URIRef) : Prop := matching (value_pattern n p) m = ∅.

Lemma value_pattern_matches n p t :
  term_wf n → uri_ok p →
  pattern_matches (value_pattern n p) t = true ↔ keyAt t posS = TermKey n ∧ keyAt t posP = uri_key p.
Proof.
  intros Hn Hp. unfold pattern_matches, value_pattern. cbn [pat_Subject pat_Predicate pat_Object OptTermKey OptPredKey].
  rewrite !andb_true_iff, !key_matches_iff, (bound_key n Hn), (bound_key (TURIRef p) Hp). cbn [TermKey]. naive_solver.
Qed.

(** Adding a triple changes the values of its own subject and predicate only. *)
Lemma matching_add_other (pat : TriplePattern) (m : gmap tkey_t Triple) (t : Triple) :
  pattern_matches pat t = false → matching pat (graph_add m t) = matching pat m.
Proof.
  intros Hp. unfold graph_add. destruct (m !! tkey t) eqn:E; [done|].
  unfold matching. apply map_filter_insert_not'; cbn; [by rewrite Hp|]. intros y Hy. discriminate (eq_trans (eq_sym Hy) E).
Qed.

Lemma matching_add_new (pat : TriplePattern) (m : gmap tkey_t Triple) (t : Triple) :
  keyed m → pattern_matches pat t = true → matching pat m = ∅ →
  matching pat (graph_add m t) = ({[tkey t := t]} : gmap tkey_t Triple).
Proof.
  intros Hk Hp Hm. unfold graph_add. destruct (m !! tkey t) as [u|] eqn:E.
  - assert (Hu : matching pat m !! tkey t = Some u).
    { apply map_lookup_filter_Some. split; [done|]. cbn. rewrite <- Hp. symmetry. apply pattern_matches_key. symmetry. by apply (Hk _ u). }
    by rewrite Hm in Hu.
  - unfold matching in *. rewrite map_filter_insert_True by done. rewrite Hm. done.
Qed.

(** Removing what another pattern matches. *)
Lemma matching_not_matching (pat pat' : TriplePattern) (m : gmap tkey_t Triple) :
  (∀ t, pattern_matches pat t = true → pattern_matches pat' t = false) → matching pat (not_matching pat' m) = matching pat m.
Proof.
  intros Hd. unfold matching, not_matching. rewrite map_filter_filter. apply map_filter_ext. cbn. intros k t _. split; [by intros []|].
  intros Ht. split; [done|]. by apply Hd.
Qed.

Lemma matching_own_not_matching (pat : TriplePattern) (m : gmap tkey_t Triple) : matching pat (not_matching pat m) = (∅ : gmap tkey_t Triple).
Proof.
  apply map_eq. intros k. apply option_eq. intros t. unfold matching, not_matching.
  rewrite !map_lookup_filter_Some. cbn. split; [|done]. intros [[_ H1] H2]. congruence.
Qed.

Lemma not_matching_keyed (pat : TriplePattern) (m : gmap tkey_t Triple) : keyed m → keyed (not_matching pat m).
Proof. intros Hk k t [Hm _]%map_lookup_filter_Some. by apply Hk. Qed.

Lemma graph_add_keyed (m : gmap tkey_t Triple) t : keyed m → keyed (graph_add m t).
Proof. intros Hk. destruct (graph_all_add (λ _, True) m t) as [? _]; [by split|done|done]. Qed.

Section values.
Context {St : Type} `{StoreLaws St}.
Implicit Types (st : St) (g : Graph_).

Lemma g_value_none st g n p : sinv st → no_value (graph_of st g) n p → g_Value None g (Some n) (Some p) None st = Ok None.
Proof.
  intros Hs Hn. unfold g_Value. cbn [n_bound Nat.add Nat.eqb negb].
  destruct (g_triples_ok st g (Some n) (Some p) None Hs) as (l & -> & _ & Hl). unfold no_value, value_pattern in Hn.
  rewrite Hn in Hl. unfold graph_triples in Hl. rewrite map_to_list_empty in Hl. by apply Permutation_nil_r in Hl as ->.
Qed.

Lemma g_value_some st g n p o :
  sinv st → has_value (graph_of st g) n p o → g_Value None g (Some n) (Some p) None st = Ok (Some o).
Proof.
  intros Hs (t & Ht & <-). unfold g_Value. cbn [n_bound Nat.add Nat.eqb negb].
  destruct (g_triples_ok st g (Some n) (Some p) None Hs) as (l & -> & _ & Hl). unfold value_pattern in Ht.
  rewrite Ht in Hl. unfold graph_triples in Hl. rewrite map_to_list_singleton in Hl. by apply Permutation_singleton_r in Hl as ->.
Qed.

(** Whatever the graph, a value is the object of one of its triples. *)
Lemma g_value_any st g n p :
  sinv st → ∃ o, g_Value None g (Some n) (Some p) None st = Ok o ∧
    ∀ v, o = Some v → ∃ t, t ∈ graph_triples (graph_of st g) ∧ v = Object t.
Proof.
  intros Hs. unfold g_Value. cbn [n_bound Nat.add Nat.eqb negb].
  destruct (g_triples_ok st g (Some n) (Some p) None Hs) as (l & -> & _ & Hl).
  destruct l as [|t l]; [by exists None|]. exists (Some (Object t)). split; [done|]. intros v [= <-]. exists t. split; [|done].
  assert (Ht : t ∈ t :: l) by set_solver. rewrite Hl in Ht. apply matching_elem in Ht as [Ht _]; [done|]. by apply graph_of_keyed.
Qed.

(** ** The walk *)

Lemma nodes_loop_ok st c fuel visited node (objs : gset string) :
  sinv st → (∀ t, t ∈ graph_triples (graph_of st (c_graph c)) → TermKey (Object t) ∈ objs) →
  TermKey node ∈ visited → size (objs ∖ visited) ≤ fuel →
  ∃ l, nodes_loop fuel None c st visited node = Ok <$> (node :: l) ∧ NoDup (TermKey <$> l) ∧
    ∀ k, k ∈ TermKey <$> l → k ∉ visited.
Proof.
  intros Hs Hobj. revert visited node. induction fuel as [|fuel IH]; intros visited node Hv Hf; cbn [nodes_loop];
    destruct (g_value_any st (c_graph c) node RDF_Rest Hs) as (o & -> & Ho);
    (destruct o as [next|]; [|exists []; split_and!; [done|constructor|set_solver]]);
    (destruct (isRDFNil next); [exists []; split_and!; [done|constructor|set_solver]|]);
    (destruct (isSubject next); [|exists []; split_and!; [done|constructor|set_solver]]); cbn [negb];
    (destruct (decide (TermKey next ∈ visited)) as [|Hn]; [exists []; split_and!; [done|constructor|set_solver]|]);
    destruct (Ho next eq_refl) as (t & Ht & ->); apply Hobj in Ht.
  - exfalso. apply Nat.le_0_r, size_empty_inv in Hf. set_solver.
  - destruct (IH ({[TermKey (Object t)]} ∪ visited) (Object t)) as (l & -> & Hnd & Hl); [set_solver| |].
    + assert (Hlt : size (objs ∖ ({[TermKey (Object t)]} ∪ visited)) < size (objs ∖ visited)); [|lia].
      apply subset_size. set_solver.
    + exists (Object t :: l). split_and!; [done| |].
      * rewrite fmap_cons. apply NoDup_cons. split; [|done]. intros Hin%Hl. set_solver.
      * intros k. rewrite fmap_cons. intros [->|Hk]%elem_of_cons; [done|]. apply Hl in Hk. set_solver.
Qed.

Lemma size_list_to_set_le (l : list string) : size (list_to_set l : gset string) ≤ length l.
Proof.
  induction l as [|k l IH]; [done|]. cbn. destruct (decide (k ∈ (list_to_set l : gset string))) as [Hk|Hk].
  - rewrite subseteq_union_1_L by set_solver. lia.
  - rewrite size_union, size_singleton by set_solver. lia.
Qed.

(** The objects of a graph. *)
Lemma objects_bound st g :
  sinv st → ∃ objs : gset string, (∀ t, t ∈ graph_triples (graph_of st g) → TermKey (Object t) ∈ objs) ∧
    size objs ≤ length (g_Triples None g None None None st).
Proof.
  intros Hs. destruct (g_triples_ok st g None None None Hs) as (l & -> & _ & Hl). rewrite matching_all in Hl.
  exists (list_to_set ((λ t, TermKey (Object t)) <$> l)). split.
  - intros t Ht. rewrite <- Hl in Ht. apply elem_of_list_to_set, list_elem_of_fmap. by exists t.
  - rewrite length_fmap, <- (length_fmap (λ t, TermKey (Object t)) l). apply size_list_to_set_le.
Qed.

Lemma c_nodes_total st c :
  sinv st → ∃ l, c_nodes None c st = Ok <$> (c_head c :: l) ∧ NoDup (TermKey <$> c_head c :: l).
Proof.
  intros Hs. destruct (objects_bound st (c_graph c) Hs) as (objs & Hobj & Hsz). unfold c_nodes.
  destruct (nodes_loop_ok st c (length (g_Triples None (c_graph c) None None None st)) {[TermKey (c_head c)]} (c_head c) objs)
    as (l & -> & Hnd & Hl); [done|done|set_solver| |].
  - etransitivity; [|exact Hsz]. apply subseteq_size. set_solver.
  - exists l. split; [done|]. rewrite fmap_cons. apply NoDup_cons. split; [|done]. intros Hin%Hl. set_solver.
Qed.

(** the walk over a collection ends on every graph, however malformed or
    cyclic: it yields the head first, every node once and no error. *)
Theorem collection_walk_terminates st c :
  sinv st → ∃ l, c_nodes None c st = Ok <$> (c_head c :: l) ∧ NoDup (TermKey <$> c_head c :: l).
Proof. apply c_nodes_total. Qed.

(** ** Well-formed lists *)

(** A node of a list: a subject that is not [rdf:nil]. *)
Definition list_node (n : Term) : Prop := term_wf n ∧ isSubject n = true ∧ isRDFNil n = false.

(** The nodes are linked in order and the last one ends the list. *)
Fixpoint chain (m : gcontent) (nodes items : list Term) : Prop :=
  match nodes, items with
  | n :: nodes', i :: items' =>
      has_value m n RDF_First i ∧
      match nodes' with
      | [] => items' = [] ∧ has_value m n RDF_Rest (TURIRef RDF_Nil)
      | n' :: _ => has_value m n RDF_Rest n' ∧ chain m nodes' items'
      end
  | _, _ => False
  end.

(** The collection holds [items], on [nodes]; an empty one has only its head. *)
Definition holds (m : gcontent) (head : Term) (nodes items : list Term) : Prop :=
  Forall list_node nodes ∧ NoDup (TermKey <$> nodes) ∧ list.head nodes = Some head ∧
  match items with
  | [] => nodes = [head] ∧ no_value m head RDF_First ∧ no_value m head RDF_Rest
  | _ => chain m nodes items
  end.

Lemma nodes_loop_chain st c fuel (visited : gset string) n nodes items :
  sinv st → chain (graph_of st (c_graph c)) (n :: nodes) items → Forall list_node (n :: nodes) →
  NoDup (TermKey <$> nodes) → (∀ k, k ∈ TermKey <$> nodes → k ∉ visited) → length nodes ≤ fuel →
  nodes_loop fuel None c st visited n = Ok <$> (n :: nodes).
Proof.
  intros Hs. revert n items fuel visited. induction nodes as [|n' nodes IH]; intros n items fuel visited Hc Hn Hnd Hv Hf.
  - destruct items as [|i items]; [done|]. destruct Hc as (_ & _ & Hr).
    destruct fuel; cbn [nodes_loop]; by rewrite (g_value_some st (c_graph c) n RDF_Rest _ Hs Hr).
  - destruct items as [|i items]; [done|]. destruct Hc as (_ & Hr & Hc). destruct fuel as [|fuel]; [cbn in Hf; lia|].
    inversion Hn as [|? ? _ Hn']; subst. inversion Hn' as [|? ? (_ & Hsub & Hnil) _]; subst.
    cbn [nodes_loop]. rewrite (g_value_some st (c_graph c) n RDF_Rest n' Hs Hr), Hnil, Hsub. cbn [negb].
    rewrite fmap_cons in Hnd. apply NoDup_cons in Hnd as [Hn1 Hnd].
    rewrite decide_False by (apply Hv; rewrite fmap_cons; set_solver). rewrite (IH n' items); [done|done|done|done| |cbn in Hf; lia].
    intros k Hk Hin%elem_of_union. destruct Hin as [->%elem_of_singleton|Hin]; [done|].
    apply (Hv k); [rewrite fmap_cons; set_solver|done].
Qed.

Lemma c_nodes_holds st c nodes items :
  sinv st → holds (graph_of st (c_graph c)) (c_head c) nodes items → c_nodes None c st = Ok <$> nodes.
Proof.
  intros Hs (Hn & Hnd & Hh & Hi). destruct nodes as [|n nodes]; [done|]. injection Hh as ->. destruct items as [|i items].
  - destruct Hi as ([= ->] & _ & Hr). unfold c_nodes.
    destruct (length _); cbn [nodes_loop]; by rewrite (g_value_none st (c_graph c) _ RDF_Rest Hs Hr).
  - unfold c_nodes. rewrite fmap_cons in Hnd. apply NoDup_cons in Hnd as [Hnh Hnd].
    apply (nodes_loop_chain st c _ _ _ _ (i :: items)); [done|done|done|done|set_solver|].
    destruct (objects_bound st (c_graph c) Hs) as (objs & Hobj & Hsz). etransitivity; [|exact Hsz].
    rewrite <- (length_fmap TermKey nodes). rewrite <- (size_list_to_set (C := gset string)) by done. apply subseteq_size.
    intros k Hk%elem_of_list_to_set. clear -Hi Hk Hobj Hs. revert i items Hi. generalize (c_head c) as n0.
    induction nodes as [|n nodes IH]; intros n0 i items Hi; [set_solver|]. destruct Hi as (_ & (t & Ht & <-) & Hc).
    rewrite fmap_cons in Hk. apply elem_of_cons in Hk as [->|Hk].
    + apply Hobj. assert (Hin : t ∈ graph_triples (matching (value_pattern n0 RDF_Rest) (graph_of st (c_graph c)))).
      { rewrite Ht. unfold graph_triples. rewrite map_to_list_singleton. set_solver. }
      apply matching_elem in Hin as [? _]; [done|by apply graph_of_keyed].
    + destruct items as [|i' items]; [by destruct nodes|]. by apply (IH Hk (Object t) i' items).
Qed.

Lemma chain_first m nodes items : chain m nodes items → Forall2 (λ n i, has_value m n RDF_First i) nodes items.
Proof.
  revert items. induction nodes as [|n nodes IH]; intros [|i items] Hc; try done.
  destruct Hc as [Hf Hc]. constructor; [done|]. destruct nodes as [|n' nodes]; [by destruct Hc as [-> _]|].
  apply IH. by destruct Hc.
Qed.

(** What the loops over the nodes read. *)
Lemma node_items_holds st c nodes items :
  sinv st → holds (graph_of st (c_graph c)) (c_head c) nodes items →
  node_items None c st = match items with [] => [Ok None] | _ => (λ i, Ok (Some i)) <$> items end.
Proof.
  intros Hs Hl. unfold node_items. rewrite (c_nodes_holds st c nodes items Hs Hl). destruct Hl as (_ & _ & Hh & Hi).
  destruct items as [|i items].
  - destruct Hi as (-> & Hf & _). cbn [fmap list_fmap mbind result_bind]. unfold c_first. by rewrite (g_value_none st (c_graph c) _ RDF_First Hs Hf).
  - apply chain_first in Hi. rewrite <- list_fmap_compose. clear Hh.
    induction Hi as [|n i' nodes' items' Hf _ IH]; [done|]. rewrite !fmap_cons, IH. f_equal.
    unfold compose, c_first. cbn [mbind result_bind]. by rewrite (g_value_some st (c_graph c) n RDF_First i' Hs Hf).
Qed.

Lemma iter_items_some l : iter_items ((λ i, Ok (Some i)) <$> l) = Ok <$> l.
Proof. induction l as [|i l IH]; [done|]. rewrite !fmap_cons. cbn [iter_items]. by rewrite IH. Qed.

Lemma count_items_ok z l : count_items z (Ok <$> l) = Ok (z + Z.of_nat (length l))%Z.
Proof.
  revert z. induction l as [|i l IH]; intros z; [cbn; f_equal; lia|]. rewrite fmap_cons. cbn [count_items]. rewrite IH.
  cbn [length]. f_equal. lia.
Qed.

(** The index of the first item equal to another. *)
Fixpoint index_of (item : Term) (i : Z) (items : list Term) : Z :=
  match items with
  | [] => -1
  | v :: items => if Equal v item then i else index_of item (i + 1) items
  end.

Lemma position_of_some item z l :
  position_of (λ v, Equal v item) z ((λ i, Ok (Some i)) <$> l) = Ok (index_of item z l).
Proof.
  revert z. induction l as [|i l IH]; intros z; [done|]. rewrite fmap_cons. cbn [position_of index_of].
  by destruct (Equal i item).
Qed.

Lemma get_go_ok st c nodes items z i :
  sinv st → Forall2 (λ n v, has_value (graph_of st (c_graph c)) n RDF_First v) nodes items → (z ≤ i)%Z →
  get_go None c st z i (Ok <$> nodes) = Ok (items !! Z.to_nat (i - z)).
Proof.
  intros Hs Hf. revert z. induction Hf as [|n v nodes items Hv _ IH]; intros z Hz; [done|].
  rewrite fmap_cons. cbn [get_go]. destruct (Z.eqb_spec z i) as [->|Hne].
  - rewrite Z.sub_diag. cbn. apply (g_value_some st (c_graph c) n RDF_First v Hs Hv).
  - rewrite IH by lia. replace (Z.to_nat (i - z)) with (S (Z.to_nat (i - (z + 1)))) by lia. done.
Qed.

(** C34: on a well-formed collection that holds [items] the reads are those of the
    list: [Iter] yields it, [Len] counts it, [Get] gives the item at a position and
    nothing out of range, and [Index] the first position of an equal item, or -1. *)
Theorem collection_reads_list st c nodes items :
  sinv st → holds (graph_of st (c_graph c)) (c_head c) nodes items →
  c_Iter None c st = Ok <$> items ∧
  c_Len None c st = Ok (Z.of_nat (length items)) ∧
  (∀ i, (0 ≤ i)%Z → c_Get None c i st = Ok (items !! Z.to_nat i)) ∧
  (∀ item, c_Index None c item st = Ok (index_of item 0 items)).
Proof.
  intros Hs Hl.
  assert (Hit : c_Iter None c st = Ok <$> items).
  { unfold c_Iter. rewrite (node_items_holds st c nodes items Hs Hl). destruct items; [done|]. by rewrite iter_items_some. }
  split_and!; [done|unfold c_Len; by rewrite Hit, count_items_ok| |].
  - intros i Hi. unfold c_Get. rewrite (c_nodes_holds st c nodes items Hs Hl). destruct Hl as (_ & _ & _ & Hl).
    destruct items as [|v items].
    + destruct Hl as (-> & Hf & _). rewrite lookup_nil. cbn [fmap list_fmap get_go]. destruct (Z.eqb_spec 0 i); [|done].
      apply (g_value_none st (c_graph c) _ RDF_First Hs Hf).
    + apply chain_first in Hl. rewrite (get_go_ok st c nodes (v :: items) 0 i Hs Hl Hi). by rewrite Z.sub_0_r.
  - intros item. unfold c_Index. rewrite (node_items_holds st c nodes items Hs Hl). destruct items; [done|].
    by rewrite position_of_some.
Qed.
End values.

(** ** Writing a list *)

Lemma uri_ok_first : uri_ok RDF_First.
Proof. by eexists. Qed.
Lemma uri_ok_rest : uri_ok RDF_Rest.
Proof. by eexists. Qed.
#[export] Hint Resolve uri_ok_first uri_ok_rest : core.

Lemma triple_matches n p s q o :
  term_wf n → uri_ok p →
  pattern_matches (value_pattern n p) (MkTriple s q o) = true ↔ TermKey s = TermKey n ∧ uri_key q = uri_key p.
Proof. intros Hn Hp. by rewrite value_pattern_matches. Qed.

(** Writing a value of another node or another predicate. *)
Lemma add_other_value (m : gmap tkey_t Triple) n p s q o :
  term_wf n → uri_ok p → (TermKey n ≠ TermKey s ∨ uri_key p ≠ uri_key q) →
  matching (value_pattern n p) (graph_add m (MkTriple s q o)) = matching (value_pattern n p) m.
Proof.
  intros Hn Hp Hne. apply matching_add_other. apply not_true_iff_false. rewrite triple_matches by done. intros [? ?].
  destruct Hne; congruence.
Qed.

Lemma set_other_value (m : gmap tkey_t Triple) n p s q o :
  term_wf n → uri_ok p → term_wf s → uri_ok q → (TermKey n ≠ TermKey s ∨ uri_key p ≠ uri_key q) →
  matching (value_pattern n p) (graph_add (not_matching (value_pattern s q) m) (MkTriple s q o))
  = matching (value_pattern n p) m.
Proof.
  intros Hn Hp Hs Hq Hne. rewrite add_other_value by done. apply matching_not_matching. intros t.
  rewrite value_pattern_matches by done. intros [? ?]. apply not_true_iff_false.
  rewrite value_pattern_matches by done. intros [? ?]. destruct Hne; congruence.
Qed.

(** Writing the value itself. *)
Lemma add_new_value (m : gmap tkey_t Triple) n p o :
  keyed m → term_wf n → uri_ok p → no_value m n p → has_value (graph_add m (MkTriple n p o)) n p o.
Proof.
  intros Hk Hn Hp Hno. exists (MkTriple n p o). split; [|done]. apply matching_add_new; [done| |done].
  by apply triple_matches.
Qed.

Lemma set_new_value (m : gmap tkey_t Triple) n p o :
  keyed m → term_wf n → uri_ok p →
  has_value (graph_add (not_matching (value_pattern n p) m) (MkTriple n p o)) n p o.
Proof.
  intros Hk Hn Hp. apply add_new_value; [by apply not_matching_keyed|done|done|]. apply matching_own_not_matching.
Qed.

(** A node without triples of its own. *)
Definition fresh_node (m : gcontent) (n : Term) : Prop := ∀ t, t ∈ graph_triples m → keyAt t posS ≠ TermKey n.

Lemma fresh_no_value (m : gmap tkey_t Triple) n p : keyed m → term_wf n → uri_ok p → fresh_node m n → no_value m n p.
Proof.
  intros Hk Hn Hp Hf. apply map_eq. intros k. apply option_eq. intros t. unfold matching.
  rewrite map_lookup_filter_Some. cbn [snd]. split; [|by rewrite lookup_empty]. intros [Ht Hm]. exfalso.
  apply value_pattern_matches in Hm as [Hm _]; [|done|done]. apply (Hf t); [|done]. apply graph_triples_elem; [done|].
  by rewrite (Hk _ _ Ht).
Qed.

Lemma has_value_not_fresh (m : gmap tkey_t Triple) n p o n' :
  keyed m → term_wf n → uri_ok p → has_value m n p o → fresh_node m n' → TermKey n ≠ TermKey n'.
Proof.
  intros Hk Hn Hp (t & Ht & _) Hf He.
  assert (Hm : matching (value_pattern n p) m !! tkey t = Some t) by (rewrite Ht; apply lookup_singleton_eq).
  apply map_lookup_filter_Some in Hm as [Hm Hp']. cbn [snd] in Hp'. apply value_pattern_matches in Hp' as [Hs _]; [|done|done].
  apply (Hf t); [by apply graph_triples_elem|congruence].
Qed.

(** Linking a new node behind the last. *)
Lemma chain_snoc (m m' : gcontent) nodes items e N item :
  Forall list_node nodes → NoDup (TermKey <$> nodes) → last nodes = Some e → chain m nodes items →
  (∀ n o, n ∈ nodes → has_value m n RDF_First o → has_value m' n RDF_First o) →
  (∀ n o, n ∈ nodes → TermKey n ≠ TermKey e → has_value m n RDF_Rest o → has_value m' n RDF_Rest o) →
  has_value m' e RDF_Rest N → has_value m' N RDF_First item → has_value m' N RDF_Rest (TURIRef RDF_Nil) →
  chain m' (nodes ++ [N]) (items ++ [item]).
Proof.
  revert items. induction nodes as [|n nodes IH]; intros items Hn Hnd Hl Hc Hf Hr He HN1 HN2; [done|].
  destruct items as [|i items]; [done|]. destruct Hc as [Hfi Hc]. rewrite fmap_cons in Hnd. apply NoDup_cons in Hnd as [Hni Hnd].
  inversion Hn; subst. destruct nodes as [|n' nodes].
  - injection Hl as ->. destruct Hc as [-> _]. cbn. split_and!; try done. by apply Hf; [set_solver|].
  - destruct Hc as [Hri Hc]. rewrite <- !app_comm_cons. cbn [chain]. split; [by apply Hf; [set_solver|]|].
    split.
    + apply Hr; [set_solver| |done]. intros He'. apply Hni. rewrite He'. apply list_elem_of_fmap_2.
      rewrite last_cons_cons in Hl. by apply last_Some_elem_of.
    + apply IH; try done; intros; [apply Hf|apply Hr]; set_solver.
Qed.

Section writing.
Context {St : Type} `{StoreLaws St}.
Implicit Types (st : St) (g : Graph_).

Lemma g_add_ok st g s p o :
  sinv st → ∃ st', g_Add None g s p o st = (Ok tt, st') ∧ sinv st' ∧
    graph_of st' g = graph_add (graph_of st g) (MkTriple s p o).
Proof.
  intros Hs. destruct (step_ok st (DsAdd (MkTriple s p o) (identifier g)) Hs) as (st' & Ho & Hs' & Ha). cbn [store_step] in Ho.
  exists st'. split_and!; [done|done|]. unfold graph_of. rewrite Ha. apply ds_update_same.
Qed.

Lemma g_set_ok st g s p o :
  sinv st → ∃ st', g_Set None g s p o st = (Ok tt, st') ∧ sinv st' ∧
    graph_of st' g = graph_add (not_matching (value_pattern s p) (graph_of st g)) (MkTriple s p o).
Proof.
  intros Hs. destruct (step_ok st (DsSet (MkTriple s p o) (identifier g)) Hs) as (st' & Ho & Hs' & Ha). cbn [store_step] in Ho.
  exists st'. split_and!; [done|done|]. unfold graph_of. rewrite Ha. apply ds_update_same.
Qed.

Lemma g_remove_ok st g s p o :
  sinv st → ∃ st', g_Remove None g s p o st = (Ok tt, st') ∧ sinv st' ∧
    graph_of st' g = not_matching (MkPattern s p o) (graph_of st g).
Proof.
  intros Hs. destruct (step_ok st (DsRemove (MkPattern s p o) (identifier g)) Hs) as (st' & Ho & Hs' & Ha). cbn [store_step] in Ho.
  exists st'. split_and!; [done|done|]. unfold graph_of. rewrite Ha. apply ds_update_same.
Qed.

Lemma collect_ok l : collect (Ok <$> l) = Ok l.
Proof. induction l as [|n l IH]; [done|]. rewrite fmap_cons. cbn [collect]. by rewrite IH. Qed.

(** The first item of an empty collection goes on its head. *)
Lemma append_empty uuid st c item n :
  sinv st → holds (graph_of st (c_graph c)) (c_head c) [c_head c] [] →
  ∃ st', c_Append uuid None c item st n = (Ok tt, st', n) ∧ sinv st' ∧
    holds (graph_of st' (c_graph c)) (c_head c) [c_head c] [item].
Proof.
  intros Hs (Hn & Hnd & Hh & _ & Hf & Hr). inversion Hn as [|? ? (Hw & _ & _) _]; subst.
  unfold c_Append, c_end, c_first. rewrite (g_value_none st (c_graph c) _ RDF_First Hs Hf).
  destruct (g_add_ok st (c_graph c) (c_head c) RDF_First item Hs) as (st1 & -> & Hs1 & G1).
  destruct (g_add_ok st1 (c_graph c) (c_head c) RDF_Rest (TURIRef RDF_Nil) Hs1) as (st2 & -> & Hs2 & G2).
  exists st2. split_and!; [done|done|]. split_and!; [done|done|done|].
  pose proof (graph_of_keyed st (c_graph c) Hs) as Hk. cbn [chain]. split_and!; [|done|].
  - destruct (add_new_value _ (c_head c) RDF_First item Hk Hw uri_ok_first Hf) as (t & Ht & Ho). exists t. split; [|done].
    rewrite G2, add_other_value; [by rewrite G1|done|done|by right].
  - rewrite G2. apply add_new_value; [by apply graph_of_keyed|done|done|]. unfold no_value.
    rewrite G1, add_other_value; [done|done|done|by right].
Qed.

(** Another item goes on a new node behind the last one. *)
Lemma append_more uuid st c item n nodes items b n' :
  sinv st → items ≠ [] → holds (graph_of st (c_graph c)) (c_head c) nodes items →
  NewBNode uuid EmptyString n = (Ok b, n') → bnode_ok b → fresh_node (graph_of st (c_graph c)) (TBNode b) →
  ∃ st', c_Append uuid None c item st n = (Ok tt, st', n') ∧ sinv st' ∧
    holds (graph_of st' (c_graph c)) (c_head c) (nodes ++ [TBNode b]) (items ++ [item]).
Proof.
  intros Hs Hi Hl HB HN Hfresh. pose proof (c_nodes_holds st c nodes items Hs Hl) as Hnodes.
  destruct Hl as (Hn & Hnd & Hh & Hc). destruct items as [|i items]; [done|].
  assert (Hnne : nodes ≠ []) by (by intros ->). destruct (last nodes) as [e|] eqn:He; [|by apply last_None in He].
  pose proof (graph_of_keyed st (c_graph c) Hs) as Hk. set (N := TBNode b) in *.
  assert (HwN : term_wf N) by done.
  assert (Hwf : ∀ m, m ∈ nodes → term_wf m) by (intros m Hm; rewrite Forall_forall in Hn; by apply Hn).
  pose proof (chain_first _ _ _ Hc) as Hfirst.
  assert (HneN : ∀ m, m ∈ nodes → TermKey m ≠ TermKey N).
  { intros m Hm. destruct (list_elem_of_lookup_1 _ _ Hm) as [j Hj]. destruct (Forall2_lookup_l _ _ _ _ _ Hfirst Hj) as (v & _ & Hv).
    apply (has_value_not_fresh (graph_of st (c_graph c)) m RDF_First v); auto. }
  assert (Hen : e ∈ nodes) by (by apply last_Some_elem_of).
  unfold c_Append, c_end, c_first. destruct nodes as [|h nodes]; [done|]. injection Hh as ->.
  rewrite (g_value_some st (c_graph c) (c_head c) RDF_First i Hs) by apply Hc.
  rewrite Hnodes, collect_ok. cbn [mbind result_bind]. rewrite He, HB. cbv zeta. fold N.
  destruct (g_add_ok st (c_graph c) N RDF_First item Hs) as (st1 & -> & Hs1 & G1).
  destruct (g_add_ok st1 (c_graph c) N RDF_Rest (TURIRef RDF_Nil) Hs1) as (st2 & -> & Hs2 & G2).
  destruct (g_set_ok st2 (c_graph c) e RDF_Rest N Hs2) as (st3 & -> & Hs3 & G3).
  exists st3. split_and!; [done|done|].
  assert (Hset : ∀ m p, term_wf m → uri_ok p → TermKey m ≠ TermKey e ∨ uri_key p ≠ uri_key RDF_Rest →
    matching (value_pattern m p) (graph_of st3 (c_graph c)) = matching (value_pattern m p) (graph_of st2 (c_graph c))).
  { intros m p Hm Hp Hd. rewrite G3. apply set_other_value; auto. }
  assert (Hadd : ∀ m p, term_wf m → uri_ok p → TermKey m ≠ TermKey N →
    matching (value_pattern m p) (graph_of st2 (c_graph c)) = matching (value_pattern m p) (graph_of st (c_graph c))).
  { intros m p Hm Hp Hd. rewrite G2, add_other_value, G1, add_other_value; auto. }
  split_and!.
  - apply Forall_app. split; [done|]. by repeat constructor.
  - rewrite fmap_app. apply NoDup_app. split_and!; [done| |by apply NoDup_singleton].
    intros k (m & -> & Hm)%list_elem_of_fmap Hk'%list_elem_of_singleton. by destruct (HneN m Hm).
  - done.
  - change (chain (graph_of st3 (c_graph c)) ((c_head c :: nodes) ++ [N]) ((i :: items) ++ [item])).
    apply (chain_snoc (graph_of st (c_graph c)) _ (c_head c :: nodes) (i :: items) e N item); [done|done|done|done| | | | |].
    + intros m o Hm (t & Ht & Ho). exists t. split; [|done]. rewrite Hset, Hadd; auto.
    + intros m o Hm Hme (t & Ht & Ho). exists t. split; [|done]. rewrite Hset, Hadd; auto.
    + rewrite G3. apply set_new_value; auto using graph_of_keyed.
    + destruct (add_new_value _ N RDF_First item Hk HwN uri_ok_first) as (t & Ht & Ho); [by apply fresh_no_value|].
      exists t. split; [|done]. rewrite Hset by auto. rewrite G2, add_other_value; [by rewrite G1|done|done|by right].
    + destruct (add_new_value (graph_of st1 (c_graph c)) N RDF_Rest (TURIRef RDF_Nil)) as (t & Ht & Ho); [by apply graph_of_keyed|done|done| |].
      * unfold no_value. rewrite G1, add_other_value; [by apply fresh_no_value|done|done|by right].
      * exists t. split; [|done]. rewrite Hset; [by rewrite G2|done|done|]. left. intros E. by apply (HneN e Hen).
Qed.

Lemma NewBNode_ok uuid n b n' : NewBNode uuid EmptyString n = (Ok b, n') → bnode_ok b.
Proof. intros [= <- _]. by exists ("N" +:+ hex_encode (uuid n)). Qed.

(** C33: [Append] adds an item at the end: on a well-formed collection that holds
    [items] it succeeds, and the collection then holds [items] and the new item, when
    the blank node drawn for it is not yet a subject of the graph. *)
Theorem collection_append uuid st c item n nodes items b n' :
  sinv st → holds (graph_of st (c_graph c)) (c_head c) nodes items →
  NewBNode uuid EmptyString n = (Ok b, n') → fresh_node (graph_of st (c_graph c)) (TBNode b) →
  ∃ st' k nodes', c_Append uuid None c item st n = (Ok tt, st', k) ∧ sinv st' ∧
    holds (graph_of st' (c_graph c)) (c_head c) nodes' (items ++ [item]).
Proof.
  intros Hs Hl HB Hf. destruct items as [|i items].
  - pose proof Hl as (_ & _ & _ & -> & _). destruct (append_empty uuid st c item n Hs Hl) as (st' & ? & ? & ?). by eexists _, _, _.
  - destruct (append_more uuid st c item n nodes (i :: items) b n' Hs) as (st' & ? & ? & ?); [done|done|done| |done|by eexists _, _, _].
    by eapply NewBNode_ok.
Qed.

(** The list triples of some nodes. *)
Definition list_triple (nodes : list Term) (t : Triple) : bool :=
  bool_decide (keyAt t posS ∈ TermKey <$> nodes) &&
  (bool_decide (keyAt t posP = uri_key RDF_First) || bool_decide (keyAt t posP = uri_key RDF_Rest)).

Lemma list_triple_cons (n : Term) (nodes : list Term) (t : Triple) :
  term_wf n → list_triple (n :: nodes) t = false ↔
  pattern_matches (value_pattern n RDF_First) t = false ∧ pattern_matches (value_pattern n RDF_Rest) t = false ∧
  list_triple nodes t = false.
Proof.
  intros Hn. rewrite <- !not_true_iff_false, !value_pattern_matches by done. unfold list_triple.
  rewrite !andb_true_iff, !orb_true_iff, !bool_decide_eq_true, fmap_cons, elem_of_cons. tauto.
Qed.

Lemma clear_filter (n : Term) (nodes : list Term) (m : gmap tkey_t Triple) :
  term_wf n →
  filter (λ kt : tkey_t * Triple, list_triple nodes kt.2 = false)
    (not_matching (value_pattern n RDF_Rest) (not_matching (value_pattern n RDF_First) m))
  = filter (λ kt : tkey_t * Triple, list_triple (n :: nodes) kt.2 = false) m.
Proof.
  intros Hn. apply map_eq. intros k. apply option_eq. intros t. unfold not_matching.
  rewrite !map_lookup_filter_Some. cbn [snd]. rewrite list_triple_cons by done. tauto.
Qed.

Lemma clear_nodes_ok st c nodes :
  sinv st → Forall term_wf nodes →
  ∃ st', clear_nodes None c nodes st = (Ok tt, st') ∧ sinv st' ∧
    graph_of st' (c_graph c) = filter (λ kt : tkey_t * Triple, list_triple nodes kt.2 = false) (graph_of st (c_graph c)).
Proof.
  revert st. induction nodes as [|n nodes IH]; intros st Hs Hw; cbn [clear_nodes].
  { exists st. split_and!; [done|done|]. symmetry. apply map_filter_id. intros k t _. cbn [snd]. unfold list_triple.
    rewrite bool_decide_eq_false_2; [done|]. apply not_elem_of_nil. }
  inversion Hw as [|? ? Hn Hw']; subst.
  destruct (g_remove_ok st (c_graph c) (Some n) (Some RDF_First) None Hs) as (st1 & -> & Hs1 & G1).
  destruct (g_remove_ok st1 (c_graph c) (Some n) (Some RDF_Rest) None Hs1) as (st2 & -> & Hs2 & G2).
  destruct (IH st2 Hs2 Hw') as (st' & -> & Hs' & G). exists st'. split_and!; [done|done|].
  rewrite G, G2, G1. by apply clear_filter.
Qed.

(** [Clear] removes the list and nothing else: exactly the [rdf:first] and
    [rdf:rest] triples of its nodes disappear, and the collection is then empty. *)
Theorem collection_clear st c nodes items :
  sinv st → holds (graph_of st (c_graph c)) (c_head c) nodes items →
  ∃ st', c_Clear None c st = (Ok tt, st') ∧ sinv st' ∧
    graph_of st' (c_graph c) = filter (λ kt : tkey_t * Triple, list_triple nodes kt.2 = false) (graph_of st (c_graph c)) ∧
    holds (graph_of st' (c_graph c)) (c_head c) [c_head c] [].
Proof.
  intros Hs Hl. unfold c_Clear. rewrite (c_nodes_holds st c nodes items Hs Hl), collect_ok.
  destruct Hl as (Hn & _ & Hh & _).
  assert (Hw : Forall term_wf nodes) by (eapply Forall_impl; [exact Hn|]; by intros m (? & _)).
  destruct (clear_nodes_ok st c nodes Hs Hw) as (st' & -> & Hs' & G). exists st'. split_and!; [done|done|done|].
  destruct nodes as [|h nodes]; [done|]. injection Hh as ->. inversion Hn as [|? ? Hhead _]; subst.
  assert (Hno : ∀ p, p = RDF_First ∨ p = RDF_Rest → no_value (graph_of st' (c_graph c)) (c_head c) p).
  { intros p Hp. unfold no_value, matching. rewrite G. apply map_eq. intros k. apply option_eq. intros t.
    rewrite !map_lookup_filter_Some. cbn [snd]. split; [|done]. intros [[_ H1] H2]. exfalso.
    apply value_pattern_matches in H2 as [H2 H3]; [|apply Hhead|by destruct Hp as [-> | ->]].
    apply not_true_iff_false in H1. apply H1. unfold list_triple.
    rewrite andb_true_iff, orb_true_iff, !bool_decide_eq_true, fmap_cons, H2, H3. split; [set_solver|].
    destruct Hp as [-> | ->]; auto. }
  split_and!; [by apply Forall_singleton|by apply NoDup_singleton|done|done|apply Hno; by left|apply Hno; by right].
Qed.
End writing.

(** ** Witnesses *)

#[local] Instance collection_range_instance : GoRange | 100 := sorted_range.

Definition ex_uuid (n : nat) : string := String (ascii_of_nat n) EmptyString.
Definition ex_list : Collection := NewCollection ex_node (TBNode (MkBNode "B:head")).
Definition ex_item : Term := TURIRef (ex_iri "item").

Lemma collection_walk_terminates_witness :
  ∃ l, c_nodes None ex_list ex_store = Ok <$> (c_head ex_list :: l) ∧ NoDup (TermKey <$> c_head ex_list :: l).
Proof. exact (collection_walk_terminates (St := MemoryStore) ex_store ex_list ex_store_ok). Defined.

Lemma ex_graph_of : graph_of ex_store ex_node = graph_add ∅ ex_triple.
Proof.
  unfold graph_of. change (sabs ex_store) with (ms_abs (store_run NewMemoryStore [DsAdd ex_triple ex_graph])).
  rewrite (proj2 (ms_run_ok [DsAdd ex_triple ex_graph])). unfold ds_run. cbn [foldl ds_step].
  change (identifier ex_node) with ex_graph. unfold ds_add. by rewrite ds_update_same.
Qed.

(** A graph without list triples: its collection is empty. *)
Lemma ex_list_holds : holds (graph_of ex_store (c_graph ex_list)) (c_head ex_list) [c_head ex_list] [].
Proof.
  assert (Hno : ∀ p, uri_ok p → uri_key p ≠ uri_key (Predicate ex_triple) → no_value (graph_of ex_store ex_node) (c_head ex_list) p).
  { intros p Hp Hne. unfold no_value. rewrite ex_graph_of. rewrite matching_add_other; [apply matching_empty|].
    apply not_true_iff_false. rewrite value_pattern_matches; [|by exists "head"|done]. intros [_ He]. by destruct Hne. }
  unfold holds. split; [|split; [|split]].
  - apply Forall_singleton. unfold list_node. split; [by exists "head"|split; reflexivity].
  - apply NoDup_singleton.
  - reflexivity.
  - split; [reflexivity|]. split; apply Hno; first [reflexivity|done|by vm_compute].
Qed.

Lemma collection_reads_list_witness :
  c_Iter None ex_list ex_store = Ok <$> [] ∧
  c_Len None ex_list ex_store = Ok (Z.of_nat 0) ∧
  (∀ i, (0 ≤ i)%Z → c_Get None ex_list i ex_store = Ok (([] : list Term) !! Z.to_nat i)) ∧
  (∀ item, c_Index None ex_list item ex_store = Ok (index_of item 0 [])).
Proof.
  exact (collection_reads_list (St := MemoryStore) ex_store ex_list [c_head ex_list] [] ex_store_ok ex_list_holds).
Defined.

Lemma collection_append_witness :
  ∃ st' k nodes', c_Append ex_uuid None ex_list ex_item ex_store 0 = (Ok tt, st', k) ∧ sinv st' ∧
    holds (graph_of st' (c_graph ex_list)) (c_head ex_list) nodes' ([] ++ [ex_item]).
Proof.
  refine (collection_append (St := MemoryStore) ex_uuid ex_store ex_list ex_item 0 [c_head ex_list] [] _ _ ex_store_ok ex_list_holds eq_refl _).
  intros t Ht. apply graph_triples_elem in Ht; [|apply graph_of_keyed, ex_store_ok]. revert Ht.
  change (c_graph ex_list) with ex_node. rewrite ex_graph_of.
  destruct (graph_all_add (λ t, keyAt t posS ≠ TermKey (TBNode (MkBNode "B:N00"))) ∅ ex_triple) as [_ Hall].
  - apply graph_all_empty.
  - by vm_compute.
  - intros Ht. exact (Hall _ _ Ht).
Defined.

Lemma collection_clear_witness :
  ∃ st', c_Clear None ex_list ex_store = (Ok tt, st') ∧ sinv st' ∧
    graph_of st' (c_graph ex_list) =
      filter (λ kt : tkey_t * Triple, list_triple [c_head ex_list] kt.2 = false) (graph_of ex_store (c_graph ex_list)) ∧
    holds (graph_of st' (c_graph ex_list)) (c_head ex_list) [c_head ex_list] [].
Proof.
  exact (collection_clear (St := MemoryStore) ex_store ex_list [c_head ex_list] [] ex_store_ok ex_list_holds).
Defined.

(** Two items appended and read back. *)
Example append_twice :
  let '(_, st1, n1) := c_Append ex_uuid None ex_list ex_item ex_store 0 in
  let '(_, st2, n2) := c_Append ex_uuid None ex_list (TURIRef (ex_iri "other")) st1 n1 in
  c_Iter None ex_list st2 = [Ok ex_item; Ok (TURIRef (ex_iri "other"))].
Proof. by vm_compute. Qed.
