(* ===== verification/LiteralValue.v ===== *)
(** * Equality in the XSD value space

    [term/literal_value.go]: [Literal.ValueEqual], its integer fast path, and the
    parsers of the lexical spaces.  An [int64] is a [Z]; the bounds theorem of the
    dateTime parser shows that no value leaves the width. *)

From S2P Require Import Prelude GoStrings Strconv Term.
From Stdlib Require Import SpecFloat QArith.QArith.
From stdpp Require Import options.

#[local] Open Scope string_scope.
#[local] Open Scope Z_scope.

(** ** The code *)

(** [nil] is [None]; [lo] and [hi] are the bounds clamped by [init]. *)
Record integerRange := MkRange { ir_min : option Z; ir_max : option Z; lo : Z; hi : Z }.

Definition clamp (bound : option Z) (unbounded : Z) : Z :=
  match bound with
  | Some z => if in_int64 z then z else unbounded
  | None => unbounded
  end.
Definition init_range (r : option Z * option Z) : integerRange :=
  MkRange r.1 r.2 (clamp r.1 min_int64) (clamp r.2 max_int64).

Definition integerDatatypes : gmap string integerRange :=
  init_range <$> list_to_map (M := gmap string (option Z * option Z))
    [(XSDNamespace +:+ "integer", (None, None));
     (XSDNamespace +:+ "nonPositiveInteger", (None, Some 0));
     (XSDNamespace +:+ "negativeInteger", (None, Some (-1)));
     (XSDNamespace +:+ "nonNegativeInteger", (Some 0, None));
     (XSDNamespace +:+ "positiveInteger", (Some 1, None));
     (XSDNamespace +:+ "long", (Some (-9223372036854775808), Some 9223372036854775807));
     (XSDNamespace +:+ "int", (Some (-2147483648), Some 2147483647));
     (XSDNamespace +:+ "short", (Some (-32768), Some 32767));
     (XSDNamespace +:+ "byte", (Some (-128), Some 127));
     (XSDNamespace +:+ "unsignedLong", (Some 0, Some 18446744073709551615));
     (XSDNamespace +:+ "unsignedInt", (Some 0, Some 4294967295));
     (XSDNamespace +:+ "unsignedShort", (Some 0, Some 65535));
     (XSDNamespace +:+ "unsignedByte", (Some 0, Some 255))].

Definition allDigits (s : string) : bool :=
  match s with
  | EmptyString => false
  | _ => sforall is_digit s
  end.

(** Two parse results: [None] is an ill-typed form. *)
Definition sameValue {A} (x y : option A) (a b : string) (eq : A → A → bool) : bool :=
  match x, y with
  | Some x, Some y => eq x y
  | None, None => String.eqb a b
  | _, _ => false
  end.

Definition below (b : option Z) (v : Z) : bool := match b with Some m => v <? m | None => false end.
Definition above (b : option Z) (v : Z) : bool := match b with Some m => m <? v | None => false end.

Definition parseXSDInteger (s : string) (r : integerRange) : option Z :=
  let digits := TrimLeftP is_sign s in
  if (1 <? len s - len digits)%nat || negb (allDigits digits) then None
  else match ParseBig s with
       | None => None
       | Some v => if below (ir_min r) v || above (ir_max r) v then None else Some v
       end.

(** The result is [small], and then the value when the form is in the lexical
    space and the range. *)
Definition smallXSDInteger (s : string) (r : integerRange) : bool * option Z :=
  let digits := (split_sign s).2 in
  if (18 <? len digits)%nat then (false, None)
  else if negb (allDigits digits) then (true, None)
  else match ParseInt64 s with
       | None => (true, None)
       | Some v => if (v <? lo r) || (hi r <? v) then (true, None) else (true, Some v)
       end.

(** The exact value, a fraction. *)
Definition parseXSDDecimal (s : string) : option Q :=
  let '(neg, body) := split_sign s in
  let '(intPart, frac, hasDot) := CutByte body "." in
  if (negb (allDigits intPart) && negb (is_empty intPart)) || (negb (allDigits frac) && negb (is_empty frac)) then None
  else if is_empty intPart && (is_empty frac || negb hasDot) then None
  else let n := digits_value (intPart +:+ frac) in
       Some (Qmake (if neg then - n else n) (Z.to_pos (10 ^ Z.of_nat (len frac)))).

Definition float_format (bitSize : Z) : Z * Z := if bitSize =? 32 then (24, 128) else (53, 1024).

Definition parseXSDFloat (s : string) (bitSize : Z) : option spec_float :=
  if String.eqb s "INF" || String.eqb s "+INF" then Some (S754_infinity false)
  else if String.eqb s "-INF" then Some (S754_infinity true)
  else if String.eqb s "NaN" then Some S754_nan
  else
    let '(mantissa, exp_ok) :=
      match IndexP is_exp_mark s with
      | Some i => (stake i s, allDigits (split_sign (sdrop (S i) s)).2)
      | None => (s, true)
      end in
    if negb exp_ok then None
    else match parseXSDDecimal mantissa with
         | None => None
         | Some _ => let '(prec, emax) := float_format bitSize in Some (ParseFloat prec emax s)
         end.

Definition parseXSDBoolean (s : string) : option bool :=
  if String.eqb s "true" || String.eqb s "1" then Some true
  else if String.eqb s "false" || String.eqb s "0" then Some false
  else None.

Record dateTimeValue := MkDateTime { days : Z; seconds : Z; frac : string; timezone : bool }.

Definition dt_equal (v o : dateTimeValue) : bool :=
  Bool.eqb (timezone v) (timezone o) && (days v =? days o) && (seconds v =? seconds o) && String.eqb (frac v) (frac o).

Definition twoDigits (s : string) : option Z :=
  if negb (len s =? 2)%nat || negb (allDigits s) then None
  else match s with
       | String c (String d _) => Some (digit_val c * 10 + digit_val d)
       | _ => None
       end.

(** Go's [/] and [%] truncate. *)
Definition isLeapYear (y : Z) : bool :=
  (Z.rem y 4 =? 0) && (negb (Z.rem y 100 =? 0) || (Z.rem y 400 =? 0)).

Definition daysInMonth (y m : Z) : Z :=
  if m =? 2 then if isLeapYear y then 29 else 28
  else if (m =? 4) || (m =? 6) || (m =? 9) || (m =? 11) then 30
  else 31.

Definition floorDiv (a b : Z) : Z :=
  let q := Z.quot a b in
  if negb (Z.rem a b =? 0) && negb (Bool.eqb (a <? 0) (b <? 0)) then q - 1 else q.

Definition daysFromCivil (y m d : Z) : Z :=
  let y := if m <=? 2 then y - 1 else y in
  let era := floorDiv y 400 in
  let yoe := y - era * 400 in
  let mp := Z.rem (m + 9) 12 in
  let doy := Z.quot (153 * mp + 2) 5 + d - 1 in
  let doe := yoe * 365 + Z.quot yoe 4 - Z.quot yoe 100 + doy in
  era * 146097 + doe.

(** The number of leading digits. *)
Fixpoint digit_run (s : string) : nat :=
  match s with
  | String c s => if is_digit c then S (digit_run s) else O
  | EmptyString => O
  end.

(** The fraction after the seconds, without its trailing zeros, and the rest. *)
Definition parse_fraction (rest : string) : option (string * string) :=
  match rest with
  | String "." tail =>
      match digit_run tail with
      | O => None
      | n => Some (TrimRightP (Ascii.eqb "0") (stake n tail), sdrop n tail)
      end
  | _ => Some (EmptyString, rest)
  end.

(** The timezone: whether there is one, and its offset in seconds. *)
Definition parse_zone (rest : string) : option (bool * Z) :=
  if is_empty rest then Some (false, 0)
  else if String.eqb rest "Z" then Some (true, 0)
  else
    let sign := byte_at rest 0 in
    if (len rest =? 6)%nat && bool_decide (sign = Some "+"%char ∨ sign = Some "-"%char)
       && bool_decide (byte_at rest 3 = Some ":"%char) then
      match twoDigits (stake 2 (sdrop 1 rest)), twoDigits (stake 2 (sdrop 4 rest)) with
      | Some th, Some tm =>
          if (59 <? tm) || (14 <? th) || ((th =? 14) && negb (tm =? 0)) then None
          else let offset := (th * 60 + tm) * 60 in
               Some (true, if bool_decide (sign = Some "-"%char) then - offset else offset)
      | _, _ => None
      end
    else None.

Definition valid_clock (hour minute second : Z) (frac : string) : bool :=
  (minute <=? 59) && (second <=? 59) &&
  (if hour =? 24 then (minute =? 0) && (second =? 0) && is_empty frac else hour <=? 23).

(** The checks and the normalization after the fields are read. *)
Definition make_dateTime (year month day hour minute second : Z) (frac : string) (zone : option (bool * Z))
    : option dateTimeValue :=
  if (month <? 1) || (12 <? month) || (day <? 1) || (daysInMonth year month <? day) then None
  else if negb (valid_clock hour minute second frac) then None
  else match zone with
       | None => None
       | Some (tz, offset) =>
           let days := daysFromCivil year month day in
           let secs := hour * 3600 + minute * 60 + second - offset in
           Some (MkDateTime (days + floorDiv secs 86400) (secs - floorDiv secs 86400 * 86400) frac tz)
       end.

Definition valid_year (yearStr : string) : bool :=
  (4 <=? len yearStr)%nat && (len yearStr <=? 12)%nat && allDigits yearStr &&
  negb ((4 <? len yearStr)%nat && bool_decide (byte_at yearStr 0 = Some "0"%char)).

Definition parseXSDDateTime (s : string) : option dateTimeValue :=
  let '(neg, rest) := match CutPrefix s "-" with Some r => (true, r) | None => (false, s) end in
  let '(yearStr, rest, ok) := CutByte rest "-" in
  if negb ok || negb (valid_year yearStr) then None
  else
    let year := default 0 (ParseInt64 yearStr) in
    let year := if neg then - year else year in
    if (len rest <? 14)%nat || negb (bool_decide (byte_at rest 2 = Some "-"%char))
       || negb (bool_decide (byte_at rest 5 = Some "T"%char)) || negb (bool_decide (byte_at rest 8 = Some ":"%char))
       || negb (bool_decide (byte_at rest 11 = Some ":"%char)) then None
    else
      match twoDigits (stake 2 rest), twoDigits (stake 2 (sdrop 3 rest)), twoDigits (stake 2 (sdrop 6 rest)),
            twoDigits (stake 2 (sdrop 9 rest)), twoDigits (stake 2 (sdrop 12 rest)) with
      | Some month, Some day, Some hour, Some minute, Some second =>
          match parse_fraction (sdrop 14 rest) with
          | None => None
          | Some (frac, rest) => make_dateTime year month day hour minute second frac (parse_zone rest)
          end
      | _, _, _, _, _ => None
      end.

(** [strings.EqualFold] on language tags, which are ASCII. *)
Definition EqualFold (s t : string) : bool := String.eqb (ToLower s) (ToLower t).

Definition is_lang_type (dt : URIRef) : bool := bool_decide (dt = RDFLangString ∨ dt = RDFDirLangString).

Definition valueEqual (l other : Literal) : bool :=
  let dt := datatype l in
  if negb (bool_decide (dt = datatype other)) then false
  else
    let a := lexical l in
    let b := lexical other in
    let same := String.eqb a b && negb (is_lang_type dt) &&
                negb (bool_decide (dt = XSDDouble ∨ dt = XSDFloat) && String.eqb a "NaN") in
    if same then true
    else
      match integerDatatypes !! URIRef_value dt with
      | Some r =>
          let '(smallA, x) := smallXSDInteger a r in
          let '(smallB, y) := smallXSDInteger b r in
          if smallA && smallB then sameValue x y a b Z.eqb
          else sameValue (parseXSDInteger a r) (parseXSDInteger b r) a b Z.eqb
      | None =>
          if decide (dt = XSDDecimal) then sameValue (parseXSDDecimal a) (parseXSDDecimal b) a b Qeq_bool
          else if decide (dt = XSDDouble ∨ dt = XSDFloat) then
            let bits := if decide (dt = XSDFloat) then 32 else 64 in
            sameValue (parseXSDFloat a bits) (parseXSDFloat b bits) a b SFeqb
          else if decide (dt = XSDBoolean) then sameValue (parseXSDBoolean a) (parseXSDBoolean b) a b Bool.eqb
          else if decide (dt = XSDDateTime) then sameValue (parseXSDDateTime a) (parseXSDDateTime b) a b dt_equal
          else if is_lang_type dt then
            String.eqb a b && EqualFold (lang l) (lang other) && String.eqb (dir l) (dir other)
          else String.eqb a b
      end.

Definition ValueEqual (l other : Literal) : bool := valueEqual l other.

(** ** Integers *)

Lemma digit_not_sign c : is_digit c = true → is_sign c = false.
Proof. byte_cases c. Qed.

Lemma allDigits_spec s : allDigits s = true ↔ s ≠ EmptyString ∧ all_digits s = true.
Proof. destruct s; cbn; naive_solver. Qed.

Lemma TrimLeft_digits s : all_digits s = true → TrimLeftP is_sign s = s.
Proof. destruct s as [|c s]; [done|]. cbn. intros [Hc _]%andb_true_iff. by rewrite digit_not_sign. Qed.

Lemma len_TrimLeft p s : (len (TrimLeftP p s) ≤ len s)%nat.
Proof. induction s as [|c s IH]; cbn; [done|]. destruct (p c); [|done]. rewrite len_cons. lia. Qed.

(** Both integer parsers accept one optional sign and then digits. *)
Lemma sign_digits s :
  negb ((1 <? len s - len (TrimLeftP is_sign s))%nat || negb (allDigits (TrimLeftP is_sign s))) = allDigits (split_sign s).2.
Proof.
  destruct s as [|c s]; [done|]. cbn [TrimLeftP split_sign]. destruct (is_sign c) eqn:Hc; cbn [snd].
  - destruct s as [|d s]; [done|]. cbn [TrimLeftP]. destruct (is_sign d) eqn:Hd.
    + pose proof (len_TrimLeft is_sign s). rewrite !len_cons.
      rewrite (proj2 (Nat.ltb_lt 1 _)) by lia. cbn. destruct (is_digit d) eqn:E; [|done].
      by rewrite digit_not_sign in Hd.
    + rewrite !len_cons, (proj2 (Nat.ltb_ge 1 _)) by lia. cbn [orb]. by rewrite negb_involutive.
  - rewrite Nat.sub_diag. cbn [orb Nat.ltb Nat.leb]. by rewrite negb_involutive.
Qed.

Lemma digits_acc_bound acc s v : 0 <= acc → digits_acc acc s = Some v →
  acc * 10 ^ Z.of_nat (len s) <= v < (acc + 1) * 10 ^ Z.of_nat (len s).
Proof.
  revert acc. induction s as [|c s IH]; cbn [digits_acc]; intros acc Hacc Hv.
  { injection Hv as <-. rewrite len_nil, Z.mul_1_r, Z.mul_1_r. lia. }
  destruct (is_digit c) eqn:Hc; [|done].
  assert (Hd : 0 <= digit_val c <= 9) by (clear -Hc; revert Hc; byte_cases c).
  apply IH in Hv; [|lia]. rewrite len_cons, Nat2Z.inj_succ, Z.pow_succ_r by lia.
  pose proof (Z.pow_pos_nonneg 10 (Z.of_nat (len s))). nia.
Qed.

Lemma ParseBig_small s : allDigits (split_sign s).2 = true → (len (split_sign s).2 ≤ 18)%nat →
  ∃ v, ParseBig s = Some v ∧ in_int64 v = true.
Proof.
  intros [Hne Hd]%allDigits_spec Hl. unfold ParseBig. destruct (split_sign s) as [neg body]. cbn [snd] in *.
  destruct (proj2 (digits_acc_is_Some 0 body) Hd) as [n Hn]. rewrite Hn.
  pose proof (digits_acc_bound 0 body n ltac:(lia) Hn) as Hb.
  pose proof (Z.pow_le_mono_r 10 (Z.of_nat (len body)) 18 ltac:(lia) ltac:(lia)).
  destruct body; [done|]. cbn [fmap option_fmap option_map]. eexists. split; [done|].
  unfold in_int64, min_int64, max_int64. apply andb_true_iff. rewrite !Z.leb_le. destruct neg; lia.
Qed.

(** The bounds [init] clamps are those of the range. *)
Definition range_ok (r : integerRange) : Prop :=
  ∀ v, in_int64 v = true → ((v <? lo r) || (hi r <? v)) = (below (ir_min r) v || above (ir_max r) v).

Lemma init_range_ok p :
  match p.1 with Some z => z <= max_int64 | None => True end →
  match p.2 with Some z => min_int64 <= z | None => True end →
  match p.1 with Some z => in_int64 z = true | None => True end →
  range_ok (init_range p).
Proof.
  destruct p as [mn mx]; cbn [fst snd]. intros _ Hmx Hmn v [Hv1 Hv2]%andb_true_iff.
  rewrite Z.leb_le in Hv1, Hv2. unfold init_range, clamp; cbn [lo hi ir_min ir_max fst snd below above].
  f_equal.
  - destruct mn as [z|]; [by rewrite Hmn|]. by apply Z.ltb_ge.
  - destruct mx as [z|]; [|by apply Z.ltb_ge]. destruct (in_int64 z) eqn:E; [done|].
    apply andb_false_iff in E. rewrite !Z.leb_gt in E. transitivity false; [by apply Z.ltb_ge|].
    symmetry. apply Z.ltb_ge. cbn [above]. lia.
Qed.

Lemma integerDatatypes_ok dt r : integerDatatypes !! dt = Some r → range_ok r.
Proof.
  unfold integerDatatypes. rewrite lookup_fmap. intros (p & Hp & ->)%fmap_Some.
  apply elem_of_list_to_map_2 in Hp.
  repeat (apply elem_of_cons in Hp as [Hp|Hp]; [injection Hp as _ ->; by apply init_range_ok|]).
  by apply elem_of_nil in Hp.
Qed.

Lemma small_integer s r v :
  range_ok r → smallXSDInteger s r = (true, v) → parseXSDInteger s r = v.
Proof.
  intros Hr. unfold smallXSDInteger, parseXSDInteger. pose proof (sign_digits s) as Hs.
  destruct (18 <? _)%nat eqn:Hl; [done|]. apply Nat.ltb_ge in Hl.
  destruct (_ || _) eqn:E in Hs |- *; cbn [negb] in Hs; rewrite <- Hs; cbn [negb].
  - by intros [= <-].
  - destruct (ParseBig_small s (eq_sym Hs) Hl) as (z & Hz & Hin). unfold ParseInt64. rewrite Hz, Hin, (Hr z Hin).
    destruct (below (ir_min r) z || above (ir_max r) z); congruence.
Qed.

(** ** The value spaces

    What [ValueEqual] decides, without its shortcuts. *)

Inductive xsd_value :=
  | VInteger (z : Z)
  | VDecimal (q : Q)
  | VFloat (f : spec_float)
  | VBoolean (b : bool)
  | VDateTime (v : dateTimeValue).

(** The lexical-to-value mapping of a datatype; [None] when it is not one of the
    value spaces implemented. *)
Definition lexical_mapping (dt : URIRef) : option (string → option xsd_value) :=
  match integerDatatypes !! URIRef_value dt with
  | Some r => Some (λ s, VInteger <$> parseXSDInteger s r)
  | None =>
      if decide (dt = XSDDecimal) then Some (λ s, VDecimal <$> parseXSDDecimal s)
      else if decide (dt = XSDFloat) then Some (λ s, VFloat <$> parseXSDFloat s 32)
      else if decide (dt = XSDDouble) then Some (λ s, VFloat <$> parseXSDFloat s 64)
      else if decide (dt = XSDBoolean) then Some (λ s, VBoolean <$> parseXSDBoolean s)
      else if decide (dt = XSDDateTime) then Some (λ s, VDateTime <$> parseXSDDateTime s)
      else None
  end.

(** Equality of values: of numbers by value, with NaN unequal to itself. *)
Definition value_eq (x y : xsd_value) : Prop :=
  match x, y with
  | VInteger a, VInteger b => a = b
  | VDecimal a, VDecimal b => Qeq a b
  | VFloat a, VFloat b => SFeqb a b = true
  | VBoolean a, VBoolean b => a = b
  | VDateTime a, VDateTime b => a = b
  | _, _ => False
  end.

(** Two lexical forms of one datatype: equal values, or one ill-typed form. *)
Definition same_value (f : string → option xsd_value) (a b : string) : Prop :=
  match f a, f b with
  | Some x, Some y => value_eq x y
  | None, None => a = b
  | _, _ => False
  end.

Definition value_identical (l m : Literal) : Prop :=
  datatype l = datatype m ∧
  match lexical_mapping (datatype l) with
  | Some f => same_value f (lexical l) (lexical m)
  | None => lexical l = lexical m ∧
            (is_lang_type (datatype l) = true → ToLower (lang l) = ToLower (lang m) ∧ dir l = dir m)
  end.

Lemma dt_equal_spec v o : dt_equal v o = true ↔ v = o.
Proof.
  unfold dt_equal. rewrite !andb_true_iff, Bool.eqb_true_iff, !Z.eqb_eq, String.eqb_eq.
  destruct v, o; cbn. naive_solver.
Qed.

Lemma sameValue_spec {A} (inj : A → xsd_value) (x y : option A) a b eq (f : string → option xsd_value) :
  f a = inj <$> x → f b = inj <$> y → (∀ u v, eq u v = true ↔ value_eq (inj u) (inj v)) →
  sameValue x y a b eq = true ↔ same_value f a b.
Proof.
  intros Ha Hb Heq. unfold sameValue, same_value. rewrite Ha, Hb.
  destruct x, y; cbn [fmap option_fmap option_map]; try done. by rewrite String.eqb_eq.
Qed.

(** A float that is not NaN equals itself. *)
Lemma SFeqb_refl f : f ≠ S754_nan → SFeqb f f = true.
Proof.
  assert (Hp : ∀ p, Pos.compare_cont Eq p p = Eq) by (intros p; apply Pos.compare_refl).
  destruct f as [|[]| |[] m e]; cbn; try done; intros _; unfold SFeqb; cbn; by rewrite Z.compare_refl, Hp.
Qed.

Lemma SFcompare_eq x y : SFeqb x y = true ↔
  match x, y with
  | S754_zero _, S754_zero _ => True
  | S754_infinity s, S754_infinity s' => s = s'
  | S754_finite s m e, S754_finite s' m' e' => s = s' ∧ m = m' ∧ e = e'
  | _, _ => False
  end.
Proof.
  unfold SFeqb.
  destruct x as [s|[]| |[] m e], y as [s'|[]| |[] m' e']; cbn; try naive_solver;
    change (Pos.compare_cont Eq m m') with (Pos.compare m m');
    destruct (Z.compare_spec e e'), (Pos.compare_spec m m'); cbn; (split; [done || by intros _|]); naive_solver lia.
Qed.

(** Only the form "NaN" denotes NaN. *)
Lemma parseXSDFloat_nan s bits : parseXSDFloat s bits = Some S754_nan → s = "NaN".
Proof.
  unfold parseXSDFloat. destruct (_ || _); [done|]. destruct (String.eqb s "-INF"); [done|].
  destruct (String.eqb s "NaN") eqn:E; [by apply String.eqb_eq in E|].
  destruct (match IndexP is_exp_mark s with Some i => _ | None => _ end) as [mantissa ok].
  destruct (negb ok); [done|]. destruct (parseXSDDecimal mantissa); [|done].
  destruct (float_format bits) as [prec emax]. intros [= Hn]. exfalso. revert Hn. unfold ParseFloat.
  destruct (split_sign s) as [neg body]. destruct (match IndexP is_exp_mark body with Some i => _ | None => _ end) as [m e].
  destruct (CutByte m ".") as [[int fr] ok']. apply decimal_to_float_not_nan.
Qed.

(** A lexical form has the value of itself, unless it is NaN. *)
Lemma same_value_refl dt f a :
  lexical_mapping dt = Some f → ¬ ((dt = XSDDouble ∨ dt = XSDFloat) ∧ a = "NaN") → same_value f a a.
Proof.
  intros Hf Hn. unfold same_value. destruct (f a) as [x|] eqn:Hx; [|done].
  revert Hf. unfold lexical_mapping. destruct (integerDatatypes !! _) as [r|].
  { intros [= <-]. by apply fmap_Some in Hx as (z & _ & ->). }
  repeat (destruct (decide _) as [Hd|?]; [intros [= <-]; apply fmap_Some in Hx as (z & Hz & ->)|]); try done; cbn.
  all: apply SFeqb_refl; intros ->; apply Hn; split; [auto|by eapply parseXSDFloat_nan].
Qed.

(** The integer branch, with its fast path, compares the values. *)
Lemma integer_branch r a b :
  range_ok r →
  (let '(smallA, x) := smallXSDInteger a r in
   let '(smallB, y) := smallXSDInteger b r in
   if smallA && smallB then sameValue x y a b Z.eqb
   else sameValue (parseXSDInteger a r) (parseXSDInteger b r) a b Z.eqb)
  = sameValue (parseXSDInteger a r) (parseXSDInteger b r) a b Z.eqb.
Proof.
  intros Hr. destruct (smallXSDInteger a r) as [[] x] eqn:Ha; [|by destruct (smallXSDInteger b r)].
  destruct (smallXSDInteger b r) as [[] y] eqn:Hb; [|done]. cbn [andb].
  by rewrite (small_integer a r x Hr Ha), (small_integer b r y Hr Hb).
Qed.

Lemma is_lang_type_spec dt : is_lang_type dt = true ↔ dt = RDFLangString ∨ dt = RDFDirLangString.
Proof. unfold is_lang_type. apply bool_decide_eq_true. Qed.

(** The language types have no lexical mapping here. *)
Lemma lang_type_mapping dt : is_lang_type dt = true → lexical_mapping dt = None.
Proof. intros [-> | ->]%is_lang_type_spec; by vm_compute. Qed.

(** The comparison after the shortcut for identical forms. *)
Lemma mapped_branch dt f (a b : string) :
  lexical_mapping dt = Some f →
  match integerDatatypes !! URIRef_value dt with
  | Some r => sameValue (parseXSDInteger a r) (parseXSDInteger b r) a b Z.eqb
  | None =>
      if decide (dt = XSDDecimal) then sameValue (parseXSDDecimal a) (parseXSDDecimal b) a b Qeq_bool
      else if decide (dt = XSDDouble ∨ dt = XSDFloat) then
        sameValue (parseXSDFloat a (if decide (dt = XSDFloat) then 32 else 64))
          (parseXSDFloat b (if decide (dt = XSDFloat) then 32 else 64)) a b SFeqb
      else if decide (dt = XSDBoolean) then sameValue (parseXSDBoolean a) (parseXSDBoolean b) a b Bool.eqb
      else if decide (dt = XSDDateTime) then sameValue (parseXSDDateTime a) (parseXSDDateTime b) a b dt_equal
      else String.eqb a b
  end = true ↔ same_value f a b.
Proof.
  unfold lexical_mapping. destruct (integerDatatypes !! URIRef_value dt) as [r|].
  { intros [= <-]. apply (sameValue_spec VInteger); [done..|]. intros u v. apply Z.eqb_eq. }
  destruct (decide (dt = XSDDecimal)).
  { intros [= <-]. apply (sameValue_spec VDecimal); [done..|]. intros u v. apply Qeq_bool_iff. }
  destruct (decide (dt = XSDFloat)) as [Hf|Hf].
  { intros [= <-]. rewrite decide_True by auto. by apply (sameValue_spec VFloat). }
  destruct (decide (dt = XSDDouble)) as [Hd|Hd].
  { intros [= <-]. rewrite decide_True by auto. by apply (sameValue_spec VFloat). }
  rewrite (decide_False (P := dt = XSDDouble ∨ dt = XSDFloat)) by (intros [?|?]; contradiction).
  destruct (decide (dt = XSDBoolean)).
  { intros [= <-]. apply (sameValue_spec VBoolean); [done..|]. intros u v. apply Bool.eqb_true_iff. }
  destruct (decide (dt = XSDDateTime)); [|done].
  intros [= <-]. apply (sameValue_spec VDateTime); [done..|]. apply dt_equal_spec.
Qed.

Lemma and_true_l (P Q R : Prop) : P → (R ↔ Q) → (R ↔ P ∧ Q).
Proof. tauto. Qed.

Lemma float_mapping dt bits :
  (dt = XSDDouble ∧ bits = 64) ∨ (dt = XSDFloat ∧ bits = 32) →
  lexical_mapping dt = Some (λ s, VFloat <$> parseXSDFloat s bits).
Proof.
  assert (Hd : integerDatatypes !! URIRef_value XSDDouble = None) by (vm_compute; reflexivity).
  assert (Hf : integerDatatypes !! URIRef_value XSDFloat = None) by (vm_compute; reflexivity).
  unfold lexical_mapping. intros [[-> ->]|[-> ->]].
  - rewrite Hd. rewrite decide_False by discriminate. rewrite decide_False by discriminate.
    rewrite decide_True by reflexivity. reflexivity.
  - rewrite Hf. rewrite decide_False by discriminate. rewrite decide_True by reflexivity. reflexivity.
Qed.

Lemma nan_unequal bits : bits = 32 ∨ bits = 64 → ¬ same_value (λ s, VFloat <$> parseXSDFloat s bits) "NaN" "NaN".
Proof. intros [-> | ->]; vm_compute; discriminate. Qed.

Lemma valueEqual_identical l m : valueEqual l m = true ↔ value_identical l m.
Proof.
  unfold valueEqual, value_identical. set (dt := datatype l).
  case_bool_decide as Hdt; cbn [negb]; [|by split; [|intros [? _]]]. apply and_true_l; [exact Hdt|].
  set (a := lexical l); set (b := lexical m).
  destruct (lexical_mapping dt) as [f|] eqn:Hf.
  - destruct (is_lang_type dt) eqn:Hlt; [by rewrite lang_type_mapping in Hf|].
    rewrite <- (mapped_branch dt f a b Hf). cbn [negb]. rewrite andb_true_r.
    destruct (String.eqb a b && _) eqn:Hsame.
    + apply andb_true_iff in Hsame as [->%String.eqb_eq Hn]. split; [|done]. intros _.
      apply (mapped_branch dt f b b Hf), (same_value_refl dt f); [done|].
      rewrite negb_true_iff, andb_false_iff, bool_decide_eq_false, String.eqb_neq in Hn. destruct Hn; intros [? ?]; contradiction.
    + destruct (integerDatatypes !! URIRef_value dt) as [r|] eqn:Hr; [|done].
      rewrite integer_branch; [done|]. by eapply integerDatatypes_ok.
  - assert (Hno : integerDatatypes !! URIRef_value dt = None ∧ dt ≠ XSDDecimal ∧ dt ≠ XSDFloat ∧ dt ≠ XSDDouble ∧
      dt ≠ XSDBoolean ∧ dt ≠ XSDDateTime).
    { revert Hf. unfold lexical_mapping. destruct (integerDatatypes !! _); [done|].
      repeat (case_decide; [done|]). intros _. repeat split; assumption. }
    destruct Hno as (-> & ? & ? & ? & ? & ?). rewrite bool_decide_eq_false_2 by (intros [?|?]; contradiction).
    rewrite (decide_False (P := dt = XSDDecimal)), (decide_False (P := dt = XSDDouble ∨ dt = XSDFloat)),
      (decide_False (P := dt = XSDBoolean)), (decide_False (P := dt = XSDDateTime)) by first [assumption|intros [?|?]; contradiction].
    cbn [andb negb]. rewrite andb_true_r.
    destruct (is_lang_type dt); cbn [negb]; rewrite ?andb_false_r, ?andb_true_r.
    + unfold EqualFold. rewrite !andb_true_iff, !String.eqb_eq. tauto.
    + destruct (String.eqb_spec a b) as [E|E]; split.
      * intros _. split; [exact E|discriminate].
      * intros _. reflexivity.
      * discriminate.
      * intros [Hab _]. contradiction.
Qed.

Lemma value_eq_per x y z : (value_eq x y → value_eq y x) ∧ (value_eq x y → value_eq y z → value_eq x z).
Proof.
  destruct x, y; cbn; try done; (split; [|destruct z; try done]).
  - congruence.
  - congruence.
  - apply Qeq_sym.
  - apply Qeq_trans.
  - rewrite !SFcompare_eq. repeat case_match; naive_solver.
  - rewrite !SFcompare_eq. repeat case_match; naive_solver.
  - congruence.
  - congruence.
  - congruence.
  - congruence.
Qed.

Lemma same_value_per f a b c :
  (same_value f a b → same_value f b a) ∧ (same_value f a b → same_value f b c → same_value f a c).
Proof.
  unfold same_value. destruct (f a) as [x|], (f b) as [y|], (f c) as [z|]; try naive_solver; split; try done; try congruence;
    intros; by eapply (value_eq_per x y); eauto.
Qed.

(** [ValueEqual] is symmetric and transitive, and every literal is equal to
    itself except the floating-point NaN. *)
Theorem ValueEqual_equivalence : ∀ l m n,
  ValueEqual l m = ValueEqual m l ∧
  (ValueEqual l m = true → ValueEqual m n = true → ValueEqual l n = true) ∧
  (ValueEqual l l = false ↔ (datatype l = XSDDouble ∨ datatype l = XSDFloat) ∧ lexical l = "NaN").
Proof.
  assert (Hsym : ∀ l m, value_identical l m → value_identical m l).
  { intros l m [Hd Hv]. split; [done|]. rewrite <- Hd. destruct (lexical_mapping (datatype l)) as [f|].
    - by apply (same_value_per f (lexical l) (lexical m) (lexical l)).
    - destruct Hv as [Hl Hv]. split; [done|]. intros Ht. by destruct (Hv Ht). }
  intros l m n. unfold ValueEqual. split_and!.
  - apply eq_true_iff_eq. rewrite !valueEqual_identical. split; apply Hsym.
  - rewrite !valueEqual_identical. intros [Hd Hv] [Hd' Hv']. split; [congruence|]. rewrite <- Hd in Hv'.
    destruct (lexical_mapping (datatype l)) as [f|].
    + by apply (same_value_per f (lexical l) (lexical m) (lexical n)).
    + destruct Hv as [Hl Hv], Hv' as [Hl' Hv']. split; [congruence|]. intros Ht.
      destruct (Hv Ht) as [-> ->]. by apply Hv'.
  - rewrite <- not_true_iff_false, valueEqual_identical. unfold value_identical.
    destruct (lexical_mapping (datatype l)) as [f|] eqn:Hf.
    + split.
      * intros Hn. destruct (decide ((datatype l = XSDDouble ∨ datatype l = XSDFloat) ∧ lexical l = "NaN")) as [|Hd]; [done|].
        destruct Hn. split; [done|]. by apply (same_value_refl (datatype l) f).
      * intros [Hd Ha] [_ Hv]. rewrite Ha in Hv. destruct Hd as [Hd|Hd]; rewrite Hd in Hf.
        -- rewrite (float_mapping XSDDouble 64) in Hf by auto. injection Hf as <-. by apply (nan_unequal 64); [right|].
        -- rewrite (float_mapping XSDFloat 32) in Hf by auto. injection Hf as <-. by apply (nan_unequal 32); [left|].
    + split; [intros Hn; destruct Hn; repeat split; reflexivity|]. intros [[Hd|Hd] _]; rewrite Hd in Hf.
      * rewrite (float_mapping XSDDouble 64) in Hf by auto. discriminate.
      * rewrite (float_mapping XSDFloat 32) in Hf by auto. discriminate.
Qed.

(** ** Dates *)

Lemma floorDiv_div a b : 0 < b → floorDiv a b = a / b.
Proof.
  intros Hb. unfold floorDiv. destruct (Z.eqb_spec (Z.rem a b) 0) as [E|E]; cbn [negb andb].
  - Z.to_euclidean_division_equations. nia.
  - rewrite (proj2 (Z.ltb_ge b 0)) by lia. destruct (Z.ltb_spec a 0); cbn [Bool.eqb negb];
      Z.to_euclidean_division_equations; nia.
Qed.

Lemma isLeapYear_mod y : isLeapYear y = (y mod 4 =? 0) && (negb (y mod 100 =? 0) || (y mod 400 =? 0)).
Proof.
  assert (Hz : ∀ b, 0 < b → (Z.rem y b =? 0) = (y mod b =? 0)).
  { intros b Hb. apply eq_true_iff_eq. rewrite !Z.eqb_eq. Z.to_euclidean_division_equations. nia. }
  unfold isLeapYear. by rewrite !Hz.
Qed.

(** The days before the first of March of a year. *)
Definition year_days (y : Z) : Z := 365 * y + y / 4 - y / 100 + y / 400.

Lemma year_days_succ y : year_days y = year_days (y - 1) + 365 + (if isLeapYear y then 1 else 0).
Proof.
  rewrite isLeapYear_mod. unfold year_days.
  destruct (Z.eqb_spec (y mod 4) 0), (Z.eqb_spec (y mod 100) 0), (Z.eqb_spec (y mod 400) 0);
    cbn [andb orb negb]; Z.to_euclidean_division_equations; lia.
Qed.

(** The days of the months before [m] in a year that starts in March. *)
Definition month_offset (m : Z) : Z := (153 * ((m + 9) mod 12) + 2) / 5.

Lemma daysFromCivil_formula y m d :
  1 <= m <= 12 →
  daysFromCivil y m d = year_days (if m <=? 2 then y - 1 else y) + month_offset m + d - 1.
Proof.
  intros Hm. unfold daysFromCivil. set (y' := if m <=? 2 then y - 1 else y). rewrite floorDiv_div by lia.
  rewrite Z.rem_mod_nonneg by lia. assert (0 <= (m + 9) mod 12) by (apply Z.mod_pos_bound; lia).
  assert (0 <= y' - y' / 400 * 400 < 400) by (Z.to_euclidean_division_equations; lia).
  rewrite !Z.quot_div_nonneg by lia. unfold year_days, month_offset. Z.to_euclidean_division_equations. lia.
Qed.

Definition valid_date (y m d : Z) : Prop := 1 <= m <= 12 ∧ 1 <= d <= daysInMonth y m.

(** The calendar day after a date. *)
Definition next_day (y m d : Z) : Z * Z * Z :=
  if d <? daysInMonth y m then (y, m, d + 1)
  else if m <? 12 then (y, m + 1, 1)
  else (y + 1, 1, 1).

Lemma daysInMonth_pos y m : 28 <= daysInMonth y m <= 31.
Proof. unfold daysInMonth. repeat case_match; lia. Qed.

(** The months in order, and the first day of each. *)
Definition month_start (n : Z) : Z := daysFromCivil (n / 12) (n mod 12 + 1) 1.
Definition month_length (n : Z) : Z := daysInMonth (n / 12) (n mod 12 + 1).

Lemma month_start_succ n : month_start (n + 1) = month_start n + month_length n.
Proof.
  unfold month_start, month_length. set (y := n / 12). set (m := n mod 12 + 1).
  assert (Hm : 1 <= m <= 12) by (unfold m; Z.to_euclidean_division_equations; lia).
  assert (Hn : n = 12 * y + (m - 1)) by (unfold y, m; Z.to_euclidean_division_equations; lia).
  destruct (decide (m = 12)) as [Hd|Hd].
  - replace ((n + 1) / 12) with (y + 1) by (Z.to_euclidean_division_equations; lia).
    replace ((n + 1) mod 12 + 1) with 1 by (Z.to_euclidean_division_equations; lia).
    rewrite Hd, !daysFromCivil_formula by lia. change (month_offset 1) with 306. change (month_offset 12) with 275.
    unfold daysInMonth. cbn -[Z.add Z.sub year_days]. replace (y + 1 - 1) with y by lia. lia.
  - replace ((n + 1) / 12) with y by (Z.to_euclidean_division_equations; lia).
    replace ((n + 1) mod 12 + 1) with (m + 1) by (Z.to_euclidean_division_equations; lia).
    rewrite !daysFromCivil_formula by lia. pose proof (year_days_succ y) as Hy.
    assert (m = 1 ∨ m = 2 ∨ m = 3 ∨ m = 4 ∨ m = 5 ∨ m = 6 ∨ m = 7 ∨ m = 8 ∨ m = 9 ∨ m = 10 ∨ m = 11) as Hcases by lia.
    clearbody y m. unfold daysInMonth. clear -Hcases Hy.
    destruct Hcases as [->|[->|[->|[->|[->|[->|[->|[->|[->|[->| ->]]]]]]]]]];
      repeat match goal with
      | |- context [month_offset ?a] => let v := eval vm_compute in (month_offset a) in change (month_offset a) with v
      | |- context [?a <=? 2] => let v := eval vm_compute in (a <=? 2) in change (a <=? 2) with v
      end;
      cbn -[Z.add Z.sub year_days isLeapYear]; try lia.
    destruct (isLeapYear y); lia.
Qed.

Lemma month_start_le n k : 0 <= k → month_start n + month_length n <= month_start (n + 1 + k).
Proof.
  intros Hk. revert k Hk. apply natlike_ind.
  - rewrite Z.add_0_r, month_start_succ. lia.
  - intros k Hk IH. replace (n + 1 + Z.succ k) with (n + 1 + k + 1) by lia. rewrite month_start_succ.
    unfold month_length in IH |- * at 2. pose proof (daysInMonth_pos ((n + 1 + k) / 12) ((n + 1 + k) mod 12 + 1)).
    unfold month_length. unfold month_length in IH. lia.
Qed.

Lemma days_of_month y m d : 1 <= m <= 12 → daysFromCivil y m d = month_start (12 * y + m - 1) + d - 1.
Proof.
  intros Hm. unfold month_start.
  replace ((12 * y + m - 1) / 12) with y by (Z.to_euclidean_division_equations; lia).
  replace ((12 * y + m - 1) mod 12 + 1) with m by (Z.to_euclidean_division_equations; lia).
  rewrite !daysFromCivil_formula by lia. lia.
Qed.

Lemma month_length_of y m : 1 <= m <= 12 → month_length (12 * y + m - 1) = daysInMonth y m.
Proof.
  intros Hm. unfold month_length.
  replace ((12 * y + m - 1) / 12) with y by (Z.to_euclidean_division_equations; lia).
  by replace ((12 * y + m - 1) mod 12 + 1) with m by (Z.to_euclidean_division_equations; lia).
Qed.

(** A date in an earlier month has a smaller day number. *)
Lemma earlier_month y m d y' m' d' :
  valid_date y m d → valid_date y' m' d' → 12 * y + m < 12 * y' + m' → daysFromCivil y m d < daysFromCivil y' m' d'.
Proof.
  intros [Hm Hd] [Hm' Hd'] Hlt. rewrite !days_of_month by done.
  pose proof (month_start_le (12 * y + m - 1) (12 * y' + m' - 1 - (12 * y + m)) ltac:(lia)) as Hle.
  rewrite month_length_of in Hle by done.
  replace (12 * y + m - 1 + 1 + (12 * y' + m' - 1 - (12 * y + m))) with (12 * y' + m' - 1) in Hle by lia. lia.
Qed.

(** [daysFromCivil] counts the days of the Gregorian calendar from 0000-03-01:
    that date is 0, the day after a date has the next number, and no two dates
    share a number. *)
Theorem daysFromCivil_counts_days :
  daysFromCivil 0 3 1 = 0 ∧
  (∀ y m d, valid_date y m d →
     let '(y', m', d') := next_day y m d in valid_date y' m' d' ∧ daysFromCivil y' m' d' = daysFromCivil y m d + 1) ∧
  (∀ y m d y' m' d', valid_date y m d → valid_date y' m' d' → daysFromCivil y m d = daysFromCivil y' m' d' →
     y = y' ∧ m = m' ∧ d = d').
Proof.
  split_and!; [by vm_compute| |].
  - intros y m d [Hm Hd]. unfold next_day. destruct (Z.ltb_spec d (daysInMonth y m)) as [Hlt|Hge].
    { split; [by split; lia|]. rewrite !days_of_month by done. lia. }
    assert (d = daysInMonth y m) as -> by lia.
    pose proof (month_start_succ (12 * y + m - 1)) as Hs. rewrite month_length_of in Hs by done.
    destruct (Z.ltb_spec m 12) as [Hlt|Hge'].
    + pose proof (daysInMonth_pos y (m + 1)). split; [split; lia|]. rewrite !days_of_month by lia.
      replace (12 * y + (m + 1) - 1) with (12 * y + m - 1 + 1) by lia. lia.
    + pose proof (daysInMonth_pos (y + 1) 1). split; [split; lia|]. rewrite !days_of_month by lia.
      replace (12 * (y + 1) + 1 - 1) with (12 * y + m - 1 + 1) by lia. lia.
  - intros y m d y' m' d' H1 H2 He.
    destruct (Z.lt_trichotomy (12 * y + m) (12 * y' + m')) as [Hlt|[Heq|Hlt]].
    + pose proof (earlier_month _ _ _ _ _ _ H1 H2 Hlt). lia.
    + destruct H1 as [Hm Hd], H2 as [Hm' Hd']. assert (y = y' ∧ m = m') as [-> ->] by lia.
      rewrite !days_of_month in He by done. lia.
    + pose proof (earlier_month _ _ _ _ _ _ H2 H1 Hlt). lia.
Qed.

(** ** The dateTime lexical space *)

(** The timezone: absent, [Z], or an offset of at most 14 hours. *)
Inductive zone_form : string → bool → Z → Prop :=
  | zone_none : zone_form EmptyString false 0
  | zone_utc : zone_form "Z" true 0
  | zone_offset sg hh mm th tm :
      sg = "+"%char ∨ sg = "-"%char → twoDigits hh = Some th → twoDigits mm = Some tm →
      tm <= 59 → th < 14 ∨ (th = 14 ∧ tm = 0) →
      zone_form (String sg (hh +:+ String ":" mm)) true
        (if bool_decide (sg = "-"%char) then - ((th * 60 + tm) * 60) else (th * 60 + tm) * 60).

Definition fraction_text (fr : string) : string := if is_empty fr then EmptyString else String "." fr.

(** A lexical form and the instant it denotes. *)
Inductive dateTime_form (s : string) (v : dateTimeValue) : Prop :=
  dateTime_form_intro neg ys mos ds hs mis ss fr zn month day hour minute second tz off
    (Hs : s = (if (neg : bool) then "-" else EmptyString) +:+ ys +:+ String "-" (mos +:+ String "-" (ds +:+ String "T"
      (hs +:+ String ":" (mis +:+ String ":" (ss +:+ fraction_text fr +:+ zn))))))
    (Hy : valid_year ys = true)
    (Hmo : twoDigits mos = Some month) (Hd : twoDigits ds = Some day) (Hh : twoDigits hs = Some hour)
    (Hmi : twoDigits mis = Some minute) (Hsec : twoDigits ss = Some second)
    (Hfr : all_digits fr = true) (Hz : zone_form zn tz off)
    (Hdate : valid_date (if neg then - digits_value ys else digits_value ys) month day)
    (Hclock : valid_clock hour minute second (TrimRightP (Ascii.eqb "0") fr) = true)
    (Htz : timezone v = tz) (Hfrac : frac v = TrimRightP (Ascii.eqb "0") fr)
    (Hrange : 0 <= seconds v < 86400)
    (Hinstant : days v * 86400 + seconds v =
      daysFromCivil (if neg then - digits_value ys else digits_value ys) month day * 86400
      + hour * 3600 + minute * 60 + second - off).

Lemma digit_val_range c : is_digit c = true → 0 <= digit_val c <= 9.
Proof. byte_cases c. Qed.

Lemma twoDigits_inv x n : twoDigits x = Some n →
  ∃ c d, x = String c (String d EmptyString) ∧ is_digit c = true ∧ is_digit d = true ∧ 0 <= n <= 99.
Proof.
  unfold twoDigits, len. destruct x as [|c [|d [|e x]]]; cbn; try done.
  destruct (is_digit c) eqn:Hc; [|done]. destruct (is_digit d) eqn:Hd; [|done]. cbn. intros [= <-].
    exists c, d. pose proof (digit_val_range c Hc). pose proof (digit_val_range d Hd). split_and!; try done; lia.
Qed.

Lemma parse_zone_spec rest tz off : parse_zone rest = Some (tz, off) ↔ zone_form rest tz off.
Proof.
  split.
  - unfold parse_zone. destruct rest as [|sg rest]; [intros [= <- <-]; constructor|]. cbn [is_empty].
    destruct (String.eqb_spec (String sg rest) "Z") as [->|_]; [intros [= <- <-]; constructor|].
    destruct (_ && _ && _) eqn:E; [|done]. rewrite !andb_true_iff, !bool_decide_eq_true, Nat.eqb_eq in E.
    destruct E as [[Hl Hsg] Hc]. unfold len in Hl. cbn in Hl. injection Hl as Hl.
    destruct rest as [|h1 [|h2 [|c [|m1 [|m2 [|x rest]]]]]]; try done. cbn in Hc, Hsg. injection Hc as ->.
    cbn [sdrop stake].
    destruct (twoDigits (String h1 (String h2 EmptyString))) as [th|] eqn:Hh; [|done].
    destruct (twoDigits (String m1 (String m2 EmptyString))) as [tm|] eqn:Hm; [|done].
    destruct (_ || _ || _) eqn:Hr; [done|]. rewrite !orb_false_iff, andb_false_iff, !Z.ltb_ge, Z.eqb_neq, negb_false_iff, Z.eqb_eq in Hr.
    assert (Hsg' : sg = "+"%char ∨ sg = "-"%char) by naive_solver.
    assert (Htm : tm <= 59) by lia. assert (Hth : th < 14 ∨ (th = 14 ∧ tm = 0)) by lia.
    pose proof (zone_offset sg _ _ th tm Hsg' Hh Hm Htm Hth) as Hz.
    assert (Heq : bool_decide (byte_at (String sg (String h1 (String h2 (String ":" (String m1 (String m2 EmptyString)))))) 0 = Some "-"%char)
      = bool_decide (sg = "-"%char)) by (apply bool_decide_ext; cbn; naive_solver).
    rewrite Heq. intros [= <- <-]. exact Hz.
  - intros [| |sg hh mm th tm Hsg Hh Hm Htm Hth]; [done..|].
    destruct (twoDigits_inv _ _ Hh) as (h1 & h2 & -> & _), (twoDigits_inv _ _ Hm) as (m1 & m2 & -> & _).
    rewrite !sapp_cons, sapp_nil_l. unfold parse_zone. cbn [is_empty].
    destruct (String.eqb_spec (String sg (String h1 (String h2 (String ":" (String m1 (String m2 EmptyString)))))) "Z") as [|_]; [done|].
    cbn [byte_at sdrop stake]. rewrite (bool_decide_eq_true_2 (Some sg = Some "+"%char ∨ Some sg = Some "-"%char)) by naive_solver.
    rewrite (bool_decide_eq_true_2 (Some ":"%char = Some ":"%char)) by done. cbn [len String.length Nat.eqb andb].
    rewrite Hh, Hm. destruct (_ || _ || _) eqn:Hr.
    { rewrite !orb_true_iff, andb_true_iff, !Z.ltb_lt, Z.eqb_eq, negb_true_iff, Z.eqb_neq in Hr. lia. }
    do 2 f_equal. destruct Hsg as [-> | ->]; by vm_compute.
Qed.

Lemma digit_run_app d r : all_digits d = true → (match r with String c _ => is_digit c = false | EmptyString => True end) →
  digit_run (d +:+ r) = len d.
Proof.
  intros Hd Hr. induction d as [|c d IH].
  - rewrite sapp_nil_l. destruct r as [|c r]; [done|]. cbn [digit_run]. by rewrite Hr.
  - cbn in Hd. apply andb_true_iff in Hd as [Hc Hd]. rewrite sapp_cons, len_cons. cbn [digit_run]. by rewrite Hc, IH.
Qed.

Lemma digit_run_split s : all_digits (stake (digit_run s) s) = true ∧ len (stake (digit_run s) s) = digit_run s.
Proof.
  induction s as [|c s [IH1 IH2]]; [done|]. cbn [digit_run]. destruct (is_digit c) eqn:Hc; [|done].
  cbn [stake all_digits sforall]. unfold all_digits in IH1. rewrite len_cons, IH2. cbn. by rewrite Hc, IH1.
Qed.

(** What may follow the seconds: not a digit and not a point. *)
Definition no_fraction (s : string) : Prop :=
  match s with String c _ => is_digit c = false ∧ c ≠ "."%char | EmptyString => True end.

Lemma zone_no_fraction zn tz off : zone_form zn tz off → no_fraction zn.
Proof. intros [| |sg hh mm th tm [-> | ->] _ _ _ _]; by vm_compute. Qed.

Lemma parse_fraction_spec fr rest :
  all_digits fr = true → no_fraction rest →
  parse_fraction (fraction_text fr +:+ rest) = Some (TrimRightP (Ascii.eqb "0") fr, rest).
Proof.
  intros Hfr Hr. unfold fraction_text. destruct fr as [|c fr].
  - cbn [is_empty]. rewrite sapp_nil_l. unfold parse_fraction. destruct rest as [|c rest]; [done|].
    destruct Hr as [_ Hr]. destruct c as [[] [] [] [] [] [] [] []]; done.
  - cbn [is_empty]. rewrite sapp_cons. unfold parse_fraction.
    rewrite digit_run_app; [|done|by destruct rest; [|destruct Hr]]. rewrite len_cons.
    change (S (len fr)) with (len (String c fr)). by rewrite stake_app, sdrop_app.
Qed.

Lemma parse_fraction_inv s f rest :
  parse_fraction s = Some (f, rest) →
  ∃ fr, all_digits fr = true ∧ s = fraction_text fr +:+ rest ∧ f = TrimRightP (Ascii.eqb "0") fr.
Proof.
  intros Hp.
  assert (Hs : parse_fraction s = Some (f, rest) → (∃ tail, s = String "." tail) ∨ (f = EmptyString ∧ rest = s)).
  { unfold parse_fraction. destruct s as [|[[] [] [] [] [] [] [] []] s]; first [by intros [= <- <-]; right|left; by eexists]. }
  destruct (Hs Hp) as [[tail ->]|[-> ->]]; [|by exists EmptyString].
  cbn [parse_fraction] in Hp. destruct (digit_run_split tail) as [Hd Hl].
  destruct (digit_run tail) as [|n] eqn:E; [done|]. injection Hp as <- <-.
  exists (stake (S n) tail). split_and!; [done| |done]. unfold fraction_text.
  destruct (stake (S n) tail) as [|c t] eqn:Et; [done|]. cbn [is_empty]. rewrite <- Et, sapp_cons. by rewrite stake_sdrop.
Qed.

Lemma make_dateTime_spec y mo d h mi s fr tz off v :
  make_dateTime y mo d h mi s fr (Some (tz, off)) = Some v ↔
  valid_date y mo d ∧ valid_clock h mi s fr = true ∧ timezone v = tz ∧ frac v = fr ∧ 0 <= seconds v < 86400 ∧
  days v * 86400 + seconds v = daysFromCivil y mo d * 86400 + h * 3600 + mi * 60 + s - off.
Proof.
  unfold make_dateTime, valid_date. rewrite floorDiv_div by lia.
  pose proof (daysInMonth_pos y mo) as Hpos.
  destruct (_ || _ || _ || _) eqn:E.
  { rewrite !orb_true_iff, !Z.ltb_lt in E. split; [done|]. intros [[? ?] _]. lia. }
  rewrite !orb_false_iff, !Z.ltb_ge in E. destruct (valid_clock h mi s fr); cbn [negb]; [|naive_solver].
  set (secs := h * 3600 + mi * 60 + s - off). pose proof (Z.div_mod secs 86400 ltac:(lia)) as Hdm.
  pose proof (Z.mod_pos_bound secs 86400 ltac:(lia)) as Hmod. split.
  - intros [= <-]. cbn [days seconds frac timezone]. split_and!; try done; try lia.
  - intros (_ & _ & <- & <- & Hr & Hi). destruct v as [dd ss ff tt]. cbn [days seconds frac timezone] in *.
    assert (Hd : dd = daysFromCivil y mo d + secs / 86400) by (unfold secs in *; Z.to_euclidean_division_equations; lia).
    f_equal. f_equal; [done|]. unfold secs in *. lia.
Qed.

Lemma make_dateTime_None y mo d h mi s fr : make_dateTime y mo d h mi s fr None = None.
Proof. unfold make_dateTime. destruct (_ || _); [done|]. by destruct (negb _). Qed.

Lemma all_digits_value s : all_digits s = true → s ≠ EmptyString → (len s ≤ 18)%nat →
  ParseInt64 s = Some (digits_value s).
Proof.
  intros Hd Hne Hl.
  assert (Hs : split_sign s = (false, s)).
  { destruct s as [|c s]; [done|]. cbn in Hd |- *. apply andb_true_iff in Hd as [Hc _]. by rewrite digit_not_sign. }
  destruct (ParseBig_small s) as (v & Hv & Hin).
  { rewrite Hs. by apply allDigits_spec. }
  { by rewrite Hs. }
  unfold ParseInt64. rewrite Hv, Hin. unfold digits_value. f_equal. revert Hv. unfold ParseBig. rewrite Hs.
  destruct s as [|c s]; [done|]. destruct (digits_acc 0 (String c s)); [|done]. by intros [= ->].
Qed.

Lemma valid_year_spec ys : valid_year ys = true →
  (4 ≤ len ys ≤ 12)%nat ∧ all_digits ys = true ∧ ParseInt64 ys = Some (digits_value ys) ∧ has_byte "-" ys = false.
Proof.
  unfold valid_year. rewrite !andb_true_iff, !Nat.leb_le. intros [[[H1 H2] [Hne Hd]%allDigits_spec] _].
  split_and!; [done|done|done|apply all_digits_value; [done|done|lia]|].
  apply has_byte_false. eapply sforall_impl; [|exact Hd]. intros c. byte_cases c.
Qed.

Lemma CutByte_inv s c a b : CutByte s c = (a, b, true) → s = a +:+ String c b.
Proof.
  unfold CutByte. destruct (IndexByte s c) as [i|] eqn:E; [|done].
  apply IndexByte_Some in E as (a' & b' & -> & <- & _). rewrite stake_app.
  replace (S (len a')) with (len a' + 1)%nat by lia. rewrite sdrop_app_add. by intros [= <- <-].
Qed.

(** The fixed-width part of a form: the month to the seconds. *)
Definition clock_text (mos ds hs mis ss tail : string) : string :=
  mos +:+ String "-" (ds +:+ String "T" (hs +:+ String ":" (mis +:+ String ":" (ss +:+ tail)))).

Lemma clock_text_split rest :
  ((len rest <? 14)%nat || negb (bool_decide (byte_at rest 2 = Some "-"%char))
       || negb (bool_decide (byte_at rest 5 = Some "T"%char)) || negb (bool_decide (byte_at rest 8 = Some ":"%char))
       || negb (bool_decide (byte_at rest 11 = Some ":"%char))) = false →
  rest = clock_text (stake 2 rest) (stake 2 (sdrop 3 rest)) (stake 2 (sdrop 6 rest)) (stake 2 (sdrop 9 rest))
    (stake 2 (sdrop 12 rest)) (sdrop 14 rest).
Proof.
  rewrite !orb_false_iff, !negb_false_iff, !bool_decide_eq_true, Nat.ltb_ge. intros [[[[Hl H2] H5] H8] H11]. unfold len in Hl.
  destruct rest as [|c0 [|c1 [|c2 [|c3 [|c4 [|c5 [|c6 [|c7 [|c8 [|c9 [|c10 [|c11 [|c12 [|c13 r]]]]]]]]]]]]]]; cbn in Hl; try lia.
  cbn in H2, H5, H8, H11. injection H2 as ->. injection H5 as ->. injection H8 as ->. by injection H11 as ->.
Qed.

Lemma clock_text_fields mos ds hs mis ss tail month day hour minute second :
  twoDigits mos = Some month → twoDigits ds = Some day → twoDigits hs = Some hour →
  twoDigits mis = Some minute → twoDigits ss = Some second →
  let rest := clock_text mos ds hs mis ss tail in
  ((len rest <? 14)%nat || negb (bool_decide (byte_at rest 2 = Some "-"%char))
       || negb (bool_decide (byte_at rest 5 = Some "T"%char)) || negb (bool_decide (byte_at rest 8 = Some ":"%char))
       || negb (bool_decide (byte_at rest 11 = Some ":"%char))) = false ∧
  stake 2 rest = mos ∧ stake 2 (sdrop 3 rest) = ds ∧ stake 2 (sdrop 6 rest) = hs ∧ stake 2 (sdrop 9 rest) = mis ∧
  stake 2 (sdrop 12 rest) = ss ∧ sdrop 14 rest = tail.
Proof.
  intros (a1 & a2 & -> & _)%twoDigits_inv (b1 & b2 & -> & _)%twoDigits_inv (c1 & c2 & -> & _)%twoDigits_inv
    (d1 & d2 & -> & _)%twoDigits_inv (e1 & e2 & -> & _)%twoDigits_inv rest.
  unfold rest, clock_text. rewrite !sapp_cons, !sapp_nil_l. by split_and!.
Qed.

(** What [parseXSDDateTime] accepts and computes, by the fields of the form. *)
Lemma parseXSDDateTime_fields : ∀ s v, parseXSDDateTime s = Some v ↔ dateTime_form s v.
Proof.
  intros s v. split.
  - unfold parseXSDDateTime.
    destruct (match CutPrefix s "-" with Some r => (true, r) | None => (false, s) end) as [neg rest] eqn:Hneg.
    assert (Hs : s = (if neg then "-" else EmptyString) +:+ rest).
    { revert Hneg. unfold CutPrefix. destruct (HasPrefix s "-") eqn:E; [|by intros [= <- <-]].
      apply HasPrefix_true in E as [t ->]. rewrite sdrop_app. by intros [= <- <-]. }
    destruct (CutByte rest "-") as [[ys rest'] ok] eqn:Hcut. destruct ok; [|done]. apply CutByte_inv in Hcut as ->.
    destruct (valid_year ys) eqn:Hy; [|done]. cbn [negb orb]. destruct (valid_year_spec ys Hy) as (_ & _ & Hv & _). rewrite Hv. cbn [default].
    destruct (_ || _ || _ || _ || _) eqn:Hfmt; [done|]. apply clock_text_split in Hfmt.
    destruct (twoDigits (stake 2 rest')) as [month|] eqn:Hmo; [|done].
    destruct (twoDigits (stake 2 (sdrop 3 rest'))) as [day|] eqn:Hd; [|done].
    destruct (twoDigits (stake 2 (sdrop 6 rest'))) as [hour|] eqn:Hh; [|done].
    destruct (twoDigits (stake 2 (sdrop 9 rest'))) as [minute|] eqn:Hmi; [|done].
    destruct (twoDigits (stake 2 (sdrop 12 rest'))) as [second|] eqn:Hsec; [|done].
    destruct (parse_fraction (sdrop 14 rest')) as [[f zn]|] eqn:Hf; [|done].
    apply parse_fraction_inv in Hf as (fr & Hfr & Htail & ->).
    destruct (parse_zone zn) as [[tz off]|] eqn:Hz; [|by rewrite make_dateTime_None].
    intros (Hdate & Hclock & Htz & Hfrac & Hr & Hi)%make_dateTime_spec. rewrite Htail in Hfmt. apply parse_zone_spec in Hz.
    refine (dateTime_form_intro s v neg ys _ _ _ _ _ fr zn month day hour minute second tz off
      _ Hy Hmo Hd Hh Hmi Hsec Hfr Hz Hdate Hclock Htz Hfrac Hr Hi).
    rewrite Hs. do 3 f_equal. exact Hfmt.
  - intros []. destruct (valid_year_spec ys Hy) as (Hlen & Hdig & Hpv & Hno).
    pose proof (clock_text_fields _ _ _ _ _ (fraction_text fr +:+ zn) _ _ _ _ _ Hmo Hd Hh Hmi Hsec)
      as (Hfmt & F1 & F2 & F3 & F4 & F5 & F6).
    unfold parseXSDDateTime.
    assert (Hcut : match CutPrefix s "-" with Some r => (true, r) | None => (false, s) end
      = (neg, ys +:+ String "-" (clock_text mos ds hs mis ss (fraction_text fr +:+ zn)))).
    { unfold CutPrefix. destruct neg; rewrite Hs.
      - by rewrite HasPrefix_app, sdrop_app.
      - rewrite sapp_nil_l. destruct ys as [|c ys]; [done|]. rewrite sapp_cons. unfold HasPrefix. cbn [String.prefix].
        destruct (ascii_dec "-" c) as [<-|_]; [|done]. by rewrite has_byte_cons in Hno. }
    rewrite Hcut, CutByte_app, Hy, Hpv by done. cbn [negb orb default].
    cbv zeta in Hfmt. rewrite Hfmt, F1, F2, F3, F4, F5, F6, Hmo, Hd, Hh, Hmi, Hsec.
    rewrite (parse_fraction_spec fr zn Hfr) by (by eapply zone_no_fraction).
    rewrite (proj2 (parse_zone_spec zn tz off) Hz). by apply make_dateTime_spec.
Qed.
