(* ===== verification/XsdSpec.v ===== *)
(** * The value spaces of XML Schema, written apart from the code

    The lexical spaces of the numeric types, booleans and dateTimes as grammars on
    the bytes of a text, with the value of each form.  Nothing here is defined by a
    parser of the program; the rounding of a decimal to a binary float is that of
    the standard library ([ParseFloat] of [Strconv]), in the format of the type. *)

From S2P Require Import Prelude GoStrings Strconv Term.
From Stdlib Require Import SpecFloat QArith.QArith.
From stdpp Require Import options.

#[local] Open Scope string_scope.
#[local] Open Scope Z_scope.

(** ** Digits and signs *)

Definition digit_of (c : ascii) (d : Z) : Prop := Z.of_N (N_of_ascii c) = 48 + d ∧ 0 <= d <= 9.

(** A run of digits, perhaps empty, and the number it writes. *)
Inductive digits : string → Z → Prop :=
| digits_nil : digits "" 0
| digits_snoc s n c d : digits s n → digit_of c d → digits (s +:+ String c "") (10 * n + d).

Definition numeral (s : string) (n : Z) : Prop := s ≠ "" ∧ digits s n.

Inductive sign_of : string → Z → Prop :=
| sign_absent : sign_of "" 1
| sign_plus : sign_of "+" 1
| sign_minus : sign_of "-" (-1).

(** ** Numbers *)

Definition integer_form (s : string) (z : Z) : Prop :=
  ∃ sg e b n, sign_of sg e ∧ numeral b n ∧ s = sg +:+ b ∧ z = e * n.

(** The integer types and their bounds. *)
Definition integer_types : list (string * option Z * option Z) :=
  [("integer", None, None);
   ("nonPositiveInteger", None, Some 0); ("negativeInteger", None, Some (-1));
   ("nonNegativeInteger", Some 0, None); ("positiveInteger", Some 1, None);
   ("long", Some (- 2 ^ 63), Some (2 ^ 63 - 1)); ("int", Some (- 2 ^ 31), Some (2 ^ 31 - 1));
   ("short", Some (- 2 ^ 15), Some (2 ^ 15 - 1)); ("byte", Some (- 2 ^ 7), Some (2 ^ 7 - 1));
   ("unsignedLong", Some 0, Some (2 ^ 64 - 1)); ("unsignedInt", Some 0, Some (2 ^ 32 - 1));
   ("unsignedShort", Some 0, Some (2 ^ 16 - 1)); ("unsignedByte", Some 0, Some (2 ^ 8 - 1))].

Definition integer_type (dt : URIRef) (mn mx : option Z) : Prop :=
  ∃ name, (name, mn, mx) ∈ integer_types ∧ URIRef_value dt = "http://www.w3.org/2001/XMLSchema#" +:+ name.

Definition within (mn mx : option Z) (z : Z) : Prop :=
  (∀ m, mn = Some m → m <= z) ∧ (∀ m, mx = Some m → z <= m).

(** A decimal mantissa: digits on at least one side of the point, if there is one. *)
Inductive mantissa : string → string → string → Prop :=
| mantissa_int ip : mantissa ip ip ""
| mantissa_point ip fp : mantissa (ip +:+ ("." +:+ fp)) ip fp.

Definition decimal_form (s : string) (q : Q) : Prop :=
  ∃ sg e body ip fp n, sign_of sg e ∧ mantissa body ip fp ∧ numeral (ip +:+ fp) n ∧ s = sg +:+ body ∧
    q == inject_Z (e * n) / inject_Z (10 ^ Z.of_nat (len fp)).

(** An exponent mark and an integer, or nothing. *)
Inductive exponent : string → Prop :=
| exponent_absent : exponent ""
| exponent_some c t z : c = "e"%char ∨ c = "E"%char → integer_form t z → exponent (String c t).

(** [prec] digits of mantissa, exponents below [emax]. *)
Inductive float_form (prec emax : Z) : string → spec_float → Prop :=
| float_inf : float_form prec emax "INF" (S754_infinity false)
| float_plus_inf : float_form prec emax "+INF" (S754_infinity false)
| float_minus_inf : float_form prec emax "-INF" (S754_infinity true)
| float_nan : float_form prec emax "NaN" S754_nan
| float_number m q x : decimal_form m q → exponent x → float_form prec emax (m +:+ x) (ParseFloat prec emax (m +:+ x)).

Inductive boolean_form : string → bool → Prop :=
| boolean_true : boolean_form "true" true
| boolean_one : boolean_form "1" true
| boolean_false : boolean_form "false" false
| boolean_zero : boolean_form "0" false.

(** ** Dates *)

Definition leap (y : Z) : Prop := y mod 4 = 0 ∧ (y mod 100 ≠ 0 ∨ y mod 400 = 0).
Definition month_lengths (y : Z) : list Z :=
  [31; if decide (leap y) then 29 else 28; 31; 30; 31; 30; 31; 31; 30; 31; 30; 31].

Definition real_date (y m d : Z) : Prop := 1 <= m ∧ ∃ n, month_lengths y !! Z.to_nat (m - 1) = Some n ∧ 1 <= d <= n.

(** The leap years from year 0 up to [y], [y] left out; below 0, those from [y] up
    to 0, counted negatively. *)
Definition leap_years_before (y : Z) : Z := (y + 3) / 4 - (y + 99) / 100 + (y + 399) / 400.

(** The days from the first of January of year 0 of the proleptic calendar. *)
Definition day_number (y m d : Z) : Z :=
  365 * y + leap_years_before y + foldr Z.add 0 (take (Z.to_nat (m - 1)) (month_lengths y)) + d - 1.

Definition two (s : string) (n : Z) : Prop := len s = 2%nat ∧ digits s n.

(** The fraction of a second. *)
Inductive second_fraction : string → Q → Prop :=
| fraction_none : second_fraction "" 0
| fraction_some f n : numeral f n → second_fraction ("." +:+ f) (inject_Z n / inject_Z (10 ^ Z.of_nat (len f))).

(** The timezone, and its offset in seconds. *)
Inductive zone : string → bool → Z → Prop :=
| zone_absent : zone "" false 0
| zone_Z : zone "Z" true 0
| zone_hours sg e hh mm h m : sign_of sg e → sg ≠ "" → two hh h → two mm m →
    m <= 59 → h <= 13 ∨ (h = 14 ∧ m = 0) → zone (sg +:+ (hh +:+ (":" +:+ mm))) true (e * (h * 3600 + m * 60)).

Definition clock (h m s : Z) (f : Q) : Prop := (h <= 23 ∧ m <= 59 ∧ s <= 59) ∨ (h = 24 ∧ m = 0 ∧ s = 0 ∧ f == 0).

(** Years of 4 to 12 digits, without a leading zero beyond four. *)
Definition year_form (ys : string) (y : Z) : Prop :=
  (4 <= len ys <= 12)%nat ∧ digits ys y ∧ ((4 < len ys)%nat → ∀ t, ys ≠ String "0" t).

(** A dateTime, whether it has a timezone, and its instant: the seconds since the
    first of January of year 0, in UTC when it has one. *)
Inductive dateTime (s : string) (tz : bool) (x : Q) : Prop :=
| dateTime_intro sg e ys mos ds hs mis ss fs zs y mo d h mi sec f off :
    (sg = "" ∧ e = 1) ∨ (sg = "-" ∧ e = -1) →
    s = sg +:+ (ys +:+ ("-" +:+ (mos +:+ ("-" +:+ (ds +:+ ("T" +:+ (hs +:+ (":" +:+ (mis +:+ (":" +:+ (ss +:+ (fs +:+ zs)))))))))))) →
    year_form ys y → two mos mo → two ds d → two hs h → two mis mi → two ss sec →
    second_fraction fs f → zone zs tz off →
    real_date (e * y) mo d → clock h mi sec f →
    x == inject_Z (day_number (e * y) mo d * 86400 + h * 3600 + mi * 60 + sec - off) + f →
    dateTime s tz x.

(** ** Values *)

Inductive value :=
| IntegerValue (z : Z)
| DecimalValue (q : Q)
| FloatValue (f : spec_float)
| BooleanValue (b : bool)
| InstantValue (tz : bool) (x : Q).

(** Zeros of both signs are equal; NaN is not equal to itself. *)
Definition float_equal (f g : spec_float) : Prop :=
  (f = g ∧ f ≠ S754_nan) ∨ ∃ s t, f = S754_zero s ∧ g = S754_zero t.

Definition equal_values (x y : value) : Prop :=
  match x, y with
  | IntegerValue a, IntegerValue b => a = b
  | DecimalValue a, DecimalValue b => a == b
  | FloatValue a, FloatValue b => float_equal a b
  | BooleanValue a, BooleanValue b => a = b
  | InstantValue s a, InstantValue t b => s = t ∧ a == b
  | _, _ => False
  end.

(** The form [s] of the datatype [dt] denotes a value. *)
Inductive denotes (dt : URIRef) (s : string) : value → Prop :=
| denotes_integer mn mx z : integer_type dt mn mx → integer_form s z → within mn mx z → denotes dt s (IntegerValue z)
| denotes_decimal q : dt = XSDDecimal → decimal_form s q → denotes dt s (DecimalValue q)
| denotes_float f : dt = XSDFloat → float_form 24 128 s f → denotes dt s (FloatValue f)
| denotes_double f : dt = XSDDouble → float_form 53 1024 s f → denotes dt s (FloatValue f)
| denotes_boolean b : dt = XSDBoolean → boolean_form s b → denotes dt s (BooleanValue b)
| denotes_dateTime tz x : dt = XSDDateTime → dateTime s tz x → denotes dt s (InstantValue tz x).

(** The datatypes whose values are compared. *)
Definition has_values (dt : URIRef) : Prop :=
  (∃ mn mx, integer_type dt mn mx) ∨ dt ∈ [XSDDecimal; XSDFloat; XSDDouble; XSDBoolean; XSDDateTime].

(** Equal values, or one form that denotes none. *)
Definition same_meaning (dt : URIRef) (a b : string) : Prop :=
  (∃ x y, denotes dt a x ∧ denotes dt b y ∧ equal_values x y) ∨
  (a = b ∧ ∀ x, ¬ denotes dt a x).

Definition language_type (dt : URIRef) : Prop := dt = RDFLangString ∨ dt = RDFDirLangString.

(** Literals with the same value. *)
Definition same_literal_value (l m : Literal) : Prop :=
  datatype l = datatype m ∧
  (has_values (datatype l) → same_meaning (datatype l) (lexical l) (lexical m)) ∧
  (¬ has_values (datatype l) → lexical l = lexical m ∧
     (language_type (datatype l) → ToLower (lang l) = ToLower (lang m) ∧ dir l = dir m)).
