(* ===== verification/XsdCorrect.v ===== *)
(** * Literal values against XML Schema

    The parsers of [LiteralValue] read exactly the lexical spaces of [XsdSpec], with
    the values it gives, and [ValueEqual] decides equality of those values. *)

From S2P Require Import Prelude GoStrings Strconv Term LiteralValue XsdSpec.
From Stdlib Require Import SpecFloat QArith.QArith Lqa.
From stdpp Require Import options.

#[local] Open Scope string_scope.
#[local] Open Scope Z_scope.

(** ** Digits *)

Lemma digit_of_iff c d : digit_of c d ↔ is_digit c = true ∧ digit_val c = d.
Proof.
  unfold digit_of, is_digit, byte_in, digit_val, byte_val. rewrite andb_true_iff, !N.leb_le.
  change (N_of_ascii "0") with 48%N. change (N_of_ascii "9") with 57%N. lia.
Qed.

Lemma digits_acc_app acc s t : digits_acc acc (s +:+ t) = digits_acc acc s ≫= λ a, digits_acc a t.
Proof.
  revert acc. induction s as [|c s IH]; intros acc; [done|]. rewrite sapp_cons. cbn [digits_acc]. destruct (is_digit c); [apply IH|done].
Qed.

Lemma digits_acc_iff s n : digits s n ↔ digits_acc 0 s = Some n.
Proof.
  split.
  - induction 1 as [|s n c d _ IH [Hc Hd]%digit_of_iff]; [done|]. rewrite digits_acc_app, IH. cbn. rewrite Hc, Hd. f_equal. lia.
  - assert (Hgo : ∀ s p m, digits p m → ∀ n, digits_acc m s = Some n → digits (p +:+ s) n).
    { clear. induction s as [|c s IH]; intros p m Hp n; cbn [digits_acc]; [intros [= <-]; by rewrite sapp_nil_r|].
      destruct (is_digit c) eqn:Hc; [|done]. intros Hn. replace (p +:+ String c s) with ((p +:+ String c "") +:+ s) by (by rewrite app_assoc_s).
      apply (IH _ (10 * m + digit_val c)); [constructor; [done|by apply digit_of_iff]|]. by replace (10 * m + digit_val c) with (m * 10 + digit_val c) by lia. }
    intros Hn. exact (Hgo s "" 0 digits_nil n Hn).
Qed.

Lemma digits_iff s n : digits s n ↔ all_digits s = true ∧ digits_value s = n.
Proof.
  rewrite digits_acc_iff. unfold digits_value. split.
  - intros E. rewrite E. split; [|done]. apply (proj1 (digits_acc_is_Some 0 s)). by eexists.
  - intros [Hs <-]. apply (digits_acc_is_Some 0) in Hs as [n ->]. done.
Qed.

Lemma numeral_iff s n : numeral s n ↔ allDigits s = true ∧ digits_value s = n.
Proof. unfold numeral. rewrite digits_iff, allDigits_spec. tauto. Qed.

Lemma is_empty_true s : is_empty s = true ↔ s = "".
Proof. by destruct s. Qed.

Lemma allDigits_or_empty s : negb (allDigits s) && negb (is_empty s) = negb (all_digits s).
Proof. destruct s; [done|]. by rewrite andb_true_r. Qed.

(** A sign, and what is left. *)
Lemma split_sign_of sg e b : sign_of sg e → (∀ c t, b = String c t → is_sign c = false) → split_sign (sg +:+ b) = (bool_decide (e = -1), b).
Proof.
  intros [] Hb; rewrite ?sapp_nil_l; [|done|done]. destruct b as [|c b]; [done|]. unfold split_sign. by rewrite (Hb c b eq_refl).
Qed.

Lemma split_sign_sign s : ∃ sg e, sign_of sg e ∧ s = sg +:+ (split_sign s).2 ∧ (split_sign s).1 = bool_decide (e = -1) ∧ (e = 1 ∨ e = -1).
Proof.
  destruct s as [|c s]; [exists "", 1; split_and!; [constructor|done|done|by left]|]. unfold split_sign. destruct (is_sign c) eqn:Hc; cbn [fst snd].
  - unfold is_sign in Hc. apply orb_true_iff in Hc as [->%Ascii.eqb_eq| ->%Ascii.eqb_eq]; [exists "+", 1|exists "-", (-1)]; (split_and!; [constructor|done|done|auto]).
  - exists "", 1. split_and!; [constructor|done|done|by left].
Qed.

Lemma numeral_no_sign s : all_digits s = true → ∀ c t, s = String c t → is_sign c = false.
Proof. intros Hs c t ->. cbn in Hs. apply andb_true_iff in Hs as [Hc _]. by apply digit_not_sign. Qed.

(** ** Integers *)

Lemma integer_form_iff s z : integer_form s z ↔ allDigits (split_sign s).2 = true ∧ z = (if (split_sign s).1 then - 1 else 1) * digits_value (split_sign s).2.
Proof.
  split.
  - intros (sg & e & b & n & Hsg & [Hb <-]%numeral_iff & -> & ->). rewrite (split_sign_of sg e b Hsg); cbn [fst snd].
    + split; [done|]. by destruct Hsg.
    + apply allDigits_spec in Hb as [_ Hb]. by apply numeral_no_sign.
  - intros [Hd ->]. destruct (split_sign_sign s) as (sg & e & Hsg & Es & -> & He). exists sg, e, (split_sign s).2, (digits_value (split_sign s).2).
    split_and!; [done|by apply numeral_iff|done|]. by destruct He as [-> | ->].
Qed.

Lemma ParseBig_value s : allDigits (split_sign s).2 = true → ParseBig s = Some ((if (split_sign s).1 then - 1 else 1) * digits_value (split_sign s).2).
Proof.
  intros [Hne Hd]%allDigits_spec. unfold ParseBig. destruct (split_sign s) as [neg b]. cbn [fst snd] in *.
  destruct (proj2 (digits_acc_is_Some 0 b) Hd) as [n Hn]. unfold digits_value. rewrite Hn. destruct b; [done|]. cbn. f_equal. destruct neg; lia.
Qed.

Lemma parseXSDInteger_iff s r z : parseXSDInteger s r = Some z ↔ integer_form s z ∧ within (ir_min r) (ir_max r) z.
Proof.
  rewrite integer_form_iff. unfold parseXSDInteger. pose proof (sign_digits s) as Hs. destruct (_ || _) in Hs |- *; cbn [negb] in Hs; rewrite <- Hs.
  { split; [done|by intros [[? _] _]]. }
  rewrite (ParseBig_value s) by done. set (v := _ * _). unfold within, below, above.
  destruct (_ || _) eqn:E.
  - split; [done|]. intros [[_ ->] [Hmn Hmx]]. apply orb_true_iff in E as [E|E]; [destruct (ir_min r) as [m|]|destruct (ir_max r) as [m|]]; try done;
      apply Z.ltb_lt in E; [specialize (Hmn m eq_refl)|specialize (Hmx m eq_refl)]; lia.
  - apply orb_false_iff in E as [E1 E2]. split; [|by intros [[_ ->] _]]. intros [= <-]. split; [done|].
    split; intros m Hm; rewrite Hm in *; apply Z.ltb_ge; [exact E1|exact E2].
Qed.

(** ** Decimals *)

Lemma all_digits_app s t : all_digits (s +:+ t) = all_digits s && all_digits t.
Proof. apply sforall_app. Qed.

Lemma all_digits_no_byte c s : is_digit c = false → all_digits s = true → has_byte c s = false.
Proof.
  intros Hc Hs. apply has_byte_false. eapply sforall_impl; [|exact Hs]. intros d Hd. apply negb_true_iff, Ascii.eqb_neq. intros ->. congruence.
Qed.

Lemma CutByte_none s c : has_byte c s = false → CutByte s c = (s, EmptyString, false).
Proof. intros Hs. unfold CutByte. by rewrite (proj2 (IndexByte_None s c) Hs). Qed.

Lemma mantissa_cut body ip fp : mantissa body ip fp → all_digits (ip +:+ fp) = true → ∃ dot, CutByte body "." = (ip, fp, dot) ∧ (dot = false → fp = "").
Proof.
  intros [] Hd; rewrite all_digits_app, andb_true_iff in Hd; destruct Hd as [Hi _].
  - exists false. split; [|done]. apply CutByte_none. by apply all_digits_no_byte.
  - exists true. split; [|done]. apply CutByte_app. by apply all_digits_no_byte.
Qed.

Lemma cut_mantissa body ip fp dot : CutByte body "." = (ip, fp, dot) → mantissa body ip fp ∧ (dot = false → fp = "").
Proof.
  destruct dot.
  - intros ->%CutByte_inv. split; [constructor|done].
  - unfold CutByte. destruct (IndexByte body "."); [done|]. intros [= <- <-]. split; [constructor|done].
Qed.

Definition signed_fraction (neg : bool) (n : Z) (k : nat) : Q := Qmake (if neg then - n else n) (Z.to_pos (10 ^ Z.of_nat k)).

Lemma signed_fraction_eq e n k : e = 1 ∨ e = -1 → signed_fraction (bool_decide (e = -1)) n k == inject_Z (e * n) / inject_Z (10 ^ Z.of_nat k).
Proof.
  intros He. unfold signed_fraction. assert (Hp : 0 < 10 ^ Z.of_nat k) by (apply Z.pow_pos_nonneg; lia).
  assert (E : inject_Z (10 ^ Z.of_nat k) = inject_Z (Zpos (Z.to_pos (10 ^ Z.of_nat k)))) by (rewrite Z2Pos.id; done).
  rewrite E, <- Qmake_Qdiv. assert ((if bool_decide (e = -1) then - n else n) = e * n) as ->; [|done].
  destruct He as [-> | ->]; [rewrite bool_decide_eq_false_2 by done|rewrite bool_decide_eq_true_2 by done]; lia.
Qed.

Lemma parseXSDDecimal_sound s q : parseXSDDecimal s = Some q → decimal_form s q.
Proof.
  unfold parseXSDDecimal. destruct (split_sign_sign s) as (sg & e & Hsg & Es & En & He). destruct (split_sign s) as [neg body]. cbn [fst snd] in *. subst neg.
  destruct (CutByte body ".") as [[ip fp] dot] eqn:Ec. apply cut_mantissa in Ec as [Hm Hdot]. rewrite !allDigits_or_empty, <- negb_andb.
  rewrite <- all_digits_app. destruct (all_digits (ip +:+ fp)) eqn:Hd; cbn [negb]; [|done]. destruct (_ && _) eqn:Ee; [done|]. intros [= <-].
  exists sg, e, body, ip, fp, (digits_value (ip +:+ fp)). split_and!; [done|done| |done|by apply (signed_fraction_eq e)].
  split; [|by apply digits_iff]. intros E. destruct ip; [|done]. rewrite sapp_nil_l in E. subst fp. done.
Qed.

Lemma mantissa_no_sign body ip fp : mantissa body ip fp → all_digits (ip +:+ fp) = true → ∀ c t, body = String c t → is_sign c = false.
Proof.
  intros [] Hd; [rewrite sapp_nil_r in Hd; by apply numeral_no_sign|]. rewrite all_digits_app, andb_true_iff in Hd. destruct Hd as [Hi _].
  destruct ip0 as [|d ip1]; intros c t E.
  - change (String "." fp0 = String c t) in E. by injection E as <- _.
  - rewrite sapp_cons in E. injection E as <- _. by apply (numeral_no_sign (String d ip1) Hi d ip1).
Qed.

Lemma decimal_form_Some s q : decimal_form s q → ∃ q', parseXSDDecimal s = Some q' ∧ q' == q.
Proof.
  intros (sg & e & body & ip & fp & n & Hsg & Hm & [Hne [Hd <-]%digits_iff] & -> & Hq). unfold parseXSDDecimal.
  rewrite (split_sign_of sg e body Hsg) by (by eapply mantissa_no_sign). destruct (mantissa_cut body ip fp Hm Hd) as (dot & -> & Hdot).
  rewrite !allDigits_or_empty, <- negb_andb, <- all_digits_app, Hd. cbn [negb]. assert (is_empty ip && (is_empty fp || negb dot) = false) as ->.
  { destruct ip; [|done]. rewrite sapp_nil_l in Hne. cbn. destruct fp; [done|]. cbn. destruct dot; [done|]. by specialize (Hdot eq_refl). }
  eexists. split; [done|]. rewrite Hq. apply (signed_fraction_eq e). destruct Hsg; auto.
Qed.

(** ** Floats *)

Lemma decimal_no_mark s q : decimal_form s q → sforall (λ c, negb (is_exp_mark c)) s = true.
Proof.
  intros (sg & e & body & ip & fp & n & Hsg & Hm & [_ [Hd _]%digits_iff] & -> & _).
  assert (Hdig : ∀ t, all_digits t = true → sforall (λ c, negb (is_exp_mark c)) t = true) by (intros t; apply sforall_impl; intros c; byte_cases c).
  rewrite all_digits_app, andb_true_iff in Hd. destruct Hd as [Hi Hf]. rewrite sforall_app, andb_true_iff. split; [by destruct Hsg|].
  destruct Hm as [ip|ip fp]; [by apply Hdig|]. rewrite !sforall_app, (Hdig ip Hi), (Hdig fp Hf). done.
Qed.

Definition float_special (s : string) : option spec_float :=
  if String.eqb s "INF" || String.eqb s "+INF" then Some (S754_infinity false)
  else if String.eqb s "-INF" then Some (S754_infinity true)
  else if String.eqb s "NaN" then Some S754_nan
  else None.

Lemma float_special_form prec emax s f : float_special s = Some f → float_form prec emax s f.
Proof.
  unfold float_special. destruct (String.eqb_spec s "INF") as [->|_]; [intros [= <-]; constructor|]. destruct (String.eqb_spec s "+INF") as [->|_]; [intros [= <-]; constructor|].
  destruct (String.eqb_spec s "-INF") as [->|_]; [intros [= <-]; constructor|]. destruct (String.eqb_spec s "NaN") as [->|_]; [intros [= <-]; constructor|done].
Qed.

(** No prefix of the names of the special values is a number. *)
Lemma special_not_decimal m x : is_Some (float_special (m +:+ x)) → parseXSDDecimal m = None.
Proof.
  intros [f Hf]. assert (Hs : m +:+ x ∈ ["INF"; "+INF"; "-INF"; "NaN"]).
  { revert Hf. unfold float_special. destruct (String.eqb_spec (m +:+ x) "INF"); [set_solver|]. destruct (String.eqb_spec (m +:+ x) "+INF"); [set_solver|].
    destruct (String.eqb_spec (m +:+ x) "-INF"); [set_solver|]. destruct (String.eqb_spec (m +:+ x) "NaN"); [set_solver|done]. }
  assert (Hp : ∀ w, m +:+ x = w → ∃ k, m = stake k w) by (intros w <-; exists (len m); by rewrite stake_app).
  rewrite !elem_of_cons in Hs. destruct Hs as [E|[E|[E|[E|[]%elem_of_nil]]]]; destruct (Hp _ E) as [k ->];
    by destruct k as [|[|[|[|[|k]]]]]; vm_compute.
Qed.

Lemma exponent_iff s : exponent s ↔ s = "" ∨ ∃ c t, s = String c t ∧ is_exp_mark c = true ∧ allDigits (split_sign t).2 = true.
Proof.
  assert (Hm : ∀ c, is_exp_mark c = true ↔ c = "e"%char ∨ c = "E"%char) by (intros c; unfold is_exp_mark; by rewrite orb_true_iff, !Ascii.eqb_eq).
  split.
  - intros [|c t z Hc [Ht _]%integer_form_iff]; [by left|]. right. exists c, t. by rewrite Hm.
  - intros [->|(c & t & -> & Hc%Hm & Ht)]; [constructor|]. eapply exponent_some; [done|]. by apply integer_form_iff.
Qed.

Lemma parseXSDFloat_special s bits : parseXSDFloat s bits = match float_special s with
  | Some f => Some f
  | None =>
    let '(mantissa, exp_ok) :=
      match IndexP is_exp_mark s with
      | Some i => (stake i s, allDigits (split_sign (sdrop (S i) s)).2)
      | None => (s, true)
      end in
    if negb exp_ok then None
    else match parseXSDDecimal mantissa with
         | None => None
         | Some _ => let '(prec, emax) := float_format bits in Some (ParseFloat prec emax s)
         end
  end.
Proof. unfold parseXSDFloat, float_special. by destruct (_ || _), (String.eqb s "-INF"), (String.eqb s "NaN"). Qed.

Lemma parseXSDFloat_iff s bits prec emax f : float_format bits = (prec, emax) → parseXSDFloat s bits = Some f ↔ float_form prec emax s f.
Proof.
  intros Hb. rewrite parseXSDFloat_special. split.
  - destruct (float_special s) as [g|] eqn:Es; [intros [= <-]; by apply float_special_form|]. rewrite Hb.
    destruct (IndexP is_exp_mark s) as [i|] eqn:Ei.
    + apply IndexP_Some in Ei as (m & c & t & -> & <- & Hc & _). rewrite stake_app. replace (S (len m)) with (len m + 1)%nat by lia. rewrite sdrop_app_add. cbn [sdrop].
      destruct (allDigits (split_sign t).2) eqn:Et; cbn [negb]; [|done]. destruct (parseXSDDecimal m) as [q|] eqn:Em; [|done]. intros [= <-].
      apply (float_number prec emax m q); [by apply parseXSDDecimal_sound|]. apply exponent_iff. right. by exists c, t.
    + cbn [negb]. destruct (parseXSDDecimal s) as [q|] eqn:Em; [|done]. intros [= <-]. apply parseXSDDecimal_sound in Em.
      rewrite <- (sapp_nil_r s). apply (float_number prec emax s q ""); [exact Em|constructor].
  - intros [| | | |m q x Hm Hx]; [done..|]. destruct (decimal_form_Some m q Hm) as (q' & Ed & _).
    destruct (float_special (m +:+ x)) as [g|] eqn:Es; [by rewrite (special_not_decimal m x) in Ed by (by eexists)|]. rewrite Hb.
    pose proof (decimal_no_mark m q Hm) as Hno. apply exponent_iff in Hx as [->|(c & t & -> & Hc & Ht)].
    + rewrite sapp_nil_r, (proj2 (IndexP_None is_exp_mark m) Hno). cbn [negb]. by rewrite Ed.
    + rewrite (proj2 (IndexP_Some is_exp_mark (m +:+ String c t) (len m))) by (by exists m, c, t).
      rewrite stake_app. replace (S (len m)) with (len m + 1)%nat by lia. rewrite sdrop_app_add. cbn [sdrop]. by rewrite Ht, Ed.
Qed.

Lemma parseXSDBoolean_iff s b : parseXSDBoolean s = Some b ↔ boolean_form s b.
Proof.
  split; [|by intros []]. unfold parseXSDBoolean. destruct (String.eqb_spec s "true") as [->|_]; [intros [= <-]; constructor|].
  destruct (String.eqb_spec s "1") as [->|_]; [intros [= <-]; constructor|]. destruct (String.eqb_spec s "false") as [->|_]; [intros [= <-]; constructor|].
  destruct (String.eqb_spec s "0") as [->|_]; [intros [= <-]; constructor|done].
Qed.

(** ** Fractions of a second *)

Abbreviation zero_byte := (Ascii.eqb "0").

(** The value of digits after the point, from the left. *)
Fixpoint fracQ (s : string) : Q :=
  match s with
  | EmptyString => 0
  | String c s => (inject_Z (digit_val c) + fracQ s) * (1 # 10)
  end.

Lemma digit_bounds c : is_digit c = true → (0 <= inject_Z (digit_val c))%Q ∧ (inject_Z (digit_val c) <= 9)%Q.
Proof. intros Hc. pose proof (digit_val_range c Hc). split; [change 0%Q with (inject_Z 0)|change 9%Q with (inject_Z 9)]; rewrite <- Zle_Qle; lia. Qed.

Lemma all_digits_cons c s : all_digits (String c s) = true ↔ is_digit c = true ∧ all_digits s = true.
Proof. unfold all_digits. cbn [sforall]. apply andb_true_iff. Qed.

Lemma fracQ_bounds s : all_digits s = true → (0 <= fracQ s)%Q ∧ (fracQ s < 1)%Q.
Proof.
  induction s as [|c s IH]; [intros _; cbn; lra|]. intros [Hc Hs]%all_digits_cons. destruct (IH Hs), (digit_bounds c Hc). cbn [fracQ]. lra.
Qed.

Lemma digits_acc_shift s acc : all_digits s = true → digits_acc acc s = Some (acc * 10 ^ Z.of_nat (len s) + digits_value s).
Proof.
  unfold digits_value. revert acc. assert (H : all_digits s = true → ∀ acc, ∃ n, digits_acc acc s = Some (acc * 10 ^ Z.of_nat (len s) + n) ∧ digits_acc 0 s = Some n).
  { induction s as [|c s IH]; intros Hs acc.
    - exists 0. rewrite len_nil. cbn. split; [f_equal; lia|done].
    - apply all_digits_cons in Hs as [Hc Hs]. cbn [digits_acc]. rewrite Hc. destruct (IH Hs (acc * 10 + digit_val c)) as (n & -> & E). destruct (IH Hs (0 * 10 + digit_val c)) as (n' & E' & E2).
      rewrite E in E2. injection E2 as <-. eexists. split; [|exact E']. f_equal. rewrite len_cons, Nat2Z.inj_succ, Z.pow_succ_r by lia. ring. }
  intros acc Hs. destruct (H Hs acc) as (n & -> & E). by rewrite E.
Qed.

Lemma Q_pow10_pos k : (0 < inject_Z (10 ^ Z.of_nat k))%Q.
Proof. change 0%Q with (inject_Z 0). rewrite <- Zlt_Qlt. apply Z.pow_pos_nonneg; lia. Qed.

Lemma fracQ_value s : all_digits s = true → (fracQ s == inject_Z (digits_value s) / inject_Z (10 ^ Z.of_nat (len s)))%Q.
Proof.
  induction s as [|c s IH]; [done|]. intros [Hc Hs]%all_digits_cons. cbn [fracQ]. rewrite (IH Hs).
  assert (Ev : digits_value (String c s) = digit_val c * 10 ^ Z.of_nat (len s) + digits_value s).
  { unfold digits_value at 1. cbn [digits_acc]. rewrite Hc, (digits_acc_shift s _ Hs). cbn [default from_option id]. f_equal. }
  rewrite Ev, len_cons, Nat2Z.inj_succ, Z.pow_succ_r by lia. rewrite inject_Z_plus, !inject_Z_mult. pose proof (Q_pow10_pos (len s)) as Hp. set (P := inject_Z (10 ^ Z.of_nat (len s))) in *.
  change (inject_Z 10) with 10%Q. field. intros E. rewrite E in Hp. by apply Qlt_irrefl in Hp.
Qed.

Lemma fracQ_trim s : (fracQ (TrimRightP zero_byte s) == fracQ s)%Q.
Proof.
  induction s as [|c s IH]; [done|]. cbn [TrimRightP fracQ]. destruct (TrimRightP zero_byte s) as [|d u] eqn:E.
  - destruct (Ascii.eqb_spec "0" c) as [<-|_]; cbn [fracQ str1] in *; rewrite <- IH; [by vm_compute|done].
  - cbn [fracQ] in *. by rewrite IH.
Qed.

Definition stripped (s : string) : Prop := TrimRightP zero_byte s = s.

Lemma trim_idem s : stripped (TrimRightP zero_byte s).
Proof.
  unfold stripped. induction s as [|c s IH]; [done|]. cbn [TrimRightP]. destruct (TrimRightP zero_byte s) as [|d u] eqn:E.
  - destruct (Ascii.eqb "0" c) eqn:Ec; [done|]. unfold str1. cbn [TrimRightP]. by rewrite Ec.
  - cbn [TrimRightP] in IH |- *. by rewrite IH.
Qed.

Lemma stripped_cons c s : stripped (String c s) → stripped s ∧ (s = "" → c ≠ "0"%char).
Proof.
  unfold stripped. cbn [TrimRightP]. destruct (TrimRightP zero_byte s) as [|d u] eqn:E.
  - destruct (Ascii.eqb_spec "0" c) as [|Hn]; [done|]. intros [= <-]. split; [done|]. intros _ ->. by apply Hn.
  - intros [= <-]. split; [by rewrite <- E at 2|done].
Qed.

Lemma digit_zero c : is_digit c = true → digit_val c = 0 → c = "0"%char.
Proof. byte_cases c. Qed.

Lemma digit_val_inj c d : is_digit c = true → is_digit d = true → digit_val c = digit_val d → c = d.
Proof.
  unfold is_digit, byte_in, digit_val, byte_val. intros _ _ E. rewrite <- (ascii_N_embedding c), <- (ascii_N_embedding d). f_equal. lia.
Qed.

Lemma stripped_pos s : all_digits s = true → stripped s → s ≠ "" → (0 < fracQ s)%Q.
Proof.
  induction s as [|c s IH]; [done|]. intros [Hc Hs]%all_digits_cons [Hst H0]%stripped_cons _. cbn [fracQ]. destruct (digit_bounds c Hc). destruct s as [|d s].
  - specialize (H0 eq_refl). assert (0 < digit_val c) as Hd by (pose proof (digit_val_range c Hc); pose proof (digit_zero c Hc); destruct (Z.eq_dec (digit_val c) 0); [by destruct H0; auto|lia]).
    rewrite Zlt_Qlt in Hd. change (inject_Z 0) with 0%Q in Hd. cbn [fracQ]. lra.
  - specialize (IH Hs Hst ltac:(done)). lra.
Qed.

Lemma frac_step a b (x y : Q) : (0 <= x)%Q → (x < 1)%Q → (0 <= y)%Q → (y < 1)%Q → (inject_Z a + x == inject_Z b + y)%Q → a = b ∧ (x == y)%Q.
Proof.
  intros Hx Hx1 Hy Hy1 E. assert (a = b) as ->; [|split; [done|lra]].
  assert (H1 : (inject_Z a < inject_Z (b + 1))%Q) by (rewrite inject_Z_plus; change (inject_Z 1) with 1%Q; lra).
  assert (H2 : (inject_Z b < inject_Z (a + 1))%Q) by (rewrite inject_Z_plus; change (inject_Z 1) with 1%Q; lra).
  rewrite <- Zlt_Qlt in H1, H2. lia.
Qed.

Lemma fracQ_inj s t : all_digits s = true → all_digits t = true → stripped s → stripped t → (fracQ s == fracQ t)%Q → s = t.
Proof.
  revert t. induction s as [|c s IH]; intros t Hs Ht Zs Zt E.
  - destruct t as [|d t]; [done|]. pose proof (stripped_pos _ Ht Zt ltac:(done)). rewrite <- E in H. cbn in H. by apply Qlt_irrefl in H.
  - destruct t as [|d t]; [pose proof (stripped_pos _ Hs Zs ltac:(done)); rewrite E in H; cbn in H; by apply Qlt_irrefl in H|].
    apply all_digits_cons in Hs as [Hc Hs], Ht as [Hd Ht]. apply stripped_cons in Zs as [Zs _], Zt as [Zt _]. cbn [fracQ] in E.
    destruct (fracQ_bounds s Hs), (fracQ_bounds t Ht). destruct (frac_step (digit_val c) (digit_val d) (fracQ s) (fracQ t)) as [Ed Ef]; [done..|lra|].
    apply digit_val_inj in Ed as ->; [|done..]. f_equal. by apply IH.
Qed.

(** ** Dates *)

Lemma two_iff s n : two s n ↔ twoDigits s = Some n.
Proof.
  unfold two. rewrite digits_iff. split.
  - intros [Hl [Hd <-]]. destruct s as [|c [|d [|? ?]]]; try done. apply all_digits_cons in Hd as [Hc [Hd _]%all_digits_cons].
    unfold twoDigits, digits_value. cbn. rewrite Hc, Hd. cbn. f_equal.
  - intros H. destruct (twoDigits_inv _ _ H) as (c & d & -> & Hc & Hd & _). split; [done|]. split; [by rewrite !all_digits_cons|].
    revert H. unfold twoDigits, digits_value. cbn. rewrite Hc, Hd. cbn. intros [= <-]. done.
Qed.

Lemma two_bounds s n : two s n → 0 <= n <= 99.
Proof. intros H%two_iff. by destruct (twoDigits_inv _ _ H) as (c & d & _ & _ & _ & ?). Qed.

Lemma zone_iff zs tz off : zone zs tz off ↔ zone_form zs tz off.
Proof.
  split.
  - intros [| |sg e hh mm h m Hsg Hne Hh%two_iff Hm%two_iff Hm59 Hh14]; [constructor..|]. assert (Hh' : h < 14 ∨ (h = 14 ∧ m = 0)) by lia.
    destruct Hsg; [done| |].
    + change ("+" +:+ (hh +:+ (":" +:+ mm))) with (String "+" (hh +:+ String ":" mm)).
      pose proof (zone_offset "+" hh mm h m ltac:(by left) Hh Hm Hm59 Hh') as H. rewrite bool_decide_eq_false_2 in H by done. by replace (1 * (h * 3600 + m * 60)) with ((h * 60 + m) * 60) by lia.
    + change ("-" +:+ (hh +:+ (":" +:+ mm))) with (String "-" (hh +:+ String ":" mm)).
      pose proof (zone_offset "-" hh mm h m ltac:(by right) Hh Hm Hm59 Hh') as H. rewrite bool_decide_eq_true_2 in H by done. by replace (-1 * (h * 3600 + m * 60)) with (- ((h * 60 + m) * 60)) by lia.
  - intros [| |sg hh mm th tm Hsg Hh%two_iff Hm%two_iff Htm Hth]; [constructor..|]. assert (Hth' : th <= 13 ∨ (th = 14 ∧ tm = 0)) by lia. destruct Hsg as [-> | ->].
    + rewrite bool_decide_eq_false_2 by done. replace ((th * 60 + tm) * 60) with (1 * (th * 3600 + tm * 60)) by lia.
      by apply (zone_hours "+" 1 hh mm th tm sign_plus).
    + rewrite bool_decide_eq_true_2 by done. replace (- ((th * 60 + tm) * 60)) with (-1 * (th * 3600 + tm * 60)) by lia.
      by apply (zone_hours "-" (-1) hh mm th tm sign_minus).
Qed.

Lemma leap_iff y : leap y ↔ isLeapYear y = true.
Proof. rewrite isLeapYear_mod. unfold leap. rewrite andb_true_iff, orb_true_iff, negb_true_iff, !Z.eqb_eq, Z.eqb_neq. done. Qed.

Lemma month_lengths_eq y : month_lengths y = [31; if isLeapYear y then 29 else 28; 31; 30; 31; 30; 31; 31; 30; 31; 30; 31].
Proof.
  unfold month_lengths. destruct (decide (leap y)) as [H%leap_iff|H]; [by rewrite H|]. rewrite leap_iff in H. by destruct (isLeapYear y).
Qed.

Ltac twelve m := assert (m = 1 ∨ m = 2 ∨ m = 3 ∨ m = 4 ∨ m = 5 ∨ m = 6 ∨ m = 7 ∨ m = 8 ∨ m = 9 ∨ m = 10 ∨ m = 11 ∨ m = 12) as Hmonths by lia;
  destruct Hmonths as [->|[->|[->|[->|[->|[->|[->|[->|[->|[->|[->| ->]]]]]]]]]]].

Lemma month_lengths_lookup y m : 1 <= m <= 12 → month_lengths y !! Z.to_nat (m - 1) = Some (daysInMonth y m).
Proof. intros Hm. rewrite month_lengths_eq. twelve m; done. Qed.

Lemma real_date_iff y m d : real_date y m d ↔ valid_date y m d.
Proof.
  unfold real_date, valid_date. split.
  - intros [Hm (n & Hn & Hd)]. assert (m <= 12).
    { apply lookup_lt_Some in Hn. rewrite month_lengths_eq in Hn. cbn [length] in Hn. lia. }
    rewrite month_lengths_lookup in Hn by lia. injection Hn as <-. split; [lia|done].
  - intros [Hm Hd]. split; [lia|]. exists (daysInMonth y m). by rewrite month_lengths_lookup.
Qed.

Lemma day_number_civil y m d : 1 <= m <= 12 → day_number y m d = daysFromCivil y m d + 60.
Proof.
  intros Hm. rewrite daysFromCivil_formula by done. pose proof (year_days_succ y) as Hy. unfold day_number. rewrite month_lengths_eq.
  assert (HL : 365 * y + leap_years_before y = year_days (y - 1) + 366).
  { unfold leap_years_before, year_days. Z.to_euclidean_division_equations. lia. }
  rewrite HL. clear HL. destruct (isLeapYear y); twelve m;
    repeat match goal with
    | |- context [foldr Z.add 0 (take ?a ?l)] => let v := eval vm_compute in (foldr Z.add 0 (take a l)) in change (foldr Z.add 0 (take a l)) with v
    | |- context [month_offset ?a] => let v := eval vm_compute in (month_offset a) in change (month_offset a) with v
    | |- context [?a <=? 2] => let v := eval vm_compute in (a <=? 2) in change (a <=? 2) with v
    end; cbv iota; lia.
Qed.

Lemma year_form_iff ys y : year_form ys y ↔ valid_year ys = true ∧ digits_value ys = y.
Proof.
  unfold year_form, valid_year. rewrite digits_iff, !andb_true_iff, !Nat.leb_le, negb_true_iff, andb_false_iff, Nat.ltb_ge, bool_decide_eq_false, allDigits_spec.
  assert (H0 : byte_at ys 0 ≠ Some "0"%char ↔ ∀ t, ys ≠ String "0" t) by (destruct ys; cbn; naive_solver).
  rewrite H0. split.
  - intros (Hl & (Hd & Hv) & Hz). split_and!; try done; try lia; [intros ->; rewrite len_nil in Hl; lia|].
    destruct (decide (4 < len ys)%nat); [right; auto|left; lia].
  - intros ((((? & ?) & Hne & ?) & Hz) & ?). split; [lia|]. split; [done|]. intros ?. destruct Hz; [lia|done].
Qed.

Lemma second_fraction_digits fs f : second_fraction fs f → ∃ fr, fs = fraction_text fr ∧ all_digits fr = true ∧ f == fracQ fr.
Proof.
  intros [|t n [Hne [Hd <-]%digits_iff]]; [by exists ""|]. exists t. split_and!; [by destruct t|done|]. by rewrite fracQ_value.
Qed.

Lemma digits_second_fraction fr : all_digits fr = true → ∃ f, second_fraction (fraction_text fr) f ∧ f == fracQ fr.
Proof.
  intros Hd. destruct (decide (fr = "")) as [->|Hne]; [exists 0%Q; split; [constructor|done]|].
  exists (inject_Z (digits_value fr) / inject_Z (10 ^ Z.of_nat (len fr)))%Q. split; [|by rewrite fracQ_value].
  replace (fraction_text fr) with ("." +:+ fr) by (by destruct fr). constructor. split; [done|]. by apply digits_iff.
Qed.

Lemma all_digits_trim s : all_digits s = true → all_digits (TrimRightP zero_byte s) = true.
Proof.
  induction s as [|c s IH]; [done|]. intros [Hc Hs]%all_digits_cons. specialize (IH Hs). cbn [TrimRightP]. destruct (TrimRightP zero_byte s).
  - destruct (Ascii.eqb "0" c); [done|]. by apply all_digits_cons.
  - by apply all_digits_cons.
Qed.

Lemma trim_empty fr : all_digits fr = true → is_empty (TrimRightP zero_byte fr) = true ↔ fracQ fr == 0.
Proof.
  intros Hd. rewrite is_empty_true, <- (fracQ_trim fr). split; [by intros ->|]. intros E. destruct (TrimRightP zero_byte fr) eqn:Et; [done|].
  pose proof (stripped_pos (TrimRightP zero_byte fr) (all_digits_trim fr Hd) (trim_idem fr)) as H. rewrite Et in H. specialize (H ltac:(done)). rewrite E in H. by apply Qlt_irrefl in H.
Qed.

Lemma clock_iff h m s f fr : all_digits fr = true → f == fracQ fr → clock h m s f ↔ valid_clock h m s (TrimRightP zero_byte fr) = true.
Proof.
  intros Hd Hf. unfold clock, valid_clock. rewrite Hf, <- (trim_empty fr Hd), !andb_true_iff, !Z.leb_le.
  destruct (Z.eqb_spec h 24) as [->|Hn].
  - rewrite !andb_true_iff, !Z.eqb_eq. split; [intros [?|?]; [lia|]|]; naive_solver lia.
  - rewrite Z.leb_le. naive_solver lia.
Qed.

(** The instant a result stands for: its days are counted from the first of March. *)
Definition instant (v : dateTimeValue) : Q := inject_Z ((days v + 60) * 86400 + seconds v) + fracQ (frac v).

Lemma dateTime_sound s v : parseXSDDateTime s = Some v → dateTime s (timezone v) (instant v).
Proof.
  intros []%parseXSDDateTime_fields. destruct (digits_second_fraction fr Hfr) as (f & Hf & Ef). set (e := if neg then -1 else 1).
  assert (Ey : (if neg then - digits_value ys else digits_value ys) = e * digits_value ys) by (unfold e; destruct neg; lia). rewrite Ey in *.
  apply (dateTime_intro s _ _ (if neg then "-" else "") e ys mos ds hs mis ss (fraction_text fr) zn (digits_value ys) month day hour minute second f off).
  - unfold e. destruct neg; auto.
  - exact Hs.
  - by apply year_form_iff.
  - by apply two_iff.
  - by apply two_iff.
  - by apply two_iff.
  - by apply two_iff.
  - by apply two_iff.
  - exact Hf.
  - apply zone_iff. by rewrite Htz.
  - by apply real_date_iff.
  - by apply (clock_iff _ _ _ _ fr).
  - unfold instant. rewrite Hfrac, (fracQ_trim fr), Ef, day_number_civil by apply Hdate. apply Qplus_comp; [|done].
    apply inject_Z_injective. lia.
Qed.

Lemma dateTime_complete s tz x : dateTime s tz x → ∃ v, parseXSDDateTime s = Some v ∧ timezone v = tz ∧ instant v == x.
Proof.
  intros [sg e ys mos ds hs mis ss fs zs y mo d h mi sec f off Hsg Es Hy Hmo Hd Hh Hmi Hsec Hf Hz Hdate Hc Hx].
  destruct (second_fraction_digits fs f Hf) as (fr & -> & Hfr & Ef). apply year_form_iff in Hy as [Hy <-]. apply real_date_iff in Hdate.
  apply (clock_iff _ _ _ _ fr Hfr Ef) in Hc. apply zone_iff in Hz. apply two_iff in Hmo, Hd, Hh, Hmi, Hsec.
  set (T := daysFromCivil (e * digits_value ys) mo d * 86400 + h * 3600 + mi * 60 + sec - off).
  exists (MkDateTime (T / 86400) (T mod 86400) (TrimRightP zero_byte fr) tz). split; [|split; [done|]].
  - apply parseXSDDateTime_fields. set (neg := bool_decide (e = -1)).
    assert (Ey : (if neg then - digits_value ys else digits_value ys) = e * digits_value ys) by (unfold neg; destruct Hsg as [[_ ->]|[_ ->]]; [rewrite bool_decide_eq_false_2 by done|rewrite bool_decide_eq_true_2 by done]; lia).
    apply (dateTime_form_intro s _ neg ys mos ds hs mis ss fr zs mo d h mi sec tz off); try done.
    + rewrite Es. unfold neg. by destruct Hsg as [[-> ->]|[-> ->]].
    + by rewrite Ey.
    + cbn [seconds]. apply Z.mod_pos_bound. lia.
    + rewrite Ey. cbn [days seconds]. pose proof (Z.div_mod T 86400 ltac:(lia)). unfold T in *. lia.
  - unfold instant. cbn [days seconds frac]. rewrite Hx, (fracQ_trim fr), Ef, day_number_civil by apply Hdate. apply Qplus_comp; [|done].
    apply inject_Z_injective. pose proof (Z.div_mod T 86400 ltac:(lia)). unfold T in *. lia.
Qed.

Lemma dateTime_result_ok s v : parseXSDDateTime s = Some v → 0 <= seconds v < 86400 ∧ all_digits (frac v) = true ∧ stripped (frac v).
Proof. intros []%parseXSDDateTime_fields. rewrite Hfrac. split_and!; [apply Hrange|apply Hrange|by apply all_digits_trim|apply trim_idem]. Qed.

Lemma instant_inj a b v w : parseXSDDateTime a = Some v → parseXSDDateTime b = Some w → instant v == instant w → timezone v = timezone w → v = w.
Proof.
  intros (Hv & Dv & Sv)%dateTime_result_ok (Hw & Dw & Sw)%dateTime_result_ok E Ht. destruct (fracQ_bounds _ Dv), (fracQ_bounds _ Dw).
  unfold instant in E. apply frac_step in E as [Ei Ef]; [|done..]. apply fracQ_inj in Ef; [|done..]. assert (Ed : days v = days w) by lia. assert (Es : seconds v = seconds w) by lia. clear Ei.
  destruct v as [d1 s1 f1 t1], w as [d2 s2 f2 t2]. cbn in Ed, Es, Ef, Ht. by subst.
Qed.

(** C28: [parseXSDDateTime] accepts exactly the forms of the dateTime grammar (years
    of 4 to 12 digits, real dates, times up to 24:00:00, offsets up to 14 hours), its
    result stands for the timezone and the instant the grammar gives the form, and
    the results of two forms are equal exactly when both have a timezone or neither
    has and their instants are equal. *)
Theorem parseXSDDateTime_spec :
  (∀ s v, parseXSDDateTime s = Some v → dateTime s (timezone v) (instant v)) ∧
  (∀ s tz x, dateTime s tz x → ∃ v, parseXSDDateTime s = Some v ∧ timezone v = tz ∧ instant v == x) ∧
  (∀ a b v w, parseXSDDateTime a = Some v → parseXSDDateTime b = Some w → v = w ↔ timezone v = timezone w ∧ instant v == instant w).
Proof.
  split_and!; [exact dateTime_sound|exact dateTime_complete|]. intros a b v w Ha Hb. split; [by intros ->|]. intros [? ?]. by eapply instant_inj.
Qed.

(** ** Values of literals *)

Ltac listed := repeat first [by left|right].

Lemma integer_type_iff dt mn mx : integer_type dt mn mx ↔ ∃ r, integerDatatypes !! URIRef_value dt = Some r ∧ ir_min r = mn ∧ ir_max r = mx.
Proof.
  unfold integer_type. split.
  - intros (name & Hin & ->). unfold integer_types in Hin.
    repeat (apply elem_of_cons in Hin as [[= -> -> ->]|Hin]; [eexists; split; [vm_compute; reflexivity|done]|]). by apply elem_of_nil in Hin.
  - intros (r & Hr & <- & <-). revert Hr. unfold integerDatatypes. rewrite lookup_fmap. intros (p & Hp & ->)%fmap_Some. apply elem_of_list_to_map_2 in Hp.
    repeat (apply elem_of_cons in Hp as [Hp|Hp]; [injection Hp as -> ->; eexists; split; [|reflexivity]; unfold integer_types; listed|]). by apply elem_of_nil in Hp.
Qed.

Lemma not_integer dt : dt ∈ [XSDDecimal; XSDFloat; XSDDouble; XSDBoolean; XSDDateTime] → integerDatatypes !! URIRef_value dt = None.
Proof. rewrite !elem_of_cons. intros [->|[->|[->|[->|[->|[]%elem_of_nil]]]]]; by vm_compute. Qed.

(** The mapping of a datatype, by cases. *)
Inductive mapping_of (dt : URIRef) : (string → option xsd_value) → Prop :=
| mapping_integer r : integerDatatypes !! URIRef_value dt = Some r → mapping_of dt (λ s, VInteger <$> parseXSDInteger s r)
| mapping_decimal : dt = XSDDecimal → mapping_of dt (λ s, VDecimal <$> parseXSDDecimal s)
| mapping_float : dt = XSDFloat → mapping_of dt (λ s, VFloat <$> parseXSDFloat s 32)
| mapping_double : dt = XSDDouble → mapping_of dt (λ s, VFloat <$> parseXSDFloat s 64)
| mapping_boolean : dt = XSDBoolean → mapping_of dt (λ s, VBoolean <$> parseXSDBoolean s)
| mapping_dateTime : dt = XSDDateTime → mapping_of dt (λ s, VDateTime <$> parseXSDDateTime s).

Lemma lexical_mapping_of dt f : lexical_mapping dt = Some f → mapping_of dt f.
Proof.
  unfold lexical_mapping. destruct (integerDatatypes !! URIRef_value dt) as [r|] eqn:E; [intros [= <-]; by constructor|].
  repeat (case_decide; [intros [= <-]; by constructor|]). done.
Qed.

Lemma has_values_iff dt : has_values dt ↔ is_Some (lexical_mapping dt).
Proof.
  unfold has_values. split.
  - intros [(mn & mx & (r & Hr & _)%integer_type_iff)|Hin]; unfold lexical_mapping; [rewrite Hr; by eexists|]. rewrite (not_integer dt Hin).
    repeat (case_decide; [by eexists|]). exfalso. rewrite !elem_of_cons in Hin. destruct Hin as [?|[?|[?|[?|[?|[]%elem_of_nil]]]]]; contradiction.
  - intros [f Hf]. destruct (lexical_mapping_of dt f Hf) as [r Hr| | | | |]; [left; exists (ir_min r), (ir_max r); apply integer_type_iff; exists r; split; [exact Hr|split; reflexivity]|right; subst dt; listed..].
Qed.

Definition abs (u : xsd_value) : value :=
  match u with
  | VInteger z => IntegerValue z
  | VDecimal q => DecimalValue q
  | VFloat f => FloatValue f
  | VBoolean b => BooleanValue b
  | VDateTime v => InstantValue (timezone v) (instant v)
  end.

(** One value, written differently. *)
Definition similar (x y : value) : Prop :=
  match x, y with FloatValue f, FloatValue g => f = g | _, _ => equal_values x y end.

Lemma similar_equal x y x' y' : similar x x' → similar y y' → equal_values x' y' → equal_values x y.
Proof.
  destruct x, x'; try done; destruct y, y'; try done; cbn; intros; try congruence.
  - by rewrite H, H0.
  - destruct H, H0, H1. split; [congruence|]. by rewrite H2, H3.
Qed.

Lemma float_equal_iff f g : SFeqb f g = true ↔ float_equal f g.
Proof.
  rewrite SFcompare_eq. unfold float_equal. split.
  - destruct f as [s|s| |s m e], g as [s'|s'| |s' m' e']; try done; [intros _; right; by eexists _, _|intros ->; by left|intros (-> & -> & ->); by left].
  - intros [[-> Hn]|(s & t & -> & ->)]; [by destruct g|done].
Qed.

Lemma mapping_sound dt f s u : mapping_of dt f → f s = Some u → denotes dt s (abs u).
Proof.
  intros [r Hr|Hd|Hd|Hd|Hd|Hd] (z & Hz & ->)%fmap_Some; cbn [abs].
  - apply parseXSDInteger_iff in Hz as [Hz Hw]. apply (denotes_integer dt s (ir_min r) (ir_max r)); [|done..]. apply integer_type_iff. exists r. split; [exact Hr|split; reflexivity].
  - apply denotes_decimal; [done|by apply parseXSDDecimal_sound].
  - apply denotes_float; [done|]. by apply (parseXSDFloat_iff s 32).
  - apply denotes_double; [done|]. by apply (parseXSDFloat_iff s 64).
  - apply denotes_boolean; [done|]. by apply parseXSDBoolean_iff.
  - apply denotes_dateTime; [done|]. by apply dateTime_sound.
Qed.

Ltac other_type := exfalso; match goal with
  | Hd : ?dt = ?t, Hdt : ?dt = ?u |- _ => lazymatch t with u => fail 1 | _ => rewrite Hd in Hdt; discriminate Hdt end
  end.

Lemma integer_not_other dt r : integerDatatypes !! URIRef_value dt = Some r → dt ∉ [XSDDecimal; XSDFloat; XSDDouble; XSDBoolean; XSDDateTime].
Proof. intros Hr Hin. by rewrite (not_integer dt Hin) in Hr. Qed.

Lemma mapping_complete dt f s x : mapping_of dt f → denotes dt s x → ∃ u, f s = Some u ∧ similar (abs u) x.
Proof.
  intros Hm Hx. destruct Hm as [r Hr|Hd|Hd|Hd|Hd|Hd].
  { pose proof (integer_not_other dt r Hr) as Hno. destruct Hx as [mn mx z (r' & Hr' & <- & <-)%integer_type_iff Hz Hw| | | | |]; [|exfalso; subst dt; apply Hno; listed..].
    rewrite Hr in Hr'. injection Hr' as <-. exists (VInteger z). split; [|done]. by rewrite (proj2 (parseXSDInteger_iff s r z) (conj Hz Hw)). }
  all: assert (Hno : integerDatatypes !! URIRef_value dt = None) by (apply not_integer; subst dt; listed).
  all: destruct Hx as [mn mx z (r' & Hr' & _)%integer_type_iff _ _|q Hdt Hq|g Hdt Hg|g Hdt Hg|b Hdt Hb|tz x Hdt Hq]; [rewrite Hno in Hr'; discriminate Hr'|..].
  all: try other_type. all: clear Hd Hdt Hno.
  - destruct (decimal_form_Some s q Hq) as (q' & -> & E). by exists (VDecimal q').
  - exists (VFloat g). by rewrite (proj2 (parseXSDFloat_iff s 32 24 128 g eq_refl) Hg).
  - exists (VFloat g). by rewrite (proj2 (parseXSDFloat_iff s 64 53 1024 g eq_refl) Hg).
  - exists (VBoolean b). by rewrite (proj2 (parseXSDBoolean_iff s b) Hb).
  - destruct (dateTime_complete s tz x Hq) as (v & -> & Ht & E). by exists (VDateTime v).
Qed.

Lemma value_eq_abs dt f a b u w : mapping_of dt f → f a = Some u → f b = Some w → value_eq u w ↔ equal_values (abs u) (abs w).
Proof.
  intros [r Hr|Hd|Hd|Hd|Hd|Hd] (x & Hx & ->)%fmap_Some (y & Hy & ->)%fmap_Some; cbn; [done|done|apply float_equal_iff|apply float_equal_iff|done|].
  split; [intros ->; by split|]. intros [Ht E]. by eapply instant_inj.
Qed.

Lemma same_meaning_iff dt f a b : lexical_mapping dt = Some f → same_value f a b ↔ same_meaning dt a b.
Proof.
  intros Hm%lexical_mapping_of. unfold same_value, same_meaning. destruct (f a) as [u|] eqn:Ea, (f b) as [w|] eqn:Eb.
  - rewrite (value_eq_abs dt f a b u w Hm Ea Eb). split.
    + intros E. left. exists (abs u), (abs w). split_and!; [by eapply mapping_sound|by eapply mapping_sound|done].
    + intros [(x & y & Hx & Hy & E)|[-> Hn]]; [|destruct (Hn (abs w)); by eapply mapping_sound].
      destruct (mapping_complete dt f a x Hm Hx) as (u' & Eu & Su), (mapping_complete dt f b y Hm Hy) as (w' & Ew & Sw).
      rewrite Ea in Eu. rewrite Eb in Ew. injection Eu as <-. injection Ew as <-. by eapply similar_equal.
  - split; [done|]. intros [(x & y & Hx & Hy & E)|[-> Hn]]; [|congruence]. destruct (mapping_complete dt f b y Hm Hy) as (w' & Ew & _). congruence.
  - split; [done|]. intros [(x & y & Hx & Hy & E)|[-> Hn]]; [|congruence]. destruct (mapping_complete dt f a x Hm Hx) as (w' & Ew & _). congruence.
  - split.
    + intros ->. right. split; [done|]. intros x Hx. destruct (mapping_complete dt f b x Hm Hx) as (w & Ew & _). congruence.
    + intros [(x & y & Hx & Hy & E)|[-> Hn]]; [|done]. destruct (mapping_complete dt f a x Hm Hx) as (w & Ew & _). congruence.
Qed.

(** C11: [ValueEqual] decides identity in the value space.  Two literals are equal
    when they have one datatype and: for the integer types with their bounds,
    decimals, floats, doubles, booleans and dateTimes, their forms denote equal
    values by the grammars of [XsdSpec], or are one form outside the lexical space;
    for other types, their forms are the same, and with the language types the
    language too, without case, and the direction. *)
Theorem ValueEqual_spec : ∀ l m, ValueEqual l m = true ↔ same_literal_value l m.
Proof.
  intros l m. unfold ValueEqual, same_literal_value. rewrite valueEqual_identical, has_values_iff. unfold value_identical.
  destruct (lexical_mapping (datatype l)) as [f|] eqn:Hf.
  - rewrite (same_meaning_iff _ f) by done. split.
    + intros [? ?]. split_and!; [done|done|]. intros Hn. destruct Hn. by eexists.
    + intros (? & H & _). split; [done|]. apply H. by eexists.
  - unfold language_type. setoid_rewrite is_lang_type_spec. split.
    + intros [? ?]. split_and!; [done|by intros [? ?]|done].
    + intros (? & _ & H). split; [done|]. apply H. by intros [? ?].
Qed.
