(* ===== verification/Iri.v ===== *)
(** * IRI references

    [internal/iri/resolve.go] and [internal/iri/relativize.go]: splitting a
    reference into components, RFC 3986 resolution against a base, and the shortest
    relative reference.  Loops run on fuel of the length of their text, which is
    proved to be enough. *)

From S2P Require Import Prelude GoStrings.
From stdpp Require Import options.

(** ** The code *)

(** A component is absent or present, perhaps empty: the [has] flags. *)
Record components := MkComponents {
  scheme : option string;
  authority : option string;
  path : string;
  query : option string;
  fragment : option string
}.

(** A byte of a scheme after its first. *)
Definition is_scheme_byte (c : ascii) : bool :=
  is_digit c || Ascii.eqb c "+" || Ascii.eqb c "-" || Ascii.eqb c ".".

Fixpoint validScheme_from (first : bool) (s : string) : bool :=
  match s with
  | EmptyString => true
  | String c s => (is_letter c || (negb first && is_scheme_byte c)) && validScheme_from false s
  end.
Definition validScheme (s : string) : bool := validScheme_from true s && negb (is_empty s).

Definition is_scheme_stop (c : ascii) : bool :=
  Ascii.eqb c ":" || Ascii.eqb c "/" || Ascii.eqb c "?" || Ascii.eqb c "#".
Definition is_authority_stop (c : ascii) : bool := Ascii.eqb c "/" || Ascii.eqb c "?" || Ascii.eqb c "#".

(** The steps of [split]: each takes a component off the text. *)
Definition split_scheme (s : string) : option string * string :=
  match IndexP is_scheme_stop s with
  | Some i => if (0 <? i) && bool_decide (byte_at s i = Some ":"%char) && validScheme (stake i s)
              then (Some (stake i s), sdrop (S i) s) else (None, s)
  | None => (None, s)
  end.

Definition split_authority (s : string) : option string * string :=
  match CutPrefix s "//" with
  | Some s => let stop := default (len s) (IndexP is_authority_stop s) in (Some (stake stop s), sdrop stop s)
  | None => (None, s)
  end.

(** The text after the first [c], and the text before it. *)
Definition split_last (c : ascii) (s : string) : option string * string :=
  match IndexByte s c with
  | Some i => (Some (sdrop (S i) s), stake i s)
  | None => (None, s)
  end.

Definition split (s : string) : components :=
  let '(sch, s) := split_scheme s in
  let '(auth, s) := split_authority s in
  let '(frag, s) := split_last "#" s in
  let '(q, s) := split_last "?" s in
  MkComponents sch auth s q frag.

Definition IsAbsolute (s : string) : bool := bool_decide (is_Some (scheme (split s))).

(** [components.String]. *)
Definition components_String (c : components) : string :=
  match scheme c with Some s => s +:+ ":" | None => EmptyString end +:+
  match authority c with Some a => "//" +:+ a | None => EmptyString end +:+
  path c +:+
  match query c with Some q => "?" +:+ q | None => EmptyString end +:+
  match fragment c with Some f => "#" +:+ f | None => EmptyString end.

Definition merge (b : components) (refPath : string) : string :=
  if bool_decide (is_Some (authority b)) && is_empty (path b) then "/" +:+ refPath
  else match LastIndexByte (path b) "/" with
       | Some i => stake (S i) (path b) +:+ refPath
       | None => refPath
       end.

(** The end of the first segment of a path that is not empty: the index of the
    next slash, not counting an initial one. *)
Definition segment_end (s : string) : nat :=
  match s with
  | String c s' =>
      if Ascii.eqb c "/" then match IndexByte s' "/" with Some i => S i | None => len s end
      else default (len s) (IndexByte s "/")
  | EmptyString => O
  end.

(** One iteration on the input and the segments of the output, last first. *)
Definition dot_step (s : string) (out : list string) : string * list string :=
  if HasPrefix s "../" then (sdrop 3 s, out)
  else if HasPrefix s "./" then (sdrop 2 s, out)
  else if HasPrefix s "/./" then (sdrop 2 s, out)
  else if String.eqb s "/." then ("/", out)
  else if HasPrefix s "/../" then (sdrop 3 s, tail out)
  else if String.eqb s "/.." then ("/", tail out)
  else if String.eqb s "." || String.eqb s ".." then (EmptyString, out)
  else (sdrop (segment_end s) s, stake (segment_end s) s :: out).

Fixpoint dot_loop (fuel : nat) (s : string) (out : list string) : option (list string) :=
  match s with
  | EmptyString => Some (rev out)
  | _ => match fuel with
         | O => None
         | S fuel => let '(s, out) := dot_step s out in dot_loop fuel s out
         end
  end.

(** Every iteration shortens the input, so its length is enough fuel. *)
Definition removeDotSegments (p : string) : option string :=
  if negb (Contains p ".") then Some p
  else (λ out, Join out EmptyString) <$> dot_loop (len p) p [].

Definition resolve_target (b r : components) : option components :=
  match scheme r, authority r with
  | Some _, _ => (λ p, MkComponents (scheme r) (authority r) p (query r) (fragment r)) <$> removeDotSegments (path r)
  | None, Some _ => (λ p, MkComponents (scheme b) (authority r) p (query r) (fragment r)) <$> removeDotSegments (path r)
  | None, None =>
      if is_empty (path r) then
        Some (MkComponents (scheme b) (authority b) (path b)
                (match query r with Some q => Some q | None => query b end) (fragment r))
      else
        (λ p, MkComponents (scheme b) (authority b) p (query r) (fragment r)) <$>
          removeDotSegments (if HasPrefix (path r) "/" then path r else merge b (path r))
  end.

(** [None] only for lack of fuel. *)
Definition Resolve_fuel (base ref : string) : option string :=
  let b := split base in
  match scheme b with
  | None => Some ref
  | Some _ => components_String <$> resolve_target b (split ref)
  end.
Definition Resolve (base ref : string) : string := default ref (Resolve_fuel base ref).

Definition pathSegmentRef (p : string) : string :=
  let '(first, _, _) := CutByte p "/" in
  if is_empty p || Contains first ":" then "./" +:+ p else p.

(** The closure [try]: keep a shorter reference that resolves to the target. *)
Definition try_ref (base target best ref : string) : string :=
  if (len ref <? len best) && String.eqb (Resolve base ref) target then ref else best.

(** The loop over the base's directory and its ancestors. *)
Fixpoint ancestors (fuel : nat) (base target tpath suffix up d best : string) : option string :=
  match fuel with
  | O => None
  | S fuel =>
      let best := match CutPrefix tpath d with
                  | Some rest => try_ref base target best (up +:+ pathSegmentRef rest +:+ suffix)
                  | None => best
                  end in
      match LastIndexByte (TrimSuffix d "/") "/" with
      | None => Some best
      | Some i => ancestors fuel base target tpath suffix (up +:+ "../") (stake (S i) d) best
      end
  end.

Definition opt_text (mark : string) (c : option string) : string :=
  match c with Some s => mark +:+ s | None => EmptyString end.

Definition Relativize (base target : string) : string * bool :=
  let b := split base in
  let t := split target in
  if bool_decide (scheme b = None ∨ scheme t = None ∨ scheme b ≠ scheme t ∨ authority b ≠ authority t)
  then (target, false)
  else
    let suffix := opt_text "?" (query t) +:+ opt_text "#" (fragment t) in
    let try := try_ref base target in
    let best := target in
    let best :=
      if String.eqb (path t) (path b) then
        let best := try best EmptyString in
        let best := match fragment t with Some f => try best ("#" +:+ f) | None => best end in
        try best suffix
      else best in
    let best :=
      match LastIndexByte (path b) "/" with
      | Some dir => default best (ancestors (S (len (path b))) base target (path t) suffix EmptyString (stake (S dir) (path b)) best)
      | None => best
      end in
    let best :=
      if bool_decide (is_Some (authority t)) && HasPrefix (path t) "/" && negb (HasPrefix (path t) "//")
      then try best (path t +:+ suffix) else best in
    (best, negb (String.eqb best target)).

(** ** Splitting and recomposing *)

Lemma CutPrefix_Some s p t : CutPrefix s p = Some t ↔ s = p +:+ t.
Proof.
  unfold CutPrefix. destruct (HasPrefix s p) eqn:E.
  - apply HasPrefix_true in E as [u ->]. rewrite sdrop_app. split; [congruence|]. intros He. by apply app_inj_l in He as ->.
  - split; [done|]. intros ->. by rewrite HasPrefix_app in E.
Qed.

Lemma byte_at_split s i c : byte_at s i = Some c → s = stake i s +:+ String c (sdrop (S i) s).
Proof.
  revert i. induction s as [|d s IH]; intros [|i]; cbn; try done; [by intros [= ->]|].
  intros Hb. rewrite sapp_cons. f_equal. by apply IH.
Qed.

Lemma IndexByte_split s c i : IndexByte s c = Some i → s = stake i s +:+ String c (sdrop (S i) s).
Proof.
  intros (a & b & -> & <- & _)%IndexByte_Some. rewrite stake_app. replace (S (len a)) with (len a + 1) by lia.
  by rewrite sdrop_app_add.
Qed.

Lemma split_scheme_text s : opt_text EmptyString (split_scheme s).1 +:+
  match (split_scheme s).1 with Some _ => ":" | None => EmptyString end +:+ (split_scheme s).2 = s.
Proof.
  unfold split_scheme. destruct (IndexP is_scheme_stop s) as [i|]; [|done].
  destruct (_ && _ && _) eqn:E; [|done]. rewrite !andb_true_iff, bool_decide_eq_true in E. destruct E as [[_ Hb] _].
  symmetry. exact (byte_at_split s i _ Hb).
Qed.

Lemma split_authority_text s : opt_text "//" (split_authority s).1 +:+ (split_authority s).2 = s.
Proof.
  unfold split_authority. destruct (CutPrefix s "//") as [t|] eqn:E; [|done]. apply CutPrefix_Some in E as ->.
  cbn [fst snd opt_text]. by rewrite app_assoc_s, stake_sdrop.
Qed.

Lemma split_last_text c s : (split_last c s).2 +:+ opt_text (str1 c) (split_last c s).1 = s.
Proof.
  unfold split_last. destruct (IndexByte s c) as [i|] eqn:E; cbn [fst snd opt_text]; [|apply sapp_nil_r].
  symmetry. exact (IndexByte_split s c i E).
Qed.

(** The pieces [split] cuts a text into, in order. *)
Lemma split_text s : components_String (split s) = s.
Proof.
  unfold split. pose proof (split_scheme_text s) as H1. destruct (split_scheme s) as [sch s1]. cbn [fst snd] in H1.
  pose proof (split_authority_text s1) as H2. destruct (split_authority s1) as [auth s2]. cbn [fst snd] in H2.
  pose proof (split_last_text "#" s2) as H3. destruct (split_last "#" s2) as [frag s3]. cbn [fst snd] in H3.
  pose proof (split_last_text "?" s3) as H4. destruct (split_last "?" s3) as [q s4]. cbn [fst snd] in H4.
  unfold components_String. cbn [scheme authority path query fragment].
  change (match auth with Some a => "//" +:+ a | None => EmptyString end) with (opt_text "//" auth).
  change (match q with Some q => "?" +:+ q | None => EmptyString end) with (opt_text (str1 "?") q).
  change (match frag with Some f => "#" +:+ f | None => EmptyString end) with (opt_text (str1 "#") frag).
  rewrite <- (app_assoc_s s4), H4, H3, H2, <- H1. destruct sch; cbn [opt_text]; rewrite ?sapp_nil_l, ?app_assoc_s; done.
Qed.

(** splitting a reference loses nothing: recomposing the components gives the
    text back, so two references with the same components are the same. *)
Theorem split_recompose : ∀ s t, components_String (split s) = s ∧ (split s = split t → s = t).
Proof.
  intros s t. split; [apply split_text|]. intros He. by rewrite <- (split_text s), <- (split_text t), He.
Qed.

(** ** Dot segments *)

(** A path segment, with its leading slash or without. *)
Definition slashed (g : string) : Prop := ∃ t, g = String "/" t ∧ has_byte "/" t = false.
Definition plain_segment (g : string) : Prop := g ≠ EmptyString ∧ has_byte "/" g = false.
Definition dots (g : string) : Prop := g = "." ∨ g = ".." ∨ g = "/." ∨ g = "/..".
Definition good_segment (g : string) : Prop := (slashed g ∨ plain_segment g) ∧ ¬ dots g.

(** What may follow a segment. *)
Definition at_boundary (t : string) : Prop := t = EmptyString ∨ ∃ u, t = String "/" u.

(** RFC 3986, section 5.2.4: the rules on the input and the output buffer. *)
Definition remove_last_segment (buf : string) : string :=
  match LastIndexByte buf "/" with Some i => stake i buf | None => EmptyString end.

Inductive rfc_step : string * string → string * string → Prop :=
  | rule_2A_up t buf : rfc_step ("../" +:+ t, buf) (t, buf)
  | rule_2A_here t buf : rfc_step ("./" +:+ t, buf) (t, buf)
  | rule_2B_slash t buf : rfc_step ("/./" +:+ t, buf) ("/" +:+ t, buf)
  | rule_2B_end buf : rfc_step ("/.", buf) ("/", buf)
  | rule_2C_slash t buf : rfc_step ("/../" +:+ t, buf) ("/" +:+ t, remove_last_segment buf)
  | rule_2C_end buf : rfc_step ("/..", buf) ("/", remove_last_segment buf)
  | rule_2D_here buf : rfc_step (".", buf) (EmptyString, buf)
  | rule_2D_up buf : rfc_step ("..", buf) (EmptyString, buf)
  | rule_2E g t buf : good_segment g → at_boundary t → rfc_step (g +:+ t, buf) (t, buf +:+ g).

(** The same rules on the program's list of segments. *)
Inductive dot_rule : string → list string → string → list string → Prop :=
  | dot_up t out : dot_rule ("../" +:+ t) out t out
  | dot_here t out : dot_rule ("./" +:+ t) out t out
  | dot_slash_here t out : dot_rule ("/./" +:+ t) out ("/" +:+ t) out
  | dot_slash_here_end out : dot_rule "/." out "/" out
  | dot_slash_up t out : dot_rule ("/../" +:+ t) out ("/" +:+ t) (tail out)
  | dot_slash_up_end out : dot_rule "/.." out "/" (tail out)
  | dot_alone out : dot_rule "." out EmptyString out
  | dot_dot_alone out : dot_rule ".." out EmptyString out
  | dot_segment g t out : good_segment g → at_boundary t → dot_rule (g +:+ t) out t (g :: out).

Lemma segment_end_split s : s ≠ EmptyString →
  (slashed (stake (segment_end s) s) ∨ plain_segment (stake (segment_end s) s)) ∧ at_boundary (sdrop (segment_end s) s).
Proof.
  destruct s as [|c s]; [done|]. intros _. unfold segment_end. destruct (Ascii.eqb_spec c "/") as [->|Hc].
  - destruct (IndexByte s "/") as [i|] eqn:E.
    + apply IndexByte_Some in E as (a & b & -> & <- & Ha). cbn [stake sdrop]. rewrite stake_app, sdrop_app.
      split; [left; by eexists|right; by eexists].
    + apply IndexByte_None in E. change (String "/" s) with (String "/" s).
      rewrite stake_all. replace (sdrop (len (String "/" s)) (String "/" s)) with EmptyString.
      * split; [left; by eexists|by left].
      * rewrite <- (sapp_nil_r (String "/" s)) at 2. by rewrite sdrop_app.
  - destruct (IndexByte (String c s) "/") as [i|] eqn:E; cbn [from_option id].
    + apply IndexByte_Some in E as (a & b & He & <- & Ha). rewrite He, stake_app, sdrop_app.
      split; [right; split; [|done]|right; by eexists]. intros ->. rewrite sapp_nil_l in He. by injection He as ->.
    + apply IndexByte_None in E. rewrite stake_all. split; [by right|left].
      rewrite <- (sapp_nil_r (String c s)) at 2. by rewrite sdrop_app.
Qed.

Lemma dot_step_rule s out : s ≠ EmptyString → dot_rule s out (dot_step s out).1 (dot_step s out).2.
Proof.
  intros Hs. unfold dot_step.
  destruct (HasPrefix s "../") eqn:E1; [apply HasPrefix_true in E1 as [t ->]; constructor|].
  destruct (HasPrefix s "./") eqn:E2; [apply HasPrefix_true in E2 as [t ->]; constructor|].
  destruct (HasPrefix s "/./") eqn:E3; [apply HasPrefix_true in E3 as [t ->]; constructor|].
  destruct (String.eqb_spec s "/.") as [->|E4]; [constructor|].
  destruct (HasPrefix s "/../") eqn:E5; [apply HasPrefix_true in E5 as [t ->]; constructor|].
  destruct (String.eqb_spec s "/..") as [->|E6]; [constructor|].
  destruct (String.eqb_spec s ".") as [->|E7]; [constructor|].
  destruct (String.eqb_spec s "..") as [->|E8]; [constructor|]. cbn [orb fst snd].
  destruct (segment_end_split s Hs) as [Hg Ht]. set (g := stake (segment_end s) s) in *. set (t := sdrop (segment_end s) s) in *.
  assert (Hst : s = g +:+ t) by (symmetry; apply stake_sdrop). rewrite Hst at 1. constructor; [|done]. split; [done|].
  clearbody g t. subst s. destruct Ht as [->|[u ->]]; rewrite ?sapp_nil_r in *.
  - by intros [-> | [-> | [-> | ->]]].
  - intros [-> | [-> | [-> | ->]]].
    + exact (eq_true_false_abs _ (HasPrefix_app "./" u) E2).
    + exact (eq_true_false_abs _ (HasPrefix_app "../" u) E1).
    + exact (eq_true_false_abs _ (HasPrefix_app "/./" u) E3).
    + exact (eq_true_false_abs _ (HasPrefix_app "/../" u) E5).
Qed.

Lemma dot_rule_shorter s out s' out' : dot_rule s out s' out' → len s' < len s.
Proof.
  intros Hr. destruct Hr as [t out|t out|t out|out|t out|out|out|out|g t out Hg Ht];
    rewrite ?len_app, ?len_cons, ?len_nil; try lia.
  destruct g; [by destruct Hg as [[(u & ? & _)|[? _]] _]|]. rewrite len_cons. lia.
Qed.

Lemma dot_loop_total fuel s out : len s ≤ fuel → is_Some (dot_loop fuel s out).
Proof.
  revert s out. induction fuel as [|fuel IH]; intros s out Hf.
  - destruct s; [by eexists|rewrite len_cons in Hf; lia].
  - destruct s as [|c s]; [by eexists|]. cbn [dot_loop]. pose proof (dot_step_rule (String c s) out ltac:(done)) as Hr.
    apply dot_rule_shorter in Hr. destruct (dot_step (String c s) out) as [s' out']. apply IH. cbn [fst] in Hr. lia.
Qed.

(** The output buffer a list of segments, last first, stands for. *)
Definition buffer (out : list string) : string := Join (rev out) EmptyString.

Lemma Join_cons g l : Join (g :: l) EmptyString = g +:+ Join l EmptyString.
Proof. destruct l; cbn [Join]; [by rewrite sapp_nil_r|by rewrite sapp_nil_l]. Qed.

Lemma Join_app l l' : Join (l ++ l') EmptyString = Join l EmptyString +:+ Join l' EmptyString.
Proof.
  induction l as [|g l IH]; [done|]. rewrite <- app_comm_cons, !Join_cons, IH. by rewrite app_assoc_s.
Qed.

Lemma buffer_cons g out : buffer (g :: out) = buffer out +:+ g.
Proof. unfold buffer. cbn [rev]. by rewrite Join_app. Qed.

(** Segments after the first start with a slash, and so does what follows. *)
Definition segments_ok (out : list string) : Prop :=
  Forall good_segment out ∧ (out = [] ∨ ∃ l g, out = l ++ [g] ∧ Forall slashed l).
Definition loop_ok (s : string) (out : list string) : Prop := segments_ok out ∧ (out = [] ∨ at_boundary s).

Lemma segments_ok_tail out : segments_ok out → segments_ok (tail out).
Proof.
  intros [Hg Hs]. destruct out as [|g out]; [done|]. split; [by inversion Hg|].
  destruct Hs as [|(l & g' & He & Hl)]; [done|]. destruct l as [|h l]; [injection He as _ ->; by left|].
  injection He as _ ->. right. exists l, g'. split; [done|]. by inversion Hl.
Qed.

Lemma LastIndexByte_None s c : LastIndexByte s c = None ↔ has_byte c s = false.
Proof.
  induction s as [|d s IH]; [done|]. cbn [LastIndexByte]. rewrite has_byte_cons, orb_false_iff, <- IH.
  destruct (LastIndexByte s c); [naive_solver|]. destruct (Ascii.eqb c d); naive_solver.
Qed.

Lemma LastIndexByte_app a c b : has_byte c b = false → LastIndexByte (a +:+ String c b) c = Some (len a).
Proof.
  intros Hb. induction a as [|d a IH].
  - rewrite sapp_nil_l. cbn [LastIndexByte]. apply LastIndexByte_None in Hb. by rewrite Hb, Ascii.eqb_refl.
  - rewrite sapp_cons. cbn [LastIndexByte]. by rewrite IH.
Qed.

(** Dropping the last segment of the list is RFC 3986's removal from the buffer. *)
Lemma buffer_tail out : segments_ok out → buffer (tail out) = remove_last_segment (buffer out).
Proof.
  intros [Hg Hs]. destruct out as [|g out]; [done|]. rewrite buffer_cons. cbn [tail]. unfold remove_last_segment.
  assert (Hcase : slashed g ∨ (out = [] ∧ plain_segment g)).
  { destruct Hs as [|(l & g' & He & Hl)]; [done|]. destruct l as [|h l].
    - injection He as -> ->. inversion Hg as [|? ? [[?|?] _]]; auto.
    - injection He as -> ->. inversion Hl; auto. }
  destruct Hcase as [(u & -> & Hu)|[-> [_ Hp]]].
  - by rewrite LastIndexByte_app, stake_app.
  - unfold buffer. cbn [rev Join]. rewrite sapp_nil_l. apply LastIndexByte_None in Hp. by rewrite Hp.
Qed.

Lemma dot_rule_rfc s out s' out' :
  dot_rule s out s' out' → loop_ok s out → rfc_step (s, buffer out) (s', buffer out') ∧ loop_ok s' out'.
Proof.
  intros Hr [Hs Hb]. destruct Hr as [t out|t out|t out|out|t out|out|out|out|g t out Hg Ht].
  - split; [constructor|]. split; [done|]. destruct Hb as [|[?|[? ?]]]; [by left|done..].
  - split; [constructor|]. split; [done|]. destruct Hb as [|[?|[? ?]]]; [by left|done..].
  - split; [constructor|]. split; [done|]. right. right. by eexists.
  - split; [constructor|]. split; [done|]. right. right. by eexists.
  - rewrite buffer_tail by done. split; [constructor|]. split; [by apply segments_ok_tail|]. right. right. by eexists.
  - rewrite buffer_tail by done. split; [constructor|]. split; [by apply segments_ok_tail|]. right. right. by eexists.
  - split; [constructor|]. split; [done|]. right. by left.
  - split; [constructor|]. split; [done|]. right. by left.
  - rewrite buffer_cons. split; [by constructor|]. split; [|by right]. destruct Hs as [Hgs Hs]. split; [by constructor|].
    right. destruct Hs as [->|(l & g' & -> & Hl)]; [by exists [], g|].
    exists (g :: l), g'. split; [done|]. constructor; [|done].
    destruct Hb as [Hb|Hb]; [by destruct l|].
    destruct Hg as [[Hg|[Hne Hg]] _]; [done|]. destruct g as [|c g]; [done|]. destruct Hb as [Hb|[u Hb]]; [done|].
    rewrite sapp_cons in Hb. injection Hb as -> _. by rewrite has_byte_cons in Hg.
Qed.

Lemma dot_loop_rfc fuel s out r :
  dot_loop fuel s out = Some r → loop_ok s out →
  rtc rfc_step (s, buffer out) (EmptyString, Join r EmptyString) ∧ segments_ok (rev r).
Proof.
  revert s out. induction fuel as [|fuel IH]; intros s out Hl Hok.
  - destruct s; [|done]. injection Hl as <-. rewrite rev_involutive. split; [done|apply Hok].
  - destruct s as [|c s]; [injection Hl as <-; rewrite rev_involutive; split; [done|apply Hok]|]. cbn [dot_loop] in Hl.
    pose proof (dot_step_rule (String c s) out ltac:(done)) as Hr.
    destruct (dot_step (String c s) out) as [s' out']. cbn [fst snd] in Hr.
    destruct (dot_rule_rfc _ _ _ _ Hr Hok) as [Hstep Hok']. destruct (IH _ _ Hl Hok') as [Hrtc Hseg].
    split; [by eapply rtc_l|done].
Qed.

Lemma no_slash_unique a b t u :
  has_byte "/" a = false → has_byte "/" b = false → at_boundary t → at_boundary u → a +:+ t = b +:+ u → a = b ∧ t = u.
Proof.
  revert b. induction a as [|c a IH]; intros [|d b] Ha Hb Ht Hu He; rewrite ?sapp_nil_l, ?sapp_cons in He.
  - done.
  - destruct Ht as [->|[v ->]]; [done|]. injection He as <- _. by rewrite has_byte_cons in Hb.
  - destruct Hu as [->|[v ->]]; [done|]. injection He as -> _. by rewrite has_byte_cons in Ha.
  - injection He as -> He. rewrite has_byte_cons, orb_false_iff in Ha, Hb.
    destruct (IH b) as [-> ->]; tauto.
Qed.

Lemma segment_unique g h t u :
  slashed g ∨ plain_segment g → slashed h ∨ plain_segment h → at_boundary t → at_boundary u →
  g +:+ t = h +:+ u → g = h ∧ t = u.
Proof.
  intros [(a & -> & Ha)|[Hne Ha]] [(b & -> & Hb)|[Hne' Hb]] Ht Hu He.
  - rewrite !sapp_cons in He. injection He as He. destruct (no_slash_unique a b t u Ha Hb Ht Hu He) as [-> ->]. done.
  - destruct h as [|c h]; [done|]. rewrite !sapp_cons in He. injection He as <- _. by rewrite has_byte_cons in Hb.
  - destruct g as [|c g]; [done|]. rewrite !sapp_cons in He. injection He as -> _. by rewrite has_byte_cons in Ha.
  - by apply no_slash_unique.
Qed.

Lemma dots_shape g : dots g → slashed g ∨ plain_segment g.
Proof. intros [-> | [-> | [-> | ->]]]; [by right|by right|left; by eexists|left; by eexists]. Qed.

(** A good segment is moved to the output. *)
Lemma dot_step_segment g t out : good_segment g → at_boundary t → dot_step (g +:+ t) out = (t, g :: out).
Proof.
  intros [Hg Hd] Ht.
  assert (Hno : ∀ h u, dots h → at_boundary u → g +:+ t ≠ h +:+ u).
  { intros h u Hh Hu He. apply segment_unique in He as [-> _]; auto using dots_shape. }
  assert (Hp : ∀ h u, dots h → HasPrefix (g +:+ t) (h +:+ String "/" u) = false ∨ u ≠ EmptyString).
  { intros h [|] Hh; [left|by right]. apply not_true_iff_false. intros [v Hv]%HasPrefix_true.
    apply (Hno h (String "/" v) Hh); [right; by eexists|]. by rewrite Hv, app_assoc_s. }
  assert (Hs : ∀ h, dots h → String.eqb (g +:+ t) h = false).
  { intros h Hh. apply String.eqb_neq. intros He. apply (Hno h EmptyString Hh); [by left|]. by rewrite sapp_nil_r. }
  unfold dot_step.
  destruct (Hp ".." EmptyString) as [H1|]; [unfold dots; auto| |done]. change (".." +:+ String "/" EmptyString) with "../" in H1.
  destruct (Hp "." EmptyString) as [H2|]; [unfold dots; auto| |done]. change ("." +:+ String "/" EmptyString) with "./" in H2.
  destruct (Hp "/." EmptyString) as [H3|]; [unfold dots; auto| |done]. change ("/." +:+ String "/" EmptyString) with "/./" in H3.
  destruct (Hp "/.." EmptyString) as [H4|]; [unfold dots; auto| |done]. change ("/.." +:+ String "/" EmptyString) with "/../" in H4.
  rewrite H1, H2, H3, H4, !Hs by (unfold dots; auto). cbn [orb].
  assert (Hne : g +:+ t ≠ EmptyString) by (destruct g; [by destruct Hg as [(? & ? & _)|[? _]]|done]).
  destruct (segment_end_split _ Hne) as [Hg' Ht'].
  pose proof (stake_sdrop (segment_end (g +:+ t)) (g +:+ t)) as He.
  apply segment_unique in He as [-> ->]; done.
Qed.

(** Removing dot segments from segments without dots changes nothing. *)
Lemma dot_loop_good l out fuel :
  Forall good_segment l → Forall slashed (tail l) → (length l ≤ fuel)%nat →
  dot_loop fuel (Join l EmptyString) out = Some (rev out ++ l).
Proof.
  revert out fuel. induction l as [|g l IH]; intros out fuel Hg Hs Hf.
  { cbn. destruct fuel; cbn; by rewrite app_nil_r. }
  destruct fuel as [|fuel]; [cbn in Hf; lia|]. inversion Hg as [|? ? Hg1 Hg2]; subst. rewrite Join_cons.
  assert (Hb : at_boundary (Join l EmptyString)).
  { destruct l as [|h l]; [by left|]. inversion Hs as [|? ? (u & -> & _) _]; subst. right. rewrite Join_cons. by eexists. }
  pose proof (dot_step_segment g _ out Hg1 Hb) as Hstep.
  destruct (g +:+ Join l EmptyString) as [|c s] eqn:E.
  { destruct g; [by destruct Hg1 as [[(? & ? & _)|[? _]] _]|done]. }
  cbn [dot_loop]. rewrite Hstep, IH; [by cbn; rewrite <- app_assoc|done| |cbn in Hf; lia].
  cbn [tail] in Hs. destruct l; [done|by inversion Hs].
Qed.

(** Without a dot, every step moves a segment. *)
Lemma dot_loop_no_dot fuel s out r :
  dot_loop fuel s out = Some r → has_byte "." s = false → Join r EmptyString = buffer out +:+ s.
Proof.
  revert s out. induction fuel as [|fuel IH]; intros s out Hl Hd.
  - destruct s; [|done]. injection Hl as <-. by rewrite sapp_nil_r.
  - destruct s as [|c s]; [injection Hl as <-; by rewrite sapp_nil_r|]. cbn [dot_loop] in Hl.
    pose proof (dot_step_rule (String c s) out ltac:(done)) as Hr.
    destruct (dot_step (String c s) out) as [s' out']. cbn [fst snd] in Hr.
    remember (String c s) as w eqn:Hw. destruct Hr as [t o|t o|t o|o|t o|o|o|o|g t o Hg Ht]; try (by vm_compute in Hd).
    rewrite has_byte_app, orb_false_iff in Hd. rewrite (IH _ _ Hl) by tauto. by rewrite buffer_cons, app_assoc_s.
Qed.

Lemma removeDotSegments_ok p :
  ∃ r, removeDotSegments p = Some (Join r EmptyString) ∧ dot_loop (len p) p [] = Some r ∧
    rtc rfc_step (p, EmptyString) (EmptyString, Join r EmptyString) ∧ segments_ok (rev r).
Proof.
  destruct (dot_loop_total (len p) p [] ltac:(lia)) as [r Hr]. exists r.
  assert (Hok : loop_ok p []) by (split; [split; [constructor|by left]|by left]).
  destruct (dot_loop_rfc _ _ _ _ Hr Hok) as [Hrtc Hseg]. split_and!; [|done..]. unfold removeDotSegments.
  change "." with (str1 "."). rewrite Contains_byte. destruct (has_byte "." p) eqn:Hd; cbn [negb]; [by rewrite Hr|].
  rewrite (dot_loop_no_dot _ _ _ _ Hr Hd). unfold buffer. cbn [rev Join]. by rewrite sapp_nil_l.
Qed.

Lemma segments_length l : Forall good_segment l → (length l ≤ len (Join l EmptyString))%nat.
Proof.
  induction 1 as [|g l [Hg _] _ IH]; [done|]. rewrite Join_cons, len_app. cbn [length].
  destruct g; [by destruct Hg as [(? & ? & _)|[? _]]|]. rewrite len_cons. lia.
Qed.

(** C13: [removeDotSegments] computes RFC 3986's "remove dot segments": it returns
    on every path the output buffer the rules of section 5.2.4 lead to, with or
    without the shortcut for paths without a dot, and its result has no dot segment
    left: running it again changes nothing. *)
Theorem removeDotSegments_rfc3986 : ∀ p, ∃ r,
  removeDotSegments p = Some r ∧ rtc rfc_step (p, EmptyString) (EmptyString, r) ∧ removeDotSegments r = Some r.
Proof.
  intros p. destruct (removeDotSegments_ok p) as (r & Hr & _ & Hrtc & Hg & Hs). exists (Join r EmptyString).
  split_and!; [done|done|]. unfold removeDotSegments. destruct (negb _); [done|].
  pose proof (rev_involutive r) as Hrev.
  assert (Hgr : Forall good_segment r) by (rewrite <- Hrev; by apply Forall_rev).
  rewrite dot_loop_good; [done|done| |by apply segments_length].
  destruct Hs as [Hs|(l & g & Hs & Hl)]; rewrite Hs in Hrev; rewrite <- Hrev; [constructor|].
  rewrite rev_app_distr. cbn [rev app tail]. by apply Forall_rev.
Qed.

(** ** Resolution *)

Lemma resolve_target_total b r : is_Some (resolve_target b r).
Proof.
  assert (Hp : ∀ p, is_Some (removeDotSegments p)).
  { intros p. destruct (removeDotSegments_ok p) as (r' & -> & _). by eexists. }
  unfold resolve_target. destruct (scheme r); [by apply fmap_is_Some|]. destruct (authority r); [by apply fmap_is_Some|].
  destruct (is_empty (path r)); [by eexists|]. by apply fmap_is_Some.
Qed.

Lemma Resolve_fuel_ok base ref : Resolve_fuel base ref = Some (Resolve base ref).
Proof.
  unfold Resolve. assert (is_Some (Resolve_fuel base ref)) as [r ->]; [|done].
  unfold Resolve_fuel. destruct (scheme (split base)); [|by eexists]. apply fmap_is_Some, resolve_target_total.
Qed.

(** ** Relative references *)

Lemma TrimSuffix_len s p : len (TrimSuffix s p) ≤ len s.
Proof. unfold TrimSuffix. destruct (HasSuffix s p); [rewrite len_stake; lia|done]. Qed.

Lemma TrimSuffix_app s p : TrimSuffix (s +:+ p) p = s.
Proof.
  unfold TrimSuffix, HasSuffix. rewrite len_app. replace (len s + len p - len p) with (len s) by lia.
  rewrite sdrop_app, String.eqb_refl, stake_app. by rewrite (proj2 (Nat.leb_le _ _)) by lia.
Qed.

Lemma LastIndexByte_Some s c i : LastIndexByte s c = Some i → ∃ a b, s = a +:+ String c b ∧ len a = i ∧ has_byte c b = false.
Proof.
  revert i. induction s as [|d s IH]; intros i; [done|]. cbn [LastIndexByte].
  destruct (LastIndexByte s c) as [j|] eqn:E.
  - intros [= <-]. destruct (IH j eq_refl) as (a & b & -> & <- & Hb). by exists (String d a), b.
  - apply LastIndexByte_None in E. destruct (Ascii.eqb_spec c d) as [->|]; [|done]. intros [= <-].
    by exists EmptyString, s.
Qed.

(** A directory: a text that ends in a slash. *)
Definition directory (d : string) : Prop := ∃ a, d = a +:+ "/".

Lemma parent_shorter d i :
  directory d → LastIndexByte (TrimSuffix d "/") "/" = Some i → directory (stake (S i) d) ∧ len (stake (S i) d) < len d.
Proof.
  intros [a ->]. rewrite TrimSuffix_app. intros (b & e & -> & <- & _)%LastIndexByte_Some.
  rewrite app_assoc_s. change (String "/" e +:+ "/") with ("/" +:+ (e +:+ "/")). rewrite <- app_assoc_s.
  replace (S (len b)) with (len (b +:+ "/")) by (rewrite len_app; change (len "/") with 1; lia). rewrite stake_app. split; [by exists b|].
  rewrite !len_app. change (len "/") with 1. lia.
Qed.

(** What [try] keeps: a reference that resolves to the target, no longer than it. *)
Definition candidate_ok (base target best : string) : Prop :=
  best = target ∨ (len best < len target ∧ Resolve base best = target).

Lemma try_ref_ok base target best ref :
  candidate_ok base target best → candidate_ok base target (try_ref base target best ref) ∧
  len (try_ref base target best ref) ≤ len best.
Proof.
  intros Hb. unfold try_ref. destruct (_ && _) eqn:E; [|done].
  rewrite andb_true_iff, Nat.ltb_lt, String.eqb_eq in E. split; [|lia]. right.
  destruct E as [El Er]. split; [destruct Hb as [->|[? _]]; lia|done].
Qed.

Lemma ancestors_ok fuel base target tpath suffix up d best :
  directory d → len d < fuel → candidate_ok base target best →
  ∃ r, ancestors fuel base target tpath suffix up d best = Some r ∧ candidate_ok base target r.
Proof.
  revert up d best. induction fuel as [|fuel IH]; intros up d best Hd Hf Hb; [lia|]. cbn [ancestors].
  set (best' := match CutPrefix tpath d with Some rest => _ | None => best end).
  assert (Hb' : candidate_ok base target best').
  { unfold best'. destruct (CutPrefix tpath d); [|done]. by apply try_ref_ok. }
  destruct (LastIndexByte (TrimSuffix d "/") "/") as [i|] eqn:E; [|by exists best'].
  destruct (parent_shorter d i Hd E) as [Hd' Hl]. apply IH; [done|lia|done].
Qed.

(** The loop over the ancestors of the base's directory finishes on its fuel. *)
Lemma base_ancestors_ok base target tpath suffix dir best :
  LastIndexByte (path (split base)) "/" = Some dir → candidate_ok base target best →
  ∃ r, ancestors (S (len (path (split base)))) base target tpath suffix EmptyString (stake (S dir) (path (split base))) best = Some r ∧
    candidate_ok base target r.
Proof.
  intros Hdir Hb. apply ancestors_ok; [| |done].
  - apply LastIndexByte_Some in Hdir as (a & b & -> & <- & _). exists a.
    replace (S (len a)) with (len (a +:+ "/")) by (rewrite len_app; change (len "/") with 1; lia).
    change (String "/" b) with ("/" +:+ b). rewrite <- app_assoc_s. by rewrite stake_app.
  - rewrite len_stake. lia.
Qed.

Lemma Relativize_candidate base target :
  candidate_ok base target (Relativize base target).1 ∧
  (Relativize base target).2 = negb (String.eqb (Relativize base target).1 target).
Proof.
  assert (H0 : candidate_ok base target target) by by left.
  unfold Relativize. case_bool_decide; [by rewrite String.eqb_refl|]. cbn [fst snd]. split; [|done].
  set (suffix := opt_text "?" _ +:+ _).
  set (b1 := if String.eqb (path (split target)) (path (split base)) then _ else target).
  assert (H1 : candidate_ok base target b1).
  { unfold b1. destruct (String.eqb _ _); [|done]. apply try_ref_ok.
    destruct (fragment (split target)); repeat apply try_ref_ok; done. }
  set (b2 := match LastIndexByte _ _ with Some dir => _ | None => b1 end).
  assert (H2 : candidate_ok base target b2).
  { unfold b2. destruct (LastIndexByte (path (split base)) "/") as [dir|] eqn:Hdir; [|done].
    by destruct (base_ancestors_ok base target (path (split target)) suffix dir b1 Hdir H1) as (r & -> & ?). }
  destruct (_ && _ && _); [by apply try_ref_ok|done].
Qed.

(** C29: [Relativize] is sound: when it reports a relative reference, that
    reference is shorter than the target and resolves against the base to exactly
    the target; otherwise it returns the target. *)
Theorem Relativize_sound : ∀ base target ref ok,
  Relativize base target = (ref, ok) →
  (ok = true → Resolve base ref = target ∧ len ref < len target) ∧ (ok = false → ref = target).
Proof.
  intros base target ref ok Hr. destruct (Relativize_candidate base target) as [Hc Hok]. rewrite Hr in Hc, Hok. cbn [fst snd] in *.
  subst ok. rewrite negb_true_iff, negb_false_iff, String.eqb_eq, String.eqb_neq.
  split; [|done]. destruct Hc as [->|[? ?]]; [done|]. by split.
Qed.

Lemma Relativize_sound_witness :
  (true = true → Resolve "http://a/b/c/d;p?q" "g/h?x#y" = "http://a/b/c/g/h?x#y" ∧ len "g/h?x#y" < len "http://a/b/c/g/h?x#y") ∧
  (true = false → "g/h?x#y" = "http://a/b/c/g/h?x#y").
Proof. apply (Relativize_sound "http://a/b/c/d;p?q" "http://a/b/c/g/h?x#y" "g/h?x#y" true). by vm_compute. Defined.
