(* ===== verification/IriSpec.v ===== *)
(** * RFC 3986, written apart from the code

    The grammar of references (sections 3 and 3.1), the target of a resolution
    (5.2.2), the merging of paths (5.2.3) and the recomposition of components
    (5.3), and the proof that [Resolve] follows them.  Nothing here is defined by
    the functions of [Iri]; of that file only the record of components and the
    rules for dot segments (5.2.4) are used. *)

From S2P Require Import Prelude GoStrings Iri.
From stdpp Require Import options.

(** ** The grammar *)

Definition alpha (c : ascii) : Prop := (65 <= N_of_ascii c <= 90 ∨ 97 <= N_of_ascii c <= 122)%N.
Definition digit (c : ascii) : Prop := (48 <= N_of_ascii c <= 57)%N.

(** scheme = ALPHA *( ALPHA / DIGIT / "+" / "-" / "." ) *)
Definition rfc_scheme (s : string) : Prop :=
  ∃ c t, s = String c t ∧ alpha c ∧ Forall (λ d, alpha d ∨ digit d ∨ d ∈ ["+"; "-"; "."]%char) (String.list_ascii_of_string t).

Definition lacks (cs : list ascii) (s : string) : Prop := ∀ c, c ∈ cs → c ∉ String.list_ascii_of_string s.

(** Section 5.3. *)
Definition recompose (c : components) : string :=
  match scheme c with Some s => s +:+ ":" | None => "" end +:+
  (match authority c with Some a => "//" +:+ a | None => "" end +:+
  (path c +:+
  (match query c with Some q => "?" +:+ q | None => "" end +:+
   match fragment c with Some f => "#" +:+ f | None => "" end))).

(** The components of a reference.  The scheme ends at the first colon, when what
    is before it is one; the authority at the first "/", "?" or "#"; the path at
    the first "?" or "#"; the query at the first "#". *)
Record reads_as (s : string) (c : components) : Prop := {
  ra_text : s = recompose c;
  ra_scheme : match scheme c with
              | Some sch => rfc_scheme sch
              | None => ∀ sch t, s = sch +:+ String ":" t → ¬ rfc_scheme sch
              end;
  ra_authority : match authority c with
                 | Some a => lacks ["/"; "?"; "#"]%char a ∧ (path c = EmptyString ∨ ∃ t, path c = String "/" t)
                 | None => ∀ t, path c ≠ "//" +:+ t
                 end;
  ra_path : lacks ["?"; "#"]%char (path c);
  ra_query : ∀ q, query c = Some q → lacks ["#"]%char q
}.

(** ** Resolution *)

(** Section 5.2.3: after an authority without a path, a slash and the path of the
    reference; otherwise all but the last segment of the base path, and it. *)
Inductive merged (b : components) (p : string) : string → Prop :=
| merged_root a : authority b = Some a → path b = "" → merged b p ("/" +:+ p)
| merged_dir d l : path b = d +:+ String "/" l → lacks ["/"%char] l → merged b p (d +:+ String "/" p)
| merged_bare : (path b ≠ "" ∨ authority b = None) → lacks ["/"%char] (path b) → merged b p p.

(** Section 5.2.4, by the rules of [rfc_step]. *)
Definition dots_removed (p q : string) : Prop := rtc rfc_step (p, EmptyString) (EmptyString, q).

(** Section 5.2.2. *)
Inductive target (b r : components) : components → Prop :=
| target_scheme sch p : scheme r = Some sch → dots_removed (path r) p →
    target b r (MkComponents (Some sch) (authority r) p (query r) (fragment r))
| target_authority a p : scheme r = None → authority r = Some a → dots_removed (path r) p →
    target b r (MkComponents (scheme b) (Some a) p (query r) (fragment r))
| target_query q : scheme r = None → authority r = None → path r = "" → query r = Some q →
    target b r (MkComponents (scheme b) (authority b) (path b) (Some q) (fragment r))
| target_base : scheme r = None → authority r = None → path r = "" → query r = None →
    target b r (MkComponents (scheme b) (authority b) (path b) (query b) (fragment r))
| target_rooted t p : scheme r = None → authority r = None → path r = String "/" t → dots_removed (path r) p →
    target b r (MkComponents (scheme b) (authority b) p (query r) (fragment r))
| target_relative c t m p : scheme r = None → authority r = None → path r = String c t → c ≠ "/"%char →
    merged b (path r) m → dots_removed m p →
    target b r (MkComponents (scheme b) (authority b) p (query r) (fragment r)).

(** ** The code reads references by the grammar *)

Lemma elem_has_byte c s : c ∈ String.list_ascii_of_string s ↔ has_byte c s = true.
Proof.
  induction s as [|d s IH]; cbn [String.list_ascii_of_string]; [by split; [intros ?%elem_of_nil|]|].
  rewrite elem_of_cons, IH, has_byte_cons, orb_true_iff, Ascii.eqb_eq. done.
Qed.

Lemma lacks_byte c s : lacks [c] s ↔ has_byte c s = false.
Proof.
  rewrite <- not_true_iff_false, <- elem_has_byte. unfold lacks. split; [intros H; apply H; by left|]. intros H d ->%list_elem_of_singleton. done.
Qed.

Lemma sforall_Forall (p : ascii → bool) s : sforall p s = true ↔ Forall (λ c, p c = true) (String.list_ascii_of_string s).
Proof.
  induction s as [|c s IH]; [split; [constructor|done]|]. cbn [sforall String.list_ascii_of_string]. rewrite andb_true_iff, IH, Forall_cons. done.
Qed.

Lemma lacks_sforall cs (p : ascii → bool) s : (∀ c, p c = true ↔ c ∈ cs) → sforall (λ c, negb (p c)) s = true ↔ lacks cs s.
Proof.
  intros Hp. rewrite sforall_Forall, Forall_forall. unfold lacks. setoid_rewrite negb_true_iff. split.
  - intros H c Hc Hs. apply Hp in Hc. by rewrite (H c Hs) in Hc.
  - intros H c Hc. apply not_true_is_false. intros Ht%Hp. by apply (H c).
Qed.

Lemma byte_range lo hi c : byte_in lo hi c = true ↔ (N_of_ascii lo <= N_of_ascii c <= N_of_ascii hi)%N.
Proof. unfold byte_in, byte_val. by rewrite andb_true_iff, !N.leb_le. Qed.

Lemma letter_alpha c : is_letter c = true ↔ alpha c.
Proof. unfold is_letter, is_lower, is_upper, alpha. rewrite orb_true_iff, !byte_range. change (N_of_ascii "a") with 97%N. change (N_of_ascii "z") with 122%N. change (N_of_ascii "A") with 65%N. change (N_of_ascii "Z") with 90%N. tauto. Qed.

Lemma scheme_byte_iff c : is_letter c || is_scheme_byte c = true ↔ alpha c ∨ digit c ∨ c ∈ ["+"; "-"; "."]%char.
Proof.
  unfold is_scheme_byte, is_digit. rewrite !orb_true_iff, letter_alpha, byte_range, !Ascii.eqb_eq, !elem_of_cons. unfold digit.
  change (N_of_ascii "0") with 48%N. change (N_of_ascii "9") with 57%N. pose proof (not_elem_of_nil c). naive_solver.
Qed.

Lemma validScheme_from_false s : validScheme_from false s = true ↔ Forall (λ d, alpha d ∨ digit d ∨ d ∈ ["+"; "-"; "."]%char) (String.list_ascii_of_string s).
Proof.
  induction s as [|c s IH]; [split; [constructor|done]|]. cbn [validScheme_from String.list_ascii_of_string negb andb].
  rewrite andb_true_iff, IH, Forall_cons, scheme_byte_iff. done.
Qed.

Lemma validScheme_iff s : validScheme s = true ↔ rfc_scheme s.
Proof.
  unfold validScheme, rfc_scheme. destruct s as [|c s]; [split; [done|by intros (? & ? & ? & _)]|].
  cbn [validScheme_from negb andb is_empty]. rewrite orb_false_r, andb_true_r, andb_true_iff, letter_alpha, validScheme_from_false. split.
  - intros [? ?]. by exists c, s.
  - by intros (? & ? & [= <- <-] & ? & ?).
Qed.

(** No byte of a scheme ends one. *)
Lemma rfc_scheme_no_stop s : rfc_scheme s → s ≠ EmptyString ∧ sforall (λ c, negb (is_scheme_stop c)) s = true.
Proof.
  intros Hs. apply validScheme_iff in Hs. unfold validScheme in Hs. apply andb_true_iff in Hs as [Hs Hne]. split; [by destruct s|].
  assert (Hgo : ∀ b t, validScheme_from b t = true → sforall (λ c, negb (is_scheme_stop c)) t = true).
  { intros b t. revert b. induction t as [|c t IH]; intros b; [done|]. cbn [validScheme_from sforall]. intros [Hc Ht]%andb_true_iff. rewrite (IH _ Ht), andb_true_r.
    assert (Hcc : is_letter c || is_scheme_byte c = true) by (apply orb_true_iff in Hc as [->|[_ ->]%andb_true_iff]; [done|by rewrite orb_true_r]).
    clear -Hcc. revert Hcc. byte_cases c. }
  exact (Hgo true s Hs).
Qed.

Lemma split_scheme_spec s :
  (∃ sch t, split_scheme s = (Some sch, t) ∧ s = sch +:+ String ":" t ∧ rfc_scheme sch) ∨
  (split_scheme s = (None, s) ∧ ∀ sch t, s = sch +:+ String ":" t → ¬ rfc_scheme sch).
Proof.
  assert (Hno : ∀ sch t, s = sch +:+ String ":" t → rfc_scheme sch → split_scheme s = (Some sch, t)).
  { intros sch t E Hs. destruct (rfc_scheme_no_stop sch Hs) as [Hne Hstop]. unfold split_scheme.
    rewrite (proj2 (IndexP_Some is_scheme_stop s (len sch))) by (exists sch, ":"%char, t; by split_and!).
    rewrite E, stake_app. replace (S (len sch)) with (len sch + 1) by lia. rewrite sdrop_app_add, (proj2 (validScheme_iff sch) Hs).
    assert (Hb : byte_at (sch +:+ String ":" t) (len sch) = Some ":"%char) by (clear; induction sch; [done|exact IHsch]).
    rewrite Hb, bool_decide_eq_true_2 by done. by destruct sch. }
  destruct (split_scheme s) as [[sch|] t] eqn:E.
  - left. exists sch, t. split; [done|]. revert E. unfold split_scheme. destruct (IndexP is_scheme_stop s) as [i|]; [|done].
    destruct (_ && _ && _) eqn:Eb; [|done]. rewrite !andb_true_iff, bool_decide_eq_true in Eb. destruct Eb as [[_ Hb] Hv]. intros [= <- <-].
    split; [by apply byte_at_split|by apply validScheme_iff].
  - right. split.
    + revert E. unfold split_scheme. destruct (IndexP is_scheme_stop s) as [i|]; [|by intros [= <-]]. destruct (_ && _ && _); [done|by intros [= <-]].
    + intros sch u Es Hs. discriminate (Hno _ _ Es Hs).
Qed.

Lemma split_authority_spec s :
  (∃ a t, split_authority s = (Some a, t) ∧ s = "//" +:+ (a +:+ t) ∧ lacks ["/"; "?"; "#"]%char a ∧
     (t = EmptyString ∨ ∃ c u, t = String c u ∧ c ∈ ["/"; "?"; "#"]%char)) ∨
  (split_authority s = (None, s) ∧ ∀ t, s ≠ "//" +:+ t).
Proof.
  assert (Hstop : ∀ c, is_authority_stop c = true ↔ c ∈ ["/"; "?"; "#"]%char).
  { intros c. unfold is_authority_stop. rewrite !orb_true_iff, !Ascii.eqb_eq, !elem_of_cons. pose proof (not_elem_of_nil c). tauto. }
  unfold split_authority. destruct (CutPrefix s "//") as [t|] eqn:E.
  - apply CutPrefix_Some in E as ->. left. destruct (IndexP is_authority_stop t) as [i|] eqn:Ei; cbn [default from_option id].
    + apply IndexP_Some in Ei as (a & c & b & -> & <- & Hc & Ha). rewrite stake_app, sdrop_app. exists a, (String c b). split_and!; [done|done| |].
      * by apply (lacks_sforall _ _ _ Hstop).
      * right. exists c, b. split; [done|]. by apply Hstop.
    + apply IndexP_None in Ei. rewrite stake_all. assert (Ed : sdrop (len t) t = EmptyString) by (rewrite <- (sapp_nil_r t) at 2; apply sdrop_app). rewrite Ed. exists t, EmptyString. rewrite sapp_nil_r. split_and!; [done|done| |by left].
      by apply (lacks_sforall _ _ _ Hstop).
  - right. split; [done|]. intros t ->. by rewrite (proj2 (CutPrefix_Some _ _ t) eq_refl) in E.
Qed.

Lemma split_last_spec c s :
  (∃ a t, split_last c s = (Some t, a) ∧ s = a +:+ String c t ∧ lacks [c] a) ∨ (split_last c s = (None, s) ∧ lacks [c] s).
Proof.
  unfold split_last. destruct (IndexByte s c) as [i|] eqn:E.
  - left. apply IndexByte_Some in E as (a & b & -> & <- & Ha). exists a, b. rewrite stake_app. replace (S (len a)) with (len a + 1) by lia. rewrite sdrop_app_add.
    split_and!; [done|done|by apply lacks_byte].
  - right. split; [done|]. by apply lacks_byte, IndexByte_None.
Qed.

Lemma recompose_String c : recompose c = components_String c.
Proof. unfold recompose, components_String. by rewrite ?app_assoc_s. Qed.

Lemma lacks_app cs a b : lacks cs (a +:+ b) ↔ lacks cs a ∧ lacks cs b.
Proof.
  unfold lacks. setoid_rewrite elem_has_byte. setoid_rewrite has_byte_app. setoid_rewrite orb_true_iff. naive_solver.
Qed.

Lemma lacks_mono cs cs' s : (∀ c, c ∈ cs' → c ∈ cs) → lacks cs s → lacks cs' s.
Proof. intros H Hs c Hc. by apply Hs, H. Qed.

(** The path, the query and the fragment of a reference. *)
Definition mark (m : string) (o : option string) : string := match o with Some x => m +:+ x | None => EmptyString end.

Definition tail_ok (p : string) (q : option string) : Prop := lacks ["?"; "#"]%char p ∧ ∀ x, q = Some x → lacks ["#"%char] x.

Lemma split_last_of c a o : lacks [c] a → split_last c (a +:+ mark (str1 c) o) = (o, a).
Proof.
  intros Ha. destruct (split_last_spec c (a +:+ mark (str1 c) o)) as [(a' & t & E & Es & Ha')|[E Ha']]; rewrite E; destruct o as [x|]; cbn [mark] in *.
  - pose proof (CutByte_app a c x (proj1 (lacks_byte _ _) Ha)) as C1. pose proof (CutByte_app a' c t (proj1 (lacks_byte _ _) Ha')) as C2.
    change (str1 c +:+ x) with (String c x) in Es. rewrite Es in C1. rewrite C2 in C1. by injection C1 as -> ->.
  - exfalso. rewrite sapp_nil_r in Es. apply (Ha c); [by left|]. apply elem_has_byte. by rewrite Es, has_byte_app, has_byte_cons, Ascii.eqb_refl, orb_true_r.
  - exfalso. apply (Ha' c); [by left|]. apply elem_has_byte. change (str1 c +:+ x) with (String c x). by rewrite has_byte_app, has_byte_cons, Ascii.eqb_refl, orb_true_r.
  - by rewrite sapp_nil_r.
Qed.

Lemma split_tail_of p q f : tail_ok p q →
  split_last "#" (p +:+ (mark "?" q +:+ mark "#" f)) = (f, p +:+ mark "?" q) ∧ split_last "?" (p +:+ mark "?" q) = (q, p).
Proof.
  intros [Hp Hq]. split.
  - rewrite <- app_assoc_s. apply (split_last_of "#"). apply lacks_app. split; [eapply lacks_mono; [|exact Hp]; set_solver|].
    destruct q as [x|]; cbn [mark]; [|by intros c _ ?%elem_of_nil]. apply lacks_app. split; [by apply lacks_byte|by apply Hq].
  - apply (split_last_of "?"). eapply lacks_mono; [|exact Hp]. set_solver.
Qed.

Lemma split_tail_ok s : ∃ p q f, tail_ok p q ∧ s = p +:+ (mark "?" q +:+ mark "#" f).
Proof.
  assert (H : ∃ s3 f, s = s3 +:+ mark "#" f ∧ lacks ["#"%char] s3).
  { destruct (split_last_spec "#" s) as [(s3 & f & _ & -> & H)|[_ H]]; [by exists s3, (Some f)|exists s, None; by rewrite sapp_nil_r]. }
  destruct H as (s3 & f & -> & Hs3).
  assert (H : ∃ p q, s3 = p +:+ mark "?" q ∧ lacks ["?"%char] p).
  { destruct (split_last_spec "?" s3) as [(p & q & _ & -> & H)|[_ H]]; [by exists p, (Some q)|exists s3, None; by rewrite sapp_nil_r]. }
  destruct H as (p & q & -> & Hp). exists p, q, f. rewrite app_assoc_s. split; [|done]. apply lacks_app in Hs3 as [H1 H2]. split.
  - intros c [-> | ->%list_elem_of_singleton]%elem_of_cons; [apply Hp|apply H1]; by left.
  - intros x ->. cbn [mark] in H2. by apply lacks_app in H2 as [_ ?].
Qed.

(** The text before the path ends at a stop. *)
Definition after_authority (t : string) : Prop := t = EmptyString ∨ ∃ c u, t = String c u ∧ c ∈ ["/"; "?"; "#"]%char.

Lemma after_path p q f : tail_ok p q → after_authority (p +:+ (mark "?" q +:+ mark "#" f)) ↔ p = EmptyString ∨ ∃ t, p = String "/" t.
Proof.
  intros [Hp _]. destruct p as [|d p].
  - split; [by left|]. intros _. rewrite sapp_nil_l. destruct q as [x|]; [right; exists "?"%char, (x +:+ mark "#" f); split; [done|set_solver]|].
    destruct f as [y|]; [right; exists "#"%char, y; split; [done|set_solver]|by left].
  - rewrite sapp_cons. split.
    + intros [?|(c & u & [= <- <-] & Hc)]; [done|]. right. exists p. f_equal. apply elem_of_cons in Hc as [->|Hc]; [done|]. destruct (Hp d Hc). by left.
    + intros [?|(t & [= -> ->])]; [done|]. right. eexists _, _. split; [done|]. by left.
Qed.

Lemma lacks_split cs a t b u : lacks cs a → lacks cs b → (t = EmptyString ∨ ∃ c w, t = String c w ∧ c ∈ cs) → (u = EmptyString ∨ ∃ c w, u = String c w ∧ c ∈ cs) →
  a +:+ t = b +:+ u → a = b ∧ t = u.
Proof.
  intros Ha Hb Ht Hu. revert b Hb. induction a as [|c a IH]; intros [|d b] Hb; rewrite ?sapp_nil_l, ?sapp_cons.
  - done.
  - intros ->. exfalso. destruct Ht as [?|(c & w & [= <- _] & Hc)]; [done|]. apply (Hb d Hc). by left.
  - intros <-. exfalso. destruct Hu as [?|(d & w & [= <- _] & Hc)]; [done|]. apply (Ha c Hc). by left.
  - intros [= -> E]. apply IH in E as [-> ->]; [done| |]; intros x Hx Hi; [apply (Ha x Hx)|apply (Hb x Hx)]; by right.
Qed.

Lemma split_authority_of a t : lacks ["/"; "?"; "#"]%char a → after_authority t → split_authority ("//" +:+ (a +:+ t)) = (Some a, t).
Proof.
  intros Ha Ht. destruct (split_authority_spec ("//" +:+ (a +:+ t))) as [(b & u & -> & E & Hb & Hu)|[_ Hn]]; [|by destruct (Hn (a +:+ t))].
  apply app_inj_l in E. by destruct (lacks_split _ _ _ _ _ Ha Hb Ht Hu E) as [-> ->].
Qed.

Lemma split_authority_none t : (∀ u, t ≠ "//" +:+ u) → split_authority t = (None, t).
Proof. intros Hn. destruct (split_authority_spec t) as [(a & u & _ & E & _)|[-> _]]; [by destruct (Hn _ E)|done]. Qed.

Lemma path_slashes p q f : tail_ok p q → (∀ t, p +:+ (mark "?" q +:+ mark "#" f) ≠ "//" +:+ t) ↔ ∀ t, p ≠ "//" +:+ t.
Proof.
  intros [Hp _]. split.
  - intros H t ->. by apply (H (t +:+ (mark "?" q +:+ mark "#" f))).
  - intros H t E. destruct p as [|c [|d p]]; rewrite ?sapp_cons, ?sapp_nil_l in E.
    + destruct q; [done|]. by destruct f.
    + injection E as -> E. destruct q; [done|]. by destruct f.
    + injection E as -> -> _. by apply (H p).
Qed.

(** Every text reads as exactly one choice of components, which [split] finds. *)
Lemma split_unique s c : reads_as s c → split s = c.
Proof.
  destruct c as [sch au p q f]. intros [Et Hs Ha Hp Hq]. cbn [scheme authority path query fragment] in *. assert (Hok : tail_ok p q) by done.
  unfold recompose in Et. cbn [scheme authority path query fragment] in Et.
  set (rest := p +:+ (mark "?" q +:+ mark "#" f)) in *. set (s1 := mark "//" au +:+ rest) in *.
  assert (E1 : split_scheme s = (sch, s1)).
  { destruct sch as [sc|].
    - rewrite app_assoc_s in Et. destruct (split_scheme_spec s) as [(sc' & t & -> & E & Hs')|[_ Hn]]; [|by destruct (Hn sc s1 Et)].
      assert (Hc : ∀ x, rfc_scheme x → has_byte ":" x = false).
      { intros x [_ Hx]%rfc_scheme_no_stop. apply has_byte_false. eapply sforall_impl; [|exact Hx]. intros d. byte_cases d. }
      pose proof (CutByte_app sc ":" s1 (Hc _ Hs)) as C1. pose proof (CutByte_app sc' ":" t (Hc _ Hs')) as C2.
      assert (E' : sc +:+ String ":" s1 = sc' +:+ String ":" t) by (rewrite <- E; symmetry; exact Et).
      rewrite E' in C1. pose proof (eq_trans (eq_sym C1) C2) as C. by injection C as -> ->.
    - rewrite sapp_nil_l in Et. destruct (split_scheme_spec s) as [(sc' & t & _ & E & Hs')|[-> _]]; [by destruct (Hs sc' t E)|]. by rewrite Et. }
  assert (E2 : split_authority s1 = (au, rest)).
  { unfold s1. destruct au as [a|]; cbn [mark].
    - destruct Ha as [Ha Hpath]. rewrite app_assoc_s. apply split_authority_of; [done|]. by apply after_path.
    - rewrite sapp_nil_l. apply split_authority_none. by apply path_slashes. }
  destruct (split_tail_of p q f Hok) as [E3 E4]. fold rest in E3. unfold split. by rewrite E1, E2, E3, E4.
Qed.

Lemma split_reads s : reads_as s (split s).
Proof.
  assert (∃ c, reads_as s c) as [c Hc]; [|by rewrite (split_unique s c Hc)].
  assert (H1 : ∃ sch s1, s = mark "" ((λ x, x +:+ ":") <$> sch) +:+ s1 ∧
    match sch with Some sc => rfc_scheme sc | None => ∀ sc t, s = sc +:+ String ":" t → ¬ rfc_scheme sc end).
  { destruct (split_scheme_spec s) as [(sch & t & _ & E & H)|[_ H]]; [exists (Some sch), t|by exists None, s].
    split; [|done]. rewrite E. cbn [mark fmap option_fmap option_map]. rewrite sapp_nil_l. by rewrite app_assoc_s. }
  destruct H1 as (sch & s1 & Es & Hsch).
  assert (H2 : ∃ au s2, s1 = mark "//" au +:+ s2 ∧ match au with Some a => lacks ["/"; "?"; "#"]%char a ∧ after_authority s2 | None => ∀ t, s2 ≠ "//" +:+ t end).
  { destruct (split_authority_spec s1) as [(a & t & _ & E & H)|[_ H]]; [exists (Some a), t|by exists None, s1]. split; [|done]. cbn [mark]. by rewrite app_assoc_s. }
  destruct H2 as (au & s2 & E2 & Hau). destruct (split_tail_ok s2) as (p & q & f & Hok & E3).
  exists (MkComponents sch au p q f). subst s1 s2. split; cbn [scheme authority path query fragment]; [| |  |apply Hok|apply Hok].
  - rewrite Es. unfold recompose. cbn [scheme authority path query fragment]. destruct sch as [sc|]; cbn [fmap option_fmap option_map mark]; [by rewrite sapp_nil_l|done].
  - exact Hsch.
  - destruct au as [a|]; [|by apply (path_slashes p q f)]. destruct Hau as [? Hau]. split; [done|]. by apply (after_path p q f).
Qed.

(** ** The code resolves by the rules *)

Lemma merge_merged b p : merged b p (merge b p).
Proof.
  unfold merge. destruct (authority b) as [a|] eqn:Ea; [rewrite bool_decide_eq_true_2 by (by eexists)|rewrite bool_decide_eq_false_2 by (by intros [? ?])]; cbn [andb].
  1: destruct (path b) as [|c t] eqn:Ep; cbn [is_empty]; [by apply (merged_root b p a)|rewrite <- Ep].
  all: destruct (LastIndexByte (path b) "/") as [i|] eqn:E.
  1, 3: apply LastIndexByte_Some in E as (d & l & E & <- & Hl); rewrite E; replace (S (len d)) with (len (d +:+ "/")) by (rewrite len_app; change (len "/") with 1; lia);
    change (d +:+ String "/" l) with (d +:+ ("/" +:+ l)); rewrite <- app_assoc_s, stake_app, app_assoc_s;
    apply (merged_dir b p d l); [exact E|by apply lacks_byte].
  all: apply LastIndexByte_None in E; apply merged_bare; [|by apply lacks_byte].
  - left. by rewrite Ep.
  - by right.
Qed.

Lemma resolve_target_spec b r t : resolve_target b r = Some t → target b r t.
Proof.
  assert (Hp : ∀ p q, removeDotSegments p = Some q → dots_removed p q).
  { intros p q. destruct (removeDotSegments_ok p) as (r' & -> & _ & ? & _). by intros [= <-]. }
  unfold resolve_target. destruct (scheme r) as [sch|] eqn:Hs.
  { intros (p & Hr & ->)%fmap_Some. apply target_scheme; auto. }
  destruct (authority r) as [auth|] eqn:Ha.
  { intros (p & Hr & ->)%fmap_Some. apply target_authority; auto. }
  destruct (path r) as [|c q] eqn:Hq; cbn [is_empty].
  { intros [= <-]. destruct (query r) as [x|] eqn:E; [by apply target_query|by apply target_base]. }
  intros (p & Hr & ->)%fmap_Some. apply Hp in Hr. rewrite HasPrefix_cons, HasPrefix_nil, andb_true_r in Hr. destruct (Ascii.eqb_spec c "/") as [->|Hne].
  - rewrite <- Hq in Hr. by apply (target_rooted b r q).
  - apply (target_relative b r c q (merge b (String c q))); [exact Hs|exact Ha|exact Hq|exact Hne| |exact Hr]. rewrite Hq. apply merge_merged.
Qed.

(** C12: [Resolve] follows RFC 3986.  Every text reads as exactly one choice of
    components by the grammar.  Against a base with a scheme, a reference resolves
    to the text of components that section 5.2.2 gives, with 5.2.3 for the merging
    of paths and 5.2.4 for dot segments; against a base without one the reference
    comes back unchanged. *)
Theorem Resolve_rfc3986 : ∀ base ref, ∃ b r,
  (∀ c, reads_as base c ↔ c = b) ∧ (∀ c, reads_as ref c ↔ c = r) ∧
  Resolve_fuel base ref = Some (Resolve base ref) ∧
  match scheme b with
  | Some _ => ∃ t, target b r t ∧ Resolve base ref = recompose t
  | None => Resolve base ref = ref
  end.
Proof.
  intros base ref. exists (split base), (split ref).
  assert (Hr : ∀ s c, reads_as s c ↔ c = split s) by (intros s c; split; [intros H; symmetry; by apply split_unique|intros ->; apply split_reads]).
  split_and!; [apply Hr|apply Hr|apply Resolve_fuel_ok|]. pose proof (Resolve_fuel_ok base ref) as Hok. unfold Resolve_fuel in Hok.
  destruct (scheme (split base)) as [sch|] eqn:Hs; [|by injection Hok as <-].
  apply fmap_Some in Hok as (t & Ht & ->). exists t. split; [by apply resolve_target_spec|symmetry; apply recompose_String].
Qed.
