(* ===== verification/ParseScope.v ===== *)
(** * What the lines of one parse share

    [internal/bnodes/scope.go], the blank node labels of one document, and
    [internal/iricache/cache.go], the IRIs a parse has already built.  A scope
    and a cache are maps a parse mutates; an operation returns the new one. *)

From S2P Require Import Prelude GoStrings Utf8 Strconv Term.
From stdpp Require Import options.

(** ** Blank node scopes *)

(** [Scope.labels]: a nil map preserves the labels. *)
Definition Scope : Type := option (gmap string BNode).

Definition New_scope (preserve : bool) : Scope := if preserve then None else Some ∅.

(** [Scope.Label]: the node, the scope and the number of UUIDs drawn. *)
Definition Label (uuid : nat → string) (s : Scope) (label : string) (n : nat) : result BNode * Scope * nat :=
  match s with
  | None => let '(b, n) := NewBNode uuid label n in (b, None, n)
  | Some labels =>
      match labels !! label with
      | Some b => (Ok b, s, n)
      | None => match NewBNode uuid EmptyString n with
                | (Ok b, n) => (Ok b, Some (<[label:=b]> labels), n)
                | (Err e, n) => (Err e, s, n)
                end
      end
  end.

(** ** The IRI cache *)

Definition maxEntries : nat := 4096.

(** [*Cache]: nil caches nothing. *)
Definition Cache : Type := option (gmap string URIRef).

Definition New_cache : Cache := Some ∅.

Definition cache_Get (c : Cache) (iri : string) : option URIRef :=
  match c with None => None | Some m => m !! iri end.

Definition cache_Put (c : Cache) (u : URIRef) : Cache :=
  match c with
  | None => None
  | Some m => if decide (maxEntries ≤ size m) then Some m else Some (<[URIRef_value u := u]> m)
  end.

Definition Intern (c : Cache) (iri : string) : URIRef * Cache :=
  match cache_Get c iri with
  | Some u => (u, c)
  | None => let u := NewURIRefUnsafe iri in (u, cache_Put c u)
  end.

(** ** Lemmas *)

(** A cache whose entries are the IRIs they are filed under, each fit for [P]. *)
Definition cache_ok (P : string → Prop) (c : Cache) : Prop :=
  ∀ iri u, cache_Get c iri = Some u → u = NewURIRefUnsafe iri ∧ P iri.

Lemma cache_ok_new P : cache_ok P New_cache.
Proof. intros iri u H. cbn in H. by rewrite lookup_empty in H. Qed.

Lemma cache_ok_put P c iri : P iri → cache_ok P c → cache_ok P (cache_Put c (NewURIRefUnsafe iri)).
Proof.
  intros HP Hc iri' u. destruct c as [m|]; [|done]. cbn. case_decide; [apply Hc|]. cbn.
  change (URIRef_value (NewURIRefUnsafe iri)) with iri.
  rewrite lookup_insert. case_decide as He; [intros [= <-]; by subst|apply Hc].
Qed.

Lemma cache_size_put c u m :
  cache_Put c u = Some m → (∀ m0, c = Some m0 → size m0 ≤ maxEntries) → size m ≤ maxEntries.
Proof.
  destruct c as [m0|]; [|done]. cbn. intros Hm H0. specialize (H0 _ eq_refl).
  case_decide as Hs; injection Hm as <-; [done|]. rewrite map_size_insert. destruct (m0 !! _); cbn; lia.
Qed.

(** The nodes of a scope of fresh labels: distinct labels have distinct nodes,
    all drawn before [n]. *)
Definition scope_fresh (uuid : nat → string) (s : Scope) (n : nat) : Prop :=
  match s with
  | None => True
  | Some labels =>
      (∀ l b, labels !! l = Some b → ∃ i, i < n ∧ b = MkBNode ("B:N" +:+ hex_encode (uuid i))) ∧
      (∀ l l' b, labels !! l = Some b → labels !! l' = Some b → l = l')
  end.

Lemma hex_encode_cons c s :
  hex_encode (String c s) = String (hex_digit (byte_val c / 16)) (String (hex_digit (byte_val c mod 16)) (hex_encode s)).
Proof. done. Qed.

Lemma hex_pair_inj c d :
  hex_digit (byte_val c / 16) = hex_digit (byte_val d / 16) →
  hex_digit (byte_val c mod 16) = hex_digit (byte_val d mod 16) → c = d.
Proof.
  assert (Hinj : ∀ a b, (a < 16)%N → (b < 16)%N → hex_digit a = hex_digit b → a = b).
  { intros a b Ha Hb. unfold hex_digit. intros H%(f_equal byte_val). revert H.
    destruct (N.ltb_spec a 10), (N.ltb_spec b 10); rewrite !byte_val_of by lia; lia. }
  pose proof (byte_val_bound c). pose proof (byte_val_bound d).
  intros H1%Hinj H2%Hinj; try (apply N.mod_lt; lia); try (apply N.Div0.div_lt_upper_bound; lia).
  apply byte_val_inj. rewrite (N.div_mod' (byte_val c) 16), (N.div_mod' (byte_val d) 16). by rewrite H1, H2.
Qed.

Lemma hex_encode_inj s t : hex_encode s = hex_encode t → s = t.
Proof.
  revert t. induction s as [|c s IH]; intros [|d t]; rewrite ?hex_encode_cons; try done.
  intros H. injection H as H1 H2 H3. by rewrite (hex_pair_inj c d), (IH t).
Qed.

Lemma scope_fresh_new uuid n : scope_fresh uuid (New_scope false) n.
Proof. split; intros *; by rewrite lookup_empty. Qed.

Lemma scope_fresh_label uuid s label n b s' n' :
  (∀ i j, uuid i = uuid j → i = j) → scope_fresh uuid s n →
  Label uuid s label n = (Ok b, s', n') → scope_fresh uuid s' n' ∧ n ≤ n'.
Proof.
  intros Hu Hs. unfold Label. destruct s as [labels|].
  - destruct (labels !! label) eqn:El; [by intros [= <- <- <-]|].
    cbn. intros [= <- <- <-]. split; [|lia]. destruct Hs as [H1 H2]. split.
    + intros l b. rewrite lookup_insert. case_decide; [intros [= <-]; exists n; split; [lia|done]|].
      intros (i & Hi & ->)%H1. exists i. split; [lia|done].
    + assert (Hnew : ∀ l, labels !! l ≠ Some (MkBNode ("B:N" +:+ hex_encode (uuid n)))).
      { intros l (i & Hi & He)%H1. injection He as He%hex_encode_inj%Hu. lia. }
      intros l l' b. rewrite !lookup_insert. repeat case_decide; intros Hl Hl'; simplify_eq; try done; [by destruct (Hnew l')|by destruct (Hnew l)|eauto].
  - unfold NewBNode. destruct label; intros [= <- <- <-]; split; try done; lia.
Qed.
