(* ===== verification/SkolemRoundTrip.v ===== *)
(** * Skolemization: the copies

    What [Skolemize] and [DeSkolemize] put in the graphs they return, for any store
    of the contract, and that the second undoes the first. *)

From S2P Require Import Prelude GoStrings GoSort Strconv Sha256 Term TermKey TripleIndex Store MemoryStore Namespace Graph Skolem SkolemCorrect ParseScope.
From stdpp Require Import options.

(** ** Building a graph from well-formed triples *)

Lemma tkey_wf_inj t t' : triple_wf t → triple_wf t' → tkey t = tkey t' → t = t'.
Proof.
  intros (H1 & _ & H2 & H3) (H1' & _ & H2' & H3') E. unfold tkey in E. cbn [keyAt] in E. injection E as E1 E2 E3.
  destruct t as [s p o], t' as [s' p' o']. cbn in *. apply TermKey_inj in E1 as ->; [|done..]. apply TermKey_inj in E3 as ->; [|done..].
  f_equal. by apply (uri_key_inj p p').
Qed.

Lemma foldl_add_elem (l : list Triple) : ∀ m : gmap tkey_t Triple, graph_wf m → Forall triple_wf l →
  graph_wf (foldl graph_add m l) ∧ ∀ t, t ∈ graph_triples (foldl graph_add m l) ↔ t ∈ graph_triples m ∨ t ∈ l.
Proof.
  induction l as [|u l IH]; intros m Hm Hl; cbn [foldl].
  { split; [done|]. intros t. rewrite elem_of_nil. naive_solver. }
  apply Forall_cons in Hl as [Hu Hl]. assert (Hm' : graph_wf (graph_add m u)) by by apply graph_all_add.
  destruct (IH _ Hm' Hl) as [H1 H2]. split; [done|]. intros t. rewrite H2, elem_of_cons.
  assert (Hadd : t ∈ graph_triples (graph_add m u) ↔ t ∈ graph_triples m ∨ t = u); [|naive_solver].
  rewrite !graph_triples_elem by (apply Hm' || apply Hm). unfold graph_add. destruct (m !! tkey u) as [v|] eqn:E.
  - assert (v = u) as ->. { destruct Hm as [Hk Hw]. apply tkey_wf_inj; [by eapply Hw|done|]. by apply Hk in E. }
    naive_solver.
  - rewrite lookup_insert. case_decide as Et; [|naive_solver]. split; [naive_solver|]. intros [Ht| ->]; [|done]. rewrite <- Et in Ht. congruence.
Qed.

Lemma graph_triples_empty_elem t : t ∉ graph_triples ∅.
Proof. unfold graph_triples. rewrite map_to_list_empty. apply not_elem_of_nil. Qed.

Section copies.
Context `{GoRange}.

Lemma add_each_ok g ts : ∀ m, ms_ok m → ∃ m', add_each None g ts m = (Ok tt, m') ∧ ms_ok m' ∧ graph_of m' g = foldl graph_add (graph_of m g) ts.
Proof.
  induction ts as [|t ts IH]; intros m Hm; [by exists m|]. cbn [add_each]. unfold g_Add.
  destruct (ms_step_ok m (DsAdd (MkTriple (Subject t) (Predicate t) (Object t)) (identifier g)) Hm) as (m1 & E & Hm1 & Ha).
  cbn [store_step] in E. rewrite E. destruct (IH m1 Hm1) as (m' & H1 & H2 & H3). exists m'. split; [done|]. split; [done|]. rewrite H3.
  cbn [foldl]. f_equal. unfold graph_of. change (sabs m1) with (ms_abs m1). rewrite Ha. cbn [ds_step]. unfold ds_add. rewrite ds_update_same. by destruct t.
Qed.

Lemma bind_each_ok bs : ∀ m, ms_ok m → ∃ m', bind_each None (Ok <$> bs) m = Ok m' ∧ ms_ok m' ∧ ms_abs m' = ms_abs m ∧
  nsPrefix m' = foldl (λ n b, <[nb_Prefix b := nb_Namespace b]> n) (nsPrefix m) bs.
Proof.
  induction bs as [|b bs IH]; intros m Hm; [by exists m|]. cbn [fmap list_fmap bind_each].
  destruct (ms_bind_ok m (nb_Prefix b) (nb_Namespace b) Hm) as (m1 & E & Hm1 & Ha & _). cbn [Bind MemoryStore_Store]. rewrite E.
  destruct (IH m1 Hm1) as (m' & H1 & H2 & H3 & H4). exists m'. split; [done|]. split; [done|]. split; [by rewrite H3|]. rewrite H4.
  injection E as <-. done.
Qed.

Lemma collect_Ok (l : list Triple) : collect_seq (Ok <$> l) = Ok l.
Proof. induction l as [|t l IH]; [done|]. cbn. by rewrite IH. Qed.

Context {St : Type} {store_St : Store St} {laws_St : StoreLaws St} {prefix_St : PrefixLaws St}.
Implicit Types (st : St).

(** The graph both operations start from: no triples, the bindings of the copied
    graph over the default ones. *)
Lemma emptyCopy_ok g st : sinv st → ∃ m, emptyCopy None g st = Ok (MkGraph (default_identifier (identifier g)) EmptyString, m) ∧ ms_ok m ∧
  graph_of m (MkGraph (default_identifier (identifier g)) EmptyString) = ∅ ∧ prefixes st ⊆ nsPrefix m.
Proof.
  intros Hs. destruct (namespaces_ok st Hs) as (bs & E & Hbs). destruct NewGraph_ok as [Hg Ha].
  destruct (bind_each_ok bs NewGraph Hg) as (m & Em & Hm & Ham & Hpre). exists m. unfold emptyCopy. rewrite E, Em. split; [done|].
  split; [done|]. split.
  - unfold graph_of. change (sabs m) with (ms_abs m). rewrite Ham, Ha. unfold ds_graph. by destruct (graph_key _).
  - rewrite Hpre. generalize (nsPrefix NewGraph). clear Hpre Em Ham Hm m E.
    assert (Hin : ∀ b, b ∈ bs ↔ prefixes st !! nb_Prefix b = Some (nb_Namespace b)).
    { intros b. rewrite Hbs, list_elem_of_fmap. split.
      - intros ([k v] & -> & Hk%elem_of_map_to_list). done.
      - intros Hb. exists (nb_Prefix b, nb_Namespace b). split; [by destruct b|by apply elem_of_map_to_list]. }
    assert (Hnd : NoDup (nb_Prefix <$> bs)).
    { rewrite Hbs, <- list_fmap_compose. rewrite (list_fmap_ext _ fst); [apply NoDup_fst_map_to_list|done]. }
    intros n. apply map_subseteq_spec. intros p u Hp. assert (Hb : MkBinding p u ∈ bs) by by apply Hin.
    revert n. clear -Hb Hnd. induction bs as [|b bs IH]; intros n; [by apply elem_of_nil in Hb|]. cbn [foldl].
    rewrite fmap_cons in Hnd. apply NoDup_cons in Hnd as [Hn Hnd]. apply elem_of_cons in Hb as [<-|Hb]; [|by apply IH]. cbn [nb_Prefix nb_Namespace] in *.
    assert (Hgo : ∀ n : gmap string URIRef, n !! p = Some u → foldl (λ n b, <[nb_Prefix b := nb_Namespace b]> n) n bs !! p = Some u).
    { clear IH Hnd. induction bs as [|c bs IH]; intros n0 Hn0; [done|]. cbn [foldl]. rewrite fmap_cons, not_elem_of_cons in Hn. destruct Hn as [Hn1 Hn2].
      apply IH; [done|]. by rewrite lookup_insert_ne. }
    apply Hgo. by rewrite lookup_insert_eq.
Qed.

(** ** Skolemize *)

Lemma skolem_ground mint t : ground t = true → term_wf t → skolemTerm mint t = t.
Proof.
  induction t as [u|b|l|s IHs p o IHo key|v]; cbn [ground skolemTerm]; try done.
  intros [H1 H2]%andb_true_iff (Hk & _ & _ & _ & _ & Ws & _ & Wo). rewrite IHs, IHo by done. by rewrite Hk.
Qed.

Lemma skolem_flat mint t : flat t = true → term_wf t → skolemTerm mint t = match t with TBNode b => TURIRef (mint b) | _ => t end.
Proof. destruct t as [u|b|l|s p o key|v]; try done. intros Hf Hw. by apply skolem_ground. Qed.

Lemma skolem_term_wf mint t : (∀ b, uri_ok (mint b)) → flat t = true → term_wf t → term_wf (skolemTerm mint t) ∧ ground (skolemTerm mint t) = true.
Proof.
  intros Hm Hf Hw. rewrite skolem_flat by done. destruct t as [u|b|l|s p o key|v]; try done. split; [apply Hm|done].
Qed.

Lemma skolem_triple_wf mint t : (∀ b, uri_ok (mint b)) → flat_triple t → triple_wf t →
  triple_wf (skolemTriple mint t) ∧ ground (Subject (skolemTriple mint t)) = true ∧ ground (Object (skolemTriple mint t)) = true.
Proof.
  intros Hm [Fs Fo] (Ws & Hs & Wp & Wo). cbn. destruct (skolem_term_wf mint _ Hm Fs Ws) as [W1 G1]. destruct (skolem_term_wf mint _ Hm Fo Wo) as [W2 G2].
  split; [|by split]. split; [done|]. split; [|by split]. cbn. rewrite skolem_flat by done. by destruct (Subject t).
Qed.

Lemma skolem_mint_ok prefix ids b : uri_ok (skolem_mint prefix ids b).
Proof. by eexists. Qed.

(** The ids of a run, from the triples in the order the store gave them. *)
Definition skolem_ids (opts : list SkolemOption) (ts : list Triple) : gmap string string :=
  if stable (skolem_config opts) then stableBNodeIDs ts else ∅.
Definition mint_of (authority : string) (opts : list SkolemOption) (ts : list Triple) : BNode → URIRef :=
  skolem_mint (skolemPrefix authority (basepath (skolem_config opts))) (skolem_ids opts ts).

Definition copy_of (g : Graph_) : Graph_ := MkGraph (default_identifier (identifier g)) EmptyString.

Lemma Skolemize_ok g authority opts st : sinv st → graph_wf (graph_of st g) → (∀ t, t ∈ graph_triples (graph_of st g) → flat_triple t) →
  ∃ ts m', ts ≡ₚ graph_triples (graph_of st g) ∧ Skolemize None g authority opts st = Ok (copy_of g, m') ∧ ms_ok m' ∧ graph_wf (graph_of m' (copy_of g)) ∧
    (∀ t', t' ∈ graph_triples (graph_of m' (copy_of g)) ↔ ∃ t, t ∈ graph_triples (graph_of st g) ∧ t' = skolemTriple (mint_of authority opts ts) t).
Proof using prefix_St.
  intros Hs Hwf Hflat. destruct (g_triples_ok st g None None None Hs) as (ts & E & _ & Hts). rewrite matching_all in Hts.
  destruct (emptyCopy_ok g st Hs) as (m & Em & Hm & Hempty & _). fold (copy_of g) in Em, Hempty.
  set (mint := mint_of authority opts ts). destruct (add_each_ok (copy_of g) (skolemTriple mint <$> ts) m Hm) as (m' & Ea & Hm' & Hc).
  exists ts, m'. split; [done|]. split.
  { unfold Skolemize. rewrite E, collect_Ok. cbn [mbind result_bind]. rewrite Em. cbn [mbind result_bind].
    unfold mint, mint_of, skolem_ids in Ea. by rewrite Ea. }
  split; [done|]. rewrite Hc, Hempty. assert (Hin : ∀ t, t ∈ ts → triple_wf t ∧ flat_triple t).
  { intros t Ht. rewrite Hts in Ht. split; [by eapply graph_triple_wf|by apply Hflat]. }
  destruct (foldl_add_elem (skolemTriple mint <$> ts) ∅) as [H1 H2]; [by split| |].
  { apply Forall_fmap, Forall_forall. intros t Ht. destruct (Hin t Ht). by apply skolem_triple_wf; [apply skolem_mint_ok|..]. }
  split; [done|]. intros t'. rewrite H2, list_elem_of_fmap. split.
  - intros [Ht|(t & -> & Ht)]; [by apply graph_triples_empty_elem in Ht|]. exists t. split; [by rewrite <- Hts|done].
  - intros (t & Ht & ->). right. exists t. split; [done|by rewrite Hts].
Qed.

(** ** DeSkolemize *)

Section unminting.
Context (uuid : nat → string) (prefix : string).

Definition fresh_bnode (i : nat) : BNode := MkBNode ("B:" +:+ "N" +:+ hex_encode (uuid i)).

(** The map [nodes] after [n] draws. *)
Definition nodes_ok (nodes : gmap string BNode) (n : nat) : Prop :=
  (∀ v b, nodes !! v = Some b → HasPrefix v prefix = true ∧ ∃ i, i < n ∧ b = fresh_bnode i) ∧
  ((∀ i j, i < n → j < n → hex_encode (uuid i) = hex_encode (uuid j) → i = j) → ∀ v v' b, nodes !! v = Some b → nodes !! v' = Some b → v = v').

(** A term with its node, when it has one. *)
Definition unm (nodes : gmap string BNode) (t : Term) : Term :=
  match t with TURIRef u => match nodes !! URIRef_value u with Some b => TBNode b | None => t end | _ => t end.
Definition unm_triple (nodes : gmap string BNode) (t : Triple) : Triple := MkTriple (unm nodes (Subject t)) (Predicate t) (unm nodes (Object t)).

(** All the IRIs of a term that are to be replaced have their node. *)
Definition settled (nodes : gmap string BNode) (t : Term) : Prop :=
  ∀ u, t = TURIRef u → HasPrefix (URIRef_value u) prefix = true → is_Some (nodes !! URIRef_value u).

Lemma fresh_bnode_inj i j : fresh_bnode i = fresh_bnode j → hex_encode (uuid i) = hex_encode (uuid j).
Proof. unfold fresh_bnode. intros [= E]. done. Qed.

Lemma nodes_ok_insert nodes n v : nodes_ok nodes n → HasPrefix v prefix = true → nodes !! v = None →
  nodes_ok (<[v := fresh_bnode n]> nodes) (S n).
Proof.
  intros [H1 H2] Hv Hnew. split.
  - intros v' b [[<- <-]|[Hne Hb]]%lookup_insert_Some; [split; [done|]; exists n; split; [lia|done]|].
    destruct (H1 v' b Hb) as (Hp & i & Hi & Eb). split; [done|]. exists i. split; [lia|done].
  - intros Hinj. assert (Hinj' : ∀ i j, i < n → j < n → hex_encode (uuid i) = hex_encode (uuid j) → i = j) by (intros; apply Hinj; [lia|lia|done]).
    assert (Hold : ∀ w, nodes !! w = Some (fresh_bnode n) → False).
    { intros w Hw. destruct (H1 w _ Hw) as (_ & i & Hi & E). apply fresh_bnode_inj in E. apply Hinj in E; lia. }
    intros v1 v2 b [[<- <-]|[Hn1 Hb1]]%lookup_insert_Some [[<- Eb]|[Hn2 Hb2]]%lookup_insert_Some.
    + done.
    + by apply Hold in Hb2.
    + subst b. by apply Hold in Hb1.
    + by apply (H2 Hinj' _ _ b).
Qed.

Lemma unmint_ok t nodes n : nodes_ok nodes n → ∃ nodes' n', unmint uuid prefix t nodes n = (Ok (unm nodes' t, nodes'), n') ∧
  nodes ⊆ nodes' ∧ nodes_ok nodes' n' ∧ settled nodes' t.
Proof.
  intros Hok. unfold unmint. destruct t as [u|b|l|s p o key|v]; try (exists nodes, n; split; [done|]; split; [done|]; split; [done|]; by intros u).
  destruct (HasPrefix (URIRef_value u) prefix) eqn:Hp; cbn [negb unm].
  - destruct (nodes !! URIRef_value u) as [b|] eqn:E.
    + exists nodes, n. rewrite E. split; [done|]. split; [done|]. split; [done|]. intros u' [= <-] _. by rewrite E.
    + exists (<[URIRef_value u := fresh_bnode n]> nodes), (S n). rewrite lookup_insert_eq. split; [done|]. split; [by apply insert_subseteq|].
      split; [by apply nodes_ok_insert|]. intros u' [= <-] _. by rewrite lookup_insert_eq.
  - exists nodes, n. assert (E : nodes !! URIRef_value u = None).
    { destruct (nodes !! URIRef_value u) as [b|] eqn:E; [|done]. destruct Hok as [H1 _]. apply H1 in E as [E _]. congruence. }
    rewrite E. split; [done|]. split; [done|]. split; [done|]. intros u' [= <-]. by rewrite Hp.
Qed.

Lemma unm_settled nodes nodes' n t : nodes ⊆ nodes' → nodes_ok nodes' n → settled nodes t → unm nodes' t = unm nodes t ∧ settled nodes' t.
Proof.
  intros Hsub [H1 _] Hset. split.
  - destruct t as [u|b|l|s p o key|v]; try done. cbn [unm]. destruct (nodes !! URIRef_value u) as [b|] eqn:E.
    + by rewrite (lookup_weaken _ _ _ _ E Hsub).
    + destruct (nodes' !! URIRef_value u) as [b|] eqn:E'; [|done]. apply H1 in E' as [Hp _]. destruct (Hset u eq_refl Hp). congruence.
  - intros u Eu Hp. destruct (Hset u Eu Hp) as [b Hb]. exists b. by eapply lookup_weaken.
Qed.

Lemma unmint_all_ok g ts : ∀ nodes n m, ms_ok m → nodes_ok nodes n → ∃ nodes' n' m', unmint_all uuid prefix None g ts nodes m n = (Ok m', n') ∧
  ms_ok m' ∧ nodes ⊆ nodes' ∧ nodes_ok nodes' n' ∧ (∀ t, t ∈ ts → settled nodes' (Subject t) ∧ settled nodes' (Object t)) ∧
  graph_of m' g = foldl graph_add (graph_of m g) (unm_triple nodes' <$> ts).
Proof.
  induction ts as [|t ts IH]; intros nodes n m Hm Hn.
  { exists nodes, n, m. split; [done|]. split; [done|]. split; [done|]. split; [done|]. split; [|done]. by intros t ?%elem_of_nil. }
  destruct (unmint_ok (Subject t) nodes n Hn) as (nodes1 & n1 & E1 & Hs1 & Hn1 & Hset1).
  destruct (unmint_ok (Object t) nodes1 n1 Hn1) as (nodes2 & n2 & E2 & Hs2 & Hn2 & Hset2).
  destruct (add_each_ok g [MkTriple (unm nodes1 (Subject t)) (Predicate t) (unm nodes2 (Object t))] m Hm) as (m1 & Ea & Hm1 & Hg1).
  destruct (IH nodes2 n2 m1 Hm1 Hn2) as (nodes' & n' & m' & E & Hm' & Hs & Hn' & Hset & Hg).
  exists nodes', n', m'. assert (Hs1' : nodes1 ⊆ nodes') by by etrans.
  destruct (unm_settled _ _ _ _ Hs1' Hn' Hset1) as [U1 S1]. destruct (unm_settled _ _ _ _ Hs Hn' Hset2) as [U2 S2]. split.
  { cbn [unmint_all]. unfold mbind, drawM_bind. rewrite E1, E2. cbn [add_each Subject Predicate Object] in Ea.
    destruct (g_Add None g (unm nodes1 (Subject t)) (Predicate t) (unm nodes2 (Object t)) m) as [[[]|e] m0]; [|done]. injection Ea as ->. done. }
  split; [done|]. split; [by repeat (etrans; [eassumption|])|]. split; [done|]. split.
  { intros t' [->|Ht]%elem_of_cons; [done|by apply Hset]. }
  rewrite Hg, Hg1. cbn [foldl fmap list_fmap]. f_equal. unfold unm_triple. by rewrite U1, U2.
Qed.

Lemma unm_flat_wf nodes n t : nodes_ok nodes n → term_wf t → term_wf (unm nodes t) ∧ (isSubject t = true → isSubject (unm nodes t) = true).
Proof.
  intros [H1 _] Hw. destruct t as [u|b|l|s p o key|v]; try done. cbn [unm]. destruct (nodes !! URIRef_value u) as [b|] eqn:E; [|done].
  split; [|done]. apply H1 in E as (_ & i & _ & ->). exists ("N" +:+ hex_encode (uuid i)). by split.
Qed.

Lemma unm_triple_wf nodes n t : nodes_ok nodes n → triple_wf t → triple_wf (unm_triple nodes t).
Proof.
  intros Hn (Ws & Hs & Wp & Wo). destruct (unm_flat_wf nodes n _ Hn Ws) as [W1 G1]. destruct (unm_flat_wf nodes n _ Hn Wo) as [W2 _].
  split; [done|]. split; [by apply G1|by split].
Qed.
End unminting.

Lemma DeSkolemize_ok uuid g authority opts st n : sinv st → graph_wf (graph_of st g) →
  ∃ nodes n' m', DeSkolemize uuid None g authority opts st n = (Ok (copy_of g, m'), n') ∧ ms_ok m' ∧ graph_wf (graph_of m' (copy_of g)) ∧
    nodes_ok uuid (skolemPrefix authority (basepath (skolem_config opts))) nodes n' ∧
    (∀ t, t ∈ graph_triples (graph_of st g) → settled (skolemPrefix authority (basepath (skolem_config opts))) nodes (Subject t) ∧
       settled (skolemPrefix authority (basepath (skolem_config opts))) nodes (Object t)) ∧
    (∀ t', t' ∈ graph_triples (graph_of m' (copy_of g)) ↔ ∃ t, t ∈ graph_triples (graph_of st g) ∧ t' = unm_triple nodes t).
Proof using prefix_St.
  intros Hs Hwf. destruct (g_triples_ok st g None None None Hs) as (ts & E & _ & Hts). rewrite matching_all in Hts.
  destruct (emptyCopy_ok g st Hs) as (m & Em & Hm & Hempty & _). fold (copy_of g) in Em, Hempty.
  set (prefix := skolemPrefix _ _). assert (H0 : nodes_ok uuid prefix ∅ n) by (split; intros v; intros; simplify_map_eq).
  destruct (unmint_all_ok uuid prefix (copy_of g) ts ∅ n m Hm H0) as (nodes & n' & m' & Eu & Hm' & _ & Hn & Hset & Hg).
  exists nodes, n', m'. split.
  { unfold DeSkolemize. rewrite E, collect_Ok, Em. fold prefix. unfold lift, mret, drawM_ret, mbind, drawM_bind. by rewrite Eu. }
  split; [done|]. rewrite Hg, Hempty. destruct (foldl_add_elem (unm_triple nodes <$> ts) ∅) as [H1 H2]; [by split| |].
  { apply Forall_fmap, Forall_forall. intros t Ht. eapply unm_triple_wf; [done|]. rewrite Hts in Ht. by eapply graph_triple_wf. }
  split; [done|]. split; [done|]. split; [intros t Ht; apply Hset; by rewrite Hts|]. intros t'. rewrite H2, list_elem_of_fmap. split.
  - intros [Ht|(t & -> & Ht)]; [by apply graph_triples_empty_elem in Ht|]. exists t. split; [by rewrite <- Hts|done].
  - intros (t & Ht & ->). right. exists t. split; [done|by rewrite Hts].
Qed.
End copies.

(** ** The round trip *)

Section roundtrip.
Context `{GoRange} {St : Type} {store_St : Store St} {laws_St : StoreLaws St} {prefix_St : PrefixLaws St}.
Implicit Types (st : St).

(** The id of a label under [mint_of]. *)
Definition label_id (opts : list SkolemOption) (ts : list Triple) (l : string) : string := default l (skolem_ids opts ts !! l).

Lemma label_id_inj opts ts l l' : Forall triple_wf ts → Exists (touches l) ts → Exists (touches l') ts → label_id opts ts l = label_id opts ts l' → l = l'.
Proof.
  intros Hts Hl Hl'. unfold label_id, skolem_ids. destruct (stable _); [|by rewrite !lookup_empty].
  destruct (stable_ids_ok ts Hts) as [H1 H2]. apply H1 in Hl as [x Hx]. apply H1 in Hl' as [x' Hx']. rewrite Hx, Hx'. cbn [from_option id]. intros ->.
  by eapply H2.
Qed.

(** The label a Skolem IRI comes back with. *)
Definition back (prefix : string) (opts : list SkolemOption) (ts : list Triple) (nodes : gmap string BNode) (l : string) : string :=
  match nodes !! (prefix +:+ label_id opts ts l) with Some b => BNode_value b | None => l end.

Lemma unm_skolem authority opts ts uuid nodes n t :
  let prefix := skolemPrefix authority (basepath (skolem_config opts)) in
  nodes_ok uuid prefix nodes n → flat t = true → term_wf t → (∀ u, t = TURIRef u → HasPrefix (URIRef_value u) prefix = false) →
  settled prefix nodes (skolemTerm (mint_of authority opts ts) t) →
  unm nodes (skolemTerm (mint_of authority opts ts) t) = rename (back prefix opts ts nodes) t ∧
  ∀ l, bnode_label t = Some l → is_Some (nodes !! (prefix +:+ label_id opts ts l)).
Proof.
  intros prefix Hn Hf Hw Hu Hset. rewrite skolem_flat in Hset |- * by done. destruct t as [u|b|l|s p o key|v]; try done.
  - split; [|done]. cbn. destruct (nodes !! URIRef_value u) as [b|] eqn:E; [|done]. apply (proj1 Hn) in E as [Hp _]. by rewrite Hu in Hp.
  - destruct (Hset _ eq_refl) as [b' Hb']; [apply HasPrefix_app|]. split; [|by intros l [= <-]]. cbn [unm rename]. rewrite Hb'. do 2 f_equal.
    unfold back. change (URIRef_value _) with (prefix +:+ label_id opts ts (BNode_value b)) in Hb'. rewrite Hb'. by apply (proj1 Hn) in Hb' as (_ & i & _ & ->).
Qed.

(** C6: Skolemizing a graph and de-skolemizing the copy with the same options gives the graph again, up to
    a renaming of its blank nodes that keeps different nodes apart: for every store of the contract, for
    ids by label and for structural ids, when no IRI of the graph already lies under the Skolem prefix and the
    blank nodes stand outside triple terms. *)
Theorem skolem_roundtrip g authority opts st uuid n :
  sinv st → graph_wf (graph_of st g) →
  (∀ i j, uuid i = uuid j → i = j) →
  (∀ t, t ∈ graph_triples (graph_of st g) → flat_triple t ∧
     ∀ u, Subject t = TURIRef u ∨ Object t = TURIRef u → HasPrefix (URIRef_value u) (skolemPrefix authority (basepath (skolem_config opts))) = false) →
  ∃ g1 m1 g2 m2 n2 f, Skolemize None g authority opts st = Ok (g1, m1) ∧ DeSkolemize uuid None g1 authority opts m1 n = (Ok (g2, m2), n2) ∧
    (∀ l l', Exists (touches l) (graph_triples (graph_of st g)) → Exists (touches l') (graph_triples (graph_of st g)) → f l = f l' → l = l') ∧
    (∀ t', t' ∈ graph_triples (graph_of m2 g2) ↔ ∃ t, t ∈ graph_triples (graph_of st g) ∧ t' = rename_triple f t).
Proof using prefix_St.
  intros Hs Hwf Huuid Hg. set (prefix := skolemPrefix _ _) in *.
  destruct (Skolemize_ok g authority opts st Hs Hwf) as (ts & m1 & Hts & E1 & Hm1 & Hwf1 & Hin1); [intros t Ht; by apply Hg|].
  assert (Hs1 : sinv m1) by (cbv [sinv MemoryStore_Laws]; exact Hm1).
  destruct (DeSkolemize_ok uuid (copy_of g) authority opts m1 n Hs1 Hwf1) as (nodes & n2 & m2 & E2 & Hm2 & _ & Hn & Hset & Hin2). fold prefix in Hn, Hset.
  set (f := back prefix opts ts nodes). exists (copy_of g), m1, (copy_of (copy_of g)), m2, n2, f. split; [done|]. split; [done|].
  assert (Hwt : ∀ t, t ∈ graph_triples (graph_of st g) → triple_wf t) by (intros t Ht; exact (graph_triple_wf _ _ Hwf Ht)).
  assert (Hunm : ∀ t, t ∈ graph_triples (graph_of st g) →
    unm_triple nodes (skolemTriple (mint_of authority opts ts) t) = rename_triple f t ∧
    ∀ l, touches l t → is_Some (nodes !! (prefix +:+ label_id opts ts l))).
  { intros t Ht. destruct (Hg t Ht) as [[Fs Fo] Hu]. destruct (Hwt t Ht) as (Ws & _ & _ & Wo).
    destruct (Hset (skolemTriple (mint_of authority opts ts) t)) as [Ss So]; [apply Hin1; by exists t|].
    destruct (unm_skolem authority opts ts uuid nodes n2 (Subject t) Hn Fs Ws) as [A1 A2]; [by intros u Eu; apply Hu; left|done|].
    destruct (unm_skolem authority opts ts uuid nodes n2 (Object t) Hn Fo Wo) as [B1 B2]; [by intros u Eu; apply Hu; right|done|].
    split; [|intros l [Hl|Hl]; [by apply A2|by apply B2]]. unfold unm_triple, rename_triple. cbn [skolemTriple Subject Predicate Object]. by rewrite A1, B1. }
  split.
  - intros l l' Hl Hl' Ef. assert (Hnode : ∀ k, Exists (touches k) (graph_triples (graph_of st g)) →
      ∃ b, nodes !! (prefix +:+ label_id opts ts k) = Some b ∧ f k = BNode_value b).
    { intros k Hk. apply Exists_exists in Hk as (t & Ht & Htk). destruct (proj2 (Hunm t Ht) k Htk) as [b Hb]. exists b. split; [done|]. unfold f, back. by rewrite Hb. }
    destruct (Hnode l Hl) as (b & Hb & Eb). destruct (Hnode l' Hl') as (b' & Hb' & Eb'). rewrite Eb, Eb' in Ef.
    assert (b = b') as <-.
    { apply (proj1 Hn) in Hb as (_ & i & _ & ->). apply (proj1 Hn) in Hb' as (_ & j & _ & ->). unfold fresh_bnode in *. do 2 f_equal. exact Ef. }
    apply (label_id_inj opts ts); [apply Forall_forall; intros t Ht; apply Hwt; by rewrite <- Hts|by rewrite Hts..|].
    apply (app_inj_l prefix). apply (proj2 Hn) with b; [|done..]. intros i j _ _ E%hex_encode_inj. by apply Huuid.
  - intros t'. rewrite Hin2. split.
    + intros (t1 & Ht1 & ->). apply Hin1 in Ht1 as (t & Ht & ->). exists t. split; [done|]. by apply Hunm.
    + intros (t & Ht & ->). exists (skolemTriple (mint_of authority opts ts) t). split; [apply Hin1; by exists t|]. symmetry. by apply Hunm.
Qed.

Lemma rename_triple_id t : triple_wf t → rename_triple id t = t.
Proof.
  intros (Ws & _ & _ & Wo). assert (Hr : ∀ t, term_wf t → rename id t = t) by (by intros [u|b|l|s p o key|v]; try done; intros (v & _ & ->)).
  destruct t as [s p o]. unfold rename_triple. cbn [Subject Predicate Object] in *. by rewrite !Hr.
Qed.

Lemma rename_flat σ t : flat (rename σ t) = flat t.
Proof. by destruct t. Qed.

(** Terms and their renamed ones become the same when the ids follow the renaming. *)
Lemma skolem_rename σ (m m' : BNode → URIRef) t : flat t = true → term_wf t → term_wf (rename σ t) →
  (∀ b, t = TBNode b → m' (MkBNode ("B:" +:+ σ (BNode_value b))) = m b) → skolemTerm m' (rename σ t) = skolemTerm m t.
Proof.
  intros Hf Hw Hw' Hm. rewrite !skolem_flat by (by rewrite ?rename_flat). destruct t as [u|b|l|s p o key|v]; try done. cbn [rename]. by rewrite Hm.
Qed.

Lemma label_id_renamed σ `{!Inj (=) (=) σ} opts ts1 ts2 ts l : stable (skolem_config opts) = true → (∀ l, l ≠ EmptyString → σ l ≠ EmptyString) →
  Forall triple_wf ts → ts1 ≡ₚ ts → ts2 ≡ₚ rename_triple σ <$> ts → discrete ts → Exists (touches l) ts →
  label_id opts ts2 (σ l) = label_id opts ts1 l.
Proof.
  intros Hst Hσ Hts H1 H2 Hdis Hl. unfold label_id, skolem_ids. rewrite Hst.
  rewrite (stable_ids_renamed σ ts ts2 Hσ Hts H2 Hdis l Hl). change l with (id l) at 4.
  rewrite (stable_ids_renamed id ts ts1 (λ l H, H) Hts); [|rewrite H1|done..].
  - destruct (proj2 (proj1 (stable_ids_ok ts Hts) l) Hl) as [x ->]. done.
  - rewrite (list_fmap_ext _ id), list_fmap_id; [done|]. intros i t Ht. apply rename_triple_id. rewrite Forall_forall in Hts. apply Hts. by eapply list_elem_of_lookup_2.
Qed.

(** C17: With structural ids the Skolem IRIs depend on the graph and not on the labels of its blank nodes or on
    the order in which a store gives the triples: two graphs, held by any two stores of the contract, the
    second a renaming of the first, have the same skolemized triples, when the refinement separates the
    blank nodes of the first. *)
Theorem skolem_ids_structural {St' : Type} {store_St' : Store St'} {laws_St' : StoreLaws St'} {prefix_St' : PrefixLaws St'}
    g st g' (st' : St') authority opts σ :
  sinv st → sinv st' → graph_wf (graph_of st g) → graph_wf (graph_of st' g') → (∀ t, t ∈ graph_triples (graph_of st g) → flat_triple t) →
  stable (skolem_config opts) = true → Inj (=) (=) σ → (∀ l, l ≠ EmptyString → σ l ≠ EmptyString) →
  graph_triples (graph_of st' g') ≡ₚ rename_triple σ <$> graph_triples (graph_of st g) →
  discrete (graph_triples (graph_of st g)) →
  ∃ g1 m1 g2 m2, Skolemize None g authority opts st = Ok (g1, m1) ∧ Skolemize None g' authority opts st' = Ok (g2, m2) ∧
    ∀ t, t ∈ graph_triples (graph_of m2 g2) ↔ t ∈ graph_triples (graph_of m1 g1).
Proof using prefix_St.
  intros Hs Hs' Hwf Hwf' Hflat Hst Hinj Hσ Hren Hdis.
  assert (Hwt : ∀ t, t ∈ graph_triples (graph_of st g) → triple_wf t) by (intros t Ht; exact (graph_triple_wf _ _ Hwf Ht)).
  assert (Hflat' : ∀ t, t ∈ graph_triples (graph_of st' g') → flat_triple t).
  { intros t. rewrite Hren, list_elem_of_fmap. intros (t0 & -> & [Fs Fo]%Hflat). split; cbn; by rewrite rename_flat. }
  destruct (Skolemize_ok g authority opts st Hs Hwf Hflat) as (ts1 & m1 & H1 & E1 & _ & _ & Hin1).
  destruct (Skolemize_ok g' authority opts st' Hs' Hwf' Hflat') as (ts2 & m2 & H2 & E2 & _ & _ & Hin2).
  exists (copy_of g), m1, (copy_of g'), m2. split; [done|]. split; [done|].
  assert (Hid : ∀ b t, t ∈ graph_triples (graph_of st g) → Subject t = TBNode b ∨ Object t = TBNode b →
    mint_of authority opts ts2 (MkBNode ("B:" +:+ σ (BNode_value b))) = mint_of authority opts ts1 b).
  { intros b t Ht Hb. change (BNode_value (MkBNode ("B:" +:+ σ (BNode_value b)))) with (σ (BNode_value b)).
    assert (E : label_id opts ts2 (σ (BNode_value b)) = label_id opts ts1 (BNode_value b)).
    2: exact (f_equal (λ x, NewURIRefUnsafe (skolemPrefix authority (basepath (skolem_config opts)) +:+ x)) E).
    apply (label_id_renamed σ opts ts1 ts2 (graph_triples (graph_of st g))); try done.
    - apply Forall_forall. exact Hwt.
    - by rewrite H2.
    - apply Exists_exists. exists t. split; [done|]. destruct Hb as [Hb|Hb]; [left|right]; by rewrite Hb. }
  assert (Himg : ∀ t, t ∈ graph_triples (graph_of st g) →
    skolemTriple (mint_of authority opts ts2) (rename_triple σ t) = skolemTriple (mint_of authority opts ts1) t).
  { intros t Ht. destruct (Hflat t Ht) as [Fs Fo]. destruct (Hwt t Ht) as (Ws & _ & _ & Wo). unfold skolemTriple, rename_triple. cbn [Subject Predicate Object].
    rewrite (skolem_rename σ (mint_of authority opts ts1) _ (Subject t)); [|done..|by apply rename_wf|intros b Eb; apply (Hid b t Ht); by left].
    by rewrite (skolem_rename σ (mint_of authority opts ts1) _ (Object t)); [|done..|by apply rename_wf|intros b Eb; apply (Hid b t Ht); by right]. }
  intros t'. rewrite Hin2, Hin1. split.
  - intros (t2 & Ht2 & ->). rewrite Hren, list_elem_of_fmap in Ht2. destruct Ht2 as (t & -> & Ht). exists t. split; [done|]. exact (Himg t Ht).
  - intros (t & Ht & ->). exists (rename_triple σ t). split; [rewrite Hren; by apply list_elem_of_fmap_2|]. symmetry. exact (Himg t Ht).
Qed.
End roundtrip.

(** ** Witnesses *)

#[local] Instance skolem_range_instance : GoRange | 100 := sorted_range.

Definition sk_blank (s : string) : Term := TBNode (MkBNode ("B:" +:+ s)).
(** A graph of two blank nodes that the refinement separates. *)
Definition sk_triples (a b : string) : list Triple :=
  [MkTriple (sk_blank a) (ex_iri "p") (sk_blank b); MkTriple (sk_blank b) (ex_iri "p") (TURIRef (ex_iri "o"))].
Definition sk_ops (a b : string) : list ds_op := (λ t, DsAdd t ex_graph) <$> sk_triples a b.
Definition sk_store (a b : string) : MemoryStore := store_run NewMemoryStore (sk_ops a b).
Definition sk_authority : string := "http://example.com".

Lemma sk_graph_all (P : Triple → Prop) a b : Forall P (sk_triples a b) → graph_all P (graph_of (sk_store a b) ex_node).
Proof.
  intros HP. unfold graph_of. change (sabs (sk_store a b)) with (ms_abs (store_run NewMemoryStore (sk_ops a b))).
  rewrite (proj2 (ms_run_ok (sk_ops a b))). apply ds_run_all. rewrite Forall_forall in HP.
  intros o (t & -> & Ht)%list_elem_of_fmap t' ->%list_elem_of_singleton. by apply HP.
Qed.

Lemma sk_wf a b : a ≠ EmptyString → b ≠ EmptyString → graph_wf (graph_of (sk_store a b) ex_node).
Proof.
  intros Ha Hb. apply sk_graph_all. assert (Hw : ∀ s, s ≠ EmptyString → term_wf (sk_blank s)) by (intros s Hs; by exists s).
  repeat constructor; try (by apply Hw); by eexists.
Qed.

Lemma sk_elem (P : Triple → Prop) a b t : Forall P (sk_triples a b) → t ∈ graph_triples (graph_of (sk_store a b) ex_node) → P t.
Proof. intros HP Ht. destruct (sk_graph_all P a b HP) as [Hk Ha]. apply graph_triples_elem in Ht; [|done]. by eapply Ha. Qed.

Lemma skolem_roundtrip_witness :
  ∃ g1 m1 g2 m2 n2 f, Skolemize None ex_node sk_authority [WithStableSkolemIDs] (sk_store "x" "y") = Ok (g1, m1) ∧
    DeSkolemize pretty.pretty_nat None g1 sk_authority [WithStableSkolemIDs] m1 0 = (Ok (g2, m2), n2) ∧
    (∀ l l', Exists (touches l) (graph_triples (graph_of (sk_store "x" "y") ex_node)) →
       Exists (touches l') (graph_triples (graph_of (sk_store "x" "y") ex_node)) → f l = f l' → l = l') ∧
    (∀ t', t' ∈ graph_triples (graph_of m2 g2) ↔ ∃ t, t ∈ graph_triples (graph_of (sk_store "x" "y") ex_node) ∧ t' = rename_triple f t).
Proof.
  apply (skolem_roundtrip (St := MemoryStore) ex_node sk_authority [WithStableSkolemIDs] (sk_store "x" "y") pretty.pretty_nat 0).
  - apply (ms_run_ok (sk_ops "x" "y")).
  - by apply sk_wf.
  - intros i j E. by apply (inj pretty.pretty_nat).
  - intros t. apply (sk_elem (λ t, flat_triple t ∧ ∀ u, Subject t = TURIRef u ∨ Object t = TURIRef u → HasPrefix (URIRef_value u) _ = false)).
    repeat constructor; intros u [E|E]; try done; injection E as <-; reflexivity.
Defined.

Lemma sk_discrete : discrete (graph_triples (graph_of (sk_store "x" "y") ex_node)).
Proof.
  assert (E : bnode_labels (graph_triples (graph_of (sk_store "x" "y") ex_node)) = ["x"; "y"]) by (vm_compute; reflexivity).
  assert (Ex : sg (signatures (graph_triples (graph_of (sk_store "x" "y") ex_node))) "x" = "4682145a54a2cc76e0b9e84a79e73775") by (vm_compute; reflexivity).
  assert (Ey : sg (signatures (graph_triples (graph_of (sk_store "x" "y") ex_node))) "y" = "a14d6f276a67f55e98f4d9404a556d60") by (vm_compute; reflexivity).
  revert Ex Ey. unfold discrete. rewrite E. generalize (sg (signatures (graph_triples (graph_of (sk_store "x" "y") ex_node)))). clear E.
  intros f Ex Ey l l'. rewrite !elem_of_cons, !elem_of_nil. intros [->|[->|[]]] [->|[->|[]]]; rewrite ?Ex, ?Ey; intros Q; try discriminate Q; reflexivity.
Qed.

Lemma skolem_ids_structural_witness :
  ∃ g1 m1 g2 m2, Skolemize None ex_node sk_authority [WithStableSkolemIDs] (sk_store "x" "y") = Ok (g1, m1) ∧
    Skolemize None ex_node sk_authority [WithStableSkolemIDs] (sk_store "nx" "ny") = Ok (g2, m2) ∧
    ∀ t, t ∈ graph_triples (graph_of m2 g2) ↔ t ∈ graph_triples (graph_of m1 g1).
Proof.
  apply (skolem_ids_structural (St := MemoryStore) (St' := MemoryStore) ex_node (sk_store "x" "y") ex_node (sk_store "nx" "ny") sk_authority
    [WithStableSkolemIDs] (λ l, "n" +:+ l)).
  - apply (ms_run_ok (sk_ops "x" "y")).
  - apply (ms_run_ok (sk_ops "nx" "ny")).
  - by apply sk_wf.
  - by apply sk_wf.
  - intros t. apply (sk_elem flat_triple). repeat constructor.
  - reflexivity.
  - intros l l' E. by injection E.
  - intros l _ E. discriminate E.
  - apply (bool_decide_unpack _). vm_compute. exact I.
  - exact sk_discrete.
Defined.

(** A blank node inside a triple term becomes an IRI, and [DeSkolemize] leaves it one:
    it does not look inside triple terms, where [Skolemize] does. *)
Definition sk_nested : list Triple :=
  [MkTriple (TURIRef (ex_iri "s")) (ex_iri "p") (default (sk_blank "x") (NewTripleTerm (Some (sk_blank "x")) (ex_iri "p") (Some (TURIRef (ex_iri "o")))))].
Definition sk_back (ts : list Triple) : result (list Triple) :=
  '(g1, m1) ← Skolemize None ex_node sk_authority [] (store_run NewMemoryStore ((λ t, DsAdd t ex_graph) <$> ts));
  '(g2, m2) ← (DeSkolemize pretty.pretty_nat None g1 sk_authority [] m1 0).1;
  collect_seq (g_Triples None g2 None None None m2).

Example sk_back_nested :
  match sk_back sk_nested with
  | Ok l => (λ t, Term_N3 None (Object t)) <$> l = ["<<( <http://example.com/.well-known/genid/x> <http://example.org/p> <http://example.org/o> )>>"]
  | Err _ => False
  end.
Proof. vm_compute. reflexivity. Qed.
