(* ===== verification/NTSyntax.v ===== *)
(** * N-Triples and N-Quads syntax

    [internal/ntsyntax]: the reader of one line ([parser.go]) and the writer of
    terms ([serializer.go]), shared by the packages [nt] and [nq].

    A [LineParser] keeps the text from [Pos] on ([rest]) in place of [Line] and
    [Pos]; the position is not observed after an error.  The blank node scope,
    the IRI cache and the UUIDs drawn outlive the line and are kept on errors. *)

From S2P Require Import Prelude GoStrings Utf8 Strconv Term Decode ParseScope.
From stdpp Require Import options.

(** ** The errors and the state *)

Definition ErrInvalidIRI_nt : error := Sentinel "invalid character in IRI".
Definition ErrRelativeIRI : error := Sentinel "relative IRI not allowed in N-Triples or N-Quads".
Definition ErrInvalidUTF8 : error := Sentinel "invalid UTF-8 cannot be written in N-Triples or N-Quads".

Record LineParser := MkLineParser {
  lp_rest : string;
  BlankNodes : Scope;
  IRIs : Cache;
  draws : nat
}.

(** A computation on the parser. *)
Definition parserM (A : Type) : Type := LineParser → result A * LineParser.

#[global] Instance parserM_ret : MRet parserM := λ A a p, (Ok a, p).
#[global] Instance parserM_bind : MBind parserM := λ A B f m p,
  match m p with
  | (Ok a, p') => f a p'
  | (Err e, p') => (Err e, p')
  end.

Definition set_rest (r : string) (p : LineParser) : LineParser :=
  MkLineParser r (BlankNodes p) (IRIs p) (draws p).
Definition set_iris (c : Cache) (p : LineParser) : LineParser :=
  MkLineParser (lp_rest p) (BlankNodes p) c (draws p).

Definition perr {A} (e : error) : parserM A := λ p, (Err e, p).
Definition peek : parserM string := λ p, (Ok (lp_rest p), p).
(** A scanner of the text: its value and the text after it. *)
Definition consume {A} (f : string → result (A * string)) : parserM A := λ p,
  match f (lp_rest p) with
  | Ok (a, r) => (Ok a, set_rest r p)
  | Err e => (Err e, p)
  end.
Definition wrapP {A} (format : string) (args : list string) (m : parserM A) : parserM A := λ p,
  match m p with
  | (Ok a, p') => (Ok a, p')
  | (Err e, p') => (Err (Wrapf format args e), p')
  end.
Definition liftP {A} (r : result A) : parserM A := λ p, (r, p).
Definition advance (n : nat) : parserM unit := λ p, (Ok tt, set_rest (sdrop n (lp_rest p)) p).

(** ** Character classes *)

Definition is_blank (c : ascii) : bool := Ascii.eqb c space || Ascii.eqb c tab.

Definition isLetter (c : ascii) : bool := byte_in "a" "z" c || byte_in "A" "Z" c.

(** [isValidLangTag]: the loops over the parts and over their runes. *)
Definition lang_rune (first : bool) (r : rune) : bool :=
  let letter := in_range 97 122 r || in_range 65 90 r in
  if first then letter else letter || in_range 48 57 r.
Definition lang_part (first : bool) (part : string) : bool :=
  if (len part =? 0) || (8 <? len part) then false else forallb (lang_rune first) (runes part).
Definition isValidLangTag (tag : string) : bool :=
  if is_empty tag then false
  else match SplitByte tag "-" with
       | [] => true
       | part :: parts => lang_part true part && forallb (lang_part false) parts
       end.

Definition scheme_byte (c : ascii) : bool :=
  isLetter c || is_digit c || Ascii.eqb c "+" || Ascii.eqb c "-" || Ascii.eqb c ".".
Definition isAbsoluteIRI (s : string) : bool :=
  match IndexByte s ":" with
  | None | Some O => false
  | Some colon =>
      match stake colon s with
      | String c r => isLetter c && sforall scheme_byte r
      | EmptyString => true
      end
  end.

Definition isPNCharsBase (r : rune) : bool :=
  existsb (λ b, in_range b.1 b.2 r)
    [(65, 90); (97, 122); (0xC0, 0xD6); (0xD8, 0xF6); (0xF8, 0x2FF); (0x370, 0x37D); (0x37F, 0x1FFF);
     (0x200C, 0x200D); (0x2070, 0x218F); (0x2C00, 0x2FEF); (0x3001, 0xD7FF); (0xF900, 0xFDCF);
     (0xFDF0, 0xFFFD); (0x10000, 0xEFFFF)]%N.
Definition isPNCharsU (r : rune) : bool := (r =? 95)%N || isPNCharsBase r.
Definition isPNChar (r : rune) : bool :=
  isPNCharsU r || (r =? 45)%N || in_range 48 57 r || (r =? 0xB7)%N || in_range 0x300 0x36F r || in_range 0x203F 0x2040 r.

(** ** Scanners *)

(** A [\uXXXX] or [\UXXXXXXXX] escape after its letter: [k] digits.  The text it
    stands for and the text after it. *)
Definition read_uchar (k : nat) (truncated invalid surrogate : error) (s : string) : result (string * string) :=
  if len s <? k then Err truncated
  else match ParseHex32 (stake k s) with
  | None => Err invalid
  | Some code =>
      if in_range 0xD800 0xDFFF code then Err surrogate
      else Ok (encode_rune code, sdrop k s)
  end.

Definition iri_uchar (k : nat) (l : string) (s : string) : result (string * string) :=
  read_uchar k (Errorf ("truncated \" +:+ l +:+ " escape in IRI") [])
    (Errorf ("invalid \" +:+ l +:+ " escape in IRI: %w") []) (Errorf "invalid surrogate in IRI escape" []) s.

(** An escape in an IRI: [d] is the byte after the backslash. *)
Definition iri_escape (d : ascii) (s : string) : result (string * string) :=
  if Ascii.eqb d "u" then iri_uchar 4 "u" s
  else if Ascii.eqb d "U" then iri_uchar 8 "U" s
  else Err (Errorf "unknown escape \%c in IRI" [str1 d]).

(** The loop of [UnescapeIRI]; every step shortens [s], so its length is enough
    fuel. *)
Fixpoint unescape_iri_go (fuel : nat) (s : string) : result string :=
  match fuel with
  | O => Err ErrFuel
  | S fuel =>
      match s with
      | EmptyString => Ok EmptyString
      | String c s1 =>
          match s1 with
          | String d s2 =>
              if Ascii.eqb c bslash then
                '(t, r) ← iri_escape d s2; String.append t <$> unescape_iri_go fuel r
              else String c <$> unescape_iri_go fuel s1
          | EmptyString => String c <$> unescape_iri_go fuel s1
          end
      end
  end.
Definition UnescapeIRI (s : string) : result string :=
  if has_byte bslash s then unescape_iri_go (S (len s)) s else Ok s.

Section line.
(** [uuid.New] and the number of the line. *)
Context (uuid : nat → string) (LineNum : Z).

Definition line_args : list string := [FormatInt LineNum].
Definition line_err (format : string) : error := Errorf ("line %d: " +:+ format) line_args.
Definition in_line {A} (ctx : string) (m : parserM A) : parserM A :=
  wrapP ("line %d: " +:+ ctx +:+ ": %w") line_args m.

(** The loop of [ReadIRI]: the text before the closing bracket. *)
Fixpoint scan_iri (s : string) : result (string * string) :=
  match s with
  | EmptyString => Err (Errorf "unterminated IRI" [])
  | String c s1 =>
      if Ascii.eqb c ">" then Ok (EmptyString, s1)
      else if Ascii.eqb c bslash then
        match s1 with
        | EmptyString => Err (line_err "unterminated escape in IRI")
        | String d s2 => '(t, r) ← scan_iri s2; Ok (String c (String d t), r)
        end
      else if (byte_val c <=? 0x20)%N then Err (Wrapf "line %d: %w" line_args ErrInvalidIRI_nt)
      else '(t, r) ← scan_iri s1; Ok (String c t, r)
  end.

Definition lit_uchar (k : nat) (l : string) (s : string) : result (string * string) :=
  read_uchar k (line_err ("truncated \" +:+ l +:+ " escape")) (line_err ("invalid \" +:+ l +:+ " escape"))
    (line_err ("invalid surrogate in \" +:+ l +:+ " escape")) s.

(** The escapes of a literal that stand for one byte. *)
Definition echar (c : ascii) : option ascii :=
  if Ascii.eqb c "n" then Some lf
  else if Ascii.eqb c "r" then Some cr
  else if Ascii.eqb c "t" then Some tab
  else if Ascii.eqb c "b" then Some "008"%char
  else if Ascii.eqb c "f" then Some "012"%char
  else if Ascii.eqb c bslash then Some bslash
  else if Ascii.eqb c dquote then Some dquote
  else None.

(** An escape: [d] is the byte after the backslash. *)
Definition scan_escape (d : ascii) (s : string) : result (string * string) :=
  match echar d with
  | Some b => Ok (str1 b, s)
  | None =>
      if Ascii.eqb d "u" then lit_uchar 4 "u" s
      else if Ascii.eqb d "U" then lit_uchar 8 "U" s
      else Err (Errorf "line %d: unknown escape \%c" (line_args ++ [str1 d]))
  end.

(** The loop of [ReadLiteral]: the lexical form up to the closing quote. *)
Fixpoint scan_lexical (fuel : nat) (s : string) : result (string * string) :=
  match fuel with
  | O => Err ErrFuel
  | S fuel =>
      match s with
      | EmptyString => Err (line_err "unterminated string literal")
      | String c s1 =>
          if Ascii.eqb c bslash then
            match s1 with
            | EmptyString => Err (line_err "unterminated escape")
            | String d s2 =>
                '(t, r) ← scan_escape d s2;
                '(u, r) ← scan_lexical fuel r; Ok (t +:+ u, r)
            end
          else if Ascii.eqb c dquote then Ok (EmptyString, s1)
          else '(u, r) ← scan_lexical fuel s1; Ok (String c u, r)
      end
  end.

(** The bytes of the runes after the first of a blank node label. *)
Fixpoint label_bytes (fuel : nat) (s : string) : nat :=
  match fuel, s with
  | S fuel, String _ _ =>
      let '(r, size) := DecodeRune s in
      if isPNChar r || (r =? 46)%N then size + label_bytes fuel (sdrop size s) else 0
  | _, _ => 0
  end.

Definition is_dot (c : ascii) : bool := Ascii.eqb c ".".

(** The label after [_:] with its trailing dots left to the text after it. *)
Definition scan_label (s : string) : result (string * string) :=
  if is_empty s then Err (line_err "empty blank node label")
  else
    let '(r, size) := DecodeRune s in
    if negb (isPNCharsU r) && negb (in_range 48 57 r)
    then Err (Errorf "line %d: invalid blank node label start: %c" (line_args ++ [encode_rune r]))
    else
      let n := size + label_bytes (len s) (sdrop size s) in
      let label := TrimRightP is_dot (stake n s) in
      if is_empty label then Err (line_err "empty blank node label")
      else Ok (label, sdrop (len label) s).

(** The loop over a language tag. *)
Fixpoint scan_lang (s : string) : string * string :=
  match s with
  | EmptyString => (EmptyString, EmptyString)
  | String c s1 =>
      if is_blank c || is_dot c then (EmptyString, s)
      else let '(t, r) := scan_lang s1 in (String c t, r)
  end.

(** ** The reader *)

Definition SkipSpaces : parserM unit := λ p, (Ok tt, set_rest (TrimLeftP is_blank (lp_rest p)) p).

Definition Expect (ch : ascii) : parserM bool := λ p,
  match lp_rest p with
  | String c r => if Ascii.eqb c ch then (Ok true, set_rest r p) else (Ok false, p)
  | EmptyString => (Ok false, p)
  end.

Definition ReadIRI : parserM string :=
  open ← Expect "<";
  if negb open then perr (Errorf "expected '<'" [])
  else raw ← consume scan_iri; wrapP "line %d: %w" line_args (liftP (UnescapeIRI raw)).

Definition label_node (label : string) : parserM BNode := λ p,
  let '(b, scope, n) := Label uuid (BlankNodes p) label (draws p) in
  (b, MkLineParser (lp_rest p) scope (IRIs p) n).

Definition ReadBNode : parserM BNode :=
  advance 2 ≫= λ _, label ← consume scan_label; label_node label.

(** An IRI in subject, object or graph position; [what] names it in errors. *)
Definition read_term_iri (what : string) : parserM Term :=
  iri ← in_line what ReadIRI;
  if negb (isAbsoluteIRI iri) then in_line what (perr ErrRelativeIRI)
  else u ← in_line what (liftP (NewURIRef iri)); mret (TURIRef u).

Definition ReadSubject : parserM Term :=
  SkipSpaces ≫= λ _,
  s ← peek;
  if is_empty s then perr (line_err "unexpected end")
  else if HasPrefix s "<" then read_term_iri "subject"
  else if HasPrefix s "_:" then b ← ReadBNode; mret (TBNode b)
  else perr (line_err "expected IRI or blank node for subject").

(** The cached reading of a predicate or datatype IRI. *)
Definition get_iris : parserM Cache := λ p, (Ok (IRIs p), p).
Definition put_iri (u : URIRef) : parserM unit := λ p, (Ok tt, set_iris (cache_Put (IRIs p) u) p).

Definition read_cached_iri (what : string) : parserM URIRef :=
  iri ← in_line what ReadIRI;
  c ← get_iris;
  match cache_Get c iri with
  | Some u => mret u
  | None =>
      if negb (isAbsoluteIRI iri) then in_line what (perr ErrRelativeIRI)
      else u ← in_line what (liftP (NewURIRef iri)); put_iri u ≫= λ _, mret u
  end.

Definition ReadPredicate : parserM URIRef := SkipSpaces ≫= λ _, read_cached_iri "predicate".

(** The language tag, its direction and the options they give. *)
Definition lang_options (langDir : string) : result (list LiteralOption) :=
  match Index langDir "--" with
  | Some idx =>
      let lng := stake idx langDir in
      let d := sdrop (idx + 2) langDir in
      if negb (bool_decide (d = "ltr")) && negb (bool_decide (d = "rtl"))
      then Err (Errorf "line %d: invalid base direction %q (must be ltr or rtl)" (line_args ++ [d]))
      else if negb (isValidLangTag lng)
      then Err (Errorf "line %d: invalid language tag %q" (line_args ++ [lng]))
      else Ok [WithLang lng; WithDir d]
  | None =>
      if negb (isValidLangTag langDir)
      then Err (Errorf "line %d: invalid language tag %q" (line_args ++ [langDir]))
      else Ok [WithLang langDir]
  end.

(** What follows the closing quote: a language tag, a datatype or nothing. *)
Definition read_suffix : parserM (list LiteralOption) :=
  s ← peek;
  if HasPrefix s "@" then
    match sdrop 1 s with
    | String c _ =>
        if isLetter c then consume (λ s, let '(langDir, r) := scan_lang (sdrop 1 s) in
                                         opts ← lang_options langDir; Ok (opts, r))
        else perr (line_err "invalid language tag: must start with a letter")
    | EmptyString => perr (line_err "invalid language tag: must start with a letter")
    end
  else if HasPrefix s "^^" then
    advance 2 ≫= λ _,
    dtIRI ← read_cached_iri "datatype";
    mret [WithDatatype dtIRI]
  else mret [].

Definition ReadLiteral : parserM Literal :=
  lexical ← consume (λ s, scan_lexical (S (len s)) (sdrop 1 s));
  opts ← read_suffix;
  let lit := NewLiteral (VString lexical) opts in
  if is_empty (lang lit) then
    if decide (datatype lit = RDFLangString) then perr (line_err "rdf:langString requires a language tag")
    else if decide (datatype lit = RDFDirLangString) then perr (line_err "rdf:dirLangString requires a language tag")
    else mret lit
  else mret lit.

(** [ReadTripleTerm], with [readObject] the call of [ReadObject]. *)
Definition ReadTripleTerm (readObject : parserM Term) : parserM Term :=
  s ← peek;
  if negb (HasPrefix s "<<") then perr (line_err "expected '<<'")
  else
    advance 2 ≫= λ _,
    SkipSpaces ≫= λ _,
    open ← Expect "(";
    if negb open then perr (line_err "expected '(' after '<<' (triple term requires '<<(')")
    else
      subj ← in_line "triple term subject" ReadSubject;
      pred ← in_line "triple term predicate" ReadPredicate;
      obj ← in_line "triple term object" readObject;
      SkipSpaces ≫= λ _,
      close ← Expect ")";
      if negb close then perr (line_err "expected ')' in triple term")
      else
        SkipSpaces ≫= λ _,
        s ← peek;
        if negb (HasPrefix s ">>") then perr (line_err "expected '>>' to close triple term")
        else
          advance 2 ≫= λ _,
          match NewTripleTerm (Some subj) pred (Some obj) with
          | Some t => mret t
          | None => perr (Errorf "term: NewTripleTerm called with nil" [])
          end.

(** [ReadObject]: triple terms nest, and each level takes at least three bytes
    of the line. *)
Fixpoint ReadObject_go (fuel : nat) : parserM Term :=
  match fuel with
  | O => perr ErrFuel
  | S fuel =>
      SkipSpaces ≫= λ _,
      s ← peek;
      if is_empty s then perr (line_err "unexpected end")
      else if HasPrefix s "<<" then ReadTripleTerm (ReadObject_go fuel)
      else if HasPrefix s "<" then read_term_iri "object"
      else if HasPrefix s "_:" then b ← ReadBNode; mret (TBNode b)
      else if HasPrefix s (str1 dquote) then l ← ReadLiteral; mret (TLiteral l)
      else perr (line_err "expected IRI, blank node, or literal for object")
  end.
Definition ReadObject : parserM Term := λ p, ReadObject_go (S (len (lp_rest p))) p.

Definition ReadGraphLabel : parserM (option Term) :=
  SkipSpaces ≫= λ _,
  s ← peek;
  if is_empty s || HasPrefix s "." then mret None
  else if HasPrefix s "<" then t ← read_term_iri "graph"; mret (Some t)
  else if HasPrefix s "_:" then b ← ReadBNode; mret (Some (TBNode b))
  else perr (line_err "expected IRI or blank node for graph label").
End line.

(** ** The writer *)

(** [padHex4] and [padHex8]. *)
Fixpoint pad_zeros (n : nat) (s : string) : string :=
  match n with O => s | S n => String "0" (pad_zeros n s) end.
Definition padHex (k : nat) (n : N) : string :=
  let s := FormatHex n in ToUpper (pad_zeros (k - len s) s).
Definition padHex4 (n : N) : string := padHex 4 n.
Definition padHex8 (n : N) : string := padHex 8 n.

Definition isIRIREFExcluded (r : rune) : bool :=
  existsb (N.eqb r) (byte_val <$> ["<"; ">"; dquote; "{"; "}"; "|"; "^"; "`"; bslash]%char).

Definition escape_rune (r : rune) : string :=
  if (r =? 92)%N then String bslash (str1 bslash)
  else if (r =? 34)%N then String bslash (str1 dquote)
  else if (r =? 10)%N then "\n"
  else if (r =? 13)%N then "\r"
  else if (r =? 9)%N then "\t"
  else if (r <? 0x20)%N then "\u" +:+ padHex4 r
  else if (0xFFFF <? r)%N then "\U" +:+ padHex8 r
  else encode_rune r.

Definition EscapeString (s : string) : string :=
  let needsEscape := existsb (λ r, (r =? 92)%N || (r =? 34)%N || (r =? 10)%N || (r =? 13)%N || (r =? 9)%N
                                   || (r <? 0x20)%N || (0xFFFF <? r)%N) (runes s) in
  if negb needsEscape then s else foldr (λ r t, escape_rune r +:+ t) EmptyString (runes s).

Definition escape_iri_rune (r : rune) : string :=
  if (r <? 0x20)%N || (r =? 60)%N || (r =? 62)%N then "\u" +:+ padHex4 r
  else if (0xFFFF <? r)%N then "\U" +:+ padHex8 r
  else encode_rune r.

Definition EscapeIRI (s : string) : string :=
  let needsEscape := existsb (λ r, (r <? 0x20)%N || (0xFFFF <? r)%N || (r =? 60)%N || (r =? 62)%N) (runes s) in
  if negb needsEscape then s else foldr (λ r t, escape_iri_rune r +:+ t) EmptyString (runes s).

Definition IRI (iri : string) : result string :=
  if negb (ValidString iri)
  then Err (Wrapf "%w: IRI %q; fix the data at its source" [iri] ErrInvalidUTF8)
  else if existsb (λ r, (r <=? 0x20)%N || isIRIREFExcluded r) (runes iri)
  then Err (Wrapf "%w: IRI %q has %q at byte %d, which no IRI may contain; percent-encode it (%%%02X) before serializing" [iri] ErrInvalidIRI_nt)
  else if negb (isAbsoluteIRI iri)
  then Err (Wrapf "%w: <%s> has no scheme; resolve it against a base IRI before serializing, or use Turtle, which can write relative IRIs with @base" [iri] ErrRelativeIRI)
  else Ok ("<" +:+ EscapeIRI iri +:+ ">").

Definition write_literal (l : Literal) : result string :=
  if negb (ValidString (lexical l))
  then Err (Wrapf "%w: literal %q; fix the data at its source, or store the bytes as a base64 or hex literal" [lexical l] ErrInvalidUTF8)
  else
    let quoted := str1 dquote +:+ EscapeString (lexical l) +:+ str1 dquote in
    if negb (is_empty (lang l)) then
      if negb (is_empty (dir l)) then Ok (quoted +:+ "@" +:+ lang l +:+ "--" +:+ dir l)
      else Ok (quoted +:+ "@" +:+ lang l)
    else if negb (bool_decide (datatype l = URIRef_zero)) && negb (bool_decide (datatype l = XSDString)) then
      match IRI (URIRef_value (datatype l)) with
      | Ok dt => Ok (quoted +:+ "^^" +:+ dt)
      | Err e => Err (Wrapf "datatype of %q: %w" [lexical l] e)
      end
    else Ok quoted.

(** [Term] and [TripleTermStr]. *)
Fixpoint write_term (t : Term) : result string :=
  match t with
  | TURIRef u => IRI (URIRef_value u)
  | TBNode b => Ok ("_:" +:+ BNode_value b)
  | TLiteral l => write_literal l
  | TTripleTerm s p o _ =>
      s ← write_term s;
      p ← IRI (URIRef_value p);
      o ← write_term o;
      Ok ("<<( " +:+ s +:+ " " +:+ p +:+ " " +:+ o +:+ " )>>")
  | TVariable _ => Err (Errorf "unsupported term type %T for N-Triples serialization" [])
  end.
