(* ===== verification/NTReadBack.v ===== *)
(** * Reading N-Triples back

    Every term the writer of [NTSyntax] accepts is read back by its reader, and
    every term the reader produces from UTF-8 text is one the writer accepts. *)

From S2P Require Import Prelude GoStrings Utf8 Strconv Term Decode TermKey ParseScope NTSyntax.
From stdpp Require Import options.

(** ** Hexadecimal escapes *)

Lemma hex_val_digit n : (n < 16)%N → hex_val (hex_digit n) = Some n.
Proof.
  intros Hn. assert (H : ∀ m, (m < 16)%nat → hex_val (hex_digit (N.of_nat m)) = Some (N.of_nat m)).
  { intros m Hm. do 16 (destruct m as [|m]; [by vm_compute|]). lia. }
  specialize (H (N.to_nat n)). rewrite N2Nat.id in H. apply H. lia.
Qed.

Lemma hex_digit_alnum n : (n < 16)%N → is_alnum (hex_digit n) = true.
Proof.
  intros Hn. assert (H : ∀ m, (m < 16)%nat → is_alnum (hex_digit (N.of_nat m)) = true).
  { intros m Hm. do 16 (destruct m as [|m]; [by vm_compute|]). lia. }
  specialize (H (N.to_nat n)). rewrite N2Nat.id in H. apply H. lia.
Qed.

Lemma hex_acc_go f n acc : (n < 16 ^ N.of_nat f)%N → hex_acc 0 (hex_go f n acc) = hex_acc n acc.
Proof.
  revert n acc. induction f as [|f IH]; intros n acc Hn.
  { cbn in Hn. replace n with 0%N by lia. done. }
  cbn [hex_go]. destruct (N.ltb_spec n 16).
  - cbn [hex_acc]. rewrite hex_val_digit by (by apply N.mod_lt). rewrite N.mod_small by done. done.
  - rewrite IH.
    + cbn [hex_acc]. rewrite hex_val_digit by (by apply N.mod_lt). f_equal.
      rewrite (N.div_mod' n 16) at 3. lia.
    + rewrite Nat2N.inj_succ, N.pow_succ_r' in Hn. apply N.Div0.div_lt_upper_bound. lia.
Qed.

Lemma len_hex_go f n acc k :
  (n < 16 ^ N.of_nat (S k))%N → len (hex_go f n acc) ≤ S k + len acc.
Proof.
  revert n acc k. induction f as [|f IH]; intros n acc k Hn; cbn [hex_go]; [lia|].
  destruct (N.ltb_spec n 16); [rewrite len_cons; lia|].
  destruct k as [|k]; [cbn in Hn; lia|].
  etrans; [apply (IH _ _ k)|rewrite len_cons; lia].
  rewrite Nat2N.inj_succ, N.pow_succ_r' in Hn. apply N.Div0.div_lt_upper_bound. lia.
Qed.

Lemma hex_go_alnum f n acc : sforall is_alnum acc = true → sforall is_alnum (hex_go f n acc) = true.
Proof.
  revert n acc. induction f as [|f IH]; intros n acc Ha; cbn [hex_go]; [done|].
  assert (H : sforall is_alnum (String (hex_digit (n mod 16)) acc) = true).
  { cbn [sforall]. rewrite hex_digit_alnum by (by apply N.mod_lt). done. }
  case_match; auto.
Qed.

Lemma hex_val_upper c : hex_val (to_upper c) = hex_val c.
Proof. byte_cases c. Qed.

Lemma hex_acc_upper n s : hex_acc n (ToUpper s) = hex_acc n s.
Proof.
  revert n. induction s as [|c s IH]; intros n; [done|].
  change (ToUpper (String c s)) with (String (to_upper c) (ToUpper s)). cbn [hex_acc].
  rewrite hex_val_upper. destruct (hex_val c); [apply IH|done].
Qed.

Lemma len_ToUpper s : len (ToUpper s) = len s.
Proof.
  induction s as [|c s IH]; [done|].
  change (ToUpper (String c s)) with (String (to_upper c) (ToUpper s)). by rewrite !len_cons, IH.
Qed.

Lemma to_upper_alnum c : is_alnum (to_upper c) = is_alnum c.
Proof. byte_cases c. Qed.

Lemma ToUpper_alnum s : sforall is_alnum (ToUpper s) = sforall is_alnum s.
Proof.
  induction s as [|c s IH]; [done|].
  change (ToUpper (String c s)) with (String (to_upper c) (ToUpper s)). cbn [sforall]. by rewrite to_upper_alnum, IH.
Qed.

Lemma hex_acc_pad k s : hex_acc 0 (pad_zeros k s) = hex_acc 0 s.
Proof. induction k; [done|]. cbn [pad_zeros hex_acc]. change (hex_val "0") with (Some 0%N). done. Qed.

Lemma len_pad k s : len (pad_zeros k s) = k + len s.
Proof. induction k; [done|]. cbn [pad_zeros]. by rewrite len_cons, IHk. Qed.

Lemma pad_alnum k s : sforall is_alnum (pad_zeros k s) = sforall is_alnum s.
Proof. induction k; [done|]. cbn [pad_zeros sforall]. done. Qed.

(** A padded number of [k] digits is read back as the number. *)
Lemma padHex_spec k n :
  0 < k → k ≤ 8 → (n < 16 ^ N.of_nat k)%N →
  len (padHex k n) = k ∧ ParseHex32 (padHex k n) = Some n ∧ sforall is_alnum (padHex k n) = true.
Proof.
  intros Hk Hk8 Hn. assert (Hlt : (16 ^ N.of_nat k <= 16 ^ 8)%N) by (apply N.pow_le_mono_r; lia).
  assert (Hl : len (padHex k n) = k).
  { unfold padHex. rewrite len_ToUpper, len_pad. unfold FormatHex.
    destruct k as [|k]; [lia|]. pose proof (len_hex_go 16 n EmptyString k Hn) as H. rewrite len_nil in H. lia. }
  split_and!; [done| |].
  - unfold ParseHex32. destruct (padHex k n) as [|c s] eqn:E; [rewrite len_nil in Hl; lia|]. rewrite <- E.
    unfold padHex. rewrite hex_acc_upper, hex_acc_pad. unfold FormatHex.
    rewrite hex_acc_go by (cbn in *; lia). cbn [hex_acc].
    destruct (N.ltb_spec n (2 ^ 32)); [done|cbn in *; lia].
  - unfold padHex. rewrite ToUpper_alnum, pad_alnum. by apply hex_go_alnum.
Qed.

(** An escape written for [r] is read back as the bytes of [r]. *)
Lemma read_uchar_pad k e1 e2 e3 r t :
  k = 4 ∨ k = 8 → (r < 16 ^ N.of_nat k)%N → valid_rune r = true →
  read_uchar k e1 e2 e3 (padHex k r +:+ t) = Ok (encode_rune r, t).
Proof.
  intros Hk Hr Hv. destruct (padHex_spec k r) as (Hl & Hp & _); [lia|lia|done|].
  unfold read_uchar. rewrite len_app, Hl.
  destruct (Nat.ltb_spec (k + len t) k); [lia|].
  replace k with (len (padHex k r)) at 1 by done. rewrite stake_app, Hp.
  replace (in_range 0xD800 0xDFFF r) with false.
  - replace k with (len (padHex k r)) at 1 by done. by rewrite sdrop_app.
  - symmetry. apply not_true_iff_false. rewrite in_range_true. apply valid_rune_true in Hv. lia.
Qed.

Lemma read_uchar_len k e1 e2 e3 s t r : read_uchar k e1 e2 e3 s = Ok (t, r) → len r ≤ len s.
Proof.
  unfold read_uchar. repeat case_match; intros H'; simplify_eq. rewrite len_sdrop. lia.
Qed.

(** ** The scanner of a lexical form *)

Section scan.
Context (LineNum : Z).

Lemma scan_escape_len d s t r : scan_escape LineNum d s = Ok (t, r) → len r ≤ len s.
Proof.
  unfold scan_escape, lit_uchar. repeat case_match; [by intros [= <- <-]|by intros ?%read_uchar_len..|done].
Qed.

Lemma scan_lexical_S f c s : scan_lexical LineNum (S f) (String c s) =
  if Ascii.eqb c bslash then
    match s with
    | EmptyString => Err (line_err LineNum "unterminated escape")
    | String d s2 => '(t, r) ← scan_escape LineNum d s2; '(u, r) ← scan_lexical LineNum f r; Ok (t +:+ u, r)
    end
  else if Ascii.eqb c dquote then Ok (EmptyString, s)
  else '(u, r) ← scan_lexical LineNum f s; Ok (String c u, r).
Proof. done. Qed.

Lemma scan_lexical_enough f f' s :
  len s < f → len s < f' → scan_lexical LineNum f s = scan_lexical LineNum f' s.
Proof.
  revert f' s. induction f as [|f IH]; intros [|f'] s Hf Hf'; try lia.
  destruct s as [|c s1]; [done|]. rewrite len_cons in *. rewrite !scan_lexical_S.
  destruct (Ascii.eqb c bslash).
  - destruct s1 as [|d s2]; [done|]. rewrite len_cons in *.
    destruct (scan_escape LineNum d s2) as [[t r]|e] eqn:E; [|done]. apply scan_escape_len in E.
    cbn [mbind result_bind]. by rewrite (IH f' r) by lia.
  - destruct (Ascii.eqb c dquote); [done|]. by rewrite (IH f' s1) by lia.
Qed.

Definition lex (s : string) : result (string * string) := scan_lexical LineNum (S (len s)) s.

Lemma lex_nil : lex EmptyString = Err (line_err LineNum "unterminated string literal").
Proof. done. Qed.

Lemma lex_quote s : lex (String dquote s) = Ok (EmptyString, s).
Proof. done. Qed.

Definition plain_byte (c : ascii) : bool := negb (Ascii.eqb c bslash) && negb (Ascii.eqb c dquote).

Lemma lex_plain c s : plain_byte c = true → lex (String c s) = '(u, r) ← lex s; Ok (String c u, r).
Proof.
  unfold plain_byte. intros [H1%negb_true_iff H2%negb_true_iff]%andb_true_iff.
  unfold lex. rewrite len_cons. cbn [scan_lexical]. by rewrite H1, H2.
Qed.

Lemma lex_plain_app a s : sforall plain_byte a = true → lex (a +:+ s) = '(u, r) ← lex s; Ok (a +:+ u, r).
Proof.
  induction a as [|c a IH]; cbn [sforall].
  - intros _. rewrite sapp_nil_l. by destruct (lex s) as [[]|].
  - intros [Hc Ha]%andb_true_iff. rewrite sapp_cons, lex_plain, IH by done. by destruct (lex s) as [[]|].
Qed.

Lemma lex_bslash d s :
  lex (String bslash (String d s)) = '(t, r) ← scan_escape LineNum d s; '(u, r) ← lex r; Ok (t +:+ u, r).
Proof.
  unfold lex at 1. rewrite !len_cons, scan_lexical_S. change (Ascii.eqb bslash bslash) with true. cbn iota.
  destruct (scan_escape LineNum d s) as [[t r]|e] eqn:E; [|done]. apply scan_escape_len in E.
  cbn [mbind result_bind]. unfold lex. by rewrite (scan_lexical_enough _ (S (len r)) r) by lia.
Qed.

Lemma lex_echar d b s u t : echar d = Some b → lex s = Ok (u, t) → lex (String bslash (String d s)) = Ok (String b u, t).
Proof. intros Hd Hs. rewrite lex_bslash. unfold scan_escape. rewrite Hd. cbn [mbind result_bind]. by rewrite Hs. Qed.

Lemma lex_uchar l k r s u t :
  (l = "u"%char ∧ k = 4) ∨ (l = "U"%char ∧ k = 8) → (r < 16 ^ N.of_nat k)%N → valid_rune r = true →
  lex s = Ok (u, t) → lex (String bslash (String l (padHex k r +:+ s))) = Ok (encode_rune r +:+ u, t).
Proof.
  intros Hl Hr Hv Hs. rewrite lex_bslash.
  assert (scan_escape LineNum l (padHex k r +:+ s) = Ok (encode_rune r, s)) as ->.
  { destruct Hl as [[-> ->]|[-> ->]].
    - change (lit_uchar LineNum 4 "u" (padHex 4 r +:+ s) = Ok (encode_rune r, s)). apply read_uchar_pad; auto.
    - change (lit_uchar LineNum 8 "U" (padHex 8 r +:+ s) = Ok (encode_rune r, s)). apply read_uchar_pad; auto. }
  cbn [mbind result_bind]. by rewrite Hs.
Qed.

Lemma high_plain s : sforall (λ c, 0x80 <=? byte_val c)%N s = true → sforall plain_byte s = true.
Proof. apply sforall_impl. intros c. byte_cases c. Qed.

Lemma valid_rune_16 r : valid_rune r = true → (r < 16 ^ 8)%N.
Proof. intros H%valid_rune_true. cbn. lia. Qed.

Lemma str1_app' c s : str1 c +:+ s = String c s.
Proof. done. Qed.

Lemma lex_escape r s u t :
  valid_rune r = true → lex s = Ok (u, t) → lex (escape_rune r +:+ s) = Ok (encode_rune r +:+ u, t).
Proof.
  intros Hv Hs. unfold escape_rune.
  destruct (N.eqb_spec r 92) as [->|]; [by apply lex_echar|].
  destruct (N.eqb_spec r 34) as [->|]; [by apply lex_echar|].
  destruct (N.eqb_spec r 10) as [->|]; [by apply lex_echar|].
  destruct (N.eqb_spec r 13) as [->|]; [by apply lex_echar|].
  destruct (N.eqb_spec r 9) as [->|]; [by apply lex_echar|].
  destruct (N.ltb_spec r 32).
  { change ("\u" +:+ padHex4 r) with (String bslash (String "u" (padHex 4 r))). rewrite !sapp_cons.
    apply lex_uchar; [by left|cbn; lia|done..]. }
  destruct (N.ltb_spec 0xFFFF r).
  { change ("\U" +:+ padHex8 r) with (String bslash (String "U" (padHex 8 r))). rewrite !sapp_cons.
    apply lex_uchar; [by right|by apply valid_rune_16|done..]. }
  rewrite lex_plain_app, Hs; [done|]. destruct (N.lt_ge_cases r 0x80) as [Hlo|Hhi].
  - rewrite encode_rune_1 by lia. cbn [sforall str1]. rewrite andb_true_r. unfold plain_byte.
    rewrite andb_true_iff, !negb_true_iff, !Ascii.eqb_neq.
    split; intros He%(f_equal byte_val); rewrite byte_val_of in He by lia; cbn in He; lia.
  - apply high_plain. by apply encode_rune_high.
Qed.

Definition escape_runes (l : list rune) : string := foldr (λ r t, escape_rune r +:+ t) EmptyString l.

Lemma lex_escape_runes l t : valid_runes l → lex (escape_runes l +:+ String dquote t) = Ok (write_runes l, t).
Proof.
  induction 1 as [|r l Hr _ IH]; [apply lex_quote|]. cbn [escape_runes foldr]. fold (escape_runes l).
  rewrite app_assoc_s. by rewrite (lex_escape _ _ (write_runes l) t).
Qed.
End scan.

(** The fast path of [EscapeString] writes what the loop would. *)
Lemma EscapeString_runes s : ValidString s = true → EscapeString s = escape_runes (runes s).
Proof.
  intros [Hv Hs]%ValidString_inv. unfold EscapeString. case_match eqn:E; [|done]. bool_cases.
  rewrite <- Hs at 1. clear Hs. induction (runes s) as [|r l IH]; [done|].
  cbn [existsb] in E. apply orb_false_iff in E as [Er El]. apply Forall_cons in Hv as [_ Hv].
  cbn [escape_runes foldr]. fold (escape_runes l). rewrite write_runes_cons, IH by done. f_equal.
  unfold escape_rune. bool_cases. repeat match goal with H : ?b = false |- _ => rewrite H; clear H end. done.
Qed.

Lemma EscapeString_lex n s t :
  ValidString s = true → lex n (EscapeString s +:+ String dquote t) = Ok (s, t).
Proof.
  intros Hs. rewrite EscapeString_runes by done. pose proof (ValidString_inv s Hs) as [Hv He].
  rewrite lex_escape_runes by done. by rewrite He.
Qed.

(** ** IRIs *)

Lemma unescape_S f c s : unescape_iri_go (S f) (String c s) =
  match s with
  | String d s2 =>
      if Ascii.eqb c bslash then '(t, r) ← iri_escape d s2; String.append t <$> unescape_iri_go f r
      else String c <$> unescape_iri_go f s
  | EmptyString => String c <$> unescape_iri_go f s
  end.
Proof. by destruct s. Qed.

Lemma iri_escape_len d s t r : iri_escape d s = Ok (t, r) → len r ≤ len s.
Proof. unfold iri_escape, iri_uchar. repeat case_match; [by intros ?%read_uchar_len..|done]. Qed.

Lemma unescape_enough f f' s :
  len s < f → len s < f' → unescape_iri_go f s = unescape_iri_go f' s.
Proof.
  revert f' s. induction f as [|f IH]; intros [|f'] s Hf Hf'; try lia.
  destruct s as [|c s1]; [done|]. rewrite len_cons in *. rewrite !unescape_S.
  rewrite (IH f' s1) by lia. destruct s1 as [|d s2]; [done|]. rewrite len_cons in *.
  destruct (Ascii.eqb c bslash); [|done].
  destruct (iri_escape d s2) as [[t r]|e] eqn:E; [|done]. apply iri_escape_len in E.
  cbn [mbind result_bind]. by rewrite (IH f' r) by lia.
Qed.

Definition unesc (s : string) : result string := unescape_iri_go (S (len s)) s.

Lemma unesc_cons c s : Ascii.eqb c bslash = false → unesc (String c s) = String c <$> unesc s.
Proof. intros Hc. unfold unesc at 1. rewrite len_cons, unescape_S. rewrite Hc. by destruct s. Qed.

Lemma unesc_app a s : has_byte bslash a = false → unesc (a +:+ s) = String.append a <$> unesc s.
Proof.
  induction a as [|c a IH]; [intros _; rewrite sapp_nil_l; by destruct (unesc s)|].
  rewrite has_byte_cons. intros [Hc Ha]%orb_false_iff. rewrite Ascii.eqb_sym in Hc.
  rewrite sapp_cons, unesc_cons, IH by done. by destruct (unesc s).
Qed.

Lemma UnescapeIRI_unesc s : UnescapeIRI s = unesc s.
Proof.
  unfold UnescapeIRI. destruct (has_byte bslash s) eqn:E; [done|].
  rewrite <- (sapp_nil_r s) at 2. rewrite unesc_app by done. cbn. by rewrite sapp_nil_r.
Qed.

Lemma unesc_bslash d s :
  unesc (String bslash (String d s)) = '(t, r) ← iri_escape d s; String.append t <$> unesc r.
Proof.
  unfold unesc at 1. rewrite !len_cons, unescape_S. change (Ascii.eqb bslash bslash) with true. cbn iota.
  destruct (iri_escape d s) as [[t r]|e] eqn:E; [|done]. apply iri_escape_len in E.
  cbn [mbind result_bind]. unfold unesc. by rewrite (unescape_enough _ (S (len r)) r) by lia.
Qed.

Lemma unesc_uchar r s u :
  valid_rune r = true → unesc s = Ok u →
  unesc (String bslash (String "U" (padHex 8 r +:+ s))) = Ok (encode_rune r +:+ u).
Proof.
  intros Hv Hs. rewrite unesc_bslash.
  change (iri_escape "U" (padHex 8 r +:+ s)) with (iri_uchar 8 "U" (padHex 8 r +:+ s)). unfold iri_uchar.
  rewrite read_uchar_pad by (auto; by apply valid_rune_16). cbn [mbind result_bind]. by rewrite Hs.
Qed.

(** A rune an IRI may contain, and the bytes the reader takes as they are. *)
Definition iri_rune (r : rune) : bool := negb ((r <=? 0x20)%N || isIRIREFExcluded r).
Definition iri_byte (c : ascii) : bool :=
  negb (Ascii.eqb c ">") && negb (Ascii.eqb c bslash) && negb (byte_val c <=? 0x20)%N.

Lemma iri_rune_spec r : iri_rune r = true ↔
  (0x20 < r)%N ∧ ∀ c, c ∈ ["<"; ">"; dquote; "{"; "}"; "|"; "^"; "`"; bslash]%char → r ≠ byte_val c.
Proof.
  unfold iri_rune, isIRIREFExcluded. rewrite negb_true_iff, orb_false_iff, N.leb_gt, <- not_true_iff_false, existsb_exists.
  split; intros [H1 H2]; (split; [done|]).
  - intros c Hc Hr. destruct H2. exists (byte_val c). rewrite N.eqb_eq. split; [|done].
    apply list_elem_of_In. by apply list_elem_of_fmap_2.
  - intros (x & Hx & Hr%N.eqb_eq). apply list_elem_of_In, list_elem_of_fmap in Hx as (c & -> & Hc). by apply (H2 c).
Qed.

(** [NewURIRef] and the writer forbid the same characters. *)
Lemma isValidIRI_runes s : isValidIRI s = forallb iri_rune (runes s).
Proof.
  unfold isValidIRI. induction (runes s) as [|r l IH]; [done|]. cbn [forallb]. rewrite IH. f_equal.
  unfold iri_rune. rewrite negb_orb. f_equal. f_equal. unfold iri_forbidden, isIRIREFExcluded.
  cbn [existsb fmap list_fmap]. destruct (r =? byte_val "<")%N, (r =? byte_val ">")%N, (r =? byte_val dquote)%N,
    (r =? byte_val "{")%N, (r =? byte_val "}")%N, (r =? byte_val "|")%N, (r =? byte_val "^")%N, (r =? byte_val "`")%N,
    (r =? byte_val bslash)%N; done.
Qed.

Lemma scan_iri_app n a s : sforall iri_byte a = true → scan_iri n (a +:+ s) = '(t, r) ← scan_iri n s; Ok (a +:+ t, r).
Proof.
  induction a as [|c a IH]; cbn [sforall].
  - intros _. rewrite sapp_nil_l. by destruct (scan_iri n s) as [[]|].
  - unfold iri_byte at 1. intros [[[H1%negb_true_iff H2%negb_true_iff]%andb_true_iff H3%negb_true_iff]%andb_true_iff Ha]%andb_true_iff.
    rewrite sapp_cons. cbn [scan_iri]. rewrite H1, H2, H3, IH by done. by destruct (scan_iri n s) as [[]|].
Qed.

Lemma alnum_iri_byte s : sforall is_alnum s = true → sforall iri_byte s = true.
Proof. apply sforall_impl. intros c. byte_cases c. Qed.
Lemma alnum_no_bslash s : sforall is_alnum s = true → has_byte bslash s = false.
Proof. intros H. apply has_byte_false. revert H. apply sforall_impl. intros c. byte_cases c. Qed.

Lemma iri_rune_bytes r : valid_rune r = true → iri_rune r = true → sforall iri_byte (encode_rune r) = true.
Proof.
  intros Hv [Hlo Hex]%iri_rune_spec. destruct (N.lt_ge_cases r 0x80) as [Hl|Hh].
  - rewrite encode_rune_1 by lia. cbn [sforall str1]. rewrite andb_true_r. unfold iri_byte.
    rewrite byte_val_of by lia. rewrite !andb_true_iff, !negb_true_iff, N.leb_gt, !Ascii.eqb_neq. split; [|done].
    split; intros He%(f_equal byte_val); rewrite byte_val_of in He by lia; revert He; apply Hex; set_solver.
  - generalize (encode_rune_high r Hv Hh). apply sforall_impl. intros c. byte_cases c.
Qed.

Lemma iri_byte_no_bslash s : sforall iri_byte s = true → has_byte bslash s = false.
Proof. intros H. apply has_byte_false. revert H. apply sforall_impl. intros c. byte_cases c. Qed.

(** The text [IRI] writes between the brackets. *)
Definition escape_iri_runes (l : list rune) : string := foldr (λ r t, escape_iri_rune r +:+ t) EmptyString l.

Lemma EscapeIRI_runes s : ValidString s = true → EscapeIRI s = escape_iri_runes (runes s).
Proof.
  intros [Hv Hs]%ValidString_inv. unfold EscapeIRI. case_match eqn:E; [|done]. bool_cases.
  rewrite <- Hs at 1. clear Hs. induction (runes s) as [|r l IH]; [done|].
  cbn [existsb] in E. apply orb_false_iff in E as [Er El]. apply Forall_cons in Hv as [_ Hv].
  cbn [escape_iri_runes foldr]. fold (escape_iri_runes l). rewrite write_runes_cons, IH by done. f_equal.
  unfold escape_iri_rune. bool_cases. repeat match goal with H : ?b = false |- _ => rewrite H; clear H end. done.
Qed.

Lemma escape_iri_read n l t :
  valid_runes l → forallb iri_rune l = true →
  scan_iri n (escape_iri_runes l +:+ String ">" t) = Ok (escape_iri_runes l, t) ∧ unesc (escape_iri_runes l) = Ok (write_runes l).
Proof.
  induction 1 as [|r l Hr _ IH]; [done|]. cbn [forallb]. intros [Hi Hl]%andb_true_iff. destruct (IH Hl) as [H1 H2].
  cbn [escape_iri_runes foldr]. fold (escape_iri_runes l). rewrite write_runes_cons.
  pose proof (iri_rune_spec r) as [[Hlo Hex] _]; [done|]. unfold escape_iri_rune.
  replace ((r <? 0x20)%N || (r =? 60)%N || (r =? 62)%N) with false.
  2: { symmetry. rewrite !orb_false_iff, N.ltb_ge, !N.eqb_neq. split_and!; [lia|apply (Hex "<"%char)|apply (Hex ">"%char)]; set_solver. }
  destruct (N.ltb_spec 0xFFFF r).
  - change ("\U" +:+ padHex8 r) with (String bslash (String "U" (padHex 8 r))). rewrite !sapp_cons.
    destruct (padHex_spec 8 r) as (_ & _ & Ha); [lia|lia|by apply valid_rune_16|]. split.
    + cbn [scan_iri]. change (Ascii.eqb bslash ">") with false. change (Ascii.eqb bslash bslash) with true. cbn iota.
      rewrite app_assoc_s, scan_iri_app by (by apply alnum_iri_byte). by rewrite H1.
    + by apply unesc_uchar.
  - pose proof (iri_rune_bytes r Hr Hi) as Hb. split.
    + rewrite app_assoc_s, scan_iri_app by done. by rewrite H1.
    + rewrite unesc_app by (by apply iri_byte_no_bslash). by rewrite H2.
Qed.

(** What makes an IRI fit for N-Triples. *)
Definition iri_wf (v : string) : Prop := ValidString v = true ∧ isValidIRI v = true ∧ isAbsoluteIRI v = true.

Lemma IRI_Ok v s : IRI v = Ok s ↔ iri_wf v ∧ s = "<" +:+ EscapeIRI v +:+ ">".
Proof.
  unfold IRI, iri_wf. rewrite isValidIRI_runes.
  assert (existsb (λ r, (r <=? 0x20)%N || isIRIREFExcluded r) (runes v) = negb (forallb iri_rune (runes v))) as ->.
  { induction (runes v) as [|r l IH]; [done|]. cbn [existsb forallb]. rewrite IH, negb_andb. unfold iri_rune. by rewrite negb_involutive. }
  destruct (ValidString v), (forallb iri_rune (runes v)), (isAbsoluteIRI v); cbn [negb]; split; try done;
    try (by intros [(? & ? & ?) ?]).
  - by intros [= <-].
  - by intros [_ ->].
Qed.

(** ** Language tags and blank node labels *)

Lemma lang_part_subtag b w : lang_part b w = subtag_ok b w.
Proof.
  unfold lang_part, subtag_ok.
  rewrite forallb_runes_ascii.
  2: { intros r Hr. unfold lang_rune, in_range. destruct b; rewrite ?orb_false_iff, ?andb_false_iff, ?N.leb_gt; lia. }
  assert (sforall (λ c, lang_rune b (byte_val c)) w = sforall (if b then is_letter else is_alnum) w) as ->.
  { induction w as [|c w IH]; [done|]. cbn [sforall]. rewrite IH. f_equal. destruct b; byte_cases c. }
  destruct (Nat.eqb_spec (len w) 0) as [E|E], (Nat.ltb_spec 8 (len w)); cbn [orb]; rewrite ?E; try done.
  - destruct (Nat.leb_spec (len w) 8); [lia|]. by rewrite andb_false_r.
  - destruct (Nat.leb_spec 1 (len w)), (Nat.leb_spec (len w) 8); [done|lia..].
Qed.

(** The loop of the reader accepts the tags of [langTagRegex]. *)
Lemma isValidLangTag_regex tag : isValidLangTag tag = ValidLanguageTag tag.
Proof.
  unfold isValidLangTag, ValidLanguageTag. destruct (is_empty tag) eqn:E; [by destruct tag|].
  destruct (SplitByte tag "-") as [|w ws] eqn:Es; [by apply SplitByte_cons_ne in Es|].
  rewrite lang_part_subtag. f_equal. induction ws as [|w' ws' IH] in |- *; [done|]. cbn. by rewrite lang_part_subtag, IH.
Qed.

Definition label_rune (r : rune) : bool := isPNChar r || (r =? 46)%N.
Definition label_start (r : rune) : bool := isPNCharsU r || in_range 48 57 r.

(** The BLANK_NODE_LABEL of the grammar, without its [_:]. *)
Definition label_ok (v : string) : Prop :=
  ValidString v = true ∧ TrimRightP is_dot v = v ∧
  match runes v with
  | r :: l => label_start r = true ∧ forallb label_rune l = true
  | [] => False
  end.

Lemma label_bytes_ok f l t c :
  valid_runes l → forallb label_rune l = true → (byte_val c < 0x80)%N → label_rune (byte_val c) = false →
  len (write_runes l) < f → label_bytes f (write_runes l +:+ String c t) = len (write_runes l).
Proof.
  intros Hl Hr Hc Hcr. revert f. induction Hl as [|r l Hv Hl IH]; intros f Hf.
  - destruct f as [|f]; [done|]. cbn [write_runes foldr]. rewrite sapp_nil_l. cbn [label_bytes].
    rewrite DecodeRune_ascii by done. fold (label_rune (byte_val c)). by rewrite Hcr.
  - cbn [forallb] in Hr. apply andb_true_iff in Hr as [Hr Hrl]. rewrite write_runes_cons, len_app in *.
    pose proof (encode_rune_nonempty r). rewrite app_assoc_s. destruct f as [|f]; [lia|].
    assert (Hp : 0 < len (encode_rune r)) by (destruct (encode_rune r); [done|rewrite len_cons; lia]).
    assert (Hs : ∃ d u, encode_rune r +:+ (write_runes l +:+ String c t) = String d u).
    { destruct (encode_rune r) as [|d u]; [done|]. rewrite sapp_cons. eauto. }
    destruct Hs as (d & u & Hs). rewrite Hs. cbn [label_bytes]. rewrite <- Hs, DecodeRune_encode by done.
    fold (label_rune r). rewrite Hr, sdrop_app, IH by (done || lia). done.
Qed.

Lemma scan_label_ok n v c t :
  label_ok v → (byte_val c < 0x80)%N → label_rune (byte_val c) = false →
  scan_label n (v +:+ String c t) = Ok (v, String c t).
Proof.
  intros (Hv & Hd & Hr) Hc Hcr. pose proof (ValidString_inv v Hv) as [Hvr Hw].
  destruct (runes v) as [|r l] eqn:El; [done|]. destruct Hr as [Hs Hl].
  rewrite <- Hw. unfold scan_label. rewrite write_runes_cons, app_assoc_s.
  apply Forall_cons in Hvr as [Hr Hvl].
  destruct (is_empty _) eqn:Ee.
  { pose proof (encode_rune_nonempty r). by destruct (encode_rune r). }
  rewrite DecodeRune_encode by done. unfold label_start in Hs. rewrite <- negb_orb, Hs. cbn [negb].
  rewrite sdrop_app, label_bytes_ok by first [done|rewrite !len_app, len_cons; lia].
  rewrite <- app_assoc_s, <- len_app, stake_app, <- write_runes_cons, Hw, Hd.
  destruct (is_empty v) eqn:Eve; [by destruct v|]. by rewrite sdrop_app.
Qed.

Lemma TrimRightP_snoc p s c : TrimRightP p (s +:+ str1 c) = if p c then TrimRightP p s else s +:+ str1 c.
Proof.
  induction s as [|d s IH]; [by rewrite sapp_nil_l; unfold str1; cbn [TrimRightP]; destruct (p c)|]. rewrite sapp_cons. cbn [TrimRightP]. rewrite IH.
  destruct (p c); [by destruct (TrimRightP p s)|]. by destruct s.
Qed.

(** The last byte of a string. *)
Lemma string_snoc s : s ≠ EmptyString → ∃ a c, s = a +:+ str1 c.
Proof.
  induction s as [|c s IH]; [done|]. intros _. destruct s as [|d s].
  - by exists EmptyString, c.
  - destruct IH as (a & e & ->); [done|]. by exists (String c a), e.
Qed.

(** Trimming dots removes runes from the end. *)
Lemma TrimRight_runes l : valid_runes l →
  ∃ l1 l2, l = l1 ++ l2 ∧ TrimRightP is_dot (write_runes l) = write_runes l1 ∧ Forall (λ r, r = 46%N) l2.
Proof.
  induction l as [|r l IH] using rev_ind; intros Hl; [by exists [], []|].
  apply Forall_app in Hl as [Hl [Hr _]%Forall_cons_1]. rewrite write_runes_app, write_runes_cons.
  change (write_runes []) with EmptyString. rewrite sapp_nil_r.
  destruct (N.eqb_spec r 46) as [->|Hne].
  - change (encode_rune 46%N) with (str1 "."). rewrite TrimRightP_snoc. change (is_dot ".") with true. cbn iota.
    destruct (IH Hl) as (l1 & l2 & -> & -> & H2). exists l1, (l2 ++ [46%N]). rewrite app_assoc. split_and!; [done..|].
    apply Forall_app. by repeat constructor.
  - exists (l ++ [r]), []. rewrite app_nil_r. split_and!; [done| |done].
    rewrite write_runes_app, write_runes_cons. change (write_runes []) with EmptyString. rewrite sapp_nil_r.
    destruct (string_snoc (encode_rune r)) as (a & c & Ha); [apply encode_rune_nonempty|].
    rewrite Ha, <- app_assoc_s, TrimRightP_snoc. destruct (is_dot c) eqn:Hd; [|done]. exfalso.
    unfold is_dot in Hd. apply Ascii.eqb_eq in Hd as ->. destruct (N.lt_ge_cases r 0x80) as [Hlo|Hhi].
    + rewrite encode_rune_1 in Ha by lia. destruct a as [|d [|]]; [|done..]. injection Ha as Ha.
      apply (f_equal byte_val) in Ha. rewrite byte_val_of in Ha by lia. by cbn in Ha.
    + pose proof (encode_rune_high r Hr Hhi) as Hb. rewrite Ha, sforall_app in Hb. by rewrite andb_false_r in Hb.
Qed.
