(* ===== verification/NTRoundTrip.v ===== *)
(** * N-Triples terms read back what was written

    The reader and the writer of [internal/ntsyntax] as inverses: [read_object]
    gives the term whose text is at the front of the line, its blank nodes named
    by the scope of the parse. *)

From S2P Require Import Prelude GoStrings Utf8 Strconv Term Decode TermKey ParseScope NTSyntax NTReadBack.
From stdpp Require Import pretty options.

(** ** Terms that N-Triples can express *)

Definition node_term (t : Term) : bool :=
  match t with TURIRef _ | TBNode _ => true | _ => false end.

Fixpoint nt_ok (t : Term) : Prop :=
  match t with
  | TURIRef u => ∃ v, u = NewURIRefUnsafe v ∧ iri_wf v
  | TBNode b => ∃ v, b = MkBNode ("B:" +:+ v) ∧ label_ok v
  | TLiteral l => lit_wf l ∧ ValidString (lexical l) = true ∧
      (is_empty (lang l) = true → datatype l ≠ RDFLangString ∧ datatype l ≠ RDFDirLangString ∧
         ∃ v, datatype l = NewURIRefUnsafe v ∧ iri_wf v)
  | TTripleTerm s p o key =>
      NewTripleTerm (Some s) p (Some o) = Some (TTripleTerm s p o key) ∧
      node_term s = true ∧ nt_ok s ∧ (∃ v, p = NewURIRefUnsafe v ∧ iri_wf v) ∧ nt_ok o
  | TVariable _ => False
  end.

(** The node a scope gives a label, and a term with its blank nodes replaced. *)
Definition node_of (sc : Scope) (label : string) : option BNode :=
  match sc with None => Some (MkBNode ("B:" +:+ label)) | Some m => m !! label end.

Fixpoint rename (sc : Scope) (t : Term) : option Term :=
  match t with
  | TBNode b => TBNode <$> node_of sc (BNode_value b)
  | TTripleTerm s p o _ =>
      s' ← rename sc s; o' ← rename sc o; NewTripleTerm (Some s') p (Some o')
  | _ => Some t
  end.

(** The labels a scope knows stay as they are. *)
Definition extends (sc sc' : Scope) : Prop :=
  match sc, sc' with
  | None, None => True
  | Some m, Some m' => m ⊆ m'
  | _, _ => False
  end.

#[global] Instance extends_preorder : PreOrder extends.
Proof.
  split.
  - intros [m|]; cbn; [reflexivity|exact I].
  - intros [m1|] [m2|] [m3|]; cbn; try done. intros; by etrans.
Qed.

Lemma node_of_extends sc sc' v b : extends sc sc' → node_of sc v = Some b → node_of sc' v = Some b.
Proof. destruct sc as [m|], sc' as [m'|]; cbn; try done. intros H Hb. by eapply lookup_weaken. Qed.

Lemma rename_extends sc sc' t t' : extends sc sc' → rename sc t = Some t' → rename sc' t = Some t'.
Proof.
  intros He. revert t'. induction t as [u|b|l|s IHs p o IHo key|v]; intros t'; cbn [rename]; try done.
  - destruct (node_of sc (BNode_value b)) as [b'|] eqn:E; [|done]. by rewrite (node_of_extends _ _ _ _ He E).
  - destruct (rename sc s) as [s'|]; [|done]. rewrite (IHs s' eq_refl). cbn.
    destruct (rename sc o) as [o'|]; [|done]. by rewrite (IHo o' eq_refl).
Qed.

(** Preserved labels change nothing. *)
Lemma rename_None t : nt_ok t → rename None t = Some t.
Proof.
  induction t as [u|b|l|s IHs p o IHo key|v]; cbn [nt_ok rename]; try done.
  - by intros (v & -> & _).
  - intros (Hk & _ & Hs & _ & Ho). rewrite (IHs Hs), (IHo Ho). exact Hk.
Qed.

(** ** Running the reader *)

Lemma bindP {A B} (m : parserM A) (f : A → parserM B) p a p' :
  m p = (Ok a, p') → (m ≫= f) p = f a p'.
Proof. unfold mbind, parserM_bind. by intros ->. Qed.

Lemma wrapP_Ok {A} fmt args (m : parserM A) p a p' : m p = (Ok a, p') → wrapP fmt args m p = (Ok a, p').
Proof. unfold wrapP. by intros ->. Qed.

Lemma set_rest_same p s : lp_rest p = s → set_rest s p = p.
Proof. destruct p. cbn. by intros <-. Qed.

Lemma TrimLeft_head c s : is_blank c = false → TrimLeftP is_blank (String c s) = String c s.
Proof. intros H. cbn [TrimLeftP]. by rewrite H. Qed.

(** A reader that skips leading blanks. *)
Definition skips {A} (m : parserM A) : Prop := ∀ p, m p = m (set_rest (TrimLeftP is_blank (lp_rest p)) p).

Lemma TrimLeft_idem s : TrimLeftP is_blank (TrimLeftP is_blank s) = TrimLeftP is_blank s.
Proof.
  induction s as [|c s IH]; [done|]. cbn [TrimLeftP]. destruct (is_blank c) eqn:E; [done|]. cbn [TrimLeftP]. by rewrite E.
Qed.

Lemma skips_bind {A} (f : unit → parserM A) : skips (SkipSpaces ≫= f).
Proof.
  intros p. unfold mbind, parserM_bind, SkipSpaces. cbn [lp_rest set_rest]. by rewrite TrimLeft_idem.
Qed.

Lemma skips_space {A} (m : parserM A) p s : skips m → lp_rest p = String space s → m p = m (set_rest s p).
Proof.
  intros Hm Hp. rewrite (Hm p), (Hm (set_rest s p)). rewrite Hp. cbn [lp_rest set_rest TrimLeftP].
  change (is_blank space) with true. cbn iota. by destruct p.
Qed.

(** ** Language tags in the text *)

Lemma SplitByte_forall (p : ascii → bool) c s :
  forallb (sforall p) (SplitByte s c) = true → sforall (λ d, p d || Ascii.eqb c d) s = true.
Proof.
  induction s as [|d s IH]; [done|]. cbn [SplitByte sforall]. destruct (Ascii.eqb c d) eqn:E.
  - cbn [forallb sforall]. rewrite orb_true_r. exact IH.
  - destruct (SplitByte s c) as [|w ws] eqn:Es; [by apply SplitByte_cons_ne in Es|].
    cbn [forallb sforall]. rewrite orb_false_r. intros [[Hd Hw]%andb_true_iff Hws]%andb_true_iff.
    rewrite Hd. apply IH. cbn. by rewrite Hw.
Qed.

Lemma ValidLanguageTag_bytes t : ValidLanguageTag t = true →
  (∃ c u, t = String c u ∧ isLetter c = true) ∧ sforall (λ c, negb (is_blank c || is_dot c)) t = true.
Proof.
  unfold ValidLanguageTag. destruct (SplitByte t "-") as [|w ws] eqn:Es; [done|].
  intros [Hw Hws]%andb_true_iff. split.
  - destruct t as [|c u]; [by injection Es as <- <-|]. exists c, u. split; [done|].
    cbn [SplitByte] in Es. destruct (Ascii.eqb "-" c); [by injection Es as <- <-|].
    assert (∃ x, w = String c x) as [x ->].
    { destruct (SplitByte u "-"); injection Es as <- <-; by eexists. }
    unfold subtag_ok in Hw. cbn [sforall] in Hw. apply andb_true_iff in Hw as [_ [Hc _]%andb_true_iff].
    revert Hc. byte_cases c.
  - assert (H : forallb (sforall is_alnum) (SplitByte t "-") = true).
    { rewrite Es. cbn [forallb]. apply andb_true_iff. split.
      - unfold subtag_ok in Hw. apply andb_true_iff in Hw as [_ Hw]. revert Hw. apply sforall_impl.
        intros c Hc. unfold is_alnum. by rewrite Hc.
      - rewrite forallb_forall in *. intros x Hx%Hws. unfold subtag_ok in Hx. by apply andb_true_iff in Hx as [_ Hx]. }
    apply SplitByte_forall in H. revert H. apply sforall_impl. intros c. byte_cases c.
Qed.

Lemma scan_lang_ok a t :
  sforall (λ c, negb (is_blank c || is_dot c)) a = true → scan_lang (a +:+ String space t) = (a, String space t).
Proof.
  induction a as [|c a IH]; [done|]. cbn [sforall]. intros [Hc%negb_true_iff Ha]%andb_true_iff.
  rewrite sapp_cons. cbn [scan_lang]. by rewrite Hc, IH.
Qed.

Lemma lang_options_ok n t d :
  ValidLanguageTag t = true → d = EmptyString ∨ d = "ltr" ∨ d = "rtl" →
  lang_options n (if is_empty d then t else t +:+ "--" +:+ d) =
  Ok (if is_empty d then [WithLang t] else [WithLang t; WithDir d]).
Proof.
  intros Hv Hd. pose proof (ValidLanguageTag_tail _ Hv) as Hw. unfold lang_options.
  destruct (is_empty d) eqn:Ed.
  - rewrite Index_words_None by done. by rewrite isValidLangTag_regex, Hv.
  - rewrite Index_words by done. rewrite stake_app, sdrop_app_add. change (sdrop 2 ("--" +:+ d)) with d.
    rewrite isValidLangTag_regex, Hv. by destruct Hd as [->|[->| ->]].
Qed.

(** What [Literal] writes after the closing quote. *)
Definition nt_suffix (l : Literal) : string :=
  if negb (is_empty (lang l)) then "@" +:+ (if is_empty (dir l) then lang l else lang l +:+ "--" +:+ dir l)
  else if bool_decide (datatype l = XSDString) then EmptyString
  else "^^<" +:+ EscapeIRI (URIRef_value (datatype l)) +:+ ">".

Lemma write_literal_ok l : nt_ok (TLiteral l) →
  write_literal l = Ok (str1 dquote +:+ EscapeString (lexical l) +:+ str1 dquote +:+ nt_suffix l).
Proof.
  intros (Hwf & Hv & Hdt). unfold write_literal, nt_suffix. rewrite Hv. cbn [negb].
  destruct (is_empty (lang l)) eqn:El; cbn [negb].
  - destruct (Hdt eq_refl) as (_ & _ & v & Hd & Hi). rewrite Hd. change (URIRef_value (NewURIRefUnsafe v)) with v.
    rewrite (bool_decide_eq_false_2 (NewURIRefUnsafe v = URIRef_zero)) by done. cbn [negb andb].
    case_bool_decide; cbn [negb].
    + by rewrite sapp_nil_r.
    + rewrite (proj2 (IRI_Ok v _) (conj Hi eq_refl)). f_equal. by rewrite !app_assoc_s.
  - destruct (is_empty (dir l)); cbn [negb]; f_equal; by rewrite !app_assoc_s.
Qed.

Lemma EscapeIRI_head v : iri_wf v → ∃ c u, EscapeIRI v = String c u ∧ isLetter c = true.
Proof.
  intros (Hv & _ & Ha). rewrite EscapeIRI_runes by done. unfold isAbsoluteIRI in Ha.
  destruct v as [|c v]; [done|]. destruct (IndexByte (String c v) ":") as [[|k]|]; [done| |done].
  cbn [stake] in Ha. apply andb_true_iff in Ha as [Hc _].
  assert (Hb : (byte_val c < 0x80)%N ∧ escape_iri_rune (byte_val c) = str1 c).
  { split; revert Hc; clear; byte_cases c. }
  destruct Hb as [Hb He]. rewrite runes_step by done. rewrite DecodeRune_ascii by done.
  cbn [fst snd escape_iri_runes foldr]. rewrite He. unfold str1. rewrite sapp_cons. eauto.
Qed.

Section reader.
Context (uuid : nat → string) (LineNum : Z).
Context (uuid_inj : ∀ i j, uuid i = uuid j → i = j).

Definition parser_ok (p : LineParser) : Prop :=
  cache_ok iri_wf (IRIs p) ∧ scope_fresh uuid (BlankNodes p) (draws p).
Definition runs_ok (p p' : LineParser) : Prop := parser_ok p' ∧ extends (BlankNodes p) (BlankNodes p').

Lemma runs_ok_rest p r : parser_ok p → runs_ok p (set_rest r p).
Proof. intros Hp. split; [exact Hp|reflexivity]. Qed.

Lemma runs_ok_trans p1 p2 p3 : runs_ok p1 p2 → runs_ok p2 p3 → runs_ok p1 p3.
Proof. intros [_ H1] [H2 H3]. split; [done|]. by etrans. Qed.

Lemma ReadIRI_ok p v t :
  iri_wf v → lp_rest p = "<" +:+ EscapeIRI v +:+ ">" +:+ t → ReadIRI LineNum p = (Ok v, set_rest t p).
Proof.
  intros (Hv & Hi & _) Hp. pose proof (ValidString_inv v Hv) as [Hr Hw].
  rewrite isValidIRI_runes in Hi. rewrite EscapeIRI_runes in Hp by done.
  destruct (escape_iri_read LineNum (runes v) t Hr Hi) as [H1 H2].
  change ("<" +:+ escape_iri_runes (runes v) +:+ ">" +:+ t) with (String "<" (escape_iri_runes (runes v) +:+ String ">" t)) in Hp.
  unfold ReadIRI. erewrite (bindP _ _ p true).
  2: { unfold Expect. rewrite Hp. reflexivity. }
  cbn [negb]. erewrite (bindP _ _ _ (escape_iri_runes (runes v))).
  2: { unfold consume. cbn [lp_rest set_rest]. rewrite H1. reflexivity. }
  rewrite (wrapP_Ok _ _ _ _ v (set_rest t p)); [done|]. unfold liftP. by rewrite UnescapeIRI_unesc, H2, Hw.
Qed.

Lemma NewURIRef_ok v : iri_wf v → NewURIRef v = Ok (NewURIRefUnsafe v).
Proof. intros (_ & Hi & _). unfold NewURIRef. by rewrite Hi. Qed.

Lemma read_term_iri_ok what p v t :
  iri_wf v → lp_rest p = "<" +:+ EscapeIRI v +:+ ">" +:+ t →
  read_term_iri LineNum what p = (Ok (TURIRef (NewURIRefUnsafe v)), set_rest t p).
Proof.
  intros Hv Hp. unfold read_term_iri, in_line.
  erewrite bindP by (apply wrapP_Ok, ReadIRI_ok; done).
  rewrite (proj2 (proj2 Hv)). cbn [negb]. erewrite bindP; [reflexivity|]. apply wrapP_Ok. unfold liftP. by rewrite NewURIRef_ok.
Qed.

Lemma read_cached_iri_ok what p v t :
  iri_wf v → parser_ok p → lp_rest p = "<" +:+ EscapeIRI v +:+ ">" +:+ t →
  ∃ p', read_cached_iri LineNum what p = (Ok (NewURIRefUnsafe v), p') ∧ lp_rest p' = t ∧ runs_ok p p'.
Proof.
  intros Hv Hok Hp. unfold read_cached_iri, in_line.
  erewrite bindP by (apply wrapP_Ok, ReadIRI_ok; done).
  erewrite bindP by reflexivity. cbn [IRIs set_rest].
  destruct (cache_Get (IRIs p) v) as [u|] eqn:E.
  - apply Hok in E as [-> _]. eexists. split; [reflexivity|]. split; [done|]. by apply runs_ok_rest.
  - rewrite (proj2 (proj2 Hv)). cbn [negb].
    erewrite bindP by (apply wrapP_Ok; unfold liftP; by rewrite NewURIRef_ok).
    erewrite bindP by reflexivity. eexists. split; [reflexivity|]. split; [done|].
    destruct Hok as [Hc Hs]. split; [split; [|exact Hs]|reflexivity]. cbn. by apply cache_ok_put.
Qed.

Lemma Label_ok sc v n : scope_fresh uuid sc n → v ≠ EmptyString →
  ∃ b sc' n', Label uuid sc v n = (Ok b, sc', n') ∧ node_of sc' v = Some b ∧ scope_fresh uuid sc' n' ∧ extends sc sc'.
Proof using uuid_inj.
  intros Hs Hv.
  enough (∃ b sc' n', Label uuid sc v n = (Ok b, sc', n') ∧ node_of sc' v = Some b ∧ extends sc sc') as (b & sc' & n' & H & H1 & H2).
  { exists b, sc', n'. split_and!; try done. by apply (scope_fresh_label uuid sc v n b sc' n'). }
  unfold Label. destruct sc as [m|].
  - destruct (m !! v) as [b|] eqn:E; [by exists b, (Some m), n|].
    cbn. eexists _, _, _. split; [reflexivity|]. cbn. split; [apply lookup_insert_eq|by apply insert_subseteq].
  - destruct v; [done|]. cbn. by eexists _, _, _.
Qed.

Lemma label_nonempty v : label_ok v → v ≠ EmptyString.
Proof. by intros (_ & _ & H) ->. Qed.

Lemma ReadBNode_ok p v t :
  label_ok v → parser_ok p → lp_rest p = "_:" +:+ v +:+ String space t →
  ∃ b p', ReadBNode uuid LineNum p = (Ok b, p') ∧ lp_rest p' = String space t ∧ runs_ok p p' ∧
          node_of (BlankNodes p') v = Some b.
Proof using uuid_inj.
  intros Hv Hok Hp. unfold ReadBNode. erewrite bindP by reflexivity. rewrite Hp.
  change (sdrop 2 ("_:" +:+ v +:+ String space t)) with (v +:+ String space t).
  erewrite (bindP _ _ _ v).
  2: { unfold consume. cbn [lp_rest set_rest]. rewrite scan_label_ok by done. reflexivity. }
  destruct Hok as [Hc Hs].
  destruct (Label_ok (BlankNodes p) v (draws p) Hs (label_nonempty v Hv)) as (b & sc & n & HL & Hb & Hs' & He).
  unfold label_node. cbn [set_rest BlankNodes draws lp_rest IRIs]. rewrite HL.
  eexists _, _. split; [reflexivity|]. by split_and!.
Qed.

Lemma read_suffix_ok p l t :
  nt_ok (TLiteral l) → parser_ok p → lp_rest p = nt_suffix l +:+ String space t →
  ∃ opts p', read_suffix LineNum p = (Ok opts, p') ∧ lp_rest p' = String space t ∧ runs_ok p p' ∧
             NewLiteral (VString (lexical l)) opts = l.
Proof.
  intros (Hwf & _ & Hdt) Hok Hp. pose proof (finishLiteral_wf_eq l Hwf) as Hfin. destruct Hwf as [_ Hl].
  unfold read_suffix. erewrite bindP by reflexivity. rewrite Hp. unfold nt_suffix in *.
  destruct (is_empty (lang l)) eqn:El; cbn [negb] in *.
  - assert (Elang : lang l = EmptyString) by (by destruct (lang l)). rewrite Hl, Elang in Hfin.
    destruct (Hdt eq_refl) as (_ & _ & v & Hd & Hi). case_bool_decide as Hs.
    + exists [], p. split; [reflexivity|]. rewrite sapp_nil_l in Hp. split; [done|]. split; [by split|].
      rewrite Hs in Hfin. exact Hfin.
    + rewrite Hd in Hp, Hfin |- *. change (URIRef_value (NewURIRefUnsafe v)) with v in *.
      change (HasPrefix _ "@") with false. change (HasPrefix _ "^^") with true. cbn iota.
      erewrite bindP by reflexivity. rewrite Hp.
      destruct (read_cached_iri_ok "datatype" (set_rest ("<" +:+ EscapeIRI v +:+ ">" +:+ String space t) p) v (String space t))
        as (p' & Hr & Hp' & Hst); [done|exact Hok|done|].
      assert (sdrop 2 (("^^<" +:+ EscapeIRI v +:+ ">") +:+ String space t) = "<" +:+ EscapeIRI v +:+ ">" +:+ String space t) as ->.
      { rewrite !app_assoc_s. reflexivity. }
      erewrite bindP by exact Hr. eexists _, _. split; [reflexivity|]. split; [done|]. split; [exact Hst|exact Hfin].
  - destruct Hl as (Hv & Ht & Hd & Hdt').
    set (tag := if is_empty (dir l) then lang l else lang l +:+ "--" +:+ dir l) in *.
    destruct (ValidLanguageTag_bytes _ Hv) as [(c & u & Hcu & Hc) Hb].
    assert (Htag : sforall (λ c, negb (is_blank c || is_dot c)) tag = true).
    { unfold tag. destruct (is_empty (dir l)); [done|]. rewrite !sforall_app, Hb.
      by destruct Hd as [->|[->| ->]]. }
    assert (∃ u', tag = String c u') as [u' Hu'].
    { unfold tag. rewrite Hcu. destruct (is_empty (dir l)); eexists; [done|by rewrite sapp_cons]. }
    assert (HasPrefix (("@" +:+ tag) +:+ String space t) "@" = true) as -> by (rewrite app_assoc_s; apply HasPrefix_app).
    change (sdrop 1 (("@" +:+ tag) +:+ String space t)) with (tag +:+ String space t).
    assert (tag +:+ String space t = String c (u' +:+ String space t)) as -> by (rewrite Hu'; reflexivity).
    rewrite Hc. eexists _, _. split.
    { unfold consume. rewrite Hp. change (sdrop 1 (("@" +:+ tag) +:+ String space t)) with (tag +:+ String space t).
      rewrite scan_lang_ok by done. unfold tag. rewrite lang_options_ok by done. reflexivity. }
    split; [done|]. split; [by apply runs_ok_rest|].
    etrans; [|exact Hfin]. unfold NewLiteral. cbn [goToLexical].
    destruct (is_empty (dir l)) eqn:Ed; cbn [foldl]; rewrite WithLang_valid by done.
    + assert (Edir : dir l = EmptyString) by (by destruct (dir l)). rewrite Edir. unfold finishLiteral. cbn [lang]. by rewrite El.
    + unfold WithDir. replace (bool_decide (dir l = "ltr") || bool_decide (dir l = "rtl")) with true.
      * unfold finishLiteral. cbn [lang dir lexical]. by rewrite El.
      * destruct Hd as [Hd|[Hd|Hd]]; rewrite Hd in *; by vm_compute.
Qed.

Lemma ReadLiteral_ok p l s t :
  nt_ok (TLiteral l) → write_literal l = Ok s → parser_ok p → lp_rest p = s +:+ String space t →
  ∃ p', ReadLiteral LineNum p = (Ok l, p') ∧ lp_rest p' = String space t ∧ runs_ok p p'.
Proof.
  intros Hl Hw Hok Hp. rewrite write_literal_ok in Hw by done. injection Hw as <-.
  rewrite !app_assoc_s in Hp. unfold str1 in Hp. rewrite !sapp_cons, !sapp_nil_l in Hp.
  unfold ReadLiteral. erewrite (bindP _ _ p (lexical l)).
  2: { unfold consume. rewrite Hp. cbn [sdrop].
       rewrite (scan_lexical_enough LineNum _ (S (len (EscapeString (lexical l) +:+ String dquote (nt_suffix l +:+ String space t)))))
         by (rewrite ?len_cons; lia).
       fold (lex LineNum (EscapeString (lexical l) +:+ String dquote (nt_suffix l +:+ String space t))).
       rewrite EscapeString_lex by apply Hl. reflexivity. }
  destruct (read_suffix_ok (set_rest (nt_suffix l +:+ String space t) p) l t Hl Hok eq_refl) as (opts & p' & Hr & Hp' & Hst & Hn).
  erewrite bindP by exact Hr. rewrite Hn. exists p'. split; [|by split].
  destruct (is_empty (lang l)) eqn:El; [|done]. destruct Hl as (_ & _ & Hdt). destruct (Hdt El) as (H1 & H2 & _).
  by rewrite !decide_False.
Qed.

(** A term as [write_term] writes it, read in object position. *)
Definition read_as (m : parserM Term) (t : Term) (s : string) : Prop :=
  ∀ p r, parser_ok p → lp_rest p = s +:+ String space r →
  ∃ t' p', m p = (Ok t', p') ∧ lp_rest p' = String space r ∧ runs_ok p p' ∧ rename (BlankNodes p') t = Some t'.

Lemma read_as_space m t s : skips m → read_as m t s → read_as m t (String space s).
Proof.
  intros Hm H p r Hok Hp. rewrite sapp_cons in Hp. rewrite (skips_space m p _ Hm Hp).
  apply (H (set_rest _ p) r); [exact Hok|done].
Qed.

Lemma SkipSpaces_head {A} (f : unit → parserM A) p c s :
  lp_rest p = String c s → is_blank c = false → (SkipSpaces ≫= f) p = f tt p.
Proof.
  intros Hp Hc. erewrite bindP; [reflexivity|]. unfold SkipSpaces. rewrite Hp, TrimLeft_head by done.
  by rewrite set_rest_same.
Qed.

Lemma ReadSubject_as t s : nt_ok t → node_term t = true → write_term t = Ok s → read_as (ReadSubject uuid LineNum) t s.
Proof using uuid_inj.
  intros Ht Hn Hw p r Hok Hp. destruct t as [u|b| | |]; try done.
  - destruct Ht as (v & -> & Hv). cbn [write_term] in Hw. apply IRI_Ok in Hw as [_ ->].
    change (URIRef_value (NewURIRefUnsafe v)) with v in Hp. rewrite !app_assoc_s in Hp.
    unfold ReadSubject. rewrite (SkipSpaces_head _ p "<" (EscapeIRI v +:+ ">" +:+ String space r)) by done.
    erewrite bindP by reflexivity. rewrite Hp. change (is_empty _) with false. rewrite HasPrefix_app. cbn iota.
    rewrite (read_term_iri_ok _ p v (String space r)) by done.
    eexists _, _. split; [reflexivity|]. split; [done|]. split; [by apply runs_ok_rest|done].
  - destruct Ht as (v & -> & Hv). injection Hw as <-. change (BNode_value (MkBNode ("B:" +:+ v))) with v in Hp.
    unfold ReadSubject. rewrite (SkipSpaces_head _ p "_" (":" +:+ v +:+ String space r)) by (rewrite ?Hp, ?app_assoc_s; reflexivity).
    erewrite bindP by reflexivity. rewrite Hp, app_assoc_s. change (is_empty _) with false.
    change (HasPrefix _ "<") with false. rewrite HasPrefix_app. cbn iota. rewrite app_assoc_s in Hp.
    destruct (ReadBNode_ok p v r Hv Hok Hp) as (b & p' & Hr & Hp' & Hst & Hb).
    erewrite bindP by exact Hr. eexists _, _. split; [reflexivity|]. split_and!; try done.
    cbn [rename]. change (BNode_value (MkBNode ("B:" +:+ v))) with v. by rewrite Hb.
Qed.

Lemma ReadPredicate_ok p v r :
  iri_wf v → parser_ok p → lp_rest p = String space ("<" +:+ EscapeIRI v +:+ ">" +:+ String space r) →
  ∃ p', ReadPredicate LineNum p = (Ok (NewURIRefUnsafe v), p') ∧ lp_rest p' = String space r ∧ runs_ok p p'.
Proof.
  intros Hv Hok Hp. rewrite (skips_space (ReadPredicate LineNum) p _ (skips_bind _) Hp). unfold ReadPredicate.
  rewrite (SkipSpaces_head _ _ "<" (EscapeIRI v +:+ ">" +:+ String space r)) by done.
  apply (read_cached_iri_ok "predicate" (set_rest _ p) v (String space r) Hv Hok). done.
Qed.

Lemma ReadObject_skips f : skips (ReadObject_go uuid LineNum (S f)).
Proof. apply skips_bind. Qed.

Lemma write_term_tt s p o key v :
  p = NewURIRefUnsafe v → iri_wf v →
  write_term (TTripleTerm s p o key) =
  s' ← write_term s; o' ← write_term o;
  Ok ("<<( " +:+ s' +:+ " " +:+ ("<" +:+ EscapeIRI v +:+ ">") +:+ " " +:+ o' +:+ " )>>").
Proof.
  intros -> Hv. cbn [write_term]. change (URIRef_value (NewURIRefUnsafe v)) with v.
  by rewrite (proj2 (IRI_Ok v _) (conj Hv eq_refl)).
Qed.

(** The body of a triple term, up to its closing brackets. *)
Lemma ReadTripleTerm_as f s p o key v ss so :
  nt_ok (TTripleTerm s p o key) → p = NewURIRefUnsafe v → iri_wf v → write_term s = Ok ss →
  read_as (ReadObject_go uuid LineNum (S f)) o so →
  read_as (ReadTripleTerm uuid LineNum (ReadObject_go uuid LineNum (S f))) (TTripleTerm s p o key)
    ("<<( " +:+ ss +:+ " " +:+ ("<" +:+ EscapeIRI v +:+ ">") +:+ " " +:+ so +:+ " )>>").
Proof using uuid_inj.
  intros (_ & Hn & Hs & _ & _) -> Hv Hws Ho p0 r Hok Hp.
  unfold ReadTripleTerm. erewrite bindP by reflexivity. rewrite Hp, !app_assoc_s.
  change ("<<( ") with ("<<" +:+ "( "). rewrite app_assoc_s, HasPrefix_app. cbn [negb].
  erewrite bindP by reflexivity. rewrite Hp, !app_assoc_s.
  set (body := ss +:+ " " +:+ "<" +:+ EscapeIRI v +:+ ">" +:+ " " +:+ so +:+ " )>>" +:+ String space r).
  change (sdrop 2 ("<<( " +:+ body)) with (String "(" (String space body)).
  erewrite (SkipSpaces_head _ _ "(") by reflexivity.
  erewrite (bindP _ _ _ true) by reflexivity. cbn [negb lp_rest set_rest].
  pose proof (read_as_space _ _ _ (skips_bind _) (ReadSubject_as s ss Hs Hn Hws)) as Hsub.
  destruct (Hsub (set_rest (String space body) p0) ("<" +:+ EscapeIRI v +:+ ">" +:+ " " +:+ so +:+ " )>>" +:+ String space r))
    as (s' & p1 & Hr1 & Hp1 & Hst1 & Hs'); [exact Hok|reflexivity|].
  erewrite bindP by (apply wrapP_Ok; exact Hr1).
  destruct (ReadPredicate_ok p1 v (so +:+ " )>>" +:+ String space r)) as (p2 & Hr2 & Hp2 & Hst2); [done|by apply Hst1|exact Hp1|].
  erewrite bindP by (apply wrapP_Ok; exact Hr2).
  destruct (read_as_space _ _ _ (ReadObject_skips f) Ho p2 (")>>" +:+ String space r)) as (o' & p3 & Hr3 & Hp3 & Hst3 & Ho');
    [by apply Hst2|exact Hp2|].
  erewrite bindP by (apply wrapP_Ok; exact Hr3).
  rewrite (skips_bind _ p3), Hp3. change (TrimLeftP is_blank (String space (")>>" +:+ String space r))) with (String ")" (">>" +:+ String space r)).
  erewrite (SkipSpaces_head _ _ ")") by reflexivity.
  erewrite (bindP _ _ _ true) by reflexivity. cbn [negb lp_rest set_rest].
  erewrite (SkipSpaces_head _ _ ">") by reflexivity.
  erewrite bindP by reflexivity. cbn [lp_rest set_rest]. rewrite HasPrefix_app. cbn [negb].
  erewrite bindP by reflexivity. cbn [lp_rest set_rest]. change (sdrop 2 (">>" +:+ String space r)) with (String space r).
  assert (Hall : runs_ok p0 p3) by (eapply runs_ok_trans; [exact Hst1|by eapply runs_ok_trans]).
  eexists _, _. split; [reflexivity|]. split; [done|]. split; [exact Hall|].
  cbn [rename set_rest BlankNodes]. rewrite (rename_extends (BlankNodes p1) (BlankNodes p3) s s'); [|etrans; [by apply Hst2|by apply Hst3]|done].
  cbn [mbind option_bind]. rewrite Ho'. done.
Qed.

Lemma ReadObject_as t s : nt_ok t → write_term t = Ok s → ∀ f, len s ≤ f → read_as (ReadObject_go uuid LineNum (S f)) t s.
Proof using uuid_inj.
  revert s. induction t as [u|b|l|sb IHs pr o IHo key|v]; intros s Ht Hw f Hf; [| | | |done].
  - destruct Ht as (v & -> & Hv). apply IRI_Ok in Hw as [_ ->]. change (URIRef_value (NewURIRefUnsafe v)) with v.
    intros p r Hok Hp. rewrite !app_assoc_s in Hp.
    cbn [ReadObject_go]. rewrite (SkipSpaces_head _ p "<" (EscapeIRI v +:+ ">" +:+ String space r)) by done.
    erewrite bindP by reflexivity. rewrite Hp. change (is_empty _) with false. cbn iota.
    destruct (EscapeIRI_head v Hv) as (c & u & He & Hc).
    assert (HasPrefix ("<" +:+ EscapeIRI v +:+ ">" +:+ String space r) "<<" = false) as ->.
    { rewrite He, !sapp_cons, sapp_nil_l, !HasPrefix_cons. clear -Hc. by destruct (Ascii.eqb_spec c "<") as [->|]. }
    rewrite HasPrefix_app. rewrite (read_term_iri_ok _ p v (String space r)) by done.
    eexists _, _. split; [reflexivity|]. split; [done|]. split; [by apply runs_ok_rest|done].
  - destruct Ht as (v & -> & Hv). injection Hw as <-. change (BNode_value (MkBNode ("B:" +:+ v))) with v.
    intros p r Hok Hp. rewrite app_assoc_s in Hp.
    cbn [ReadObject_go]. rewrite (SkipSpaces_head _ p "_" (":" +:+ v +:+ String space r)) by done.
    erewrite bindP by reflexivity. rewrite Hp. change (is_empty _) with false.
    change (HasPrefix _ "<<") with false. change (HasPrefix _ "<") with false. rewrite HasPrefix_app. cbn iota.
    destruct (ReadBNode_ok p v r Hv Hok Hp) as (b & p' & Hr & Hp' & Hst & Hb).
    erewrite bindP by exact Hr. eexists _, _. split; [reflexivity|]. split_and!; try done.
    cbn [rename]. change (BNode_value (MkBNode ("B:" +:+ v))) with v. by rewrite Hb.
  - intros p r Hok Hp. cbn [write_term] in Hw. pose proof (write_literal_ok l Ht) as Hq. rewrite Hw in Hq. injection Hq as Hq.
    assert (Hh : ∃ u, s +:+ String space r = String dquote u) by (rewrite Hq; unfold str1; rewrite !sapp_cons; eauto).
    destruct Hh as [u Hu]. rewrite Hu in Hp.
    cbn [ReadObject_go]. rewrite (SkipSpaces_head _ p dquote u) by done.
    erewrite bindP by reflexivity. rewrite Hp. change (is_empty _) with false.
    change (HasPrefix _ "<<") with false. change (HasPrefix _ "<") with false. change (HasPrefix _ "_:") with false.
    change (HasPrefix _ (str1 dquote)) with (HasPrefix u EmptyString). rewrite HasPrefix_nil. cbn iota.
    rewrite <- Hu in Hp. destruct (ReadLiteral_ok p l s r Ht Hw Hok Hp) as (p' & Hr & Hp' & Hst).
    erewrite bindP by exact Hr. eexists _, _. by split_and!.
  - pose proof Ht as (_ & _ & Hs & (v & Hpr & Hv) & Ho). rewrite (write_term_tt _ _ _ _ v) in Hw by done.
    destruct (write_term sb) as [ss|] eqn:Ews; [|done]. destruct (write_term o) as [so|] eqn:Ewo; [|done].
    injection Hw as <-. rewrite !len_app in Hf. change (len "<<( ") with 4 in Hf.
    destruct f as [|f]; [lia|]. intros p r Hok Hp.
    pose proof (ReadTripleTerm_as f sb pr o key v ss so Ht Hpr Hv Ews) as H.
    change (ReadObject_go uuid LineNum (S (S f)) p) with
      ((SkipSpaces ≫= λ _, s ← peek; if is_empty s then perr (line_err LineNum "unexpected end")
        else if HasPrefix s "<<" then ReadTripleTerm uuid LineNum (ReadObject_go uuid LineNum (S f))
        else if HasPrefix s "<" then read_term_iri LineNum "object"
        else if HasPrefix s "_:" then b ← ReadBNode uuid LineNum; mret (TBNode b)
        else if HasPrefix s (str1 dquote) then l ← ReadLiteral LineNum; mret (TLiteral l)
        else perr (line_err LineNum "expected IRI, blank node, or literal for object")) p).
    erewrite (SkipSpaces_head _ p "<") by (rewrite ?Hp; reflexivity).
    erewrite bindP by reflexivity.
    assert (is_empty (lp_rest p) = false) as -> by (by rewrite Hp).
    assert (HasPrefix (lp_rest p) "<<" = true) as ->.
    { rewrite Hp, !app_assoc_s. change ("<<( ") with ("<<" +:+ "( "). rewrite app_assoc_s. apply HasPrefix_app. }
    apply H; [|done|done]. apply IHo; [done|done|lia].
Qed.
End reader.

(** ** The property *)

Lemma write_term_total t : nt_ok t → is_Ok (write_term t) = true.
Proof.
  induction t as [u|b|l|s IHs p o IHo key|v]; [| | | |done].
  - intros (v & -> & Hv). cbn [write_term]. change (URIRef_value (NewURIRefUnsafe v)) with v.
    by rewrite (proj2 (IRI_Ok v _) (conj Hv eq_refl)).
  - done.
  - intros H. cbn [write_term]. by rewrite write_literal_ok.
  - intros (_ & _ & Hs & (v & -> & Hv) & Ho). rewrite (write_term_tt _ _ _ _ v) by done.
    specialize (IHs Hs). specialize (IHo Ho). destruct (write_term s); [|done]. by destruct (write_term o).
Qed.

(** C10: the writer accepts every term N-Triples can express, and the reader reads its text
    back: the same term with its blank nodes named by the scope of the parse, the
    rest of the line untouched, known labels kept and distinct labels distinct.
    A scope that preserves labels gives exactly the term. *)
Theorem term_roundtrip : ∀ uuid LineNum t,
  (∀ i j, uuid i = uuid j → i = j) → nt_ok t →
  ∃ s, write_term t = Ok s ∧
    ∀ p r, parser_ok uuid p → lp_rest p = s +:+ String space r →
    ∃ t' p', ReadObject uuid LineNum p = (Ok t', p') ∧ lp_rest p' = String space r ∧
      parser_ok uuid p' ∧ extends (BlankNodes p) (BlankNodes p') ∧
      rename (BlankNodes p') t = Some t' ∧ (BlankNodes p = None → t' = t).
Proof.
  intros uuid n t Hu Ht. pose proof (write_term_total t Ht) as Hw. destruct (write_term t) as [s|] eqn:E; [|done].
  exists s. split; [done|]. intros p r Hok Hp. unfold ReadObject.
  destruct (ReadObject_as uuid n Hu t s Ht E (len (lp_rest p))) with (p := p) (r := r) as (t' & p' & H1 & H2 & [H3 H4] & H5).
  - rewrite Hp, len_app. lia.
  - done.
  - done.
  - exists t', p'. split_and!; try done. intros Hn. rewrite Hn in H4.
    destruct (BlankNodes p'); [done|]. rewrite rename_None in H5 by done. congruence.
Qed.

Definition ex_line_term : Term :=
  match NewTripleTerm (Some (TBNode (MkBNode "B:x.1"))) (NewURIRefUnsafe "http://example.org/p")
    (Some (TLiteral (NewLiteral (VString ("two" +:+ str1 lf +:+ "lines")) [WithLang "en-GB"; WithDir "ltr"]))) with
  | Some t => t
  | None => TVariable (NewVariable EmptyString)
  end.

Lemma ex_line_term_ok : nt_ok ex_line_term.
Proof.
  split; [reflexivity|]. split; [reflexivity|]. split; [|split].
  - exists "x.1". split; [reflexivity|]. split; [by vm_compute|split; by vm_compute].
  - exists "http://example.org/p". split; [reflexivity|]. repeat split; by vm_compute.
  - split; [apply NewLiteral_lit_wf; repeat constructor|]. split; [by vm_compute|]. intros H. by vm_compute in H.
Qed.

Lemma hex_uuid_inj : ∀ i j, pretty.pretty_nat i = pretty.pretty_nat j → i = j.
Proof. intros i j H. by apply (inj pretty.pretty) in H. Qed.

(** The first object of a document with fresh blank node labels. *)
Lemma term_roundtrip_witness :
  ∃ s, write_term ex_line_term = Ok s ∧
    ∃ t' p', ReadObject pretty.pretty_nat 1 (MkLineParser (s +:+ String space ".") (New_scope false) New_cache 0) = (Ok t', p') ∧
      lp_rest p' = String space "." ∧ parser_ok pretty.pretty_nat p' ∧ extends (New_scope false) (BlankNodes p') ∧
      rename (BlankNodes p') ex_line_term = Some t' ∧ (New_scope false = None → t' = ex_line_term).
Proof.
  destruct (term_roundtrip _ 1 _ hex_uuid_inj ex_line_term_ok) as (s & Hs & H). exists s. split; [exact Hs|].
  exact (H (MkLineParser (s +:+ String space ".") (New_scope false) New_cache 0) "."
           (conj (cache_ok_new _) (scope_fresh_new _ 0)) eq_refl).
Defined.
