(* ===== verification/NTSound.v ===== *)
(** * What the N-Triples reader accepts

    Read from UTF-8 text, every term the reader returns is one the writer
    accepts; and the reader ends on every line. *)

From S2P Require Import Prelude GoStrings Utf8 Strconv Term Decode TermKey ParseScope NTSyntax NTReadBack NTRoundTrip.
From stdpp Require Import pretty options.

(** ** Valid text *)

Definition ascii_byte (c : ascii) : bool := (byte_val c <? 0x80)%N.

Lemma ValidString_sdrop k s :
  sforall ascii_byte (stake k s) = true → ValidString s = true → ValidString (sdrop k s) = true.
Proof.
  revert s. induction k as [|k IH]; intros [|c s]; try done. cbn [stake sforall sdrop].
  intros [Hc%N.ltb_lt Hs]%andb_true_iff H%ValidString_cons; [by apply IH|done].
Qed.

Lemma ValidString_encode r : ValidString (encode_rune r) = true.
Proof.
  destruct (valid_rune r) eqn:E.
  - rewrite <- (sapp_nil_r (encode_rune r)). apply (ValidString_write [r]). by repeat constructor.
  - unfold encode_rune. rewrite E. by vm_compute.
Qed.

Lemma hex_acc_ascii n s m : hex_acc n s = Some m → sforall ascii_byte s = true.
Proof.
  revert n. induction s as [|c s IH]; intros n; [done|]. cbn [hex_acc sforall].
  destruct (hex_val c) eqn:E; [|done]. intros H. rewrite (IH _ H), andb_true_r. revert E. byte_cases c.
Qed.

Lemma read_uchar_valid k e1 e2 e3 s t r :
  read_uchar k e1 e2 e3 s = Ok (t, r) → ValidString s = true → ValidString t = true ∧ ValidString r = true.
Proof.
  unfold read_uchar. destruct (len s <? k); [done|]. destruct (ParseHex32 (stake k s)) as [code|] eqn:E; [|done].
  destruct (in_range _ _ code); [done|]. intros [= <- <-] Hs. split; [apply ValidString_encode|].
  apply ValidString_sdrop; [|done]. unfold ParseHex32 in E. destruct (stake k s) as [|c u]; [done|].
  destruct (hex_acc 0 (String c u)) eqn:Eh; [|done]. by apply hex_acc_ascii in Eh.
Qed.

(** The first rune of a valid string and the rest. *)
Lemma ValidString_step s : ValidString s = true →
  s = EmptyString ∨ (∃ c u, s = String c u ∧ (byte_val c < 0x80)%N ∧ ValidString u = true) ∨
  (∃ r u, s = encode_rune r +:+ u ∧ valid_rune r = true ∧ (0x80 ≤ r)%N ∧ ValidString u = true ∧ len u < len s).
Proof.
  intros [Hv Hs]%ValidString_inv. rewrite <- Hs. clear Hs. destruct (runes s) as [|r l]; [by left|right].
  apply Forall_cons in Hv as [Hr Hl]. rewrite write_runes_cons.
  destruct (N.lt_ge_cases r 0x80) as [Hlo|Hhi]; [left|right].
  - rewrite encode_rune_1 by lia. exists (byte_of r), (write_runes l). unfold str1. rewrite sapp_cons, byte_val_of by lia.
    split_and!; [done..|by apply ValidString_write].
  - exists r, (write_runes l). split_and!; try done; [by apply ValidString_write|].
    rewrite len_app. pose proof (encode_rune_nonempty r). destruct (encode_rune r); [done|rewrite len_cons; lia].
Qed.

Lemma str1_valid c : (byte_val c < 0x80)%N → ValidString (str1 c) = true.
Proof. intros H. unfold str1. by apply ValidString_cons. Qed.

Lemma ValidString_cons_2 c s : (byte_val c < 0x80)%N → ValidString s = true → ValidString (String c s) = true.
Proof. intros Hc Hs. by apply ValidString_cons. Qed.

Lemma unesc_valid s v : unesc s = Ok v → ValidString s = true → ValidString v = true.
Proof.
  revert v. induction s as [s IH] using string_len_ind. intros v Hu Hs.
  destruct (ValidString_step s Hs) as [->|[(c & u & -> & Hc & Hv)|(r & u & -> & Hr & Hhi & Hv & Hl)]].
  - by injection Hu as <-.
  - destruct (Ascii.eqb_spec c bslash) as [->|Hb].
    + destruct u as [|d u]; [by injection Hu as <-|]. rewrite unesc_bslash in Hu.
      destruct (iri_escape d u) as [[t r]|] eqn:E; [|done]. cbn [mbind result_bind] in Hu.
      destruct (unesc r) as [v'|] eqn:Er; [|done]. injection Hu as <-.
      assert (Hd : ValidString u = true).
      { apply (ValidString_cons d); [|done]. unfold iri_escape in E. destruct (Ascii.eqb_spec d "u") as [->|]; [done|].
        destruct (Ascii.eqb_spec d "U") as [->|]; done. }
      assert (Htr : ValidString t = true ∧ ValidString r = true).
      { unfold iri_escape in E. repeat case_match; try done; by eapply read_uchar_valid. }
      apply ValidString_app; [by apply Htr|]. apply (IH r); [|done|by apply Htr].
      apply iri_escape_len in E. rewrite !len_cons. lia.
    + rewrite unesc_cons in Hu by (by apply Ascii.eqb_neq). destruct (unesc u) as [v'|] eqn:Er; [|done].
      injection Hu as <-. apply ValidString_cons_2; [done|]. apply (IH u); [rewrite len_cons; lia|done..].
  - rewrite unesc_app in Hu.
    + destruct (unesc u) as [v'|] eqn:Er; [|done]. injection Hu as <-. apply ValidString_app; [apply ValidString_encode|].
      by apply (IH u).
    + apply has_byte_false. generalize (encode_rune_high r Hr Hhi). apply sforall_impl. intros c. byte_cases c.
Qed.

Lemma scan_escape_valid n d s t r :
  scan_escape n d s = Ok (t, r) → ValidString (String d s) = true → ValidString t = true ∧ ValidString r = true.
Proof.
  unfold scan_escape. destruct (echar d) as [b|] eqn:E.
  - intros [= <- <-] H. assert (Hd : (byte_val d < 0x80)%N ∧ (byte_val b < 0x80)%N).
    { revert E. clear. unfold echar. repeat case_match; intros [= <-]; bool_cases; subst; by vm_compute. }
    destruct Hd as [Hd Hb]. split; [by apply str1_valid|]. by apply (ValidString_cons d).
  - intros H Hs. assert (Hd : (byte_val d < 0x80)%N).
    { destruct (Ascii.eqb_spec d "u") as [->|]; [done|]. by destruct (Ascii.eqb_spec d "U") as [->|]. }
    apply ValidString_cons in Hs; [|done]. unfold lit_uchar in H. repeat case_match; try done; by eapply read_uchar_valid.
Qed.

Lemma lex_valid n s v r : lex n s = Ok (v, r) → ValidString s = true → ValidString v = true ∧ ValidString r = true.
Proof.
  revert v r. induction s as [s IH] using string_len_ind. intros v r Hl Hs.
  destruct (ValidString_step s Hs) as [->|[(c & u & -> & Hc & Hv)|(x & u & -> & Hr & Hhi & Hv & Hlen)]]; [done| |].
  - destruct (Ascii.eqb_spec c bslash) as [->|Hb].
    + destruct u as [|d u]; [done|]. rewrite lex_bslash in Hl.
      destruct (scan_escape n d u) as [[t r']|] eqn:E; [|done]. cbn [mbind result_bind] in Hl.
      destruct (lex n r') as [[v' r2]|] eqn:Er; [|done]. injection Hl as <- <-.
      destruct (scan_escape_valid _ _ _ _ _ E Hv) as [Ht Hr']. apply scan_escape_len in E.
      destruct (IH r') with (v := v') (r := r2) as [H1 H2]; [rewrite !len_cons; lia|done..|].
      split; [by apply ValidString_app|done].
    + destruct (Ascii.eqb_spec c dquote) as [->|Hq]; [by injection Hl as <- <-|].
      rewrite lex_plain in Hl by (unfold plain_byte; by rewrite (proj2 (Ascii.eqb_neq _ _) Hb), (proj2 (Ascii.eqb_neq _ _) Hq)).
      destruct (lex n u) as [[v' r2]|] eqn:Er; [|done]. injection Hl as <- <-.
      destruct (IH u) with (v := v') (r := r2) as [H1 H2]; [rewrite len_cons; lia|done..|].
      split; [by apply ValidString_cons_2|done].
  - rewrite lex_plain_app in Hl by (apply high_plain; by apply encode_rune_high).
    destruct (lex n u) as [[v' r2]|] eqn:Er; [|done]. injection Hl as <- <-.
    destruct (IH u) with (v := v') (r := r2) as [H1 H2]; [done..|].
    split; [by apply ValidString_app; [apply ValidString_encode|]|done].
Qed.

Lemma scan_iri_split n s raw r : scan_iri n s = Ok (raw, r) → s = raw +:+ String ">" r.
Proof.
  revert raw r. induction s as [s IH] using string_len_ind. intros raw r.
  destruct s as [|c s]; [done|]. cbn [scan_iri]. destruct (Ascii.eqb_spec c ">") as [->|]; [by intros [= <- <-]|].
  destruct (Ascii.eqb c bslash).
  - destruct s as [|d s]; [done|]. destruct (scan_iri n s) as [[t r']|] eqn:E; [|done].
    intros [= <- <-]. apply IH in E; [|rewrite !len_cons; lia]. by rewrite !sapp_cons, <- E.
  - destruct (byte_val c <=? 32)%N; [done|]. destruct (scan_iri n s) as [[t r']|] eqn:E; [|done].
    intros [= <- <-]. apply IH in E; [|rewrite !len_cons; lia]. by rewrite !sapp_cons, <- E.
Qed.

Lemma scan_lang_split s t r : scan_lang s = (t, r) →
  s = t +:+ r ∧ (r = EmptyString ∨ ∃ c r', r = String c r' ∧ (byte_val c < 0x80)%N).
Proof.
  revert t r. induction s as [|c s IH]; intros t r; cbn [scan_lang]; [intros [= <- <-]; auto|].
  destruct (is_blank c || is_dot c) eqn:E.
  - intros [= <- <-]. split; [done|]. right. exists c, s. split; [done|]. revert E. byte_cases c.
  - destruct (scan_lang s) as [t' r'] eqn:Es. intros [= <- <-]. destruct (IH _ _ eq_refl) as [-> H]. by rewrite sapp_cons.
Qed.

(** ** Labels *)

Lemma label_bytes_split f l : valid_runes l → len (write_runes l) ≤ f →
  ∃ l1 l2, l = l1 ++ l2 ∧ label_bytes f (write_runes l) = len (write_runes l1) ∧ forallb label_rune l1 = true.
Proof.
  intros Hl. revert f. induction Hl as [|r l Hr Hl IH]; intros f Hf; [exists [], []; by destruct f|].
  rewrite write_runes_cons in *. rewrite len_app in Hf.
  assert (Hp : 0 < len (encode_rune r)).
  { pose proof (encode_rune_nonempty r). destruct (encode_rune r); [done|rewrite len_cons; lia]. }
  destruct f as [|f]; [lia|].
  assert (∃ d u, encode_rune r +:+ write_runes l = String d u) as (d & u & Hs).
  { destruct (encode_rune r) as [|d u]; [rewrite len_nil in Hp; lia|]. exists d, (u +:+ write_runes l). done. }
  rewrite Hs. cbn [label_bytes]. rewrite <- Hs, DecodeRune_encode by done. fold (label_rune r).
  destruct (label_rune r) eqn:Er.
  - rewrite sdrop_app. destruct (IH f) as (l1 & l2 & -> & -> & H1); [lia|].
    exists (r :: l1), l2. split_and!; [done|by rewrite write_runes_cons, len_app|]. cbn [forallb]. by rewrite Er.
  - by exists [], (r :: l).
Qed.

Lemma TrimRightP_idem p s : TrimRightP p (TrimRightP p s) = TrimRightP p s.
Proof.
  induction s as [|c s IH]; [done|]. cbn [TrimRightP]. destruct (TrimRightP p s) as [|d u] eqn:E.
  - destruct (p c) eqn:Ec; [done|]. unfold str1. cbn [TrimRightP]. by rewrite Ec.
  - change (TrimRightP p (String c (String d u))) with
      (match TrimRightP p (String d u) with EmptyString => if p c then EmptyString else str1 c | t => String c t end).
    by rewrite IH.
Qed.

Lemma scan_label_sound n s label r :
  scan_label n s = Ok (label, r) → ValidString s = true → label_ok label ∧ s = label +:+ r ∧ ValidString r = true.
Proof.
  intros H Hs. pose proof (ValidString_inv s Hs) as [Hv Hw]. revert H.
  destruct (runes s) as [|r0 l] eqn:El; [by rewrite <- Hw|]. apply Forall_cons in Hv as [Hr0 Hl].
  unfold scan_label. rewrite <- Hw, write_runes_cons. destruct (is_empty _) eqn:Ee; [done|].
  rewrite DecodeRune_encode by done. destruct (negb _ && negb _) eqn:Est; [done|].
  assert (Hstart : label_start r0 = true).
  { unfold label_start. rewrite <- negb_orb in Est. by apply negb_false_iff in Est. }
  rewrite sdrop_app. destruct (label_bytes_split (len (encode_rune r0 +:+ write_runes l)) l) as (l1 & l2 & -> & Hb & H1);
    [done|rewrite len_app; lia|].
  rewrite Hb, write_runes_app, <- len_app, <- app_assoc_s, stake_app, <- write_runes_cons.
  apply Forall_app in Hl as [Hl1 Hl2].
  destruct (TrimRight_runes (r0 :: l1)) as (m1 & m2 & Hm & Ht & Hd); [by constructor|].
  destruct (is_empty (TrimRightP _ _)) eqn:Eet; [done|].
  pose proof (TrimRightP_idem is_dot (write_runes (r0 :: l1))) as Hidem.
  rewrite Ht in *. destruct m1 as [|x m1]; [done|]. injection Hm as <- Hm. intros Heq.
  assert (label = write_runes (r0 :: m1) ∧ r = sdrop (len (write_runes (r0 :: m1))) (write_runes (r0 :: l1) +:+ write_runes l2)) as [-> ->].
  { by injection Heq as <- <-. }
  assert (Hvm : valid_runes (r0 :: m1)).
  { constructor; [done|]. rewrite Hm in Hl1. by apply Forall_app in Hl1 as [? _]. }
  assert (Hsplit : write_runes (r0 :: l1) = write_runes (r0 :: m1) +:+ write_runes m2).
  { rewrite <- write_runes_app. cbn [app]. by rewrite <- Hm. }
  split; [|split].
  - split; [by apply (ValidString_write (r0 :: m1))|]. split; [done|].
    rewrite runes_write by done. split; [done|].
    rewrite Hm, forallb_app in H1. by apply andb_true_iff in H1 as [? _].
  - rewrite Hsplit, !app_assoc_s. by rewrite (sdrop_app (write_runes (r0 :: m1)) _ : sdrop _ _ = _).
  - rewrite Hsplit, app_assoc_s, (sdrop_app (write_runes (r0 :: m1)) _ : sdrop _ _ = _), <- write_runes_app. apply ValidString_write, Forall_app. split; [|done].
    rewrite Hm in Hl1. by apply Forall_app in Hl1 as [_ ?].
Qed.

(** ** A program logic for the reader

    [triple P m Q]: from an intact parser on valid text that satisfies [P], a
    result of [m] satisfies [Q] with the text after it, and the parser stays
    intact. *)

Section sound.
Context (uuid : nat → string) (LineNum : Z).
Context (uuid_inj : ∀ i j, uuid i = uuid j → i = j).

(** Every node of the scope has a label N-Triples can express. *)
Definition text_ok (p : LineParser) : Prop := parser_ok uuid p ∧ ValidString (lp_rest p) = true.

Definition triple {A} (P : string → Prop) (m : parserM A) (Q : A → string → Prop) : Prop :=
  ∀ p a p', text_ok p → P (lp_rest p) → m p = (Ok a, p') → text_ok p' ∧ Q a (lp_rest p').

Lemma triple_ret {A} (a : A) (P : string → Prop) : triple P (mret a) (λ b s, b = a ∧ P s).
Proof. intros p b p' Hp HP H. by injection H as <- <-. Qed.

Lemma triple_err {A} e (P : string → Prop) (Q : A → string → Prop) : triple P (perr e) Q.
Proof. by intros p b p' Hp HP H. Qed.

Lemma triple_bind {A B} (P : string → Prop) (m : parserM A) (f : A → parserM B) R Q :
  triple P m R → (∀ a, triple (R a) (f a) Q) → triple P (m ≫= f) Q.
Proof.
  intros Hm Hf p b p' Hp HP. unfold mbind, parserM_bind. destruct (m p) as [[a|e] p1] eqn:E; [|done].
  intros H. destruct (Hm _ _ _ Hp HP E) as [H1 H2]. by apply (Hf a p1).
Qed.

Lemma triple_weaken {A} (P P' : string → Prop) (m : parserM A) (Q Q' : A → string → Prop) :
  triple P m Q → (∀ s, P' s → P s) → (∀ a s, Q a s → Q' a s) → triple P' m Q'.
Proof. intros Hm HP HQ p a p' Hp H E. destruct (Hm p a p' Hp (HP _ H) E). auto. Qed.

Lemma triple_wrap {A} fmt args (P : string → Prop) (m : parserM A) Q : triple P m Q → triple P (wrapP fmt args m) Q.
Proof.
  intros Hm p a p' Hp HP. unfold wrapP. destruct (m p) as [[a'|e] p1] eqn:E; [|done].
  intros [= <- <-]. by apply (Hm p).
Qed.

Lemma triple_peek (P : string → Prop) : triple P peek (λ a s, a = s ∧ P s).
Proof. intros p a p' Hp HP H. by injection H as <- <-. Qed.

Lemma triple_lift {A} (r : result A) (P : string → Prop) : triple P (liftP r) (λ a s, r = Ok a ∧ P s).
Proof. intros p a p' Hp HP [= -> <-]. done. Qed.

Lemma triple_consume {A} (f : string → result (A * string)) (P : string → Prop) (Q : A → string → Prop) :
  (∀ s a r, P s → ValidString s = true → f s = Ok (a, r) → ValidString r = true ∧ Q a r) → triple P (consume f) Q.
Proof.
  intros Hf p a p' [Hok Hv] HP. unfold consume. destruct (f (lp_rest p)) as [[a' r]|e] eqn:E; [|done].
  intros [= <- <-]. destruct (Hf _ _ _ HP Hv E) as [H1 H2]. split; [by split|exact H2].
Qed.

Lemma triple_advance n (P : string → Prop) : (∀ s, P s → sforall ascii_byte (stake n s) = true) → triple P (advance n) (λ _ _, True).
Proof.
  intros HP p a p' [Hok Hv] H E. injection E as <- <-. split; [|done]. split; [exact Hok|].
  cbn [lp_rest set_rest]. apply ValidString_sdrop; auto.
Qed.

Lemma TrimLeft_valid s : ValidString s = true → ValidString (TrimLeftP is_blank s) = true.
Proof.
  induction s as [|c s IH]; [done|]. cbn [TrimLeftP]. destruct (is_blank c) eqn:E; [|done].
  intros H%ValidString_cons; [auto|]. revert E. byte_cases c.
Qed.

Lemma triple_spaces (P : string → Prop) : triple P SkipSpaces (λ _ _, True).
Proof.
  intros p a p' [Hok Hv] HP H. injection H as <- <-. split; [|done]. split; [exact Hok|]. by apply TrimLeft_valid.
Qed.

Lemma triple_expect c (P : string → Prop) : (byte_val c < 0x80)%N → triple P (Expect c) (λ _ _, True).
Proof.
  intros Hc p a p' [Hok Hv] HP. unfold Expect. destruct (lp_rest p) as [|d r] eqn:E.
  - intros [= <- <-]. split; [|done]. split; [exact Hok|by rewrite E].
  - destruct (Ascii.eqb_spec d c) as [->|]; intros [= <- <-]; (split; [|done]); (split; [exact Hok|]); cbn [lp_rest set_rest].
    + by apply (ValidString_cons c).
    + by rewrite E.
Qed.

Lemma prefix_ascii n q s : HasPrefix s q = true → len q = n → sforall ascii_byte q = true → sforall ascii_byte (stake n s) = true.
Proof. intros (t & ->)%HasPrefix_true <- H. by rewrite stake_app. Qed.

(** ** The readers *)

Lemma triple_ReadIRI P : triple P (ReadIRI LineNum) (λ v _, ValidString v = true).
Proof.
  unfold ReadIRI. apply (triple_bind P _ _ (λ _ _, True)); [by apply triple_expect|]. intros open.
  destruct (negb open); [apply triple_err|].
  apply (triple_bind _ _ _ (λ raw _, ValidString raw = true)).
  - apply triple_consume. intros s a r _ Hs H%scan_iri_split. subst s. apply ValidString_split in Hs; [tauto|done].
  - intros raw. apply triple_wrap. eapply triple_weaken; [apply triple_lift|intros s H; exact H|].
    cbn beta. intros v s [Hv Hs]. rewrite UnescapeIRI_unesc in Hv. by eapply unesc_valid.
Qed.

Lemma NewURIRef_inv v u : NewURIRef v = Ok u → isValidIRI v = true ∧ u = NewURIRefUnsafe v.
Proof. unfold NewURIRef. destruct (isValidIRI v); [|done]. by intros [= <-]. Qed.

Lemma triple_term_iri what P : triple P (read_term_iri LineNum what) (λ t _, nt_ok t ∧ node_term t = true).
Proof.
  unfold read_term_iri. eapply triple_bind; [apply triple_wrap, (triple_ReadIRI P)|]. intros v.
  destruct (isAbsoluteIRI v) eqn:Ha; [|apply triple_wrap, triple_err].
  eapply triple_bind; [apply triple_wrap, triple_lift|]. intros u. cbn beta.
  eapply triple_weaken; [apply (triple_ret _ (λ _, NewURIRef v = Ok u ∧ ValidString v = true))|done|].
  cbn beta. intros t s [-> [[Hi ->]%NewURIRef_inv Hv]]. split; [|done]. by exists v.
Qed.

Lemma triple_cached_iri what P :
  triple P (read_cached_iri LineNum what) (λ u _, ∃ v, u = NewURIRefUnsafe v ∧ iri_wf v).
Proof.
  unfold read_cached_iri. eapply triple_bind; [apply triple_wrap, (triple_ReadIRI P)|]. intros v.
  intros p a p' Hp Hv. unfold get_iris. unfold mbind at 1, parserM_bind at 1.
  destruct (cache_Get (IRIs p) v) as [u|] eqn:E.
  - intros [= <- <-]. split; [done|]. destruct Hp as [[Hc _] _]. apply Hc in E as [-> Hw]. by exists v.
  - destruct (isAbsoluteIRI v) eqn:Ha; [|done]. cbn [negb]. unfold liftP, in_line, wrapP, mbind, parserM_bind.
    destruct (NewURIRef v) as [u|] eqn:Eu; [|done]. apply NewURIRef_inv in Eu as [Hi ->].
    intros [= <- <-]. assert (Hw : iri_wf v) by done. split; [|by exists v].
    destruct Hp as [[Hc Hs] Hr]. split; [|exact Hr]. split; [|exact Hs]. cbn. by apply cache_ok_put.
Qed.

Lemma hex_digit_label n : (n < 16)%N → label_rune (byte_val (hex_digit n)) = true ∧ (byte_val (hex_digit n) < 0x80)%N ∧ is_dot (hex_digit n) = false.
Proof.
  intros Hn%hex_digit_alnum. revert Hn. generalize (hex_digit n) as c. intros c H. split_and!; revert H; byte_cases c.
Qed.

Lemma hex_encode_label s :
  ValidString (hex_encode s) = true ∧ forallb label_rune (runes (hex_encode s)) = true ∧
  TrimRightP is_dot (hex_encode s) = hex_encode s.
Proof.
  induction s as [|c s (H1 & H2 & H3)]; [done|]. rewrite hex_encode_cons.
  destruct (hex_digit_label (byte_val c / 16)) as (A1 & A2 & A3).
  { apply N.Div0.div_lt_upper_bound. pose proof (byte_val_bound c). lia. }
  destruct (hex_digit_label (byte_val c mod 16)) as (B1 & B2 & B3); [by apply N.mod_lt|].
  split_and!.
  - by apply ValidString_cons_2; [|apply ValidString_cons_2].
  - rewrite runes_step by done. rewrite DecodeRune_ascii by done. cbn [fst snd sdrop].
    rewrite runes_step by done. rewrite DecodeRune_ascii by done. cbn [fst snd sdrop forallb]. by rewrite A1, B1.
  - cbn [TrimRightP]. rewrite H3, A3, B3. by destruct (hex_encode s).
Qed.

(** The labels of generated nodes. *)
Lemma fresh_label_ok s : label_ok ("N" +:+ hex_encode s).
Proof.
  destruct (hex_encode_label s) as (H1 & H2 & H3). rewrite sapp_cons, sapp_nil_l. split; [|split].
  - by apply ValidString_cons_2.
  - cbn [TrimRightP]. rewrite H3. by destruct (hex_encode s).
  - rewrite runes_step by done. rewrite DecodeRune_ascii by done. by cbn [fst snd sdrop].
Qed.

Lemma Label_sound sc v n b sc' n' :
  scope_fresh uuid sc n → label_ok v → Label uuid sc v n = (Ok b, sc', n') → scope_fresh uuid sc' n' ∧ nt_ok (TBNode b).
Proof using uuid_inj.
  intros Hs Hv HL. split; [by apply (scope_fresh_label uuid sc v n b)|].
  unfold Label in HL. destruct sc as [m|].
  - destruct (m !! v) eqn:E.
    + injection HL as <- <- <-. apply Hs in E as (i & _ & ->). exists ("N" +:+ hex_encode (uuid i)). split; [done|]. apply fresh_label_ok.
    + injection HL as <- <- <-. exists ("N" +:+ hex_encode (uuid n)). split; [done|]. apply fresh_label_ok.
  - pose proof (label_nonempty v Hv). destruct v; [done|]. injection HL as <- <- <-. eexists. by split.
Qed.

Lemma triple_ReadBNode P : (∀ s, P s → HasPrefix s "_:" = true) → triple P (ReadBNode uuid LineNum) (λ b _, nt_ok (TBNode b)).
Proof using uuid_inj.
  intros HP. unfold ReadBNode. apply (triple_bind P _ _ (λ _ _, True)).
  { apply triple_advance. intros s H. apply (prefix_ascii 2 "_:"); [by apply HP|done..]. }
  intros _. apply (triple_bind _ _ _ (λ v _, label_ok v)).
  { apply triple_consume. intros s v r _ Hs H. apply scan_label_sound in H; tauto. }
  intros v p a p' [[Hc Hs] Hv] Hl. unfold label_node.
  destruct (Label uuid (BlankNodes p) v (draws p)) as [[b sc] n] eqn:E. intros [= -> <-].
  apply Label_sound in E as [H1 H2]; [|done..]. split; [|exact H2]. split; [by split|exact Hv].
Qed.

(** The options the suffix of a literal gives. *)
Definition good_options (opts : list LiteralOption) : Prop :=
  opts = [] ∨ (∃ v, opts = [WithDatatype (NewURIRefUnsafe v)] ∧ iri_wf v) ∨
  (∃ t, ValidLanguageTag t = true ∧ (opts = [WithLang t] ∨ ∃ d, (d = "ltr" ∨ d = "rtl") ∧ opts = [WithLang t; WithDir d])).

Lemma lang_options_good s opts : lang_options LineNum s = Ok opts → good_options opts.
Proof.
  unfold lang_options. destruct (Index s "--") as [i|].
  - destruct (negb (bool_decide _) && negb (bool_decide _)) eqn:Ed; [done|].
    rewrite isValidLangTag_regex. destruct (ValidLanguageTag (stake i s)) eqn:Ev; [|done]. intros [= <-].
    right. right. exists (stake i s). split; [done|]. right. eexists. split; [|done].
    apply andb_false_iff in Ed as [Ed|Ed]; bool_cases; auto.
  - rewrite isValidLangTag_regex. destruct (ValidLanguageTag s) eqn:Ev; [|done]. intros [= <-]. right. right. exists s. auto.
Qed.

Lemma prefix_sdrop_ascii q s : HasPrefix s q = true → sforall ascii_byte q = true → ValidString s = true → ValidString (sdrop (len q) s) = true.
Proof. intros Hp Hq Hs. apply ValidString_sdrop; [|done]. by apply (prefix_ascii _ q). Qed.

Lemma triple_suffix P : triple P (read_suffix LineNum) (λ opts _, good_options opts).
Proof.
  unfold read_suffix. eapply triple_bind; [apply triple_peek|]. intros s. cbn beta.
  destruct (HasPrefix s "@") eqn:Hat.
  - destruct (sdrop 1 s) as [|c u] eqn:Es; [apply triple_err|]. destruct (isLetter c); [|apply triple_err].
    apply triple_consume. intros s' opts r [<- _] Hs. destruct (scan_lang (sdrop 1 s)) as [t r'] eqn:El.
    destruct (lang_options LineNum t) as [o|] eqn:Eo; [|done]. intros [= <- <-].
    split; [|by eapply lang_options_good]. apply (prefix_sdrop_ascii "@") in Hs; [|done..]. change (len "@") with 1 in Hs.
    apply scan_lang_split in El as [E2 [->|(d & r & -> & Hd)]]; [done|]. rewrite E2 in Hs.
    apply ValidString_split in Hs as [_ H]; [|done]. by apply ValidString_cons_2.
  - destruct (HasPrefix s "^^") eqn:Hc.
    + apply (triple_bind _ _ _ (λ _ _, True)); [apply triple_advance; intros s' [<- _]; by apply (prefix_ascii 2 "^^")|].
      intros _. eapply triple_bind; [apply triple_cached_iri|]. intros u. cbn beta.
      eapply triple_weaken; [apply (triple_ret _ (λ _, ∃ v, u = NewURIRefUnsafe v ∧ iri_wf v))|done|]. cbn beta.
      intros opts s' [-> (v & -> & Hv)]. right. left. by exists v.
    + eapply triple_weaken; [apply (triple_ret _ (λ _, True))|done|]. intros opts s' [-> _]. by left.
Qed.

Lemma NewLiteral_good v opts :
  ValidString v = true → good_options opts → datatype (NewLiteral (VString v) opts) ≠ RDFLangString ∨ is_empty (lang (NewLiteral (VString v) opts)) = false →
  datatype (NewLiteral (VString v) opts) ≠ RDFDirLangString ∨ is_empty (lang (NewLiteral (VString v) opts)) = false →
  nt_ok (TLiteral (NewLiteral (VString v) opts)).
Proof.
  intros Hv Ho H1 H2. cbn [nt_ok]. split; [|split].
  - apply NewLiteral_lit_wf. destruct Ho as [->|[(u & -> & _)|(t & _ & [->|(d & _ & ->)])]]; repeat constructor.
  - unfold NewLiteral. cbn [goToLexical]. unfold finishLiteral. cbn [lexical]. rewrite shareLexical_id.
    destruct Ho as [->|[(u & -> & _)|(t & Ht & [->|(d & Hd & ->)])]]; cbn [foldl]; unfold WithDatatype, WithLang, WithDir;
      rewrite ?Ht, ?andb_false_r; repeat case_match; exact Hv.
  - intros He. rewrite He in H1, H2. split; [by destruct H1|]. split; [by destruct H2|].
    destruct Ho as [->|[(u & -> & Hu)|(t & Ht & Ho)]].
    + exists (URIRef_value XSDString). split; [reflexivity|]. repeat split; by vm_compute.
    + exists u. split; [reflexivity|done].
    + exfalso. assert (Hne : is_empty (ToLower t) = false).
      { rewrite ToLower_empty. destruct t; [by vm_compute in Ht|done]. }
      revert He. unfold NewLiteral. cbn [goToLexical]. destruct Ho as [->|(d & Hd & ->)]; cbn [foldl]; unfold WithLang, WithDir;
        rewrite Ht, andb_false_r; repeat case_match; unfold finishLiteral; cbn [lang dir]; rewrite ?Hne; cbn [negb lang]; by rewrite ?Hne.
Qed.

Lemma triple_ReadLiteral P : (∀ s, P s → HasPrefix s (str1 dquote) = true) → triple P (ReadLiteral LineNum) (λ l _, nt_ok (TLiteral l)).
Proof.
  intros HP. unfold ReadLiteral. apply (triple_bind _ _ _ (λ v _, ValidString v = true)).
  { apply triple_consume. intros s v r H Hs E. apply HP, HasPrefix_true in H as [t ->].
    rewrite (scan_lexical_enough LineNum _ (S (len t))) in E by (unfold str1; rewrite ?sapp_cons, ?len_cons, ?len_app; cbn [sdrop]; rewrite ?sapp_nil_l; lia).
    change (sdrop 1 (str1 dquote +:+ t)) with t in E. apply lex_valid in E; [tauto|].
    unfold str1 in Hs. rewrite sapp_cons in Hs. by apply ValidString_cons in Hs. }
  intros v. apply (triple_bind _ _ _ (λ opts _, ValidString v = true ∧ good_options opts)).
  { intros p a p' Hp Hv E. destruct (triple_suffix (λ _, True) p a p' Hp I E). auto. }
  intros opts. set (l := NewLiteral (VString v) opts). cbn zeta.
  intros p a p' Hp [Hv Ho] E.
  assert (a = l ∧ p' = p ∧ (datatype l ≠ RDFLangString ∨ is_empty (lang l) = false) ∧
          (datatype l ≠ RDFDirLangString ∨ is_empty (lang l) = false)) as (Ha & Hp' & H1 & H2).
  { destruct (is_empty (lang l)) eqn:El; [|injection E as <- <-; auto].
    destruct (decide (datatype l = RDFLangString)); [done|]. destruct (decide (datatype l = RDFDirLangString)); [done|].
    injection E as <- <-. auto. }
  rewrite Ha, Hp'. split; [done|]. by apply NewLiteral_good.
Qed.

Lemma triple_ReadSubject P : triple P (ReadSubject uuid LineNum) (λ t _, nt_ok t ∧ node_term t = true).
Proof using uuid_inj.
  unfold ReadSubject. eapply triple_bind; [apply triple_spaces|]. intros []. eapply triple_bind; [apply triple_peek|].
  intros s. cbn beta. destruct (is_empty s); [apply triple_err|].
  destruct (HasPrefix s "<"); [apply triple_term_iri|]. destruct (HasPrefix s "_:") eqn:Hb; [|apply triple_err].
  eapply triple_bind; [apply triple_ReadBNode; by intros s' [<- _]|]. intros b. cbn beta.
  eapply triple_weaken; [apply (triple_ret _ (λ _, nt_ok (TBNode b)))|done|]. by intros t s' [-> H].
Qed.

Lemma triple_ReadTripleTerm m :
  (∀ P, triple P m (λ t _, nt_ok t)) → ∀ P, triple P (ReadTripleTerm uuid LineNum m) (λ t _, nt_ok t).
Proof using uuid_inj.
  intros Hm P. unfold ReadTripleTerm. eapply triple_bind; [apply triple_peek|]. intros s. cbn beta.
  destruct (HasPrefix s "<<") eqn:Hs; [|apply triple_err]. cbn [negb].
  apply (triple_bind _ _ _ (λ _ _, True)); [apply triple_advance; intros s' [<- _]; by apply (prefix_ascii 2 "<<")|]. intros [].
  eapply triple_bind; [apply triple_spaces|]. intros []. eapply triple_bind; [by apply triple_expect|]. intros open.
  destruct (negb open); [apply triple_err|].
  eapply triple_bind; [apply triple_wrap, triple_ReadSubject|]. intros subj. cbn beta.
  apply (triple_bind _ _ _ (λ u _, (nt_ok subj ∧ node_term subj = true) ∧ ∃ v, u = NewURIRefUnsafe v ∧ iri_wf v)).
  { intros p a p' Hp Hq E. destruct (triple_wrap _ _ _ _ _ (triple_bind _ _ _ _ _ (triple_spaces (λ _, True)) (λ _, triple_cached_iri "predicate" _)) p a p' Hp I E). auto. }
  intros pred. apply (triple_bind _ _ _ (λ o _, ((nt_ok subj ∧ node_term subj = true) ∧ ∃ v, pred = NewURIRefUnsafe v ∧ iri_wf v) ∧ nt_ok o)).
  { intros p a p' Hp Hq E. destruct (triple_wrap _ _ _ _ _ (Hm (λ _, True)) p a p' Hp I E). auto. }
  intros obj p a p' Hp (([Hs1 Hs2] & Hv) & Ho) E.
  set (rest := SkipSpaces ≫= _) in E.
  assert (Hrest : triple (λ _, True) rest (λ t _, NewTripleTerm (Some subj) pred (Some obj) = Some t)).
  { unfold rest. eapply triple_bind; [apply triple_spaces|]. intros []. eapply triple_bind; [by apply triple_expect|]. intros close.
    destruct (negb close); [apply triple_err|]. eapply triple_bind; [apply triple_spaces|]. intros [].
    eapply triple_bind; [apply triple_peek|]. intros s'. cbn beta. destruct (HasPrefix s' ">>") eqn:Hs'; [|apply triple_err]. cbn [negb].
    apply (triple_bind _ _ _ (λ _ _, True)); [apply triple_advance; intros s2 [<- _]; by apply (prefix_ascii 2 ">>")|]. intros [].
    eapply triple_weaken; [apply (triple_ret _ (λ _, True))|done|]. by intros t s2 [-> _]. }
  destruct (Hrest p a p' Hp I E) as [H1 H2]. split; [done|].
  injection H2 as <-. split_and!; try done.
Qed.

Lemma triple_ReadObject f P : triple P (ReadObject_go uuid LineNum f) (λ t _, nt_ok t).
Proof using uuid_inj.
  revert P. induction f as [|f IH]; intros P; [apply triple_err|]. cbn [ReadObject_go].
  eapply triple_bind; [apply triple_spaces|]. intros []. eapply triple_bind; [apply triple_peek|]. intros s. cbn beta.
  destruct (is_empty s); [apply triple_err|]. destruct (HasPrefix s "<<"); [by apply triple_ReadTripleTerm|].
  destruct (HasPrefix s "<").
  { eapply triple_weaken; [apply triple_term_iri|intros s' H; exact H|]. by intros t s' [H _]. }
  destruct (HasPrefix s "_:") eqn:Hb.
  { eapply triple_bind; [apply triple_ReadBNode; by intros s' [<- _]|]. intros b. cbn beta.
    eapply triple_weaken; [apply (triple_ret _ (λ _, nt_ok (TBNode b)))|done|]. by intros t s' [-> H]. }
  destruct (HasPrefix s (str1 dquote)) eqn:Hd; [|apply triple_err].
  eapply triple_bind; [apply triple_ReadLiteral; by intros s' [<- _]|]. intros l. cbn beta.
  eapply triple_weaken; [apply (triple_ret _ (λ _, nt_ok (TLiteral l)))|done|]. by intros t s' [-> H].
Qed.
End sound.

(** ** The reader ends *)

Section total.
Context (uuid : nat → string) (LineNum : Z).

(** On lines shorter than [n], no run out of fuel, and no text invented. *)
Definition safe {A} (n : nat) (m : parserM A) : Prop :=
  ∀ p, len (lp_rest p) < n → no_fuel_error (m p).1 ∧ len (lp_rest (m p).2) ≤ len (lp_rest p).

Lemma safe_ret {A} n (a : A) : safe n (mret a).
Proof. intros p _. split; [intros e H; discriminate|done]. Qed.

Lemma safe_err {A} n e : errors_Is e "model: out of fuel" = false → safe (A := A) n (perr e).
Proof. intros He p _. split; [by intros e' [= <-]|done]. Qed.

Lemma safe_bind {A B} n (m : parserM A) (f : A → parserM B) : safe n m → (∀ a, safe n (f a)) → safe n (m ≫= f).
Proof.
  intros Hm Hf p Hp. destruct (Hm p Hp) as [H1 H2]. unfold mbind, parserM_bind.
  destruct (m p) as [[a|e] p']; cbn [fst snd] in *.
  - destruct (Hf a p') as [H3 H4]; [lia|]. split; [done|lia].
  - split; [|done]. intros e' [= <-]. by apply H1.
Qed.

Lemma safe_wrap {A} n fmt args (m : parserM A) : safe n m → safe n (wrapP fmt args m).
Proof.
  intros Hm p Hp. destruct (Hm p Hp) as [H1 H2]. unfold wrapP. destruct (m p) as [[a|e] p']; cbn [fst snd] in *; [by split|].
  split; [|done]. intros e' [= <-]. exact (H1 e eq_refl).
Qed.

Lemma safe_peek n : safe n peek.
Proof. intros p _. split; [intros e H; discriminate|done]. Qed.

Lemma safe_lift {A} n (r : result A) : no_fuel_error r → safe n (liftP r).
Proof. intros Hr p _. by split. Qed.

Lemma safe_advance n k : safe n (advance k).
Proof. intros p _. split; [intros e H; discriminate|]. cbn. rewrite len_sdrop. lia. Qed.

Lemma len_TrimLeftP f s : len (TrimLeftP f s) ≤ len s.
Proof. induction s as [|c s IH]; [done|]. cbn [TrimLeftP]. destruct (f c); [rewrite len_cons; lia|done]. Qed.

Lemma safe_spaces n : safe n SkipSpaces.
Proof. intros p _. split; [intros e H; discriminate|]. apply len_TrimLeftP. Qed.

Lemma safe_expect n c : safe n (Expect c).
Proof.
  intros p _. unfold Expect. destruct (lp_rest p) as [|d r] eqn:E; [|destruct (Ascii.eqb d c)];
    (split; [intros e H; discriminate|]); cbn [snd lp_rest set_rest]; rewrite ?E, ?len_cons; lia.
Qed.

Lemma safe_consume {A} n (f : string → result (A * string)) :
  (∀ s, no_fuel_error (f s)) → (∀ s a r, f s = Ok (a, r) → len r ≤ len s) → safe n (consume f).
Proof.
  intros Hf Hl p _. specialize (Hf (lp_rest p)). unfold consume. destruct (f (lp_rest p)) as [[a r]|e] eqn:E.
  - split; [intros e H; discriminate|]. by apply Hl in E.
  - split; [|done]. intros e' [= <-]. by apply Hf.
Qed.

Create HintDb safe discriminated.
#[local] Hint Resolve safe_ret safe_peek safe_advance safe_spaces safe_expect safe_bind safe_wrap safe_lift : safe.
#[local] Hint Extern 1 (safe _ (perr _)) => (apply safe_err; reflexivity) : safe.

(** Split the binds and tests of a reader. *)
Ltac safe :=
  repeat match goal with
  | |- safe _ (_ ≫= _) => apply safe_bind; [|intros ?]
  | |- safe _ (if ?b then _ else _) => destruct b
  | |- safe _ (match ?x with _ => _ end) => destruct x
  | |- safe _ (in_line _ _ _) => apply safe_wrap
  end; auto with safe.

Lemma read_uchar_fuel k e1 e2 e3 s :
  (∀ e, e = e1 ∨ e = e2 ∨ e = e3 → errors_Is e "model: out of fuel" = false) → no_fuel_error (read_uchar k e1 e2 e3 s).
Proof. intros He e. unfold read_uchar. repeat case_match; intros H'; simplify_eq; auto. Qed.

Lemma unescape_fuel f s : len s < f → no_fuel_error (unescape_iri_go f s).
Proof.
  revert s. induction f as [|f IH]; intros s Hf; [lia|]. destruct s as [|c s]; [done|]. rewrite unescape_S. rewrite len_cons in Hf.
  assert (Hstep : no_fuel_error (String c <$> unescape_iri_go f s)).
  { pose proof (IH s ltac:(lia)) as H. destruct (unescape_iri_go f s); [done|]. intros e' [= <-]. by apply H. }
  destruct s as [|d s]; [done|]. destruct (Ascii.eqb c bslash); [|done].
  destruct (iri_escape d s) as [[t r]|e] eqn:E.
  - apply iri_escape_len in E. rewrite len_cons in Hf. pose proof (IH r ltac:(lia)) as H. cbn [mbind result_bind].
    destruct (unescape_iri_go f r); [done|]. intros e' [= <-]. by apply H.
  - intros e' [= <-]. revert E. unfold iri_escape. repeat case_match; [intros H'..|by intros [= <-]];
      by eapply (read_uchar_fuel _ _ _ _ _); [|exact H']; intros ? [->|[->| ->]].
Qed.

Lemma scan_escape_fuel d s : no_fuel_error (scan_escape LineNum d s).
Proof.
  intros e. unfold scan_escape. repeat case_match; [done|intros H'..|by intros [= <-]];
    by eapply (read_uchar_fuel _ _ _ _ _); [|exact H']; intros ? [->|[->| ->]].
Qed.

Lemma scan_lexical_fuel f s : len s < f →
  no_fuel_error (scan_lexical LineNum f s) ∧ ∀ v r, scan_lexical LineNum f s = Ok (v, r) → len r ≤ len s.
Proof.
  revert s. induction f as [|f IH]; intros s Hf; [lia|]. destruct s as [|c s]; [by split; [intros e [= <-]|]|].
  rewrite scan_lexical_S. rewrite len_cons in Hf. destruct (Ascii.eqb c bslash).
  - destruct s as [|d s]; [by split; [intros e [= <-]|]|]. pose proof (scan_escape_fuel d s) as Hd.
    destruct (scan_escape LineNum d s) as [[t r]|e] eqn:E; cbn [mbind result_bind].
    + apply scan_escape_len in E. rewrite len_cons in Hf. destruct (IH r ltac:(lia)) as [H1 H2].
      destruct (scan_lexical LineNum f r) as [[v r']|e]; split; try done.
      intros ? ? [= <- <-]. specialize (H2 _ _ eq_refl). rewrite !len_cons. lia.
    + split; [|done]. intros e' [= <-]. by apply Hd.
  - destruct (Ascii.eqb c dquote); [split; [done|]; intros ? ? [= <- <-]; rewrite len_cons; lia|].
    destruct (IH s ltac:(lia)) as [H1 H2]. destruct (scan_lexical LineNum f s) as [[v r']|e]; split; try done.
    intros ? ? [= <- <-]. specialize (H2 _ _ eq_refl). rewrite !len_cons. lia.
Qed.

Lemma scan_iri_fuel s : no_fuel_error (scan_iri LineNum s).
Proof.
  induction s as [s IH] using string_len_ind. destruct s as [|c s]; [by intros e [= <-]|]. cbn [scan_iri].
  destruct (Ascii.eqb c ">"); [done|]. destruct (Ascii.eqb c bslash).
  - destruct s as [|d s]; [by intros e [= <-]|]. pose proof (IH s ltac:(rewrite !len_cons; lia)) as H.
    destruct (scan_iri LineNum s) as [[]|]; [done|]. intros e' [= <-]. by apply H.
  - destruct (byte_val c <=? 32)%N; [by intros e [= <-]|]. pose proof (IH s ltac:(rewrite !len_cons; lia)) as H.
    destruct (scan_iri LineNum s) as [[]|]; [done|]. intros e' [= <-]. by apply H.
Qed.

Lemma safe_ReadIRI n : safe n (ReadIRI LineNum).
Proof.
  unfold ReadIRI. safe.
  - apply safe_consume; [apply scan_iri_fuel|]. intros s raw r H%scan_iri_split. subst s. rewrite len_app, len_cons. lia.
  - apply safe_wrap, safe_lift. rewrite UnescapeIRI_unesc. apply unescape_fuel. lia.
Qed.

Lemma NewURIRef_fuel v : no_fuel_error (NewURIRef v).
Proof. unfold NewURIRef. case_match; [|done]. by intros e [= <-]. Qed.

#[local] Hint Resolve safe_ReadIRI NewURIRef_fuel : safe.

Lemma safe_term_iri n what : safe n (read_term_iri LineNum what).
Proof. unfold read_term_iri. safe. Qed.

Lemma safe_cached_iri n what : safe n (read_cached_iri LineNum what).
Proof.
  unfold read_cached_iri. safe.
  - intros p _. by split.
  - intros p _. by split.
Qed.

Lemma len_TrimRightP f s : len (TrimRightP f s) ≤ len s.
Proof.
  induction s as [|c s IH]; [done|]. cbn [TrimRightP]. destruct (TrimRightP f s); rewrite !len_cons in *; [|lia].
  destruct (f c); [rewrite len_nil; lia|]. unfold str1. rewrite len_cons, len_nil. lia.
Qed.

Lemma safe_ReadBNode n : safe n (ReadBNode uuid LineNum).
Proof.
  unfold ReadBNode. safe.
  - apply safe_consume.
    + intros s e. unfold scan_label. repeat case_match; intros H'; simplify_eq; done.
    + intros s v r. unfold scan_label. repeat case_match; intros H'; simplify_eq. rewrite len_sdrop. lia.
  - intros p _. unfold label_node. destruct (Label uuid _ _ _) as [[b sc] k] eqn:E. cbn [fst snd lp_rest]. split; [|done].
    revert E. unfold Label, NewBNode. repeat case_match; intros H'; simplify_eq; done.
Qed.

Lemma safe_suffix n : safe n (read_suffix LineNum).
Proof.
  unfold read_suffix. safe; [|apply safe_cached_iri].
  apply safe_consume.
  - intros x e. destruct (scan_lang _) as [t r]. unfold lang_options. repeat case_match; cbn [mbind result_bind];
      intros H'; simplify_eq; done.
  - intros x v r. destruct (scan_lang (sdrop 1 x)) as [t r'] eqn:E. apply scan_lang_split in E as [E _].
    destruct (lang_options LineNum t); [|done]. intros [= <- <-]. apply (f_equal len) in E. rewrite len_sdrop, len_app in E. lia.
Qed.

Lemma safe_ReadLiteral n : safe n (ReadLiteral LineNum).
Proof.
  unfold ReadLiteral. apply safe_bind.
  - apply safe_consume.
    + intros s. apply scan_lexical_fuel. rewrite len_sdrop. lia.
    + intros s v r H. apply scan_lexical_fuel in H; rewrite len_sdrop in *; lia.
  - intros v. apply safe_bind; [apply safe_suffix|]. intros opts. cbn zeta. safe.
Qed.

#[local] Hint Resolve safe_term_iri safe_cached_iri safe_ReadBNode safe_ReadLiteral : safe.

Lemma safe_ReadSubject n : safe n (ReadSubject uuid LineNum).
Proof. unfold ReadSubject. safe. Qed.

(** A triple term takes its two opening brackets off the line. *)
Lemma safe_ReadTripleTerm f m : safe f m → safe (S f) (ReadTripleTerm uuid LineNum m).
Proof.
  intros Hm p Hp. unfold ReadTripleTerm. erewrite bindP by reflexivity.
  destruct (HasPrefix (lp_rest p) "<<") eqn:E; [|by apply (safe_err (S f))]. cbn [negb].
  erewrite bindP by reflexivity. apply HasPrefix_true in E as [t Ht].
  match goal with |- no_fuel_error (?k ?q).1 ∧ _ => assert (Hk : safe f k) end.
  { safe; [apply safe_ReadSubject|]. unfold ReadPredicate. safe. }
  rewrite Ht in *. change (sdrop 2 ("<<" +:+ t)) with t. rewrite len_app in Hp. change (len "<<") with 2 in Hp.
  destruct (Hk (set_rest t p)) as [H1 H2]; [cbn; lia|]. split; [exact H1|].
  rewrite len_app. cbn [lp_rest set_rest] in H2. change (len "<<") with 2. lia.
Qed.

Lemma safe_ReadObject f : safe f (ReadObject_go uuid LineNum f).
Proof.
  induction f as [|f IH]; [intros p Hp; lia|]. cbn [ReadObject_go]. safe. by apply safe_ReadTripleTerm.
Qed.
End total.

(** ** The properties *)

(** C35: on UTF-8 text the reader accepts only terms the writer can write: a subject is an
    IRI or a blank node, a predicate is an absolute IRI without the characters
    IRIs exclude, and every object, triple terms included, is a term that
    [Term] serializes without an error.  The rest of the line stays UTF-8. *)
Theorem reader_accepts_writable : ∀ uuid LineNum p,
  (∀ i j, uuid i = uuid j → i = j) → parser_ok uuid p → ValidString (lp_rest p) = true →
  (∀ t p', ReadSubject uuid LineNum p = (Ok t, p') →
     nt_ok t ∧ node_term t = true ∧ is_Ok (write_term t) = true ∧ ValidString (lp_rest p') = true) ∧
  (∀ u p', ReadPredicate LineNum p = (Ok u, p') →
     nt_ok (TURIRef u) ∧ is_Ok (write_term (TURIRef u)) = true ∧ ValidString (lp_rest p') = true) ∧
  (∀ t p', ReadObject uuid LineNum p = (Ok t, p') →
     nt_ok t ∧ is_Ok (write_term t) = true ∧ ValidString (lp_rest p') = true).
Proof.
  intros uuid n p Hu Hok Hv. split_and!.
  - intros t p' H. destruct (triple_ReadSubject uuid n Hu (λ _, True) p t p' (conj Hok Hv) I H) as [[_ H1] [H2 H3]].
    split_and!; auto using write_term_total.
  - intros u p' H.
    destruct (triple_bind uuid _ _ _ _ _ (triple_spaces uuid (λ _, True)) (λ _, triple_cached_iri uuid n "predicate" _) p u p' (conj Hok Hv) I H)
      as [[_ H1] H2].
    assert (H3 : nt_ok (TURIRef u)) by exact H2. split_and!; auto using write_term_total.
  - intros t p' H. destruct (triple_ReadObject uuid n Hu _ (λ _, True) p t p' (conj Hok Hv) I H) as [[_ H1] H2].
    split_and!; auto using write_term_total.
Qed.

Definition ex_line : LineParser :=
  MkLineParser ("<http://example.org/" +:+ encode_rune 233%N +:+ "> .") (New_scope false) New_cache 0.

Lemma reader_accepts_writable_witness :
  nt_ok (TURIRef (NewURIRefUnsafe ("http://example.org/" +:+ encode_rune 233%N))).
Proof.
  apply (proj2 (proj2 (reader_accepts_writable pretty.pretty_nat 1 ex_line hex_uuid_inj
    (conj (cache_ok_new _) (scope_fresh_new _ 0)) eq_refl)) _ (set_rest " ." ex_line)).
  vm_compute. reflexivity.
Defined.

(** Bytes that are not UTF-8 are read as the text of a literal and refused by the
    writer. *)
Lemma ex_invalid_utf8_accepted :
  let line := MkLineParser (str1 dquote +:+ str1 "255" +:+ str1 dquote +:+ " .") (New_scope false) New_cache 0 in
  let l := NewLiteral (VString (str1 "255")) [] in
  (ReadObject pretty.pretty_nat 1 line).1 = Ok (TLiteral l) ∧
  match write_term (TLiteral l) with Err e => errors_Is e "invalid UTF-8 cannot be written in N-Triples or N-Quads" | Ok _ => false end = true.
Proof. split; vm_compute; reflexivity. Qed.

(** the reader ends on every line, with a term or an error of the syntax: the nesting of
    triple terms and the loops over a literal and an IRI are bounded by the
    length of the line. *)
Theorem reader_terminates : ∀ uuid LineNum p,
  no_fuel_error (ReadSubject uuid LineNum p).1 ∧ no_fuel_error (ReadPredicate LineNum p).1 ∧
  no_fuel_error (ReadObject uuid LineNum p).1 ∧ len (lp_rest (ReadObject uuid LineNum p).2) ≤ len (lp_rest p).
Proof.
  intros uuid n p. pose proof (safe_ReadObject uuid n (S (len (lp_rest p))) p ltac:(lia)) as [H1 H2].
  split_and!; [..|exact H1|exact H2].
  - apply (safe_ReadSubject uuid n (S (len (lp_rest p))) p). lia.
  - apply (safe_bind (S (len (lp_rest p))) SkipSpaces); [apply safe_spaces|intros ?; apply safe_cached_iri|lia].
Qed.
