(* ===== verification/LineReader.v ===== *)
(** * Reading lines, and stopping

    [internal/ntsyntax/linereader.go], the lines of a document, and
    [internal/stream/stream.go], the reasons a parse stops.  An [io.Reader] is the
    text it delivers and the error it then returns in place of EOF. *)

From S2P Require Import Prelude GoStrings Strconv.
From stdpp Require Import options.

Record Reader := MkReader { rd_data : string; rd_err : option error }.

(** What a call of [NextLine] returns: a line, EOF or another error. *)
Inductive line_result :=
| Line (s : string)
| EOF
| LineErr (e : error).

Definition ErrLineTooLong : error := Sentinel "line exceeds maximum length".

(** [bufio.MaxScanTokenSize], and the buffer [NewLineReader] gives the scanner. *)
Definition MaxScanTokenSize : Z := 65536.

Definition is_eol (c : ascii) : bool := Ascii.eqb c cr || Ascii.eqb c lf.

(** [bufio.ScanLines] drops one carriage return. *)
Definition dropCR (s : string) : string := TrimSuffix s (str1 cr).

(** The unbounded reader: [bufio.Reader.ReadString('\n')]. *)
Definition next_unbounded (r : Reader) : line_result * Reader :=
  match IndexByte (rd_data r) lf with
  | Some i => (Line (TrimRightP is_eol (stake (S i) (rd_data r))), MkReader (sdrop (S i) (rd_data r)) (rd_err r))
  | None =>
      let rest := MkReader EmptyString (rd_err r) in
      match rd_err r with
      | None => if is_empty (rd_data r) then (EOF, rest) else (Line (TrimRightP is_eol (rd_data r)), rest)
      | Some e => (LineErr e, rest)
      end
  end.

(** The scanner: its buffer holds the larger of [maxLineLen] and 64 KiB, and a
    line that does not fit with its newline stops it. *)
Definition next_scanned (maxLineLen : Z) (r : Reader) : line_result * Reader :=
  let limit := if (0 <? maxLineLen)%Z then maxLineLen else MaxScanTokenSize in
  let size := Z.max limit MaxScanTokenSize in
  let too_long :=
    (LineErr (Wrapf "%w (%d bytes); raise it with WithMaxLineLength or remove it with WithUnboundedLines" [FormatInt limit] ErrLineTooLong), r) in
  match IndexByte (rd_data r) lf with
  | Some i =>
      if (Z.of_nat i <? size)%Z
      then (Line (dropCR (stake i (rd_data r))), MkReader (sdrop (S i) (rd_data r)) (rd_err r))
      else too_long
  | None =>
      if (size <=? Z.of_nat (len (rd_data r)))%Z then too_long
      else
        let rest := MkReader EmptyString (rd_err r) in
        if is_empty (rd_data r) then
          match rd_err r with Some e => (LineErr e, rest) | None => (EOF, rest) end
        else (Line (dropCR (rd_data r)), rest)
  end.

Definition NewLineReader (maxLineLen : Z) (unbounded : bool) : Reader → line_result * Reader :=
  if unbounded then next_unbounded else next_scanned maxLineLen.

(** ** [stream.Stopper]

    The context is what its [Err] returns on each poll, [None] for a context
    that can never be done. *)
Definition PollContext : Type := option (nat → option error).

Record Stopper := MkStopper { st_ctx : PollContext; st_polls : nat; st_n : Z; st_err : option error }.

Definition pollEvery : Z := 1024.

Definition New_stopper (ctx : PollContext) : Stopper := MkStopper ctx 0 0 None.

Definition Fail (s : Stopper) (e : option error) : Stopper :=
  match st_err s, e with
  | None, Some e => MkStopper (st_ctx s) (st_polls s) (st_n s) (Some e)
  | _, _ => s
  end.

Definition Poll (s : Stopper) : option error * Stopper :=
  match st_err s, st_ctx s with
  | None, Some ctx =>
      let err := (λ e, Wrapf "parse stopped: %w" [] e) <$> ctx (st_polls s) in
      (err, MkStopper (st_ctx s) (S (st_polls s)) (st_n s) err)
  | err, _ => (err, s)
  end.

Definition Tick (s : Stopper) : option error * Stopper :=
  match st_err s, st_ctx s with
  | None, Some _ =>
      let n := (st_n s + 1)%Z in
      if (pollEvery <=? n)%Z then Poll (MkStopper (st_ctx s) (st_polls s) 0 None)
      else (None, MkStopper (st_ctx s) (st_polls s) n None)
  | err, _ => (err, s)
  end.

(** [Err]. *)
Definition stopper_Err (s : Stopper) : option error := st_err s.

(** [reader.Read]: a reader that fails once there is a reason to stop; [read] is
    the [Read] of the wrapped reader, its bytes and its error. *)
Definition reader_Read {R} (read : R → (string * option error) * R) (s : Stopper) (r : R)
    : (string * option error) * Stopper * R :=
  match Poll s with
  | (Some err, s) => ((EmptyString, Some err), s, r)
  | (None, s) => let '(res, r) := read r in (res, s, r)
  end.

(** ** Lemmas *)

(** Every line that is delivered shortens the text, so a document of [n] bytes has
    at most [n] lines. *)
Lemma next_line_shrinks m u r l r' : NewLineReader m u r = (Line l, r') → len (rd_data r') < len (rd_data r).
Proof.
  assert (Hi : ∀ i, IndexByte (rd_data r) lf = Some i → len (sdrop (S i) (rd_data r)) < len (rd_data r)).
  { intros i (a & b & E & <- & _)%IndexByte_Some. rewrite len_sdrop, E, len_app, len_cons. lia. }
  assert (He : is_empty (rd_data r) = false → len (EmptyString) < len (rd_data r)).
  { destruct (rd_data r); [done|]. rewrite len_nil, len_cons. lia. }
  unfold NewLineReader, next_unbounded, next_scanned. destruct u; repeat case_match; intros H'; simplify_eq; cbn [rd_data]; auto.
Qed.

(** A done context is noticed within [pollEvery] statements. *)
Lemma Tick_counts s : st_err s = None → (0 <= st_n s < pollEvery)%Z → (0 <= st_n (Tick s).2 < pollEvery)%Z.
Proof.
  intros He Hn. unfold Tick. rewrite He. destruct (st_ctx s) as [c|] eqn:E; [|done].
  destruct (Z.leb_spec pollEvery (st_n s + 1)); cbn; [unfold pollEvery; lia|]. unfold pollEvery in *. lia.
Qed.
