(* ===== verification/NTriples.v ===== *)
(** * N-Triples and N-Quads documents

    Packages [nt] (parser.go, serializer.go, options.go) and [nq] (parser.go,
    serializer.go, writer.go, options.go): the loop over the lines of a document,
    which the two packages have in the same shape, and the writers of graphs.

    A callback is a function on a state [S] of its own: the store a graph lives
    in, or whatever a caller's handler captures. *)

From S2P Require Import Prelude GoStrings GoSort Utf8 Strconv Term Decode ParseScope NTSyntax LineReader Store Graph.
From stdpp Require Import sorting options.

(** ** Options *)

Section options.
Context {S : Type} {T : Type}.

(** [ErrorHandler]: the fixed line and whether to retry. *)
Definition ErrorHandler : Type := Z → string → error → S → (string * bool) * S.
(** [ProvenanceHandler]: the statement and its line. *)
Definition ProvenanceHandler : Type := T → Z → S → S.

Record config := MkConfig {
  cfg_base : string;
  errorHandler : option ErrorHandler;
  provenance : option ProvenanceHandler;
  maxLineLen : Z;
  unbounded : bool;
  preserveBlankNodeIDs : bool
}.
Definition zero_config : config := MkConfig EmptyString None None 0 false false.

Definition Option_ : Type := config → config.
Definition WithPreserveBlankNodeIDs : Option_ := λ c,
  MkConfig (cfg_base c) (errorHandler c) (provenance c) (maxLineLen c) (unbounded c) true.
Definition WithBase (base : string) : Option_ := λ c,
  MkConfig base (errorHandler c) (provenance c) (maxLineLen c) (unbounded c) (preserveBlankNodeIDs c).
Definition WithErrorHandler (h : ErrorHandler) : Option_ := λ c,
  MkConfig (cfg_base c) (Some h) (provenance c) (maxLineLen c) (unbounded c) (preserveBlankNodeIDs c).
Definition WithProvenance (h : ProvenanceHandler) : Option_ := λ c,
  MkConfig (cfg_base c) (errorHandler c) (Some h) (maxLineLen c) (unbounded c) (preserveBlankNodeIDs c).
Definition WithMaxLineLength (n : Z) : Option_ := λ c,
  MkConfig (cfg_base c) (errorHandler c) (provenance c) n (unbounded c) (preserveBlankNodeIDs c).
Definition WithUnboundedLines : Option_ := λ c,
  MkConfig (cfg_base c) (errorHandler c) (provenance c) (maxLineLen c) true (preserveBlankNodeIDs c).

Definition apply_options (opts : list Option_) : config := foldl (λ c o, o c) zero_config opts.
End options.
Arguments ErrorHandler : clear implicits.
Arguments ProvenanceHandler : clear implicits.
Arguments config : clear implicits.
Arguments Option_ : clear implicits.

(** ** The loop over the lines *)

(** The parts of a parse that outlive a line. *)
Record shared := MkShared { sh_scope : Scope; sh_iris : Cache; sh_draws : nat }.

Definition new_shared (preserve : bool) (n : nat) : shared := MkShared (New_scope preserve) New_cache n.

Definition on_line (line : string) (sh : shared) : LineParser :=
  MkLineParser line (sh_scope sh) (sh_iris sh) (sh_draws sh).
Definition after_line (p : LineParser) : shared := MkShared (BlankNodes p) (IRIs p) (draws p).

Section lines.
Context {S T : Type}.
(** The statement of a line, and the handler it is given to. *)
Context (read_line : Z → parserM T) (handler : T → S → option error * S).
Implicit Types (cfg : config S T) (sh : shared) (hErr : option error).

(** [parseNTLine] and [parseNQLine]: the error of the line, the parse state, the
    error the handler returned last and the handler's state. *)
Definition parse_line cfg (line : string) (lineNum : Z) sh hErr (s : S) : option error * shared * option error * S :=
  match read_line lineNum (on_line line sh) with
  | (Err e, p) => (Some e, after_line p, hErr, s)
  | (Ok t, p) =>
      match handler t s with
      | (Some e, s) => (Some (Wrapf "line %d: %w" [FormatInt lineNum] e), after_line p, Some e, s)
      | (None, s) =>
          (None, after_line p, None, match provenance cfg with Some prov => prov t lineNum s | None => s end)
      end
  end.

(** What one line does to the parse: its error stops it. *)
Definition handle_line cfg (raw : string) (lineNum : Z) sh hErr (s : S) : option error * shared * option error * S :=
  let line := TrimSpace raw in
  if is_empty line || HasPrefix line "#" then (None, sh, hErr, s)
  else match parse_line cfg line lineNum sh hErr s with
  | (None, sh, hErr, s) => (None, sh, hErr, s)
  | (Some err, sh, hErr, s) =>
      match hErr with
      | Some _ => (Some err, sh, hErr, s)
      | None =>
          match errorHandler cfg with
          | None => (Some err, sh, hErr, s)
          | Some eh =>
              let '(fixedLine, retry, s) := eh lineNum line err s in
              if retry then
                match parse_line cfg fixedLine lineNum sh hErr s with
                | (None, sh, hErr, s) => (None, sh, hErr, s)
                | (Some err2, sh, hErr, s) =>
                    (Some (Wrapf "line %d: retry failed: %w" [FormatInt lineNum] err2), sh, hErr, s)
                end
              else (None, sh, hErr, s)
          end
      end
  end.

(** The loop: every line that is delivered shortens the text, so its length is
    enough fuel. *)
Fixpoint lines_loop (fuel : nat) cfg (r : Reader) (stop : Stopper) (lineNum : Z) sh hErr (s : S) : option error * S :=
  match fuel with
  | O => (Some ErrFuel, s)
  | Datatypes.S fuel =>
      match NewLineReader (maxLineLen cfg) (unbounded cfg) r with
      | (EOF, _) => (None, s)
      | (LineErr e, _) =>
          (Some (if errors_Is e "line exceeds maximum length" then Wrapf "line %d: %w" [FormatInt (lineNum + 1)] e else e), s)
      | (Line raw, r) =>
          match Tick stop with
          | (Some e, _) => (Some (Wrapf "line %d: %w" [FormatInt (lineNum + 1)] e), s)
          | (None, stop) =>
              match handle_line cfg raw (lineNum + 1) sh hErr s with
              | (Some e, _, _, s) => (Some e, s)
              | (None, sh, hErr, s) => lines_loop fuel cfg r stop (lineNum + 1) sh hErr s
              end
          end
      end
  end.

(** [parseLines]; [n] UUIDs have been drawn before. *)
Definition parse_lines (ctx : PollContext) (r : Reader) (opts : list (Option_ S T)) (n : nat) (s : S) : option error * S :=
  match Poll (New_stopper ctx) with
  | (Some e, _) => (Some e, s)
  | (None, stop) =>
      let cfg := apply_options opts in
      lines_loop (Datatypes.S (len (rd_data r))) cfg r stop 0 (new_shared (preserveBlankNodeIDs cfg) n) None s
  end.
End lines.

(** ** Package [nt] *)

Section nt.
Context (uuid : nat → string).

Definition read_nt_statement (lineNum : Z) : parserM Triple :=
  subj ← ReadSubject uuid lineNum;
  SkipSpaces ≫= λ _,
  pred ← ReadPredicate lineNum;
  SkipSpaces ≫= λ _,
  obj ← ReadObject uuid lineNum;
  SkipSpaces ≫= λ _,
  dot ← Expect ".";
  if negb dot then perr (line_err lineNum "expected '.'") else mret (MkTriple subj pred obj).

Definition nt_parseNTLine {S} := parse_line (S := S) read_nt_statement.
Definition nt_parseLines {S} := parse_lines (S := S) read_nt_statement.

Definition nt_ParseStreamContext {S} (ctx : PollContext) (r : Reader) (h : option (Triple → S → option error * S))
    (opts : list (Option_ S Triple)) (n : nat) (s : S) : option error * S :=
  match h with
  | None => (Some (Errorf "nt.ParseStream: handler must not be nil" []), s)
  | Some h => nt_parseLines h ctx r opts n s
  end.

Definition nt_ParseStream {S} (r : Reader) (h : option (Triple → S → option error * S)) (opts : list (Option_ S Triple))
    (n : nat) (s : S) : option error * S :=
  nt_ParseStreamContext None r h opts n s.

Definition as_error (r : result unit) : option error := match r with Ok _ => None | Err e => Some e end.

(** [Parse] into a graph: [ctx] is both polled and given to the store, whose
    calls all see [store_ctx]. *)
Definition nt_Parse {St} `{Store St} (ctx : PollContext) (store_ctx : Context) (g : Graph_) (r : Reader)
    (opts : list (Option_ St Triple)) (n : nat) (st : St) : option error * St :=
  nt_parseLines (λ t st, let '(res, st) := g_Add store_ctx g (Subject t) (Predicate t) (Object t) st in (as_error res, st))
    ctx r opts n st.
End nt.

Definition ntTriple (t : Triple) : result string :=
  s ← write_term (Subject t);
  p ← write_term (TURIRef (Predicate t));
  o ← write_term (Object t);
  Ok (s +:+ " " +:+ p +:+ " " +:+ o +:+ " .").

Section serialize.
Context {St : Type} `{Store St}.
(** The destination: [Write] of an [io.Writer], whose state is [W]. *)
Context {W : Type} (write : string → W → option error * W).

(** The loop over the triples of the graph. *)
Fixpoint graph_lines (format : string) (line : Triple → result string) (seq : TripleIterator) : result (list string) :=
  match seq with
  | [] => Ok []
  | Err e :: _ => Err (Wrapf format [] e)
  | Ok t :: seq => l ← line t; ls ← graph_lines format line seq; Ok (l :: ls)
  end.

Fixpoint write_lines (lines : list string) (w : W) : option error * W :=
  match lines with
  | [] => (None, w)
  | l :: lines => match write (l +:+ str1 lf) w with
                  | (Some e, w) => (Some e, w)
                  | (None, w) => write_lines lines w
                  end
  end.

Definition nt_Serialize (ctx : Context) (g : Graph_) (st : St) (w : W) : option error * W :=
  match g_Len ctx g st with
  | Err e => (Some (Wrapf "nt: serialize: %w" [] e), w)
  | Ok _ =>
      match graph_lines "nt: serialize: %w" ntTriple (g_Triples ctx g None None None st) with
      | Err e => (Some e, w)
      | Ok lines => write_lines (Sort lines) w
      end
  end.

(** ** Package [nq] *)

Definition formatLine (s : Term) (p : URIRef) (o : Term) (suffix : string) : result string :=
  st ← write_term s;
  pt ← write_term (TURIRef p);
  ot ← write_term o;
  Ok (st +:+ " " +:+ pt +:+ " " +:+ ot +:+ suffix +:+ " .").

(** The graph name of a line: none for the default graph. *)
Definition graphSuffix (graph : option Term) : result string :=
  match graph with
  | Some id => if IsDefaultGraph (Some id) then Ok EmptyString else t ← write_term id; Ok (" " +:+ t)
  | None => Ok EmptyString
  end.

Definition nq_Serialize (ctx : Context) (g : Graph_) (st : St) (w : W) : option error * W :=
  match g_Len ctx g st with
  | Err e => (Some (Wrapf "nq: serialize: %w" [] e), w)
  | Ok _ =>
      match graphSuffix (identifier g) with
      | Err e => (Some e, w)
      | Ok suffix =>
          match graph_lines "nq: serialize: %w" (λ t, formatLine (Subject t) (Predicate t) (Object t) suffix)
                  (g_Triples ctx g None None None st) with
          | Err e => (Some e, w)
          | Ok lines => write_lines (Sort lines) w
          end
      end
  end.

(** [Writer]: a [bufio.Writer] over the destination, which keeps the error it
    met, and the writer's own. *)
Record bufio := MkBufio { bw_buf : string; bw_err : option error; bw_dest : W }.
Definition bufio_size : nat := Z.to_nat 4096.

Definition bw_Flush (b : bufio) : bufio :=
  match bw_err b with
  | Some _ => b
  | None =>
      if is_empty (bw_buf b) then b
      else match write (bw_buf b) (bw_dest b) with
           | (Some e, w) => MkBufio (bw_buf b) (Some e) w
           | (None, w) => MkBufio EmptyString None w
           end
  end.

(** [WriteString]: fill the buffer, flush it, and go on with the rest. *)
Fixpoint bw_WriteString (fuel : nat) (s : string) (b : bufio) : bufio :=
  match bw_err b with
  | Some _ => b
  | None =>
      let avail := bufio_size - len (bw_buf b) in
      if len s <=? avail then MkBufio (bw_buf b +:+ s) None (bw_dest b)
      else match fuel with
           | O => b
           | S fuel => bw_WriteString fuel (sdrop avail s)
                         (bw_Flush (MkBufio (bw_buf b +:+ stake avail s) None (bw_dest b)))
           end
  end.

Record Writer := MkWriter { w_bufio : bufio; w_err : option error }.
Definition NewWriter (w : W) : Writer := MkWriter (MkBufio EmptyString None w) None.

Definition bw_put (s : string) (b : bufio) : option error * bufio :=
  let b := bw_WriteString (S (len s)) s b in (bw_err b, b).

Definition w_Write (s : Term) (p : URIRef) (o : Term) (graph : option Term) (w : Writer) : option error * Writer :=
  match w_err w with
  | Some e => (Some e, w)
  | None =>
      match (suffix ← graphSuffix graph; formatLine s p o suffix) with
      | Err e => (Some e, w)
      | Ok line =>
          match bw_put line (w_bufio w) with
          | (Some e, b) => (Some e, MkWriter b (Some e))
          | (None, b) => let '(err, b) := bw_put (str1 lf) b in (err, MkWriter b err)
          end
      end
  end.

Definition w_WriteQuad (q : Quad) (w : Writer) : option error * Writer :=
  let t := quad_Triple q in w_Write (Subject t) (Predicate t) (Object t) (Term.Graph q) w.

Fixpoint w_WriteGraph_go (id : option Term) (seq : TripleIterator) (w : Writer) : option error * Writer :=
  match seq with
  | [] => (None, w)
  | Err e :: _ => (Some (Wrapf "nq: write graph: %w" [] e), w)
  | Ok t :: seq =>
      match w_Write (Subject t) (Predicate t) (Object t) id w with
      | (Some e, w) => (Some e, w)
      | (None, w) => w_WriteGraph_go id seq w
      end
  end.
Definition w_WriteGraph (ctx : Context) (g : Graph_) (st : St) (w : Writer) : option error * Writer :=
  w_WriteGraph_go (identifier g) (g_Triples ctx g None None None st) w.

Definition w_Flush (w : Writer) : option error * Writer :=
  match w_err w with
  | Some e => (Some e, w)
  | None => let b := bw_Flush (w_bufio w) in (bw_err b, MkWriter b (bw_err b))
  end.
End serialize.

Section nq.
Context (uuid : nat → string).

Definition nq_statement : Type := Triple * option Term.

Definition read_nq_statement (lineNum : Z) : parserM nq_statement :=
  subj ← ReadSubject uuid lineNum;
  SkipSpaces ≫= λ _,
  pred ← ReadPredicate lineNum;
  SkipSpaces ≫= λ _,
  obj ← ReadObject uuid lineNum;
  SkipSpaces ≫= λ _,
  graphCtx ← ReadGraphLabel uuid lineNum;
  SkipSpaces ≫= λ _,
  dot ← Expect ".";
  if negb dot then perr (line_err lineNum "expected '.'") else mret (MkTriple subj pred obj, graphCtx).

(** The quad handler [qh] sees a statement before [h] does. *)
Definition with_quad_handler {S} (qh : option (nq_statement → S → S)) (h : nq_statement → S → option error * S)
    : nq_statement → S → option error * S :=
  λ q s, h q (match qh with Some f => f q s | None => s end).

Definition nq_parseLines {S} (h : nq_statement → S → option error * S) (qh : option (nq_statement → S → S)) :=
  parse_lines (S := S) read_nq_statement (with_quad_handler qh h).

Definition nq_ParseStreamContext {S} (ctx : PollContext) (r : Reader) (h : option (nq_statement → S → option error * S))
    (opts : list (Option_ S nq_statement)) (n : nat) (s : S) : option error * S :=
  match h with
  | None => (Some (Errorf "nq.ParseStream: handler must not be nil" []), s)
  | Some h => nq_parseLines h None ctx r opts n s
  end.
Definition nq_ParseStream {S} (r : Reader) (h : option (nq_statement → S → option error * S))
    (opts : list (Option_ S nq_statement)) (n : nat) (s : S) : option error * S :=
  nq_ParseStreamContext None r h opts n s.

(** [Parse]: every triple goes to the graph, whatever its graph name. *)
Definition nq_Parse {St} `{Store St} (ctx : PollContext) (store_ctx : Context) (g : Graph_) (r : Reader)
    (qh : option (nq_statement → St → St)) (opts : list (Option_ St nq_statement)) (n : nat) (st : St) : option error * St :=
  nq_parseLines (λ q st, let '(res, st) := g_Add store_ctx g (Subject q.1) (Predicate q.1) (Object q.1) st in (as_error res, st))
    qh ctx r opts n st.
End nq.
