(* ===== verification/NTDocument.v ===== *)
(** * Documents read back what was serialized

    Lines of N-Triples and N-Quads as the writers produce them, the loop that
    reads them, and the graph that results. *)

From S2P Require Import Prelude GoStrings GoSort Utf8 Strconv Term Decode TermKey ParseScope NTSyntax NTReadBack NTRoundTrip NTSound LineReader TripleIndex Store MemoryStore Graph Dataset Collection NTriples.
From stdpp Require Import sorting pretty options.

(** ** Written terms have no control characters *)

Definition visible (c : ascii) : bool := (0x20 <=? byte_val c)%N.

Lemma alnum_visible s : sforall is_alnum s = true → sforall visible s = true.
Proof. apply sforall_impl. intros c. byte_cases c. Qed.

Lemma high_visible s : sforall (λ c, 0x80 <=? byte_val c)%N s = true → sforall visible s = true.
Proof. apply sforall_impl. intros c. byte_cases c. Qed.

Lemma rune_visible r : valid_rune r = true → (0x20 ≤ r)%N → sforall visible (encode_rune r) = true.
Proof.
  intros Hv Hr. destruct (N.lt_ge_cases r 0x80).
  - rewrite encode_rune_1 by lia. cbn [sforall str1]. unfold visible. rewrite byte_val_of by lia.
    rewrite andb_true_r. by apply N.leb_le.
  - by apply high_visible, encode_rune_high.
Qed.

Lemma padHex_visible k r : 0 < k → k ≤ 8 → (r < 16 ^ N.of_nat k)%N → sforall visible (padHex k r) = true.
Proof. intros H1 H2 H3. apply alnum_visible. by apply padHex_spec. Qed.

Lemma escape_rune_visible r : valid_rune r = true → sforall visible (escape_rune r) = true.
Proof.
  intros Hv. unfold escape_rune. repeat (case_match; [done|]).
  destruct (N.ltb_spec r 32); [|destruct (N.ltb_spec 0xFFFF r)]; [| |by apply rune_visible].
  - rewrite sforall_app. apply padHex_visible; [lia|lia|cbn; lia].
  - rewrite sforall_app. apply padHex_visible; [lia|lia|by apply valid_rune_16].
Qed.

Lemma EscapeString_visible s : ValidString s = true → sforall visible (EscapeString s) = true.
Proof.
  intros Hs. rewrite EscapeString_runes by done. apply ValidString_inv in Hs as [Hv _].
  induction Hv as [|r l Hr _ IH]; [done|]. cbn [escape_runes foldr]. fold (escape_runes l).
  by rewrite sforall_app, escape_rune_visible.
Qed.

Lemma EscapeIRI_visible v : iri_wf v → sforall visible (EscapeIRI v) = true.
Proof.
  intros (Hs & Hi & _). rewrite EscapeIRI_runes by done. rewrite isValidIRI_runes in Hi. apply ValidString_inv in Hs as [Hv _].
  induction Hv as [|r l Hr _ IH]; [done|]. cbn [forallb] in Hi. apply andb_true_iff in Hi as [Hir Hi].
  cbn [escape_iri_runes foldr]. fold (escape_iri_runes l). rewrite sforall_app, IH by done. rewrite andb_true_r.
  apply iri_rune_spec in Hir as [Hlo _]. unfold escape_iri_rune.
  destruct ((r <? 0x20)%N || (r =? 60)%N || (r =? 62)%N) eqn:E.
  { rewrite !orb_true_iff, N.ltb_lt, !N.eqb_eq in E. rewrite sforall_app. apply padHex_visible; [lia|lia|cbn; lia]. }
  destruct (N.ltb_spec 0xFFFF r); [|apply rune_visible; [done|lia]].
  rewrite sforall_app. apply padHex_visible; [lia|lia|by apply valid_rune_16].
Qed.

Lemma label_rune_bound r : label_rune r = true → (0x20 ≤ r)%N.
Proof.
  intros H. destruct (N.le_gt_cases 0x20 r) as [|Hlt]; [done|exfalso]. revert H.
  assert (Hall : ∀ n, (n < 32)%nat → label_rune (N.of_nat n) = false) by (intros n Hn; do 32 (destruct n as [|n]; [by vm_compute|]); lia).
  specialize (Hall (N.to_nat r) ltac:(lia)). rewrite N2Nat.id in Hall. by rewrite Hall.
Qed.

Lemma label_visible v : label_ok v → sforall visible v = true.
Proof.
  intros (Hv & _ & Hr). pose proof (ValidString_inv v Hv) as [Hvr <-]. destruct (runes v) as [|r l]; [done|].
  destruct Hr as [Hs Hl].
  assert (H : forallb label_rune (r :: l) = true).
  { cbn [forallb]. rewrite Hl, andb_true_r. unfold label_start in Hs. unfold label_rune, isPNChar.
    destruct (isPNCharsU r), (in_range 48 57 r); cbn in *; rewrite ?orb_true_r; done. }
  clear Hs Hl Hv. induction Hvr as [|x m Hx _ IH]; [done|]. cbn [forallb] in H. apply andb_true_iff in H as [Hxl Hm].
  rewrite write_runes_cons, sforall_app, IH, andb_true_r by done. apply rune_visible; [done|]. by apply label_rune_bound.
Qed.

Lemma tag_visible t : ValidLanguageTag t = true → sforall visible t = true.
Proof.
  intros H. unfold ValidLanguageTag in H. destruct (SplitByte t "-") as [|w ws] eqn:Es; [done|].
  apply andb_true_iff in H as [Hw Hws].
  assert (Hs : ∀ b x, subtag_ok b x = true → sforall visible x = true).
  { intros b x Hx. unfold subtag_ok in Hx. apply andb_true_iff in Hx as [_ Hx]. revert Hx. apply sforall_impl.
    intros c. destruct b; byte_cases c. }
  assert (H : forallb (sforall visible) (SplitByte t "-") = true).
  { rewrite Es. cbn [forallb]. rewrite (Hs true w Hw). cbn [andb]. rewrite forallb_forall in *. intros x Hx. by apply (Hs false), Hws. }
  apply SplitByte_forall in H. revert H. apply sforall_impl. intros c. byte_cases c.
Qed.

Lemma write_term_visible t s : nt_ok t → write_term t = Ok s → sforall visible s = true.
Proof.
  revert s. induction t as [u|b|l|sb IHs p o IHo key|v]; intros s Ht Hw; [| | | |done].
  - destruct Ht as (v & -> & Hv). apply IRI_Ok in Hw as [_ ->]. rewrite !sforall_app.
    change (URIRef_value (NewURIRefUnsafe v)) with v. by rewrite EscapeIRI_visible.
  - destruct Ht as (v & -> & Hv). injection Hw as <-. rewrite sforall_app. by apply label_visible.
  - cbn [write_term] in Hw. rewrite write_literal_ok in Hw by done. injection Hw as <-.
    destruct Ht as (Hwf & Hv & Hd). destruct Hwf as [_ Hl]. rewrite !sforall_app, EscapeString_visible by done.
    unfold nt_suffix. destruct (is_empty (lang l)) eqn:El; cbn [negb].
    + case_bool_decide; [done|]. destruct (Hd eq_refl) as (_ & _ & v & -> & Hi). rewrite !sforall_app.
      change (URIRef_value (NewURIRefUnsafe v)) with v. by rewrite EscapeIRI_visible.
    + destruct Hl as (Ht & _ & Hdir & _). rewrite sforall_app.
      assert (Htag : sforall visible (lang l) = true) by (by apply tag_visible).
      destruct (is_empty (dir l)); [by rewrite Htag|]. rewrite !sforall_app, Htag. by destruct Hdir as [->|[->| ->]].
  - destruct Ht as (_ & _ & Hs & (v & Hp & Hv) & Ho). rewrite (write_term_tt _ _ _ _ v) in Hw by done.
    destruct (write_term sb) as [ss|]; [|done]. destruct (write_term o) as [so|]; [|done]. injection Hw as <-.
    rewrite !sforall_app, (IHs ss), (IHo so), EscapeIRI_visible by done. done.
Qed.

(** ** Lines as the reader sees them *)

(** No control character, a first byte that starts a term and a final dot. *)
Definition line_ok (line : string) : Prop :=
  sforall visible line = true ∧
  (∃ c u, line = String c u ∧ (c = "<"%char ∨ c = "_"%char)) ∧ ∃ u, line = u +:+ ".".

Lemma find_none {A} (f : A → bool) l : (∀ x, x ∈ l → f x = false) → List.find f l = None.
Proof.
  induction l as [|x l IH]; intros H; [done|]. cbn. rewrite H by set_solver. apply IH. intros; apply H; set_solver.
Qed.

Lemma space_strings_heads c : c = "<"%char ∨ c = "_"%char →
  ∀ q, q ∈ space_strings → ∃ d r, q = String d r ∧ d ≠ c.
Proof.
  intros Hc. apply Forall_forall. destruct Hc as [-> | ->]; unfold space_strings, space_runes;
    repeat first [apply Forall_nil_2|apply Forall_cons_2; [eexists _, _; split; [vm_compute; reflexivity|discriminate]|]].
Qed.

Lemma space_strings_lasts : ∀ q, q ∈ space_strings → ∃ r d, q = r +:+ str1 d ∧ d ≠ "."%char.
Proof.
  apply Forall_forall. unfold space_strings, space_runes.
  assert (H1 : ∀ d, ∃ r d', str1 d = r +:+ str1 d' ∧ d' = d) by (intros d; by exists EmptyString, d).
  assert (H : ∀ s, s ≠ EmptyString → (∀ r, s ≠ r +:+ str1 ".") → ∃ r d, s = r +:+ str1 d ∧ d ≠ "."%char).
  { intros s Hs Hn. destruct (string_snoc s Hs) as (r & d & ->). exists r, d. split; [done|]. intros ->. by apply (Hn r). }
  assert (Hb : ∀ s, s ≠ EmptyString → has_byte "." s = false → ∃ r d, s = r +:+ str1 d ∧ d ≠ "."%char).
  { intros s Hs Hf. apply H; [done|]. intros r ->. by rewrite has_byte_app, orb_comm in Hf. }
  repeat first [apply Forall_nil_2|apply Forall_cons_2; [apply Hb; [apply encode_rune_nonempty|by vm_compute]|]].
Qed.

Lemma TrimSpace_line line : line_ok line → TrimSpace line = line.
Proof.
  intros (_ & (c & u & Hu & Hc) & (v & Hv)). unfold TrimSpace.
  assert (Hl : ∀ f, trimLeft_go f line = line).
  { intros [|f]; [done|]. cbn [trimLeft_go]. rewrite find_none; [done|]. intros q Hq.
    destruct (space_strings_heads c Hc q Hq) as (d & r & -> & Hd). rewrite Hu, HasPrefix_cons.
    by rewrite (proj2 (Ascii.eqb_neq c d)). }
  assert (Hr : ∀ f, trimRight_go f line = line).
  { intros [|f]; [done|]. cbn [trimRight_go]. rewrite find_none; [done|]. intros q Hq.
    destruct (space_strings_lasts q Hq) as (r & d & -> & Hd). unfold HasSuffix.
    apply andb_false_iff. right. apply String.eqb_neq. intros He.
    pose proof (stake_sdrop (len line - len (r +:+ str1 d)) line) as Hs. rewrite He, Hv, <- app_assoc_s in Hs.
    apply app_inv_len in Hs as [_ Hs]; [by injection Hs|]. set (a := stake _ _) in *.
    apply (f_equal len) in Hs. rewrite !len_app in Hs. change (len (str1 d)) with (len ".") in Hs. rewrite len_app. lia. }
  by rewrite Hl, Hr.
Qed.

Lemma visible_no_lf s : sforall visible s = true → has_byte lf s = false.
Proof. intros H. apply has_byte_false. revert H. apply sforall_impl. intros c. byte_cases c. Qed.

(** The line fits the buffer of the line reader. *)
Definition fits (maxLineLen : Z) (unbounded : bool) (line : string) : Prop :=
  unbounded = true ∨ (Z.of_nat (len line) < Z.max maxLineLen MaxScanTokenSize)%Z.

Lemma dropCR_line u : dropCR (u +:+ ".") = u +:+ ".".
Proof.
  unfold dropCR, TrimSuffix, HasSuffix. change (len (str1 cr)) with 1. rewrite len_app. change (len ".") with 1.
  replace (len u + 1 - 1) with (len u) by lia. rewrite sdrop_app. change (String.eqb "." (str1 cr)) with false. by rewrite andb_false_r.
Qed.

Lemma next_line m u line rest e :
  line_ok line → fits m u line →
  NewLineReader m u (MkReader (line +:+ String lf rest) e) = (Line line, MkReader rest e).
Proof.
  intros (Hv & _ & (v & Hl)) Hf. apply visible_no_lf in Hv.
  assert (Hs : sdrop (S (len line)) (line +:+ String lf rest) = rest).
  { replace (S (len line)) with (len line + 1) by lia. by rewrite sdrop_app_add. }
  unfold NewLineReader. destruct u; unfold next_unbounded, next_scanned; cbn [rd_data rd_err]; rewrite IndexByte_app, Hs by done.
  - assert (stake (S (len line)) (line +:+ String lf rest) = line +:+ str1 lf) as ->.
    { change (String lf rest) with (str1 lf +:+ rest). rewrite <- app_assoc_s.
      replace (S (len line)) with (len (line +:+ str1 lf)) by (rewrite len_app; unfold str1; rewrite len_cons, len_nil; lia). apply stake_app. }
    rewrite TrimRightP_snoc. change (is_eol lf) with true. cbn iota. rewrite Hl. change (v +:+ ".") with (v +:+ str1 ".").
    rewrite TrimRightP_snoc. done.
  - destruct Hf as [|Hf]; [done|]. rewrite stake_app, Hl, dropCR_line.
    replace (Z.of_nat (len (v +:+ ".")) <? _)%Z with true; [done|]. symmetry. apply Z.ltb_lt. rewrite <- Hl.
    unfold MaxScanTokenSize in *. destruct (Z.ltb_spec 0 m); lia.
Qed.

(** A document of lines. *)
Definition document (lines : list string) : string := foldr (λ l acc, l +:+ String lf acc) EmptyString lines.

(** Giving statements to the handler one after the other. *)
Fixpoint feed {S T} (handler : T → S → option error * S) (prov : option (ProvenanceHandler S T)) (lineNum : Z) (ts : list T) (s : S)
    : option error * S :=
  match ts with
  | [] => (None, s)
  | t :: ts =>
      match handler t s with
      | (Some e, s) => (Some (Wrapf "line %d: %w" [FormatInt lineNum] e), s)
      | (None, s) => feed handler prov (lineNum + 1) ts (match prov with Some f => f t lineNum s | None => s end)
      end
  end.

(** ** The loop over a written document *)

Section loop.
Context (uuid : nat → string) {T : Type} (read_line : Z → parserM T).
(** [t] is written as a line; [t'] is [t] under a scope. *)
Context (renders : T → string → Prop) (renamed : Scope → T → T → Prop).
Context (renamed_mono : ∀ sc sc' t t', extends sc sc' → renamed sc t t' → renamed sc' t t').
Context (renders_line : ∀ t line, renders t line → line_ok line).
Context (renders_read : ∀ n t line p, renders t line → parser_ok uuid p → lp_rest p = line →
  ∃ t' p', read_line n p = (Ok t', p') ∧ runs_ok uuid p p' ∧ renamed (BlankNodes p') t t').

Definition shared_ok (sh : shared) : Prop := parser_ok uuid (on_line EmptyString sh).

Lemma shared_ok_line sh line : shared_ok sh → parser_ok uuid (on_line line sh).
Proof. done. Qed.

(** What a line does once its statement has been read. *)
Definition line_outcome {S} (handler : T → S → option error * S) (cfg : config S T) (lineNum : Z) (t' : T) (sh' : shared) (s : S)
    : option error * shared * option error * S :=
  match handler t' s with
  | (Some e, s) => (Some (Wrapf "line %d: %w" [FormatInt lineNum] e), sh', Some e, s)
  | (None, s) => (None, sh', None, match provenance cfg with Some prov => prov t' lineNum s | None => s end)
  end.

Lemma handle_line_written t line lineNum sh :
  renders t line → shared_ok sh →
  ∃ t' sh', shared_ok sh' ∧ extends (sh_scope sh) (sh_scope sh') ∧ renamed (sh_scope sh') t t' ∧
    ∀ (S : Type) (handler : T → S → option error * S) (cfg : config S T) hErr s,
      handle_line read_line handler cfg line lineNum sh hErr s = line_outcome handler cfg lineNum t' sh' s.
Proof using renders_line renders_read.
  intros Hr Hsh. destruct (renders_read lineNum t line (on_line line sh) Hr Hsh eq_refl) as (t' & p' & E & [H1 H2] & H3).
  exists t', (after_line p'). split; [exact H1|]. split; [exact H2|]. split; [exact H3|].
  intros S handler cfg hErr s. unfold handle_line.
  pose proof (renders_line t line Hr) as Hl. rewrite TrimSpace_line by done. destruct Hl as (_ & (c & u & Hu & Hc) & _).
  assert (is_empty line || HasPrefix line "#" = false) as ->.
  { rewrite Hu, HasPrefix_cons. by destruct Hc as [-> | ->]. }
  unfold parse_line. rewrite E. unfold line_outcome. by destruct (handler t' s) as [[e|] s'].
Qed.

Lemma next_eof m u : NewLineReader m u (MkReader EmptyString None) = (EOF, MkReader EmptyString None).
Proof.
  unfold NewLineReader. destruct u; [done|]. unfold next_scanned, MaxScanTokenSize. cbn [rd_data rd_err IndexByte IndexP is_empty].
  rewrite len_nil. replace (_ <=? _)%Z with false; [done|]. symmetry. apply Z.leb_gt. destruct (0 <? m)%Z; lia.
Qed.

(** Reading the lines of a document gives its statements to the handler, in
    order, their blank nodes named by one scope. *)
Lemma loop_document ts lines :
  Forall2 renders ts lines → ∀ sh lineNum, shared_ok sh →
  ∃ ts' sh', shared_ok sh' ∧ extends (sh_scope sh) (sh_scope sh') ∧ Forall2 (renamed (sh_scope sh')) ts ts' ∧
    ∀ (S : Type) (handler : T → S → option error * S) (cfg : config S T) fuel stop hErr s,
      Forall (fits (maxLineLen cfg) (unbounded cfg)) lines → length lines < fuel →
      st_ctx stop = None → st_err stop = None →
      lines_loop read_line handler fuel cfg (MkReader (document lines) None) stop lineNum sh hErr s =
      feed handler (provenance cfg) (lineNum + 1) ts' s.
Proof using renders_line renders_read renamed_mono.
  induction 1 as [|t line ts lines Hr _ IH]; intros sh lineNum Hsh.
  - exists [], sh. split_and!; [done|reflexivity|constructor|]. intros S handler cfg fuel stop hErr s _ Hf Hc He.
    destruct fuel; [cbn in Hf; lia|]. cbn [lines_loop feed document foldr]. by rewrite next_eof.
  - destruct (handle_line_written t line (lineNum + 1) sh Hr Hsh) as (t' & sh1 & H1 & H2 & H3 & H4).
    destruct (IH sh1 (lineNum + 1)%Z H1) as (ts' & sh2 & H5 & H6 & H7 & H8).
    exists (t' :: ts'), sh2. split_and!; [done|by etrans|constructor; [by eapply renamed_mono|done]|].
    intros S handler cfg fuel stop hErr s Hfit Hf Hc He. apply Forall_cons in Hfit as [Hl Hfit].
    destruct fuel; [cbn in Hf; lia|]. cbn [lines_loop document foldr feed].
    rewrite next_line by (done || by eapply renders_line).
    unfold Tick. rewrite Hc, He. rewrite H4. unfold line_outcome.
    destruct (handler t' s) as [[e|] s'] eqn:E; [done|]. cbn [length] in Hf. apply H8; [done|lia|done|done].
Qed.

(** The entry point. *)
Lemma parse_document ts lines :
  Forall2 renders ts lines → ∀ preserve n,
  ∃ ts' sc, extends (New_scope preserve) sc ∧ (∃ k, scope_fresh uuid sc k) ∧ Forall2 (renamed sc) ts ts' ∧
    ∀ (S : Type) (handler : T → S → option error * S) (opts : list (Option_ S T)) s,
      let cfg := apply_options opts in
      preserveBlankNodeIDs cfg = preserve → Forall (fits (maxLineLen cfg) (unbounded cfg)) lines →
      parse_lines read_line handler None (MkReader (document lines) None) opts n s =
      feed handler (provenance cfg) 1 ts' s.
Proof using renders_line renders_read renamed_mono.
  intros Hr preserve n.
  assert (Hsh : shared_ok (new_shared preserve n)).
  { split; [apply cache_ok_new|]. destruct preserve; [done|apply scope_fresh_new]. }
  destruct (loop_document ts lines Hr (new_shared preserve n) 0 Hsh) as (ts' & sh' & [_ H1] & H2 & H3 & H4).
  exists ts', (sh_scope sh'). split; [exact H2|]. split; [by exists (sh_draws sh')|]. split; [exact H3|].
  intros S handler opts s cfg <- Hfit. unfold parse_lines. cbn [Poll New_stopper st_err st_ctx].
  apply H4; [done| |done|done]. cbn [rd_data]. clear. induction lines as [|l lines IH]; [cbn; lia|].
  cbn [document foldr length]. fold (document lines). rewrite len_app, len_cons. lia.
Qed.
End loop.

(** ** Statements *)

Definition statement_ok (t : Triple) : Prop :=
  nt_ok (Subject t) ∧ node_term (Subject t) = true ∧ nt_ok (TURIRef (Predicate t)) ∧ nt_ok (Object t).

Definition renamed_triple (sc : Scope) (t t' : Triple) : Prop :=
  rename sc (Subject t) = Some (Subject t') ∧ Predicate t' = Predicate t ∧ rename sc (Object t) = Some (Object t').

Lemma renamed_triple_mono sc sc' t t' : extends sc sc' → renamed_triple sc t t' → renamed_triple sc' t t'.
Proof. intros He (H1 & H2 & H3). split_and!; [by eapply rename_extends|done|by eapply rename_extends]. Qed.

Lemma renamed_triple_None t t' : statement_ok t → renamed_triple None t t' → t' = t.
Proof.
  intros (Hs & _ & _ & Ho) (H1 & H2 & H3). rewrite rename_None in H1, H3 by done.
  destruct t, t'. cbn in *. by simplify_eq.
Qed.

Lemma write_term_head t s : nt_ok t → write_term t = Ok s →
  ∃ c u, s = String c u ∧ is_blank c = false ∧ (node_term t = true → c = "<"%char ∨ c = "_"%char).
Proof.
  destruct t as [u|b|l|sb p o key|v]; intros Ht Hw; [| | | |done].
  - apply IRI_Ok in Hw as [_ ->]. eexists _, _. split; [reflexivity|]. auto.
  - injection Hw as <-. eexists _, _. split; [reflexivity|]. auto.
  - cbn [write_term] in Hw. rewrite write_literal_ok in Hw by done. injection Hw as <-. eexists _, _. split; [reflexivity|]. done.
  - destruct Ht as (_ & _ & _ & (v & Hp & Hv) & _). rewrite (write_term_tt _ _ _ _ v) in Hw by done.
    destruct (write_term sb) as [ss|]; [|done]. destruct (write_term o) as [so|]; [|done]. injection Hw as <-.
    eexists _, _. split; [reflexivity|]. done.
Qed.

Section statements.
Context (uuid : nat → string) (uuid_inj : ∀ i j, uuid i = uuid j → i = j).

(** After the blanks between two terms, a reader starts at the next one. *)
Lemma after_spaces {A B} (m : parserM A) (f : A → parserM B) p a p' :
  skips m → m p = (Ok a, p') → (SkipSpaces ≫= λ _, m ≫= f) p = f a p'.
Proof.
  intros Hm E. erewrite bindP by reflexivity. apply bindP. rewrite <- E. symmetry. apply Hm.
Qed.

Lemma ReadObject_after_spaces n t s p r :
  nt_ok t → write_term t = Ok s → parser_ok uuid p → lp_rest p = String space (s +:+ String space r) →
  ∃ t' p', ReadObject uuid n (set_rest (TrimLeftP is_blank (lp_rest p)) p) = (Ok t', p') ∧ lp_rest p' = String space r ∧
           runs_ok uuid p p' ∧ rename (BlankNodes p') t = Some t'.
Proof using uuid_inj.
  intros Ht Hw Hok Hp. destruct (write_term_head t s Ht Hw) as (c & u & Hs & Hc & _).
  assert (Htrim : TrimLeftP is_blank (lp_rest p) = s +:+ String space r).
  { rewrite Hp, Hs, sapp_cons. cbn [TrimLeftP]. change (is_blank space) with true. cbn iota. by rewrite Hc. }
  rewrite Htrim. unfold ReadObject. cbn [lp_rest set_rest].
  assert (Hf : (len s ≤ len (s +:+ String space r))%nat) by (rewrite len_app; lia).
  destruct (ReadObject_as uuid n uuid_inj t s Ht Hw _ Hf (set_rest (s +:+ String space r) p) r Hok eq_refl)
    as (t' & p' & E & R & O & N). by exists t', p'.
Qed.

(** The three terms of a line, up to the blank before what follows. *)
Lemma read_terms {B} n t ss ps os p r (f : Term → URIRef → Term → parserM B) :
  statement_ok t → write_term (Subject t) = Ok ss → write_term (TURIRef (Predicate t)) = Ok ps → write_term (Object t) = Ok os →
  parser_ok uuid p → lp_rest p = ss +:+ " " +:+ ps +:+ " " +:+ os +:+ String space r →
  ∃ s' o' p', lp_rest p' = String space r ∧ runs_ok uuid p p' ∧
    rename (BlankNodes p') (Subject t) = Some s' ∧ rename (BlankNodes p') (Object t) = Some o' ∧
    (subj ← ReadSubject uuid n; SkipSpaces ≫= λ _, pred ← ReadPredicate n; SkipSpaces ≫= λ _,
     obj ← ReadObject uuid n; f subj pred obj) p = f s' (Predicate t) o' p'.
Proof using uuid_inj.
  intros (Hs & Hn & (v & Hpr & Hv) & Ho) Ews Ewp Ewo Hok Hp.
  destruct (ReadSubject_as uuid n uuid_inj (Subject t) ss Hs Hn Ews p (ps +:+ " " +:+ os +:+ String space r) Hok Hp)
    as (s' & p1 & E1 & R1 & O1 & N1).
  rewrite Hpr in Ewp. apply IRI_Ok in Ewp as [_ ->]. change (URIRef_value (NewURIRefUnsafe v)) with v in *.
  rewrite !app_assoc_s in R1.
  destruct (ReadPredicate_ok uuid n p1 v (os +:+ String space r) Hv) as (p2 & E2 & R2 & O2); [by apply O1|exact R1|].
  destruct (ReadObject_after_spaces n (Object t) os p2 r Ho Ewo) as (o' & p3 & E3 & R3 & O3 & N3); [by apply O2|exact R2|].
  exists s', o', p3. split; [done|]. split; [eapply runs_ok_trans; [exact O1|by eapply runs_ok_trans]|].
  split; [eapply rename_extends; [|exact N1]; etrans; [by apply O2|by apply O3]|]. split; [done|].
  erewrite bindP by exact E1. erewrite after_spaces by (exact E2 || apply skips_bind).
  erewrite bindP by reflexivity. erewrite bindP by exact E3. by rewrite Hpr.
Qed.

(** [nt] *)
Definition nt_renders (t : Triple) (line : string) : Prop := statement_ok t ∧ ntTriple t = Ok line.

Lemma ntTriple_inv t line : ntTriple t = Ok line → ∃ ss ps os,
  write_term (Subject t) = Ok ss ∧ write_term (TURIRef (Predicate t)) = Ok ps ∧ write_term (Object t) = Ok os ∧
  line = ss +:+ " " +:+ ps +:+ " " +:+ os +:+ " .".
Proof.
  unfold ntTriple. intros (ss & Es & H)%bind_Ok_inv. apply bind_Ok_inv in H as (ps & Ep & H).
  apply bind_Ok_inv in H as (os & Eo & H). injection H as <-. by exists ss, ps, os.
Qed.

Lemma terms_line_ok t ss ps os suffix :
  statement_ok t → write_term (Subject t) = Ok ss → write_term (TURIRef (Predicate t)) = Ok ps → write_term (Object t) = Ok os →
  sforall visible suffix = true → line_ok (ss +:+ " " +:+ ps +:+ " " +:+ os +:+ suffix +:+ " .").
Proof.
  intros (Hs & Hn & Hp & Ho) Es Ep Eo Hsuf. split; [|split].
  - rewrite !sforall_app, (write_term_visible _ _ Hs Es), (write_term_visible _ _ Hp Ep), (write_term_visible _ _ Ho Eo), Hsuf. done.
  - destruct (write_term_head _ _ Hs Es) as (c & u & -> & _ & Hc). rewrite sapp_cons. eauto.
  - exists (ss +:+ " " +:+ ps +:+ " " +:+ os +:+ suffix +:+ " "). by rewrite !app_assoc_s.
Qed.

Lemma nt_renders_line t line : nt_renders t line → line_ok line.
Proof.
  intros [Hok (ss & ps & os & Es & Ep & Eo & ->)%ntTriple_inv]. by apply (terms_line_ok t ss ps os EmptyString).
Qed.

Lemma nt_renders_read n t line p : nt_renders t line → parser_ok uuid p → lp_rest p = line →
  ∃ t' p', read_nt_statement uuid n p = (Ok t', p') ∧ runs_ok uuid p p' ∧ renamed_triple (BlankNodes p') t t'.
Proof using uuid_inj.
  intros [Hst (ss & ps & os & Es & Ep & Eo & ->)%ntTriple_inv] Hok Hp.
  destruct (read_terms n t ss ps os p "." (λ subj pred obj, SkipSpaces ≫= λ _, dot ← Expect ".";
     if negb dot then perr (line_err n "expected '.'") else mret (MkTriple subj pred obj)) Hst Es Ep Eo Hok Hp)
    as (s' & o' & p' & R & O & N1 & N2 & E).
  exists (MkTriple s' (Predicate t) o'), (set_rest EmptyString p'). split; [|split; [exact O|by split_and!]].
  unfold read_nt_statement. rewrite E. erewrite bindP by reflexivity. rewrite R. reflexivity.
Qed.

(** [nq]: a quad, whose graph name is an IRI or a blank node. *)
Definition graph_name_ok (g : option Term) : Prop :=
  match g with
  | None => True
  | Some t => nt_ok t ∧ node_term t = true ∧ IsDefaultGraph g = false
  end.

Definition nq_renders (q : nq_statement) (line : string) : Prop :=
  statement_ok q.1 ∧ graph_name_ok q.2 ∧
  (suffix ← graphSuffix q.2; formatLine (Subject q.1) (Predicate q.1) (Object q.1) suffix) = Ok line.

Definition renamed_quad (sc : Scope) (q q' : nq_statement) : Prop :=
  renamed_triple sc q.1 q'.1 ∧
  match q.2 with None => q'.2 = None | Some t => ∃ t', q'.2 = Some t' ∧ rename sc t = Some t' end.

Lemma renamed_quad_mono sc sc' q q' : extends sc sc' → renamed_quad sc q q' → renamed_quad sc' q q'.
Proof.
  intros He [H1 H2]. split; [by eapply renamed_triple_mono|]. destruct (q.2); [|done].
  destruct H2 as (t' & H2 & H3). exists t'. split; [done|by eapply rename_extends].
Qed.

Lemma nq_renders_inv q line : nq_renders q line → ∃ ss ps os suffix,
  write_term (Subject q.1) = Ok ss ∧ write_term (TURIRef (Predicate q.1)) = Ok ps ∧ write_term (Object q.1) = Ok os ∧
  line = ss +:+ " " +:+ ps +:+ " " +:+ os +:+ suffix +:+ " ." ∧
  match q.2 with None => suffix = EmptyString | Some g => ∃ gs, write_term g = Ok gs ∧ suffix = " " +:+ gs end.
Proof.
  intros (_ & Hg & H). apply bind_Ok_inv in H as (suffix & Esuf & H). unfold formatLine in H.
  apply bind_Ok_inv in H as (ss & Es & H). apply bind_Ok_inv in H as (ps & Ep & H).
  apply bind_Ok_inv in H as (os & Eo & H). injection H as <-. exists ss, ps, os, suffix. split_and!; [done..|].
  unfold graphSuffix in Esuf. destruct (q.2) as [g|]; [|by injection Esuf].
  destruct Hg as (_ & _ & Hd). rewrite Hd in Esuf. apply bind_Ok_inv in Esuf as (gs & Eg & Esuf). injection Esuf as <-. eauto.
Qed.

Lemma nq_renders_line q line : nq_renders q line → line_ok line.
Proof.
  intros H. pose proof H as [Hst [Hg _]]. apply nq_renders_inv in H as (ss & ps & os & suffix & Es & Ep & Eo & -> & Hsuf).
  apply (terms_line_ok q.1); try done. destruct (q.2) as [g|]; [|by subst].
  destruct Hsuf as (gs & Eg & ->). rewrite sforall_app. apply (write_term_visible g); [apply Hg|done].
Qed.

Lemma ReadGraphLabel_none n p : lp_rest p = " ." → ReadGraphLabel uuid n p = (Ok None, set_rest "." p).
Proof.
  intros Hp. unfold ReadGraphLabel. erewrite bindP by reflexivity. rewrite Hp.
  erewrite bindP by reflexivity. reflexivity.
Qed.

Lemma ReadGraphLabel_some n g gs p r :
  nt_ok g → node_term g = true → write_term g = Ok gs → parser_ok uuid p → lp_rest p = String space (gs +:+ String space r) →
  ∃ g' p', ReadGraphLabel uuid n p = (Ok (Some g'), p') ∧ lp_rest p' = String space r ∧ runs_ok uuid p p' ∧
           rename (BlankNodes p') g = Some g'.
Proof using uuid_inj.
  intros Hg Hn Hw Hok Hp. rewrite (skips_space (ReadGraphLabel uuid n) p _ (skips_bind _) Hp).
  set (p0 := set_rest (gs +:+ String space r) p). assert (Hok0 : parser_ok uuid p0) by exact Hok.
  assert (Hp0 : lp_rest p0 = gs +:+ String space r) by done. unfold ReadGraphLabel.
  destruct g as [u|b| | |]; try done.
  - destruct Hg as (v & -> & Hv). apply IRI_Ok in Hw as [_ ->]. change (URIRef_value (NewURIRefUnsafe v)) with v in *.
    rewrite !app_assoc_s in Hp0.
    rewrite (SkipSpaces_head _ p0 "<" (EscapeIRI v +:+ ">" +:+ String space r)) by done.
    erewrite bindP by reflexivity. rewrite Hp0. change (is_empty _) with false. change (HasPrefix _ ".") with false.
    rewrite HasPrefix_app. cbn [orb]. erewrite bindP by (by apply read_term_iri_ok).
    eexists _, _. split; [reflexivity|]. split; [done|]. split; [exact (runs_ok_rest uuid p0 _ Hok0)|done].
  - destruct Hg as (v & -> & Hv). injection Hw as <-. change (BNode_value (MkBNode ("B:" +:+ v))) with v in *.
    rewrite app_assoc_s in Hp0.
    rewrite (SkipSpaces_head _ p0 "_" (":" +:+ v +:+ String space r)) by done.
    erewrite bindP by reflexivity. rewrite Hp0. change (is_empty _) with false. change (HasPrefix _ ".") with false.
    change (HasPrefix _ "<") with false. rewrite HasPrefix_app. cbn [orb].
    destruct (ReadBNode_ok uuid n uuid_inj p0 v r Hv Hok0 Hp0) as (b & p' & E & R & O & N).
    erewrite bindP by exact E. eexists _, _. split; [reflexivity|]. split_and!; try done.
    cbn [rename]. change (BNode_value (MkBNode ("B:" +:+ v))) with v. by rewrite N.
Qed.

Lemma nq_renders_read n q line p : nq_renders q line → parser_ok uuid p → lp_rest p = line →
  ∃ q' p', read_nq_statement uuid n p = (Ok q', p') ∧ runs_ok uuid p p' ∧ renamed_quad (BlankNodes p') q q'.
Proof using uuid_inj.
  intros H Hok Hp. pose proof H as [Hst [Hg _]].
  apply nq_renders_inv in H as (ss & ps & os & suffix & Es & Ep & Eo & -> & Hsuf).
  set (k := λ subj pred obj, SkipSpaces ≫= λ _, graphCtx ← ReadGraphLabel uuid n; SkipSpaces ≫= λ _, dot ← Expect ".";
     if negb dot then perr (line_err n "expected '.'") else mret (MkTriple subj pred obj, graphCtx)).
  destruct q as [t g]. cbn [fst snd] in *. destruct g as [g|].
  - destruct Hsuf as (gs & Eg & ->). destruct Hg as (Hg1 & Hg2 & _). rewrite !app_assoc_s in Hp.
    destruct (read_terms n t ss ps os p (gs +:+ String space ".") k Hst Es Ep Eo Hok Hp) as (s' & o' & p1 & R & O & N1 & N2 & E).
    destruct (ReadGraphLabel_some n g gs p1 "." Hg1 Hg2 Eg) as (g' & p2 & E2 & R2 & O2 & N3); [by apply O|exact R|].
    exists (MkTriple s' (Predicate t) o', Some g'), (set_rest EmptyString p2).
    split; [|split; [by eapply runs_ok_trans|]].
    + etrans; [exact E|]. unfold k. erewrite after_spaces by (exact E2 || apply skips_bind).
      erewrite bindP by reflexivity. rewrite R2. reflexivity.
    + split; [|by exists g']. split_and!; cbn; [by eapply rename_extends; [apply O2|]|done|by eapply rename_extends; [apply O2|]].
  - subst suffix. rewrite sapp_nil_l in Hp.
    destruct (read_terms n t ss ps os p "." k Hst Es Ep Eo Hok Hp) as (s' & o' & p1 & R & O & N1 & N2 & E).
    exists (MkTriple s' (Predicate t) o', None), (set_rest EmptyString p1). split; [|split; [exact O|by split_and!]].
    etrans; [exact E|]. unfold k.
    erewrite after_spaces by (by apply ReadGraphLabel_none || apply skips_bind). reflexivity.
Qed.
End statements.

(** ** Whole documents *)

Lemma write_lines_append lines w :
  write_lines (λ s w, (None, w +:+ s)) lines w = (None, w +:+ document lines).
Proof.
  revert w. induction lines as [|l lines IH]; intros w; cbn [write_lines document foldr]; [by rewrite sapp_nil_r|].
  rewrite IH. fold (document lines). change (String lf (document lines)) with (str1 lf +:+ document lines). by rewrite !app_assoc_s.
Qed.

Lemma graph_lines_ok fmt (line : Triple → result string) ts :
  (∀ t, t ∈ ts → ∃ l, line t = Ok l) →
  ∃ ls, graph_lines fmt line (Ok <$> ts) = Ok ls ∧ Forall2 (λ t l, line t = Ok l) ts ls.
Proof.
  induction ts as [|t ts IH]; intros H; [by exists []|].
  destruct (H t) as [l Hl]; [set_solver|]. destruct IH as (ls & E & F); [intros; apply H; set_solver|].
  exists (l :: ls). split; [|by constructor]. cbn [fmap list_fmap graph_lines]. rewrite Hl. cbn. by rewrite E.
Qed.

(** Sorted lines are the lines of the triples in another order. *)
Lemma Forall2_permuted {A B} (R : A → B → Prop) l k k' :
  Forall2 R l k → k' ≡ₚ k → ∃ l', l' ≡ₚ l ∧ Forall2 R l' k'.
Proof.
  intros HR Hp. symmetry in Hp. revert l HR. induction Hp as [|x k k' _ IH|x y k|k1 k2 k3 _ IH1 _ IH2]; intros l HR.
  - by exists l.
  - apply Forall2_cons_inv_r in HR as (a & l0 & Ha & Hl & ->). destruct (IH l0 Hl) as (l' & Hl' & F).
    exists (a :: l'). split; [by apply perm_skip|by constructor].
  - apply Forall2_cons_inv_r in HR as (a & l0 & Ha & Hl & ->). apply Forall2_cons_inv_r in Hl as (b & l1 & Hb & Hl & ->).
    exists (b :: a :: l1). split; [apply perm_swap|by repeat constructor].
  - destruct (IH1 l HR) as (l1 & P1 & F1). destruct (IH2 l1 F1) as (l2 & P2 & F2). exists l2. split; [by etrans|done].
Qed.

Lemma ntTriple_total t : statement_ok t → ∃ l, ntTriple t = Ok l.
Proof.
  intros (Hs & _ & Hp & Ho). apply write_term_total in Hs, Hp, Ho. unfold ntTriple.
  destruct (write_term (Subject t)); [|done]. destruct (write_term (TURIRef (Predicate t))); [|done].
  destruct (write_term (Object t)); [|done]. cbn. eauto.
Qed.

Section documents.
Context {St St' : Type} `{StoreLaws St, StoreLaws St'}.

(** What [nt.Serialize] writes: the lines of the graph's triples, sorted. *)
Lemma nt_Serialize_ok (st : St) g :
  sinv st → (∀ t, t ∈ graph_triples (graph_of st g) → statement_ok t) →
  ∃ ts lines, ts ≡ₚ graph_triples (graph_of st g) ∧ Forall2 nt_renders ts lines ∧
    nt_Serialize (λ s w, (None, w +:+ s)) None g st EmptyString = (None, document lines).
Proof.
  intros Hs Hok. destruct (g_triples_ok st g None None None Hs) as (l & El & _ & Hl). rewrite matching_all in Hl.
  assert (Hst : Forall statement_ok l) by (apply Forall_forall; intros t Ht; apply Hok; by rewrite <- Hl).
  destruct (graph_lines_ok "nt: serialize: %w" ntTriple l) as (ls & Els & Hls).
  { intros t Ht. apply ntTriple_total. rewrite Forall_forall in Hst. by apply Hst. }
  destruct (Forall2_permuted nt_renders l ls (Sort ls)) as (ts & Hts & F).
  { apply Forall2_same_length_lookup. apply Forall2_same_length_lookup in Hls as [Hlen Hls]. split; [done|].
    intros i t line Ht Hline. split; [by eapply Forall_lookup_1|by eapply Hls]. }
  { apply merge_sort_Permutation. }
  exists ts, (Sort ls). split; [by rewrite Hts|]. split; [done|].
  unfold nt_Serialize, g_Len. rewrite len_ok by done. rewrite El, Els. by rewrite write_lines_append.
Qed.

(** Giving triples to [Graph.Add]. *)
Lemma feed_graph (g : Graph_) n ts (st : St') :
  sinv st → ∃ st', sinv st' ∧ graph_of st' g = foldl graph_add (graph_of st g) ts ∧
    feed (λ t st, let '(res, st) := g_Add None g (Subject t) (Predicate t) (Object t) st in (as_error res, st)) None n ts st = (None, st').
Proof.
  revert n st. induction ts as [|t ts IH]; intros n st Hs; [by exists st|].
  destruct (g_add_ok st g (Subject t) (Predicate t) (Object t) Hs) as (st1 & E1 & Hs1 & G1).
  destruct (IH (n + 1)%Z st1 Hs1) as (st2 & Hs2 & G2 & E2). exists st2. split; [done|]. split.
  - rewrite G2, G1. by destruct t.
  - cbn [feed]. rewrite E1. cbn [as_error]. exact E2.
Qed.

Lemma renamed_triples_None ts ts' :
  Forall statement_ok ts → Forall2 (renamed_triple None) ts ts' → ts' = ts.
Proof.
  intros Hok HF. induction HF as [|t t' ts ts' Ht _ IH]; [done|]. apply Forall_cons in Hok as [Ht' Hok].
  by rewrite (renamed_triple_None t t'), IH.
Qed.

Lemma foldl_graph_add_triples (l : list Triple) (m d : gmap tkey_t Triple) :
  keyed d → l ≡ₚ graph_triples d → foldl graph_add m l = m ∪ d.
Proof.
  intros Hd Hl. pose proof (foldl_graph_add_all l m d (λ _, true) Hd Hl) as E.
  rewrite map_filter_id in E by done. rewrite <- E. f_equal. clear. induction l as [|t l IH]; [done|].
  by rewrite filter_cons_True, <- IH by done.
Qed.
End documents.

(** ** The quad writer *)

Section writer.
(** A destination that takes every byte. *)
Local Definition append : string → string → option error * string := λ s w, (None, w +:+ s).

Definition bw_content (b : bufio) : string := bw_dest b +:+ bw_buf b.

Lemma bw_Flush_append b : bw_err b = None →
  bw_err (bw_Flush append b) = None ∧ bw_buf (bw_Flush append b) = EmptyString ∧ bw_dest (bw_Flush append b) = bw_content b.
Proof.
  intros He. unfold bw_Flush, bw_content. rewrite He. destruct (bw_buf b) as [|c s] eqn:Eb; cbn [is_empty].
  - by rewrite He, Eb, sapp_nil_r.
  - done.
Qed.

Lemma bw_WriteString_S f s b : bw_err b = None →
  bw_WriteString append (S f) s b =
  let avail := bufio_size - len (bw_buf b) in
  if len s <=? avail then MkBufio (bw_buf b +:+ s) None (bw_dest b)
  else bw_WriteString append f (sdrop avail s) (bw_Flush append (MkBufio (bw_buf b +:+ stake avail s) None (bw_dest b))).
Proof. intros He. cbn [bw_WriteString]. by rewrite He. Qed.

Lemma bw_WriteString_append f s b :
  bw_err b = None → (len s < f ∨ bw_buf b = EmptyString ∧ len s ≤ f ∧ 0 < f) →
  bw_err (bw_WriteString append f s b) = None ∧ bw_content (bw_WriteString append f s b) = bw_content b +:+ s.
Proof.
  revert s b. induction f as [|f IH]; intros s b He Hf; [lia|]. rewrite bw_WriteString_S by done. cbn zeta.
  remember (bufio_size - len (bw_buf b)) as avail eqn:Ha. destruct (Nat.leb_spec (len s) avail).
  { cbn [bw_err]. split; [done|]. unfold bw_content. cbn [bw_dest bw_buf]. by rewrite app_assoc_s. }
  set (b1 := MkBufio _ _ _). destruct (bw_Flush_append b1 eq_refl) as (F1 & F2 & F3).
  destruct (IH (sdrop avail s) (bw_Flush append b1) F1) as [H1 H2].
  { rewrite len_sdrop. right. split; [done|]. assert (0 < bufio_size) by (by apply Nat.ltb_lt; vm_compute).
    destruct Hf as [|(Hb & Hle & _)]; [lia|]. rewrite Hb, len_nil in Ha. lia. }
  split; [done|]. rewrite H2. unfold bw_content at 1. rewrite F2, F3, sapp_nil_r. unfold b1, bw_content. cbn [bw_dest bw_buf].
  by rewrite !app_assoc_s, stake_sdrop.
Qed.

Lemma bw_put_append s b : bw_err b = None →
  ∃ b', bw_put append s b = (None, b') ∧ bw_err b' = None ∧ bw_content b' = bw_content b +:+ s.
Proof.
  intros He. destruct (bw_WriteString_append (S (len s)) s b He) as [H1 H2]; [lia|].
  exists (bw_WriteString append (S (len s)) s b). unfold bw_put. by rewrite H1.
Qed.

Definition writer_ok (w : Writer (W := string)) : Prop := w_err w = None ∧ bw_err (w_bufio w) = None.

Definition graph_label (g : option Term) : option Term := if IsDefaultGraph g then None else g.

(** The statement a quad is written as. *)
Definition quad_statement (q : Quad) : nq_statement := (quad_Triple q, graph_label (Term.Graph q)).

Lemma graphSuffix_label g : graphSuffix (graph_label g) = graphSuffix g.
Proof. unfold graphSuffix, graph_label. destruct g as [t|]; [|done]. destruct (IsDefaultGraph (Some t)) eqn:E; [done|]. by rewrite E. Qed.

Lemma w_WriteQuad_ok q line w :
  nq_renders (quad_statement q) line → writer_ok w →
  ∃ w', w_WriteQuad append q w = (None, w') ∧ writer_ok w' ∧
        bw_content (w_bufio w') = bw_content (w_bufio w) +:+ line +:+ str1 lf.
Proof.
  intros (_ & _ & Hl) [H1 H2]. unfold w_WriteQuad, w_Write. rewrite H1.
  cbn [quad_statement fst snd] in Hl. rewrite graphSuffix_label in Hl. rewrite Hl.
  destruct (bw_put_append line (w_bufio w) H2) as (b1 & -> & B1 & C1).
  destruct (bw_put_append (str1 lf) b1 B1) as (b2 & -> & B2 & C2).
  eexists. split; [reflexivity|]. split; [done|]. cbn [w_bufio]. by rewrite C2, C1, app_assoc_s.
Qed.

(** A client that writes quads one after the other and stops at an error. *)
Fixpoint write_quads (qs : list Quad) (w : Writer (W := string)) : option error * Writer (W := string) :=
  match qs with
  | [] => w_Flush append w
  | q :: qs => match w_WriteQuad append q w with (Some e, w) => (Some e, w) | (None, w) => write_quads qs w end
  end.

Lemma write_quads_ok qs lines w :
  Forall2 nq_renders (quad_statement <$> qs) lines → writer_ok w →
  ∃ w', write_quads qs w = (None, w') ∧ bw_dest (w_bufio w') = bw_content (w_bufio w) +:+ document lines.
Proof.
  revert lines w. induction qs as [|q qs IH]; intros lines w HF Hw.
  - cbn in HF. apply Forall2_nil_inv_l in HF as ->. destruct Hw as [H1 H2]. cbn [write_quads]. unfold w_Flush. rewrite H1.
    destruct (bw_Flush_append _ H2) as (F1 & F2 & F3). rewrite F1. eexists. split; [reflexivity|]. cbn [w_bufio document foldr].
    by rewrite F3, sapp_nil_r.
  - cbn [fmap list_fmap] in HF. apply Forall2_cons_inv_l in HF as (line & ls & Hl & HF & ->).
    destruct (w_WriteQuad_ok q line w Hl Hw) as (w1 & E1 & Hw1 & C1). cbn [write_quads]. rewrite E1.
    destruct (IH ls w1 HF Hw1) as (w2 & E2 & C2). exists w2. split; [done|]. rewrite C2, C1. cbn [document foldr].
    fold (document ls). change (String lf (document ls)) with (str1 lf +:+ document ls). by rewrite !app_assoc_s.
Qed.

Definition quad_ok (q : Quad) : Prop := statement_ok (quad_Triple q) ∧ graph_name_ok (graph_label (Term.Graph q)).

Lemma quad_renders q : quad_ok q → ∃ line, nq_renders (quad_statement q) line.
Proof.
  intros [Hst Hg]. pose proof Hst as (Hs & _ & Hp & Ho). apply write_term_total in Hs, Hp, Ho.
  assert (Hsuf : ∃ suffix, graphSuffix (graph_label (Term.Graph q)) = Ok suffix).
  { destruct (graph_label (Term.Graph q)) as [g|]; [|by eexists]. destruct Hg as (Hg & _ & Hd). cbn [graphSuffix]. rewrite Hd.
    apply write_term_total in Hg. destruct (write_term g); [|done]. cbn. eauto. }
  destruct Hsuf as (suffix & Hsuf).
  assert (Hline : ∃ line, formatLine (Subject (quad_Triple q)) (Predicate (quad_Triple q)) (Object (quad_Triple q)) suffix = Ok line).
  { unfold formatLine. destruct (write_term (Subject _)); [|done]. destruct (write_term (TURIRef _)); [|done].
    destruct (write_term (Object _)); [|done]. cbn. eauto. }
  destruct Hline as (line & Hline). exists line. split; [done|]. split; [done|]. cbn [quad_statement fst snd]. rewrite Hsuf. exact Hline.
Qed.

(** A provenance callback that leaves the state of the handler alone. *)
Definition only_looks {S T} (prov : option (ProvenanceHandler S T)) : Prop :=
  ∀ f, prov = Some f → ∀ t n s, f t n s = s.

Lemma feed_only_looks {S T} (handler : T → S → option error * S) prov n ts s :
  only_looks prov → feed handler prov n ts s = feed handler None n ts s.
Proof.
  intros Hp. revert n s. induction ts as [|t ts IH]; intros n s; [done|]. cbn [feed].
  destruct (handler t s) as [[e|] s1]; [done|]. rewrite <- IH. f_equal. destruct prov as [f|]; [by apply Hp|done].
Qed.

(** Collecting statements. *)
Lemma feed_collect {T} n (ts acc : list T) :
  feed (λ t acc, (None, acc ++ [t])) None n ts acc = (None, acc ++ ts).
Proof.
  revert n acc. induction ts as [|t ts IH]; intros n acc; cbn [feed]; [by rewrite app_nil_r|]. by rewrite IH, <- app_assoc.
Qed.

Lemma renamed_quads_None qs qs' :
  Forall quad_ok qs → Forall2 (renamed_quad None) (quad_statement <$> qs) qs' → qs' = quad_statement <$> qs.
Proof.
  revert qs'. induction qs as [|q qs IH]; intros qs' Hok HF; [by inversion HF|]. cbn [fmap list_fmap] in HF.
  apply Forall2_cons_inv_l in HF as (q' & ls & [H1 H2] & HF & ->). apply Forall_cons in Hok as [[Hst Hg] Hok].
  cbn [fmap list_fmap]. rewrite (IH ls) by done. f_equal. apply renamed_triple_None in H1; [|done]. destruct q' as [t' g'].
  cbn [quad_statement fst snd] in *. subst t'. unfold quad_statement. f_equal.
  destruct (graph_label (Term.Graph q)) as [g|]; [|done]. destruct H2 as (t' & -> & H2). destruct Hg as (Hg & _). rewrite rename_None in H2; [|done].
  congruence.
Qed.

Lemma quad_document qs : Forall quad_ok qs →
  ∃ w lines, Forall2 nq_renders (quad_statement <$> qs) lines ∧ write_quads qs (NewWriter EmptyString) = (None, w) ∧
             bw_dest (w_bufio w) = document lines.
Proof.
  intros Hok. assert (∃ lines, Forall2 nq_renders (quad_statement <$> qs) lines) as (lines & HF).
  { induction Hok as [|q qs Hq _ [lines IH]]; [by exists []|]. destruct (quad_renders q Hq) as (line & Hl).
    exists (line :: lines). by constructor. }
  destruct (write_quads_ok qs lines (NewWriter EmptyString) HF) as (w & Hw & Hd); [done|]. by exists w, lines.
Qed.

Lemma nq_parse_document (uuid : nat → string) (Hu : ∀ i j, uuid i = uuid j → i = j) qs lines preserve n :
  Forall2 nq_renders qs lines →
  ∃ qs' sc, extends (New_scope preserve) sc ∧ (∃ k, scope_fresh uuid sc k) ∧ Forall2 (renamed_quad sc) qs qs' ∧
    ∀ (S : Type) (h : nq_statement → S → option error * S) (opts : list (Option_ S nq_statement)) s,
      preserveBlankNodeIDs (apply_options opts) = preserve →
      Forall (fits (maxLineLen (apply_options opts)) (unbounded (apply_options opts))) lines →
      nq_ParseStream uuid (MkReader (document lines) None) (Some h) opts n s = feed h (provenance (apply_options opts)) 1 qs' s.
Proof.
  intros HF.
  destruct (parse_document uuid (read_nq_statement uuid) nq_renders renamed_quad renamed_quad_mono nq_renders_line
    (nq_renders_read uuid Hu) qs lines HF preserve n) as (ts' & sc & Hext & Hfresh & HR & Hparse).
  exists ts', sc. split_and!; [done..|]. intros S h opts s Hp Hfit. by apply (Hparse S (with_quad_handler None h) opts s).
Qed.
End writer.

Section theorems.
Context {St St' : Type} `{StoreLaws St, StoreLaws St'}.

(** C5: serializing a graph whose triples N-Triples can express and parsing the text
    into another graph, of a store of any kind, copies it, whichever options are
    chosen, as long as each line fits the buffer they give the reader and a provenance
    callback leaves the store alone: every triple is written, the document is read
    without error, and the triples that arrive are the graph's with their blank nodes
    renamed by one scope of the parse; with preserved labels the target becomes its
    union with the source. *)
Theorem nt_document_roundtrip : ∀ (uuid : nat → string) (st : St) (st' : St') g g' opts n,
  (∀ i j, uuid i = uuid j → i = j) → sinv st → sinv st' →
  (∀ t, t ∈ graph_triples (graph_of st g) → statement_ok t) →
  (∀ t line, t ∈ graph_triples (graph_of st g) → ntTriple t = Ok line →
    fits (maxLineLen (apply_options opts)) (unbounded (apply_options opts)) line) →
  only_looks (provenance (apply_options opts)) →
  ∃ doc st'' sc ts ts',
    nt_Serialize (λ s w, (None, w +:+ s)) None g st EmptyString = (None, doc) ∧
    nt_Parse uuid None None g' (MkReader doc None) opts n st' = (None, st'') ∧ sinv st'' ∧
    ts ≡ₚ graph_triples (graph_of st g) ∧ Forall2 (renamed_triple sc) ts ts' ∧ (∃ k, scope_fresh uuid sc k) ∧
    graph_of st'' g' = foldl graph_add (graph_of st' g') ts' ∧
    (preserveBlankNodeIDs (apply_options opts) = true → graph_of st'' g' = graph_of st' g' ∪ graph_of st g).
Proof.
  intros uuid st st' g g' opts n Hu Hs Hs' Hok Hfit Hprov.
  destruct (nt_Serialize_ok st g Hs Hok) as (ts & lines & Hts & HF & Hser).
  destruct (parse_document uuid (read_nt_statement uuid) nt_renders renamed_triple renamed_triple_mono nt_renders_line
    (nt_renders_read uuid Hu) ts lines HF (preserveBlankNodeIDs (apply_options opts)) n) as (ts' & sc & Hext & Hfresh & HR & Hparse).
  destruct (feed_graph g' 1 ts' st' Hs') as (st'' & Hs'' & HG & Hfeed).
  exists (document lines), st'', sc, ts, ts'. split; [done|]. split.
  { unfold nt_Parse, nt_parseLines. rewrite Hparse; [by rewrite feed_only_looks|done|].
    apply (Forall2_Forall_r _ _ ts _ HF), Forall_forall. intros t Ht line [_ Hl]. apply (Hfit t); [by rewrite <- Hts|done]. }
  split_and!; try done. intros Hp. rewrite HG. rewrite Hp in Hext. cbn [New_scope] in Hext.
  assert (sc = None) as -> by (by destruct sc).
  apply renamed_triples_None in HR as ->; [apply foldl_graph_add_triples; [by apply graph_of_keyed|done]|].
  apply Forall_forall. intros t Ht. apply Hok. by rewrite <- Hts.
Qed.
End theorems.

(** The line [Writer.WriteQuad] writes for a quad. *)
Definition quad_line (q : Quad) : result string :=
  suffix ← graphSuffix (Term.Graph q); formatLine (Subject (quad_Triple q)) (Predicate (quad_Triple q)) (Object (quad_Triple q)) suffix.

(** C36: quads N-Quads can express, written with [nq.Writer] and flushed, are read
    back by [nq.ParseStream], whichever options are chosen as long as each line fits
    the buffer they give the reader and a provenance callback leaves the handler's
    state alone: all of them arrive, in order, each in its graph (a quad of the
    default graph without a label), their blank nodes renamed by one scope of the
    parse and not at all when labels are preserved. *)
Theorem nq_document_roundtrip : ∀ (uuid : nat → string) qs opts n,
  (∀ i j, uuid i = uuid j → i = j) → Forall quad_ok qs →
  (∀ q line, q ∈ qs → quad_line q = Ok line →
    fits (maxLineLen (apply_options opts)) (unbounded (apply_options opts)) line) →
  only_looks (provenance (apply_options opts)) →
  ∃ w qs' sc,
    write_quads qs (NewWriter EmptyString) = (None, w) ∧
    nq_ParseStream uuid (MkReader (bw_dest (w_bufio w)) None) (Some (λ q acc, (None, acc ++ [q]))) opts n [] = (None, qs') ∧
    Forall2 (renamed_quad sc) (quad_statement <$> qs) qs' ∧ (∃ k, scope_fresh uuid sc k) ∧
    (preserveBlankNodeIDs (apply_options opts) = true → qs' = quad_statement <$> qs).
Proof.
  intros uuid qs opts n Hu Hok Hfit Hprov.
  destruct (quad_document qs Hok) as (w & lines & HF & Hw & Hd).
  destruct (nq_parse_document uuid Hu _ lines (preserveBlankNodeIDs (apply_options opts)) n HF) as (ts' & sc & Hext & Hfresh & HR & Hparse).
  exists w, ts', sc. split; [done|]. split.
  { rewrite Hd. unfold nq_ParseStream, nq_ParseStreamContext, nq_parseLines.
    etrans; [apply Hparse; [done|]|by rewrite feed_only_looks, feed_collect].
    apply (Forall2_Forall_r _ _ _ _ HF), Forall_fmap, Forall_forall. intros q Hq line (_ & _ & Hl). apply (Hfit q); [done|].
    cbn [quad_statement fst snd] in Hl. by rewrite graphSuffix_label in Hl. }
  split_and!; try done. intros Hp. rewrite Hp in Hext. assert (sc = None) as -> by (by destruct sc). by apply renamed_quads_None.
Qed.

(** ** Stopping *)

(** How many more statements can be handed over by a parse whose context is done
    from its [k]-th poll on. *)
Definition tick_budget (k : nat) (stop : Stopper) : nat := 1024 * (k - st_polls stop) + Z.to_nat (1023 - st_n stop).

Definition polling (c : nat → option error) (stop : Stopper) : Prop :=
  st_ctx stop = Some c ∧ st_err stop = None ∧ (0 <= st_n stop < pollEvery)%Z.

Lemma Tick_budget c k stop stop' :
  (∀ i, k ≤ i → is_Some (c i)) → polling c stop → Tick stop = (None, stop') →
  polling c stop' ∧ S (tick_budget k stop') = tick_budget k stop.
Proof.
  intros Hc (H1 & H2 & H3). unfold Tick, tick_budget. rewrite H1, H2. unfold pollEvery in *.
  destruct (Z.leb_spec 1024 (st_n stop + 1)) as [Hn|Hn].
  - unfold Poll. cbn [st_err st_ctx st_polls st_n]. destruct (c (st_polls stop)) as [e|] eqn:E; [done|]. cbn.
    intros [= <-]. cbn. assert (st_polls stop < k).
    { destruct (Nat.lt_ge_cases (st_polls stop) k) as [|Hk]; [done|]. apply Hc in Hk as [e He]. congruence. }
    split; [|lia]. unfold polling, pollEvery. cbn. split_and!; (done || lia).
  - intros [= <-]. cbn. split; [|lia]. unfold polling, pollEvery. cbn. split_and!; (done || lia).
Qed.

Section stopping.
Context {T : Type} (read_line : Z → parserM T).
(** A handler that counts. *)
Local Definition count : T → nat → option error * nat := λ _ n, (None, S n).

Lemma handle_line_counts (cfg : config nat T) raw lineNum sh hErr s :
  errorHandler cfg = None → provenance cfg = None →
  (handle_line read_line count cfg raw lineNum sh hErr s).2 ≤ S s.
Proof.
  intros He Hp. unfold handle_line. case_match; [cbn; lia|]. unfold parse_line.
  destruct (read_line lineNum _) as [[t|e] p]; cbn [count]; rewrite ?Hp; cbn; [lia|].
  rewrite He. destruct hErr; cbn; lia.
Qed.

Lemma loop_stops c k (cfg : config nat T) fuel : errorHandler cfg = None → provenance cfg = None → (∀ i, k ≤ i → is_Some (c i)) →
  ∀ r stop lineNum sh hErr s, polling c stop →
  (lines_loop read_line count fuel cfg r stop lineNum sh hErr s).2 ≤ s + tick_budget k stop.
Proof.
  intros He Hp Hc. induction fuel as [|fuel IH]; intros r stop lineNum sh hErr s Hs; [cbn; lia|]. cbn [lines_loop].
  destruct (NewLineReader _ _ r) as [[raw| |e] r']; [|cbn; lia..].
  destruct (Tick stop) as [[e|] stop'] eqn:Et; [cbn; lia|].
  destruct (Tick_budget c k stop stop' Hc Hs Et) as [Hs' Hb].
  pose proof (handle_line_counts cfg raw (lineNum + 1) sh hErr s He Hp) as Hh.
  destruct (handle_line _ _ cfg raw (lineNum + 1) sh hErr s) as [[[[e|] sh'] hErr'] s']; cbn [snd] in Hh |- *; [lia|].
  specialize (IH r' stop' (lineNum + 1)%Z sh' hErr' s' Hs'). lia.
Qed.
End stopping.

(** C38: a parse whose context is done notices: when the context reports an error
    from its [k]-th poll on, fewer than 1024 statements per poll reach the
    handler, whatever the text holds, and none when it was done at the start. *)
Theorem parse_stops_when_done : ∀ {T} (read_line : Z → parserM T) c k r (opts : list (Option_ nat T)) n,
  (∀ i, k ≤ i → is_Some (c i)) →
  errorHandler (apply_options opts) = None → provenance (apply_options opts) = None →
  (parse_lines read_line (λ _ n, (None, S n)) (Some c) r opts n 0).2 ≤ 1024 * k - 1.
Proof.
  intros T read_line c k r opts n Hc He Hp. unfold parse_lines. cbn [Poll New_stopper st_err st_ctx st_polls].
  destruct (c 0) as [e|] eqn:E0; cbn [fmap option_fmap option_map]; [cbn; lia|].
  assert (k ≠ 0) by (intros ->; destruct (Hc 0) as [e He0]; [lia|congruence]).
  set (stop := MkStopper _ _ _ _). etrans; [apply (loop_stops read_line c k _ _ He Hp Hc)|].
  - unfold polling, stop, pollEvery. cbn. split_and!; (done || lia).
  - change (tick_budget k stop) with (1024 * (k - 1) + 1023)%nat. lia.
Qed.

(** ** Concrete inputs *)

#[local] Instance document_range_instance : GoRange | 100 := sorted_range.

Definition ex_statement : Triple := MkTriple (TBNode (MkBNode "B:a.1")) (NewURIRefUnsafe "http://example.org/p") ex_line_term.
Definition ex_quad : Quad := MkQuad ex_statement (Some (TURIRef (NewURIRefUnsafe "http://example.org/g"))).
Definition ex_source : MemoryStore := (store_step None NewMemoryStore (DsAdd ex_statement ex_graph)).2.

Lemma ex_statement_ok : statement_ok ex_statement.
Proof.
  split; [|split; [reflexivity|split; [|exact ex_line_term_ok]]].
  - exists "a.1". split; [reflexivity|]. split; [by vm_compute|split; by vm_compute].
  - exists "http://example.org/p". split; [reflexivity|]. repeat split; by vm_compute.
Qed.

Lemma ex_quad_ok : Forall quad_ok [ex_quad].
Proof.
  constructor; [|constructor]. split; [exact ex_statement_ok|]. split; [|split; reflexivity].
  exists "http://example.org/g". split; [reflexivity|]. repeat split; by vm_compute.
Qed.

Lemma ex_source_ok : ms_ok ex_source.
Proof. apply (ms_run_ok [DsAdd ex_statement ex_graph]). Qed.

Lemma graph_add_empty t : graph_add ∅ t = {[tkey t := t]}.
Proof. unfold graph_add. destruct (lookup _ ∅) eqn:E; [|done]. by rewrite lookup_empty in E. Qed.

Lemma ex_source_only t : t ∈ graph_triples (graph_of ex_source ex_node) → t = ex_statement.
Proof.
  unfold graph_of. change (sabs ex_source) with (ms_abs (store_run NewMemoryStore [DsAdd ex_statement ex_graph])).
  rewrite (proj2 (ms_run_ok [DsAdd ex_statement ex_graph])). cbn [ds_run foldl ds_step]. unfold ds_add.
  change (identifier ex_node) with ex_graph. rewrite ds_update_same.
  assert (ds_graph (MkDataset ∅ ∅) ex_graph = ∅) as -> by by vm_compute.
  rewrite graph_add_empty. unfold graph_triples. rewrite map_to_list_singleton. set_solver.
Qed.

Lemma ex_source_triples t : t ∈ graph_triples (graph_of ex_source ex_node) → statement_ok t.
Proof. intros ->%ex_source_only. exact ex_statement_ok. Qed.

(** The lines fit the scanner's default buffer. *)
Lemma ex_source_fits t line : t ∈ graph_triples (graph_of ex_source ex_node) → ntTriple t = Ok line → fits 0 false line.
Proof. intros ->%ex_source_only H. vm_compute in H. injection H as <-. right. by vm_compute. Qed.

Lemma ex_quad_fits q line : q ∈ [ex_quad] → quad_line q = Ok line → fits 0 false line.
Proof. intros ->%list_elem_of_singleton H. vm_compute in H. injection H as <-. right. by vm_compute. Qed.

Lemma no_provenance {S T} : only_looks (S := S) (T := T) None.
Proof. done. Qed.

Lemma nt_document_roundtrip_witness :
  ∃ doc st'' sc ts ts',
    nt_Serialize (λ s w, (None, w +:+ s)) None ex_node ex_source EmptyString = (None, doc) ∧
    nt_Parse pretty.pretty_nat None None ex_node (MkReader doc None) [WithPreserveBlankNodeIDs] 0 ex_store = (None, st'') ∧
    ms_ok st'' ∧ ts ≡ₚ graph_triples (graph_of ex_source ex_node) ∧ Forall2 (renamed_triple sc) ts ts' ∧
    (∃ k, scope_fresh pretty.pretty_nat sc k) ∧
    graph_of st'' ex_node = foldl graph_add (graph_of ex_store ex_node) ts' ∧
    (true = true → graph_of st'' ex_node = graph_of ex_store ex_node ∪ graph_of ex_source ex_node).
Proof.
  exact (nt_document_roundtrip (St := MemoryStore) (St' := MemoryStore) _ ex_source ex_store ex_node ex_node
    [WithPreserveBlankNodeIDs] 0 hex_uuid_inj ex_source_ok ex_store_ok ex_source_triples ex_source_fits no_provenance).
Defined.

Lemma nq_document_roundtrip_witness :
  ∃ w qs' sc,
    write_quads [ex_quad] (NewWriter EmptyString) = (None, w) ∧
    nq_ParseStream pretty.pretty_nat (MkReader (bw_dest (w_bufio w)) None) (Some (λ q acc, (None, acc ++ [q])))
      [] 0 [] = (None, qs') ∧
    Forall2 (renamed_quad sc) (quad_statement <$> [ex_quad]) qs' ∧ (∃ k, scope_fresh pretty.pretty_nat sc k) ∧
    (false = true → qs' = quad_statement <$> [ex_quad]).
Proof. exact (nq_document_roundtrip _ [ex_quad] [] 0 hex_uuid_inj ex_quad_ok ex_quad_fits no_provenance). Defined.

Lemma parse_stops_when_done_witness :
  (parse_lines (read_nt_statement pretty.pretty_nat) (λ _ n, (None, S n))
    (Some (λ i, if decide (i = 0) then None else Some (Errorf "context canceled" [])))
    (MkReader (document ["<x:s> <x:p> <x:o> ."; "# more"]) None) [] 0 0).2 ≤ 1024 * 1 - 1.
Proof.
  apply parse_stops_when_done; [|reflexivity|reflexivity]. intros i Hi. rewrite decide_False by lia. by eexists.
Defined.
