(* ===== verification/NTStream.v ===== *)
(** * What a text does to its handler

    The line loop of packages [nt] and [nq], for any text: blank lines, comments,
    malformed lines and the error handler's repairs, refusals of the handler, lines
    too long for the scanner.  The specification is a relation on the lines of the
    text, with neither the flag the code keeps about the handler's errors nor its
    readers of lines. *)

From S2P Require Import Prelude GoStrings Utf8 Strconv Term Decode TermKey ParseScope NTSyntax NTReadBack LineReader NTriples NTDocument.
From stdpp Require Import pretty options.

(** ** The lines of a text *)

Fixpoint drop_last_empty (ls : list string) : list string :=
  match ls with
  | [] => []
  | l :: ls => match ls with
               | [] => if is_empty l then [] else [l]
               | _ => l :: drop_last_empty ls
               end
  end.

(** What the line feeds of a text end or separate: a text that ends in one has no
    line after it. *)
Definition text_lines (text : string) : list string := drop_last_empty (SplitByte text lf).

Lemma SplitByte_line a rest : has_byte lf a = false → SplitByte (a +:+ String lf rest) lf = a :: SplitByte rest lf.
Proof.
  induction a as [|c a IH]; [done|]. rewrite has_byte_cons, orb_false_iff, sapp_cons. intros [Hc Ha].
  cbn [SplitByte]. by rewrite Hc, IH.
Qed.

Lemma SplitByte_none a : has_byte lf a = false → SplitByte a lf = [a].
Proof.
  induction a as [|c a IH]; [done|]. rewrite has_byte_cons, orb_false_iff. intros [Hc Ha].
  cbn [SplitByte]. by rewrite Hc, IH.
Qed.

Lemma text_lines_cons a rest : has_byte lf a = false → text_lines (a +:+ String lf rest) = a :: text_lines rest.
Proof.
  intros Ha. unfold text_lines. rewrite SplitByte_line by done. pose proof (SplitByte_cons_ne rest lf) as Hn.
  cbn [drop_last_empty]. by destruct (SplitByte rest lf).
Qed.

Lemma text_lines_last a : has_byte lf a = false → a ≠ EmptyString → text_lines a = [a].
Proof. intros Ha Hn. unfold text_lines. rewrite SplitByte_none by done. by destruct a. Qed.

(** ** The end of a line does not matter *)

Lemma string_snoc_inj s t (c d : ascii) : s +:+ str1 c = t +:+ str1 d → s = t ∧ c = d.
Proof.
  intros H. apply app_inv_len in H as [-> H]; [by injection H as ->|].
  apply (f_equal len) in H. rewrite !len_app in H. change (len (str1 c)) with 1 in H. change (len (str1 d)) with 1 in H. lia.
Qed.

Lemma has_byte_snoc c s : has_byte c (s +:+ str1 c) = true.
Proof. unfold str1. by rewrite has_byte_app, has_byte_cons, Ascii.eqb_refl, orb_true_r. Qed.

(** A byte that is white space and ends no other white space. *)
Definition space_byte (c : ascii) : Prop :=
  str1 c ∈ space_strings ∧ ∀ p, p ∈ space_strings → p = str1 c ∨ has_byte c p = false.

Lemma space_strings_nonempty p : p ∈ space_strings → p ≠ EmptyString.
Proof. unfold space_strings. intros (r & -> & _)%list_elem_of_fmap. apply encode_rune_nonempty. Qed.

Lemma eol_space_byte c : is_eol c = true → space_byte c.
Proof.
  unfold is_eol. rewrite orb_true_iff, !Ascii.eqb_eq. intros Hc. split.
  - apply list_elem_of_fmap. destruct Hc as [-> | ->]; [exists 13%N|exists 10%N]; (split; [by vm_compute|]); unfold space_runes; set_solver.
  - apply Forall_forall. unfold space_strings, space_runes.
    destruct Hc as [-> | ->]; repeat first [apply Forall_nil_2|apply Forall_cons_2; [first [by right; vm_compute|by left; vm_compute]|]].
Qed.

Lemma HasPrefix_snoc s c p : space_byte c → p ∈ space_strings → s ≠ EmptyString → HasPrefix (s +:+ str1 c) p = HasPrefix s p.
Proof.
  intros [_ Hsp] Hp Hs. apply eq_true_iff_eq. rewrite !HasPrefix_true. split.
  - intros [t Ht]. destruct (decide (t = EmptyString)) as [->|Hn].
    + rewrite sapp_nil_r in Ht. subst p. destruct (Hsp _ Hp) as [E|E].
      * change (str1 c) with (EmptyString +:+ str1 c) in E at 2. by apply string_snoc_inj in E as [-> _].
      * by rewrite has_byte_snoc in E.
    + destruct (string_snoc t Hn) as (t' & d & ->). rewrite <- app_assoc_s in Ht. apply string_snoc_inj in Ht as [-> _]. eauto.
  - intros [t ->]. exists (t +:+ str1 c). by rewrite app_assoc_s.
Qed.

Lemma find_same {A} (f g : A → bool) l : (∀ x, x ∈ l → f x = g x) → List.find f l = List.find g l.
Proof.
  induction l as [|x l IH]; intros H; [done|]. cbn. rewrite H by set_solver. rewrite IH; [done|]. intros; apply H; set_solver.
Qed.

Lemma find_unique {A} (f : A → bool) l a : a ∈ l → f a = true → (∀ x, x ∈ l → f x = true → x = a) → List.find f l = Some a.
Proof.
  intros Ha Hf Hu. destruct (List.find f l) as [x|] eqn:E.
  - apply List.find_some in E as [Hx Hfx]. f_equal. apply Hu; [by apply list_elem_of_In|done].
  - apply List.find_none with (x := a) in E; [congruence|]. by apply list_elem_of_In.
Qed.

Lemma trimLeft_empty f : trimLeft_go f EmptyString = EmptyString.
Proof. destruct f; [done|]. cbn [trimLeft_go]. by replace (List.find _ _) with (@None string) by (by vm_compute). Qed.

Lemma trimLeft_snoc c f s : space_byte c → len s ≤ f →
  trimLeft_go (S f) (s +:+ str1 c) = (if is_empty (trimLeft_go f s) then EmptyString else trimLeft_go f s +:+ str1 c).
Proof.
  intros Hc. revert s. assert (H1 : ∀ f, trimLeft_go (S f) (str1 c) = EmptyString).
  { intros f'. cbn [trimLeft_go]. rewrite (find_unique _ _ (str1 c)).
    - change (sdrop (len (str1 c)) (str1 c)) with EmptyString. apply trimLeft_empty.
    - apply Hc.
    - rewrite HasPrefix_true. exists EmptyString. by rewrite sapp_nil_r.
    - intros x Hx. rewrite HasPrefix_true. intros [t Ht]. pose proof (space_strings_nonempty x Hx) as Hn.
      destruct x as [|d x]; [done|]. rewrite sapp_cons in Ht. injection Ht as <- Ht. by destruct x. }
  induction f as [|f IH]; intros s Hf.
  - destruct s; [|rewrite len_cons in Hf; lia]. apply H1.
  - destruct (decide (s = EmptyString)) as [->|Hs]; [by rewrite trimLeft_empty, sapp_nil_l, H1|].
    cbn [trimLeft_go]. rewrite (find_same _ (HasPrefix s)) by (intros x Hx; by apply HasPrefix_snoc).
    destruct (List.find (HasPrefix s) space_strings) as [p|] eqn:E; [|by destruct s].
    apply List.find_some in E as [Hp [t ->]%HasPrefix_true].
    apply list_elem_of_In, space_strings_nonempty in Hp. rewrite app_assoc_s, !sdrop_app.
    apply IH. rewrite len_app in Hf. destruct p; [done|]. rewrite len_cons in Hf. lia.
Qed.

Lemma HasSuffix_true s p : HasSuffix s p = true ↔ ∃ t, s = t +:+ p.
Proof.
  unfold HasSuffix. rewrite andb_true_iff, Nat.leb_le, String.eqb_eq. split.
  - intros [_ H]. exists (stake (len s - len p) s). rewrite <- H at 2. by rewrite stake_sdrop.
  - intros [t ->]. rewrite len_app. split; [lia|]. replace (len t + len p - len p) with (len t) by lia. apply sdrop_app.
Qed.

Lemma trimRight_snoc c f s : space_byte c → trimRight_go (S f) (s +:+ str1 c) = trimRight_go f s.
Proof.
  intros [Hc Hsp]. cbn [trimRight_go]. assert (Hsuf : HasSuffix (s +:+ str1 c) (str1 c) = true) by (apply HasSuffix_true; eauto).
  rewrite (find_unique _ _ (str1 c)); [|done|done|].
  - unfold TrimSuffix. rewrite Hsuf, len_app. replace (len s + len (str1 c) - len (str1 c)) with (len s) by lia. by rewrite stake_app.
  - intros x Hx [t Ht]%HasSuffix_true. destruct (Hsp x Hx) as [|E]; [done|].
    destruct (string_snoc x (space_strings_nonempty x Hx)) as (x' & d & ->). rewrite <- app_assoc_s in Ht.
    apply string_snoc_inj in Ht as [_ <-]. by rewrite has_byte_snoc in E.
Qed.

Lemma TrimSpace_snoc c s : is_eol c = true → TrimSpace (s +:+ str1 c) = TrimSpace s.
Proof.
  intros Hc%eol_space_byte. unfold TrimSpace. rewrite len_app. change (len (str1 c)) with 1. rewrite Nat.add_1_r.
  rewrite trimLeft_snoc by done. destruct (trimLeft_go (len s) s) as [|d x] eqn:E; cbn [is_empty]; [done|].
  rewrite len_app. change (len (str1 c)) with 1. rewrite Nat.add_1_r. by apply trimRight_snoc.
Qed.

Lemma TrimSpace_eol s : TrimSpace (TrimRightP is_eol s) = TrimSpace s.
Proof.
  remember (len s) as n eqn:Hn. revert s Hn. induction n as [|n IH]; intros s Hn.
  - destruct s; [done|]. rewrite len_cons in Hn. lia.
  - destruct (string_snoc s) as (a & c & ->); [by intros ->|]. rewrite TrimRightP_snoc. destruct (is_eol c) eqn:Ec; [|done].
    rewrite TrimSpace_snoc by done. apply IH. rewrite len_app in Hn. change (len (str1 c)) with 1 in Hn. lia.
Qed.

Lemma TrimSpace_dropCR s : TrimSpace (dropCR s) = TrimSpace s.
Proof.
  unfold dropCR, TrimSuffix. destruct (HasSuffix s (str1 cr)) eqn:E; [|done]. apply HasSuffix_true in E as [t ->].
  rewrite len_app. replace (len t + len (str1 cr) - len (str1 cr)) with (len t) by lia. by rewrite stake_app, TrimSpace_snoc.
Qed.

(** ** What each line does *)

Section stream.
Context {St T : Type}.
(** The grammar of a line, which draws labels and remembers IRIs, and the caller's
    handler. *)
Context (read_line : Z → parserM T) (handler : T → St → option error * St) (cfg : config St T).

(** What becomes of the text of one statement: a statement that the handler takes
    or refuses, or none. *)
Inductive outcome :=
| Taken (sh : shared) (s : St)
| Refused (e : error) (s : St)
| Malformed (e : error) (sh : shared).

(** The provenance callback sees what the handler took, with its line number. *)
Definition told (t : T) (n : Z) (s : St) : St := match provenance cfg with Some prov => prov t n s | None => s end.

Inductive statement_run (n : Z) (text : string) (sh : shared) (s : St) : outcome → Prop :=
| SR_taken t p s' :
    read_line n (on_line text sh) = (Ok t, p) → handler t s = (None, s') →
    statement_run n text sh s (Taken (after_line p) (told t n s'))
| SR_refused t p e s' :
    read_line n (on_line text sh) = (Ok t, p) → handler t s = (Some e, s') →
    statement_run n text sh s (Refused (Wrapf "line %d: %w" [FormatInt n] e) s')
| SR_malformed e p :
    read_line n (on_line text sh) = (Err e, p) → statement_run n text sh s (Malformed e (after_line p)).

(** What a line leaves: a parse that goes on, or its end. *)
Inductive progress :=
| GoesOn (sh : shared) (s : St)
| Ends (e : error) (s : St).

(** Nothing but white space, or a comment. *)
Definition no_statement (text : string) : Prop := text = EmptyString ∨ ∃ u, text = String "#" u.

Definition retry_failed (n : Z) (e : error) : error := Wrapf "line %d: retry failed: %w" [FormatInt n] e.

(** The error handler sees malformed lines only, and is asked once. *)
Inductive line_run (n : Z) (text : string) (sh : shared) (s : St) : progress → Prop :=
| LR_nothing : no_statement text → line_run n text sh s (GoesOn sh s)
| LR_taken sh' s' :
    ¬ no_statement text → statement_run n text sh s (Taken sh' s') → line_run n text sh s (GoesOn sh' s')
| LR_refused e s' :
    ¬ no_statement text → statement_run n text sh s (Refused e s') → line_run n text sh s (Ends e s')
| LR_malformed e sh' :
    ¬ no_statement text → statement_run n text sh s (Malformed e sh') → errorHandler cfg = None →
    line_run n text sh s (Ends e s)
| LR_dropped e sh' eh fixed s' :
    ¬ no_statement text → statement_run n text sh s (Malformed e sh') →
    errorHandler cfg = Some eh → eh n text e s = (fixed, false, s') →
    line_run n text sh s (GoesOn sh' s')
| LR_repaired e sh1 eh fixed s1 sh' s' :
    ¬ no_statement text → statement_run n text sh s (Malformed e sh1) →
    errorHandler cfg = Some eh → eh n text e s = (fixed, true, s1) →
    statement_run n fixed sh1 s1 (Taken sh' s') → line_run n text sh s (GoesOn sh' s')
| LR_repair_refused e sh1 eh fixed s1 e' s' :
    ¬ no_statement text → statement_run n text sh s (Malformed e sh1) →
    errorHandler cfg = Some eh → eh n text e s = (fixed, true, s1) →
    statement_run n fixed sh1 s1 (Refused e' s') → line_run n text sh s (Ends (retry_failed n e') s')
| LR_repair_malformed e sh1 eh fixed s1 e' sh' :
    ¬ no_statement text → statement_run n text sh s (Malformed e sh1) →
    errorHandler cfg = Some eh → eh n text e s = (fixed, true, s1) →
    statement_run n fixed sh1 s1 (Malformed e' sh') → line_run n text sh s (Ends (retry_failed n e') s1).

Definition line_limit : Z := if (0 <? maxLineLen cfg)%Z then maxLineLen cfg else MaxScanTokenSize.
Definition too_long (n : Z) : error :=
  Wrapf "line %d: %w" [FormatInt n]
    (Wrapf "%w (%d bytes); raise it with WithMaxLineLength or remove it with WithUnboundedLines" [FormatInt line_limit] ErrLineTooLong).

(** The lines from the [n]-th on: they are run in order until one ends the parse
    or does not fit the scanner's buffer. *)
Inductive text_run : Z → list string → shared → St → option error → St → Prop :=
| TR_end n sh s : text_run n [] sh s None s
| TR_too_long n line lines sh s :
    ¬ fits (maxLineLen cfg) (unbounded cfg) line → text_run n (line :: lines) sh s (Some (too_long n)) s
| TR_ends n line lines sh s e s' :
    fits (maxLineLen cfg) (unbounded cfg) line → line_run n (TrimSpace line) sh s (Ends e s') →
    text_run n (line :: lines) sh s (Some e) s'
| TR_goes_on n line lines sh s sh1 s1 err s' :
    fits (maxLineLen cfg) (unbounded cfg) line → line_run n (TrimSpace line) sh s (GoesOn sh1 s1) →
    text_run (n + 1) lines sh1 s1 err s' → text_run n (line :: lines) sh s err s'.

(** ** The code runs the lines *)

Lemma blank_spec text : is_empty text || HasPrefix text "#" = true ↔ no_statement text.
Proof.
  unfold no_statement. destruct text as [|c u]; cbn [is_empty orb]; [by split; auto|].
  rewrite HasPrefix_cons. split.
  - intros [->%Ascii.eqb_eq _]%andb_true_iff. eauto.
  - intros [|[v [= -> ->]]]; [done|]. by rewrite Ascii.eqb_refl, HasPrefix_nil.
Qed.

(** [parseNTLine] and [parseNQLine]. *)
Definition line_result_of (o : outcome) (sh : shared) (s : St) (r : option error * shared * option error * St) : Prop :=
  match o with
  | Taken sh' s' => r = (None, sh', None, s')
  | Refused e s' => ∃ sh' e', r = (Some e, sh', Some e', s')
  | Malformed e sh' => r = (Some e, sh', None, s)
  end.

Lemma parse_line_run n text sh s : ∃ o, statement_run n text sh s o ∧
  line_result_of o sh s (parse_line read_line handler cfg text n sh None s).
Proof.
  unfold parse_line. destruct (read_line n (on_line text sh)) as [[t|e] p] eqn:E.
  - destruct (handler t s) as [[e|] s'] eqn:Eh.
    + eexists. split; [by econstructor|]. cbn. eauto.
    + eexists. split; [by econstructor|]. done.
  - eexists. split; [by econstructor|]. done.
Qed.

(** One line, its error handler included. *)
Definition progress_result (pr : progress) (r : option error * shared * option error * St) : Prop :=
  match pr with
  | GoesOn sh' s' => r = (None, sh', None, s')
  | Ends e s' => ∃ sh' h, r = (Some e, sh', h, s')
  end.

Lemma handle_line_run n raw sh s : ∃ pr, line_run n (TrimSpace raw) sh s pr ∧
  progress_result pr (handle_line read_line handler cfg raw n sh None s).
Proof.
  unfold handle_line. set (text := TrimSpace raw). pose proof (blank_spec text) as Hb.
  destruct (is_empty text || HasPrefix text "#").
  { eexists. split; [by apply LR_nothing, Hb|done]. }
  assert (Hn : ¬ no_statement text) by (intros H; by apply Hb in H).
  destruct (parse_line_run n text sh s) as ([sh' s'|e s'|e sh1] & Hr & E); cbn in E.
  - rewrite E. eexists. split; [by eapply LR_taken|done].
  - destruct E as (sh' & e' & ->). eexists. split; [by eapply LR_refused|]. cbn. eauto.
  - rewrite E. destruct (errorHandler cfg) as [eh|] eqn:Eeh.
    2: { eexists. split; [by eapply LR_malformed|]. cbn. eauto. }
    destruct (eh n text e s) as [[fixed [|]] s1] eqn:Er.
    2: { eexists. split; [by eapply LR_dropped|done]. }
    destruct (parse_line_run n fixed sh1 s1) as ([sh' s'|e' s'|e' sh'] & Hr' & E'); cbn in E'.
    + rewrite E'. eexists. split; [by eapply LR_repaired|done].
    + destruct E' as (sh' & e2 & ->). eexists. split; [by eapply LR_repair_refused|]. cbn. eauto.
    + rewrite E'. eexists. split; [by eapply LR_repair_malformed|]. cbn. eauto.
Qed.

(** The relation leaves nothing open. *)
Lemma statement_run_det n text sh s o o' : statement_run n text sh s o → statement_run n text sh s o' → o = o'.
Proof. intros H H'. destruct H; inversion H'; simplify_eq; congruence. Qed.

Lemma line_run_det n text sh s pr pr' : line_run n text sh s pr → line_run n text sh s pr' → pr = pr'.
Proof.
  intros H H'. destruct H; inversion H'; simplify_eq; try done;
    repeat match goal with
    | H1 : ?x = (_, _, _), H2 : ?x = (_, _, _) |- _ => rewrite H1 in H2; simplify_eq
    | H1 : statement_run ?n ?t ?sh ?s _, H2 : statement_run ?n ?t ?sh ?s _ |- _ =>
        pose proof (statement_run_det n t sh s _ _ H1 H2); clear H2; simplify_eq
    end; done.
Qed.

Lemma text_run_det n lines sh s err1 s1 err2 s2 :
  text_run n lines sh s err1 s1 → text_run n lines sh s err2 s2 → err1 = err2 ∧ s1 = s2.
Proof.
  intros H. revert err2 s2. induction H as [|n line lines sh s Hf|n line lines sh s e s' Hf Hl|n line lines sh s sh1 s1 err s' Hf Hl Ht IH];
    intros err2 s2 H'; inversion H'; simplify_eq; try done;
    match goal with
    | H1 : line_run ?n ?t ?sh ?s _, H2 : line_run ?n ?t ?sh ?s _ |- _ =>
        pose proof (line_run_det n t sh s _ _ H1 H2); clear H2; simplify_eq
    end; first [done|by apply IH].
Qed.

(** The reader of lines delivers the lines of the text. *)
Definition reader_error : error :=
  Wrapf "%w (%d bytes); raise it with WithMaxLineLength or remove it with WithUnboundedLines" [FormatInt line_limit] ErrLineTooLong.

Definition delivers (line rest : string) (r : line_result * Reader) : Prop :=
  (¬ fits (maxLineLen cfg) (unbounded cfg) line ∧ r.1 = LineErr reader_error) ∨
  (fits (maxLineLen cfg) (unbounded cfg) line ∧ ∃ raw, r = (Line raw, MkReader rest None) ∧ TrimSpace raw = TrimSpace line).

Lemma scanner_size : Z.max line_limit MaxScanTokenSize = Z.max (maxLineLen cfg) MaxScanTokenSize.
Proof. unfold line_limit, MaxScanTokenSize. destruct (Z.ltb_spec 0 (maxLineLen cfg)); lia. Qed.

Lemma delivers_line line rest : has_byte lf line = false →
  delivers line rest (NewLineReader (maxLineLen cfg) (unbounded cfg) (MkReader (line +:+ String lf rest) None)).
Proof.
  intros Hv. assert (Hs : sdrop (S (len line)) (line +:+ String lf rest) = rest).
  { replace (S (len line)) with (len line + 1) by lia. by rewrite sdrop_app_add. }
  unfold delivers, fits, NewLineReader. destruct (unbounded cfg); unfold next_unbounded, next_scanned; cbn [rd_data rd_err];
    rewrite IndexByte_app, Hs by done.
  - right. split; [by left|]. eexists. split; [reflexivity|]. rewrite TrimSpace_eol.
    replace (stake (S (len line)) (line +:+ String lf rest)) with (line +:+ str1 lf); [by apply TrimSpace_snoc|].
    change (String lf rest) with (str1 lf +:+ rest). rewrite <- app_assoc_s.
    replace (S (len line)) with (len (line +:+ str1 lf)) by (rewrite len_app; change (len (str1 lf)) with 1; lia).
    by rewrite stake_app.
  - fold line_limit. rewrite scanner_size, stake_app. destruct (Z.ltb_spec (Z.of_nat (len line)) (Z.max (maxLineLen cfg) MaxScanTokenSize)).
    + right. split; [by right|]. eexists. split; [reflexivity|]. apply TrimSpace_dropCR.
    + left. split; [intros [|]; [done|lia]|done].
Qed.

Lemma delivers_last line : has_byte lf line = false → line ≠ EmptyString →
  delivers line EmptyString (NewLineReader (maxLineLen cfg) (unbounded cfg) (MkReader line None)).
Proof.
  intros Hv%IndexByte_None Hn. assert (He : is_empty line = false) by (by destruct line).
  unfold delivers, fits, NewLineReader. destruct (unbounded cfg); unfold next_unbounded, next_scanned; cbn [rd_data rd_err];
    rewrite Hv, ?He.
  - right. split; [by left|]. eexists. split; [reflexivity|]. apply TrimSpace_eol.
  - fold line_limit. rewrite scanner_size. destruct (Z.leb_spec (Z.max (maxLineLen cfg) MaxScanTokenSize) (Z.of_nat (len line))).
    + left. split; [intros [|]; [done|lia]|done].
    + right. split; [by right|]. eexists. split; [reflexivity|]. apply TrimSpace_dropCR.
Qed.

Lemma next_text text : text ≠ EmptyString → ∃ line rest,
  text_lines text = line :: text_lines rest ∧ len rest < len text ∧
  delivers line rest (NewLineReader (maxLineLen cfg) (unbounded cfg) (MkReader text None)).
Proof.
  intros Hn. destruct (has_byte lf text) eqn:E.
  - destruct (IndexByte text lf) as [i|] eqn:Ei; [|apply IndexByte_None in Ei; congruence].
    apply IndexByte_Some in Ei as (line & rest & -> & _ & Hv). exists line, rest.
    split; [by apply text_lines_cons|]. split; [rewrite len_app, len_cons; lia|by apply delivers_line].
  - exists text, EmptyString. split; [by rewrite text_lines_last|]. split; [|by apply delivers_last].
    destruct text; [done|]. rewrite len_nil, len_cons. lia.
Qed.

Lemma lines_loop_run fuel text stop n sh s :
  len text < fuel → st_ctx stop = None → st_err stop = None →
  ∃ err s', lines_loop read_line handler fuel cfg (MkReader text None) stop n sh None s = (err, s') ∧
            text_run (n + 1) (text_lines text) sh s err s'.
Proof.
  revert text stop n sh s. induction fuel as [|fuel IH]; intros text stop n sh s Hf Hc He; [lia|]. cbn [lines_loop].
  destruct (decide (text = EmptyString)) as [->|Hn].
  { rewrite next_eof. eexists _, _. split; [reflexivity|]. apply TR_end. }
  destruct (next_text text Hn) as (line & rest & -> & Hl & [[Hfit E]|[Hfit (raw & E & Htrim)]]).
  - destruct (NewLineReader _ _ _) as [l r]. cbn [fst] in E. subst l. eexists _, _. split; [reflexivity|]. by apply TR_too_long.
  - rewrite E. unfold Tick. rewrite Hc, He.
    destruct (handle_line_run (n + 1) raw sh s) as ([sh1 s1|e s1] & Hr & Ep); cbn in Ep; rewrite Htrim in Hr.
    + rewrite Ep. destruct (IH rest stop (n + 1)%Z sh1 s1) as (err & s' & El & Ht); [lia|done|done|].
      eexists _, _. split; [exact El|]. by eapply TR_goes_on.
    + destruct Ep as (sh' & h & ->). eexists _, _. split; [reflexivity|]. by eapply TR_ends.
Qed.
End stream.

(** The whole parse, from the options and the UUIDs drawn before. *)
Definition stream_run {S T} (read_line : Z → parserM T) (handler : T → S → option error * S) (opts : list (Option_ S T))
    (n : nat) (text : string) (s : S) (err : option error) (s' : S) : Prop :=
  let cfg := apply_options opts in
  text_run read_line handler cfg 1 (text_lines text) (new_shared (preserveBlankNodeIDs cfg) n) s err s'.

Lemma parse_lines_run {S T} (read_line : Z → parserM T) (handler : T → S → option error * S) opts n text s err s' :
  parse_lines read_line handler None (MkReader text None) opts n s = (err, s') ↔ stream_run read_line handler opts n text s err s'.
Proof.
  unfold parse_lines, stream_run. cbn [Poll New_stopper st_err st_ctx rd_data].
  destruct (lines_loop_run read_line handler (apply_options opts) (Datatypes.S (len text)) text (New_stopper None) 0
    (new_shared (preserveBlankNodeIDs (apply_options opts)) n) s) as (err1 & s1 & E & Ht); [lia|done|done|].
  rewrite E. split; [by intros [= <- <-]|]. intros Ht'. by destruct (text_run_det _ _ _ _ _ _ _ _ _ _ _ Ht Ht') as [-> ->].
Qed.

(** C37: what any text does in the streams of [nt] and [nq], whose context is never
    done and whose reader does not fail: the parse ends with an error and a state of
    the handler exactly when the lines of the text do, run in order.  White space and
    comments do nothing and count as lines; a statement goes to the handler and then,
    when it was taken, to the provenance callback with its line number; the handler's
    refusal ends the parse, wrapped with the line, and is never given to the error
    handler; a malformed line ends the parse, or is given to the error handler, which
    drops it or repairs it once, a failed repair ending the parse; a line too long for
    the scanner's buffer ends it with its number. *)
Theorem streams_run_their_lines : ∀ (uuid : nat → string) S text n (s : S) err s',
  (∀ h opts, nq_ParseStream uuid (MkReader text None) (Some h) opts n s = (err, s') ↔
             stream_run (read_nq_statement uuid) h opts n text s err s') ∧
  (∀ h opts, nt_ParseStream uuid (MkReader text None) (Some h) opts n s = (err, s') ↔
             stream_run (read_nt_statement uuid) h opts n text s err s').
Proof. intros uuid S text n s err s'. split; intros h opts; apply parse_lines_run. Qed.

(** ** A concrete text *)

(** A comment, an empty line, a statement whose dot is missing and a good one, with
    line ends of both kinds and none at the end. *)
Definition ex_text : string :=
  "# people" +:+ str1 lf +:+ str1 cr +:+ str1 lf +:+ "  <x:s> <x:p> <x:o> " +:+ str1 cr +:+ str1 lf +:+ "<x:s> <x:p> _:b .".

(** The callbacks write down what they see. *)
Definition ex_options (repair : bool) : list (Option_ (list (string * Z)) Triple) :=
  [WithProvenance (λ _ n s, s ++ [("taken", n)]); WithErrorHandler (λ n line _ s, (line +:+ " .", repair, s ++ [("malformed", n)]))].

Definition ex_stream (h : list (string * Z) → option error) (repair : bool) :=
  nt_ParseStream pretty.pretty_nat (MkReader ex_text None) (Some (λ _ s, (h s, s))) (ex_options repair) 0 [].

Lemma ex_repaired : ex_stream (λ _, None) true = (None, [("malformed", 3%Z); ("taken", 3%Z); ("taken", 4%Z)]).
Proof. by vm_compute. Qed.

Lemma ex_dropped : ex_stream (λ _, None) false = (None, [("malformed", 3%Z); ("taken", 4%Z)]).
Proof. by vm_compute. Qed.

(** A refusal at line 4 is not offered for repair. *)
Lemma ex_refused_line : ex_stream (λ _, Some (Errorf "full" [])) false =
  (Some (Wrapf "line %d: %w" ["4"] (Errorf "full" [])), [("malformed", 3%Z)]).
Proof. by vm_compute. Qed.
