(* ===== verification/UnionFind.v ===== *)
(** * Equivalence classes of terms

    [reasoning/unionfind.go]: the disjoint sets the [owl:sameAs] rules work on, a
    forest of parent pointers with path halving and union by rank. *)

From S2P Require Import Prelude GoStrings Term.
From stdpp Require Import relations options.

(** ** The code *)

Record unionFind := MkUF { parent : gmap string string; rank : gmap string Z; uf_terms : gmap string Term }.

Definition newUnionFind : unionFind := MkUF ∅ ∅ ∅.
Definition uf_size (uf : unionFind) : nat := size (parent uf).

Definition uf_add (uf : unionFind) (t : Term) : string * unionFind :=
  let k := TermKey t in
  match parent uf !! k with
  | Some _ => (k, uf)
  | None => (k, MkUF (<[k := k]> (parent uf)) (<[k := 0%Z]> (rank uf)) (<[k := t]> (uf_terms uf)))
  end.

(** A missing key reads as the empty string. *)
Definition parent_of (m : gmap string string) (k : string) : string := default EmptyString (m !! k).

(** Path halving: every step moves to the grandparent and makes it the parent. *)
Fixpoint find_loop (fuel : nat) (m : gmap string string) (k : string) : string * gmap string string :=
  match fuel with
  | O => (k, m)
  | S fuel =>
      if bool_decide (parent_of m k = k) then (k, m)
      else
        let gp := parent_of m (parent_of m k) in
        find_loop fuel (<[k := gp]> m) gp
  end.

Definition with_parent (uf : unionFind) (m : gmap string string) : unionFind := MkUF m (rank uf) (uf_terms uf).

Definition findKey (uf : unionFind) (k : string) : string * unionFind :=
  match parent uf !! k with
  | None => (k, uf)
  | Some _ => let '(r, m) := find_loop (S (uf_size uf)) (parent uf) k in (r, with_parent uf m)
  end.

Definition uf_find (uf : unionFind) (t : Term) : option Term * unionFind :=
  let k := TermKey t in
  match parent uf !! k with
  | None => (Some t, uf)
  | Some _ => let '(root, uf) := findKey uf k in (uf_terms uf !! root, uf)
  end.

Definition rank_of (uf : unionFind) (k : string) : Z := default 0%Z (rank uf !! k).

Definition uf_union (uf : unionFind) (a b : Term) : unionFind :=
  let '(ak, uf) := uf_add uf a in
  let '(bk, uf) := uf_add uf b in
  let '(rootA, uf) := findKey uf ak in
  let '(rootB, uf) := findKey uf bk in
  if bool_decide (rootA = rootB) then uf
  else if (rank_of uf rootA <? rank_of uf rootB)%Z then with_parent uf (<[rootA := rootB]> (parent uf))
  else if (rank_of uf rootB <? rank_of uf rootA)%Z then with_parent uf (<[rootB := rootA]> (parent uf))
  else if str_lt rootA rootB
  then MkUF (<[rootB := rootA]> (parent uf)) (<[rootA := (rank_of uf rootA + 1)%Z]> (rank uf)) (uf_terms uf)
  else MkUF (<[rootA := rootB]> (parent uf)) (<[rootB := (rank_of uf rootB + 1)%Z]> (rank uf)) (uf_terms uf).

Section classes.
Context `{GoRange}.

(** Grouping the keys by representative, in the order of the range. *)
Definition group_step (acc : unionFind * gmap string (list Term)) (kv : string * string) : unionFind * gmap string (list Term) :=
  let '(uf, groups) := acc in
  let '(root, uf) := findKey uf kv.1 in
  match uf_terms uf !! kv.1 with
  | Some t => (uf, <[root := default [] (groups !! root) ++ [t]]> groups)
  | None => (uf, groups)
  end.

Definition classes (uf : unionFind) : list (list Term) * unionFind :=
  let '(uf, groups) := foldl group_step (uf, ∅) (range (parent uf)) in
  (List.filter (λ members, 1 <? length members) (range groups).*2, uf).
End classes.

(** ** Forests *)

Inductive root (m : gmap string string) : string → string → Prop :=
| root_here k : m !! k = Some k → root m k k
| root_up k p r : m !! k = Some p → p ≠ k → root m p r → root m k r.

Lemma root_fun m k r r' : root m k r → root m k r' → r = r'.
Proof.
  intros H. revert r'. induction H as [k Hk|k p r Hk Hp _ IH]; intros r'; inversion 1; subst; try congruence.
  assert (p0 = p) by congruence. subst. auto.
Qed.

Lemma root_is_root m k r : root m k r → m !! r = Some r.
Proof. by induction 1. Qed.

Lemma root_dom m k r : root m k r → is_Some (m !! k).
Proof. destruct 1; eauto. Qed.

(** Parents are nodes, and ranks grow towards the roots. *)
Definition rk (ranks : gmap string Z) (k : string) : Z := default 0%Z (ranks !! k).

Definition forest (m : gmap string string) (ranks : gmap string Z) : Prop :=
  (∀ k, is_Some (m !! k) ↔ is_Some (ranks !! k)) ∧
  ∀ k p, m !! k = Some p → is_Some (m !! p) ∧ (p ≠ k → (rk ranks k < rk ranks p)%Z).

(** How many nodes are ranked above one. *)
Definition above (ranks : gmap string Z) (k : string) : nat := size (filter (λ kv, (rk ranks k < kv.2)%Z) ranks).

Lemma above_lt ranks k p : is_Some (ranks !! p) → (rk ranks k < rk ranks p)%Z → above ranks p < above ranks k.
Proof.
  intros [z Hz] Hlt. unfold above. apply map_subset_size. apply map_subset_alt. split.
  - apply map_filter_subseteq_ext. intros i x Hi Hx. cbn in *. lia.
  - exists p. split.
    + apply map_lookup_filter_None. right. intros x Hx. cbn. unfold rk. rewrite Hx. cbn. lia.
    + exists z. apply map_lookup_filter_Some. split; [done|]. cbn. unfold rk in Hlt at 2. by rewrite Hz in Hlt.
Qed.

Lemma above_size ranks k : is_Some (ranks !! k) → above ranks k < size ranks.
Proof.
  intros [z Hz]. unfold above. apply map_subset_size. apply map_subset_alt. split; [apply map_filter_subseteq|].
  exists k. split; [|eauto]. apply map_lookup_filter_None. right. intros x Hx. cbn. unfold rk. rewrite Hx. cbn. lia.
Qed.

Section forests.
Context (ranks : gmap string Z).

Lemma forest_size m : forest m ranks → size m = size ranks.
Proof.
  intros [Hd _]. rewrite <- !(size_dom (D := gset string)). f_equal. apply set_eq. intros k. by rewrite !elem_of_dom.
Qed.

Lemma root_exists m : forest m ranks → ∀ k, is_Some (m !! k) → ∃ r, root m k r.
Proof.
  intros [Hd Hm] k. remember (above ranks k) as n eqn:Hn. revert k Hn. induction n as [n IH] using lt_wf_ind. intros k -> [p Hp].
  destruct (decide (p = k)) as [->|Hne]; [exists k; by constructor|].
  destruct (Hm k p Hp) as [Hsp Hr]. destruct (IH (above ranks p)) with (k := p) as [r Hroot]; [|done|done|].
  - apply above_lt; [by apply Hd|auto].
  - exists r. by eapply root_up.
Qed.

(** A forest with one more pointer to an ancestor has the same roots. *)
Lemma halving m k p gp : forest m ranks → m !! k = Some p → p ≠ k → m !! p = Some gp →
  forest (<[k:=gp]> m) ranks ∧ ∀ x r, root (<[k:=gp]> m) x r ↔ root m x r.
Proof.
  intros Hf Hk Hp Hgp. pose proof Hf as [Hd Hm].
  assert (Hgk : gp ≠ k).
  { intros ->. destruct (Hm _ _ Hk) as [_ H1], (Hm _ _ Hgp) as [_ H2]. specialize (H1 Hp). specialize (H2 (not_eq_sym Hp)). lia. }
  assert (Hf' : forest (<[k:=gp]> m) ranks).
  { split.
    - intros x. rewrite <- Hd. rewrite lookup_insert_is_Some'. split; [|tauto]. intros [<-|]; [by eexists|done].
    - intros x y. rewrite lookup_insert. case_decide as E; [subst; intros [= <-]|intros Hx].
      + split; [rewrite lookup_insert_is_Some'; right; by eapply Hm|]. intros _.
        destruct (Hm _ _ Hk) as [_ H1]. specialize (H1 Hp). destruct (decide (gp = p)) as [->|Hy]; [done|].
        destruct (Hm _ _ Hgp) as [_ H2]. specialize (H2 Hy). lia.
      + destruct (Hm _ _ Hx) as [H1 H2]. split; [|done]. rewrite lookup_insert_is_Some'. by right. }
  assert (Hfwd : ∀ x r, root m x r → root (<[k:=gp]> m) x r).
  { induction 1 as [x Hx|x y r Hx Hy Hr IH].
    - constructor. rewrite lookup_insert_ne; [done|]. intros ->. congruence.
    - destruct (decide (x = k)) as [->|Hxk]; [|apply root_up with y; [by rewrite lookup_insert_ne|done|done]].
      assert (y = p) by congruence. subst y. apply root_up with gp; [by rewrite lookup_insert_eq|done|].
      inversion IH as [z Hz|z q ? Hz Hq Hqr]; subst.
      + rewrite lookup_insert_ne in Hz by done. assert (gp = r) by congruence. by subst.
      + rewrite lookup_insert_ne in Hz by done. assert (gp = q) by congruence. by subst. }
  split; [done|]. intros x r. split; [|apply Hfwd]. intros Hr.
  assert (Hx : is_Some (m !! x)) by (apply root_dom in Hr; rewrite lookup_insert_is_Some' in Hr; destruct Hr as [<-|]; [by eexists|done]).
  destruct (root_exists m Hf x Hx) as [r' Hr']. by rewrite (root_fun _ _ _ _ Hr (Hfwd _ _ Hr')).
Qed.

Lemma find_loop_ok fuel m k : forest m ranks → is_Some (m !! k) → above ranks k < fuel →
  ∃ r m', find_loop fuel m k = (r, m') ∧ root m k r ∧ forest m' ranks ∧ ∀ x y, root m' x y ↔ root m x y.
Proof.
  revert m k. induction fuel as [|fuel IH]; intros m k Hf [p Hp] Hlt; [lia|]. pose proof Hf as [Hd Hm]. cbn [find_loop].
  assert (Hpar : parent_of m k = p) by (unfold parent_of; by rewrite Hp). rewrite Hpar. case_bool_decide as E.
  - rewrite E in Hp. exists k, m. split; [done|]. split; [by apply root_here|]. by split.
  - destruct (Hm _ _ Hp) as [[gp Hgp] Hr]. assert (parent_of m p = gp) as -> by (unfold parent_of; by rewrite Hgp).
    destruct (halving m k p gp Hf Hp E Hgp) as [Hf' Hroots].
    assert (Hgps : is_Some (m !! gp)) by by eapply Hm.
    assert (Hgrank : (rk ranks k < rk ranks gp)%Z).
    { specialize (Hr E). destruct (decide (gp = p)) as [->|Hne]; [done|]. destruct (Hm _ _ Hgp) as [_ H2]. specialize (H2 Hne). lia. }
    destruct (IH (<[k:=gp]> m) gp Hf') as (r & m' & H1 & H2 & H3 & H4).
    + rewrite lookup_insert_is_Some'. by right.
    + assert (above ranks gp < above ranks k); [|lia]. apply above_lt; [by apply Hd|done].
    + exists r, m'. split; [done|]. split; [|split; [done|intros x y; by rewrite H4]].
      apply Hroots. apply root_up with gp; [by rewrite lookup_insert_eq| |done].
      intros ->. lia.
Qed.

End forests.

(** ** The classes *)

Definition uf_ok (uf : unionFind) : Prop :=
  forest (parent uf) (rank uf) ∧ (∀ k, is_Some (parent uf !! k) ↔ is_Some (uf_terms uf !! k)) ∧
  ∀ k t, uf_terms uf !! k = Some t → TermKey t = k.

(** Two keys in one class: the same key, or the same root. *)
Definition same (uf : unionFind) (a b : string) : Prop := a = b ∨ ∃ r, root (parent uf) a r ∧ root (parent uf) b r.

(** A step that reorganises the forest and changes no class. *)
Definition same_classes (uf uf' : unionFind) : Prop :=
  (∀ k r, root (parent uf') k r ↔ root (parent uf) k r) ∧ rank uf' = rank uf ∧ uf_terms uf' = uf_terms uf.

Lemma same_classes_same uf uf' a b : same_classes uf uf' → same uf' a b ↔ same uf a b.
Proof. intros [Hr _]. unfold same. by setoid_rewrite Hr. Qed.

Lemma newUnionFind_ok : uf_ok newUnionFind.
Proof.
  split_and!; [split| |]; cbn.
  - intros k. by rewrite !lookup_empty, !is_Some_alt.
  - intros k p. by rewrite lookup_empty.
  - intros k. by rewrite !lookup_empty, !is_Some_alt.
  - intros k t. by rewrite lookup_empty.
Qed.

(** The representative. *)
Definition rep (uf : unionFind) (k r : string) : Prop :=
  match parent uf !! k with None => r = k | Some _ => root (parent uf) k r end.

Lemma rep_same uf a b r : rep uf a r → rep uf b r → same uf a b.
Proof.
  unfold rep, same. destruct (parent uf !! a) as [p|] eqn:Ea, (parent uf !! b) as [q|] eqn:Eb; intros Ha Hb; subst; eauto.
  - right. exists b. split; [done|]. apply root_is_root in Ha. congruence.
  - right. exists a. split; [|done]. apply root_is_root in Hb. congruence.
Qed.

Lemma same_rep uf a b r r' : same uf a b → rep uf a r → rep uf b r' → r = r'.
Proof.
  unfold rep, same. intros [->|(r0 & Ha & Hb)] H1 H2.
  - destruct (parent uf !! b); [by eapply root_fun|congruence].
  - destruct (root_dom _ _ _ Ha) as [? Ea], (root_dom _ _ _ Hb) as [? Eb]. rewrite Ea in H1. rewrite Eb in H2.
    rewrite (root_fun _ _ _ _ H1 Ha). by apply (root_fun _ _ _ _ Hb).
Qed.

Lemma findKey_ok uf k : uf_ok uf →
  ∃ r uf', findKey uf k = (r, uf') ∧ rep uf k r ∧ uf_ok uf' ∧ same_classes uf uf'.
Proof.
  intros (Hf & Ht & Hk). unfold findKey, rep. destruct (parent uf !! k) as [p|] eqn:E.
  - destruct (find_loop_ok (rank uf) (S (uf_size uf)) (parent uf) k) as (r & m & -> & Hr & Hf' & Hroots); [done|by eexists| |].
    { assert (above (rank uf) k < size (rank uf)) by (apply above_size, Hf; by eexists).
      unfold uf_size. rewrite (forest_size _ _ Hf). lia. }
    exists r, (with_parent uf m). split; [done|]. split; [done|]. split; [|done]. split; [done|]. cbn. split; [|done].
    intros x. rewrite <- Ht, (proj1 Hf), (proj1 Hf'). done.
  - exists k, uf. split_and!; try done.
Qed.

Lemma uf_add_ok uf t : uf_ok uf →
  ∃ uf', uf_add uf t = (TermKey t, uf') ∧ uf_ok uf' ∧ is_Some (parent uf' !! TermKey t) ∧
    (∀ a b, same uf' a b ↔ same uf a b) ∧ ∀ k, is_Some (parent uf' !! k) ↔ is_Some (parent uf !! k) ∨ k = TermKey t.
Proof.
  intros (Hf & Ht & Hk). pose proof Hf as [Hd Hm]. unfold uf_add. destruct (parent uf !! TermKey t) as [p|] eqn:E.
  - exists uf. split; [done|]. split; [done|]. split; [by eexists|]. split; [done|].
    intros k. split; [by left|]. intros [| ->]; [done|by eexists].
  - set (k := TermKey t) in *. eexists. split; [reflexivity|].
    assert (Hkd : ∀ x, is_Some (<[k:=k]> (parent uf) !! x) ↔ is_Some (parent uf !! x) ∨ x = k).
    { intros x. rewrite lookup_insert_is_Some'. split; [intros [<-|]|intros [| <-]]; auto. }
    assert (Hno : ∀ x, is_Some (parent uf !! x) → x ≠ k) by (intros x [y Hy] ->; congruence).
    split; [split; [split|split]|split; [|split]]; cbn.
    + intros x. rewrite Hkd, lookup_insert_is_Some', Hd. split; [intros [| <-]|intros [<-|]]; auto.
    + intros x y. rewrite lookup_insert. case_decide as Ex; [intros [= <-]; split; [by rewrite lookup_insert_eq|congruence]|].
        intros Hx. destruct (Hm _ _ Hx) as [H1 H2]. split; [rewrite Hkd; by left|]. intros Hne. specialize (H2 Hne).
        unfold rk in *. rewrite !lookup_insert_ne; [done|by apply not_eq_sym, Hno|done].
    + intros x. rewrite Hkd, lookup_insert_is_Some', Ht. split; [intros [| <-]|intros [<-|]]; auto.
    + cbn. intros x u. rewrite lookup_insert. case_decide; [intros [= <-]; done|apply Hk].
    + cbn. rewrite lookup_insert_eq. by eexists.
    + assert (Hroot : ∀ x r, root (<[k:=k]> (parent uf)) x r ↔ root (parent uf) x r ∨ (x = k ∧ r = k)).
      { intros x r. split.
        - induction 1 as [x Hx|x y r Hx Hy _ IH]; rewrite lookup_insert in Hx; case_decide; simplify_eq; auto.
          + left. by constructor.
          + left. apply root_up with y; [done..|]. destruct IH as [|[-> ->]]; [done|]. exfalso. by destruct (Hno k (proj1 (Hm _ _ Hx))).
        - intros [Hr|[-> ->]]; [|constructor; by rewrite lookup_insert_eq].
          induction Hr as [x Hx|x y r Hx Hy _ IH]; [constructor|apply root_up with y; [|done|done]];
            (rewrite lookup_insert_ne; [done|]; apply not_eq_sym, Hno; by eexists). }
      intros a b. unfold same. cbn. setoid_rewrite Hroot. split; [|intros [|(r & ? & ?)]; eauto 6].
      intros [|(r & [H1|[-> ->]] & [H2|[-> H3]])]; subst; eauto.
      * apply root_is_root in H1. congruence.
      * apply root_is_root in H2. congruence.
    + cbn. apply Hkd.
Qed.

(** Hanging one root under another. *)
Lemma hang m ranks ranks' a b :
  forest m ranks → m !! a = Some a → m !! b = Some b → a ≠ b →
  (∀ k, is_Some (ranks !! k) ↔ is_Some (ranks' !! k)) → (∀ k, k ≠ b → rk ranks' k = rk ranks k) →
  (rk ranks b ≤ rk ranks' b)%Z → (rk ranks a < rk ranks' b)%Z →
  forest (<[a:=b]> m) ranks' ∧
  ∀ x r, root (<[a:=b]> m) x r ↔ (root m x r ∧ r ≠ a) ∨ (root m x a ∧ r = b).
Proof.
  intros [Hd Hm] Ha Hb Hne Hdom Hrk Hge Hlt.
  assert (Hkd : ∀ x, is_Some (<[a:=b]> m !! x) ↔ is_Some (m !! x)).
  { intros x. rewrite lookup_insert_is_Some'. split; [intros [<-|]; [by eexists|done]|auto]. }
  split.
  - split; [intros x; by rewrite Hkd, Hd|]. intros x y. rewrite lookup_insert, Hkd. case_decide as Ex.
    + subst x. intros [= <-]. split; [by eexists|]. intros _. by rewrite (Hrk a).
    + intros Hx. destruct (Hm _ _ Hx) as [H1 H2]. split; [done|]. intros Hyx. specialize (H2 Hyx).
      assert (Hxb : x ≠ b) by (intros ->; congruence). rewrite (Hrk x) by done.
      destruct (decide (y = b)) as [->|Hyb]; [lia|]. by rewrite Hrk.
  - intros x r. split.
    + induction 1 as [x Hx|x y r Hx Hy _ IH]; rewrite lookup_insert in Hx; case_decide; simplify_eq.
      * left. split; [by constructor|done].
      * right. split; [by constructor|]. destruct IH as [[Hr _]|[Hr ->]]; [|done].
        symmetry. by apply (root_fun m y); [constructor|].
      * destruct IH as [[Hr ?]|[Hr ->]]; [left|right]; (split; [by apply root_up with y|done]).
    + assert (Hroot : ∀ x r, root m x r → r ≠ a → root (<[a:=b]> m) x r).
      { induction 1 as [z Hz|z y q Hz Hy Hr IH]; intros Hq.
        - constructor. by rewrite lookup_insert_ne.
        - apply root_up with y; [|done|auto]. rewrite lookup_insert_ne; [done|]. intros <-. congruence. }
      assert (Hup : ∀ x, root m x a → root (<[a:=b]> m) x b).
      { intros z Hz. remember a as q eqn:Hq in Hz. induction Hz as [z Hz|z y q Hz Hy Hr IH]; subst.
        - apply root_up with b; [by rewrite lookup_insert_eq|done|]. constructor. by rewrite lookup_insert_ne.
        - apply root_up with y; [|done|auto]. rewrite lookup_insert_ne; [done|]. intros <-. congruence. }
      intros [[Hr Hra]|[Hr ->]]; auto.
Qed.

Definition ra_rb_terms (uf uf' : unionFind) (a b : string) : Prop :=
  uf_ok uf' ∧ ∀ x y, same uf' x y ↔ same uf x y ∨ (same uf x a ∧ same uf b y) ∨ (same uf x b ∧ same uf a y).

Lemma hang_ok uf ranks' a b :
  uf_ok uf → parent uf !! a = Some a → parent uf !! b = Some b → a ≠ b →
  (∀ k, is_Some (rank uf !! k) ↔ is_Some (ranks' !! k)) → (∀ k, k ≠ b → rk ranks' k = rk (rank uf) k) →
  (rk (rank uf) b ≤ rk ranks' b)%Z → (rk (rank uf) a < rk ranks' b)%Z →
  ra_rb_terms uf (MkUF (<[a:=b]> (parent uf)) ranks' (uf_terms uf)) a b.
Proof.
  intros (Hf & Ht & Hk) Ha Hb Hne Hd Hrk Hge Hlt.
  destruct (hang _ _ ranks' a b Hf Ha Hb Hne Hd Hrk Hge Hlt) as [Hf' Hroot]. split.
  - split; [done|]. cbn. split; [|done]. intros k. rewrite <- Ht, lookup_insert_is_Some'.
    split; [intros [<-|]; [by eexists|done]|auto].
  - assert (Hself : ∀ z, parent uf !! z = Some z → root (parent uf) z z) by (intros; by constructor).
    assert (Hsa : ∀ x, same uf x a ↔ root (parent uf) x a).
    { intros x. split; [|intros Hx; right; eauto]. intros [->|(r & Hx & Hr)]; [auto|].
      by rewrite <- (root_fun _ _ _ _ Hr (Hself a Ha)). }
    assert (Hsb : ∀ x, same uf x b ↔ root (parent uf) x b).
    { intros x. split; [|intros Hx; right; eauto]. intros [->|(r & Hx & Hr)]; [auto|].
      by rewrite <- (root_fun _ _ _ _ Hr (Hself b Hb)). }
    assert (Hsym : ∀ x y, same uf x y ↔ same uf y x) by (intros x y; unfold same; naive_solver).
    intros x y. rewrite (Hsym b y), (Hsym a y), !Hsa, !Hsb. unfold same at 1. cbn. setoid_rewrite Hroot. split.
    + intros [->|(r & [[H1 ?]|[H1 ->]] & [[H2 ?]|[H2 H3]])]; subst; [left; by left|left; right; eauto|auto|auto|left; right; eauto].
    + intros [[->|(r & H1 & H2)]|[[H1 H2]|[H1 H2]]]; [by left| |right; eauto 8|right; eauto 8].
      destruct (decide (r = a)) as [->|]; right; eauto 8.
Qed.

Lemma same_equiv uf : Equivalence (same uf).
Proof.
  split; [by left|unfold same; intros x y; naive_solver|].
  intros x y z [->|(r & Hx & Hy)] [->|(r' & Hy' & Hz)]; [by left|right; eauto|right; eauto|].
  right. exists r. split; [done|]. by rewrite (root_fun _ _ _ _ Hy Hy').
Qed.

Lemma same_root uf x k r : root (parent uf) k r → same uf x r ↔ same uf x k.
Proof.
  intros Hk. assert (Hkr : same uf k r).
  { right. exists r. split; [done|]. apply root_here. by eapply root_is_root. }
  pose proof (same_equiv uf) as Heq. split; intros H; etrans; [exact H|by symmetry|exact H|done].
Qed.

Lemma uf_union_ok uf a b : uf_ok uf →
  uf_ok (uf_union uf a b) ∧
  ∀ x y, same (uf_union uf a b) x y ↔
    same uf x y ∨ (same uf x (TermKey a) ∧ same uf (TermKey b) y) ∨ (same uf x (TermKey b) ∧ same uf (TermKey a) y).
Proof.
  intros H0. unfold uf_union.
  destruct (uf_add_ok uf a H0) as (uf1 & -> & H1 & Ka & S1 & D1).
  destruct (uf_add_ok uf1 b H1) as (uf2 & -> & H2 & Kb & S2 & D2).
  destruct (findKey_ok uf2 (TermKey a) H2) as (ra & uf3 & -> & Ra & H3 & C3).
  destruct (findKey_ok uf3 (TermKey b) H3) as (rb & uf4 & -> & Rb & H4 & C4).
  set (ka := TermKey a) in *. set (kb := TermKey b) in *.
  assert (Hs : ∀ x y, same uf4 x y ↔ same uf x y).
  { intros x y. by rewrite (same_classes_same _ _ x y C4), (same_classes_same _ _ x y C3), S2, S1. }
  assert (Ra4 : root (parent uf4) ka ra).
  { apply C4, C3. unfold rep in Ra. destruct (parent uf2 !! ka) eqn:E; [done|].
    exfalso. destruct (proj2 (D2 ka)) as [? ?]; [by left|congruence]. }
  assert (Rb4 : root (parent uf4) kb rb).
  { apply C4. unfold rep in Rb. destruct (parent uf3 !! kb) eqn:E; [done|].
    exfalso. destruct (proj2 (D2 kb)) as [? Hk]; [by right|]. destruct (root_exists _ _ (proj1 H2) kb) as [r Hr]; [by eexists|].
    apply C3, root_dom in Hr as [? ?]. congruence. }
  pose proof (root_is_root _ _ _ Ra4) as Pa. pose proof (root_is_root _ _ _ Rb4) as Pb.
  assert (Ha : ∀ x, same uf4 x ra ↔ same uf x ka) by (intros x; rewrite <- Hs; by apply same_root).
  assert (Hb : ∀ x, same uf4 x rb ↔ same uf x kb) by (intros x; rewrite <- Hs; by apply same_root).
  assert (Hsym : ∀ u x y, same u x y ↔ same u y x) by (intros u x y; pose proof (same_equiv u); split; by symmetry).
  assert (Hfin : ∀ uf', ra_rb_terms uf4 uf' ra rb ∨ ra_rb_terms uf4 uf' rb ra → uf_ok uf' ∧
    ∀ x y, same uf' x y ↔ same uf x y ∨ (same uf x ka ∧ same uf kb y) ∨ (same uf x kb ∧ same uf ka y)).
  { intros uf' [[Ho He]|[Ho He]]; (split; [done|]); intros x y; rewrite He, Hs, (Hsym uf4 rb y), (Hsym uf4 ra y), !Ha, !Hb,
      (Hsym uf y ka), (Hsym uf y kb); tauto. }
  case_bool_decide as Er.
  { subst rb. split; [done|]. intros x y. rewrite Hs. split; [by left|].
    pose proof (same_equiv uf) as Heq. assert (Hab : same uf ka kb) by (rewrite <- Hb, Ha; reflexivity).
    intros [|[[Hx Hy]|[Hx Hy]]]; [done|..]; (etrans; [exact Hx|]); [etrans; [exact Hab|exact Hy]|etrans; [symmetry; exact Hab|exact Hy]]. }
  assert (Da : is_Some (rank uf4 !! ra)) by (apply (proj1 (proj1 H4)); by eexists).
  assert (Db : is_Some (rank uf4 !! rb)) by (apply (proj1 (proj1 H4)); by eexists).
  change (rank_of uf4 ra) with (rk (rank uf4) ra). change (rank_of uf4 rb) with (rk (rank uf4) rb).
  destruct (Z.ltb_spec (rk (rank uf4) ra) (rk (rank uf4) rb)); [|destruct (Z.ltb_spec (rk (rank uf4) rb) (rk (rank uf4) ra))].
  - apply Hfin. left. apply hang_ok; first [done|lia].
  - apply Hfin. right. apply hang_ok; first [done|lia|by apply not_eq_sym].
  - assert (Hins : ∀ r, is_Some (rank uf4 !! r) → let ranks' := <[r := (rk (rank uf4) r + 1)%Z]> (rank uf4) in
      (∀ k, is_Some (rank uf4 !! k) ↔ is_Some (ranks' !! k)) ∧ (∀ k, k ≠ r → rk ranks' k = rk (rank uf4) k) ∧
      rk ranks' r = (rk (rank uf4) r + 1)%Z).
    { intros r Hr ranks'. split_and!.
      - intros k. unfold ranks'. rewrite lookup_insert_is_Some'. split; [auto|intros [<-|]; done].
      - intros k Hk. unfold rk, ranks'. by rewrite lookup_insert_ne.
      - unfold rk at 1, ranks'. by rewrite lookup_insert_eq. }
    destruct (str_lt ra rb).
    + destruct (Hins ra Da) as (I1 & I2 & I3). apply Hfin. right. apply hang_ok; first [done|lia|by apply not_eq_sym].
    + destruct (Hins rb Db) as (I1 & I2 & I3). apply Hfin. left. apply hang_ok; first [done|lia].
Qed.

(** ** Histories *)

Inductive uf_op :=
| UfAdd (t : Term)
| UfUnion (a b : Term)
| UfFind (t : Term)
| UfFindKey (k : string).

Definition uf_step (uf : unionFind) (o : uf_op) : unionFind :=
  match o with
  | UfAdd t => (uf_add uf t).2
  | UfUnion a b => uf_union uf a b
  | UfFind t => (uf_find uf t).2
  | UfFindKey k => (findKey uf k).2
  end.

Definition uf_run (ops : list uf_op) : unionFind := foldl uf_step newUnionFind ops.

(** The pairs of keys that have been merged. *)
Definition merged (ops : list uf_op) (k k' : string) : Prop :=
  ∃ a b, UfUnion a b ∈ ops ∧ k = TermKey a ∧ k' = TermKey b.

Lemma uf_find_state uf t : (uf_find uf t).2 = (findKey uf (TermKey t)).2.
Proof. unfold uf_find. destruct (parent uf !! TermKey t) eqn:E; [by destruct (findKey uf _)|]. unfold findKey. by rewrite E. Qed.

Lemma uf_step_ok uf o : uf_ok uf →
  uf_ok (uf_step uf o) ∧ ∀ x y, same (uf_step uf o) x y ↔
    match o with
    | UfUnion a b => same uf x y ∨ (same uf x (TermKey a) ∧ same uf (TermKey b) y) ∨ (same uf x (TermKey b) ∧ same uf (TermKey a) y)
    | _ => same uf x y
    end.
Proof.
  intros H. destruct o as [t|a b|t|k]; cbn [uf_step].
  - destruct (uf_add_ok uf t H) as (uf' & -> & H1 & _ & H2 & _). done.
  - by apply uf_union_ok.
  - rewrite uf_find_state. destruct (findKey_ok uf (TermKey t) H) as (r & uf' & -> & _ & H1 & H2). split; [done|].
    intros x y. by apply same_classes_same.
  - destruct (findKey_ok uf k H) as (r & uf' & -> & _ & H1 & H2). split; [done|]. intros x y. by apply same_classes_same.
Qed.

(** Adding one pair to the generators of an equivalence. *)
Lemma rtsc_more {A} (R R' : A → A → Prop) a b x y :
  (∀ u v, R' u v ↔ R u v ∨ (u = a ∧ v = b)) →
  rtsc R' x y ↔ rtsc R x y ∨ (rtsc R x a ∧ rtsc R b y) ∨ (rtsc R x b ∧ rtsc R a y).
Proof.
  intros HR. assert (Hin : ∀ u v, rtsc R u v → rtsc R' u v).
  { intros u v. apply rtc_subrel. intros ?? [?|?]; [left|right]; apply HR; by left. }
  assert (Hab : rtsc R' a b) by (apply rtc_once; left; apply HR; by right).
  assert (Hsym : ∀ S u v, rtsc S u v → rtsc (A := A) S v u) by (intros S u v; by symmetry).
  split.
  - intros H. induction H as [x|x z y Hxz _ IH]; [left; reflexivity|].
    assert (Hstep : rtsc R x z ∨ (x = a ∧ z = b) ∨ (x = b ∧ z = a)).
    { destruct Hxz as [Hxz|Hxz]; apply HR in Hxz as [Hxz|[-> ->]]; auto; left; apply rtc_once; first [by left|by right]. }
    destruct Hstep as [Hs|[[-> ->]|[-> ->]]].
    + destruct IH as [H|[[H1 H2]|[H1 H2]]]; [left; by etrans|right; left; split; [by etrans|done]|right; right; split; [by etrans|done]].
    + destruct IH as [H|[[H1 H2]|[H1 H2]]]; [right; left; by split|right; left; split; [reflexivity|done]|left; done].
    + destruct IH as [H|[[H1 H2]|[H1 H2]]]; [right; right; by split|left; done|right; right; split; [reflexivity|done]].
  - intros [H|[[H1 H2]|[H1 H2]]]; [by apply Hin| |].
    + etrans; [by apply Hin|]. etrans; [exact Hab|by apply Hin].
    + etrans; [by apply Hin|]. etrans; [apply Hsym, Hab|by apply Hin].
Qed.

Lemma merged_snoc ops o u v :
  merged (ops ++ [o]) u v ↔ merged ops u v ∨ match o with UfUnion a b => u = TermKey a ∧ v = TermKey b | _ => False end.
Proof.
  unfold merged. setoid_rewrite elem_of_app. setoid_rewrite list_elem_of_singleton. split.
  - intros (a & b & [H|<-] & -> & ->); eauto 10.
  - intros [(a & b & H & -> & ->)|H]; [eauto 10|]. destruct o as [t|a b|t|k]; try done. destruct H as [-> ->]. eauto 10.
Qed.

Lemma uf_run_ok ops : uf_ok (uf_run ops) ∧ ∀ x y, same (uf_run ops) x y ↔ rtsc (merged ops) x y.
Proof.
  unfold uf_run. induction ops as [|o ops [IH1 IH2]] using rev_ind.
  - split; [apply newUnionFind_ok|]. intros x y. split; [intros [->|(r & H & _)]; [reflexivity|]|].
    + apply root_dom in H as [? H]. done.
    + intros H. left. induction H as [|x z y [(a & b & H & _)|(a & b & H & _)]]; [done|by apply not_elem_of_nil in H..].
  - rewrite foldl_app. cbn [foldl]. destruct (uf_step_ok _ o IH1) as [H1 H2]. split; [done|]. intros x y. rewrite H2.
    destruct o as [t|a b|t|k]; [|rewrite !IH2; symmetry; apply rtsc_more; intros u v; apply merged_snoc| |];
      rewrite IH2; split; apply rtc_subrel; intros u v [H|H]; [left|right|left|right|left|right|left|right|left|right|left|right];
      apply merged_snoc in H || apply merged_snoc; tauto.
Qed.

(** ** The classes that are listed *)

Section listed.
Context `{GoRange}.
Implicit Types (groups : gmap string (list Term)).

(** The group of a root holds the terms of that root among the keys seen so far. *)
Definition group_inv (uf : unionFind) (dn : list string) (acc : unionFind * gmap string (list Term)) : Prop :=
  uf_ok acc.1 ∧ same_classes uf acc.1 ∧
  ∀ r, NoDup (TermKey <$> default [] (acc.2 !! r)) ∧
    ∀ x, x ∈ default [] (acc.2 !! r) ↔ TermKey x ∈ dn ∧ uf_terms uf !! TermKey x = Some x ∧ root (parent uf) (TermKey x) r.

Lemma group_step_ok uf dn acc k v : uf_ok uf → group_inv uf dn acc → k ∉ dn → is_Some (parent uf !! k) →
  group_inv uf (dn ++ [k]) (group_step acc (k, v)).
Proof.
  intros Huf (Hu & Hc & Hg) Hk Hp. destruct acc as [u groups]. cbn [fst snd] in *. unfold group_step. cbn [fst].
  destruct (findKey_ok u k Hu) as (r & u' & -> & Hr & Hu' & Hc').
  assert (Hroot : root (parent uf) k r).
  { unfold rep in Hr. destruct Hc as (Hroots & _). apply Hroots. destruct Huf as (Hf & _).
    destruct (root_exists (rank uf) (parent uf) Hf k Hp) as [r0 Hr0]. apply Hroots in Hr0.
    destruct (root_dom _ _ _ Hr0) as [? E]. by rewrite E in Hr. }
  assert (Hterms : uf_terms u' = uf_terms uf) by (destruct Hc as (_ & _ & A3), Hc' as (_ & _ & B3); congruence).
  assert (is_Some (uf_terms uf !! k)) as [t Ht] by (by apply (proj1 (proj2 Huf))).
  assert (Hkt : TermKey t = k) by (by apply (proj2 (proj2 Huf))).
  rewrite Hterms, Ht. split; [done|]. split.
  { destruct Hc as (A1 & A2 & A3), Hc' as (B1 & B2 & B3). split; [intros a b; cbn; by rewrite B1, A1|]. cbn. split; congruence. }
  intros r'. cbn [snd]. rewrite lookup_insert. case_decide as Er.
  - subst r'. cbn. destruct (Hg r) as [Hnd Hin]. split.
    + rewrite fmap_app. apply NoDup_app. split; [done|]. split; [|apply NoDup_singleton].
      intros x (y & -> & Hy)%list_elem_of_fmap Hx%list_elem_of_singleton. apply Hin in Hy as [Hy _]. congruence.
    + intros x. rewrite elem_of_app, list_elem_of_singleton, Hin, elem_of_app, list_elem_of_singleton. split.
      * intros [(? & ? & ?)| ->]; [by repeat split; try left|]. rewrite Hkt. split; [by right|]. by split.
      * intros ([Hx|Hx] & Hx1 & Hx2); [by left|]. right. congruence.
  - destruct (Hg r') as [Hnd Hin]. split; [done|]. intros x. rewrite Hin, elem_of_app, list_elem_of_singleton. split.
    + intros (? & ? & ?). by repeat split; try left.
    + intros ([Hx|Hx] & Hx1 & Hx2); [done|]. rewrite Hx in Hx2. by rewrite (root_fun _ _ _ _ Hx2 Hroot) in Er.
Qed.

Lemma group_fold_ok uf l : uf_ok uf → ∀ dn acc, group_inv uf dn acc → NoDup (dn ++ l.*1) → (∀ kv, kv ∈ l → is_Some (parent uf !! kv.1)) →
  group_inv uf (dn ++ l.*1) (foldl group_step acc l).
Proof.
  intros Huf. induction l as [|[k v] l IH]; intros dn acc Hinv Hnd Hl; cbn [foldl]; [by rewrite app_nil_r|].
  rewrite fmap_cons, (cons_middle k dn), app_assoc in Hnd. cbn [fst] in *. rewrite fmap_cons, (cons_middle _ dn), app_assoc. apply IH; [|done|].
  - apply group_step_ok; [done|done| |].
    + apply NoDup_app in Hnd as (Hnd & _). apply NoDup_app in Hnd as (_ & Hd & _). intros Hk. apply (Hd k Hk). by left.
    + apply (Hl (k, v)). by left.
  - intros kv Hkv. apply Hl. by right.
Qed.

(** Each class listed is all the terms of a root, more than one; two terms of one
    class are in one of them. *)
Lemma classes_ok uf : uf_ok uf → ∃ cls u, classes uf = (cls, u) ∧ uf_ok u ∧ same_classes uf u ∧
  (∀ ms, ms ∈ cls → NoDup (TermKey <$> ms) ∧ 1 < length ms ∧ ∃ r, ∀ x, x ∈ ms ↔ uf_terms uf !! TermKey x = Some x ∧ root (parent uf) (TermKey x) r) ∧
  (∀ x y, uf_terms uf !! TermKey x = Some x → uf_terms uf !! TermKey y = Some y → same uf (TermKey x) (TermKey y) → TermKey x ≠ TermKey y →
    ∃ ms, ms ∈ cls ∧ x ∈ ms ∧ y ∈ ms).
Proof.
  intros Huf. unfold classes.
  assert (Hkeys : (range (parent uf)).*1 ≡ₚ (map_to_list (parent uf)).*1) by (by rewrite range_perm).
  destruct (group_fold_ok uf (range (parent uf)) Huf [] (uf, ∅)) as (Hu & Hc & Hg).
  { split; [done|]. split; [done|]. intros r. cbn. rewrite lookup_empty. split; [constructor|]. intros x. cbn. rewrite !elem_of_nil. naive_solver. }
  { rewrite app_nil_l, Hkeys. apply NoDup_fst_map_to_list. }
  { intros [k v] Hkv. rewrite range_perm in Hkv. apply elem_of_map_to_list in Hkv. by eexists. }
  destruct (foldl group_step (uf, ∅) (range (parent uf))) as [u groups]. cbn [fst snd] in *.
  assert (Hin : ∀ r x, x ∈ default [] (groups !! r) ↔ uf_terms uf !! TermKey x = Some x ∧ root (parent uf) (TermKey x) r).
  { intros r x. rewrite (proj2 (Hg r)), app_nil_l. split; [tauto|]. intros [Hx Hr]. split; [|done]. rewrite Hkeys.
    destruct (root_dom _ _ _ Hr) as [p Hp]. apply list_elem_of_fmap. exists (TermKey x, p). split; [done|]. by apply elem_of_map_to_list. }
  assert (Hcls : ∀ ms, ms ∈ List.filter (λ members, 1 <? length members) (range groups).*2 ↔ 1 < length ms ∧ ∃ r, groups !! r = Some ms).
  { intros ms. rewrite list_elem_of_In, List.filter_In, <- list_elem_of_In, Nat.ltb_lt, list_elem_of_fmap. setoid_rewrite range_perm. split.
    - intros [([r ms'] & -> & Hr%elem_of_map_to_list) Hlen]. eauto.
    - intros [Hlen (r & Hr)]. split; [|done]. exists (r, ms). split; [done|]. by apply elem_of_map_to_list. }
  eexists _, u. split; [done|]. split; [done|]. split; [done|]. split.
  - intros ms (Hlen & r & Hr)%Hcls. specialize (Hin r). pose proof (proj1 (Hg r)) as Hnd. rewrite Hr in Hin, Hnd. cbn in Hin, Hnd. eauto.
  - intros x y Hx Hy Hs Hne. destruct Hs as [|(r & Hrx & Hry)]; [done|].
    assert (Hxr : x ∈ default [] (groups !! r)) by (by apply Hin). assert (Hyr : y ∈ default [] (groups !! r)) by (by apply Hin).
    destruct (groups !! r) as [ms|] eqn:Er; [|by apply not_elem_of_nil in Hxr]. cbn in *. exists ms. split; [|done]. apply Hcls. split; [|by exists r].
    destruct ms as [|a [|b ms]]; [by apply not_elem_of_nil in Hxr| |cbn; lia].
    apply list_elem_of_singleton in Hxr as ->, Hyr as ->. done.
Qed.
End listed.

(** C40: a union-find built by any sequence of additions, merges and look-ups stands for
    the equivalence the merges generate: two terms have the same representative
    exactly when a chain of merges connects them, whatever path halving and the
    ranks made of the forest; the representative of a term in it is one of its
    class, and a term never added is its own. *)
Theorem unionFind_is_the_generated_equivalence : ∀ ops a b,
  ((findKey (uf_run ops) (TermKey a)).1 = (findKey (uf_run ops) (TermKey b)).1 ↔ rtsc (merged ops) (TermKey a) (TermKey b)) ∧
  ∃ t, (uf_find (uf_run ops) a).1 = Some t ∧ rtsc (merged ops) (TermKey a) (TermKey t).
Proof.
  intros ops a b. destruct (uf_run_ok ops) as [Hok Hsame].
  destruct (findKey_ok _ (TermKey a) Hok) as (ra & ufa & Ea & Ra & Hoka & Ca).
  destruct (findKey_ok _ (TermKey b) Hok) as (rb & ufb & Eb & Rb & _ & _). split.
  - rewrite Ea, Eb, <- Hsame. cbn [fst]. split; [intros <-; by eapply rep_same|intros Hs; by eapply same_rep].
  - unfold uf_find. destruct (parent (uf_run ops) !! TermKey a) as [p|] eqn:E; [|by exists a].
    rewrite Ea. cbn [fst]. unfold rep in Ra. rewrite E in Ra. destruct Ca as (Cr & _ & Ct). rewrite Ct.
    assert (is_Some (uf_terms (uf_run ops) !! ra)) as [t Ht].
    { apply (proj1 (proj2 Hok)). rewrite (root_is_root _ _ _ Ra). by eexists. }
    exists t. split; [done|]. rewrite <- Hsame, (proj2 (proj2 Hok) _ _ Ht). right. exists ra.
    split; [done|]. apply root_here. by eapply root_is_root.
Qed.
