(* ===== verification/Reasoning.v ===== *)
(** * Reasoning: stopping, deduplication, lists

    Package [reasoning] (cancel.go, helpers.go, rdflist.go): what the
    closures share.  The context of a run is what it reports each time it is
    looked at, by a poll or by a call of the store. *)

From S2P Require Import Prelude GoStrings Term TermKey TripleIndex Store MemoryStore Graph Collection.
From stdpp Require Import options.

(** ** [stopper] *)

Definition ErrCancelled : error := Sentinel "reasoning: stopped because the context is done".
Definition stopCheckInterval : N := 1024.

Record stopper := MkStop { sp_ctx : nat → option error; sp_seen : nat; sp_n : N; sp_err : option error }.

Definition newStopper (ctx : nat → option error) : stopper := MkStop ctx 0 0 None.

(** Looking at the context once. *)
Definition observe (s : stopper) : option error * stopper :=
  (sp_ctx s (sp_seen s), MkStop (sp_ctx s) (S (sp_seen s)) (sp_n s) (sp_err s)).

Definition set_err (e : error) (s : stopper) : stopper := MkStop (sp_ctx s) (sp_seen s) (sp_n s) (Some e).

Definition sp_fail (op : string) (err : error) (s : stopper) : stopper :=
  match sp_err s with
  | Some _ => s
  | None =>
      match observe s with
      | (Some cerr, s) => set_err (Wrapf2 "%w: %w" ErrCancelled cerr) s
      | (None, s) => set_err (Wrapf "reasoning: %s: %w" [op] err) s
      end
  end.

Definition sp_poll (s : stopper) : bool * stopper :=
  match sp_err s with
  | Some _ => (true, s)
  | None =>
      match observe s with
      | (Some cerr, s) => (true, set_err (Wrapf2 "%w: %w" ErrCancelled cerr) s)
      | (None, s) => (false, s)
      end
  end.

(** [n] is a [uint32]. *)
Definition sp_tick (s : stopper) : bool * stopper :=
  match sp_err s with
  | Some _ => (true, s)
  | None =>
      let n := ((sp_n s + 1) mod 2 ^ 32)%N in
      let s := MkStop (sp_ctx s) (sp_seen s) n None in
      if negb (n mod stopCheckInterval =? 0)%N then (false, s) else sp_poll s
  end.

Definition halted (s : stopper) : bool := match sp_err s with Some _ => true | None => false end.
Definition failure (s : stopper) : option error := sp_err s.

Section store_access.
Context {St : Type} `{Store St}.
Implicit Types (s : stopper) (g : Graph_) (st : St).

(** The loop over the triples of a pattern; [fn] says whether to go on. *)
Fixpoint triples_go {A} (fn : Triple → stopper → A → bool * stopper * A) (seq : TripleIterator) s (a : A) : stopper * A :=
  match seq with
  | [] => (s, a)
  | Err e :: _ => (sp_fail "reading the graph" e s, a)
  | Ok t :: seq =>
      let '(continue, s, a) := fn t s a in
      if continue then triples_go fn seq s a else (s, a)
  end.

Definition sp_triples {A} g (sub : option Term) (p : option URIRef) (o : option Term)
    (fn : Triple → stopper → A → bool * stopper * A) st s (a : A) : stopper * A :=
  match sp_err s with
  | Some _ => (s, a)
  | None => let '(ctx, s) := observe s in triples_go fn (g_Triples ctx g sub p o st) s a
  end.

Definition sp_contains g (sub : Term) (p : URIRef) (o : Term) st s : bool * stopper :=
  match sp_err s with
  | Some _ => (false, s)
  | None =>
      let '(ctx, s) := observe s in
      match g_Contains ctx g (Some sub) p (Some o) st with
      | Err e => (false, sp_fail "reading the graph" e s)
      | Ok b => (b, s)
      end
  end.

Definition sp_add g (sub : Term) (p : URIRef) (o : Term) s st : stopper * St :=
  match sp_err s with
  | Some _ => (s, st)
  | None =>
      let '(ctx, s) := observe s in
      match g_Add ctx g sub p o st with
      | (Err e, st) => (sp_fail "adding an inferred triple" e s, st)
      | (Ok _, st) => (s, st)
      end
  end.

Definition sp_length g st s : Z * stopper :=
  match sp_err s with
  | Some _ => (0%Z, s)
  | None =>
      let '(ctx, s) := observe s in
      match g_Len ctx g st with
      | Err e => (0%Z, sp_fail "counting triples" e s)
      | Ok n => (n, s)
      end
  end.

(** A callback that only collects and never stops. *)
Definition scan {A} (f : Triple → A → A) : Triple → stopper → A → bool * stopper * A := λ t s a, (true, s, f t a).

(** [collectList]: the elements of an RDF collection. The walk visits a node
    once, so the number of objects of the graph bounds it. *)
Fixpoint collect_loop (fuel : nat) g (visited : gset string) (cur : option Term) (result : list Term) st s
    : list Term * stopper :=
  match fuel, cur with
  | O, _ | _, None => (result, s)
  | S fuel, Some node =>
      let ck := TermKey node in
      if bool_decide (ck = uri_key RDF_Nil) then (result, s)
      else if bool_decide (ck ∈ visited) then (result, s)
      else if negb (isSubject node) then (result, s)
      else
        let '(s, firstVal) := sp_triples g (Some node) (Some RDF_First) None (λ t s _, (false, s, Some (Object t))) st s None in
        match firstVal with
        | None => (result, s)
        | Some v =>
            let '(s, restVal) := sp_triples g (Some node) (Some RDF_Rest) None (λ t s _, (false, s, Some (Object t))) st s None in
            collect_loop fuel g ({[ck]} ∪ visited) restVal (result ++ [v]) st s
        end
  end.

Definition collectList g (head : option Term) (fuel : nat) st s : list Term * stopper := collect_loop fuel g ∅ head [] st s.
End store_access.

(** ** [dedupSet] *)

Definition dedupSet : Type := gset string.

Definition tripleKey (s : Term) (p : URIRef) (o : Term) : string := TermKey s +:+ "|" +:+ uri_key p +:+ "|" +:+ TermKey o.

Definition addNew (d : dedupSet) (s : Term) (p : URIRef) (o : Term) : bool * dedupSet :=
  let k := tripleKey s p o in
  if bool_decide (k ∈ d) then (false, d) else (true, {[k]} ∪ d).

(** ** What the stopper does *)

(** A context that is never done. *)
Definition background : nat → option error := λ _, None.

(** From one state of a stopper to a later one: an error stays, and comes from the
    context. *)
Definition later (s s' : stopper) : Prop :=
  sp_ctx s' = sp_ctx s ∧ (halted s = true → halted s' = true) ∧
  (sp_ctx s = background → halted s' = true → halted s = true).

#[global] Instance later_preorder : PreOrder later.
Proof.
  split; [by intros s|]. intros s1 s2 s3 (A1 & A2 & A3) (B1 & B2 & B3). split_and!; [congruence|auto|].
  intros Hc H. apply A3; [done|]. apply B3; [congruence|done].
Qed.

Lemma observe_later s : later s (observe s).2.
Proof. done. Qed.

Lemma set_err_halted e s : halted (set_err e s) = true.
Proof. done. Qed.

Lemma sp_fail_halted op e s : halted (sp_fail op e s) = true ∧ sp_ctx (sp_fail op e s) = sp_ctx s.
Proof. unfold sp_fail. destruct (sp_err s) eqn:E; [unfold halted; by rewrite E|]. cbn. by destruct (sp_ctx s (sp_seen s)). Qed.

Lemma sp_poll_spec s : ∃ s', sp_poll s = (halted s', s') ∧ later s s'.
Proof.
  unfold sp_poll. destruct (sp_err s) as [e|] eqn:E.
  - exists s. unfold halted. rewrite E. split; [done|reflexivity].
  - unfold observe. destruct (sp_ctx s (sp_seen s)) as [e|] eqn:Ec; cbn iota.
    + eexists (set_err (Wrapf2 "%w: %w" ErrCancelled e) (observe s).2). split; [unfold observe; by rewrite Ec|].
      split_and!; [done|done|]. intros Hb. by rewrite Hb in Ec.
    + exists (observe s).2. split; [unfold halted, observe; cbn; by rewrite E, ?Ec|].
      split_and!; [done|by unfold halted; rewrite E|by unfold halted; cbn; rewrite E].
Qed.

Lemma sp_tick_spec s : ∃ s', sp_tick s = (halted s', s') ∧ later s s'.
Proof.
  unfold sp_tick. destruct (sp_err s) as [e|] eqn:E.
  - exists s. unfold halted. rewrite E. split; [done|reflexivity].
  - set (n := ((sp_n s + 1) mod 2 ^ 32)%N). set (s0 := MkStop (sp_ctx s) (sp_seen s) n None).
    assert (Hs : later s s0) by (split_and!; [done|unfold halted; by rewrite E|done]).
    destruct (negb _); [exists s0; by split|]. destruct (sp_poll_spec s0) as (s' & H1 & H2). exists s'. split; [exact H1|by etrans].
Qed.

Lemma triples_go_scan {A} (f : Triple → A → A) l s a :
  triples_go (scan f) (Ok <$> l) s a = (s, foldl (λ a t, f t a) a l).
Proof. revert a. induction l as [|t l IH]; intros a; [done|]. apply IH. Qed.

Section stopper_laws.
Context {St : Type} `{StoreLaws St}.
Implicit Types (s : stopper) (st : St).

Lemma sp_triples_halted {A} g sub p o (fn : Triple → stopper → A → bool * stopper * A) st s a :
  halted s = true → sp_triples g sub p o fn st s a = (s, a).
Proof. unfold halted, sp_triples. by destruct (sp_err s). Qed.

(** A loop over the store runs over the matching triples or stops at once. *)
Lemma sp_triples_spec {A} g sub p o (fn : Triple → stopper → A → bool * stopper * A) st s a :
  sinv st → halted s = false →
  (∃ l s', l ≡ₚ graph_triples (matching (MkPattern sub p o) (graph_of st g)) ∧ NoDup l ∧ later s s' ∧ halted s' = false ∧
           sp_triples g sub p o fn st s a = triples_go fn (Ok <$> l) s' a) ∨
  ∃ s', later s s' ∧ halted s' = true ∧ sp_triples g sub p o fn st s a = (s', a).
Proof.
  intros Hst Hs. unfold sp_triples. destruct (sp_err s) eqn:E; [unfold halted in Hs; by rewrite E in Hs|]. unfold observe.
  destruct (sp_ctx s (sp_seen s)) as [e|] eqn:Ec.
  - right. unfold g_Triples. rewrite triples_done. cbn [ErrorIterator triples_go]. set (s1 := MkStop _ _ _ _).
    destruct (sp_fail_halted "reading the graph" e s1) as [H1 H2]. eexists. split; [|by split].
    split_and!; [exact H2|done|]. intros Hb. by rewrite Hb in Ec.
  - left. destruct (g_triples_ok st g sub p o Hst) as (l & El & Hnd & Hl). rewrite El. set (s1 := MkStop _ _ _ _).
    exists l, s1. split; [done|]. split; [done|]. split; [exact (observe_later s)|]. split; [exact Hs|done].
Qed.

Lemma sp_scan_spec {A} g sub p o (f : Triple → A → A) st s a :
  sinv st → ∃ l s', sp_triples g sub p o (scan f) st s a = (s', foldl (λ a t, f t a) a l) ∧ later s s' ∧
    (∀ t, t ∈ l → t ∈ graph_triples (matching (MkPattern sub p o) (graph_of st g))) ∧
    (halted s' = true ∨ l ≡ₚ graph_triples (matching (MkPattern sub p o) (graph_of st g))).
Proof.
  intros Hst. destruct (halted s) eqn:Hs.
  - exists [], s. rewrite sp_triples_halted by done. split_and!; [done|reflexivity|by intros t ?%not_elem_of_nil|by left].
  - destruct (sp_triples_spec g sub p o (scan f) st s a Hst Hs) as [(l & s' & Hl & _ & Hla & _ & E)|(s' & Hla & Hh & E)].
    + exists l, s'. rewrite E, triples_go_scan. split_and!; [done|done| |by right]. intros t. by rewrite Hl.
    + exists [], s'. split_and!; [done|done|by intros t ?%not_elem_of_nil|by left].
Qed.

Lemma sp_add_spec g sub p o s st :
  sinv st → ∃ s' st', sp_add g sub p o s st = (s', st') ∧ later s s' ∧ sinv st' ∧
    (halted s' = true ∧ st' = st ∨ halted s' = false ∧ graph_of st' g = graph_add (graph_of st g) (MkTriple sub p o)).
Proof.
  intros Hst. unfold sp_add. destruct (sp_err s) as [e|] eqn:E.
  { exists s, st. split; [done|]. split; [reflexivity|]. split; [done|]. left. unfold halted. by rewrite E. }
  unfold observe. destruct (sp_ctx s (sp_seen s)) as [e|] eqn:Ec.
  - unfold g_Add. pose proof (step_done st (DsAdd (MkTriple sub p o) (identifier g)) e) as Hd. cbn [store_step] in Hd. rewrite Hd.
    set (s1 := MkStop _ _ _ _). destruct (sp_fail_halted "adding an inferred triple" e s1) as [H1 H2].
    eexists _, _. split; [reflexivity|]. split; [|split; [done|by left]].
    split_and!; [exact H2|done|]. intros Hb. by rewrite Hb in Ec.
  - destruct (g_add_ok st g sub p o Hst) as (st' & -> & Hst' & Hg). eexists _, st'. split; [reflexivity|].
    split; [exact (observe_later s)|]. split; [done|]. right. split; [unfold halted; cbn; by rewrite E|done].
Qed.

Lemma sp_length_spec g st s : sinv st → later s (sp_length g st s).2.
Proof.
  intros Hst. unfold sp_length. destruct (sp_err s) as [e|] eqn:E; [done|]. unfold observe.
  destruct (sp_ctx s (sp_seen s)) as [e|] eqn:Ec; unfold g_Len.
  - rewrite len_done. set (s1 := MkStop _ _ _ _). destruct (sp_fail_halted "counting triples" e s1) as [H1 H2].
    split_and!; [exact H2|done|]. intros Hb. by rewrite Hb in Ec.
  - rewrite len_ok by done. exact (observe_later s).
Qed.
End stopper_laws.
