(* ===== verification/Rdfs.v ===== *)
(** * RDFS closure

    [reasoning/rdfs.go]: forward chaining of rdfs2, rdfs3, rdfs7 and rdfs9 over
    indexes of the schema, repeated until nothing is new. *)

From S2P Require Import Prelude GoStrings Term TermKey TripleIndex Store MemoryStore Graph Collection Reasoning.
From stdpp Require Import relations options.

(** ** The code *)

Definition RDF_Type : URIRef := NewURIRefUnsafe (RDFNamespace +:+ "type").
Definition RDFSNamespace : string := "http://www.w3.org/2000/01/rdf-schema#".
Definition RDFS_SubClassOf : URIRef := NewURIRefUnsafe (RDFSNamespace +:+ "subClassOf").
Definition RDFS_SubPropertyOf : URIRef := NewURIRefUnsafe (RDFSNamespace +:+ "subPropertyOf").
Definition RDFS_Domain : URIRef := NewURIRefUnsafe (RDFSNamespace +:+ "domain").
Definition RDFS_Range : URIRef := NewURIRefUnsafe (RDFSNamespace +:+ "range").

(** The list of a key; a missing key has none. *)
Definition entries {T} (m : gmap string (list T)) (k : string) : list T := default [] (m !! k).
(** [m[k] = append(m[k], v)]. *)
Definition append_to {T} (m : gmap string (list T)) (k : string) (v : T) : gmap string (list T) := <[k := entries m k ++ [v]]> m.

Section transitive_close.
Context {T : Type} (key : T → string).

(** The inner loop of [transitiveClose]. *)
Fixpoint close_loop (fuel : nat) (m : gmap string (list T)) (visited : gset string) (supers queue : list T) : list T :=
  match fuel, queue with
  | O, _ | _, [] => supers
  | S fuel, cur :: queue =>
      let ck := key cur in
      if bool_decide (ck ∈ visited) then close_loop fuel m visited supers queue
      else close_loop fuel m ({[ck]} ∪ visited) (supers ++ [cur]) (queue ++ entries m ck)
  end.

Definition close_fuel (m : gmap string (list T)) (queue : list T) : nat := S (length queue + length (munion (λ l, l) m)).

(** [transitiveClose]: a key without entries has none in the result. *)
Definition transitiveClose (m : gmap string (list T)) : gmap string (list T) :=
  omap (λ l, match close_loop (close_fuel m l) m ∅ [] l with [] => None | supers => Some supers end) m.
End transitive_close.

Record rdfsIndexes := MkRdfs {
  domains : gmap string (list Term);
  ranges : gmap string (list Term);
  subClassOf : gmap string (list Term);
  subPropOf : gmap string (list URIRef)
}.

(** What a schema triple adds to an index. *)
Definition index_class (t : Triple) (m : gmap string (list Term)) : gmap string (list Term) :=
  match asSubject (Object t) with Some c => append_to m (TermKey (Subject t)) c | None => m end.
Definition index_prop (t : Triple) (m : gmap string (list URIRef)) : gmap string (list URIRef) :=
  match asURIRef (Object t) with Some q => append_to m (TermKey (Subject t)) q | None => m end.

(** The triples a pass has derived, and the keys of all triples seen. *)
Record pass := MkPass { ded : dedupSet; newTriples : list Triple }.

Definition emit (s : Term) (p : URIRef) (o : Term) (stop : stopper) (a : pass) : stopper * pass :=
  match sp_tick stop with
  | (true, stop) => (stop, a)
  | (false, stop) =>
      match addNew (ded a) s p o with
      | (true, d) => (stop, MkPass d (newTriples a ++ [MkTriple s p o]))
      | (false, d) => (stop, MkPass d (newTriples a))
      end
  end.

(** A loop that emits one triple for each element of a list. *)
Definition emit_all {T} (f : T → Triple) (l : list T) (stop : stopper) (a : pass) : stopper * pass :=
  foldl (λ '(stop, a) x, let t := f x in emit (Subject t) (Predicate t) (Object t) stop a) (stop, a) l.

Definition is_schema (t : Triple) : bool :=
  let pk := uri_key (Predicate t) in
  bool_decide (pk = uri_key RDFS_SubClassOf) || bool_decide (pk = uri_key RDFS_SubPropertyOf) ||
  bool_decide (pk = uri_key RDFS_Domain) || bool_decide (pk = uri_key RDFS_Range).

Section rdfs.
Context {St : Type} `{Store St}.
Implicit Types (stop : stopper) (g : Graph_) (st : St).

Definition buildSchemaIndexes g st stop : stopper * rdfsIndexes :=
  let '(stop, d) := sp_triples g None (Some RDFS_Domain) None (scan index_class) st stop ∅ in
  let '(stop, r) := sp_triples g None (Some RDFS_Range) None (scan index_class) st stop ∅ in
  let '(stop, sc) := sp_triples g None (Some RDFS_SubClassOf) None (scan index_class) st stop ∅ in
  let '(stop, sp) := sp_triples g None (Some RDFS_SubPropertyOf) None (scan index_prop) st stop ∅ in
  (stop, MkRdfs d r sc sp).

Definition closeTransitive (e : rdfsIndexes) : rdfsIndexes :=
  MkRdfs (domains e) (ranges e) (transitiveClose TermKey (subClassOf e)) (transitiveClose uri_key (subPropOf e)).

(** The rules applied to one triple. *)
Definition rules_of (e : rdfsIndexes) (t : Triple) (stop : stopper) (a : pass) : bool * stopper * pass :=
  match sp_tick stop with
  | (true, stop) => (false, stop, a)
  | (false, stop) =>
      let pk := uri_key (Predicate t) in
      let '(stop, a) := emit_all (λ c, MkTriple (Subject t) RDF_Type c) (entries (domains e) pk) stop a in
      let '(stop, a) :=
        match ranges e !! pk, asSubject (Object t) with
        | Some rs, Some oSubj => emit_all (λ c, MkTriple oSubj RDF_Type c) rs stop a
        | _, _ => (stop, a)
        end in
      let '(stop, a) := emit_all (λ q, MkTriple (Subject t) q (Object t)) (entries (subPropOf e) pk) stop a in
      let '(stop, a) :=
        if bool_decide (pk = uri_key RDF_Type)
        then emit_all (λ c2, MkTriple (Subject t) RDF_Type c2) (entries (subClassOf e) (TermKey (Object t))) stop a
        else (stop, a) in
      (negb (halted stop), stop, a)
  end.

Definition applyRules g (e : rdfsIndexes) (d : dedupSet) st stop : stopper * pass :=
  sp_triples g None None None (rules_of e) st stop (MkPass d []).

(** Adding the triples of a pass: how many were added when the pass was cut
    short, and whether one of them belongs to the schema.  Both closures add their
    passes so. *)
Fixpoint add_pass (schema_triple : Triple → bool) g (l : list Triple) (i : Z) (schema : bool) stop st : (option Z * bool) * stopper * St :=
  match l with
  | [] => ((None, schema), stop, st)
  | t :: l =>
      match sp_tick stop with
      | (true, stop) => ((Some i, schema), stop, st)
      | (false, stop) =>
          let '(stop, st) := sp_add g (Subject t) (Predicate t) (Object t) stop st in
          if halted stop then ((Some i, schema), stop, st)
          else add_pass schema_triple g l (i + 1) (schema || schema_triple t) stop st
      end
  end.

(** The fixed-point loop. *)
Fixpoint rdfs_loop (fuel : nat) g (e : rdfsIndexes) (d : dedupSet) (totalAdded : Z) stop st : Z * stopper * St :=
  match fuel with
  | O => (totalAdded, stop, st)
  | S fuel =>
      let '(stop, a) := applyRules g e d st stop in
      let '(done, stop) := sp_poll stop in
      if done || bool_decide (newTriples a = []) then (totalAdded, stop, st)
      else
        match add_pass is_schema g (newTriples a) 0 false stop st with
        | ((Some i, _), stop, st) => ((totalAdded + i)%Z, stop, st)
        | ((None, hasSchemaTriples), stop, st) =>
            let totalAdded := (totalAdded + Z.of_nat (length (newTriples a)))%Z in
            if hasSchemaTriples then
              let '(stop, e) := buildSchemaIndexes g st stop in
              rdfs_loop fuel g (closeTransitive e) (ded a) totalAdded stop st
            else rdfs_loop fuel g e (ded a) totalAdded stop st
        end
  end.

(** No pass but the last adds nothing, and no triple has a term of its own: the
    number of triples over the terms of the graph bounds the passes. *)
Definition rdfs_fuel g st : nat :=
  let n := length (g_Triples None g None None None st) in S (S ((3 * n + 1) * (3 * n + 1) * (3 * n + 1))).

(** [rdfsEngine.run]. *)
Definition rdfs_run g stop st : Z * stopper * St :=
  let '(stop, d) := sp_triples g None None None
    (scan (λ t d, (addNew d (Subject t) (Predicate t) (Object t)).2)) st stop ∅ in
  let '(stop, e) := buildSchemaIndexes g st stop in
  rdfs_loop (rdfs_fuel g st) g (closeTransitive e) d 0 stop st.

(** [newRDFSEngine] asks the store for its size first. *)
Definition newRDFSEngine_run g stop st : Z * stopper * St :=
  let '(_, stop) := sp_length g st stop in rdfs_run g stop st.

Definition RDFSClosure (ctx : nat → option error) g st : Z * option error * St :=
  let '(n, stop, st) := newRDFSEngine_run g (newStopper ctx) st in (n, failure stop, st).
End rdfs.
