(* ===== verification/RdfsCorrect.v ===== *)
(** * RDFS closure: soundness, completeness, termination

    The closure adds exactly the triples derivable by rdfs2, rdfs3, rdfs7 and rdfs9;
    cut short by its context it has added derivable triples only. *)

From S2P Require Import Prelude GoStrings Term TermKey TripleIndex Store MemoryStore Graph Collection Reasoning Rdfs.
From stdpp Require Import relations options.

(** ** Derivations *)

Inductive rdfs_derives (G : Triple → Prop) : Triple → Prop :=
| rdfs_given t : G t → rdfs_derives G t
| rdfs2 s p o c :
    rdfs_derives G (MkTriple (TURIRef p) RDFS_Domain c) → isSubject c = true →
    rdfs_derives G (MkTriple s p o) → rdfs_derives G (MkTriple s RDF_Type c)
| rdfs3 s p o c :
    rdfs_derives G (MkTriple (TURIRef p) RDFS_Range c) → isSubject c = true →
    rdfs_derives G (MkTriple s p o) → isSubject o = true → rdfs_derives G (MkTriple o RDF_Type c)
| rdfs7 s p o q :
    rdfs_derives G (MkTriple (TURIRef p) RDFS_SubPropertyOf (TURIRef q)) →
    rdfs_derives G (MkTriple s p o) → rdfs_derives G (MkTriple s q o)
| rdfs9 s c1 c2 :
    rdfs_derives G (MkTriple c1 RDFS_SubClassOf c2) → isSubject c2 = true →
    rdfs_derives G (MkTriple s RDF_Type c1) → rdfs_derives G (MkTriple s RDF_Type c2).

Lemma rdfs_idem G t : rdfs_derives (rdfs_derives G) t → rdfs_derives G t.
Proof. induction 1; eauto using rdfs_derives. Qed.

Lemma rdfs_mono (G G' : Triple → Prop) t : (∀ t, G t → G' t) → rdfs_derives G t → rdfs_derives G' t.
Proof. intros HG. induction 1; eauto using rdfs_derives. Qed.

(** The property that travels along derivations: it holds of the terms of the
    graph and of [rdf:type], [Q] in any position and [R] of what may be a subject
    or a predicate. *)
Section travels.
Context (Q R : Term → Prop) (HQ : Q (TURIRef RDF_Type)) (HR : R (TURIRef RDF_Type)).

Definition travels (t : Triple) : Prop :=
  Q (Subject t) ∧ R (Subject t) ∧ Q (TURIRef (Predicate t)) ∧ R (TURIRef (Predicate t)) ∧ Q (Object t) ∧
  (isSubject (Object t) = true → R (Object t)).

Lemma derives_travels G t : (∀ t, G t → travels t) → rdfs_derives G t → travels t.
Proof using HQ HR.
  intros HG. unfold travels in *. induction 1; cbn in *; [by apply HG|naive_solver..].
Qed.
End travels.

Lemma derives_wf G t : (∀ t, G t → triple_wf t) → rdfs_derives G t → triple_wf t.
Proof.
  intros HG Ht. assert (H : travels term_wf (λ t, isSubject t = true) t).
  { apply (derives_travels term_wf (λ t, isSubject t = true)) with G; [by eexists|done| |done]. intros u Hu.
    destruct (HG u Hu) as (H1 & H2 & H3 & H4). by split_and!. }
  destruct H as (H1 & H2 & H3 & _ & H4 & _). by split_and!.
Qed.

(** ** Transitive closures of an index *)

Lemma elem_entries {T} (m : gmap string (list T)) k v : v ∈ entries m k ↔ ∃ l, m !! k = Some l ∧ v ∈ l.
Proof.
  unfold entries. destruct (m !! k) as [l|]; cbn; [naive_solver|]. split; [by intros ?%not_elem_of_nil|naive_solver].
Qed.

Lemma entries_append {T} (m : gmap string (list T)) k v k' v' :
  v' ∈ entries (append_to m k v) k' ↔ v' ∈ entries m k' ∨ (k' = k ∧ v' = v).
Proof.
  unfold append_to. unfold entries at 1. rewrite lookup_insert. case_decide as E.
  - subst. cbn. rewrite elem_of_app, list_elem_of_singleton. naive_solver.
  - fold (entries m k'). naive_solver.
Qed.

Section closing.
Context {T : Type} (key : T → string) (m : gmap string (list T)).

(** One element below another. *)
Definition above_of (k k' : string) : Prop := ∃ x, x ∈ entries m k ∧ key x = k'.
Definition reachable (k : string) (c : T) : Prop := ∃ k', rtc above_of k k' ∧ c ∈ entries m k'.

(** What the queue still has to bring in. *)
Definition pending (visited : gset string) : nat := length (munion (λ l, l) (filter (λ kl, kl.1 ∉ visited) m)).

Lemma filter_visit ck visited :
  filter (λ kl : string * list T, kl.1 ∉ ({[ck]} ∪ visited : gset string)) m = delete ck (filter (λ kl : string * list T, kl.1 ∉ visited) m).
Proof.
  apply map_eq. intros k. apply option_eq. intros l. rewrite lookup_delete_Some, !map_lookup_filter_Some. cbn. set_solver.
Qed.

Lemma pending_visit ck visited : ck ∉ visited → pending visited = length (entries m ck) + pending ({[ck]} ∪ visited).
Proof.
  intros Hck. unfold pending, entries. rewrite filter_visit. destruct (m !! ck) as [l|] eqn:E; cbn.
  - erewrite munion_lookup by (apply map_lookup_filter_Some; split; [exact E|exact Hck]). by rewrite length_app.
  - rewrite delete_id; [done|]. apply map_lookup_filter_None. by left.
Qed.

Definition close_inv (k : string) (visited : gset string) (supers queue : list T) : Prop :=
  Forall (reachable k) supers ∧ Forall (reachable k) queue ∧ NoDup (key <$> supers) ∧
  (∀ c, key c ∈ visited ↔ key c ∈ key <$> supers) ∧
  ∀ c, c ∈ supers → ∀ c', c' ∈ entries m (key c) → key c' ∈ visited ∨ c' ∈ queue.

Lemma close_loop_ok k (queue0 : list T) fuel : ∀ visited supers queue,
  close_inv k visited supers queue → length queue + pending visited < fuel →
  (∀ c, c ∈ queue0 → key c ∈ visited ∨ c ∈ queue) →
  let r := close_loop key fuel m visited supers queue in
  Forall (reachable k) r ∧ NoDup (key <$> r) ∧ (∀ c, c ∈ queue0 → key c ∈ key <$> r) ∧
  ∀ c, c ∈ r → ∀ c', c' ∈ entries m (key c) → key c' ∈ key <$> r.
Proof.
  induction fuel as [|fuel IH]; intros visited supers queue (H1 & H2 & H3 & H4 & H5) Hf Hq; [lia|].
  destruct queue as [|cur queue]; cbn [close_loop].
  - split_and!; [done|done| |].
    + intros c Hc. apply H4. destruct (Hq c Hc) as [|Hn]; [done|]. by apply not_elem_of_nil in Hn.
    + intros c Hc c' Hc'. apply H4. destruct (H5 c Hc c' Hc') as [|Hn]; [done|]. by apply not_elem_of_nil in Hn.
  - apply Forall_cons in H2 as [Hcur H2]. case_bool_decide as Ev.
    + apply IH; [|cbn in Hf; lia|]; [split_and!; try done|].
      * intros c Hc c' Hc'. destruct (H5 c Hc c' Hc') as [|Hn]; [by left|]. apply elem_of_cons in Hn as [->|]; [by left|by right].
      * intros c Hc. destruct (Hq c Hc) as [|Hn]; [by left|]. apply elem_of_cons in Hn as [->|]; [by left|by right].
    + apply IH.
      * split_and!.
        -- apply Forall_app. split; [done|by constructor].
        -- apply Forall_app. split; [done|]. apply Forall_forall. intros x Hx. destruct Hcur as (k' & Hk' & Hin).
           exists (key cur). split; [|done]. eapply rtc_r; [exact Hk'|]. by exists cur.
        -- rewrite fmap_app. apply NoDup_app. split_and!; [done| |apply NoDup_singleton].
           intros x Hx ->%list_elem_of_singleton. by apply Ev, H4.
        -- intros c. rewrite fmap_app, elem_of_union, elem_of_app, elem_of_singleton. cbn. rewrite list_elem_of_singleton, H4. tauto.
        -- intros c [Hc| ->%list_elem_of_singleton]%elem_of_app c' Hc'; [|set_solver].
           destruct (H5 c Hc c' Hc') as [|[->|]%elem_of_cons]; set_solver.
      * rewrite length_app. rewrite (pending_visit (key cur)) in Hf by done. cbn in Hf. lia.
      * intros c Hc. destruct (Hq c Hc) as [|[->|]%elem_of_cons]; set_solver.
Qed.
End closing.

(** The closed index: the same elements, up to their keys, as the paths reach. *)
Lemma transitiveClose_spec {T} (key : T → string) m k :
  (∀ c, c ∈ entries (transitiveClose key m) k → reachable key m k c) ∧
  (∀ c, reachable key m k c → key c ∈ key <$> entries (transitiveClose key m) k) ∧
  NoDup (key <$> entries (transitiveClose key m) k).
Proof.
  assert (Hnone : ∀ l, m !! k = Some l → transitiveClose key m !! k =
    match close_loop key (close_fuel m l) m ∅ [] l with [] => None | s => Some s end).
  { intros l Hl. unfold transitiveClose. by rewrite lookup_omap, Hl. }
  destruct (m !! k) as [l|] eqn:E.
  - specialize (Hnone l eq_refl). destruct (close_loop_ok key m k l (close_fuel m l) ∅ [] l) as (R1 & R2 & R3 & R4).
    + split_and!; [constructor| |constructor|set_solver|set_solver]. apply Forall_forall. intros c Hc. exists k.
      split; [reflexivity|]. apply elem_entries. eauto.
    + unfold close_fuel, pending. rewrite map_filter_id; [lia|]. intros. set_solver.
    + auto.
    + set (r := close_loop key _ _ _ _ _) in *.
      assert (He : entries (transitiveClose key m) k = r) by (unfold entries; rewrite Hnone; by destruct r).
      rewrite He. split_and!; [by apply Forall_forall| |done].
      intros c (k' & Hk' & Hc). revert c Hc.
      apply (rtc_ind_r (R := above_of key m) (λ k', ∀ c, c ∈ entries m k' → key c ∈ key <$> r) k); [| |exact Hk'].
      * intros c Hc. apply R3. apply elem_entries in Hc as (l' & Hl' & Hc). congruence.
      * intros k1 k2 Hk1 (x & Hx & <-) IH c Hc.
        apply IH in Hx. apply list_elem_of_fmap in Hx as (y & Hy & Hin). rewrite Hy in Hc. by eapply R4.
  - assert (He : entries (transitiveClose key m) k = []).
    { unfold entries, transitiveClose. rewrite lookup_omap, E. done. }
    rewrite He. split_and!; [by intros c ?%not_elem_of_nil| |constructor].
    intros c (k' & Hk' & Hc). destruct Hk' as [|k1 k2 k3 (x & Hx & _)].
    + apply elem_entries in Hc as (l & Hl & _). congruence.
    + apply elem_entries in Hx as (l & Hl & _). congruence.
Qed.

(** ** Deriving *)

Definition ded_key (t : Triple) : string := tripleKey (Subject t) (Predicate t) (Object t).

Definition emit_t (stop_a : stopper * pass) (t : Triple) : stopper * pass :=
  emit (Subject t) (Predicate t) (Object t) stop_a.1 stop_a.2.

Lemma emit_all_list {T} (f : T → Triple) l stop a : emit_all f l stop a = foldl emit_t (stop, a) (f <$> l).
Proof.
  unfold emit_all. generalize (stop, a). induction l as [|x l IH]; intros [s b]; [done|]. cbn [foldl fmap list_fmap]. apply IH.
Qed.

(** Everything the rules derive from one triple. *)
Definition rule_results (e : rdfsIndexes) (t : Triple) : list Triple :=
  let pk := uri_key (Predicate t) in
  ((λ c, MkTriple (Subject t) RDF_Type c) <$> entries (domains e) pk) ++
  (match asSubject (Object t) with
   | Some o => (λ c, MkTriple o RDF_Type c) <$> entries (ranges e) pk
   | None => []
   end) ++
  ((λ q, MkTriple (Subject t) q (Object t)) <$> entries (subPropOf e) pk) ++
  (if bool_decide (pk = uri_key RDF_Type)
   then (λ c2, MkTriple (Subject t) RDF_Type c2) <$> entries (subClassOf e) (TermKey (Object t)) else []).

Lemma rules_of_list e t stop a :
  rules_of e t stop a =
  (let '(b, stop) := sp_tick stop in
   if b then (false, stop, a)
   else let '(stop, a) := foldl emit_t (stop, a) (rule_results e t) in (negb (halted stop), stop, a)).
Proof.
  unfold rules_of, rule_results. destruct (sp_tick stop) as [[] stop1]; [done|]. rewrite !foldl_app, !emit_all_list.
  set (pk := uri_key (Predicate t)). destruct (foldl emit_t _ _) as [s2 a2].
  assert (E : (match ranges e !! pk, asSubject (Object t) with
     | Some rs, Some oSubj => emit_all (λ c, MkTriple oSubj RDF_Type c) rs s2 a2
     | _, _ => (s2, a2) end) =
    foldl emit_t (s2, a2) (match asSubject (Object t) with
     | Some o => (λ c, MkTriple o RDF_Type c) <$> entries (ranges e) pk | None => [] end)).
  { unfold entries. destruct (ranges e !! pk), (asSubject (Object t)); rewrite ?emit_all_list; done. }
  rewrite E. destruct (foldl emit_t (s2, a2) _) as [s3 a3]. rewrite emit_all_list.
  destruct (foldl emit_t (s3, a3) _) as [s4 a4]. case_bool_decide; rewrite ?emit_all_list; done.
Qed.

(** The triples of a pass: new, distinct, and of a property [P]. *)
Definition pass_ok (P : Triple → Prop) (d0 : dedupSet) (a : pass) : Prop :=
  ded a = d0 ∪ list_to_set (ded_key <$> newTriples a) ∧ NoDup (ded_key <$> newTriples a) ∧
  ∀ t, t ∈ newTriples a → P t ∧ ded_key t ∉ d0.

Lemma emit_ok P d0 t stop a :
  P t → pass_ok P d0 a →
  ∃ stop' a', emit_t (stop, a) t = (stop', a') ∧ later stop stop' ∧ pass_ok P d0 a' ∧ ded a ⊆ ded a' ∧
    (halted stop' = true ∨ ded_key t ∈ ded a').
Proof.
  intros HP (H1 & H2 & H3). unfold emit_t, emit. cbn [fst snd]. destruct (sp_tick_spec stop) as (s' & -> & Hl).
  destruct (halted s') eqn:Eh; [exists s', a; split_and!; try done; by left|].
  unfold addNew. fold (ded_key t). case_bool_decide as E; eexists s', _; (split; [reflexivity|]); (split; [done|]); cbn.
  - split_and!; try done. by right.
  - split; [|split; [set_solver|right; set_solver]]. split_and!; cbn.
    + rewrite H1, fmap_app, list_to_set_app_L. cbn. set_solver.
    + rewrite fmap_app. apply NoDup_app. split_and!; [done| |apply NoDup_singleton].
      intros k Hk ->%list_elem_of_singleton. apply E. rewrite H1. apply elem_of_union_r, elem_of_list_to_set. by destruct t.
    + intros u [Hu| ->%list_elem_of_singleton]%elem_of_app; [by apply H3|]. destruct t as [s p o]. split; [done|].
      rewrite H1 in E. set_solver.
Qed.

Lemma emits_ok P d0 l : ∀ stop a, Forall P l → pass_ok P d0 a →
  ∃ stop' a', foldl emit_t (stop, a) l = (stop', a') ∧ later stop stop' ∧ pass_ok P d0 a' ∧ ded a ⊆ ded a' ∧
    (halted stop' = true ∨ ∀ t, t ∈ l → ded_key t ∈ ded a').
Proof.
  induction l as [|t l IH]; intros stop a HP Ha.
  - exists stop, a. split_and!; try done. right. by intros t ?%not_elem_of_nil.
  - apply Forall_cons in HP as [Ht HP]. destruct (emit_ok P d0 t stop a Ht Ha) as (s1 & a1 & E1 & L1 & P1 & S1 & D1).
    destruct (IH s1 a1 HP P1) as (s2 & a2 & E2 & L2 & P2 & S2 & D2). exists s2, a2. cbn [foldl]. rewrite E1.
    split_and!; [done|by etrans|done|by etrans|].
    destruct (halted s2) eqn:Eh; [by left|]. right. destruct D2 as [|D2]; [done|].
    destruct D1 as [D1|D1]; [apply L2 in D1; congruence|]. intros u [->|Hu]%elem_of_cons; set_solver.
Qed.

(** A pass over some triples. *)
Lemma rules_ok P d0 e l : ∀ stop a,
  (∀ t, t ∈ l → Forall P (rule_results e t)) → pass_ok P d0 a → 
  ∃ stop' a', triples_go (rules_of e) (Ok <$> l) stop a = (stop', a') ∧ later stop stop' ∧ pass_ok P d0 a' ∧ ded a ⊆ ded a' ∧
    (halted stop' = true ∨ ∀ t, t ∈ l → ∀ r, r ∈ rule_results e t → ded_key r ∈ ded a').
Proof.
  induction l as [|t l IH]; intros stop a HP Ha.
  - exists stop, a. split_and!; try done. right. by intros t ?%not_elem_of_nil.
  - cbn [fmap list_fmap triples_go]. rewrite rules_of_list. destruct (sp_tick_spec stop) as (s0 & -> & L0).
    destruct (halted s0) eqn:E0; [exists s0, a; split_and!; try done; by left|].
    destruct (emits_ok P d0 (rule_results e t) s0 a) as (s1 & a1 & -> & L1 & P1 & S1 & D1); [apply HP; set_solver|done|].
    destruct (halted s1) eqn:Eh1; cbn [negb].
    + exists s1, a1. split_and!; try done; [by etrans|by left].
    + destruct D1 as [|D1]; [done|]. destruct (IH s1 a1) as (s2 & a2 & E2 & L2 & P2 & S2 & D2); [intros; apply HP; set_solver|done|].
      exists s2, a2. split_and!; [done|by do 2 (etrans; [eassumption|])|done|by etrans|].
      destruct D2 as [|D2]; [by left|right]. intros u [->|Hu]%elem_of_cons r Hr; [by apply S2, D1|by eapply D2].
Qed.

(** ** Indexes *)

Lemma elem_index_class l : ∀ m k c,
  c ∈ entries (foldl (λ m t, index_class t m) m l) k ↔
  c ∈ entries m k ∨ ∃ t, t ∈ l ∧ isSubject c = true ∧ Object t = c ∧ TermKey (Subject t) = k.
Proof.
  induction l as [|t l IH]; intros m k c; cbn [foldl].
  - split; [by left|]. intros [|(t & Ht & _)]; [done|]. by apply not_elem_of_nil in Ht.
  - rewrite IH. unfold index_class, asSubject. setoid_rewrite elem_of_cons. destruct (isSubject (Object t)) eqn:E.
    + rewrite entries_append. naive_solver.
    + split; [naive_solver|]. intros [|(u & [->|Hu] & Hs & Ho & Hk)]; [by left|congruence|right; eauto 10].
Qed.

Lemma elem_index_prop l : ∀ m k q,
  q ∈ entries (foldl (λ m t, index_prop t m) m l) k ↔
  q ∈ entries m k ∨ ∃ t, t ∈ l ∧ Object t = TURIRef q ∧ TermKey (Subject t) = k.
Proof.
  induction l as [|t l IH]; intros m k q; cbn [foldl].
  - split; [by left|]. intros [|(t & Ht & _)]; [done|]. by apply not_elem_of_nil in Ht.
  - rewrite IH. unfold index_prop. setoid_rewrite elem_of_cons.
    destruct (asURIRef (Object t)) as [u|] eqn:E.
    + assert (Hu : Object t = TURIRef u) by (destruct (Object t); cbn in E; congruence). rewrite entries_append. split.
      * intros [[|[-> ->]]|(v & ? & ? & ?)]; eauto 10.
      * intros [|(v & [->|Hv] & Ho & Hk)]; [eauto| |eauto 10]. left. right. split; [done|congruence].
    + split; [intros [|(v & ? & ? & ?)]; eauto 10|]. intros [|(v & [->|Hv] & Ho & Hk)]; [by left| |right; eauto 10].
      by rewrite Ho in E.
Qed.

Section index.
Context (D : Triple → Prop) (D_wf : ∀ t, D t → triple_wf t).

(** An index says nothing that is not a triple of [D]. *)
Definition class_sound (p : URIRef) (m : gmap string (list Term)) : Prop :=
  ∀ k c, c ∈ entries m k → isSubject c = true ∧ ∃ x, TermKey x = k ∧ D (MkTriple x p c).
Definition prop_sound (p : URIRef) (m : gmap string (list URIRef)) : Prop :=
  ∀ k q, q ∈ entries m k → ∃ x, TermKey x = k ∧ D (MkTriple x p (TURIRef q)).
Definition index_sound (e : rdfsIndexes) : Prop :=
  class_sound RDFS_Domain (domains e) ∧ class_sound RDFS_Range (ranges e) ∧
  class_sound RDFS_SubClassOf (subClassOf e) ∧ prop_sound RDFS_SubPropertyOf (subPropOf e).

(** Every schema triple of [l] is in it. *)
Definition class_complete (l : list Triple) (p : URIRef) (m : gmap string (list Term)) : Prop :=
  ∀ x c, MkTriple x p c ∈ l → isSubject c = true → c ∈ entries m (TermKey x).
Definition prop_complete (l : list Triple) (p : URIRef) (m : gmap string (list URIRef)) : Prop :=
  ∀ x q, MkTriple x p (TURIRef q) ∈ l → q ∈ entries m (TermKey x).
Definition index_complete (l : list Triple) (e : rdfsIndexes) : Prop :=
  class_complete l RDFS_Domain (domains e) ∧ class_complete l RDFS_Range (ranges e) ∧
  class_complete l RDFS_SubClassOf (subClassOf e) ∧ prop_complete l RDFS_SubPropertyOf (subPropOf e).

Context {St : Type} `{StoreLaws St}.

Lemma predicate_matches p t : uri_ok p → triple_wf t → pattern_matches (MkPattern None (Some p) None) t = true ↔ Predicate t = p.
Proof.
  intros Hp (_ & _ & Ht & _). unfold pattern_matches. cbn [pat_Subject pat_Predicate pat_Object OptTermKey OptPredKey].
  rewrite !andb_true_iff, !key_matches_iff, (bound_key (TURIRef p) Hp). change (bound EmptyString) with false. cbn [TermKey].
  split; [|intros <-; naive_solver]. intros Hk. apply uri_key_inj; [done|done|]. naive_solver.
Qed.

Lemma scan_class g p st stop :
  sinv st → uri_ok p → (∀ t, t ∈ graph_triples (graph_of st g) → D t) →
  ∃ stop' m, sp_triples g None (Some p) None (scan index_class) st stop ∅ = (stop', m) ∧ later stop stop' ∧ class_sound p m ∧
    (halted stop' = true ∨ class_complete (graph_triples (graph_of st g)) p m).
Proof using D_wf.
  intros Hs Hp HD. destruct (sp_scan_spec g None (Some p) None index_class st stop ∅ Hs) as (l & stop' & E & L & H1 & H2).
  pose proof (graph_of_keyed st g Hs) as Hk.
  eexists _, _. split; [exact E|]. split; [done|]. split.
  - intros k c [Hc|(t & Ht & Hsub & Ho & Hkey)]%elem_index_class; [by rewrite elem_entries in Hc; destruct Hc as (? & ? & _)|].
    apply H1, matching_elem in Ht as [Ht Hm]; [|done]. split; [done|]. exists (Subject t). split; [done|].
    apply predicate_matches in Hm; [|done|by apply D_wf, HD]. subst. destruct t. by apply HD.
  - destruct H2 as [|H2]; [by left|right]. intros x c Hx Hc. apply elem_index_class. right. exists (MkTriple x p c).
    split_and!; try done. rewrite H2. apply matching_elem; [done|]. split; [done|]. apply predicate_matches; [done|by apply D_wf, HD|done].
Qed.

Lemma scan_prop g p st stop :
  sinv st → uri_ok p → (∀ t, t ∈ graph_triples (graph_of st g) → D t) →
  ∃ stop' m, sp_triples g None (Some p) None (scan index_prop) st stop ∅ = (stop', m) ∧ later stop stop' ∧ prop_sound p m ∧
    (halted stop' = true ∨ prop_complete (graph_triples (graph_of st g)) p m).
Proof using D_wf.
  intros Hs Hp HD. destruct (sp_scan_spec g None (Some p) None index_prop st stop ∅ Hs) as (l & stop' & E & L & H1 & H2).
  pose proof (graph_of_keyed st g Hs) as Hk.
  eexists _, _. split; [exact E|]. split; [done|]. split.
  - intros k q [Hc|(t & Ht & Ho & Hkey)]%elem_index_prop; [by rewrite elem_entries in Hc; destruct Hc as (? & ? & _)|].
    apply H1, matching_elem in Ht as [Ht Hm]; [|done]. exists (Subject t). split; [done|].
    apply predicate_matches in Hm; [|done|by apply D_wf, HD]. subst. rewrite <- Ho. destruct t. by apply HD.
  - destruct H2 as [|H2]; [by left|right]. intros x q Hx. apply elem_index_prop. right. exists (MkTriple x p (TURIRef q)).
    split_and!; try done. rewrite H2. apply matching_elem; [done|]. split; [done|]. apply predicate_matches; [done|by apply D_wf, HD|done].
Qed.

Lemma build_ok g st stop :
  sinv st → (∀ t, t ∈ graph_triples (graph_of st g) → D t) →
  ∃ stop' e, buildSchemaIndexes g st stop = (stop', e) ∧ later stop stop' ∧ index_sound e ∧
    (halted stop' = true ∨ index_complete (graph_triples (graph_of st g)) e).
Proof using D_wf.
  intros Hs HD. unfold buildSchemaIndexes.
  destruct (scan_class g RDFS_Domain st stop) as (s1 & m1 & -> & L1 & S1 & C1); [done|by eexists|done|].
  destruct (scan_class g RDFS_Range st s1) as (s2 & m2 & -> & L2 & S2 & C2); [done|by eexists|done|].
  destruct (scan_class g RDFS_SubClassOf st s2) as (s3 & m3 & -> & L3 & S3 & C3); [done|by eexists|done|].
  destruct (scan_prop g RDFS_SubPropertyOf st s3) as (s4 & m4 & -> & L4 & S4 & C4); [done|by eexists|done|].
  eexists s4, _. split; [done|]. split; [by do 3 (etrans; [eassumption|])|]. split; [done|].
  destruct (halted s4) eqn:E4; [by left|right].
  assert (N : ∀ s s', later s s' → halted s' = false → halted s = false).
  { intros s s' (_ & Hh & _) Hf. destruct (halted s); [|done]. by rewrite Hh in Hf. }
  pose proof (N _ _ L4 E4) as E3. pose proof (N _ _ L3 E3) as E2. pose proof (N _ _ L2 E2) as E1.
  rewrite ?E1, ?E2, ?E3 in *. split_and!; naive_solver.
Qed.
End index.

Section rules.
Context (G : Triple → Prop) (G_wf : ∀ t, G t → triple_wf t).
Abbreviation D := (rdfs_derives G).

Lemma D_triple_wf t : D t → triple_wf t.
Proof using G_wf. by apply derives_wf. Qed.

(** Climbing the closed class index. *)
Lemma climb_classes e s c1 c2 : class_sound D RDFS_SubClassOf (subClassOf e) →
  D (MkTriple s RDF_Type c1) → reachable TermKey (subClassOf e) (TermKey c1) c2 → D (MkTriple s RDF_Type c2).
Proof using G_wf.
  intros He Hs (k & Hk & Hc2). remember (TermKey c1) as k1 eqn:E. revert c1 Hs E.
  assert (Hstep : ∀ k c1 c, c ∈ entries (subClassOf e) k → k = TermKey c1 → D (MkTriple s RDF_Type c1) → D (MkTriple s RDF_Type c)).
  { intros k' c1 c Hc -> Hs. destruct (He _ _ Hc) as [Hsub (x & Hx & HD)].
    assert (x = c1) as -> by (apply TermKey_inj; [by apply D_triple_wf in HD as [? _]|by apply D_triple_wf in Hs as (_ & _ & _ & ?)|done]).
    by eapply rdfs9. }
  induction Hk as [k|k k1' k2 (x & Hx & <-) _ IH]; intros c1 Hs E.
  - by eapply Hstep.
  - apply (IH Hc2 x); [|done]. by eapply Hstep.
Qed.

Lemma climb_props e s p o q : prop_sound D RDFS_SubPropertyOf (subPropOf e) →
  D (MkTriple s p o) → reachable uri_key (subPropOf e) (uri_key p) q → D (MkTriple s q o).
Proof using G_wf.
  intros He Hs (k & Hk & Hq). remember (uri_key p) as k1 eqn:E. revert p Hs E.
  assert (Hstep : ∀ k p q', q' ∈ entries (subPropOf e) k → k = uri_key p → D (MkTriple s p o) → D (MkTriple s q' o)).
  { intros k' p q' Hc -> Hs. destruct (He _ _ Hc) as (x & Hx & HD).
    assert (x = TURIRef p) as ->.
    { apply TermKey_inj; [by apply D_triple_wf in HD as [? _]|by apply D_triple_wf in Hs as (_ & _ & ? & _)|done]. }
    by eapply rdfs7. }
  induction Hk as [k|k k1' k2 (x & Hx & <-) _ IH]; intros p Hs E.
  - by eapply Hstep.
  - apply (IH Hq x); [|done]. by eapply Hstep.
Qed.

Lemma rule_results_sound e t : index_sound D e → D t → Forall D (rule_results (closeTransitive e) t).
Proof using G_wf.
  intros (S1 & S2 & S3 & S4) Ht. destruct t as [s p o]. pose proof (D_triple_wf _ Ht) as (_ & _ & Hp & Ho). cbn in Hp, Ho.
  unfold rule_results, closeTransitive. cbn [domains ranges subClassOf subPropOf Subject Predicate Object].
  assert (Hx : ∀ x q c, TermKey x = uri_key p → D (MkTriple x q c) → x = TURIRef p).
  { intros x q c Hk HD. apply TermKey_inj; [by apply D_triple_wf in HD as [? _]|done|done]. }
  rewrite !Forall_app. split_and!.
  - apply Forall_fmap, Forall_forall. intros c Hc. destruct (S1 _ _ Hc) as [Hsub (x & Hk & HD)].
    rewrite (Hx x _ _ Hk HD) in HD. by eapply rdfs2.
  - unfold asSubject. destruct (isSubject o) eqn:Eo; [|constructor].
    apply Forall_fmap, Forall_forall. intros c Hc. destruct (S2 _ _ Hc) as [Hsub (x & Hk & HD)].
    rewrite (Hx x _ _ Hk HD) in HD. by eapply rdfs3.
  - apply Forall_fmap, Forall_forall. intros q Hq. apply transitiveClose_spec in Hq. by eapply climb_props.
  - case_bool_decide as E; [|constructor]. apply uri_key_inj in E as ->; [|done|by eexists].
    apply Forall_fmap, Forall_forall. intros c Hc. apply transitiveClose_spec in Hc. by eapply climb_classes.
Qed.
End rules.

(** ** Adding a pass *)

Lemma elem_graph_add (m : gmap tkey_t Triple) (t u : Triple) :
  keyed m → m !! tkey t = None → u ∈ graph_triples (graph_add m t) ↔ u ∈ graph_triples m ∨ u = t.
Proof.
  intros Hk Hn. rewrite !graph_triples_elem by auto using graph_add_keyed. unfold graph_add. rewrite Hn, lookup_insert.
  case_decide as E; [|naive_solver]. split; [intros [= ->]; by right|]. intros [Hu| ->]; [congruence|done].
Qed.

Lemma size_graph_add (m : gmap tkey_t Triple) (t : Triple) : m !! tkey t = None → size (graph_add m t) = S (size m).
Proof. intros Hn. unfold graph_add. rewrite Hn. by apply map_size_insert_None. Qed.

Lemma ded_key_tkey t u : tkey t = tkey u → ded_key t = ded_key u.
Proof. unfold tkey, ded_key, tripleKey. cbn. by intros [= -> -> ->]. Qed.

(** No vertical bar, which the keys of triples are joined with. *)
Definition bar_free (t : Triple) : Prop :=
  has_byte "|" (TermKey (Subject t)) = false ∧ has_byte "|" (uri_key (Predicate t)) = false ∧
  (isSubject (Object t) = true → has_byte "|" (TermKey (Object t)) = false).

Lemma ded_key_wf_inj t u : triple_wf t → triple_wf u → bar_free t → bar_free u → ded_key t = ded_key u → t = u.
Proof.
  intros (W1 & _ & W2 & W3) (V1 & _ & V2 & V3) (B1 & B2 & _) (B3 & B4 & _) He. unfold ded_key, tripleKey in He.
  apply pair_key_inj in He as [K1 He]; [|done|done]. apply pair_key_inj in He as [K2 K3]; [|done|done].
  destruct t, u. cbn in *. f_equal; [by apply TermKey_inj|by apply uri_key_inj|by apply TermKey_inj].
Qed.

Section loop.
Context {St : Type} `{StoreLaws St} (g : Graph_).
Abbreviation has st t := (t ∈ graph_triples (graph_of st g)).

Lemma add_pass_ok sch l : ∀ i schema stop st,
  sinv st → halted stop = false → NoDup (ded_key <$> l) → (∀ t u, t ∈ l → has st u → ded_key u ≠ ded_key t) →
  ∃ r stop' st' l1 l2, add_pass sch g l i schema stop st = (r, stop', st') ∧ l = l1 ++ l2 ∧ later stop stop' ∧ sinv st' ∧
    (∀ u, has st' u ↔ has st u ∨ u ∈ l1) ∧ size (graph_of st' g) = size (graph_of st g) + length l1 ∧
    (halted stop' = true ∧ r.1 = Some (i + Z.of_nat (length l1))%Z ∨
     halted stop' = false ∧ l2 = [] ∧ r = (None, schema || existsb sch l)).
Proof.
  induction l as [|t l IH]; intros i schema stop st Hs Hh Hnd Hnew.
  - exists (None, schema), stop, st, [], []. split; [done|]. split; [done|]. split; [reflexivity|]. split; [done|].
    split; [intros u; split; [by left|]; intros [|Hu]; [done|by apply not_elem_of_nil in Hu]|].
    split; [by rewrite Nat.add_0_r|]. right. by rewrite orb_false_r.
  - cbn [add_pass existsb]. destruct (sp_tick_spec stop) as (s1 & -> & L1).
    assert (Hnone : ∀ s2, halted s2 = true → later stop s2 → ∃ r stop' st' l1 l2,
      ((Some i, schema), s2, st) = (r, stop', st') ∧ t :: l = l1 ++ l2 ∧ later stop stop' ∧ sinv st' ∧
      (∀ u, has st' u ↔ has st u ∨ u ∈ l1) ∧ size (graph_of st' g) = size (graph_of st g) + length l1 ∧
      (halted stop' = true ∧ r.1 = Some (i + Z.of_nat (length l1))%Z ∨
       halted stop' = false ∧ l2 = [] ∧ r = (None, schema || (sch t || existsb sch l)))).
    { intros s2 H2 L2. exists (Some i, schema), s2, st, [], (t :: l). split; [done|]. split; [done|]. split; [done|]. split; [done|].
      split; [intros u; split; [by left|]; intros [|Hu]; [done|by apply not_elem_of_nil in Hu]|].
      split; [by rewrite Nat.add_0_r|]. left. split; [done|]. cbn. by rewrite Z.add_0_r. }
    destruct (halted s1) eqn:E1; [by apply Hnone|].
    destruct (sp_add_spec g (Subject t) (Predicate t) (Object t) s1 st Hs) as (s2 & st2 & -> & L2 & Hs2 & [[E2 ->]|[E2 Hg]]).
    + rewrite E2. apply Hnone; [done|by etrans].
    + rewrite E2. assert (Ht : MkTriple (Subject t) (Predicate t) (Object t) = t) by (by destruct t). rewrite Ht in Hg.
      pose proof (graph_of_keyed st g Hs) as Hk.
      assert (Hn : graph_of st g !! tkey t = None).
      { destruct (graph_of st g !! tkey t) as [u|] eqn:Eu; [|done]. exfalso. apply (Hnew t u); [set_solver| |].
        - apply graph_triples_elem; [done|]. by rewrite (Hk _ _ Eu).
        - by apply ded_key_tkey, (Hk _ _ Eu). }
      assert (Hm : ∀ u, has st2 u ↔ has st u ∨ u = t) by (intros u; rewrite Hg; by apply elem_graph_add).
      apply NoDup_cons in Hnd as [Hnt Hnd].
      destruct (IH (i + 1)%Z (schema || sch t) s2 st2) as (r & s3 & st3 & l1 & l2 & E & Hl & L3 & Hs3 & Hm3 & Hsz & Hr); [done|done|done| |].
      { intros t' u Ht' [Hu| ->]%Hm; [apply Hnew; [set_solver|done]|]. intros He. apply Hnt. rewrite He. by apply list_elem_of_fmap_2. }
      exists r, s3, st3, (t :: l1), l2. split; [done|]. split; [by rewrite Hl|]. split; [by do 2 (etrans; [eassumption|])|]. split; [done|].
      split; [intros u; rewrite Hm3, Hm, elem_of_cons; tauto|]. split.
      * rewrite Hsz, Hg, size_graph_add by exact Hn. cbn [length]. by rewrite Nat.add_succ_r.
      * destruct Hr as [[H1 H2]|(H1 & H2 & H3)]; [left|right]; (split; [done|]).
        -- rewrite H2. f_equal. cbn [length]. by rewrite Nat2Z.inj_succ, <- Z.add_1_l, Z.add_assoc.
        -- split; [done|]. rewrite H3. by rewrite orb_assoc.
Qed.

Context (G : Triple → Prop) (G_wf : ∀ t, G t → triple_wf t).
Abbreviation D := (rdfs_derives G).
(** The derivable triples are at most [N]. *)
Context (N : nat) (D_bound : ∀ st, sinv st → (∀ t, has st t → D t) → size (graph_of st g) ≤ N).

(** The keys of the triples of the graph, all of them. *)
Definition ded_ok (d : dedupSet) st : Prop := ∀ k, k ∈ d ↔ ∃ t, has st t ∧ ded_key t = k.

(** What a finished run has: an index of the schema and no rule with a result
    of a key that is not there. *)
Definition saturated st : Prop :=
  ∃ e, index_sound D e ∧ index_complete (graph_triples (graph_of st g)) e ∧
    ∀ t, has st t → ∀ r, r ∈ rule_results (closeTransitive e) t → ∃ u, has st u ∧ ded_key u = ded_key r.

(** The loop's promise. *)
Definition loop_result (total : Z) stop st (res : Z * stopper * St) : Prop :=
  let '(n, stop', st') := res in
  later stop stop' ∧ sinv st' ∧ (∀ t, has st' t → D t) ∧ (∀ t, has st t → has st' t) ∧
  size (graph_of st g) ≤ size (graph_of st' g) ∧
  n = (total + Z.of_nat (size (graph_of st' g)) - Z.of_nat (size (graph_of st g)))%Z ∧
  (halted stop' = true ∨ saturated st').

Lemma pass_index e st :
  index_sound D e → (∀ t, has st t → D t) → ∀ l : list Triple, (∀ t, t ∈ l → has st t) → ∀ t, t ∈ l → Forall D (rule_results (closeTransitive e) t).
Proof using G_wf. intros He HD l Hl t Ht. apply rule_results_sound; auto. Qed.

(** Triples that are not of the schema leave its index complete. *)
Lemma index_complete_more e (l l' l1 : list Triple) :
  index_complete l e → (∀ u, u ∈ l' ↔ u ∈ l ∨ u ∈ l1) → existsb is_schema l1 = false → index_complete l' e.
Proof.
  intros (C1 & C2 & C3 & C4) Hl Hs.
  assert (Hin : ∀ x p c, MkTriple x p c ∈ l' → is_schema (MkTriple x p c) = true → MkTriple x p c ∈ l).
  { intros x p c Hx Hsch. apply Hl in Hx as [|Hx]; [done|]. exfalso.
    assert (existsb is_schema l1 = true) as Ht; [|congruence]. apply existsb_exists. exists (MkTriple x p c).
    split; [by apply list_elem_of_In|done]. }
  split_and!; [intros x c Hx Hc; apply C1|intros x c Hx Hc; apply C2|intros x c Hx Hc; apply C3|intros x q Hx; apply C4]; auto.
Qed.

Lemma loop_ok fuel : ∀ e d total stop st,
  sinv st → (∀ t, has st t → D t) → index_sound D e →
  (halted stop = true ∨ index_complete (graph_triples (graph_of st g)) e ∧ ded_ok d st) →
  N - size (graph_of st g) < fuel →
  loop_result total stop st (rdfs_loop fuel g (closeTransitive e) d total stop st).
Proof using G_wf D_bound.
  induction fuel as [|fuel IH]; intros e d total stop st Hs HD He Hinv Hf; [lia|]. cbn [rdfs_loop].
  pose proof (graph_of_keyed st g Hs) as Hk. unfold applyRules.
  assert (Hstop : ∀ s', later stop s' → halted s' = true → loop_result total stop st (total, s', st)).
  { intros s' L Hh. split; [done|]. split; [done|]. split; [done|]. split; [done|]. split; [done|]. split; [lia|by left]. }
  assert (Hpoll : ∀ s', halted s' = true → ∃ s'', sp_poll s' = (true, s'') ∧ later s' s'' ∧ halted s'' = true).
  { intros s' Hh. destruct (sp_poll_spec s') as (s'' & E & L). pose proof (proj1 (proj2 L) Hh) as Hh'. exists s''. by rewrite E, Hh'. }
  destruct (halted stop) eqn:Eh.
  { rewrite sp_triples_halted by done. destruct (Hpoll stop Eh) as (s' & -> & L & Hh). cbn [orb]. by apply Hstop. }
  destruct Hinv as [|[Hic Hd]]; [done|].
  destruct (sp_triples_spec g None None None (rules_of (closeTransitive e)) st stop (MkPass d []) Hs Eh)
    as [(l & s1 & Hl & _ & L1 & E1 & ->)|(s1 & L1 & E1 & ->)].
  2:{ destruct (Hpoll s1 E1) as (s' & -> & L & Hh). cbn [orb]. apply Hstop; [by etrans|done]. }
  rewrite matching_all in Hl.
  destruct (rules_ok D d (closeTransitive e) l s1 (MkPass d [])) as (s2 & a & -> & L2 & (P1 & P2 & P3) & _ & Hdone).
  { intros t Ht. eapply pass_index; [done|done| |exact Ht]. intros u. by rewrite Hl. }
  { split_and!; cbn; [set_solver|constructor|by intros t ?%not_elem_of_nil]. }
  destruct (sp_poll_spec s2) as (s3 & -> & L3).
  destruct (halted s3) eqn:E3; cbn [orb].
  { apply Hstop; [by do 2 (etrans; [eassumption|])|done]. }
  destruct Hdone as [Hh2|Hdone]; [by rewrite (proj1 (proj2 L3) Hh2) in E3|].
  assert (L13 : later stop s3) by (by do 2 (etrans; [eassumption|])).
  case_bool_decide as Enew.
  { split; [done|]. split; [done|]. split; [done|]. split; [done|]. split; [done|]. split; [lia|]. right. exists e. split; [done|]. split; [done|].
    intros t Ht r Hr. rewrite <- Hl in Ht. specialize (Hdone t Ht r Hr). rewrite P1, Enew in Hdone. apply Hd. set_solver. }
  destruct (add_pass_ok is_schema (newTriples a) 0 false s3 st Hs E3 P2) as (r & s4 & st4 & l1 & l2 & -> & Hsplit & L4 & Hs4 & Hm4 & Hsz4 & Hr).
  { intros t u Ht Hu He'. apply (P3 t Ht), Hd. by exists u. }
  assert (HD4 : ∀ t, has st4 t → D t).
  { intros t [Ht|Ht]%Hm4; [by apply HD|]. apply P3. rewrite Hsplit. set_solver. }
  assert (L14 : later stop s4) by (by etrans).
  destruct Hr as [[E4 Hr]|(E4 & -> & ->)].
  { destruct r as [[i|] sch]; cbn in Hr; [|done]. injection Hr as ->. split; [done|]. split; [done|]. split; [done|].
    split; [intros t Ht; apply Hm4; by left|]. split; [lia|]. split; [|by left]. rewrite Hsz4. lia. }
  rewrite app_nil_r in Hsplit. subst l1. cbn [orb].
  assert (Hpos : 1 ≤ length (newTriples a)) by (destruct (newTriples a); [done|cbn; lia]).
  assert (Hd4 : ded_ok (ded a) st4).
  { intros k. rewrite P1, elem_of_union, elem_of_list_to_set, list_elem_of_fmap, (Hd k). setoid_rewrite Hm4. naive_solver. }
  pose proof (D_bound st4 Hs4 HD4) as Hb4.
  assert (Hnext : ∀ e' s5, later s4 s5 → index_sound D e' → (halted s5 = true ∨ index_complete (graph_triples (graph_of st4 g)) e') →
    loop_result total stop st (rdfs_loop fuel g (closeTransitive e') (ded a) (total + Z.of_nat (length (newTriples a))) s5 st4)).
  { intros e' s5 L5 He' Hc'.
    assert (HI : loop_result (total + Z.of_nat (length (newTriples a)))%Z s5 st4
      (rdfs_loop fuel g (closeTransitive e') (ded a) (total + Z.of_nat (length (newTriples a))) s5 st4)).
    { apply IH; [done|done|done| |lia]. destruct Hc' as [|Hc']; [by left|right]. by split. }
    destruct (rdfs_loop _ _ _ _ _ _ _) as [[n s6] st6]. destruct HI as (I1 & I2 & I3 & I4 & I5 & I6 & I7).
    split; [by do 2 (etrans; [eassumption|])|]. split; [done|]. split; [done|]. split; [intros t Ht; apply I4, Hm4; by left|].
    split; [lia|]. split; [lia|done]. }
  destruct (existsb is_schema (newTriples a)) eqn:Esch.
  - destruct (build_ok D (D_triple_wf G G_wf) g st4 s4 Hs4 HD4) as (s5 & e' & -> & L5 & He' & Hc'). by apply Hnext.
  - apply Hnext; [reflexivity|done|]. right. eapply index_complete_more; [exact Hic|exact Hm4|exact Esch].
Qed.

(** ** Completeness *)

Lemma derives_bar_free t : (∀ t, G t → bar_free t) → D t → bar_free t.
Proof.
  intros HG Ht. assert (HT : travels (λ _, True) (λ x, has_byte "|" (TermKey x) = false) t).
  { eapply derives_travels; [done|by vm_compute| |exact Ht]. intros u Hu. destruct (HG u Hu) as (? & ? & ?). by split_and!. }
  destruct HT as (_ & ? & _ & ? & _ & ?). by split_and!.
Qed.

Lemma ded_key_inj t u : D t → D u → bar_free t → bar_free u → ded_key t = ded_key u → t = u.
Proof using G_wf. intros Ht Hu. apply ded_key_wf_inj; by apply (D_triple_wf G G_wf). Qed.

Lemma saturated_complete st :
  (∀ t, G t → bar_free t) → (∀ t, has st t → D t) → (∀ t, G t → has st t) → saturated st → ∀ t, D t → has st t.
Proof using G_wf.
  intros Hbar HD HG (e & (_ & _ & S3 & S4) & (C1 & C2 & C3 & C4) & Hsat).
  assert (Hres : ∀ t r, has st t → r ∈ rule_results (closeTransitive e) t → D r → has st r).
  { intros t r Ht Hr HDr. destruct (Hsat t Ht r Hr) as (u & Hu & Hk).
    rewrite (ded_key_inj r u); auto using derives_bar_free. }
  induction 1 as [t Ht|s p o c H1 IH1 Hc H2 IH2|s p o c H1 IH1 Hc H2 IH2 Ho|s p o q H1 IH1 H2 IH2|s c1 c2 H1 IH1 Hc H2 IH2]; [by apply HG|..].
  - apply (Hres (MkTriple s p o)); [done| |by eapply rdfs2]. unfold rule_results, closeTransitive. cbn [domains Subject Predicate Object].
    rewrite !elem_of_app. left. apply list_elem_of_fmap. exists c. split; [done|]. by apply (C1 (TURIRef p)).
  - apply (Hres (MkTriple s p o)); [done| |by eapply rdfs3]. unfold rule_results, closeTransitive. cbn [ranges Subject Predicate Object].
    rewrite !elem_of_app. right. left. unfold asSubject. rewrite Ho. apply list_elem_of_fmap. exists c. split; [done|]. by apply (C2 (TURIRef p)).
  - apply (Hres (MkTriple s p o)); [done| |by eapply rdfs7]. unfold rule_results, closeTransitive. cbn [subPropOf Subject Predicate Object].
    rewrite !elem_of_app. right. right. left. apply list_elem_of_fmap. exists q. split; [done|].
    assert (Hq : uri_key q ∈ uri_key <$> entries (transitiveClose uri_key (subPropOf e)) (uri_key p)).
    { apply transitiveClose_spec. exists (uri_key p). split; [reflexivity|]. by apply (C4 (TURIRef p)). }
    apply list_elem_of_fmap in Hq as (q' & Hk & Hq'). assert (q = q') as ->; [|done].
    destruct (proj1 (transitiveClose_spec uri_key (subPropOf e) (uri_key p)) q' Hq') as (k & _ & Hin).
    destruct (S4 _ _ Hin) as (x & _ & Hx). apply D_triple_wf in Hx as (_ & _ & _ & Hx), H1 as (_ & _ & _ & H1); [|done|done].
    by apply uri_key_inj.
  - apply (Hres (MkTriple s RDF_Type c1)); [done| |by eapply rdfs9]. unfold rule_results, closeTransitive. cbn [subClassOf Subject Predicate Object].
    rewrite !elem_of_app. right. right. right. rewrite bool_decide_eq_true_2 by done. apply list_elem_of_fmap. exists c2. split; [done|].
    assert (Hq : TermKey c2 ∈ TermKey <$> entries (transitiveClose TermKey (subClassOf e)) (TermKey c1)).
    { apply transitiveClose_spec. exists (TermKey c1). split; [reflexivity|]. by apply C3. }
    apply list_elem_of_fmap in Hq as (c' & Hk & Hc'). assert (c2 = c') as ->; [|done].
    destruct (proj1 (transitiveClose_spec TermKey (subClassOf e) (TermKey c1)) c' Hc') as (k & _ & Hin).
    destruct (S3 _ _ Hin) as (_ & x & _ & Hx). apply D_triple_wf in Hx as (_ & _ & _ & Hx), H1 as (_ & _ & _ & H1); [|done|done].
    by apply TermKey_inj.
Qed.
End loop.

(** ** The bound on the passes *)

Section bound.
Context {St : Type} `{StoreLaws St}.

(** The keys of the terms of some triples, and of [rdf:type]. *)
Definition key_universe (l : list Triple) : list string :=
  uri_key RDF_Type :: mjoin ((λ t, [TermKey (Subject t); uri_key (Predicate t); TermKey (Object t)]) <$> l).

Lemma key_universe_length l : length (key_universe l) = 3 * length l + 1.
Proof.
  unfold key_universe. cbn [length]. set (f := λ t, _). assert (length (mjoin (f <$> l)) = 3 * length l) as ->; [|lia].
  induction l as [|t l IH]; [done|]. rewrite fmap_cons. change (mjoin (f t :: (f <$> l))) with (f t ++ mjoin (f <$> l)). rewrite length_app, IH. unfold f. cbn [length]. lia.
Qed.

Lemma key_universe_elem l t k : t ∈ l → k ∈ [TermKey (Subject t); uri_key (Predicate t); TermKey (Object t)] → k ∈ key_universe l.
Proof. intros Ht Hk. apply elem_of_cons. right. apply list_elem_of_join. eexists. split; [exact Hk|]. apply list_elem_of_fmap. by exists t. Qed.

Lemma keyed_size (m : gmap tkey_t Triple) (U : list string) :
  keyed m → (∀ t, t ∈ graph_triples m → TermKey (Subject t) ∈ U ∧ uri_key (Predicate t) ∈ U ∧ TermKey (Object t) ∈ U) →
  size m ≤ length U * length U * length U.
Proof.
  intros Hk HU. rewrite <- length_map_to_list, <- (length_fmap fst).
  rewrite <- (List.length_prod U U), <- (List.length_prod (List.list_prod U U) U).
  apply submseteq_length, NoDup_submseteq; [apply NoDup_fst_map_to_list|].
  intros [[k1 k2] k3] ([k t] & -> & Hin%elem_of_map_to_list)%list_elem_of_fmap. cbn [fst].
  assert (Ht : t ∈ graph_triples m) by (apply graph_triples_elem; [done|]; by rewrite (Hk _ _ Hin)).
  apply HU in Ht as (H1 & H2 & H3). rewrite <- (Hk _ _ Hin) in *. unfold tkey.
  apply list_elem_of_In, List.in_prod; [apply List.in_prod|]; by apply list_elem_of_In.
Qed.

Lemma derivable_bound g (st0 st : St) :
  sinv st0 → sinv st →
  (∀ t, t ∈ graph_triples (graph_of st g) → rdfs_derives (λ t, t ∈ graph_triples (graph_of st0 g)) t) →
  size (graph_of st g) ≤ pred (pred (rdfs_fuel g st0)).
Proof.
  intros Hs0 Hs HD. unfold rdfs_fuel. cbn [pred]. destruct (g_triples_ok st0 g None None None Hs0) as (l & -> & _ & Hl).
  rewrite matching_all in Hl. rewrite length_fmap, <- (key_universe_length l).
  apply keyed_size; [by apply graph_of_keyed|]. intros t Ht%HD.
  assert (HT : travels (λ x, TermKey x ∈ key_universe l) (λ _, True) t).
  { eapply derives_travels; [apply elem_of_cons; by left|done| |exact Ht]. intros u Hu. cbn beta in Hu. rewrite <- Hl in Hu.
    split_and!; try done; apply (key_universe_elem l u); set_solver. }
  destruct HT as (? & _ & ? & _ & ? & _). by split_and!.
Qed.

Lemma fold_addNew l : ∀ d : dedupSet,
  foldl (λ d t, (addNew d (Subject t) (Predicate t) (Object t)).2) d l = d ∪ list_to_set (ded_key <$> l).
Proof.
  induction l as [|t l IH]; intros d; cbn [foldl fmap list_fmap list_to_set]; [set_solver|]. rewrite IH. unfold addNew, ded_key.
  case_bool_decide; cbn [snd]; set_solver.
Qed.

Lemma rdfs_run_ok g stop (st : St) :
  sinv st → graph_wf (graph_of st g) →
  loop_result g (λ t, t ∈ graph_triples (graph_of st g)) 0 stop st (rdfs_run g stop st).
Proof.
  intros Hs Hwf. set (G := λ t, t ∈ graph_triples (graph_of st g)).
  assert (G_wf : ∀ t, G t → triple_wf t) by (intros t; by apply graph_triple_wf).
  assert (G_D : ∀ t, G t → rdfs_derives G t) by (intros t; apply rdfs_given).
  unfold rdfs_run.
  destruct (sp_scan_spec g None None None (λ t d, (addNew d (Subject t) (Predicate t) (Object t)).2) st stop ∅ Hs)
    as (l & s1 & -> & L1 & _ & H1). rewrite fold_addNew.
  destruct (build_ok (rdfs_derives G) (D_triple_wf G G_wf) g st s1 Hs G_D) as (s2 & e & -> & L2 & He & Hc).
  assert (HR : loop_result g G 0 s2 st (rdfs_loop (rdfs_fuel g st) g (closeTransitive e) (∅ ∪ list_to_set (ded_key <$> l)) 0 s2 st)).
  { apply (loop_ok g G G_wf (pred (pred (rdfs_fuel g st)))); [|done|done|done| |].
    - intros st' Hs' HD'. by apply derivable_bound.
    - destruct (halted s2) eqn:E2; [by left|right]. destruct Hc as [|Hc]; [done|]. split; [done|].
      destruct H1 as [H1|H1]; [by rewrite (proj1 (proj2 L2) H1) in E2|]. rewrite matching_all in H1.
      intros k. rewrite elem_of_union, elem_of_list_to_set, list_elem_of_fmap. setoid_rewrite H1. set_solver.
    - unfold rdfs_fuel. cbn [pred]. lia. }
  destruct (rdfs_loop _ _ _ _ _ _ _) as [[n s3] st3]. destruct HR as (R1 & R2). split; [by do 2 (etrans; [eassumption|])|exact R2].
Qed.

Lemma newRDFSEngine_run_ok g stop (st : St) :
  sinv st → graph_wf (graph_of st g) →
  loop_result g (λ t, t ∈ graph_triples (graph_of st g)) 0 stop st (newRDFSEngine_run g stop st).
Proof.
  intros Hs Hwf. unfold newRDFSEngine_run. pose proof (sp_length_spec g st stop Hs) as L. destruct (sp_length g st stop) as [z s1].
  pose proof (rdfs_run_ok g s1 st Hs Hwf) as HR. destruct (rdfs_run g s1 st) as [[n s2] st2]. destruct HR as (R1 & R2).
  split; [by etrans|exact R2].
Qed.
End bound.

(** ** The properties *)

Section properties.
Context {St : Type} `{StoreLaws St}.

(** C3: [RDFSClosure] over a store of any kind ends without an error and leaves the
    graph with exactly the triples derivable from it by rdfs2, rdfs3, rdfs7 and
    rdfs9, and reports how many it added.  Keys of triples are joined with a
    vertical bar, which no IRI contains. *)
Theorem rdfs_closure_correct : ∀ (st : St) g,
  sinv st → graph_wf (graph_of st g) → (∀ t, t ∈ graph_triples (graph_of st g) → bar_free t) →
  ∃ n st', RDFSClosure background g st = (n, None, st') ∧ sinv st' ∧
    (∀ t, t ∈ graph_triples (graph_of st' g) ↔ rdfs_derives (λ t, t ∈ graph_triples (graph_of st g)) t) ∧
    n = (Z.of_nat (size (graph_of st' g)) - Z.of_nat (size (graph_of st g)))%Z.
Proof.
  intros st g Hs Hwf Hbar. unfold RDFSClosure. pose proof (newRDFSEngine_run_ok g (newStopper background) st Hs Hwf) as HR.
  destruct (newRDFSEngine_run g (newStopper background) st) as [[n s'] st']. destruct HR as ((Hc & _ & Hb) & Hs' & HD & HG & _ & Hn & Hsat).
  assert (Hh : halted s' = false).
  { destruct (halted s') eqn:E; [|done]. by specialize (Hb eq_refl eq_refl). }
  destruct Hsat as [|Hsat]; [congruence|]. exists n, st'. split.
  { unfold halted in Hh. unfold failure. by destruct (sp_err s'). }
  split; [done|]. split; [|rewrite Hn; lia]. intros t. split; [apply HD|].
  eapply saturated_complete; [|exact Hbar|exact HD|exact HG|exact Hsat]. intros u. by apply graph_triple_wf.
Qed.

(** C39: cut short at any point by its context, in a poll or in a call of the store,
    the closure has lost nothing, has added derivable triples only and reports
    how many are there; without an error the run was completed. *)
Theorem rdfs_closure_sound_when_stopped : ∀ ctx (st : St) g n err st',
  sinv st → graph_wf (graph_of st g) → RDFSClosure ctx g st = (n, err, st') →
  sinv st' ∧ (∀ t, t ∈ graph_triples (graph_of st g) → t ∈ graph_triples (graph_of st' g)) ∧
  (∀ t, t ∈ graph_triples (graph_of st' g) → rdfs_derives (λ t, t ∈ graph_triples (graph_of st g)) t) ∧
  n = (Z.of_nat (size (graph_of st' g)) - Z.of_nat (size (graph_of st g)))%Z ∧
  (err = None → (∀ t, t ∈ graph_triples (graph_of st g) → bar_free t) →
   ∀ t, rdfs_derives (λ t, t ∈ graph_triples (graph_of st g)) t → t ∈ graph_triples (graph_of st' g)).
Proof.
  intros ctx st g n err st' Hs Hwf. unfold RDFSClosure. pose proof (newRDFSEngine_run_ok g (newStopper ctx) st Hs Hwf) as HR.
  destruct (newRDFSEngine_run g (newStopper ctx) st) as [[n0 s'] st0]. intros E. injection E as <- <- <-.
  destruct HR as (_ & Hs' & HD & HG & _ & Hn & Hsat). split; [done|]. split; [done|]. split; [done|]. split; [rewrite Hn; lia|].
  intros Herr Hbar. destruct Hsat as [Hh|Hsat]; [unfold halted in Hh; unfold failure in Herr; by rewrite Herr in Hh|].
  eapply saturated_complete; [|exact Hbar|exact HD|exact HG|exact Hsat]. intros u. by apply graph_triple_wf.
Qed.
End properties.

(** the closed index of a relation lists exactly what its paths reach, once each,
    up to the keys of terms; it is computed on any relation, cyclic ones too. *)
Theorem transitiveClose_is_transitive_closure : ∀ {T} (key : T → string) (m : gmap string (list T)) k k',
  (k' ∈ key <$> entries (transitiveClose key m) k ↔ tc (above_of key m) k k') ∧
  NoDup (key <$> entries (transitiveClose key m) k).
Proof.
  intros T key m k k'. destruct (transitiveClose_spec key m k) as (H1 & H2 & H3). split; [|done]. split.
  - intros (c & -> & Hc)%list_elem_of_fmap. apply H1 in Hc as (k1 & Hk1 & Hin). apply tc_rtc_l with k1; [done|].
    apply tc_once. by exists c.
  - intros Ht. assert (Hr : ∃ c, reachable key m k c ∧ key c = k').
    { clear H1 H2 H3. induction Ht as [x y Hxy|x y z Hxy _ IH].
      - destruct Hxy as (c & Hc & Hk). exists c. split; [|done]. exists x. by split.
      - destruct IH as (c & (k1 & Hk1 & Hin) & Hk). exists c. split; [|done]. exists k1. split; [|done]. eapply rtc_l; [exact Hxy|exact Hk1]. }
    destruct Hr as (c & Hc & <-). by apply H2.
Qed.

(** ** Concrete inputs *)

#[local] Instance rdfs_range_instance : GoRange | 100 := sorted_range.

Definition ex_class (n : string) : Term := TURIRef (ex_iri n).
Definition ex_schema : list Triple :=
  [MkTriple (ex_class "A") RDFS_SubClassOf (ex_class "B");
   MkTriple (ex_class "B") RDFS_SubClassOf (ex_class "C")].
Definition ex_instances : list Triple := MkTriple (ex_class "x") RDF_Type (ex_class "A") :: ex_schema.

Definition ops_of (l : list Triple) : list ds_op := (λ t, DsAdd t ex_graph) <$> l.
Definition ex_rdfs (l : list Triple) : MemoryStore := store_run NewMemoryStore (ops_of l).

Lemma ex_rdfs_ok l : ms_ok (ex_rdfs l).
Proof. apply (ms_run_ok (ops_of l)). Qed.

Lemma ex_rdfs_all (P : Triple → Prop) l : Forall P l → graph_all P (graph_of (ex_rdfs l) ex_node).
Proof.
  intros HP. unfold graph_of. change (sabs (ex_rdfs l)) with (ms_abs (store_run NewMemoryStore (ops_of l))).
  rewrite (proj2 (ms_run_ok (ops_of l))). apply ds_run_all.
  intros o (t & -> & Ht)%list_elem_of_fmap u ->%list_elem_of_singleton. by eapply Forall_forall in HP.
Qed.

Lemma ex_instances_ok : Forall (λ t, triple_wf t ∧ bar_free t) ex_instances.
Proof. repeat constructor; try (by eexists); by vm_compute. Qed.

Lemma ex_rdfs_wf : graph_wf (graph_of (ex_rdfs ex_instances) ex_node).
Proof. apply ex_rdfs_all. eapply Forall_impl; [exact ex_instances_ok|]. by intros t [? _]. Qed.

Lemma ex_rdfs_bar : ∀ t, t ∈ graph_triples (graph_of (ex_rdfs ex_instances) ex_node) → bar_free t.
Proof.
  intros t Ht. assert (Ha : graph_all bar_free (graph_of (ex_rdfs ex_instances) ex_node)).
  { apply ex_rdfs_all. eapply Forall_impl; [exact ex_instances_ok|]. by intros u [_ ?]. }
  destruct Ha as [Hk Ha]. apply (Ha (tkey t)). by apply graph_triples_elem.
Qed.

Lemma rdfs_closure_correct_witness :
  ∃ n st', RDFSClosure background ex_node (ex_rdfs ex_instances) = (n, None, st') ∧ ms_ok st' ∧
    (∀ t, t ∈ graph_triples (graph_of st' ex_node) ↔
          rdfs_derives (λ t, t ∈ graph_triples (graph_of (ex_rdfs ex_instances) ex_node)) t) ∧
    n = (Z.of_nat (size (graph_of st' ex_node)) - Z.of_nat (size (graph_of (ex_rdfs ex_instances) ex_node)))%Z.
Proof. exact (rdfs_closure_correct (St := MemoryStore) _ ex_node (ex_rdfs_ok _) ex_rdfs_wf ex_rdfs_bar). Defined.

(** A context that is done from the fourth look on. *)
Definition ex_ctx (i : nat) : option error := if i <? 3 then None else Some (Sentinel "context canceled").

Lemma rdfs_closure_sound_when_stopped_witness :
  let '(n, err, st') := RDFSClosure ex_ctx ex_node (ex_rdfs ex_instances) in
  ms_ok st' ∧
  (∀ t, t ∈ graph_triples (graph_of st' ex_node) → rdfs_derives (λ t, t ∈ graph_triples (graph_of (ex_rdfs ex_instances) ex_node)) t).
Proof.
  destruct (RDFSClosure ex_ctx ex_node (ex_rdfs ex_instances)) as [[n err] st'] eqn:E.
  pose proof (rdfs_closure_sound_when_stopped (St := MemoryStore) ex_ctx _ ex_node n err st' (ex_rdfs_ok _) ex_rdfs_wf E) as (H1 & _ & H2 & _).
  split; [exact H1|exact H2].
Defined.

(** rdfs11 is applied to types only: nothing is added to a graph whose subclass
    axioms imply another one. *)
Lemma rdfs11_is_not_materialised :
  (RDFSClosure background ex_node (ex_rdfs ex_schema)).1 = (0%Z, None) ∧
  (RDFSClosure background ex_node (ex_rdfs ex_instances)).1 = (2%Z, None).
Proof. split; by vm_compute. Qed.
