(* ===== verification/Paths.v ===== *)
(** * Property paths

    Package [paths] (paths.go, reachability.go, reach_cache.go, cancel.go): the
    evaluation of SPARQL property paths over a graph.  A push iterator is a
    function that gives pairs to [yield] until it returns false; the traversal's
    stopper and the consumer's captured variables [X] are threaded through. *)

From S2P Require Import Prelude GoStrings Strconv Term TermKey TripleIndex Store MemoryStore Reachability Graph.
From stdpp Require Import options.

(** ** Paths *)

Inductive Path :=
| InvPath (Arg : Path)
| SequencePath (Args : list Path)
| AlternativePath (Args : list Path)
| MulPath (p : Path) (Zero More : bool)
| NegatedPath (Excluded : list URIRef)
| URIRefPath (URI : URIRef).

Definition Inv (p : Path) : Path := InvPath p.
Definition Sequence (paths : list Path) : Path := SequencePath paths.
Definition Alternative (paths : list Path) : Path := AlternativePath paths.
Definition ZeroOrMore (p : Path) : Path := MulPath p true true.
Definition OneOrMore (p : Path) : Path := MulPath p false true.
Definition ZeroOrOne (p : Path) : Path := MulPath p true false.
Definition Negated_ (excluded : list URIRef) : Path := NegatedPath excluded.
Definition AsPath (u : URIRef) : Path := URIRefPath u.
Definition Slash (u : URIRef) (other : Path) : Path := Sequence [AsPath u; other].
Definition Or (u : URIRef) (other : Path) : Path := Alternative [AsPath u; other].

(** The arguments with a separator between them. *)
Fixpoint joined (sep : string) (ss : list string) : string :=
  match ss with
  | [] => EmptyString
  | [s] => s
  | s :: ss => s +:+ sep +:+ joined sep ss
  end.

Fixpoint pathString (p : Path) : string :=
  match p with
  | InvPath a => "^(" +:+ pathString a +:+ ")"
  | SequencePath args => joined "/" (pathString <$> args)
  | AlternativePath args => joined "|" (pathString <$> args)
  | MulPath p zero more =>
      let mod_ := if zero && more then "*" else if negb zero && more then "+" else if zero && negb more then "?" else EmptyString in
      "(" +:+ pathString p +:+ ")" +:+ mod_
  | NegatedPath excluded => "!(" +:+ joined "|" (Term_N3 None ∘ TURIRef <$> excluded) +:+ ")"
  | URIRefPath u => Term_N3 None (TURIRef u)
  end.

(** ** The stopper and the cache of reachability answers *)

Definition path_stopCheckInterval : N := 1024.

(** [done] is nil for a context that is never done. *)
Record pstopper := MkPStop {
  ps_ctx : option (nat → option error);
  ps_seen : nat;
  ps_n : N;
  ps_err : option error;
  ps_reach : gmap string (list Term)
}.

Definition new_pstopper (ctx : option (nat → option error)) (cache : gmap string (list Term)) : pstopper := MkPStop ctx 0 0 None cache.

(** What the context reports now. *)
Definition look (s : pstopper) : option error * pstopper :=
  match ps_ctx s with
  | None => (None, s)
  | Some c => (c (ps_seen s), MkPStop (ps_ctx s) (S (ps_seen s)) (ps_n s) (ps_err s) (ps_reach s))
  end.

Definition with_err (e : option error) (s : pstopper) : pstopper := MkPStop (ps_ctx s) (ps_seen s) (ps_n s) e (ps_reach s).

Definition path_halted (s : pstopper) : bool := match ps_err s with Some _ => true | None => false end.

Definition path_poll (s : pstopper) : bool * pstopper :=
  match ps_err s with
  | Some _ => (true, s)
  | None =>
      match ps_ctx s with
      | None => (false, s)
      | Some _ => let '(e, s) := look s in let s := with_err e s in (path_halted s, s)
      end
  end.

Definition stop (s : pstopper) : bool * pstopper :=
  match ps_err s with
  | Some _ => (true, s)
  | None =>
      match ps_ctx s with
      | None => (false, s)
      | Some _ =>
          let n := ((ps_n s + 1) mod 2 ^ 32)%N in
          let s := MkPStop (ps_ctx s) (ps_seen s) n None (ps_reach s) in
          if negb (n mod path_stopCheckInterval =? 0)%N then (false, s) else path_poll s
      end
  end.

Definition path_fail (e : error) (s : pstopper) : pstopper :=
  match ps_err s with Some _ => s | None => with_err (Some e) s end.

(** [reachKey]. *)
Definition reachKey (q : ReachabilityQuery) : string :=
  OptTermKey (Start q) +:+ str1 nul +:+
  OptTermKey (rq_Context q) +:+ str1 nul +:+
  (if Inverse q then "i" else EmptyString) +:+ (if Negated q then "n" else EmptyString) +:+ str1 nul +:+
  FormatInt (MaxDepth q) +:+
  foldr (λ p acc, str1 nul +:+ URIRef_value p +:+ acc) EmptyString (Predicates q).

(** ** Flat paths *)

Record flatSpec := MkFlat { preds : list URIRef; inverse : bool; negated : bool }.

Fixpoint flatten (p : Path) : option flatSpec :=
  match p with
  | URIRefPath u => Some (MkFlat [u] false false)
  | InvPath a => inner ← flatten a; Some (MkFlat (preds inner) (negb (inverse inner)) (negated inner))
  | NegatedPath excluded => Some (MkFlat excluded false true)
  | AlternativePath [] => None
  | AlternativePath (arg :: args) =>
      alt ← flatten arg;
      if negated alt then None
      else (fix go (args : list Path) (out : flatSpec) : option flatSpec :=
              match args with
              | [] => Some out
              | arg :: args =>
                  alt ← flatten arg;
                  if negated alt then None
                  else if negb (Bool.eqb (inverse alt) (inverse out)) then None
                  else go args (MkFlat (preds out ++ preds alt) (inverse out) false)
              end) args (MkFlat (preds alt) (inverse alt) false)
  | _ => None
  end.

(** ** Evaluation *)

(** A consumer of pairs. *)
Definition PairYield (X : Type) : Type := Term → Term → pstopper → X → bool * pstopper * X.
(** The iterator a path is evaluated to. *)
Definition Pairs : Type := ∀ X : Type, PairYield X → pstopper → X → pstopper * X.

Definition path_subject (t : Term) : option Term := if isSubject t then Some t else None.

(** [TermKey(t) == TermKey(obj)], when [obj] is bound. *)
Definition matches_obj (obj : option Term) (o : Term) : bool :=
  match obj with None => true | Some obj => bool_decide (TermKey o = TermKey obj) end.

Section eval.
Context {St : Type} `{Store St} `{GoRange}.
(** [store.ReachabilityStore], which a backend may implement. *)
Context (reach : option (Context → ReachabilityQuery → St → result (list Term))).
Context (g : Graph_) (st : St).

(** [stopper.triples]. *)
Fixpoint path_triples_go {X} (yield : Triple → pstopper → X → bool * pstopper * X) (seq : TripleIterator) (s : pstopper) (x : X)
    : pstopper * X :=
  match seq with
  | [] => (s, x)
  | Err e :: _ => (path_fail e s, x)
  | Ok t :: seq =>
      match stop s with
      | (true, s) => (s, x)
      | (false, s) =>
          let '(continue, s, x) := yield t s x in
          if continue then path_triples_go yield seq s x else (s, x)
      end
  end.
Definition path_triples {X} (sub : option Term) (p : option URIRef) (obj : option Term)
    (yield : Triple → pstopper → X → bool * pstopper * X) (s : pstopper) (x : X) : pstopper * X :=
  let '(ctx, s) := look s in path_triples_go yield (g_Triples ctx g sub p obj st) s x.

(** [reachCache.reachable]. *)
Definition cached_reachable (f : Context → ReachabilityQuery → St → result (list Term)) (q : ReachabilityQuery) (s : pstopper)
    : result (list Term) * pstopper :=
  let k := reachKey q in
  match ps_reach s !! k with
  | Some r => (Ok r, s)
  | None =>
      let '(ctx, s) := look s in
      match f ctx q st with
      | Err e => (Err e, s)
      | Ok r => (Ok r, MkPStop (ps_ctx s) (ps_seen s) (ps_n s) (ps_err s) (<[k := r]> (ps_reach s)))
      end
  end.

(** An inner iterator whose consumer says whether the outer loop goes on: the
    variable [cont]. *)
Definition continuing {X} (yield : PairYield X) : PairYield (X * bool) := λ s o ps '(x, cont),
  let '(c, ps, x) := yield s o ps x in if c then (true, ps, (x, cont)) else (false, ps, (x, false)).

(** A loop that ends when its body says so. *)
Fixpoint until_false {A X} (body : A → pstopper → X → bool * pstopper * X) (l : list A) (ps : pstopper) (x : X)
    : bool * pstopper * X :=
  match l with
  | [] => (true, ps, x)
  | a :: l => let '(c, ps, x) := body a ps x in if c then until_false body l ps x else (false, ps, x)
  end.

(** [MulPath.eval]'s [emit] and its variable [done]. *)
Definition emit_pair {X} (yield : PairYield X) : PairYield (X * gset string) := λ s o ps '(x, done),
  match stop ps with
  | (true, ps) => (false, ps, (x, done))
  | (false, ps) =>
      let k := TermKey s +:+ "|" +:+ TermKey o in
      if bool_decide (k ∈ done) then (true, ps, (x, done))
      else let '(c, ps, x) := yield s o ps x in (c, ps, (x, {[k]} ∪ done))
  end.

Section mul.
(** The evaluation of the repeated path. *)
Context (ev : option Term → option Term → Pairs) (More : bool).

Fixpoint fwdFrom (fuel : nat) {X} (emit : PairYield X) (origin : Term) (node : Term) (obj : option Term)
    (ps : pstopper) (xs : X * gset string) : bool * pstopper * (X * gset string) :=
  match fuel with
  | O => (true, ps, xs)
  | S fuel =>
      let k := TermKey node in
      let '(x, seen) := xs in
      if bool_decide (k ∈ seen) then (true, ps, (x, seen))
      else
        let '(ps, (xs, cont)) := ev (Some node) None _ (λ _ o ps '((x, seen), cont),
          match stop ps with
          | (true, ps) => (false, ps, ((x, seen), false))
          | (false, ps) =>
              let '(c, ps, x) := if matches_obj obj o then emit origin o ps x else (true, ps, x) in
              if negb c then (false, ps, ((x, seen), false))
              else if More then
                match path_subject o with
                | Some next =>
                    let '(c, ps, xs) := fwdFrom fuel emit origin next obj ps (x, seen) in
                    if c then (true, ps, (xs, cont)) else (false, ps, (xs, false))
                | None => (true, ps, ((x, seen), cont))
                end
              else (true, ps, ((x, seen), cont))
          end) ps ((x, {[k]} ∪ seen), true) in
        (cont && negb (path_halted ps), ps, xs)
  end.

Fixpoint bwdTo (fuel : nat) {X} (emit : PairYield X) (node : Term) (target : Term)
    (ps : pstopper) (xs : X * gset string) : bool * pstopper * (X * gset string) :=
  match fuel with
  | O => (true, ps, xs)
  | S fuel =>
      let k := TermKey node in
      let '(x, seen) := xs in
      if bool_decide (k ∈ seen) then (true, ps, (x, seen))
      else
        let '(ps, (xs, cont)) := ev None (Some node) _ (λ s _ ps '((x, seen), cont),
          let '(c, ps, x) := emit s target ps x in
          if negb c then (false, ps, ((x, seen), false))
          else if More then
            let '(c, ps, xs) := bwdTo fuel emit s target ps (x, seen) in
            if c then (true, ps, (xs, cont)) else (false, ps, (xs, false))
          else (true, ps, ((x, seen), cont))) ps ((x, {[k]} ∪ seen), true) in
        (cont && negb (path_halted ps), ps, xs)
  end.
End mul.

(** The nodes of a traversal are its start and terms of the graph. *)
Definition path_fuel : nat := S (S (2 * length (g_Triples None g None None None st))).

(** [evalViaStore]: whether it handled the evaluation. *)
Definition evalViaStore (p : Path) (More : bool) (subj obj : option Term) {X} (emit : PairYield X) (ps : pstopper) (x : X)
    : bool * pstopper * X :=
  if negb More then (false, ps, x)
  else match reach, flatten p with
  | Some f, Some spec =>
      let ask (start : Term) (inv : bool) (body : Term → pstopper → X → bool * pstopper * X) :=
        let '(r, ps) := cached_reachable f (MkQuery (Some start) (preds spec) (negated spec) inv 0 (identifier g)) ps in
        match r with
        | Err _ => (false, ps, x)
        | Ok reached => let '(_, ps, x) := until_false body reached ps x in (true, ps, x)
        end in
      match subj, obj with
      | Some s, _ => ask s (inverse spec) (λ n ps x, if matches_obj obj n then emit s n ps x else (true, ps, x))
      | None, Some o => ask o (negb (inverse spec)) (λ n ps x, emit n o ps x)
      | None, None => (false, ps, x)
      end
  | _, _ => (false, ps, x)
  end.

(** [MulPath.eval]. *)
Definition eval_mul (ev : option Term → option Term → Pairs) (p : Path) (Zero More : bool) (subj obj : option Term) : Pairs :=
  λ X yield ps x,
  let emit := emit_pair yield in
  let finish (r : bool * pstopper * (X * gset string)) : pstopper * X := let '(_, ps, (x, _)) := r in (ps, x) in
  let via_store (ps : pstopper) (x : X * gset string)
      (local : pstopper → X * gset string → bool * pstopper * ((X * gset string) * gset string)) : pstopper * X :=
    let '(handled, ps, x) := evalViaStore p More subj obj emit ps x in
    if handled then (ps, x.1) else let '(_, ps, (x, _)) := local ps x in (ps, x.1) in
  match subj, obj with
  | Some s, _ =>
      let '(c, ps, x) := if Zero && matches_obj obj s then emit s s ps (x, ∅) else (true, ps, (x, ∅)) in
      if negb c then (ps, x.1)
      else via_store ps x (λ ps x, fwdFrom ev More path_fuel emit s s obj ps (x, ∅))
  | None, Some o =>
      let '(c, ps, x) := if Zero then emit o o ps (x, ∅) else (true, ps, (x, ∅)) in
      if negb c then (ps, x.1)
      else via_store ps x (λ ps x, bwdTo ev More path_fuel emit o o ps (x, ∅))
  | None, None =>
      let '(ctx, ps) := look ps in
      match AllNodes ctx g st with
      | Err e => (path_fail e ps, x)
      | Ok nodes =>
          let '(c, ps, x) := if Zero then until_false (λ n ps x, emit n n ps x) nodes ps (x, ∅) else (true, ps, (x, ∅)) in
          if negb c then (ps, x.1)
          else finish (until_false (λ n ps x,
            match stop ps with
            | (true, ps) => (false, ps, x)
            | (false, ps) =>
                match path_subject n with
                | Some s => let '(c, ps, (x, _)) := fwdFrom ev More path_fuel emit s s None ps (x, ∅) in (c, ps, x)
                | None => (true, ps, x)
                end
            end) nodes ps x)
      end
  end.

(** [NegatedPath.eval] and [URIRefPath.eval]. *)
Definition eval_negated (excluded : list URIRef) (subj obj : option Term) : Pairs := λ X yield ps x,
  let ex : gset string := list_to_set (uri_key <$> excluded) in
  path_triples subj None obj (λ t ps x,
    if negb (bool_decide (uri_key (Predicate t) ∈ ex)) then yield (Subject t) (Object t) ps x else (true, ps, x)) ps x.

Definition eval_uri (u : URIRef) (subj obj : option Term) : Pairs := λ X yield ps x,
  path_triples subj (Some u) obj (λ t ps x, yield (Subject t) (Object t) ps x) ps x.

Fixpoint eval (p : Path) (subj obj : option Term) {struct p} : Pairs :=
  match p with
  | InvPath a => λ X yield ps x,
      eval a (obj ≫= path_subject) subj X (λ s o ps x, yield o s ps x) ps x
  | SequencePath args =>
      (fix go (args : list Path) (subj : option Term) {struct args} : Pairs := λ X yield ps x,
         match args with
         | [] => (ps, x)
         | [a] => eval a subj obj X yield ps x
         | a :: rest =>
             eval a subj None X (λ s1 mid ps x,
               match stop ps with
               | (true, ps) => (false, ps, x)
               | (false, ps) =>
                   match path_subject mid with
                   | None => (true, ps, x)
                   | Some midSubj =>
                       let '(ps, (x, cont)) := go rest (Some midSubj) (X * bool)%type (continuing (λ _ o ps x, yield s1 o ps x)) ps (x, true) in
                       (cont && negb (path_halted ps), ps, x)
                   end
               end) ps x
         end) args subj
  | AlternativePath args =>
      (fix go (args : list Path) : Pairs := λ X yield ps x,
         match args with
         | [] => (ps, x)
         | alt :: args =>
             let '(ps, (x, cont)) := eval alt subj obj (X * bool)%type (continuing yield) ps (x, true) in
             if negb cont || path_halted ps then (ps, x) else go args X yield ps x
         end) args
  | MulPath p zero more => eval_mul (eval p) p zero more subj obj
  | NegatedPath excluded => eval_negated excluded subj obj
  | URIRefPath u => eval_uri u subj obj
  end.

(** [run]: the pairs, then the failure; [yield] gets a pair or an error. *)
Definition run_path (ctx : option (nat → option error)) (cache : gmap string (list Term)) (p : Path) (subj obj : option Term)
    {X} (yield : result TermPair → X → bool * X) (x : X) : X :=
  match path_poll (new_pstopper ctx cache) with
  | (true, ps) => match ps_err ps with Some e => (yield (Err e) x).2 | None => x end
  | (false, ps) =>
      let '(ps, (x, stopped)) := eval p subj obj (X * bool)%type
        (λ s o ps '(x, stopped), let '(c, x) := yield (Ok (MkPair s o)) x in if c then (true, ps, (x, stopped)) else (false, ps, (x, true)))
        ps (x, false) in
      match stopped, ps_err ps with
      | false, Some e => (yield (Err e) x).2
      | _, _ => x
      end
  end.
End eval.
