(* ===== verification/PathsCorrect.v ===== *)
(** * Property paths: evaluation is the path relation

    Push iterators with their mutable state are first reduced to lists of pairs;
    the lists are then compared with the relation SPARQL gives a path. *)

From S2P Require Import Prelude GoStrings Strconv Term TermKey TripleIndex Store MemoryStore Reachability Graph Paths.
From stdpp Require Import relations options.

(** ** Induction on paths *)

Section path_induction.
Context (P : Path → Prop).
Context (HInv : ∀ a, P a → P (InvPath a)) (HSeq : ∀ args, Forall P args → P (SequencePath args)).
Context (HAlt : ∀ args, Forall P args → P (AlternativePath args)) (HMul : ∀ p zero more, P p → P (MulPath p zero more)).
Context (HNeg : ∀ ex, P (NegatedPath ex)) (HURI : ∀ u, P (URIRefPath u)).

Fixpoint path_induction (p : Path) : P p.
Proof using HInv HSeq HAlt HMul HNeg HURI.
  destruct p as [a|args|args|p zero more|ex|u].
  - apply HInv, path_induction.
  - apply HSeq. induction args as [|a args IH]; constructor; [apply path_induction|exact IH].
  - apply HAlt. induction args as [|a args IH]; constructor; [apply path_induction|exact IH].
  - apply HMul, path_induction.
  - apply HNeg.
  - apply HURI.
Qed.
End path_induction.

(** The URIs of a path. *)
Fixpoint path_uris (p : Path) : list URIRef :=
  match p with
  | InvPath a => path_uris a
  | SequencePath args | AlternativePath args => mjoin (path_uris <$> args)
  | MulPath p _ _ => path_uris p
  | NegatedPath ex => ex
  | URIRefPath u => [u]
  end.

Lemma flatten_uris p : ∀ spec, flatten p = Some spec → preds spec ⊆ path_uris p.
Proof.
  induction p as [a IH|args IH|args IH|p z m IH|ex|u] using path_induction; intros spec E; cbn [flatten path_uris] in *.
  - destruct (flatten a) as [inner|]; [|done]. injection E as <-. exact (IH _ eq_refl).
  - done.
  - destruct IH as [|a args Ha Hargs]; [done|]. destruct (flatten a) as [alt|] eqn:Ea; [|done]. cbn in E.
    destruct (negated alt); [done|]. specialize (Ha _ eq_refl). cbn [fmap list_fmap mjoin list_join].
    assert (H0 : preds alt ⊆ path_uris a ++ mjoin (path_uris <$> args)) by set_solver. revert E H0.
    generalize (path_uris a) as us, (inverse alt) as inv. generalize (preds alt) as ps. clear a alt Ea Ha.
    induction Hargs as [|b args Hb Hargs IHargs]; intros ps us inv E H0; [by injection E as <-|].
    destruct (flatten b) as [alt|] eqn:Eb; [|done]. cbn in E. destruct (negated alt); [done|]. destruct (negb _); [done|].
    specialize (Hb _ eq_refl). cbn [fmap list_fmap mjoin list_join] in *. rewrite (assoc_L (++)). eapply IHargs; [exact E|].
    cbn [fmap list_fmap mjoin list_join] in *. set_solver.
  - done.
  - by injection E as <-.
  - by injection E as <-.
Qed.

(** ** The pairs of an evaluation, as a list *)

Definition pair_key (so : Term * Term) : string := TermKey so.1 +:+ "|" +:+ TermKey so.2.

Section lists.
Context {St : Type} `{Store St} `{GoRange}.
Context (reach : option (Context → ReachabilityQuery → St → result (list Term))).
Context (g : Graph_) (st : St).

Definition triples_list (sub : option Term) (p : option URIRef) (obj : option Term) : list Triple := oks (g_Triples None g sub p obj st).

Section mul_lists.
Context (ev : option Term → option Term → list (Term * Term)) (More : bool).

(** What a traversal forward from a node meets, and the nodes it has seen. *)
Fixpoint fwd_list (fuel : nat) (node : Term) (seen : gset string) : list Term * gset string :=
  match fuel with
  | O => ([], seen)
  | S fuel =>
      if bool_decide (TermKey node ∈ seen) then ([], seen)
      else foldl (λ acc so, let '(out, seen) := acc in
             match (if More then path_subject so.2 else None) with
             | Some next => let '(out', seen) := fwd_list fuel next seen in (out ++ so.2 :: out', seen)
             | None => (out ++ [so.2], seen)
             end) ([], {[TermKey node]} ∪ seen) (ev (Some node) None)
  end.

Fixpoint bwd_list (fuel : nat) (node : Term) (seen : gset string) : list Term * gset string :=
  match fuel with
  | O => ([], seen)
  | S fuel =>
      if bool_decide (TermKey node ∈ seen) then ([], seen)
      else foldl (λ acc so, let '(out, seen) := acc in
             if More then let '(out', seen) := bwd_list fuel so.1 seen in (out ++ so.1 :: out', seen)
             else (out ++ [so.1], seen)) ([], {[TermKey node]} ∪ seen) (ev None (Some node))
  end.
End mul_lists.

Definition store_query (spec : flatSpec) (start : Term) (inv : bool) : ReachabilityQuery :=
  MkQuery (Some start) (preds spec) (negated spec) inv 0 (identifier g).

(** What the backend answers for a repetition. *)
Definition store_pairs (p : Path) (More : bool) (subj obj : option Term) : option (list (Term * Term)) :=
  if negb More then None
  else match reach, flatten p with
  | Some f, Some spec =>
      match subj, obj with
      | Some s, _ =>
          match f None (store_query spec s (inverse spec)) st with
          | Ok r => Some ((λ n, (s, n)) <$> filter (λ n, matches_obj obj n = true) r)
          | Err _ => None
          end
      | None, Some o =>
          match f None (store_query spec o (negb (inverse spec))) st with
          | Ok r => Some ((λ n, (n, o)) <$> r)
          | Err _ => None
          end
      | None, None => None
      end
  | _, _ => None
  end.

Definition graph_nodes : list Term := match AllNodes None g st with Ok nodes => nodes | Err _ => [] end.

(** The pairs of a repetition before the duplicates are left out. *)
Definition mul_raw (ev : option Term → option Term → list (Term * Term)) (p : Path) (Zero More : bool) (subj obj : option Term)
    : list (Term * Term) :=
  match subj, obj with
  | Some s, _ =>
      (if Zero && matches_obj obj s then [(s, s)] else []) ++
      match store_pairs p More subj obj with
      | Some l => l
      | None => (λ o, (s, o)) <$> filter (λ o, matches_obj obj o = true) (fwd_list ev More (path_fuel g st) s ∅).1
      end
  | None, Some o =>
      (if Zero then [(o, o)] else []) ++
      match store_pairs p More subj obj with
      | Some l => l
      | None => (λ s, (s, o)) <$> (bwd_list ev More (path_fuel g st) o ∅).1
      end
  | None, None =>
      (if Zero then (λ n, (n, n)) <$> graph_nodes else []) ++
      mjoin ((λ n, match path_subject n with
                   | Some s => (λ o, (s, o)) <$> (fwd_list ev More (path_fuel g st) s ∅).1
                   | None => []
                   end) <$> graph_nodes)
  end.

Fixpoint eval_list (p : Path) (subj obj : option Term) {struct p} : list (Term * Term) :=
  match p with
  | InvPath a => (λ so, (so.2, so.1)) <$> eval_list a (obj ≫= path_subject) subj
  | SequencePath args =>
      (fix go (args : list Path) (subj : option Term) {struct args} : list (Term * Term) :=
         match args with
         | [] => []
         | [a] => eval_list a subj obj
         | a :: rest =>
             mjoin ((λ so, match path_subject so.2 with
                           | None => []
                           | Some mid => (λ so', (so.1, so'.2)) <$> go rest (Some mid)
                           end) <$> eval_list a subj None)
         end) args subj
  | AlternativePath args =>
      (fix go (args : list Path) : list (Term * Term) :=
         match args with [] => [] | alt :: args => eval_list alt subj obj ++ go args end) args
  | MulPath p zero more => first_by pair_key ∅ (mul_raw (eval_list p) p zero more subj obj)
  | NegatedPath excluded =>
      let ex : gset string := list_to_set (uri_key <$> excluded) in
      (λ t, (Subject t, Object t)) <$> filter (λ t, uri_key (Predicate t) ∉ ex) (triples_list subj None obj)
  | URIRefPath u => (λ t, (Subject t, Object t)) <$> triples_list subj (Some u) obj
  end.

(** The sequence, with its loop named. *)
Fixpoint seq_list (args : list Path) (subj obj : option Term) {struct args} : list (Term * Term) :=
  match args with
  | [] => []
  | [a] => eval_list a subj obj
  | a :: rest =>
      mjoin ((λ so, match path_subject so.2 with
                    | None => []
                    | Some mid => (λ so', (so.1, so'.2)) <$> seq_list rest (Some mid) obj
                    end) <$> eval_list a subj None)
  end.

Lemma eval_list_seq args subj obj : eval_list (SequencePath args) subj obj = seq_list args subj obj.
Proof.
  cbn [eval_list]. revert subj. induction args as [|a args IH]; intros subj; [done|]. cbn [seq_list].
  destruct args as [|a2 args]; [done|]. f_equal. apply list_fmap_ext. intros _ so _. destruct (path_subject so.2); [|done].
  f_equal. apply IH.
Qed.

Lemma eval_list_alt args subj obj : eval_list (AlternativePath args) subj obj = mjoin ((λ a, eval_list a subj obj) <$> args).
Proof. cbn [eval_list]. induction args as [|a args IH]; [done|]. cbn. by rewrite IH. Qed.
End lists.

(** ** Iterators and their lists *)

Section simulation.
Context {St : Type} {store_St : Store St} {laws_St : StoreLaws St} {range_St : GoRange}.
Context (reach : option (Context → ReachabilityQuery → St → result (list Term))).
Context (g : Graph_) (st : St) (Hst : sinv st).

(** Terms that a traversal meets: those of the graph. *)
Definition good (t : Term) : Prop :=
  term_wf t ∧ is_node (graph_of st g) (TermKey t) ∧ has_byte nul (TermKey t) = false ∧
  (isSubject t = true → has_byte "|" (TermKey t) = false).
Definition good_pair (so : Term * Term) : Prop := good so.1 ∧ good so.2.
Definition good_subject (t : option Term) : Prop := ∀ s, t = Some s → good s ∧ isSubject s = true.
Definition good_object (t : option Term) : Prop := ∀ o, t = Some o → good o.

Context (Hgraph : ∀ t, t ∈ graph_triples (graph_of st g) →
  good (Subject t) ∧ isSubject (Subject t) = true ∧ uri_ok (Predicate t) ∧ good (Object t)).

(** Queries of a traversal, which their keys identify. *)
Definition plain_uri (u : URIRef) : Prop := uri_ok u ∧ has_byte nul (URIRef_value u) = false.
Definition askable (q : ReachabilityQuery) : Prop :=
  (∃ t, Start q = Some t ∧ good t) ∧ Forall plain_uri (Predicates q) ∧ MaxDepth q = 0%Z ∧ rq_Context q = identifier g.

(** What the backend answers, when it answers: the transitive closure. *)
Context (Hreach : ∀ f q t, reach = Some f → askable q → Start q = Some t → ∀ r, f None q st = Ok r →
  Forall good r ∧ ∀ k, k ∈ TermKey <$> r ↔ tc (edge q (graph_of st g)) (TermKey t) k).

Definition cache_ok (c : gmap string (list Term)) : Prop :=
  ∀ f q r, reach = Some f → askable q → c !! reachKey q = Some r → f None q st = Ok r.

(** The stopper of a traversal nobody stops. *)
Definition ps_ok (ps : pstopper) : Prop := ps_ctx ps = None ∧ ps_err ps = None ∧ cache_ok (ps_reach ps).

Lemma ps_stop ps : ps_ok ps → stop ps = (false, ps).
Proof. intros (H1 & H2 & _). unfold stop. by rewrite H2, H1. Qed.
Lemma ps_look ps : ps_ok ps → look ps = (None, ps).
Proof. intros (H1 & _ & _). unfold look. by rewrite H1. Qed.
Lemma ps_halted ps : ps_ok ps → path_halted ps = false.
Proof. intros (_ & H2 & _). unfold path_halted. by rewrite H2. Qed.

(** A consumer with state [X] does what the pure consumer [y] does with its state:
    [R] relates the states while it goes on, [R'] when it has stopped. *)
Definition sim {X Z} (R R' : X → Z → Prop) (yield : PairYield X) (y : Term * Term → Z → bool * Z) : Prop :=
  ∀ so ps x z, good_pair so → ps_ok ps → R x z →
  ∃ ps' x', ps_ok ps' ∧ yield so.1 so.2 ps x = ((y so z).1, ps', x') ∧
    (if (y so z).1 then R x' (y so z).2 else R' x' (y so z).2).

(** An iterator gives the pairs of a list to its consumer. *)
Definition yields (it : Pairs) (l : list (Term * Term)) : Prop :=
  ∀ X Z (R R' : X → Z → Prop) yield y ps x z, sim R R' yield y → ps_ok ps → R x z →
  ∃ ps' x', ps_ok ps' ∧ it X yield ps x = (ps', x') ∧
    (if (drive l y z).1 then R x' (drive l y z).2 else R' x' (drive l y z).2).

Lemma triples_yields sub p obj (keep : Triple → bool) :
  good_subject sub → good_object obj →
  let l := triples_list g st sub p obj in
  Forall good_pair ((λ t, (Subject t, Object t)) <$> l) ∧
  yields (λ X yield ps x, path_triples g st sub p obj (λ t ps x, if keep t then yield (Subject t) (Object t) ps x else (true, ps, x)) ps x)
    ((λ t, (Subject t, Object t)) <$> filter (λ t, keep t = true) l).
Proof using Hst Hgraph Hreach.
  intros Hsub Hobj l. destruct (g_triples_ok st g sub p obj Hst) as (l0 & El & _ & Hl).
  assert (l = l0) as Hl0 by (unfold l, triples_list; by rewrite El, oks_fmap).
  assert (Hgood : ∀ t, t ∈ l0 → good (Subject t) ∧ good (Object t)).
  { intros t Ht. rewrite Hl in Ht. apply matching_elem in Ht as [Ht _]; [|by apply graph_of_keyed]. by apply Hgraph in Ht as (? & _ & _ & ?). }
  rewrite Hl0. split.
  { apply Forall_fmap, Forall_forall. intros t Ht. by apply Hgood. }
  intros X Z R R' yield y ps x z Hy Hps HR. unfold path_triples. rewrite ps_look by done. rewrite El. clear El Hl Hl0 l.
  revert ps x z Hps HR Hgood. induction l0 as [|t l0 IH]; intros ps x z Hps HR Hgood; [by exists ps, x|].
  cbn [fmap list_fmap path_triples_go]. rewrite ps_stop by done. rewrite filter_cons. destruct (keep t) eqn:Ek.
  - rewrite decide_True by done. cbn [fmap list_fmap drive].
    destruct (Hy (Subject t, Object t) ps x z) as (ps1 & x1 & H1 & E1 & H2); [apply Hgood; set_solver|done|done|].
    cbn [fst snd] in E1. rewrite E1. destruct (y (Subject t, Object t) z) as [[] z1]; cbn [fst snd] in *; [apply IH; [done|done|intros; apply Hgood; set_solver]|].
    by exists ps1, x1.
  - rewrite decide_False by congruence. apply IH; [done|done|intros; apply Hgood; set_solver].
Qed.

(** The variable [cont]. *)
Definition cont_y {Z} (y : Term * Term → Z → bool * Z) : Term * Term → Z → bool * Z := y.

Lemma continuing_sim {X Z} (R R' : X → Z → Prop) yield y :
  sim R R' yield y → sim (λ xc z, R xc.1 z ∧ xc.2 = true) (λ xc z, R' xc.1 z ∧ xc.2 = false) (continuing yield) y.
Proof.
  intros Hy so ps [x c] z Hso Hps [HR Hc]. cbn in HR, Hc. subst c. destruct (Hy so ps x z Hso Hps HR) as (ps' & x' & H1 & H2 & H3).
  unfold continuing. rewrite H2. destruct (y so z) as [[] z']; cbn [fst snd] in *; eexists ps', _; by split_and!.
Qed.

(** Giving every pair of an inner iterator to the consumer. *)
Lemma inner_sim {X Z} (R R' : X → Z → Prop) (it : Pairs) l yield y ps x z :
  yields it l → sim R R' yield y → ps_ok ps → R x z →
  ∃ ps' x', ps_ok ps' ∧
    (let '(ps, (x, cont)) := it (X * bool)%type (continuing yield) ps (x, true) in (cont && negb (path_halted ps), ps, x)) =
    ((drive l y z).1, ps', x') ∧ (if (drive l y z).1 then R x' (drive l y z).2 else R' x' (drive l y z).2).
Proof.
  intros Hit Hy Hps HR. apply continuing_sim in Hy.
  destruct (Hit _ _ _ _ _ _ ps (x, true) z Hy Hps) as (ps' & [x' c'] & H1 & -> & H3); [by split|].
  exists ps', x'. split; [done|]. rewrite ps_halted by done. destruct (drive l y z) as [[] z']; cbn [fst snd] in *;
    destruct H3 as [H3 ->]; by split.
Qed.

Lemma yields_ext it l l' : l = l' → yields it l → yields it l'.
Proof. by intros ->. Qed.


(** Changing the pairs on their way to the consumer. *)
Lemma map_yields (it : Pairs) l (f : Term * Term → Term * Term) :
  yields it l → (∀ so, good_pair so → good_pair (f so)) →
  yields (λ X yield ps x, it X (λ s o ps x, yield (f (s, o)).1 (f (s, o)).2 ps x) ps x) (f <$> l).
Proof.
  intros Hit Hf X Z R R' yield y ps x z Hy Hps HR.
  destruct (Hit X Z R R' (λ s o ps x, yield (f (s, o)).1 (f (s, o)).2 ps x) (λ so z, y (f so) z) ps x z) as (ps' & x' & H1 & H2 & H3); [|done|done|].
  - intros [s o] ps0 x0 z0 Hso Hps0 HR0. cbn [fst snd]. by apply (Hy (f (s, o)) ps0 x0 z0 (Hf _ Hso)).
  - exists ps', x'. split; [done|]. split; [done|].
    by rewrite drive_fmap.
Qed.

(** ** Answers of the backend *)

Definition pred_words (l : list URIRef) : string := foldr (λ p acc, URIRef_value p +:+ String nul acc) EmptyString l.

Lemma pred_words_shift l :
  foldr (λ p acc, str1 nul +:+ URIRef_value p +:+ acc) EmptyString l +:+ str1 nul = str1 nul +:+ pred_words l.
Proof.
  induction l as [|p l IH]; [done|]. cbn [foldr]. unfold pred_words in *. cbn [foldr]. rewrite !app_assoc_s, IH. done.
Qed.

Lemma pred_words_inj l l' : Forall plain_uri l → Forall plain_uri l' → pred_words l = pred_words l' → l = l'.
Proof.
  intros Hl. revert l'. induction Hl as [|p l [Hp Hn] Hl IH]; intros l' Hl' He; destruct Hl' as [|p' l' [Hp' Hn'] Hl']; [done|..].
  - apply (f_equal len) in He. cbn [pred_words foldr] in He. rewrite len_app, len_cons, len_nil in He. lia.
  - apply (f_equal len) in He. cbn [pred_words foldr] in He. rewrite len_app, len_cons, len_nil in He. lia.
  - cbn [pred_words foldr] in He. fold (pred_words l) in He. fold (pred_words l') in He.
    apply nul_split in He as [E1 E2]; [|done|done]. f_equal; [by apply URIRef_value_inj|by apply IH].
Qed.

Lemma reachKey_inj q q' : askable q → askable q' → reachKey q = reachKey q' → q = q'.
Proof using Hst.
  intros ((t & Es & Ht) & Hp & Hm & Hc) ((t' & Es' & Ht') & Hp' & Hm' & Hc') He. unfold reachKey in He.
  rewrite Es, Es', Hm, Hm', Hc, Hc' in He. cbn [OptTermKey] in He.
  destruct Ht as (W & _ & N & _), Ht' as (W' & _ & N' & _).
  apply nul_split in He as [Ek He]; [|done|done]. apply TermKey_inj in Ek as <-; [|done|done].
  apply app_inv_len in He as [_ He]; [|done]. apply app_inv_len in He as [_ He]; [|done]. rewrite <- !app_assoc_s in He.
  rewrite !app_assoc_s in He. rewrite <- (app_assoc_s (if Inverse q then _ else _)), <- (app_assoc_s (if Inverse q' then _ else _)) in He.
  apply nul_split in He as [Ef He]; [|by destruct (Inverse q), (Negated q)|by destruct (Inverse q'), (Negated q')].
  apply app_inv_len in He as [_ He]; [|done].
  assert (Ep : Predicates q = Predicates q').
  { apply pred_words_inj; [done|done|]. apply (f_equal (λ s, s +:+ str1 nul)) in He. rewrite !pred_words_shift in He. by injection He. }
  assert (Inverse q = Inverse q' ∧ Negated q = Negated q') as [Ei En] by (destruct (Inverse q), (Negated q), (Inverse q'), (Negated q'); by split).
  destruct q, q'. cbn in *. congruence.
Qed.

Lemma cached_reachable_ok f q ps : reach = Some f → askable q → ps_ok ps →
  ∃ ps', ps_ok ps' ∧ cached_reachable st f q ps = (f None q st, ps').
Proof using Hst.
  intros Hf Hq Hps. pose proof Hps as (H1 & H2 & H3). unfold cached_reachable. destruct (ps_reach ps !! reachKey q) as [r|] eqn:E.
  - exists ps. split; [done|]. by rewrite (H3 f q r).
  - rewrite ps_look by done. destruct (f None q st) as [r|e] eqn:Er; [|by exists ps]. eexists. split; [|reflexivity].
    split; [done|]. split; [done|]. cbn. intros f' q' r' Hf' Hq'. rewrite lookup_insert. case_decide as Ek; [|by apply H3].
    intros [= <-]. apply reachKey_inj in Ek as <-; [|done|done]. congruence.
Qed.

(** [emit] and its variable [done]. *)
Definition done_y {Z} (y : Term * Term → Z → bool * Z) : Term * Term → Z * gset string → bool * (Z * gset string) :=
  λ so '(z, done), if bool_decide (pair_key so ∈ done) then (true, (z, done))
                   else let '(c, z) := y so z in (c, (z, {[pair_key so]} ∪ done)).

Definition with_done {X Z} (R : X → Z → Prop) : X * gset string → Z * gset string → Prop := λ xd zd, R xd.1 zd.1 ∧ xd.2 = zd.2.

Lemma emit_sim {X Z} (R R' : X → Z → Prop) yield y :
  sim R R' yield y → sim (with_done R) (with_done R') (emit_pair yield) (done_y y).
Proof.
  intros Hy so ps [x d] [z d'] Hso Hps [HR Hd]. cbn in HR, Hd. subst d'. unfold emit_pair, done_y. rewrite ps_stop by done.
  change (TermKey so.1 +:+ "|" +:+ TermKey so.2) with (pair_key so). case_bool_decide; [by eexists ps, (x, d)|].
  destruct (Hy so ps x z Hso Hps HR) as (ps' & x' & H1 & -> & H3). eexists ps', (x', _). split; [done|].
  destruct (y so z) as [[] z']; by split_and!.
Qed.

Lemma drive_done {Z} (y : Term * Term → Z → bool * Z) l z d :
  ∃ d', drive l (done_y y) (z, d) = ((drive (first_by pair_key d l) y z).1, ((drive (first_by pair_key d l) y z).2, d')).
Proof.
  revert z d. induction l as [|so l IH]; intros z d; [by exists d|]. cbn [drive first_by]. unfold done_y at 1.
  destruct (decide (pair_key so ∈ d)) as [Hd|Hd]; [rewrite bool_decide_eq_true_2 by done; apply IH|].
  rewrite bool_decide_eq_false_2 by done. cbn [drive]. destruct (y so z) as [[] z1]; [apply IH|by eexists].
Qed.

Lemma until_false_sim {X Z} (R R' : X → Z → Prop) (l : list Term) (f : Term → Term * Term) (keep : Term → bool) yield y :
  sim R R' yield y → Forall (λ n, good_pair (f n)) l →
  ∀ ps x z, ps_ok ps → R x z →
  ∃ ps' x', ps_ok ps' ∧
    until_false (λ n ps x, if keep n then yield (f n).1 (f n).2 ps x else (true, ps, x)) l ps x =
      ((drive (f <$> filter (λ n, keep n = true) l) y z).1, ps', x') ∧
    (if (drive (f <$> filter (λ n, keep n = true) l) y z).1
     then R x' (drive (f <$> filter (λ n, keep n = true) l) y z).2 else R' x' (drive (f <$> filter (λ n, keep n = true) l) y z).2).
Proof.
  intros Hy Hl. induction Hl as [|n l Hn Hl IH]; intros ps x z Hps HR; [by exists ps, x|]. cbn [until_false]. rewrite filter_cons.
  destruct (keep n) eqn:Ek.
  - rewrite decide_True by done. cbn [fmap list_fmap drive]. destruct (Hy (f n) ps x z Hn Hps HR) as (ps1 & x1 & H1 & -> & H3).
    destruct (y (f n) z) as [[] z1]; cbn [fst snd] in *; [by apply IH|by exists ps1, x1].
  - rewrite decide_False by congruence. by apply IH.
Qed.

(** ** Traversals *)

Section traversal.
Context (ev : option Term → option Term → Pairs) (evl : option Term → option Term → list (Term * Term)) (More : bool).
Context (Hev : ∀ sub obj, good_subject sub → good_object obj → Forall good_pair (evl sub obj) ∧ yields (ev sub obj) (evl sub obj)).
Context {X Z : Type} (R R' : X → Z → Prop) (emit : PairYield X) (y : Term * Term → Z → bool * Z) (Hemit : sim R R' emit y).

Definition fwd_pairs (origin : Term) (obj : option Term) (out : list Term) : list (Term * Term) :=
  (λ o, (origin, o)) <$> filter (λ o, matches_obj obj o = true) out.

(** The pure consumer of one level of the traversal. *)
Definition fwd_y (fuel : nat) (origin : Term) (obj : option Term) : Term * Term → Z * gset string → bool * (Z * gset string) :=
  λ so '(z, seen),
    let '(c, z) := if matches_obj obj so.2 then y (origin, so.2) z else (true, z) in
    if negb c then (false, (z, seen))
    else match (if More then path_subject so.2 else None) with
         | Some next => let '(out, seen) := fwd_list evl More fuel next seen in
                        let '(c, z) := drive (fwd_pairs origin obj out) y z in (c, (z, seen))
         | None => (true, (z, seen))
         end.

(** One step of the traversal adds [o :: out'] to what it meets. *)
Definition fwd_step (fuel : nat) (acc : list Term * gset string) (so : Term * Term) : list Term * gset string :=
  let '(out, seen) := acc in
  match (if More then path_subject so.2 else None) with
  | Some next => let '(out', seen) := fwd_list evl More fuel next seen in (out ++ so.2 :: out', seen)
  | None => (out ++ [so.2], seen)
  end.

Lemma fwd_pairs_app origin obj out out' : fwd_pairs origin obj (out ++ out') = fwd_pairs origin obj out ++ fwd_pairs origin obj out'.
Proof. unfold fwd_pairs. by rewrite filter_app, fmap_app. Qed.

Lemma fwd_step_ok fuel origin obj so out0 seen0 z :
  ∃ out' seen', fwd_step fuel (out0, seen0) so = (out0 ++ out', seen') ∧
    ∃ seen1, fwd_y fuel origin obj so (z, seen0) =
      ((drive (fwd_pairs origin obj out') y z).1, ((drive (fwd_pairs origin obj out') y z).2, seen1)) ∧
    ((drive (fwd_pairs origin obj out') y z).1 = true → seen1 = seen').
Proof.
  unfold fwd_step, fwd_y. destruct (if More then path_subject so.2 else None) as [next|].
  - destruct (fwd_list evl More fuel next seen0) as [out' seen']. exists (so.2 :: out'), seen'. split; [done|].
    unfold fwd_pairs. rewrite filter_cons.
    destruct (matches_obj obj so.2) eqn:Em; [rewrite decide_True by done|rewrite decide_False by done]; cbn [fmap list_fmap drive].
    + destruct (y (origin, so.2) z) as [[] z1]; cbn [negb fst snd]; [|by eexists]. destruct (drive _ y z1) as [c z2]. by eexists.
    + cbn [negb]. destruct (drive _ y z) as [c z2]. by eexists.
  - exists [so.2], seen0. split; [done|]. unfold fwd_pairs. rewrite filter_cons.
    destruct (matches_obj obj so.2) eqn:Em; [rewrite decide_True by done|rewrite decide_False by done]; cbn [fmap list_fmap drive filter].
    + destruct (y (origin, so.2) z) as [[] z1]; cbn [negb fst snd]; by eexists.
    + by eexists.
Qed.

Lemma fwd_fold fuel origin obj l : ∀ out0 seen0 z,
  ∃ out' seen', foldl (fwd_step fuel) (out0, seen0) l = (out0 ++ out', seen') ∧
    ∃ seen1, drive l (fwd_y fuel origin obj) (z, seen0) =
      ((drive (fwd_pairs origin obj out') y z).1, ((drive (fwd_pairs origin obj out') y z).2, seen1)) ∧
    ((drive (fwd_pairs origin obj out') y z).1 = true → seen1 = seen').
Proof.
  induction l as [|so l IH]; intros out0 seen0 z.
  { exists [], seen0. rewrite app_nil_r. split; [done|]. by exists seen0. }
  destruct (fwd_step_ok fuel origin obj so out0 seen0 z) as (o1 & s1 & E1 & seen1 & E2 & E3). cbn [foldl drive]. rewrite E1, E2.
  destruct (IH (out0 ++ o1) s1 (drive (fwd_pairs origin obj o1) y z).2) as (o2 & s2 & E4 & seen2 & E5 & E6).
  exists (o1 ++ o2), s2. rewrite E4. split; [by rewrite <- app_assoc|]. rewrite fwd_pairs_app, drive_app.
  destruct (drive (fwd_pairs origin obj o1) y z) as [[] z1]; cbn [fst snd] in *.
  - rewrite (E3 eq_refl), E5. by exists seen2.
  - by exists seen1.
Qed.

Lemma fwd_list_S fuel node seen :
  fwd_list evl More (S fuel) node seen =
  if bool_decide (TermKey node ∈ seen) then ([], seen) else foldl (fwd_step fuel) ([], {[TermKey node]} ∪ seen) (evl (Some node) None).
Proof. done. Qed.

Lemma good_subject_some n : good n → isSubject n = true → good_subject (Some n).
Proof. intros H1 H2 s [= <-]. done. Qed.
Lemma good_none : good_subject None ∧ good_object None.
Proof. by split; intros ? [=]. Qed.
Lemma good_object_some n : good n → good_object (Some n).
Proof. by intros H1 s [= <-]. Qed.

Lemma path_subject_Some o n : path_subject o = Some n → n = o ∧ isSubject o = true.
Proof. unfold path_subject. destruct (isSubject o) eqn:E; [|done]. by intros [= ->]. Qed.

(** The traversal gives its pairs to the consumer. *)
Lemma fwdFrom_ok fuel origin obj : good origin → ∀ node seen ps x z,
  good node → isSubject node = true → ps_ok ps → R x z →
  let '(out, seen') := fwd_list evl More fuel node seen in
  ∃ ps' x' seen1, ps_ok ps' ∧
    fwdFrom ev More fuel emit origin node obj ps (x, seen) = ((drive (fwd_pairs origin obj out) y z).1, ps', (x', seen1)) ∧
    (if (drive (fwd_pairs origin obj out) y z).1 then R x' (drive (fwd_pairs origin obj out) y z).2 ∧ seen1 = seen'
     else R' x' (drive (fwd_pairs origin obj out) y z).2).
Proof using Hev Hemit.
  intros Hor. induction fuel as [|fuel IH]; intros node seen ps x z Hn Hsub Hps HR; [by exists ps, x, seen|].
  rewrite fwd_list_S. cbn [fwdFrom]. case_bool_decide as Es; [by exists ps, x, seen|].
  destruct (Hev (Some node) None) as [Hgood Hit]; [by apply good_subject_some|apply good_none|].
  set (seen0 := {[TermKey node]} ∪ seen). set (cb := λ (_ o : Term) (ps : pstopper) (a : X * gset string * bool), _).
  set (RR := λ (xc : X * gset string * bool) (zs : Z * gset string), (R xc.1.1 zs.1 ∧ xc.1.2 = zs.2) ∧ xc.2 = true).
  set (RR' := λ (xc : X * gset string * bool) (zs : Z * gset string), R' xc.1.1 zs.1 ∧ xc.2 = false).
  assert (Hcb : sim RR RR' cb (fwd_y fuel origin obj)).
  { intros [s o] ps0 [[x0 sn] c] [z0 sn'] [_ Ho] Hps0 [[HR0 Hsn] Hc]. cbn in HR0, Hsn, Hc, Ho. subst sn' c. unfold cb, fwd_y. cbn [fst snd].
    rewrite ps_stop by done.
    assert (Hfirst : ∃ ps1 x1, ps_ok ps1 ∧
      (if matches_obj obj o then emit origin o ps0 x0 else (true, ps0, x0)) =
      ((if matches_obj obj o then y (origin, o) z0 else (true, z0)).1, ps1, x1) ∧
      (if (if matches_obj obj o then y (origin, o) z0 else (true, z0)).1
       then R x1 (if matches_obj obj o then y (origin, o) z0 else (true, z0)).2
       else R' x1 (if matches_obj obj o then y (origin, o) z0 else (true, z0)).2)).
    { destruct (matches_obj obj o); [|by exists ps0, x0]. by apply (Hemit (origin, o)). }
    destruct Hfirst as (ps1 & x1 & Hps1 & -> & HR1).
    destruct (if matches_obj obj o then y (origin, o) z0 else (true, z0)) as [[] z1]; cbn [fst snd negb] in *; [|by eexists ps1, _].
    destruct More; [|by eexists ps1, _]. destruct (path_subject o) as [next|] eqn:Ep; [|by eexists ps1, _].
    apply path_subject_Some in Ep as [-> Hos]. specialize (IH o sn ps1 x1 z1 Ho Hos Hps1 HR1).
    destruct (fwd_list evl true fuel o sn) as [out sn']. destruct IH as (ps2 & x2 & sn2 & Hps2 & -> & HR2).
    destruct (drive (fwd_pairs origin obj out) y z1) as [[] z2]; cbn [fst snd] in *; eexists ps2, _; (split; [done|]); (split; [reflexivity|]).
    - destruct HR2 as [HR2 ->]. by split.
    - by split. }
  destruct (Hit _ _ RR RR' cb (fwd_y fuel origin obj) ps ((x, seen0), true) (z, seen0) Hcb Hps) as (ps' & [[x' sn] c] & Hps' & -> & HR'); [done|].
  destruct (fwd_fold fuel origin obj (evl (Some node) None) [] seen0 z) as (out' & seen' & -> & seen1 & Ed & Esn).
  rewrite app_nil_l. exists ps', x', sn. split; [done|]. rewrite ps_halted by done. rewrite andb_true_r. rewrite Ed in HR'. cbn [fst snd] in HR'.
  destruct (drive (fwd_pairs origin obj out') y z) as [[] z1]; cbn [fst snd] in *.
  - destruct HR' as [[HR' Hsn] Hc]. cbn in HR', Hsn, Hc. subst. split; [done|]. split; [done|]. by apply Esn.
  - destruct HR' as [HR' Hc]. cbn in HR', Hc. subst. by split.
Qed.

(** Backward. *)
Definition bwd_pairs (target : Term) (out : list Term) : list (Term * Term) := (λ s, (s, target)) <$> out.

Definition bwd_y (fuel : nat) (target : Term) : Term * Term → Z * gset string → bool * (Z * gset string) :=
  λ so '(z, seen),
    let '(c, z) := y (so.1, target) z in
    if negb c then (false, (z, seen))
    else if More then
      let '(out, seen) := bwd_list evl More fuel so.1 seen in
      let '(c, z) := drive (bwd_pairs target out) y z in (c, (z, seen))
    else (true, (z, seen)).

Definition bwd_step (fuel : nat) (acc : list Term * gset string) (so : Term * Term) : list Term * gset string :=
  let '(out, seen) := acc in
  if More then let '(out', seen) := bwd_list evl More fuel so.1 seen in (out ++ so.1 :: out', seen)
  else (out ++ [so.1], seen).

Lemma bwd_step_ok fuel target so out0 seen0 z :
  ∃ out' seen', bwd_step fuel (out0, seen0) so = (out0 ++ out', seen') ∧
    ∃ seen1, bwd_y fuel target so (z, seen0) =
      ((drive (bwd_pairs target out') y z).1, ((drive (bwd_pairs target out') y z).2, seen1)) ∧
    ((drive (bwd_pairs target out') y z).1 = true → seen1 = seen').
Proof.
  unfold bwd_step, bwd_y. destruct More.
  - destruct (bwd_list evl true fuel so.1 seen0) as [out' seen']. exists (so.1 :: out'), seen'. split; [done|].
    cbn [bwd_pairs fmap list_fmap drive]. destruct (y (so.1, target) z) as [[] z1]; cbn [negb fst snd]; [|by eexists].
    unfold bwd_pairs. destruct (drive _ y z1) as [c z2]. by eexists.
  - exists [so.1], seen0. split; [done|]. cbn [bwd_pairs fmap list_fmap drive].
    destruct (y (so.1, target) z) as [[] z1]; cbn [negb fst snd]; by eexists.
Qed.

Lemma bwd_fold fuel target l : ∀ out0 seen0 z,
  ∃ out' seen', foldl (bwd_step fuel) (out0, seen0) l = (out0 ++ out', seen') ∧
    ∃ seen1, drive l (bwd_y fuel target) (z, seen0) =
      ((drive (bwd_pairs target out') y z).1, ((drive (bwd_pairs target out') y z).2, seen1)) ∧
    ((drive (bwd_pairs target out') y z).1 = true → seen1 = seen').
Proof.
  induction l as [|so l IH]; intros out0 seen0 z.
  { exists [], seen0. rewrite app_nil_r. split; [done|]. by exists seen0. }
  destruct (bwd_step_ok fuel target so out0 seen0 z) as (o1 & s1 & E1 & seen1 & E2 & E3). cbn [foldl drive]. rewrite E1, E2.
  destruct (IH (out0 ++ o1) s1 (drive (bwd_pairs target o1) y z).2) as (o2 & s2 & E4 & seen2 & E5 & E6).
  exists (o1 ++ o2), s2. rewrite E4. split; [by rewrite <- app_assoc|]. unfold bwd_pairs in *. rewrite fmap_app, drive_app.
  destruct (drive _ y z) as [[] z1]; cbn [fst snd] in *.
  - rewrite (E3 eq_refl), E5. by exists seen2.
  - by exists seen1.
Qed.

Lemma bwd_list_S fuel node seen :
  bwd_list evl More (S fuel) node seen =
  if bool_decide (TermKey node ∈ seen) then ([], seen) else foldl (bwd_step fuel) ([], {[TermKey node]} ∪ seen) (evl None (Some node)).
Proof. done. Qed.

Lemma bwdTo_ok fuel target : good target → ∀ node seen ps x z,
  good node → ps_ok ps → R x z →
  let '(out, seen') := bwd_list evl More fuel node seen in
  ∃ ps' x' seen1, ps_ok ps' ∧
    bwdTo ev More fuel emit node target ps (x, seen) = ((drive (bwd_pairs target out) y z).1, ps', (x', seen1)) ∧
    (if (drive (bwd_pairs target out) y z).1 then R x' (drive (bwd_pairs target out) y z).2 ∧ seen1 = seen'
     else R' x' (drive (bwd_pairs target out) y z).2).
Proof using Hev Hemit.
  intros Htg. induction fuel as [|fuel IH]; intros node seen ps x z Hn Hps HR; [by exists ps, x, seen|].
  rewrite bwd_list_S. cbn [bwdTo]. case_bool_decide as Es; [by exists ps, x, seen|].
  destruct (Hev None (Some node)) as [Hgood Hit]; [apply good_none|by apply good_object_some|].
  set (seen0 := {[TermKey node]} ∪ seen). set (cb := λ (s _ : Term) (ps : pstopper) (a : X * gset string * bool), _).
  set (RR := λ (xc : X * gset string * bool) (zs : Z * gset string), (R xc.1.1 zs.1 ∧ xc.1.2 = zs.2) ∧ xc.2 = true).
  set (RR' := λ (xc : X * gset string * bool) (zs : Z * gset string), R' xc.1.1 zs.1 ∧ xc.2 = false).
  assert (Hcb : sim RR RR' cb (bwd_y fuel target)).
  { intros [s o] ps0 [[x0 sn] c] [z0 sn'] [Hs _] Hps0 [[HR0 Hsn] Hc]. cbn in HR0, Hsn, Hc, Hs. subst sn' c. unfold cb, bwd_y. cbn [fst snd].
    destruct (Hemit (s, target) ps0 x0 z0) as (ps1 & x1 & Hps1 & E1 & HR1); [by split|done|done|]. cbn [fst snd] in E1. rewrite E1.
    destruct (y (s, target) z0) as [[] z1]; cbn [fst snd negb] in *; [|by eexists ps1, _].
    destruct More; [|by eexists ps1, _]. specialize (IH s sn ps1 x1 z1 Hs Hps1 HR1).
    destruct (bwd_list evl true fuel s sn) as [out sn']. destruct IH as (ps2 & x2 & sn2 & Hps2 & -> & HR2).
    destruct (drive (bwd_pairs target out) y z1) as [[] z2]; cbn [fst snd] in *; eexists ps2, _; (split; [done|]); (split; [reflexivity|]).
    - destruct HR2 as [HR2 ->]. by split.
    - by split. }
  destruct (Hit _ _ RR RR' cb (bwd_y fuel target) ps ((x, seen0), true) (z, seen0) Hcb Hps) as (ps' & [[x' sn] c] & Hps' & -> & HR'); [done|].
  destruct (bwd_fold fuel target (evl None (Some node)) [] seen0 z) as (out' & seen' & -> & seen1 & Ed & Esn).
  rewrite app_nil_l. exists ps', x', sn. split; [done|]. rewrite ps_halted by done. rewrite andb_true_r. rewrite Ed in HR'. cbn [fst snd] in HR'.
  destruct (drive (bwd_pairs target out') y z) as [[] z1]; cbn [fst snd] in *.
  - destruct HR' as [[HR' Hsn] Hc]. cbn in HR', Hsn, Hc. subst. split; [done|]. split; [done|]. by apply Esn.
  - destruct HR' as [HR' Hc]. cbn in HR', Hc. subst. by split.
Qed.
End traversal.

(** The terms a traversal meets are terms of the graph. *)
Section traversal_good.
Context (evl : option Term → option Term → list (Term * Term)) (More : bool).
Context (Hevl : ∀ sub obj, good_subject sub → good_object obj → Forall good_pair (evl sub obj)).

Lemma fwd_list_good fuel : ∀ node seen, good node → isSubject node = true → Forall good (fwd_list evl More fuel node seen).1.
Proof using Hevl.
  induction fuel as [|fuel IH]; intros node seen Hn Hs; [constructor|]. rewrite fwd_list_S. case_bool_decide; [constructor|].
  assert (Hl : Forall good_pair (evl (Some node) None)) by (apply Hevl; [by apply good_subject_some|apply good_none]).
  generalize ({[TermKey node]} ∪ seen) as s. revert Hl. assert (H0 : Forall good []) by constructor. revert H0.
  generalize ([] : list Term) as out. induction (evl (Some node) None) as [|so l IHl]; intros out H0 Hl s; [done|].
  apply Forall_cons in Hl as [[_ Ho] Hl]. cbn [foldl]. unfold fwd_step at 2. destruct More; [|apply IHl; [apply Forall_app_2; [done|by apply Forall_singleton]|done]].
  destruct (path_subject so.2) as [n|] eqn:E; [|apply IHl; [apply Forall_app_2; [done|by apply Forall_singleton]|done]].
  apply path_subject_Some in E as [-> E]. specialize (IH so.2 s Ho E). destruct (fwd_list evl true fuel so.2 s) as [out' s'].
  apply IHl; [apply Forall_app_2; [done|by constructor]|done].
Qed.

Lemma bwd_list_good fuel : ∀ node seen, good node → Forall good (bwd_list evl More fuel node seen).1.
Proof using Hevl.
  induction fuel as [|fuel IH]; intros node seen Hn; [constructor|]. rewrite bwd_list_S. case_bool_decide; [constructor|].
  assert (Hl : Forall good_pair (evl None (Some node))) by (apply Hevl; [apply good_none|by apply good_object_some]).
  generalize ({[TermKey node]} ∪ seen) as s. revert Hl. assert (H0 : Forall good []) by constructor. revert H0.
  generalize ([] : list Term) as out. induction (evl None (Some node)) as [|so l IHl]; intros out H0 Hl s; [done|].
  apply Forall_cons in Hl as [[Hs _] Hl]. cbn [foldl]. unfold bwd_step at 2.
  destruct More; [|apply IHl; [apply Forall_app_2; [done|by apply Forall_singleton]|done]].
  specialize (IH so.1 s Hs). destruct (bwd_list evl true fuel so.1 s) as [out' s'].
  apply IHl; [apply Forall_app_2; [done|by constructor]|done].
Qed.
End traversal_good.

Lemma Forall_fmap_filter {A B} (P : B → Prop) (f : A → B) (keep : A → Prop) `{∀ a, Decision (keep a)} (l : list A) :
  (∀ a, a ∈ l → P (f a)) → Forall P (f <$> filter keep l).
Proof. intros Hl. apply Forall_fmap, Forall_forall. intros a [_ Ha]%list_elem_of_filter. by apply Hl. Qed.


(** ** Repetition *)

Definition plain_path (p : Path) : Prop := Forall plain_uri (path_uris p).

Lemma store_query_askable p spec start inv : plain_path p → flatten p = Some spec → good start → askable (store_query g spec start inv).
Proof.
  intros Hp Hf Hs. split; [by exists start|]. split; [|by split]. apply Forall_forall. intros u Hu.
  apply (proj1 (Forall_forall _ _) Hp). by apply (flatten_uris p spec Hf).
Qed.

Lemma store_pairs_good p More subj obj l :
  plain_path p → good_subject subj → good_object obj → store_pairs reach g st p More subj obj = Some l → Forall good_pair l.
Proof using Hreach.
  intros Hp Hs Ho. unfold store_pairs. destruct More; [|done]. cbn [negb]. destruct reach as [f|] eqn:Ef; [|done].
  destruct (flatten p) as [spec|] eqn:Efl; [|done]. destruct subj as [s|]; [|destruct obj as [o|]; [|done]].
  - destruct (f None _ st) as [r|] eqn:Er; [|done]. intros [= <-]. destruct (Hs s eq_refl) as [Hgs _].
    destruct (Hreach f _ s eq_refl (store_query_askable p spec s _ Hp Efl Hgs) eq_refl r Er) as [Hr _].
    apply Forall_fmap_filter. intros n Hn. split; [done|]. by apply (proj1 (Forall_forall _ _) Hr).
  - destruct (f None _ st) as [r|] eqn:Er; [|done]. intros [= <-]. specialize (Ho o eq_refl).
    destruct (Hreach f _ o eq_refl (store_query_askable p spec o _ Hp Efl Ho) eq_refl r Er) as [Hr _].
    apply Forall_fmap, Forall_forall. intros n Hn. split; [|done]. by apply (proj1 (Forall_forall _ _) Hr).
Qed.

Lemma filter_keep_all {A} (l : list A) : filter (λ _, true = true) l = l.
Proof. induction l as [|a l IH]; [done|]. rewrite filter_cons_True by done. by rewrite IH. Qed.

Lemma evalViaStore_ok {X Z} (R R' : X → Z → Prop) (emit : PairYield X) y p More subj obj ps x z :
  sim R R' emit y → plain_path p → good_subject subj → good_object obj → ps_ok ps → R x z →
  ∃ ps', ps_ok ps' ∧
  match store_pairs reach g st p More subj obj with
  | Some l => ∃ x', evalViaStore reach g st p More subj obj emit ps x = (true, ps', x') ∧
                (if (drive l y z).1 then R x' (drive l y z).2 else R' x' (drive l y z).2)
  | None => evalViaStore reach g st p More subj obj emit ps x = (false, ps', x)
  end.
Proof using Hst Hreach.
  intros Hy Hp Hs Ho Hps HR. pose proof (store_pairs_good p More subj obj) as Hgood. unfold store_pairs, evalViaStore in *.
  destruct More; [|by exists ps]. cbn [negb] in *. destruct reach as [f|] eqn:Ef; [|by exists ps].
  destruct (flatten p) as [spec|] eqn:Efl; [|by exists ps]. destruct subj as [s|]; [|destruct obj as [o|]; [|by exists ps]].
  - destruct (Hs s eq_refl) as [Hgs _]. pose proof (store_query_askable p spec s (inverse spec) Hp Efl Hgs) as Hq.
    destruct (cached_reachable_ok f (store_query g spec s (inverse spec)) ps Ef Hq Hps) as (ps1 & Hps1 & E1).
    unfold store_query in *. rewrite E1. destruct (f None _ st) as [r|] eqn:Er; [|by exists ps1].
    specialize (Hgood _ Hp Hs Ho eq_refl). destruct (Hreach f _ s eq_refl Hq eq_refl r Er) as [Hr _].
    destruct (until_false_sim R R' r (λ n, (s, n)) (matches_obj obj) emit y Hy) with ps1 x z as (ps2 & x2 & Hps2 & E2 & HR2); [|done|done|].
    { eapply Forall_impl; [exact Hr|]. intros n Hn. by split. }
    exists ps2. split; [done|]. exists x2. cbn [fst snd] in E2. rewrite E2. by split.
  - specialize (Ho o eq_refl). pose proof (store_query_askable p spec o (negb (inverse spec)) Hp Efl Ho) as Hq.
    destruct (cached_reachable_ok f (store_query g spec o (negb (inverse spec))) ps Ef Hq Hps) as (ps1 & Hps1 & E1).
    unfold store_query in *. rewrite E1. destruct (f None _ st) as [r|] eqn:Er; [|by exists ps1].
    destruct (Hreach f _ o eq_refl Hq eq_refl r Er) as [Hr _].
    destruct (until_false_sim R R' r (λ n, (n, o)) (λ _, true) emit y Hy) with ps1 x z as (ps2 & x2 & Hps2 & E2 & HR2); [|done|done|].
    { eapply Forall_impl; [exact Hr|]. intros n Hn. by split. }
    exists ps2. split; [done|]. exists x2. cbn [fst snd] in E2. rewrite E2.
    change (filter _ r) with (filter (λ _, true = true) r) in HR2. rewrite !filter_keep_all in HR2. by split.
Qed.

(** A piece of the code that gave the pairs [l] to its consumer. *)
Definition does {X Z} (R R' : X → Z → Prop) (l : list (Term * Term)) (y : Term * Term → Z → bool * Z) (z : Z) (r : bool * pstopper * X) : Prop :=
  ps_ok r.1.2 ∧ r.1.1 = (drive l y z).1 ∧ (if (drive l y z).1 then R r.2 (drive l y z).2 else R' r.2 (drive l y z).2).

Lemma does_nil {X Z} (R R' : X → Z → Prop) y z ps x : ps_ok ps → R x z → does R R' [] y z (true, ps, x).
Proof. by split. Qed.

Lemma does_app {X Z} (R R' : X → Z → Prop) l l' y z r (k : pstopper → X → bool * pstopper * X) :
  does R R' l y z r → (∀ ps x z, ps_ok ps → R x z → does R R' l' y z (k ps x)) →
  does R R' (l ++ l') y z (if r.1.1 then k r.1.2 r.2 else r).
Proof.
  intros (H1 & H2 & H3) Hk. unfold does. rewrite drive_app. rewrite H2. destruct (drive l y z) as [[] z1]; cbn [fst snd] in *; [by apply Hk|].
  by split.
Qed.

Lemma does_yield {X Z} (R R' : X → Z → Prop) yield y so ps x z :
  sim R R' yield y → good_pair so → ps_ok ps → R x z → does R R' [so] y z (yield so.1 so.2 ps x).
Proof.
  intros Hy Hso Hps HR. destruct (Hy so ps x z Hso Hps HR) as (ps' & x' & H1 & -> & H3). unfold does. cbn [drive].
  destruct (y so z) as [[] z']; by split_and!.
Qed.

Lemma does_until {A X Z} (R R' : X → Z → Prop) y (f : A → list (Term * Term)) body l :
  (∀ a ps x z, a ∈ l → ps_ok ps → R x z → does R R' (f a) y z (body a ps x)) →
  ∀ ps x z, ps_ok ps → R x z → does R R' (mjoin (f <$> l)) y z (until_false body l ps x).
Proof.
  intros Hb. induction l as [|a l IH]; intros ps x z Hps HR; [by apply does_nil|]. cbn [until_false fmap list_fmap mjoin list_join].
  pose proof (does_app R R' (f a) (mjoin (f <$> l)) y z (body a ps x) (λ ps x, until_false body l ps x)) as Happ.
  destruct (body a ps x) as [[c ps1] x1] eqn:E. cbn [fst snd] in Happ. destruct c; apply Happ.
  1, 3: rewrite <- E; apply Hb; [apply elem_of_cons; by left|done|done].
  all: intros; apply IH; [intros; apply Hb; [apply elem_of_cons; by right|done|done]|done|done].
Qed.

(** The last piece, whose answer nobody reads. *)
Definition ends {X Z} (R R' : X → Z → Prop) (l : list (Term * Term)) (y : Term * Term → Z → bool * Z) (z : Z) (r : pstopper * X) : Prop :=
  ps_ok r.1 ∧ (if (drive l y z).1 then R r.2 (drive l y z).2 else R' r.2 (drive l y z).2).

Lemma does_ends {X Z} (R R' : X → Z → Prop) l y z r : does R R' l y z r → ends R R' l y z (r.1.2, r.2).
Proof. by intros (H1 & _ & H3). Qed.

Lemma ends_app {X Z} (R R' : X → Z → Prop) l l' y z r (k : pstopper → X → pstopper * X) :
  does R R' l y z r → (∀ ps x z, ps_ok ps → R x z → ends R R' l' y z (k ps x)) →
  ends R R' (l ++ l') y z (if r.1.1 then k r.1.2 r.2 else (r.1.2, r.2)).
Proof.
  intros (H1 & H2 & H3) Hk. unfold ends. rewrite drive_app. rewrite H2. destruct (drive l y z) as [[] z1]; cbn [fst snd] in *; [by apply Hk|].
  by split.
Qed.

Lemma ends_done {X Z} (R R' : X → Z → Prop) l y z r :
  ends (with_done R) (with_done R') l (done_y y) (z, ∅) r → ends R R' (first_by pair_key ∅ l) y z (r.1, r.2.1).
Proof.
  intros (H1 & H3). destruct (drive_done y l z ∅) as [d E]. rewrite E in H3. cbn [fst snd] in H3. split; [done|]. cbn [fst snd].
  destruct (drive _ y z) as [[] z1]; by destruct H3.
Qed.

Lemma graph_nodes_ok : AllNodes None g st = Ok (graph_nodes g st) ∧ Forall good (graph_nodes g st) ∧
  ∀ k, k ∈ TermKey <$> graph_nodes g st ↔ is_node (graph_of st g) k.
Proof using Hst Hgraph.
  unfold graph_nodes. destruct (allNodes_ok st g Hst) as (l & -> & _ & Hk & Hl). split; [done|]. split; [|done].
  apply Forall_forall. intros n Hn. by destruct (Hl n Hn) as (t & (? & _ & _ & ?)%Hgraph & [-> | ->]).
Qed.

Lemma fwd_pairs_all s out : fwd_pairs s None out = (λ o, (s, o)) <$> out.
Proof. unfold fwd_pairs. f_equal. apply filter_keep_all. Qed.

Lemma mjoin_single {A B} (f : A → B) (l : list A) : mjoin ((λ a, [f a]) <$> l) = f <$> l.
Proof. induction l as [|a l IH]; [done|]. cbn. by f_equal. Qed.

Section mul_ok.
Context (ev : option Term → option Term → Pairs) (evl : option Term → option Term → list (Term * Term)).
Context (p : Path) (Zero More : bool) (Hp : plain_path p).
Context (Hev : ∀ sub obj, good_subject sub → good_object obj → Forall good_pair (evl sub obj) ∧ yields (ev sub obj) (evl sub obj)).

Lemma mul_raw_good subj obj : good_subject subj → good_object obj → Forall good_pair (mul_raw reach g st evl p Zero More subj obj).
Proof using Hst Hgraph Hreach Hp Hev.
  intros Hs Ho. assert (Hevl : ∀ sub obj, good_subject sub → good_object obj → Forall good_pair (evl sub obj)) by (intros; by apply Hev).
  pose proof (store_pairs_good p More subj obj) as Hst_good. unfold mul_raw. destruct subj as [s|]; [|destruct obj as [o|]].
  - destruct (Hs s eq_refl) as [Hgs Hsub]. apply Forall_app_2; [destruct (_ && _); [by apply Forall_singleton|constructor]|].
    destruct (store_pairs _ _ _ _ _ _ _) as [l|]; [by apply Hst_good|]. apply Forall_fmap_filter. intros n Hn. split; [done|].
    by apply (proj1 (Forall_forall _ _) (fwd_list_good evl More Hevl (path_fuel g st) s ∅ Hgs Hsub)).
  - specialize (Ho o eq_refl). apply Forall_app_2; [destruct Zero; [by apply Forall_singleton|constructor]|].
    destruct (store_pairs _ _ _ _ _ _ _) as [l|]; [apply Hst_good; try done; by apply good_object_some|].
    apply Forall_fmap. eapply Forall_impl; [by apply (bwd_list_good evl More Hevl)|]. intros n Hn. by split.
  - destruct graph_nodes_ok as (_ & Hn & _). apply Forall_app_2.
    + destruct Zero; [|constructor]. apply Forall_fmap. eapply Forall_impl; [exact Hn|]. intros n Hgn. by split.
    + apply Forall_forall. intros so (l & Hso & Hl)%list_elem_of_join. apply list_elem_of_fmap in Hl as (n & -> & Hn').
      rewrite Forall_forall in Hn. specialize (Hn n Hn'). unfold path_subject in Hso. destruct (isSubject n) eqn:E; [|by apply elem_of_nil in Hso].
      apply list_elem_of_fmap in Hso as (o & -> & Ho'). split; [done|].
      by apply (proj1 (Forall_forall _ _) (fwd_list_good evl More Hevl (path_fuel g st) n ∅ Hn E)).
Qed.

Lemma fwd_does {X Z} (R R' : X → Z → Prop) yield y s obj ps (xd : X * gset string) zd :
  sim R R' yield y → good s → isSubject s = true → ps_ok ps → with_done R xd zd →
  does (with_done R) (with_done R') (fwd_pairs s obj (fwd_list evl More (path_fuel g st) s ∅).1) (done_y y) zd
    (let '(c, ps, (xd, _)) := fwdFrom ev More (path_fuel g st) (emit_pair yield) s s obj ps (xd, ∅) in (c, ps, xd)).
Proof using Hev.
  intros Hy Hs Hsub Hps HR.
  pose proof (fwdFrom_ok ev evl More Hev _ _ _ _ (emit_sim R R' yield y Hy) (path_fuel g st) s obj Hs s ∅ ps xd zd Hs Hsub Hps HR) as H.
  destruct (fwd_list _ _ _ _ _) as [out seen']. destruct H as (ps' & x' & seen1 & H1 & -> & H3). split; [done|]. split; [done|]. cbn [fst snd].
  destruct (drive _ _ zd) as [[] zd']; cbn [fst snd] in *; [by destruct H3|done].
Qed.

Lemma bwd_does {X Z} (R R' : X → Z → Prop) yield y o ps (xd : X * gset string) zd :
  sim R R' yield y → good o → ps_ok ps → with_done R xd zd →
  does (with_done R) (with_done R') (bwd_pairs o (bwd_list evl More (path_fuel g st) o ∅).1) (done_y y) zd
    (let '(c, ps, (xd, _)) := bwdTo ev More (path_fuel g st) (emit_pair yield) o o ps (xd, ∅) in (c, ps, xd)).
Proof using Hev.
  intros Hy Ho Hps HR.
  pose proof (bwdTo_ok ev evl More Hev _ _ _ _ (emit_sim R R' yield y Hy) (path_fuel g st) o Ho o ∅ ps xd zd Ho Hps HR) as H.
  destruct (bwd_list _ _ _ _ _) as [out seen']. destruct H as (ps' & x' & seen1 & H1 & -> & H3). split; [done|]. split; [done|]. cbn [fst snd].
  destruct (drive _ _ zd) as [[] zd']; cbn [fst snd] in *; [by destruct H3|done].
Qed.

Lemma zero_does {X Z} (R R' : X → Z → Prop) yield y (b : bool) s ps (xd : X * gset string) zd :
  sim R R' yield y → good s → ps_ok ps → with_done R xd zd →
  does (with_done R) (with_done R') (if b then [(s, s)] else []) (done_y y) zd (if b then emit_pair yield s s ps xd else (true, ps, xd)).
Proof.
  intros Hy Hs Hps HR. destruct b; [|by apply does_nil].
  by apply (does_yield _ _ (emit_pair yield) (done_y y) (s, s)); [apply emit_sim| |..].
Qed.

(** A backend that answers, or the traversal. *)
Lemma store_ends {X Z} (R R' : X → Z → Prop) yield y subj obj local_list local ps (xd : X * gset string) zd :
  sim R R' yield y → good_subject subj → good_object obj → ps_ok ps → with_done R xd zd →
  (∀ ps xd zd, ps_ok ps → with_done R xd zd →
    does (with_done R) (with_done R') local_list (done_y y) zd (let '(c, ps, (xd, _)) := local ps xd : bool * pstopper * ((X * gset string) * gset string) in (c, ps, xd))) →
  ends (with_done R) (with_done R') (match store_pairs reach g st p More subj obj with Some l => l | None => local_list end) (done_y y) zd
    (let '(handled, ps, xd) := evalViaStore reach g st p More subj obj (emit_pair yield) ps xd in
     if handled then (ps, xd) else let '(_, ps, (xd, _)) := local ps xd in (ps, xd)).
Proof using Hst Hreach Hp.
  intros Hy Hs Ho Hps HR Hlocal.
  destruct (evalViaStore_ok _ _ (emit_pair yield) (done_y y) p More subj obj ps xd zd (emit_sim R R' yield y Hy) Hp Hs Ho Hps HR) as (ps1 & Hps1 & H).
  destruct (store_pairs _ _ _ _ _ _ _) as [l|].
  - destruct H as (x' & -> & H). by split.
  - rewrite H. specialize (Hlocal ps1 xd zd Hps1 HR). destruct (local ps1 xd) as [[c ps2] [xd2 sn]]. by apply does_ends in Hlocal.
Qed.

Lemma eval_mul_yields subj obj : good_subject subj → good_object obj →
  yields (eval_mul reach g st ev p Zero More subj obj) (first_by pair_key ∅ (mul_raw reach g st evl p Zero More subj obj)).
Proof using Hst Hgraph Hreach Hp Hev.
  intros Hs Ho X Z R R' yield y ps x z Hy Hps HR. assert (HRd : with_done R (x, ∅) (z, ∅)) by done.
  enough (H : ∃ r, ends (with_done R) (with_done R') (mul_raw reach g st evl p Zero More subj obj) (done_y y) (z, ∅) r ∧
    eval_mul reach g st ev p Zero More subj obj X yield ps x = (r.1, r.2.1)).
  { destruct H as (r & H & ->). apply ends_done in H as [H1 H2]. by exists r.1, r.2.1. }
  unfold eval_mul, mul_raw. destruct subj as [s|]; [|destruct obj as [o|]].
  - destruct (Hs s eq_refl) as [Hgs Hsub].
    pose proof (ends_app _ _ _ _ _ _ _ _ (zero_does R R' yield y (Zero && matches_obj obj s) s ps (x, ∅) (z, ∅) Hy Hgs Hps HRd)
      (λ ps xd zd Hps HR, store_ends R R' yield y (Some s) obj _ _ ps xd zd Hy Hs Ho Hps HR
         (λ ps xd zd Hps HR, fwd_does R R' yield y s obj ps xd zd Hy Hgs Hsub Hps HR))) as H.
    eexists. split; [exact H|]. clear H. set (r1 := if Zero && _ then emit_pair yield s s ps (x, ∅) else _).
    destruct r1 as [[c ps1] x1]. destruct c; cbn [fst snd negb]; [|done].
    destruct (evalViaStore _ _ _ _ _ _ _ _ _ _) as [[[] ps2] x2]; [done|]. by destruct (fwdFrom _ _ _ _ _ _ _ _ _) as [[c ps3] [x3 sn]].
  - pose proof (Ho o eq_refl) as Hgo.
    pose proof (ends_app _ _ _ _ _ _ _ _ (zero_does R R' yield y Zero o ps (x, ∅) (z, ∅) Hy Hgo Hps HRd)
      (λ ps xd zd Hps HR, store_ends R R' yield y None (Some o) _ _ ps xd zd Hy Hs Ho Hps HR
         (λ ps xd zd Hps HR, bwd_does R R' yield y o ps xd zd Hy Hgo Hps HR))) as H.
    eexists. split; [exact H|]. clear H. set (r1 := if Zero then emit_pair yield o o ps (x, ∅) else _).
    destruct r1 as [[c ps1] x1]. destruct c; cbn [fst snd negb]; [|done].
    destruct (evalViaStore _ _ _ _ _ _ _ _ _ _) as [[[] ps2] x2]; [done|]. by destruct (bwdTo _ _ _ _ _ _ _ _) as [[c ps3] [x3 sn]].
  - rewrite ps_look by done. destruct graph_nodes_ok as (-> & Hn & _). rewrite Forall_forall in Hn.
    assert (H1 : does (with_done R) (with_done R') (if Zero then (λ n, (n, n)) <$> graph_nodes g st else []) (done_y y) (z, ∅)
      (if Zero then until_false (λ n ps x, emit_pair yield n n ps x) (graph_nodes g st) ps (x, ∅) else (true, ps, (x, ∅)))).
    { destruct Zero; [|by apply does_nil]. rewrite <- mjoin_single. apply does_until; [|done|done].
      intros n ps0 xd zd Hin Hps0 HR0. by apply (zero_does R R' yield y true n); [|apply Hn|..]. }
    assert (H2 : ∀ ps xd zd, ps_ok ps → with_done R xd zd → does (with_done R) (with_done R')
      (mjoin ((λ n, match path_subject n with
                    | Some s => (λ o, (s, o)) <$> (fwd_list evl More (path_fuel g st) s ∅).1
                    | None => []
                    end) <$> graph_nodes g st)) (done_y y) zd
      (until_false (λ n ps x,
        match stop ps with
        | (true, ps) => (false, ps, x)
        | (false, ps) =>
            match path_subject n with
            | Some s => let '(c, ps, (x, _)) := fwdFrom ev More (path_fuel g st) (emit_pair yield) s s None ps (x, ∅) in (c, ps, x)
            | None => (true, ps, x)
            end
        end) (graph_nodes g st) ps xd)).
    { apply does_until. intros n ps0 xd zd Hin Hps0 HR0. rewrite ps_stop by done. destruct (path_subject n) as [s|] eqn:E; [|by apply does_nil].
      apply path_subject_Some in E as [-> E].
      pose proof (fwd_does R R' yield y n None ps0 xd zd Hy (Hn n Hin) E Hps0 HR0) as H2. by rewrite fwd_pairs_all in H2. }
    pose proof (ends_app _ _ _ _ _ _ _ _ H1 (λ ps xd zd Hps HR, does_ends _ _ _ _ _ _ (H2 ps xd zd Hps HR))) as H.
    eexists. split; [exact H|]. clear H H1 H2. set (r1 := if Zero then until_false _ _ _ _ else _).
    destruct r1 as [[c ps1] x1]. destruct c; cbn [fst snd negb]; [|done]. set (r2 := until_false _ _ _ _). by destruct r2 as [[c ps2] [x2 d2]].
Qed.
End mul_ok.

(** ** Every path *)

Lemma sequence_yields a l (f : Term → list (Term * Term)) (k : Term → Pairs) :
  yields a l → Forall good_pair l →
  (∀ mid, good mid → isSubject mid = true → Forall good_pair (f mid) ∧ yields (k mid) (f mid)) →
  let l' := mjoin ((λ so, match path_subject so.2 with None => [] | Some mid => (λ so', (so.1, so'.2)) <$> f mid end) <$> l) in
  Forall good_pair l' ∧
  yields (λ X yield ps x, a X (λ s1 mid ps x,
     match stop ps with
     | (true, ps) => (false, ps, x)
     | (false, ps) =>
         match path_subject mid with
         | None => (true, ps, x)
         | Some midSubj =>
             let '(ps, (x, cont)) := k midSubj (X * bool)%type (continuing (λ _ o ps x, yield s1 o ps x)) ps (x, true) in
             (cont && negb (path_halted ps), ps, x)
         end
     end) ps x) l'.
Proof.
  intros Ha Hl Hk l'. split.
  { apply Forall_forall. intros so' (l1 & Hin & Hl1)%list_elem_of_join. apply list_elem_of_fmap in Hl1 as (so & -> & Hso).
    rewrite Forall_forall in Hl. apply Hl in Hso as [Hs Hmid]. destruct (path_subject so.2) as [mid|] eqn:E; [|by apply elem_of_nil in Hin].
    apply path_subject_Some in E as [-> E]. apply list_elem_of_fmap in Hin as (so2 & -> & Hso2).
    split; [done|]. destruct (Hk so.2 Hmid E) as [Hf _]. rewrite Forall_forall in Hf. by destruct (Hf so2 Hso2). }
  intros X Z R R' yield y ps x z Hy Hps HR. unfold l'. rewrite <- drive_concat.
  apply (Ha X Z R R' _ (λ so z, drive (match path_subject so.2 with
                                      | None => []
                                      | Some mid => (λ so', (so.1, so'.2)) <$> f mid
                                      end) y z)); [|done|done].
  intros [s1 mid] ps0 x0 z0 [Hs1 Hmid] Hps0 HR0. cbn [fst snd] in *. rewrite ps_stop by done.
  destruct (path_subject mid) as [m|] eqn:E; [|by exists ps0, x0]. apply path_subject_Some in E as [-> E].
  destruct (Hk mid Hmid E) as [_ Hit]. rewrite drive_fmap.
  destruct (inner_sim R R' (k mid) (f mid) (λ _ o ps x, yield s1 o ps x) (λ so' z, y (s1, so'.2) z) ps0 x0 z0) as (ps1 & x1 & H1 & H2 & H3); try done.
  { intros [s' o] ps2 x2 z2 [_ Hgo] Hps2 HR2. by apply (Hy (s1, o)). }
  by exists ps1, x1.
Qed.

Lemma yields_nil : yields (λ X yield ps x, (ps, x)) [].
Proof. intros X Z R R' yield y ps x z _ Hps HR. by exists ps, x. Qed.

Lemma alternative_yields a l b l' : yields a l → yields b l' →
  yields (λ X yield ps x,
    let '(ps, (x, cont)) := a (X * bool)%type (continuing yield) ps (x, true) in
    if negb cont || path_halted ps then (ps, x) else b X yield ps x) (l ++ l').
Proof.
  intros Ha Hb X Z R R' yield y ps x z Hy Hps HR. rewrite drive_app.
  destruct (Ha _ _ _ _ _ _ ps (x, true) z (continuing_sim R R' yield y Hy) Hps) as (ps1 & [x1 c1] & H1 & -> & H3); [by split|].
  destruct (drive l y z) as [[] z1]; cbn [fst snd] in *; destruct H3 as [H3 ->]; [|by exists ps1, x1].
  rewrite ps_halted by done. cbn [negb orb]. by apply (Hb X Z R R').
Qed.

Lemma plain_args args : Forall plain_uri (mjoin (path_uris <$> args)) → Forall plain_path args.
Proof.
  induction args as [|a args IH]; intros H; constructor; cbn [fmap list_fmap mjoin list_join] in H; apply Forall_app in H as [H1 H2]; [done|by apply IH].
Qed.

Definition evaluated (p : Path) : Prop := ∀ subj obj, good_subject subj → good_object obj →
  Forall good_pair (eval_list reach g st p subj obj) ∧ yields (eval reach g st p subj obj) (eval_list reach g st p subj obj).

Lemma eval_sequence args : Forall plain_path args → Forall (λ p, plain_path p → evaluated p) args → evaluated (SequencePath args).
Proof.
  intros Hp Hargs subj obj Hs Ho. rewrite eval_list_seq. revert subj Hs.
  induction args as [|a rest IH]; intros subj Hs; [split; [constructor|apply yields_nil]|].
  apply Forall_cons in Hp as [Hpa Hp]. apply Forall_cons in Hargs as [Ha Hargs]. specialize (Ha Hpa).
  destruct rest as [|b rest]; [by apply Ha|]. specialize (IH Hp Hargs). destruct (Ha subj None Hs) as [Hl Hit]; [apply good_none|].
  apply (sequence_yields _ _ (λ mid, seq_list reach g st (b :: rest) (Some mid) obj) (λ mid, eval reach g st (SequencePath (b :: rest)) (Some mid) obj) Hit Hl).
  intros mid Hm Hsub. by apply IH, good_subject_some.
Qed.

Lemma eval_alternative args : Forall plain_path args → Forall (λ p, plain_path p → evaluated p) args → evaluated (AlternativePath args).
Proof.
  intros Hp Hargs subj obj Hs Ho. rewrite eval_list_alt.
  induction Hargs as [|a args Ha Hargs IH]; [split; [constructor|apply yields_nil]|]. apply Forall_cons in Hp as [Hpa Hp].
  destruct (Ha Hpa subj obj Hs Ho) as [Hl Hit]. destruct (IH Hp) as [Hl' Hit']. cbn [fmap list_fmap mjoin list_join].
  split; [by apply Forall_app_2|]. by apply (alternative_yields _ _ _ _ Hit Hit').
Qed.

Lemma eval_yields p : plain_path p → evaluated p.
Proof using Hst Hgraph Hreach.
  induction p as [a IH|args IH|args IH|p z m IH|ex|u] using path_induction; intros Hp.
  - intros subj obj Hs Ho. assert (Hinv : good_subject (obj ≫= path_subject)).
    { intros s Hs'. destruct obj as [o|]; [|done]. cbn in Hs'. apply path_subject_Some in Hs' as [-> E]. split; [by apply Ho|done]. }
    destruct (IH Hp _ subj Hinv) as [Hl Hit]; [intros s E; by apply Hs in E as [? _]|]. split.
    + apply Forall_fmap. eapply Forall_impl; [exact Hl|]. intros so [H1 H2]. by split.
    + apply (map_yields _ _ (λ so, (so.2, so.1)) Hit). intros so [H1 H2]. by split.
  - apply eval_sequence; [by apply plain_args|done].
  - apply eval_alternative; [by apply plain_args|done].
  - intros subj obj Hs Ho. cbn [eval_list eval]. specialize (IH Hp). split.
    + apply Forall_forall. intros so Hso. apply (first_by_spec pair_key ∅) in Hso.
      by apply (proj1 (Forall_forall _ _) (mul_raw_good (eval reach g st p) _ p z m Hp IH subj obj Hs Ho)).
    + by apply (eval_mul_yields (eval reach g st p) _ p z m Hp IH).
  - intros subj obj Hs Ho. set (s := list_to_set (uri_key <$> ex) : gset string).
    destruct (triples_yields subj None obj (λ t, negb (bool_decide (uri_key (Predicate t) ∈ s))) Hs Ho) as [Hl Hit].
    assert (E : eval_list reach g st (NegatedPath ex) subj obj = (λ t, (Subject t, Object t)) <$>
      filter (λ t, negb (bool_decide (uri_key (Predicate t) ∈ s)) = true) (triples_list g st subj None obj)).
    { cbn [eval_list]. f_equal. apply list_filter_iff. intros t. fold s. rewrite negb_true_iff, bool_decide_eq_false. done. }
    rewrite E. split; [|exact Hit]. apply Forall_fmap_filter. rewrite Forall_fmap, Forall_forall in Hl. exact Hl.
  - intros subj obj Hs Ho. destruct (triples_yields subj (Some u) obj (λ _, true) Hs Ho) as [Hl Hit]. rewrite filter_keep_all in Hit. by split.
Qed.

End simulation.
