(* ===== verification/PathRelation.v ===== *)
(** * Property paths: the pairs are those of the path relation

    [path_rel] is the relation SPARQL gives a path; the lists of
    PathsCorrect.v are compared with it, the depth-first traversals of [p*] and
    [p+] with transitive closures. *)

From S2P Require Import Prelude GoStrings Strconv Term TermKey TripleIndex Store MemoryStore Reachability Graph Paths PathsCorrect.
From stdpp Require Import relations options.

(** ** Depth-first traversal with a set of seen nodes *)

Section dfs.
Context {A : Type} (key : A → string) (succ : A → list A) (next : A → option A).

Fixpoint dfs (fuel : nat) (node : A) (seen : gset string) : list A * gset string :=
  match fuel with
  | O => ([], seen)
  | S fuel =>
      if bool_decide (key node ∈ seen) then ([], seen)
      else foldl (λ acc o, let '(out, seen) := acc in
             match next o with
             | Some n => let '(out', seen) := dfs fuel n seen in (out ++ o :: out', seen)
             | None => (out ++ [o], seen)
             end) ([], {[key node]} ∪ seen) (succ node)
  end.

Definition dfs_step (fuel : nat) (acc : list A * gset string) (o : A) : list A * gset string :=
  let '(out, seen) := acc in
  match next o with
  | Some n => let '(out', seen) := dfs fuel n seen in (out ++ o :: out', seen)
  | None => (out ++ [o], seen)
  end.

Lemma dfs_S fuel node seen :
  dfs (S fuel) node seen = if bool_decide (key node ∈ seen) then ([], seen) else foldl (dfs_step fuel) ([], {[key node]} ∪ seen) (succ node).
Proof. done. Qed.

(** The nodes, which their keys identify. *)
Context (P : A → Prop) (N : gset string).
Context (HN : ∀ n, P n → key n ∈ N) (Hinj : ∀ n n', P n → P n' → key n = key n' → n = n').
Context (Hsucc : ∀ n o, P n → is_Some (next n) → o ∈ succ n → P o) (Hnext : ∀ n n', next n = Some n' → n' = n).

(** An edge of the traversal. *)
Definition dfs_edge (k k' : string) : Prop :=
  ∃ n o, P n ∧ is_Some (next n) ∧ key n = k ∧ o ∈ succ n ∧ key o = k'.

(** All that leaves a seen node has been met. *)
Definition met (out : list A) (seen : gset string) (o : A) : Prop :=
  key o ∈ key <$> out ∧ (is_Some (next o) → key o ∈ seen).
Definition closed (out : list A) (seen0 seen : gset string) : Prop :=
  ∀ n o, P n → key n ∈ seen → key n ∉ seen0 → o ∈ succ n → met out seen o.
Definition from_edges (ks : list string) (o : A) : Prop :=
  key o ∈ ks ∨ ∃ k, k ∈ ks ∧ tc dfs_edge k (key o).

Definition dfs_ok (fuel : nat) : Prop := ∀ node seen, P node → is_Some (next node) → size (N ∖ seen) < fuel →
  let '(out, seen') := dfs fuel node seen in
  seen ⊆ seen' ∧ key node ∈ seen' ∧ closed out seen seen' ∧ ∀ o, o ∈ out → tc dfs_edge (key node) (key o).

Lemma met_mono out out' seen seen' o : met out seen o → out ⊆ out' → seen ⊆ seen' → met out' seen' o.
Proof.
  intros [H1 H2] Ho Hs. split; [|intros H; by apply Hs, H2]. apply list_elem_of_fmap in H1 as (a & -> & Ha).
  by apply list_elem_of_fmap_2, Ho.
Qed.

Lemma dfs_fold_ok fuel : dfs_ok fuel → ∀ l out0 seen0, (∀ o, o ∈ l → P o) → size (N ∖ seen0) < fuel →
  let '(out, seen) := foldl (dfs_step fuel) (out0, seen0) l in
  seen0 ⊆ seen ∧ ∃ out', out = out0 ++ out' ∧ (∀ o, o ∈ l → met out' seen o) ∧ closed out' seen0 seen ∧
    ∀ o, o ∈ out' → from_edges (key <$> l) o.
Proof using HN Hinj Hsucc Hnext.
  intros IH l. induction l as [|o l IHl]; intros out0 seen0 Hl Hf.
  { cbn [foldl]. split; [done|]. exists []. rewrite app_nil_r. split; [done|].
    split; [by intros o ?%elem_of_nil|]. split; [by intros n o _ ? []|by intros o ?%elem_of_nil]. }
  cbn [foldl]. assert (Hstep : ∃ o1 s1, dfs_step fuel (out0, seen0) o = (out0 ++ o1, s1) ∧ seen0 ⊆ s1 ∧ met o1 s1 o ∧ closed o1 seen0 s1 ∧
    ∀ a, a ∈ o1 → from_edges [key o] a).
  { unfold dfs_step. destruct (next o) as [n|] eqn:En.
    - pose proof (Hnext _ _ En) as ->. specialize (IH o seen0 (Hl o ltac:(set_solver)) ltac:(by rewrite En) Hf).
      destruct (dfs fuel o seen0) as [out' s1]. destruct IH as (H1 & H2 & H3 & H4). exists (o :: out'), s1.
      split; [done|]. split; [done|]. split; [by split; [set_solver|]|]. split.
      + intros n' o' Hn' Hk Hk' Ho'. eapply met_mono; [by apply (H3 n')|set_solver|done].
      + intros a [->|Ha]%elem_of_cons; [left; set_solver|right]. exists (key o). split; [set_solver|by apply H4].
    - exists [o], seen0. split; [done|]. split; [done|]. split.
      + split; [set_solver|]. rewrite En. by intros [? [=]].
      + split; [by intros n' o' _ ? []|]. intros a ->%list_elem_of_singleton. left. set_solver. }
  destruct Hstep as (o1 & s1 & -> & Hs1 & Hm1 & Hc1 & Hf1).
  assert (Hf' : size (N ∖ s1) < fuel) by (eapply Nat.le_lt_trans; [apply subseteq_size|exact Hf]; set_solver).
  specialize (IHl (out0 ++ o1) s1 (λ a Ha, Hl a ltac:(set_solver)) Hf').
  destruct (foldl _ _ l) as [out s2]. destruct IHl as (Hs2 & o2 & -> & Hm2 & Hc2 & Hf2). split; [set_solver|].
  exists (o1 ++ o2). split; [by rewrite <- app_assoc|]. split; [|split].
  - intros a [->|Ha]%elem_of_cons; [by eapply met_mono; [exact Hm1|set_solver|]|]. eapply met_mono; [by apply Hm2|set_solver|done].
  - intros n a Hn Hk Hk' Ha. destruct (decide (key n ∈ s1)) as [Hk1|Hk1].
    + eapply met_mono; [by apply (Hc1 n)|set_solver|done].
    + eapply met_mono; [by apply (Hc2 n)|set_solver|done].
  - intros a [Ha|Ha]%elem_of_app.
    + destruct (Hf1 a Ha) as [Hk|(k & Hk & Ht)]; [left|right; exists k]; set_solver.
    + destruct (Hf2 a Ha) as [Hk|(k & Hk & Ht)]; [left|right; exists k]; set_solver.
Qed.

Lemma dfs_all_ok fuel : dfs_ok fuel.
Proof using HN Hinj Hsucc Hnext.
  induction fuel as [|fuel IH]; intros node seen Hn Hsome Hf; [lia|]. rewrite dfs_S. case_bool_decide as Hs.
  { split; [done|]. split; [done|]. split; [intros n o Hn' Hk Hk'; by destruct Hk'|by intros o ?%elem_of_nil]. }
  assert (Hl : ∀ o, o ∈ succ node → P o) by (intros o Ho; by eapply Hsucc).
  assert (Hf' : size (N ∖ ({[key node]} ∪ seen)) < fuel).
  { assert (size (N ∖ ({[key node]} ∪ seen)) < size (N ∖ seen)); [|lia]. apply subset_size. specialize (HN _ Hn). set_solver. }
  pose proof (dfs_fold_ok fuel IH (succ node) [] ({[key node]} ∪ seen) Hl Hf') as H.
  destruct (foldl _ _ _) as [out s]. destruct H as (H1 & out' & -> & Hm & Hc & Hfr). cbn [app]. split; [set_solver|]. split; [set_solver|].
  assert (He : ∀ k, k ∈ key <$> succ node → dfs_edge (key node) k).
  { intros k (o & -> & Ho)%list_elem_of_fmap. by exists node, o. }
  split.
  - intros n o Hn' Hk Hk' Ho. destruct (decide (key n = key node)) as [E|E].
    + apply Hinj in E as ->; [|done|done]. by apply Hm.
    + apply (Hc n); [done|done|set_solver|done].
  - intros o Ho. destruct (Hfr o Ho) as [Hk|(k & Hk & Ht)]; [by apply tc_once, He|]. eapply tc_l; [by apply He|done].
Qed.

(** The traversal meets exactly what its edges reach. *)
Lemma dfs_reaches fuel node : P node → is_Some (next node) → size N < fuel →
  ∀ k, k ∈ key <$> (dfs fuel node ∅).1 ↔ tc dfs_edge (key node) k.
Proof using HN Hinj Hsucc Hnext.
  intros Hn Hsome Hf. assert (Hf' : size (N ∖ ∅) < fuel) by (by rewrite difference_empty_L). pose proof (dfs_all_ok fuel node ∅ Hn Hsome Hf') as H.
  destruct (dfs fuel node ∅) as [out seen]. cbn [fst]. destruct H as (_ & Hk & Hc & Ht). intros k. split.
  { intros (o & -> & Ho)%list_elem_of_fmap. by apply Ht. }
  assert (Hstep : ∀ k1 k2, dfs_edge k1 k2 → k1 ∈ seen → k2 ∈ key <$> out ∧ (∀ n, P n → is_Some (next n) → key n = k2 → k2 ∈ seen)).
  { intros k1 k2 (n & o & HPn & Hns & <- & Ho & <-) Hs. destruct (Hc n o HPn Hs ltac:(set_solver) Ho) as [H1 H2]. split; [done|].
    intros n' Hn' Hs' E. apply Hinj in E as ->; [by apply H2|done|exact (Hsucc n o HPn Hns Ho)]. }
  assert (Hgo : ∀ k1 k2, tc dfs_edge k1 k2 → k1 ∈ seen → k2 ∈ key <$> out).
  { intros k1 k2 Htc. induction Htc as [k1 k2 He|k1 k2 k3 He Htc IH]; intros Hs; [by apply (Hstep k1)|]. apply IH.
    destruct (Hstep k1 k2 He Hs) as [_ H2]. destruct Htc as [? ? (n & o & ? & ? & ? & _)|? ? ? (n & o & ? & ? & ? & _)]; by apply (H2 n). }
  intros Htc. by apply (Hgo (key node)).
Qed.
End dfs.

Lemma fwd_list_dfs evl fuel node seen :
  fwd_list evl true fuel node seen = dfs TermKey (λ n, (evl (Some n) None).*2) path_subject fuel node seen.
Proof.
  revert node seen. induction fuel as [|fuel IH]; intros node seen; [done|]. rewrite fwd_list_S, dfs_S. case_bool_decide; [done|].
  generalize ([] : list Term, {[TermKey node]} ∪ seen). induction (evl (Some node) None) as [|so l IHl]; intros [out s]; [done|].
  cbn [foldl fmap list_fmap]. rewrite <- IHl. f_equal. unfold fwd_step, dfs_step. destruct (path_subject so.2); [by rewrite IH|done].
Qed.

Lemma bwd_list_dfs evl fuel node seen :
  bwd_list evl true fuel node seen = dfs TermKey (λ n, (evl None (Some n)).*1) Some fuel node seen.
Proof.
  revert node seen. induction fuel as [|fuel IH]; intros node seen; [done|]. rewrite bwd_list_S, dfs_S. case_bool_decide; [done|].
  generalize ([] : list Term, {[TermKey node]} ∪ seen). induction (evl None (Some node)) as [|so l IHl]; intros [out s]; [done|].
  cbn [foldl fmap list_fmap]. rewrite <- IHl. f_equal. unfold bwd_step, dfs_step. by rewrite IH.
Qed.

Lemma foldl_snoc {A B} (f : A → B) (acc : gset string) l out :
  foldl (λ o a, let '(out, seen) := o in (out ++ [f a], seen)) (out, acc) l = (out ++ (f <$> l), acc).
Proof.
  revert out. induction l as [|a l IH]; intros out; cbn [foldl fmap list_fmap]; [by rewrite app_nil_r|]. rewrite IH. by rewrite <- app_assoc.
Qed.

Lemma fwd_list_once evl fuel node : (fwd_list evl false (S fuel) node ∅).1 = (evl (Some node) None).*2.
Proof. rewrite fwd_list_S. rewrite bool_decide_eq_false_2 by set_solver. unfold fwd_step. by rewrite foldl_snoc. Qed.
Lemma bwd_list_once evl fuel node : (bwd_list evl false (S fuel) node ∅).1 = (evl None (Some node)).*1.
Proof. rewrite bwd_list_S. rewrite bool_decide_eq_false_2 by set_solver. unfold bwd_step. by rewrite foldl_snoc. Qed.

(** ** The relation of a path *)

Section relation.
Context (m : gcontent).

(** On term keys; a path of length zero joins a node of the graph to itself. *)
Fixpoint path_rel (p : Path) (k k' : string) {struct p} : Prop :=
  match p with
  | InvPath a => path_rel a k' k
  | SequencePath args =>
      (fix go (args : list Path) (k : string) {struct args} : Prop :=
         match args with
         | [] => False
         | [a] => path_rel a k k'
         | a :: rest => ∃ mid, path_rel a k mid ∧ go rest mid
         end) args k
  | AlternativePath args => (fix go (args : list Path) : Prop := match args with [] => False | a :: args => path_rel a k k' ∨ go args end) args
  | MulPath p zero more => (zero = true ∧ k = k' ∧ is_node m k) ∨ (if more then tc (path_rel p) k k' else path_rel p k k')
  | NegatedPath excluded => ∃ t, t ∈ graph_triples m ∧ keyAt t posS = k ∧ keyAt t posO = k' ∧ keyAt t posP ∉ uri_key <$> excluded
  | URIRefPath u => ∃ t, t ∈ graph_triples m ∧ keyAt t posS = k ∧ keyAt t posO = k' ∧ keyAt t posP = uri_key u
  end.

Fixpoint seq_rel (args : list Path) (k k' : string) {struct args} : Prop :=
  match args with
  | [] => False
  | [a] => path_rel a k k'
  | a :: rest => ∃ mid, path_rel a k mid ∧ seq_rel rest mid k'
  end.

Lemma path_rel_seq args k k' : path_rel (SequencePath args) k k' ↔ seq_rel args k k'.
Proof.
  cbn [path_rel]. revert k. induction args as [|a args IH]; intros k; [done|]. cbn [seq_rel]. destruct args as [|b args]; [done|].
  f_equiv. intros mid. by rewrite IH.
Qed.

Lemma path_rel_alt args k k' : path_rel (AlternativePath args) k k' ↔ ∃ a, a ∈ args ∧ path_rel a k k'.
Proof.
  cbn [path_rel]. induction args as [|a args IH]; [set_solver|]. rewrite IH. setoid_rewrite elem_of_cons. naive_solver.
Qed.

(** A path that may have length zero. *)
Fixpoint nullable (p : Path) : bool :=
  match p with
  | InvPath a => nullable a
  | SequencePath args => forallb nullable args
  | AlternativePath args => existsb nullable args
  | MulPath p zero _ => zero || nullable p
  | _ => false
  end.

(** Paths that are evaluated as they should be on literals too: no step leaves a
    literal, neither backwards nor with length zero. *)
Fixpoint literal_safe (p : Path) : bool :=
  match p with
  | InvPath _ => false
  | SequencePath args =>
      (fix go (args : list Path) : bool :=
         match args with
         | [] => true
         | a :: rest => literal_safe a && match rest with [] => true | _ => negb (forallb nullable rest) end && go rest
         end) args
  | AlternativePath args => forallb literal_safe args
  | MulPath p zero _ => literal_safe p && (zero || negb (nullable p))
  | _ => true
  end.

Fixpoint seq_safe (args : list Path) : bool :=
  match args with
  | [] => true
  | a :: rest => literal_safe a && match rest with [] => true | _ => negb (forallb nullable rest) end && seq_safe rest
  end.
Lemma literal_safe_seq args : literal_safe (SequencePath args) = seq_safe args.
Proof. cbn [literal_safe]. induction args as [|a args IH]; [done|]. cbn [seq_safe]. by rewrite IH. Qed.
End relation.

(** ** Lists of pairs *)

Definition has (l : list (Term * Term)) (k k' : string) : Prop := ∃ so, so ∈ l ∧ TermKey so.1 = k ∧ TermKey so.2 = k'.
Definition bound_to (t : option Term) (k : string) : Prop := match t with None => True | Some t => k = TermKey t end.

Lemma has_app l l' k k' : has (l ++ l') k k' ↔ has l k k' ∨ has l' k k'.
Proof. unfold has. setoid_rewrite elem_of_app. naive_solver. Qed.
Lemma has_nil k k' : has [] k k' ↔ False.
Proof. unfold has. setoid_rewrite elem_of_nil. naive_solver. Qed.
Lemma has_one s o k k' : has [(s, o)] k k' ↔ TermKey s = k ∧ TermKey o = k'.
Proof. unfold has. setoid_rewrite list_elem_of_singleton. naive_solver. Qed.
Lemma has_fmap {A} (f : A → Term * Term) l k k' : has (f <$> l) k k' ↔ ∃ a, a ∈ l ∧ TermKey (f a).1 = k ∧ TermKey (f a).2 = k'.
Proof. unfold has. setoid_rewrite list_elem_of_fmap. naive_solver. Qed.
Lemma has_join {A} (f : A → list (Term * Term)) l k k' : has (mjoin (f <$> l)) k k' ↔ ∃ a, a ∈ l ∧ has (f a) k k'.
Proof. unfold has. setoid_rewrite list_elem_of_join. setoid_rewrite list_elem_of_fmap. naive_solver. Qed.

Lemma matches_obj_bound obj o : matches_obj obj o = true ↔ bound_to obj (TermKey o).
Proof. destruct obj as [t|]; [apply bool_decide_eq_true|done]. Qed.

Lemma has_from s obj l k k' :
  has ((λ o, (s, o)) <$> filter (λ o, matches_obj obj o = true) l) k k' ↔ TermKey s = k ∧ k' ∈ TermKey <$> l ∧ bound_to obj k'.
Proof.
  rewrite has_fmap. cbn [fst snd]. setoid_rewrite list_elem_of_filter. setoid_rewrite list_elem_of_fmap. setoid_rewrite matches_obj_bound. naive_solver.
Qed.
Lemma has_from_all s l k k' : has ((λ o, (s, o)) <$> l) k k' ↔ TermKey s = k ∧ k' ∈ TermKey <$> l.
Proof. rewrite has_fmap. cbn [fst snd]. setoid_rewrite list_elem_of_fmap. naive_solver. Qed.
Lemma has_to o l k k' : has ((λ s, (s, o)) <$> l) k k' ↔ k ∈ TermKey <$> l ∧ TermKey o = k'.
Proof. rewrite has_fmap. cbn [fst snd]. setoid_rewrite list_elem_of_fmap. naive_solver. Qed.

Section semantics.
Context {St : Type} {store_St : Store St} {laws_St : StoreLaws St} {range_St : GoRange}.
Context (reach : option (Context → ReachabilityQuery → St → result (list Term))).
Context (g : Graph_) (st : St) (Hst : sinv st).
Local Abbreviation m := (graph_of st g).
Local Abbreviation good := (good g st).
Local Abbreviation good_pair := (good_pair g st).

(** ** Flat paths are what the backend is asked for *)

Definition flat_edge (spec : flatSpec) (k k' : string) : Prop :=
  ∃ t, t ∈ graph_triples m ∧
    (if negated spec then keyAt t posP ∉ uri_key <$> preds spec else keyAt t posP ∈ uri_key <$> preds spec) ∧
    keyAt t (if inverse spec then posO else posS) = k ∧ keyAt t (if inverse spec then posS else posO) = k'.

Lemma flatten_preds p spec : flatten p = Some spec → negated spec = false → preds spec ≠ [].
Proof.
  revert spec. induction p as [a IH|args IH|args IH|p z mo IH|ex|u] using path_induction; intros spec E Hn; cbn [flatten] in *; try done.
  - destruct (flatten a) as [inner|]; [|done]. injection E as <-. by apply (IH inner).
  - destruct IH as [|a args Ha Hargs]; [done|]. destruct (flatten a) as [alt|]; [|done]. cbn in E. destruct (negated alt) eqn:En; [done|].
    specialize (Ha alt eq_refl En). revert E Ha. generalize (preds alt) as ps, (inverse alt) as inv. clear En Hn alt.
    induction Hargs as [|b args _ _ IHargs]; intros ps inv E Ha; [by injection E as <-|]. destruct (flatten b) as [alt|]; [|done]. cbn in E.
    destruct (negated alt); [done|]. destruct (negb _); [done|]. apply IHargs in E; [done|]. by destruct ps.
  - by injection E as <-.
  - by injection E as <-.
Qed.

Lemma flat_edge_app ps ps' inv k k' :
  flat_edge (MkFlat (ps ++ ps') inv false) k k' ↔ flat_edge (MkFlat ps inv false) k k' ∨ flat_edge (MkFlat ps' inv false) k k'.
Proof. unfold flat_edge. cbn [negated preds inverse]. setoid_rewrite fmap_app. setoid_rewrite elem_of_app. naive_solver. Qed.

Lemma flat_edge_inverse spec k k' : flat_edge (MkFlat (preds spec) (negb (inverse spec)) (negated spec)) k k' ↔ flat_edge spec k' k.
Proof. unfold flat_edge. cbn [negated preds inverse]. destruct (inverse spec); cbn [negb]; naive_solver. Qed.

Lemma flatten_rel p : ∀ spec, flatten p = Some spec → ∀ k k', path_rel m p k k' ↔ flat_edge spec k k'.
Proof.
  induction p as [a IH|args IH|args IH|p z mo IH|ex|u] using path_induction; intros spec E k k'; [| done | | done| |].
  - cbn [flatten] in E. destruct (flatten a) as [inner|]; [|done]. injection E as <-. rewrite flat_edge_inverse. by apply IH.
  - rewrite path_rel_alt. destruct IH as [|a args Ha Hargs]; [done|]. cbn [flatten] in E. destruct (flatten a) as [alt|]; [|done]. cbn in E.
    destruct (negated alt) eqn:En; [done|]. destruct alt as [ps inv n]. cbn in *. subst n.
    transitivity (flat_edge (MkFlat ps inv false) k k' ∨ ∃ a, a ∈ args ∧ path_rel m a k k').
    { rewrite <- (Ha _ eq_refl). setoid_rewrite elem_of_cons. naive_solver. }
    clear Ha a. revert ps E. induction Hargs as [|b args Hb Hargs IHargs]; intros ps E; [injection E as <-|].
    { split; [by intros [H|(a & Ha%elem_of_nil & _)]|by left]. }
    destruct (flatten b) as [alt|]; [|done]. cbn in E. destruct alt as [ps' inv' n]. cbn in *. destruct n; [done|].
    destruct (Bool.eqb inv' inv) eqn:Ei; [|done]. apply Bool.eqb_prop in Ei as ->. cbn in E. rewrite <- (IHargs _ E), flat_edge_app.
    rewrite <- (Hb _ eq_refl). setoid_rewrite elem_of_cons. naive_solver.
  - cbn [flatten] in E. injection E as <-. unfold flat_edge. cbn. naive_solver.
  - cbn [flatten] in E. injection E as <-. unfold flat_edge. cbn [path_rel negated preds inverse fmap list_fmap].
    setoid_rewrite list_elem_of_singleton. naive_solver.
Qed.

(** The query of the backend follows the edges of the path, from either end. *)
Lemma rq_matches_flat p spec start inv pk : flatten p = Some spec →
  rq_matches (store_query g spec start inv) pk = true ↔ (if negated spec then pk ∉ uri_key <$> preds spec else pk ∈ uri_key <$> preds spec).
Proof using Hst.
  intros E. unfold rq_matches, store_query, allowed. cbn [Predicates Negated]. case_decide as Ee.
  - assert (En : preds spec = []).
    { destruct (preds spec) as [|u us]; [done|]. exfalso.
      assert (Hu : uri_key u ∈ (list_to_set (uri_key <$> u :: us) : gset string)) by (apply elem_of_list_to_set, elem_of_cons; by left).
      rewrite Ee in Hu. set_solver. }
    rewrite En. destruct (negated spec) eqn:Eneg; [set_solver|]. by destruct (flatten_preds p spec E Eneg).
  - destruct (negated spec).
    + by rewrite negb_true_iff, bool_decide_eq_false, elem_of_list_to_set.
    + by rewrite bool_decide_eq_true, elem_of_list_to_set.
Qed.

Lemma store_edge_fwd p spec start k k' : flatten p = Some spec → edge (store_query g spec start (inverse spec)) m k k' ↔ path_rel m p k k'.
Proof using Hst.
  intros E. rewrite (flatten_rel p spec E). unfold edge, flat_edge. apply exist_proper. intros t. rewrite (rq_matches_flat p) by done.
  unfold far_end. cbn [Inverse store_query]. by destruct (inverse spec).
Qed.
Lemma store_edge_bwd p spec start k k' : flatten p = Some spec → edge (store_query g spec start (negb (inverse spec))) m k k' ↔ path_rel m p k' k.
Proof using Hst.
  intros E. rewrite (flatten_rel p spec E). unfold edge, flat_edge. apply exist_proper. intros t. rewrite (rq_matches_flat p) by done.
  unfold far_end. cbn [Inverse store_query]. destruct (inverse spec); cbn [negb keyAt]; naive_solver.
Qed.

Lemma tc_proper {A} (R R' : A → A → Prop) x y : (∀ x y, R x y → R' x y) → tc R x y → tc R' x y.
Proof. intros HR. induction 1; [by apply tc_once, HR|]. eapply tc_l; [by apply HR|done]. Qed.
Lemma tc_iff {A} (R R' : A → A → Prop) x y : (∀ x y, R x y ↔ R' x y) → tc R x y ↔ tc R' x y.
Proof. intros HR. split; apply tc_proper; intros; by apply HR. Qed.
Lemma tc_flip_iff {A} (R : A → A → Prop) x y : tc (flip R) x y ↔ tc R y x.
Proof.
  assert (H : ∀ (R : A → A → Prop) x y, tc (flip R) x y → tc R y x).
  { intros R' x' y'. induction 1; [by apply tc_once|]. by eapply tc_r. }
  split; [apply H|]. intros Ht. by apply H.
Qed.

Lemma key_bound (t : option Term) k : good_object g st t → key_matches (OptTermKey t) k = true ↔ bound_to t k.
Proof.
  intros Ht. rewrite key_matches_iff. destruct t as [t|]; cbn [OptTermKey bound_to]; [|done]. destruct (Ht t eq_refl) as [W _].
  rewrite bound_key by done. naive_solver.
Qed.

Lemma triples_key sub u obj t : good_object g st sub → good_object g st obj → match u with Some u => uri_ok u | None => True end →
  t ∈ triples_list g st sub u obj ↔ t ∈ graph_triples m ∧ bound_to sub (keyAt t posS) ∧
    match u with Some u => keyAt t posP = uri_key u | None => True end ∧ bound_to obj (keyAt t posO).
Proof using Hst.
  intros Hs Ho Hu. destruct (g_triples_ok st g sub u obj Hst) as (l & El & _ & Hl). unfold triples_list. rewrite El, oks_fmap, Hl.
  rewrite matching_elem by (by apply graph_of_keyed). unfold pattern_matches. cbn [pat_Subject pat_Predicate pat_Object].
  rewrite !andb_true_iff, !key_bound, key_matches_iff by done. destruct u as [u|]; cbn [OptPredKey]; [|naive_solver].
  rewrite (bound_key (TURIRef u) Hu). naive_solver.
Qed.

(** ** Literals *)

Context (Hgraph : ∀ t, t ∈ graph_triples m → good (Subject t) ∧ isSubject (Subject t) = true ∧ uri_ok (Predicate t) ∧ good (Object t)).
Context (Hreach : ∀ f q t, reach = Some f → askable g st q → Start q = Some t → ∀ r, f None q st = Ok r →
  Forall good r ∧ ∀ k, k ∈ TermKey <$> r ↔ tc (edge q m) (TermKey t) k).

Lemma good_inj n n' : good n → good n' → TermKey n = TermKey n' → n = n'.
Proof. intros (H1 & _) (H2 & _). by apply TermKey_inj. Qed.

Lemma node_term k : is_node m k → ∃ n, good n ∧ TermKey n = k.
Proof using Hgraph. intros (t & (H1 & _ & _ & H2)%Hgraph & [<-|<-]); [by exists (Subject t)|by exists (Object t)]. Qed.
Lemma good_node n : good n → is_node m (TermKey n).
Proof. by intros (_ & H & _). Qed.

Lemma tc_both {A} (R : A → A → Prop) (P : A → Prop) x y : (∀ x y, R x y → P x ∧ P y) → tc R x y → P x ∧ P y.
Proof. intros HR. induction 1 as [x y Hxy|x y z Hxy _ IH]; [by apply HR|]. split; [by apply HR in Hxy as [? _]|by apply IH]. Qed.

Lemma tc_ends {A} (R : A → A → Prop) x z : tc R x z → (∃ y, R x y) ∧ (∃ y, R y z).
Proof. induction 1 as [x z H|x y z H _ [_ IH]]; split; eauto. Qed.

Lemma path_rel_nodes p : ∀ k k', path_rel m p k k' → is_node m k ∧ is_node m k'.
Proof.
  induction p as [a IH|args IH|args IH|p z mo IH|ex|u] using path_induction; intros k k'.
  - cbn [path_rel]. intros H. by apply IH in H as [? ?].
  - rewrite path_rel_seq. revert k. induction IH as [|a args Ha Hargs IH]; intros k; [done|]. cbn [seq_rel]. destruct args as [|b args]; [by apply Ha|].
    intros (mid & H1 & H2). apply Ha in H1 as [? _]. apply IH in H2 as [_ ?]. done.
  - rewrite path_rel_alt. intros (a & Ha & H). rewrite Forall_forall in IH. by apply (IH a Ha).
  - cbn [path_rel]. intros [(_ & <- & H)|H]; [done|]. destruct mo; [by apply (tc_both _ _ _ _ IH)|by apply IH].
  - intros (t & Ht & <- & <- & _). split; exists t; eauto.
  - intros (t & Ht & <- & <- & _). split; exists t; eauto.
Qed.

(** Only paths that may have length zero leave a literal, and stay there. *)
Definition lit (k : string) : Prop := ∃ o, good o ∧ isSubject o = false ∧ TermKey o = k.

Lemma subject_not_lit t k : t ∈ graph_triples m → keyAt t posS = k → lit k → False.
Proof using Hgraph.
  intros (Hs & H1 & _)%Hgraph <- (o & Ho & H2 & E). apply good_inj in E as ->; [congruence|done|done].
Qed.

Lemma tc_stop (R : string → string → Prop) (P : string → Prop) k k' : (∀ k k', R k k' → P k → k = k') → tc R k k' → P k → k = k'.
Proof. intros HR. induction 1 as [x y H|x y z H _ IH]; intros Hx; [by apply HR|]. pose proof (HR x y H Hx) as ->. by apply IH. Qed.

Lemma literal_stop p : literal_safe p = true → ∀ k k', path_rel m p k k' → lit k → k = k' ∧ nullable p = true.
Proof using Hgraph.
  induction p as [a IH|args IH|args IH|p z mo IH|ex|u] using path_induction; intros Hs k k'.
  - done.
  - rewrite literal_safe_seq in Hs. rewrite path_rel_seq. revert k. induction IH as [|a args Ha Hargs IH]; intros k; [done|]. cbn [seq_rel seq_safe nullable forallb] in *.
    apply andb_true_iff in Hs as [[Hsa Hn]%andb_true_iff Hs]. destruct args as [|b args]; [cbn; rewrite andb_true_r; by apply Ha|].
    intros (mid & H1 & H2) Hk. destruct (Ha Hsa k mid H1 Hk) as [<- Hna]. destruct (IH Hs k H2 Hk) as [_ Hf]. cbn [nullable forallb] in *. by rewrite Hf in Hn.
  - rewrite path_rel_alt. intros (a & Ha & H) Hk. cbn [literal_safe nullable] in *. rewrite Forall_forall in IH. rewrite forallb_forall in Hs.
    destruct (IH a Ha (Hs a (proj1 (list_elem_of_In _ _) Ha)) k k' H Hk) as [<- Hn]. split; [done|]. apply existsb_exists. exists a. by rewrite <- list_elem_of_In.
  - cbn [path_rel literal_safe nullable] in *. apply andb_true_iff in Hs as [Hs _]. intros [(-> & <- & _)|H] Hk; [done|]. destruct mo.
    + split; [by apply (tc_stop _ lit k k' (λ k k' H Hk, proj1 (IH Hs k k' H Hk)) H)|]. destruct (tc_ends _ _ _ H) as [(y & Hy) _].
      destruct (IH Hs k y Hy Hk) as [_ ->]. by rewrite orb_true_r.
    + destruct (IH Hs k k' H Hk) as [<- ->]. by rewrite orb_true_r.
  - intros (t & Ht & E & _) Hk. by destruct (subject_not_lit t k Ht E Hk).
  - intros (t & Ht & E & _) Hk. by destruct (subject_not_lit t k Ht E Hk).
Qed.

(** ** Lists of pairs and the relation *)

Definition safe (p : Path) : Prop := literal_safe p = true ∨ ∀ t, good t → isSubject t = true.

(** The list of a path, between bound ends, is the relation. *)
Definition right (p : Path) : Prop := ∀ subj obj, good_subject g st subj → good_object g st obj →
  ∀ k k', has (eval_list reach g st p subj obj) k k' ↔ path_rel m p k k' ∧ bound_to subj k ∧ bound_to obj k'.


Lemma safe_stop p : safe p → ∀ k k', path_rel m p k k' → lit k → k = k' ∧ nullable p = true.
Proof using Hgraph.
  intros [Hp|Hall] k k' H Hk; [by apply (literal_stop p Hp)|]. destruct Hk as (o & Ho & E & _). by rewrite Hall in E.
Qed.

Lemma lit_dec k : is_node m k → (∃ n, good n ∧ isSubject n = true ∧ TermKey n = k) ∨ lit k.
Proof using Hgraph.
  intros (n & Hn & <-)%node_term. destruct (isSubject n) eqn:E; [left; by exists n|right; by exists n].
Qed.

(** The pairs of a repetition are identified by their joined keys. *)
Lemma good_shape t : good t → TermKey t = String (key_tag t) (String ":" (key_body t)).
Proof. intros [H _]. by apply TermKey_shape. Qed.

Lemma pipe_split a b a' b' : has_byte "|" a = false → a +:+ "|" +:+ b = a' +:+ "|" +:+ b' →
  (has_byte "|" a' = false → a = a' ∧ b = b').
Proof.
  intros Ha E Ha'. pose proof (CutByte_app a "|" b Ha) as H1. change (String "|" b) with ("|" +:+ b) in H1. rewrite E in H1.
  change ("|" +:+ b') with (String "|" b') in H1. rewrite CutByte_app in H1 by done. by injection H1.
Qed.

(** A pair whose first term is a literal is that literal twice. *)
Definition proper_pair (so : Term * Term) : Prop := good_pair so ∧ (isSubject so.1 = true ∨ so.1 = so.2).

Lemma subject_tag t : good t → isSubject t = true → key_tag t ≠ "L"%char.
Proof. intros _. by destruct t. Qed.

Lemma proper_pair_key_inj so so' : proper_pair so → proper_pair so' → pair_key so = pair_key so' → so = so'.
Proof.
  destruct so as [s o], so' as [s' o']. intros [[Hs Ho] Hd] [[Hs' Ho'] Hd'] E. cbn [fst snd] in *. unfold pair_key in E. cbn [fst snd] in E.
  assert (Hk : TermKey s = TermKey s' ∧ TermKey o = TermKey o').
  { destruct (isSubject s) eqn:Es, (isSubject s') eqn:Es'.
    - apply pipe_split in E; [done|by apply Hs|by apply Hs'].
    - pose proof Hs as Gs. pose proof Hs' as Gs'. rewrite (good_shape s Hs), (good_shape s' Hs') in E. injection E as Et _.
      destruct s, s'; done.
    - pose proof Hs as Gs. pose proof Hs' as Gs'. rewrite (good_shape s Hs), (good_shape s' Hs') in E. injection E as Et _.
      destruct s, s'; done.
    - destruct Hd as [Hd|<-]; [done|]. destruct Hd' as [Hd'|<-]; [done|].
      assert (El : len (TermKey s) = len (TermKey s')).
      { apply (f_equal len) in E. rewrite !len_app in E. lia. }
      apply app_inv_len in E as [E _]; [|done]. done. }
  destruct Hk as [E1 E2]. apply good_inj in E1 as ->; [|done|done]. by apply good_inj in E2 as ->.
Qed.

Lemma has_first_by l k k' : Forall proper_pair l → has (first_by pair_key ∅ l) k k' ↔ has l k k'.
Proof.
  intros Hl. destruct (first_by_spec pair_key ∅ l) as (_ & H2 & H3). rewrite Forall_forall in Hl. split; intros (so & Hso & E1 & E2).
  - exists so. by split; [apply H3|].
  - assert (Hin : pair_key so ∈ pair_key <$> first_by pair_key ∅ l) by (apply H2; split; [by apply list_elem_of_fmap_2|apply not_elem_of_empty]).
    apply list_elem_of_fmap in Hin as (so' & E & Hso'). apply proper_pair_key_inj in E as ->; [by exists so'|by apply Hl|by apply Hl, H3].
Qed.

(** ** Repetitions *)

Section repetition.
Context (p : Path) (Hp : plain_path p) (Hsafe : safe p) (Hright : right p).
Local Abbreviation evl := (eval_list reach g st p).

Definition rel_of (more : bool) (k k' : string) : Prop := if more then tc (path_rel m p) k k' else path_rel m p k k'.

Lemma evl_good sub obj : good_subject g st sub → good_object g st obj → Forall good_pair (evl sub obj).
Proof using Hst Hgraph Hreach Hp. intros Hs Ho. by apply (eval_yields reach g st Hst Hgraph Hreach p Hp). Qed.

Definition node_keys : gset string := keys_of ((Subject <$> triples_list g st None None None) ++ (Object <$> triples_list g st None None None)).

Lemma node_keys_ok : size node_keys < path_fuel g st ∧ ∀ n, good n → TermKey n ∈ node_keys.
Proof using Hst.
  destruct (g_triples_ok st g None None None Hst) as (l & El & _ & Hl). rewrite matching_all in Hl. unfold node_keys, triples_list, path_fuel.
  rewrite El, oks_fmap, length_fmap. split.
  - match goal with |- size (keys_of ?l) < _ => pose proof (keys_of_size l) as H end. rewrite length_app, !length_fmap in H. lia.
  - intros n (_ & (t & Ht & Hk) & _). rewrite <- Hl in Ht. apply elem_of_list_to_set, list_elem_of_fmap.
    destruct Hk as [Hk|Hk]; cbn [keyAt] in Hk.
    + exists (Subject t). split; [done|]. apply elem_of_app. left. by apply list_elem_of_fmap_2.
    + exists (Object t). split; [done|]. apply elem_of_app. right. by apply list_elem_of_fmap_2.
Qed.

Lemma fwd_pairs_rel n o : good n → isSubject n = true → o ∈ (evl (Some n) None).*2 →
  good o ∧ path_rel m p (TermKey n) (TermKey o).
Proof using Hst Hgraph Hreach Hp Hright.
  intros Hn Hs ([s o'] & -> & Hin)%list_elem_of_fmap. cbn [snd]. pose proof (good_subject_some g st n Hn Hs) as Gs.
  pose proof (evl_good (Some n) None Gs (proj2 (good_none g st))) as Hg. rewrite Forall_forall in Hg. split; [by apply (Hg _ Hin)|].
  destruct (Hright (Some n) None Gs (proj2 (good_none g st)) (TermKey s) (TermKey o')) as [H _]. destruct H as (H & E & _); [by exists (s, o')|].
  cbn in E. by rewrite <- E.
Qed.

Lemma bwd_pairs_rel n s : good n → s ∈ (evl None (Some n)).*1 → good s ∧ path_rel m p (TermKey s) (TermKey n).
Proof using Hst Hgraph Hreach Hp Hright.
  intros Hn ([s' o] & -> & Hin)%list_elem_of_fmap. cbn [fst]. pose proof (good_object_some g st n Hn) as Go.
  pose proof (evl_good None (Some n) (proj1 (good_none g st)) Go) as Hg. rewrite Forall_forall in Hg. split; [by apply (Hg _ Hin)|].
  destruct (Hright None (Some n) (proj1 (good_none g st)) Go (TermKey s') (TermKey o)) as [H _]. destruct H as (H & _ & E); [by exists (s', o)|].
  cbn in E. by rewrite <- E.
Qed.

Lemma path_subject_is n : is_Some (path_subject n) ↔ isSubject n = true.
Proof. unfold path_subject. destruct (isSubject n); [by split; [|eexists]|]. split; [by intros [? [=]]|done]. Qed.

Lemma fwd_edge k k' : dfs_edge TermKey (λ n, (evl (Some n) None).*2) path_subject good k k' ↔
  path_rel m p k k' ∧ ∃ n, good n ∧ isSubject n = true ∧ TermKey n = k.
Proof using Hst Hgraph Hreach Hp Hright.
  split.
  - intros (n & o & Hn & Hs%path_subject_is & <- & Ho & <-). split; [by apply fwd_pairs_rel|by exists n].
  - intros (H & n & Hn & Hs & <-). pose proof (good_subject_some g st n Hn Hs) as Gs.
    destruct (Hright (Some n) None Gs (proj2 (good_none g st)) (TermKey n) k') as [_ Hex]. destruct Hex as ([s o] & Hin & _ & E); [done|].
    exists n, o. split; [done|]. split; [by apply path_subject_is|]. split; [done|]. split; [by apply (list_elem_of_fmap_2 snd) in Hin|done].
Qed.

Lemma bwd_edge k k' : dfs_edge TermKey (λ n, (evl None (Some n)).*1) Some good k k' ↔ path_rel m p k' k.
Proof using Hst Hgraph Hreach Hp Hright.
  split.
  - intros (n & o & Hn & _ & <- & Ho & <-). by apply bwd_pairs_rel.
  - intros H. destruct (path_rel_nodes p _ _ H) as [_ Hk]. apply node_term in Hk as (n & Hn & <-). pose proof (good_object_some g st n Hn) as Go.
    destruct (Hright None (Some n) (proj1 (good_none g st)) Go k' (TermKey n)) as [_ Hex]. destruct Hex as ([s o] & Hin & E & _); [done|].
    exists n, s. split; [done|]. split; [by eexists|]. split; [done|]. split; [by apply (list_elem_of_fmap_2 fst) in Hin|done].
Qed.

(** From a subject, chains of edges are chains of the relation. *)
Lemma fwd_tc n k' : good n → isSubject n = true →
  tc (dfs_edge TermKey (λ n, (evl (Some n) None).*2) path_subject good) (TermKey n) k' ↔ tc (path_rel m p) (TermKey n) k'.
Proof using Hst Hgraph Hreach Hp Hright Hsafe.
  intros Hn Hs. split; [apply tc_proper; by intros x y [? _]%fwd_edge|]. intros H.
  assert (Hk : ∃ n', good n' ∧ isSubject n' = true ∧ TermKey n' = TermKey n) by by exists n. revert Hk.
  induction H as [k1 k2 H|k1 k2 k3 H Htc IH]; intros Hk; [by apply tc_once, fwd_edge|].
  destruct (lit_dec k2 (proj2 (path_rel_nodes p _ _ H))) as [Hk2|Hlit]; [eapply tc_l; [by apply fwd_edge|by apply IH]|].
  assert (k2 = k3) as ->. { apply (tc_stop _ lit _ _ (λ k k' H Hk, proj1 (safe_stop p Hsafe k k' H Hk)) Htc Hlit). }
  by apply tc_once, fwd_edge.
Qed.

Lemma fwd_list_rel more n : good n → isSubject n = true →
  ∀ k', k' ∈ TermKey <$> (fwd_list evl more (path_fuel g st) n ∅).1 ↔ rel_of more (TermKey n) k'.
Proof using Hst Hgraph Hreach Hp Hright Hsafe.
  intros Hn Hs k'. destruct node_keys_ok as [Hf HN]. destruct more; unfold rel_of.
  - rewrite fwd_list_dfs, <- fwd_tc by done.
    apply (dfs_reaches TermKey (λ n, (evl (Some n) None).*2) path_subject good node_keys HN good_inj); [| |done|by apply path_subject_is|done].
    + intros n' o Hn' Hs'%path_subject_is Ho. by apply (fwd_pairs_rel n' o).
    + intros n' n''. by intros [-> _]%path_subject_Some.
  - unfold path_fuel. rewrite fwd_list_once, list_elem_of_fmap. split.
    + intros (o & -> & Ho). by apply fwd_pairs_rel.
    + intros H. destruct (fwd_edge (TermKey n) k') as [_ He]. destruct He as (n' & o & Hn' & _ & E & Ho & <-); [split; [done|by exists n]|].
      apply good_inj in E as ->; [|done|done]. by exists o.
Qed.

Lemma bwd_list_rel more n : good n → ∀ k, k ∈ TermKey <$> (bwd_list evl more (path_fuel g st) n ∅).1 ↔ rel_of more k (TermKey n).
Proof using Hst Hgraph Hreach Hp Hright.
  intros Hn k. destruct node_keys_ok as [Hf HN]. destruct more; unfold rel_of.
  - rewrite bwd_list_dfs, <- (tc_flip_iff (path_rel m p)), <- (tc_iff _ (flip (path_rel m p)) _ _ bwd_edge).
    apply (dfs_reaches TermKey (λ n, (evl None (Some n)).*1) Some good node_keys HN good_inj); [|by intros ? ? [= ->]|done|by eexists|done].
    intros n' o Hn' _ Ho. by apply (bwd_pairs_rel n' o).
  - unfold path_fuel. rewrite bwd_list_once, list_elem_of_fmap. split.
    + intros (o & -> & Ho). by apply bwd_pairs_rel.
    + intros H. apply bwd_edge in H as (n' & o & Hn' & _ & E & Ho & <-). apply good_inj in E as ->; [|done|done]. by exists o.
Qed.

Lemma store_pairs_rel more subj obj l : good_subject g st subj → good_object g st obj → store_pairs reach g st p more subj obj = Some l →
  ∀ k k', has l k k' ↔ rel_of more k k' ∧ bound_to subj k ∧ bound_to obj k'.
Proof using Hst Hgraph Hreach Hp.
  intros Hs Ho. unfold store_pairs. destruct more; [|done]. cbn [negb rel_of]. destruct reach as [f|] eqn:Ef; [|done].
  destruct (flatten p) as [spec|] eqn:Efl; [|done]. destruct subj as [s|]; [|destruct obj as [o|]; [|done]].
  - destruct (f None _ st) as [r|] eqn:Er; [|done]. intros [= <-] k k'. destruct (Hs s eq_refl) as [Hgs _].
    destruct (Hreach f _ s eq_refl (store_query_askable g st p spec s _ Hp Efl Hgs) eq_refl r Er) as [_ Hr].
    rewrite has_from, Hr, (tc_iff _ _ _ _ (λ x y, store_edge_fwd p spec s x y Efl)). cbn [bound_to]. naive_solver.
  - destruct (f None _ st) as [r|] eqn:Er; [|done]. intros [= <-] k k'. specialize (Ho o eq_refl).
    destruct (Hreach f _ o eq_refl (store_query_askable g st p spec o _ Hp Efl Ho) eq_refl r Er) as [_ Hr].
    rewrite has_to, Hr, (tc_iff _ (flip (path_rel m p)) _ _ (λ x y, store_edge_bwd p spec o x y Efl)), (tc_flip_iff (path_rel m p)). cbn [bound_to]. naive_solver.
Qed.

Context (zero : bool) (Hzero : ∀ k k', path_rel m p k k' → lit k → zero = true).

Lemma mul_raw_rel more subj obj : good_subject g st subj → good_object g st obj → ∀ k k',
  has (mul_raw reach g st evl p zero more subj obj) k k' ↔ path_rel m (MulPath p zero more) k k' ∧ bound_to subj k ∧ bound_to obj k'.
Proof using Hst Hgraph Hreach Hp Hright Hsafe Hzero.
  intros Hs Ho k k'. pose proof (store_pairs_rel more subj obj) as Hstore. cbn [path_rel]. fold (rel_of more k k'). unfold mul_raw.
  destruct subj as [s|]; [|destruct obj as [o|]].
  - destruct (Hs s eq_refl) as [Hgs Hsub]. rewrite has_app.
    assert (H1 : has (if zero && matches_obj obj s then [(s, s)] else []) k k' ↔ (zero = true ∧ k = k' ∧ is_node m k) ∧ bound_to (Some s) k ∧ bound_to obj k').
    { pose proof (good_node _ Hgs) as Hnode. pose proof (matches_obj_bound obj s) as Hm. destruct zero; cbn [andb]; [|rewrite has_nil; naive_solver].
      destruct (matches_obj obj s); [rewrite has_one|rewrite has_nil]; cbn [bound_to]; [naive_solver|]. split; [done|]. intros ((_ & -> & _) & -> & Hb).
      by apply Hm in Hb. }
    assert (H2 : has match store_pairs reach g st p more (Some s) obj with Some l => l | None => (λ o, (s, o)) <$> filter (λ o, matches_obj obj o = true) (fwd_list evl more (path_fuel g st) s ∅).1 end k k'
      ↔ rel_of more k k' ∧ bound_to (Some s) k ∧ bound_to obj k').
    { destruct (store_pairs _ _ _ _ _ _ _) as [l|]; [by apply Hstore|]. rewrite has_from, fwd_list_rel by done. cbn [bound_to]. naive_solver. }
    rewrite H1, H2. clear. tauto.
  - pose proof (Ho o eq_refl) as Hgo. rewrite has_app.
    assert (H1 : has (if zero then [(o, o)] else []) k k' ↔ (zero = true ∧ k = k' ∧ is_node m k) ∧ bound_to None k ∧ bound_to (Some o) k').
    { pose proof (good_node _ Hgo) as Hnode. destruct zero; [rewrite has_one|rewrite has_nil]; cbn [bound_to]; naive_solver. }
    assert (H2 : has match store_pairs reach g st p more None (Some o) with Some l => l | None => (λ s, (s, o)) <$> (bwd_list evl more (path_fuel g st) o ∅).1 end k k'
      ↔ rel_of more k k' ∧ bound_to None k ∧ bound_to (Some o) k').
    { destruct (store_pairs _ _ _ _ _ _ _) as [l|]; [by apply Hstore|]. rewrite has_to, bwd_list_rel by done. cbn [bound_to]. naive_solver. }
    rewrite H1, H2. clear. tauto.
  - destruct (graph_nodes_ok g st Hst Hgraph) as (_ & Hgood & Hnodes). rewrite Forall_forall in Hgood. rewrite has_app, has_join.
    assert (H1 : has (if zero then (λ n, (n, n)) <$> graph_nodes g st else []) k k' ↔ zero = true ∧ k = k' ∧ is_node m k).
    { rewrite <- Hnodes, list_elem_of_fmap. destruct zero; [rewrite has_fmap|rewrite has_nil]; cbn [fst snd]; naive_solver. }
    rewrite H1. cbn [bound_to]. split.
    + intros [H|(n & Hn & H)]; [by split; [left|]|]. destruct (path_subject n) as [s|] eqn:E; [|by apply has_nil in H].
      apply path_subject_Some in E as [-> E]. rewrite has_from_all, fwd_list_rel in H by auto. destruct H as [<- H]. by split; [right|].
    + intros [[H|H] _]; [by left|]. assert (Hk : is_node m k) by (destruct more; [by apply (tc_both _ _ _ _ (path_rel_nodes p)) in H as [? _]|by apply path_rel_nodes in H as [? _]]).
      destruct (lit_dec k Hk) as [(n & Hn & E & <-)|Hl].
      * right. apply Hnodes, list_elem_of_fmap in Hk as (n' & En & Hn'). apply good_inj in En as <-; [|done|by apply Hgood].
        exists n. split; [done|]. unfold path_subject. rewrite E. rewrite has_from_all, fwd_list_rel by done. done.
      * left. assert (Hfirst : ∃ y, path_rel m p k y) by (destruct more; [by apply tc_ends in H as [? _]|by exists k']).
        destruct Hfirst as [y Hy]. split; [by apply (Hzero k y)|]. split; [|done].
        destruct more; [|by apply (safe_stop p Hsafe k k' H)]. by apply (tc_stop _ lit _ _ (λ k k' H Hk, proj1 (safe_stop p Hsafe k k' H Hk)) H).
Qed.

Lemma mul_right more : right (MulPath p zero more).
Proof using Hst Hgraph Hreach Hp Hright Hsafe Hzero.
  intros subj obj Hs Ho k k'. cbn [eval_list]. rewrite has_first_by; [by apply mul_raw_rel|]. apply Forall_forall. intros so Hso. 
  assert (Hg : good_pair so).
  { apply (proj1 (Forall_forall _ _) (mul_raw_good reach g st Hst Hgraph Hreach (eval reach g st p) evl p zero more Hp (eval_yields reach g st Hst Hgraph Hreach p Hp) subj obj Hs Ho)). done. }
  split; [done|]. destruct (isSubject so.1) eqn:E; [by left|right]. destruct Hg as [H1 H2]. apply good_inj; [done|done|].
  destruct (mul_raw_rel more subj obj Hs Ho (TermKey so.1) (TermKey so.2)) as [H _]. destruct H as (H & _); [by exists so|].
  assert (Hl : lit (TermKey so.1)) by by exists so.1. cbn [path_rel] in H. destruct H as [(_ & H & _)|H]; [done|].
  destruct more; [|by apply (safe_stop p Hsafe _ _ H)]. by apply (tc_stop _ lit _ _ (λ k k' H Hk, proj1 (safe_stop p Hsafe k k' H Hk)) H).
Qed.
End repetition.

(** ** Every path *)

Lemma safe_args (args : list Path) : literal_safe (AlternativePath args) = true ∨ (∀ t, good t → isSubject t = true) → Forall safe args.
Proof.
  intros [H|H]; apply Forall_forall; intros a Ha; [left|by right]. cbn [literal_safe] in H. rewrite forallb_forall in H.
  by apply H, list_elem_of_In.
Qed.

Lemma triples_right u (keep : Triple → bool) subj obj k k' : good_subject g st subj → good_object g st obj → match u with Some u => uri_ok u | None => True end →
  has ((λ t, (Subject t, Object t)) <$> filter (λ t, keep t = true) (triples_list g st subj u obj)) k k' ↔
  (∃ t, t ∈ graph_triples m ∧ keyAt t posS = k ∧ keyAt t posO = k' ∧ keep t = true ∧ match u with Some u => keyAt t posP = uri_key u | None => True end) ∧
  bound_to subj k ∧ bound_to obj k'.
Proof using Hst.
  clear Hgraph Hreach. intros Hs Ho Hu. assert (Hs' : good_object g st subj) by (intros s E; by apply Hs in E as [? _]).
  rewrite has_fmap. cbn [fst snd]. setoid_rewrite list_elem_of_filter. setoid_rewrite (triples_key subj u obj _ Hs' Ho Hu). cbn [keyAt]. naive_solver.
Qed.

Lemma seq_right args : Forall plain_path args → (seq_safe args = true ∨ ∀ t, good t → isSubject t = true) → Forall right args →
  ∀ subj obj, good_subject g st subj → good_object g st obj → ∀ k k',
  has (seq_list reach g st args subj obj) k k' ↔ seq_rel m args k k' ∧ bound_to subj k ∧ bound_to obj k'.
Proof using Hst Hgraph Hreach.
  intros Hp Hsafe Hargs subj obj Hs Ho. revert subj Hs. induction args as [|a rest IH]; intros subj Hs k k'.
  { cbn [seq_list seq_rel]. rewrite has_nil. tauto. }
  apply Forall_cons in Hp as [Hpa Hp]. apply Forall_cons in Hargs as [Ha Hargs]. cbn [seq_list seq_rel].
  destruct rest as [|b rest]; [by apply Ha|].
  assert (Hrest : seq_safe (b :: rest) = true ∨ ∀ t, good t → isSubject t = true).
  { destruct Hsafe as [Hsafe|]; [left|by right]. cbn [seq_safe] in *. by apply andb_true_iff in Hsafe as [_ Hsafe]. }
  assert (Hstop : ∀ mid, lit mid → ¬ seq_rel m (b :: rest) mid k').
  { intros mid Hl H. destruct Hsafe as [Hsafe|Hall]; [|by destruct Hl as (o & Hgo & E & _); rewrite Hall in E].
    rewrite <- path_rel_seq in H. destruct Hrest as [Hrest|Hall]; [|by destruct Hl as (o & Hgo & E & _); rewrite Hall in E].
    rewrite <- literal_safe_seq in Hrest. destruct (literal_stop _ Hrest _ _ H Hl) as [_ Hn]. cbn [nullable] in Hn.
    cbn [seq_safe] in Hsafe. apply andb_true_iff in Hsafe as [[_ Hsafe]%andb_true_iff _]. cbn [forallb] in *. by rewrite Hn in Hsafe. }
  specialize (IH Hp Hrest Hargs). rewrite has_join.
  destruct (eval_yields reach g st Hst Hgraph Hreach a Hpa subj None Hs (proj2 (good_none g st))) as [Hg _]. rewrite Forall_forall in Hg.
  pose proof (Ha subj None Hs (proj2 (good_none g st)) k) as Hfirst. split.
  - intros ([s mid] & Hin & H). cbn [fst snd] in H. destruct (path_subject mid) as [mid'|] eqn:E; [|by apply has_nil in H].
    apply path_subject_Some in E as [-> E]. apply (has_fmap (λ so', (s, so'.2))) in H as ([s2 o] & Hin2 & <- & <-). cbn [fst snd] in *.
    destruct (Hg _ Hin) as [_ Hmid]. cbn [snd] in Hmid. destruct (Hfirst (TermKey mid)) as [H1 _]. destruct H1 as (H1 & Hb & _); [by exists (s, mid)|].
    destruct (IH (Some mid) (good_subject_some g st mid Hmid E) (TermKey s2) (TermKey o)) as [H2 _].
    destruct H2 as (H2 & Es & Hb'); [by exists (s2, o)|]. cbn in Es. rewrite Es in H2. split; [by exists (TermKey mid)|done].
  - intros ((mk & H1 & H2) & Hb & Hb'). destruct (Hfirst mk) as [_ Hex]. destruct Hex as ([s mid] & Hin & <- & <-); [by split|].
    destruct (Hg _ Hin) as [_ Hmid]. cbn [fst snd] in *. exists (s, mid). split; [done|]. cbn [fst snd]. unfold path_subject.
    destruct (isSubject mid) eqn:E; [|exfalso; by apply (Hstop (TermKey mid)); [exists mid|]].
    destruct (IH (Some mid) (good_subject_some g st mid Hmid E) (TermKey mid) k') as [_ Hex]. destruct Hex as (so & Hin2 & _ & <-); [done|].
    apply (has_fmap (λ so', (s, so'.2))). by exists so.
Qed.

Lemma list_right p : plain_path p → safe p → right p.
Proof using Hst Hgraph Hreach.
  induction p as [a IH|args IH|args IH|p z mo IH|ex|u] using path_induction; intros Hp Hsafe.
  - destruct Hsafe as [|Hall]; [done|]. intros subj obj Hs Ho k k'. cbn [eval_list]. rewrite has_fmap. cbn [fst snd].
    assert (E : obj ≫= path_subject = obj) by (destruct obj as [o|]; [|done]; cbn; unfold path_subject; by rewrite (Hall o (Ho o eq_refl))).
    assert (Hs' : good_subject g st obj) by (intros o ->; split; [by apply Ho|by apply Hall, Ho]).
    assert (Ho' : good_object g st subj) by (intros s ->; by apply Hs). rewrite E.
    specialize (IH Hp (or_intror Hall) obj subj Hs' Ho' k' k). cbn [path_rel]. rewrite (and_comm (bound_to subj k)), <- IH. unfold has.
    split; intros (so & H1 & H2 & H3); by exists so.
  - intros subj obj Hs Ho k k'. rewrite eval_list_seq, path_rel_seq. pose proof (plain_args args Hp) as Hpl. apply seq_right; [done| | |done|done].
    + by rewrite <- literal_safe_seq.
    + rewrite Forall_forall in *. intros a Ha. apply IH; [done|by apply Hpl|]. destruct Hsafe as [Hsafe|]; [|by right].
      rewrite literal_safe_seq in Hsafe. clear -Hsafe Ha. left. induction args as [|b args IH]; [by apply elem_of_nil in Ha|].
      cbn [seq_safe] in Hsafe. apply andb_true_iff in Hsafe as [[Hb _]%andb_true_iff Hsafe]. apply elem_of_cons in Ha as [->|Ha]; [done|by apply IH].
  - intros subj obj Hs Ho k k'. rewrite eval_list_alt, path_rel_alt, has_join. pose proof (safe_args args Hsafe) as Hsa. pose proof (plain_args args Hp) as Hpl.
    rewrite Forall_forall in *. assert (Hr : ∀ a, a ∈ args → has (eval_list reach g st a subj obj) k k' ↔ path_rel m a k k' ∧ bound_to subj k ∧ bound_to obj k').
    { intros a Ha. by apply (IH a Ha (Hpl a Ha) (Hsa a Ha)). }
    split.
    + intros (a & Ha & H). apply Hr in H as [H Hb]; [|done]. split; [by exists a|done].
    + intros [(a & Ha & H) Hb]. exists a. split; [done|]. by apply Hr.
  - assert (Hs : safe p) by (destruct Hsafe as [Hs|]; [left; by apply andb_true_iff in Hs as [? _]|by right]).
    apply (mul_right p Hp Hs (IH Hp Hs)). intros k k' H Hl. destruct (safe_stop p Hs k k' H Hl) as [_ Hn].
    destruct Hsafe as [H2|Hall]; [|by destruct Hl as (o & Hgo & E & _); rewrite Hall in E]. cbn [literal_safe] in H2. rewrite Hn, orb_false_r in H2.
    by apply andb_true_iff in H2 as [_ ?].
  - intros subj obj Hs Ho k k'. set (s := list_to_set (uri_key <$> ex) : gset string).
    assert (E : eval_list reach g st (NegatedPath ex) subj obj = (λ t, (Subject t, Object t)) <$>
      filter (λ t, negb (bool_decide (uri_key (Predicate t) ∈ s)) = true) (triples_list g st subj None obj)).
    { cbn [eval_list]. f_equal. apply list_filter_iff. intros t. fold s. rewrite negb_true_iff, bool_decide_eq_false. done. }
    rewrite E, triples_right by done. cbn [path_rel]. f_equiv. apply exist_proper. intros t. rewrite negb_true_iff, bool_decide_eq_false.
    unfold s. rewrite elem_of_list_to_set. change (keyAt t posP) with (uri_key (Predicate t)). tauto.
  - intros subj obj Hs Ho k k'. pose proof (triples_right (Some u) (λ _, true) subj obj k k' Hs Ho) as H. rewrite filter_keep_all in H.
    cbn [eval_list path_rel]. rewrite H by (apply Forall_singleton in Hp as [? _]; done). f_equiv. apply exist_proper. intros t. tauto.
Qed.
End semantics.

(** ** The theorem *)

Section theorem.
Context {St : Type} {store_St : Store St} {laws_St : StoreLaws St} {range_St : GoRange}.

(** Keys without the bytes the package joins keys with. *)
Definition plain_key (t : Term) : Prop :=
  has_byte nul (TermKey t) = false ∧ (isSubject t = true → has_byte "|" (TermKey t) = false).
Definition plain_graph (m : gcontent) : Prop :=
  ∀ t, t ∈ graph_triples m → triple_wf t ∧ plain_key (Subject t) ∧ plain_key (Object t).

(** A bound end of a path is a term of the graph. *)
Definition end_ok (m : gcontent) (t : option Term) : Prop := ∀ n, t = Some n → term_wf n ∧ is_node m (TermKey n).

(** What [store.ReachabilityStore] promises for a query without a depth bound. *)
Definition answers_closure (f : Context → ReachabilityQuery → St → result (list Term)) (st : St) : Prop :=
  ∀ q start r, Start q = Some start → MaxDepth q = 0%Z → f None q st = Ok r →
  let m := ds_graph (sabs st) (rq_Context q) in
  (∀ n, n ∈ r → ∃ t, t ∈ graph_triples m ∧ n = far_end q t) ∧ ∀ k, k ∈ TermKey <$> r ↔ tc (edge q m) (TermKey start) k.

Lemma plain_graph_good g st : plain_graph (graph_of st g) → ∀ t, t ∈ graph_triples (graph_of st g) →
  good g st (Subject t) ∧ isSubject (Subject t) = true ∧ uri_ok (Predicate t) ∧ good g st (Object t).
Proof.
  intros Hm t Ht. destruct (Hm t Ht) as ((W1 & W2 & W3 & W4) & [P1 P2] & [P3 P4]).
  assert (N1 : is_node (graph_of st g) (TermKey (Subject t))) by (exists t; by split; [|left]).
  assert (N2 : is_node (graph_of st g) (TermKey (Object t))) by (exists t; by split; [|right]). done.
Qed.

Lemma end_good g st n : plain_graph (graph_of st g) → term_wf n → is_node (graph_of st g) (TermKey n) → good g st n.
Proof.
  intros Hm Hw (t & Ht & Hk). pose proof (plain_graph_good g st Hm t Ht) as (G1 & _ & _ & G2).
  destruct Hk as [Hk|Hk]; cbn [keyAt] in Hk; [apply TermKey_inj in Hk as <-; [done|apply G1|done]|apply TermKey_inj in Hk as <-; [done|apply G2|done]].
Qed.

Lemma answers_good g st f q t r : plain_graph (graph_of st g) → answers_closure f st → askable g st q → Start q = Some t → f None q st = Ok r →
  Forall (good g st) r ∧ ∀ k, k ∈ TermKey <$> r ↔ tc (edge q (graph_of st g)) (TermKey t) k.
Proof.
  intros Hm Hf (_ & _ & Hmax & Hctx) Hs Hr. destruct (Hf q t r Hs Hmax Hr) as [H1 H2]. rewrite Hctx in H1, H2. split; [|done].
  apply Forall_forall. intros n (u & Hu & ->)%H1. destruct (plain_graph_good g st Hm u Hu) as (G1 & _ & _ & G2).
  unfold far_end. by destruct (Inverse q).
Qed.

(** The consumer of [run]. *)
Definition run_y {X} (yield : result TermPair → X → bool * X) : Term * Term → X → bool * X := λ so, yield (Ok (MkPair so.1 so.2)).

Lemma run_path_drive reach g st p subj obj l {X} (yield : result TermPair → X → bool * X) x :
  yields reach g st (eval reach g st p subj obj) l →
  run_path reach g st None ∅ p subj obj yield x = (drive (Ok <$> ((λ so, MkPair so.1 so.2) <$> l)) yield x).2.
Proof.
  intros Hy. unfold run_path. cbn [path_poll new_pstopper ps_err ps_ctx].
  assert (Hps : ps_ok reach g st (new_pstopper None ∅)).
  { split; [done|]. split; [done|]. intros f q r _ _ H. cbn in H. by rewrite lookup_empty in H. }
  edestruct (Hy (X * bool)%type X (λ xs z, xs = (z, false)) (λ xs z, xs = (z, true)) (λ s o ps '(x, stopped),
    let '(c, x) := yield (Ok (MkPair s o)) x in if c then (true, ps, (x, stopped)) else (false, ps, (x, true))) (run_y yield) (new_pstopper None ∅) (x, false) x)
    as (ps' & xs & Hps' & E & HR); [|done|done|].
  { intros [s o] ps [x0 b] z _ Hps0 [= -> ->]. cbn [fst snd]. unfold run_y. cbn [fst snd]. destruct (yield (Ok (MkPair s o)) z) as [[] z1]; by eexists ps, _. }
  rewrite E. rewrite <- list_fmap_compose, drive_fmap.
  change (drive l (λ a, yield ((Ok ∘ (λ so : Term * Term, MkPair so.1 so.2)) a)) x) with (drive l (run_y yield) x).
  destruct Hps' as (_ & He & _). rewrite He. destruct (drive l (run_y yield) x) as [[] z]; cbn [fst snd] in *; by rewrite HR.
Qed.

End theorem.

(** The in-memory store's answers. *)
Lemma memory_answers_closure `{GoRange} m : ms_ok m → answers_closure Reachable m.
Proof.
  intros Hm q start r Hq Hmax Hr. destruct (Reachable_ok m q start Hm Hq) as (r' & Er & _ & H1 & H2). rewrite Hr in Er. injection Er as <-.
  split; [exact H2|]. intros k. rewrite <- reaches_tc by lia. apply H1.
Qed.

(** ** A cycle, evaluated *)

#[local] Instance path_range_instance : GoRange | 100 := sorted_range.

Definition pa : Term := TURIRef (ex_iri "a").
Definition pb : Term := TURIRef (ex_iri "b").
Definition plit : Term := TLiteral sample_literal.
Definition cycle_ops : list ds_op := [DsAdd (MkTriple pa (ex_iri "p") pb) ex_graph; DsAdd (MkTriple pb (ex_iri "p") pa) ex_graph].
Definition cycle_store : MemoryStore := store_run NewMemoryStore cycle_ops.
Definition cycle_path : Path := OneOrMore (AsPath (ex_iri "p")).

Lemma cycle_graph : graph_of cycle_store ex_node = ds_graph (ds_run cycle_ops) ex_graph.
Proof. unfold graph_of. change (sabs cycle_store) with (ms_abs (store_run NewMemoryStore cycle_ops)). by rewrite (proj2 (ms_run_ok cycle_ops)). Qed.

Lemma cycle_plain : plain_graph (graph_of cycle_store ex_node).
Proof.
  rewrite cycle_graph. assert (H : graph_all (λ t, triple_wf t ∧ plain_key (Subject t) ∧ plain_key (Object t)) (ds_graph (ds_run cycle_ops) ex_graph)).
  { apply ds_run_all. intros o Ho t Ht. repeat (apply elem_of_cons in Ho as [->|Ho]; [apply list_elem_of_singleton in Ht as ->; repeat split; by eexists|]).
    by apply elem_of_nil in Ho. }
  intros t Ht. destruct H as [Hk H]. apply graph_triples_elem in Ht; [|done]. by apply H in Ht.
Qed.

Lemma cycle_end : end_ok (graph_of cycle_store ex_node) (Some pa).
Proof.
  intros n [= <-]. split; [by eexists|]. exists (MkTriple pa (ex_iri "p") pb). split; [|by left].
  apply graph_triples_elem; [apply graph_of_keyed, (ms_run_ok cycle_ops)|]. rewrite cycle_graph. by vm_compute.
Qed.


(** The pairs a path gives, collected. *)
Definition path_pairs (reach : bool) (ops : list ds_op) (p : Path) (subj obj : option Term) : list (result TermPair) :=
  run_path (if reach then Some Reachable else None) ex_node (store_run NewMemoryStore ops) None ∅ p subj obj (λ r out, (true, out ++ [r])) [].

Example cycle_pairs : ∀ reach, path_pairs reach cycle_ops cycle_path (Some pa) None = [Ok (MkPair pa pb); Ok (MkPair pa pa)].
Proof. intros []; vm_compute; reflexivity. Qed.

(** ** Literals *)

Definition lit_ops : list ds_op := [DsAdd (MkTriple pa (ex_iri "p") pb) ex_graph; DsAdd (MkTriple pa (ex_iri "q") plit) ex_graph].

(** what the literal condition excludes, run.  A literal at the object end of
    [^p] is no constraint ([^p] gives a pair that does not end in it), and a
    literal between the steps of [q/p?] is not followed with length zero, although
    the relation joins it to itself. *)
Theorem literal_ends_of_paths :
  path_pairs false lit_ops (Inv (AsPath (ex_iri "p"))) None (Some plit) = [Ok (MkPair pb pa)] ∧
  path_pairs false lit_ops (Sequence [AsPath (ex_iri "q"); ZeroOrOne (AsPath (ex_iri "p"))]) (Some pa) None = [] ∧
  (∀ m, (∃ t, t ∈ graph_triples m ∧ keyAt t posS = TermKey pa ∧ keyAt t posP = uri_key (ex_iri "q") ∧ keyAt t posO = TermKey plit) →
     path_rel m (Sequence [AsPath (ex_iri "q"); ZeroOrOne (AsPath (ex_iri "p"))]) (TermKey pa) (TermKey plit)).
Proof.
  split; [vm_compute; reflexivity|]. split; [vm_compute; reflexivity|]. intros m (t & Ht & H1 & H2 & H3). cbn [path_rel Sequence AsPath ZeroOrOne].
  exists (TermKey plit). split; [by exists t|]. left. split; [done|]. split; [done|]. exists t. split; [done|]. by right.
Qed.
