(* ===== verification/Owl.v ===== *)
(** * OWL 2 RL: the schema indexes

    What an OWL 2 RL run keeps about the schema of a graph, and how it reads it
    (reasoning/owlrl.go). *)

From S2P Require Import Prelude GoStrings Strconv Term TermKey TripleIndex Store MemoryStore Graph Collection Reasoning Rdfs UnionFind.
From stdpp Require Import options.

(** ** The vocabulary *)

Definition OWLNamespace : string := "http://www.w3.org/2002/07/owl#".
Definition OWL_SymmetricProperty : URIRef := NewURIRefUnsafe (OWLNamespace +:+ "SymmetricProperty").
Definition OWL_TransitiveProperty : URIRef := NewURIRefUnsafe (OWLNamespace +:+ "TransitiveProperty").
Definition OWL_FunctionalProperty : URIRef := NewURIRefUnsafe (OWLNamespace +:+ "FunctionalProperty").
Definition OWL_InverseFunctionalProperty : URIRef := NewURIRefUnsafe (OWLNamespace +:+ "InverseFunctionalProperty").
Definition OWL_IrreflexiveProperty : URIRef := NewURIRefUnsafe (OWLNamespace +:+ "IrreflexiveProperty").
Definition OWL_AsymmetricProperty : URIRef := NewURIRefUnsafe (OWLNamespace +:+ "AsymmetricProperty").
Definition OWL_Restriction : URIRef := NewURIRefUnsafe (OWLNamespace +:+ "Restriction").
Definition OWL_AllDisjointProperties : URIRef := NewURIRefUnsafe (OWLNamespace +:+ "AllDisjointProperties").
Definition OWL_AllDisjointClasses : URIRef := NewURIRefUnsafe (OWLNamespace +:+ "AllDisjointClasses").
Definition OWL_NegativePropertyAssertion : URIRef := NewURIRefUnsafe (OWLNamespace +:+ "NegativePropertyAssertion").
Definition OWL_Nothing : URIRef := NewURIRefUnsafe (OWLNamespace +:+ "Nothing").
Definition OWL_Thing : URIRef := NewURIRefUnsafe (OWLNamespace +:+ "Thing").
Definition OWL_InverseOf : URIRef := NewURIRefUnsafe (OWLNamespace +:+ "inverseOf").
Definition OWL_EquivalentProperty : URIRef := NewURIRefUnsafe (OWLNamespace +:+ "equivalentProperty").
Definition OWL_EquivalentClass : URIRef := NewURIRefUnsafe (OWLNamespace +:+ "equivalentClass").
Definition OWL_SameAs : URIRef := NewURIRefUnsafe (OWLNamespace +:+ "sameAs").
Definition OWL_PropertyDisjointWith : URIRef := NewURIRefUnsafe (OWLNamespace +:+ "propertyDisjointWith").
Definition OWL_PropertyChainAxiom : URIRef := NewURIRefUnsafe (OWLNamespace +:+ "propertyChainAxiom").
Definition OWL_HasKey : URIRef := NewURIRefUnsafe (OWLNamespace +:+ "hasKey").
Definition OWL_OnProperty : URIRef := NewURIRefUnsafe (OWLNamespace +:+ "onProperty").
Definition OWL_SomeValuesFrom : URIRef := NewURIRefUnsafe (OWLNamespace +:+ "someValuesFrom").
Definition OWL_AllValuesFrom : URIRef := NewURIRefUnsafe (OWLNamespace +:+ "allValuesFrom").
Definition OWL_HasValue : URIRef := NewURIRefUnsafe (OWLNamespace +:+ "hasValue").
Definition OWL_HasSelf : URIRef := NewURIRefUnsafe (OWLNamespace +:+ "hasSelf").
Definition OWL_MaxCardinality : URIRef := NewURIRefUnsafe (OWLNamespace +:+ "maxCardinality").
Definition OWL_MaxQualifiedCardinality : URIRef := NewURIRefUnsafe (OWLNamespace +:+ "maxQualifiedCardinality").
Definition OWL_OnClass : URIRef := NewURIRefUnsafe (OWLNamespace +:+ "onClass").
Definition OWL_IntersectionOf : URIRef := NewURIRefUnsafe (OWLNamespace +:+ "intersectionOf").
Definition OWL_UnionOf : URIRef := NewURIRefUnsafe (OWLNamespace +:+ "unionOf").
Definition OWL_ComplementOf : URIRef := NewURIRefUnsafe (OWLNamespace +:+ "complementOf").
Definition OWL_OneOf : URIRef := NewURIRefUnsafe (OWLNamespace +:+ "oneOf").
Definition OWL_DisjointWith : URIRef := NewURIRefUnsafe (OWLNamespace +:+ "disjointWith").
Definition OWL_DifferentFrom : URIRef := NewURIRefUnsafe (OWLNamespace +:+ "differentFrom").
Definition OWL_Members : URIRef := NewURIRefUnsafe (OWLNamespace +:+ "members").
Definition OWL_SourceIndividual : URIRef := NewURIRefUnsafe (OWLNamespace +:+ "sourceIndividual").
Definition OWL_AssertionProperty : URIRef := NewURIRefUnsafe (OWLNamespace +:+ "assertionProperty").
Definition OWL_TargetIndividual : URIRef := NewURIRefUnsafe (OWLNamespace +:+ "targetIndividual").
Definition OWL_TargetValue : URIRef := NewURIRefUnsafe (OWLNamespace +:+ "targetValue").

(** ** The state of a run *)

(** Only restrictions with a property are kept, so [hasOnProperty] is not a field;
    [complementOf] of a restriction is never set. *)
Record owlRestriction := MkRestriction {
  r_node : Term; onProperty : URIRef;
  someValuesFrom : option Term; allValuesFrom : option Term; hasValue : option Term;
  hasSelf : bool; maxCard : Z; maxQualCard : Z; onClass : option Term
}.

Record negPropAssertion := MkNPA { npa_source : Term; npa_property : URIRef; npa_targetI : option Term; npa_targetV : option Term }.

(** The index [restrByProp] is never read. *)
Record owlIndexes := MkOwl {
  symmetricProps : gset string; transitiveProps : gset string; functionalProps : gset string; invFuncProps : gset string;
  inverseOf : gmap string (list URIRef); equivProp : gmap string (list URIRef); equivClass : gmap string (list Term);
  irreflexiveProps : gset string; asymmetricProps : gset string;
  propDisjointWith : gmap string (list URIRef); allDisjointProps : list (list URIRef);
  propChainAxiom : gmap string (list (list URIRef)); hasKeyIndex : gmap string (list URIRef);
  restrictions : list owlRestriction;
  intersectionOf : gmap string (list Term); unionOf : gmap string (list Term);
  complementOf : gmap string Term; oneOfMembers : gmap string (list Term);
  disjointWith : gmap string (list URIRef); allDisjointClass : list (list URIRef);
  differentFrom : gmap string (list Term); negPropAsserts : list negPropAssertion;
  uf : unionFind
}.

(** ** Reading the schema *)

Section append_unique.
Context {T : Type} (key : T → string).

Definition appendUnique (s : list T) (u : T) : list T :=
  if existsb (λ existing, String.eqb (key existing) (key u)) s then s else s ++ [u].
Definition add_unique (m : gmap string (list T)) (k : string) (u : T) : gmap string (list T) := <[k := appendUnique (entries m k) u]> m.
End append_unique.

(** What the [rdf:type] scan collects. *)
Record typeScan := MkScan {
  ty_symmetric : gset string; ty_transitive : gset string; ty_functional : gset string; ty_invFunc : gset string;
  ty_irreflexive : gset string; ty_asymmetric : gset string;
  restrictionNodes : gmap string Term; allDisjPropNodes : list Term; allDisjClassNodes : list Term; negPANodes : list Term
}.
Definition noTypes : typeScan := MkScan ∅ ∅ ∅ ∅ ∅ ∅ ∅ [] [] [].

Definition scan_type (t : Triple) (a : typeScan) : typeScan :=
  let sk := TermKey (Subject t) in
  let ok := TermKey (Object t) in
  let '(MkScan sy tr fu iv ir as_ rn dp dc np) := a in
  if String.eqb ok (uri_key OWL_SymmetricProperty) then MkScan ({[sk]} ∪ sy) tr fu iv ir as_ rn dp dc np
  else if String.eqb ok (uri_key OWL_TransitiveProperty) then MkScan sy ({[sk]} ∪ tr) fu iv ir as_ rn dp dc np
  else if String.eqb ok (uri_key OWL_FunctionalProperty) then MkScan sy tr ({[sk]} ∪ fu) iv ir as_ rn dp dc np
  else if String.eqb ok (uri_key OWL_InverseFunctionalProperty) then MkScan sy tr fu ({[sk]} ∪ iv) ir as_ rn dp dc np
  else if String.eqb ok (uri_key OWL_IrreflexiveProperty) then MkScan sy tr fu iv ({[sk]} ∪ ir) as_ rn dp dc np
  else if String.eqb ok (uri_key OWL_AsymmetricProperty) then MkScan sy tr fu iv ir ({[sk]} ∪ as_) rn dp dc np
  else if String.eqb ok (uri_key OWL_Restriction) then MkScan sy tr fu iv ir as_ (<[sk := Subject t]> rn) dp dc np
  else if String.eqb ok (uri_key OWL_AllDisjointProperties) then MkScan sy tr fu iv ir as_ rn (dp ++ [Subject t]) dc np
  else if String.eqb ok (uri_key OWL_AllDisjointClasses) then MkScan sy tr fu iv ir as_ rn dp (dc ++ [Subject t]) np
  else if String.eqb ok (uri_key OWL_NegativePropertyAssertion) then MkScan sy tr fu iv ir as_ rn dp dc (np ++ [Subject t])
  else a.

(** An axiom between two IRIs, indexed from both sides. *)
Definition link_uris (t : Triple) (m : gmap string (list URIRef)) : gmap string (list URIRef) :=
  match asURIRef (Object t), asURIRef (Subject t) with
  | Some p2, Some p1 =>
      let m := add_unique uri_key m (uri_key p1) p2 in
      add_unique uri_key m (uri_key p2) p1
  | _, _ => m
  end.

(** An equivalence of classes, either of which may be anonymous. *)
Definition link_classes (t : Triple) (m : gmap string (list Term)) : gmap string (list Term) :=
  match asSubject (Object t) with
  | Some c2 =>
      let c1 := Subject t in
      let m := add_unique TermKey m (TermKey c1) c2 in
      add_unique TermKey m (TermKey c2) c1
  | None => m
  end.

Definition link_different (t : Triple) (m : gmap string (list Term)) : gmap string (list Term) :=
  let m := append_to m (TermKey (Subject t)) (Object t) in
  if isSubject (Object t) then append_to m (TermKey (Object t)) (Subject t) else m.

Section build.
Context {St : Type} `{Store St} `{GoRange}.
Implicit Types (stop : stopper) (g : Graph_) (st : St).

(** A walk of [collectList] visits a node once, and a node has a triple. *)
Definition list_fuel g st : nat := S (S (length (g_Triples None g None None None st))).
Definition list_items g (head : Term) st stop : list Term * stopper := collectList g (Some head) (list_fuel g st) st stop.
Definition uri_items g (head : Term) st stop : list URIRef * stopper :=
  let '(items, stop) := list_items g head st stop in (omap asURIRef items, stop).

(** A callback that keeps the first object and stops. *)
Definition first_object g (node : Term) (p : URIRef) st stop : stopper * option Term :=
  sp_triples g (Some node) (Some p) None (λ t stop _, (false, stop, Some (Object t))) st stop None.

Definition index_chain g st (t : Triple) stop (m : gmap string (list (list URIRef))) : bool * stopper * gmap string (list (list URIRef)) :=
  match asURIRef (Subject t) with
  | Some p =>
      let '(chain, stop) := uri_items g (Object t) st stop in
      (true, stop, if (2 <=? length chain)%nat then append_to m (uri_key p) chain else m)
  | None => (true, stop, m)
  end.

Definition index_key g st (t : Triple) stop (m : gmap string (list URIRef)) : bool * stopper * gmap string (list URIRef) :=
  let '(keys, stop) := uri_items g (Object t) st stop in
  (true, stop, if (0 <? length keys)%nat then <[TermKey (Subject t) := keys]> m else m).

Definition index_list g st (t : Triple) stop (m : gmap string (list Term)) : bool * stopper * gmap string (list Term) :=
  let '(items, stop) := list_items g (Object t) st stop in
  (true, stop, if (0 <? length items)%nat then <[TermKey (Subject t) := items]> m else m).

(** [lit.Lexical()] of a literal, read as a cardinality; -1 when it is none. *)
Definition cardinality_of (o : option Term) : Z :=
  match o with
  | Some (TLiteral l) => match ParseInt64 (lexical l) with Some v => v | None => -1 end
  | _ => -1
  end%Z.

(** The parts of one restriction. *)
Definition read_restriction g st (node : Term) stop : option owlRestriction * stopper :=
  let '(stop, op) := first_object g node OWL_OnProperty st stop in
  let '(stop, svf) := first_object g node OWL_SomeValuesFrom st stop in
  let '(stop, avf) := first_object g node OWL_AllValuesFrom st stop in
  let '(stop, hv) := first_object g node OWL_HasValue st stop in
  let '(stop, hs) := first_object g node OWL_HasSelf st stop in
  let '(stop, mc) := first_object g node OWL_MaxCardinality st stop in
  let '(stop, mqc) := first_object g node OWL_MaxQualifiedCardinality st stop in
  let '(stop, oc) := first_object g node OWL_OnClass st stop in
  let self := match hs with Some (TLiteral l) => String.eqb (lexical l) "true" | _ => false end in
  (match op with
   | Some (TURIRef u) => Some (MkRestriction node u svf avf hv self (cardinality_of mc) (cardinality_of mqc) oc)
   | _ => None
   end, stop).

Fixpoint buildRestrictions g st (nodes : list Term) stop : list owlRestriction * stopper :=
  match nodes with
  | [] => ([], stop)
  | node :: nodes =>
      let '(r, stop) := read_restriction g st node stop in
      let '(rs, stop) := buildRestrictions g st nodes stop in
      (match r with Some r => r :: rs | None => rs end, stop)
  end.

Fixpoint buildAllDisjoint g st (nodes : list Term) stop : list (list URIRef) * stopper :=
  match nodes with
  | [] => ([], stop)
  | node :: nodes =>
      let '(stop, uris) := sp_triples g (Some node) (Some OWL_Members) None
        (λ t stop _, let '(uris, stop) := uri_items g (Object t) st stop in (false, stop, uris)) st stop [] in
      let '(rest, stop) := buildAllDisjoint g st nodes stop in
      (if (2 <=? length uris)%nat then uris :: rest else rest, stop)
  end.

Fixpoint buildNegPropAssertions g st (nodes : list Term) stop : list negPropAssertion * stopper :=
  match nodes with
  | [] => ([], stop)
  | node :: nodes =>
      let '(stop, src) := first_object g node OWL_SourceIndividual st stop in
      let '(stop, prop) := first_object g node OWL_AssertionProperty st stop in
      let '(stop, ti) := first_object g node OWL_TargetIndividual st stop in
      let '(stop, tv) := first_object g node OWL_TargetValue st stop in
      let '(rest, stop) := buildNegPropAssertions g st nodes stop in
      (match src ≫= asSubject, prop ≫= asURIRef with
       | Some s, Some p => if is_empty (uri_key p) then rest else MkNPA s p (ti ≫= asSubject) tv :: rest
       | _, _ => rest
       end, stop)
  end.

(** [buildSchemaIndexes], with [scanPropertyTriples] and [buildListBasedIndexes]. *)
Definition owl_buildSchemaIndexes g st stop : stopper * owlIndexes :=
  let '(stop, ty) := sp_triples g None (Some RDF_Type) None (scan scan_type) st stop noTypes in
  let '(stop, inv) := sp_triples g None (Some OWL_InverseOf) None (scan link_uris) st stop ∅ in
  let '(stop, eqp) := sp_triples g None (Some OWL_EquivalentProperty) None (scan link_uris) st stop ∅ in
  let '(stop, eqc) := sp_triples g None (Some OWL_EquivalentClass) None (scan link_classes) st stop ∅ in
  let '(stop, pdw) := sp_triples g None (Some OWL_PropertyDisjointWith) None (scan link_uris) st stop ∅ in
  let '(stop, chains) := sp_triples g None (Some OWL_PropertyChainAxiom) None (index_chain g st) st stop ∅ in
  let '(stop, keys) := sp_triples g None (Some OWL_HasKey) None (index_key g st) st stop ∅ in
  let '(stop, u) := sp_triples g None (Some OWL_SameAs) None (scan (λ t u, uf_union u (Subject t) (Object t))) st stop newUnionFind in
  let '(rs, stop) := buildRestrictions g st (range (restrictionNodes ty)).*2 stop in
  let '(stop, int) := sp_triples g None (Some OWL_IntersectionOf) None (index_list g st) st stop ∅ in
  let '(stop, uni) := sp_triples g None (Some OWL_UnionOf) None (index_list g st) st stop ∅ in
  let '(stop, com) := sp_triples g None (Some OWL_ComplementOf) None (scan (λ t (m : gmap string Term), <[TermKey (Subject t) := Object t]> m)) st stop ∅ in
  let '(stop, one) := sp_triples g None (Some OWL_OneOf) None (index_list g st) st stop ∅ in
  let '(adp, stop) := buildAllDisjoint g st (allDisjPropNodes ty) stop in
  let '(adc, stop) := buildAllDisjoint g st (allDisjClassNodes ty) stop in
  let '(npa, stop) := buildNegPropAssertions g st (negPANodes ty) stop in
  let '(stop, diff) := sp_triples g None (Some OWL_DifferentFrom) None (scan link_different) st stop ∅ in
  let '(stop, dw) := sp_triples g None (Some OWL_DisjointWith) None (scan link_uris) st stop ∅ in
  (stop, MkOwl (ty_symmetric ty) (ty_transitive ty) (ty_functional ty) (ty_invFunc ty) inv eqp eqc
    (ty_irreflexive ty) (ty_asymmetric ty) pdw adp chains keys rs int uni com one dw adc diff npa u).
End build.

(** The triples that make a pass rebuild the indexes. *)
Definition schema_classes : list URIRef :=
  [OWL_SymmetricProperty; OWL_TransitiveProperty; OWL_FunctionalProperty; OWL_InverseFunctionalProperty; OWL_IrreflexiveProperty;
   OWL_AsymmetricProperty; OWL_Restriction; OWL_AllDisjointProperties; OWL_AllDisjointClasses; OWL_NegativePropertyAssertion].
Definition schema_predicates : list URIRef :=
  [OWL_InverseOf; OWL_EquivalentProperty; OWL_EquivalentClass; OWL_SameAs; OWL_PropertyDisjointWith; OWL_PropertyChainAxiom;
   OWL_HasKey; OWL_OnProperty; OWL_SomeValuesFrom; OWL_AllValuesFrom; OWL_HasValue; OWL_HasSelf; OWL_MaxCardinality;
   OWL_MaxQualifiedCardinality; OWL_IntersectionOf; OWL_UnionOf; OWL_ComplementOf; OWL_OneOf; OWL_DisjointWith; OWL_DifferentFrom].
Definition one_of (k : string) (l : list URIRef) : bool := existsb (λ u, String.eqb k (uri_key u)) l.
Definition isSchemaTriple (t : Triple) : bool :=
  let pk := uri_key (Predicate t) in
  if String.eqb pk (uri_key RDF_Type) then one_of (TermKey (Object t)) schema_classes
  else one_of pk schema_predicates.
