(* ===== verification/OwlRules.v ===== *)
(** * OWL 2 RL: the rules

    What a pass derives from the triples of a graph: owlrl_equality.go,
    owlrl_property.go and owlrl_class.go of package [reasoning].  A rule emits its
    results in turn; once the run is stopped [emit] does nothing, so the early
    returns of the loops are not repeated here. *)

From S2P Require Import Prelude GoStrings Strconv Term TermKey TripleIndex Store MemoryStore Graph Collection Reasoning Rdfs UnionFind Owl.
From stdpp Require Import options.

(** A loop that emits the triples of a list. *)
Definition emits (l : list Triple) (stop : stopper) (a : pass) : stopper * pass := emit_all (λ t, t) l stop a.

Definition has_type (types : gmap string unit) (k : string) : bool := match types !! k with Some _ => true | None => false end.
Definition is_key (k : string) (t : Term) : bool := String.eqb (TermKey t) k.

(** [m[k] = append(m[k], v)] for a map keyed by two strings. *)
Definition entries2 {T} (m : gmap (string * string) (list T)) (k : string * string) : list T := default [] (m !! k).
Definition append_to2 {T} (m : gmap (string * string) (list T)) (k : string * string) (v : T) : gmap (string * string) (list T) :=
  <[k := entries2 m k ++ [v]]> m.

(** Two terms that are the same, said in both directions when both can be
    subjects. *)
Definition same_both (x y : Term) : list Triple :=
  if isSubject x && isSubject y then [MkTriple x OWL_SameAs y; MkTriple y OWL_SameAs x] else [].
(** The first against each of the others. *)
Definition star_pairs (objs : list Term) : list Triple :=
  match objs with [] => [] | x :: rest => rest ≫= same_both x end.
(** The same of terms that are known to be subjects. *)
Definition subject_pairs (subjs : list Term) : list Triple :=
  match subjs with [] => [] | x :: rest => rest ≫= λ y, [MkTriple x OWL_SameAs y; MkTriple y OWL_SameAs x] end.
(** Each against the later ones. *)
Fixpoint class_pairs (members : list Term) : list Triple :=
  match members with [] => [] | x :: rest => (rest ≫= same_both x) ++ class_pairs rest end.

(** ** Equality *)

Definition index_members (m : gmap string (list Term)) (members : list Term) : gmap string (list Term) :=
  foldl (λ m x, <[TermKey x := members]> m) m members.
Definition memberOf (classes : list (list Term)) : gmap string (list Term) := foldl index_members ∅ classes.

Definition others (t : Term) (l : list Term) : list Term := List.filter (λ e, negb (is_key (TermKey t) e)) l.

(** eq-rep-s, eq-rep-o, and both. *)
Definition replacements (m : gmap string (list Term)) (t : Triple) : list Triple :=
  let ses := List.filter isSubject (others (Subject t) (entries m (TermKey (Subject t)))) in
  let oes := others (Object t) (entries m (TermKey (Object t))) in
  ((λ se, MkTriple se (Predicate t) (Object t)) <$> ses) ++
  ((λ oe, MkTriple (Subject t) (Predicate t) oe) <$> oes) ++
  (ses ≫= λ se, (λ oe, MkTriple se (Predicate t) oe) <$> oes).

(** ** Properties *)

(** The rules that look at one triple: prp-symp, prp-inv, prp-eqp, cax-eqc. *)
Definition property_results (e : owlIndexes) (t : Triple) : list Triple :=
  let pk := uri_key (Predicate t) in
  (if bool_decide (pk ∈ symmetricProps e) && isSubject (Object t) then [MkTriple (Object t) (Predicate t) (Subject t)] else []) ++
  (if isSubject (Object t) then (λ inv, MkTriple (Object t) inv (Subject t)) <$> entries (inverseOf e) pk else []) ++
  ((λ q, MkTriple (Subject t) q (Object t)) <$> entries (equivProp e) pk) ++
  (if String.eqb pk (uri_key RDF_Type) then (λ c, MkTriple (Subject t) RDF_Type c) <$> entries (equivClass e) (TermKey (Object t)) else []).

Record propEdges := MkEdges { pe_pred : URIRef; pe_fwd : gmap string (list Term) }.

Definition add_edge (e : owlIndexes) (m : gmap string propEdges) (t : Triple) : gmap string propEdges :=
  let pk := uri_key (Predicate t) in
  if bool_decide (pk ∈ transitiveProps e)
  then let pe := default (MkEdges (Predicate t) ∅) (m !! pk) in
       <[pk := MkEdges (pe_pred pe) (append_to (pe_fwd pe) (TermKey (Subject t)) (Object t))]> m
  else m.

(** The walk from an object over the edges of one property, breadth first; it is
    the loop of [transitiveClose] with the object visited. *)
Definition walk_edges (fwd : gmap string (list Term)) (o : Term) : list Term :=
  let nexts := entries fwd (TermKey o) in
  close_loop TermKey (close_fuel fwd nexts) fwd {[TermKey o]} [] nexts.

Definition transitive_results (pe : propEdges) (allTriples : list Triple) : list Triple :=
  allTriples ≫= λ t,
    if String.eqb (uri_key (Predicate t)) (uri_key (pe_pred pe))
    then (λ cur, MkTriple (Subject t) (pe_pred pe) cur) <$> walk_edges (pe_fwd pe) (Object t) else [].

Definition group_functional (e : owlIndexes) (m : gmap (string * string) (list Term)) (t : Triple) : gmap (string * string) (list Term) :=
  let pk := uri_key (Predicate t) in
  if bool_decide (pk ∈ functionalProps e) then append_to2 m (pk, TermKey (Subject t)) (Object t) else m.
Definition group_invFunc (e : owlIndexes) (m : gmap (string * string) (list Term)) (t : Triple) : gmap (string * string) (list Term) :=
  let pk := uri_key (Predicate t) in
  if bool_decide (pk ∈ invFuncProps e) then append_to2 m (pk, TermKey (Object t)) (Subject t) else m.

(** [evalChainStep]. *)
Fixpoint evalChainStep (byPred : gmap string (list Triple)) (chain : list URIRef) (start cur : Term) (result : URIRef) : list Triple :=
  match chain with
  | [] => []
  | p :: chain =>
      entries byPred (uri_key p) ≫= λ t,
        if negb (is_key (TermKey cur) (Subject t)) then []
        else match chain with
             | [] => [MkTriple start result (Object t)]
             | _ => if isSubject (Object t) then evalChainStep byPred chain start (Object t) result else []
             end
  end.
(** [evalChain] from its first step. *)
Definition evalChain (byPred : gmap string (list Triple)) (chain : list URIRef) (result : URIRef) : list Triple :=
  match chain with
  | [] => []
  | p :: chain =>
      entries byPred (uri_key p) ≫= λ t,
        match chain with
        | [] => [MkTriple (Subject t) result (Object t)]
        | _ => if isSubject (Object t) then evalChainStep byPred chain (Subject t) (Object t) result else []
        end
  end.

Definition hasCommonValue (a b : list Term) : bool :=
  match a, b with
  | [], _ | _, [] => false
  | _, _ => let set : gset string := list_to_set (TermKey <$> a) in existsb (λ v, bool_decide (TermKey v ∈ set)) b
  end.

(** Do two instances agree on all key properties? *)
Definition keys_match (propVals : gmap (string * string) (list Term)) (keyProps : list URIRef) (ik jk : string) : bool :=
  forallb (λ kp, hasCommonValue (entries2 propVals (ik, uri_key kp)) (entries2 propVals (jk, uri_key kp))) keyProps.
Fixpoint key_pairs (propVals : gmap (string * string) (list Term)) (keyProps : list URIRef) (instances : list Term) : list Triple :=
  match instances with
  | [] => []
  | x :: rest =>
      (rest ≫= λ y, if negb (String.eqb (TermKey x) (TermKey y)) && keys_match propVals keyProps (TermKey x) (TermKey y)
                    then [MkTriple x OWL_SameAs y; MkTriple y OWL_SameAs x] else []) ++
      key_pairs propVals keyProps rest
  end.

Definition index_instance (e : owlIndexes) (m : gmap string (list Term)) (t : Triple) : gmap string (list Term) :=
  if String.eqb (uri_key (Predicate t)) (uri_key RDF_Type)
  then match hasKeyIndex e !! TermKey (Object t) with Some _ => append_to m (TermKey (Object t)) (Subject t) | None => m end
  else m.

(** ** Indexes of the triples of a pass *)

Definition index_type (m : gmap string (gmap string unit)) (t : Triple) : gmap string (gmap string unit) :=
  if String.eqb (uri_key (Predicate t)) (uri_key RDF_Type)
  then <[TermKey (Subject t) := <[TermKey (Object t) := tt]> (default ∅ (m !! TermKey (Subject t)))]> m
  else m.
Definition index_object (m : gmap (string * string) (list Term)) (t : Triple) : gmap (string * string) (list Term) :=
  append_to2 m (TermKey (Subject t), uri_key (Predicate t)) (Object t).
Definition index_subject (m : gmap (string * string) (list Term)) (t : Triple) : gmap (string * string) (list Term) :=
  append_to2 m (uri_key (Predicate t), TermKey (Object t)) (Subject t).

Record classIndexes := MkClassIndexes {
  typeIndex : gmap string (gmap string unit);
  propObjs : gmap (string * string) (list Term);
  propSubjs : gmap (string * string) (list Term)
}.
Definition class_indexes (allTriples : list Triple) : classIndexes :=
  MkClassIndexes (foldl index_type ∅ allTriples) (foldl index_object ∅ allTriples) (foldl index_subject ∅ allTriples).

(** The first triple with a subject; the first [rdf:type] triple with it; the
    first triple of a predicate with it. *)
Definition find_subject (sk : string) (l : list Triple) : option Triple := List.find (λ t, is_key sk (Subject t)) l.
Definition find_with (p : URIRef) (sk : string) (l : list Triple) : option Triple :=
  List.find (λ t, String.eqb (uri_key (Predicate t)) (uri_key p) && is_key sk (Subject t)) l.
Definition subject_of (o : option Triple) (f : Term → list Triple) : list Triple :=
  match o with Some t => f (Subject t) | None => [] end.

Section class_rules.
Context `{GoRange}.
Implicit Types (e : owlIndexes) (x : classIndexes) (r : owlRestriction).

(** The instances of a class, by key. *)
Definition instances_of x (ck : string) : list string := (List.filter (λ kt : string * gmap string unit, has_type kt.2 ck) (range (typeIndex x))).*1.

(** cls-hv1 and cls-hv2. *)
Definition hasValue_results x (allTriples : list Triple) r : list Triple :=
  match hasValue r with
  | None => []
  | Some v =>
      (instances_of x (TermKey (r_node r)) ≫= λ sk, subject_of (find_subject sk allTriples) (λ s, [MkTriple s (onProperty r) v])) ++
      ((λ s, MkTriple s RDF_Type (r_node r)) <$> entries2 (propSubjs x) (uri_key (onProperty r), TermKey v))
  end.

(** cls-svf1 and cls-svf2. *)
Definition someValues_results x (allTriples : list Triple) r : list Triple :=
  match someValuesFrom r with
  | None => []
  | Some c =>
      allTriples ≫= λ t,
        if negb (String.eqb (uri_key (Predicate t)) (uri_key (onProperty r))) then []
        else if is_key (uri_key OWL_Thing) c || has_type (default ∅ (typeIndex x !! TermKey (Object t))) (TermKey c)
             then [MkTriple (Subject t) RDF_Type (r_node r)] else []
  end.

(** cls-avf. *)
Definition allValues_results x r : list Triple :=
  match allValuesFrom r with
  | None => []
  | Some c =>
      instances_of x (TermKey (r_node r)) ≫= λ sk,
        (λ o, MkTriple o RDF_Type c) <$> List.filter isSubject (entries2 (propObjs x) (sk, uri_key (onProperty r)))
  end.

(** cls-maxc2. *)
Definition maxCard_results x r : list Triple :=
  if negb (maxCard r =? 1)%Z then []
  else instances_of x (TermKey (r_node r)) ≫= λ sk, star_pairs (entries2 (propObjs x) (sk, uri_key (onProperty r))).

(** cls-maxqc3 and cls-maxqc4. *)
Definition qualified x (c : Term) (objs : list Term) : list Term :=
  List.filter (λ obj, is_key (uri_key OWL_Thing) c || has_type (default ∅ (typeIndex x !! TermKey obj)) (TermKey c)) objs.
Definition maxQualCard_results x r : list Triple :=
  match onClass r with
  | Some c =>
      if negb (maxQualCard r =? 1)%Z then []
      else instances_of x (TermKey (r_node r)) ≫= λ sk, star_pairs (qualified x c (entries2 (propObjs x) (sk, uri_key (onProperty r))))
  | None => []
  end.

(** cls-int1. *)
Definition candidates x (allTriples : list Triple) (m0 : Term) : gmap string Term :=
  foldl (λ m sk, match find_with RDF_Type sk allTriples with Some t => <[sk := Subject t]> m | None => m end) ∅ (instances_of x (TermKey m0)).
Definition has_all x (members : list Term) (sk : string) : bool :=
  forallb (λ m, has_type (default ∅ (typeIndex x !! sk)) (TermKey m)) members.
Definition intersection_results x (allTriples : list Triple) (ck : string) (members : list Term) : list Triple :=
  match members with
  | [] => []
  | m0 :: _ =>
      range (candidates x allTriples m0) ≫= λ kv : string * Term,
        if has_all x members kv.1 then subject_of (find_with OWL_IntersectionOf ck allTriples) (λ c, [MkTriple kv.2 RDF_Type c]) else []
  end.

(** cls-int2. *)
Definition member_results x (allTriples : list Triple) (ck : string) (members : list Term) : list Triple :=
  instances_of x ck ≫= λ sk, subject_of (find_with RDF_Type sk allTriples) (λ s, (λ m, MkTriple s RDF_Type m) <$> members).

(** cls-uni. *)
Definition union_results x (allTriples : list Triple) (ck : string) (members : list Term) : list Triple :=
  range (typeIndex x) ≫= λ kt : string * gmap string unit,
    if existsb (λ m, has_type kt.2 (TermKey m)) members
    then subject_of (find_with RDF_Type kt.1 allTriples) (λ s,
           subject_of (find_with OWL_UnionOf ck allTriples) (λ c, [MkTriple s RDF_Type c]))
    else [].

(** cls-oo. *)
Definition oneOf_results (allTriples : list Triple) (ck : string) (members : list Term) : list Triple :=
  subject_of (find_with OWL_OneOf ck allTriples) (λ c, (λ m, MkTriple m RDF_Type c) <$> List.filter isSubject members).

Definition applyClassRules e (allTriples : list Triple) stop (a : pass) : stopper * pass :=
  let x := class_indexes allTriples in
  emits
    ((restrictions e ≫= hasValue_results x allTriples) ++
     (restrictions e ≫= someValues_results x allTriples) ++
     (restrictions e ≫= allValues_results x) ++
     (restrictions e ≫= maxCard_results x) ++
     (restrictions e ≫= maxQualCard_results x) ++
     (range (intersectionOf e) ≫= λ cm : string * list Term, intersection_results x allTriples cm.1 cm.2) ++
     (range (intersectionOf e) ≫= λ cm : string * list Term, member_results x allTriples cm.1 cm.2) ++
     (range (unionOf e) ≫= λ cm : string * list Term, union_results x allTriples cm.1 cm.2) ++
     (range (oneOfMembers e) ≫= λ cm : string * list Term, oneOf_results allTriples cm.1 cm.2)) stop a.

(** ** The passes over equality and properties *)

Definition with_uf e (u : unionFind) : owlIndexes :=
  MkOwl (symmetricProps e) (transitiveProps e) (functionalProps e) (invFuncProps e) (inverseOf e) (equivProp e) (equivClass e)
    (irreflexiveProps e) (asymmetricProps e) (propDisjointWith e) (allDisjointProps e) (propChainAxiom e) (hasKeyIndex e)
    (restrictions e) (intersectionOf e) (unionOf e) (complementOf e) (oneOfMembers e) (disjointWith e) (allDisjointClass e)
    (differentFrom e) (negPropAsserts e) u.

(** Finding the classes shortens the paths of the forest. *)
Definition applyEqualityRules e (allTriples : list Triple) stop (a : pass) : owlIndexes * stopper * pass :=
  let '(cls, u) := classes (uf e) in
  let '(stop, a) := emits (cls ≫= class_pairs) stop a in
  let '(stop, a) := if (0 <? uf_size u)%nat then emits (allTriples ≫= replacements (memberOf cls)) stop a else (stop, a) in
  (with_uf e u, stop, a).

Section stores.
Context {St : Type} `{Store St}.

(** [termForKey]: the property a key belongs to, from the chain axioms. *)
Definition termForKey (g : Graph_) (key : string) (st : St) stop : stopper * option URIRef :=
  sp_triples g None (Some OWL_PropertyChainAxiom) None
    (λ t stop found, match asURIRef (Subject t) with
                 | Some u => if String.eqb (uri_key u) key then (false, stop, Some u) else (true, stop, found)
                 | None => (true, stop, found)
                 end) st stop None.

Fixpoint apply_chains (g : Graph_) (byPred : gmap string (list Triple)) (axioms : list (string * list (list URIRef))) (st : St) stop (a : pass) : stopper * pass :=
  match axioms with
  | [] => (stop, a)
  | (pk, chains) :: axioms =>
      let '(stop, prop) := termForKey g pk st stop in
      let '(stop, a) := match prop with Some p => emits (chains ≫= λ chain, evalChain byPred chain p) stop a | None => (stop, a) end in
      apply_chains g byPred axioms st stop a
  end.

Definition index_predicate (m : gmap string (list Triple)) (t : Triple) : gmap string (list Triple) := append_to m (uri_key (Predicate t)) t.

Definition applyPropertyRules (g : Graph_) e (allTriples : list Triple) (st : St) stop (a : pass) : stopper * pass :=
  let '(stop, a) := emits (allTriples ≫= property_results e) stop a in
  let '(stop, a) := emits (range (foldl (add_edge e) ∅ allTriples) ≫= λ kp : string * propEdges, transitive_results kp.2 allTriples) stop a in
  let '(stop, a) := emits (range2 (foldl (group_functional e) ∅ allTriples) ≫= λ ko : (string * string) * list Term, star_pairs ko.2) stop a in
  let '(stop, a) := emits (range2 (foldl (group_invFunc e) ∅ allTriples) ≫= λ ks : (string * string) * list Term, subject_pairs ks.2) stop a in
  let '(stop, a) := apply_chains g (foldl index_predicate ∅ allTriples) (range (propChainAxiom e)) st stop a in
  let idx := foldl (index_instance e) ∅ allTriples in
  let vals := foldl index_object ∅ allTriples in
  emits (range (hasKeyIndex e) ≫= λ ck : string * list URIRef, key_pairs vals ck.2 (entries idx ck.1)) stop a.
End stores.
End class_rules.
