(* ===== verification/OwlEngine.v ===== *)
(** * OWL 2 RL: runs, consistency, entailment regimes

    The fixed-point loop (owlrl.go), the checks on the closed graph
    (owlrl_consistency.go) and the alternation with RDFS (entailment.go). *)

From S2P Require Import Prelude GoStrings Strconv Term TermKey TripleIndex Store MemoryStore Graph Collection Reasoning Rdfs UnionFind Owl OwlRules.
From stdpp Require Import options.

Record Inconsistency := MkInconsistency { Rule : string; Message : string }.

Section consistency.
Context `{GoRange}.
Implicit Types (e : owlIndexes) (x : classIndexes) (stop : stopper).

Definition n3 (t : Term) : string := Term_N3 None t.
Definition n3u (u : URIRef) : string := URIRef_N3 None u.

(** ** The checks on indexes *)

(** cls-nothing2. *)
Definition check_nothing x : list Inconsistency :=
  range (typeIndex x) ≫= λ kt : string * gmap string unit,
    if has_type kt.2 (uri_key OWL_Nothing)
    then [MkInconsistency "cls-nothing2" ("individual " +:+ kt.1 +:+ " is typed as owl:Nothing")] else [].

(** The pairs [i < j] of a group. *)
Fixpoint group_pairs {T} (l : list T) : list (T * T) :=
  match l with [] => [] | x :: l => ((λ y, (x, y)) <$> l) ++ group_pairs l end.

(** prp-adp. *)
Definition check_disjoint_properties x (group : list URIRef) : list Inconsistency :=
  group_pairs group ≫= λ pp : URIRef * URIRef,
    range2 (propObjs x) ≫= λ ko : (string * string) * list Term,
      if negb (String.eqb ko.1.2 (uri_key pp.1)) then []
      else ko.2 ≫= λ obj, entries2 (propObjs x) (ko.1.1, uri_key pp.2) ≫= λ t,
        if is_key (TermKey obj) t
        then [MkInconsistency "prp-adp" ("all-disjoint properties " +:+ n3u pp.1 +:+ " and " +:+ n3u pp.2 +:+ " share value for same subject")]
        else [].

(** cax-dw: reported once for a pair. *)
Definition check_disjoint_with e x : list Inconsistency :=
  range (typeIndex x) ≫= λ kt : string * gmap string unit,
    range kt.2 ≫= λ ck : string * unit,
      entries (disjointWith e) ck.1 ≫= λ c2,
        if has_type kt.2 (uri_key c2) && str_lt ck.1 (uri_key c2)
        then [MkInconsistency "cax-dw" ("individual " +:+ kt.1 +:+ " is member of disjoint classes " +:+ ck.1 +:+ " and " +:+ uri_key c2)]
        else [].

(** cax-adc. *)
Definition check_disjoint_classes x (group : list URIRef) : list Inconsistency :=
  range (typeIndex x) ≫= λ kt : string * gmap string unit,
    match List.filter (λ c, has_type kt.2 (uri_key c)) group with
    | c1 :: c2 :: _ =>
        [MkInconsistency "cax-adc" ("individual " +:+ kt.1 +:+ " is member of multiple all-disjoint classes: " +:+ n3u c1 +:+ ", " +:+ n3u c2)]
    | _ => []
    end.

(** cls-com. *)
Definition check_complements e x : list Inconsistency :=
  range (complementOf e) ≫= λ cc : string * Term,
    range (typeIndex x) ≫= λ kt : string * gmap string unit,
      if has_type kt.2 cc.1 && has_type kt.2 (TermKey cc.2)
      then [MkInconsistency "cls-com" ("individual " +:+ kt.1 +:+ " is member of complementary classes " +:+ cc.1 +:+ " and " +:+ TermKey cc.2)]
      else [].

(** cls-maxc1, cls-maxqc1 and cls-maxqc2. *)
Definition check_maxCard x (r : owlRestriction) : list Inconsistency :=
  if negb (maxCard r =? 0)%Z then []
  else instances_of x (TermKey (r_node r)) ≫= λ sk,
    if (0 <? length (entries2 (propObjs x) (sk, uri_key (onProperty r))))%nat
    then [MkInconsistency "cls-maxc1" ("individual " +:+ sk +:+ " has property " +:+ n3u (onProperty r) +:+ " but maxCardinality is 0")] else [].
Definition check_maxQualCard x (r : owlRestriction) : list Inconsistency :=
  match onClass r with
  | Some c =>
      if negb (maxQualCard r =? 0)%Z then []
      else instances_of x (TermKey (r_node r)) ≫= λ sk,
        let objs := entries2 (propObjs x) (sk, uri_key (onProperty r)) in
        if is_key (uri_key OWL_Thing) c
        then match objs with
             | [] => []
             | _ => [MkInconsistency "cls-maxqc2" ("individual " +:+ sk +:+ " has property " +:+ n3u (onProperty r) +:+
                       " but maxQualifiedCardinality is 0 on owl:Thing")]
             end
        else if existsb (λ obj, has_type (default ∅ (typeIndex x !! TermKey obj)) (TermKey c)) objs
             then [MkInconsistency "cls-maxqc1" ("individual " +:+ sk +:+ " has property " +:+ n3u (onProperty r) +:+
                     " to qualified individual but maxQualifiedCardinality is 0")]
             else []
  | None => []
  end.

(** prp-npa1 and prp-npa2. *)
Definition check_npa x (npa : negPropAssertion) : list Inconsistency :=
  entries2 (propObjs x) (TermKey (npa_source npa), uri_key (npa_property npa)) ≫= λ obj,
    let report (rule : string) (target : option Term) :=
      match target with
      | Some t => if is_key (TermKey t) obj
                  then [MkInconsistency rule ("negative property assertion violated: " +:+ n3 (npa_source npa) +:+ " " +:+
                          n3u (npa_property npa) +:+ " " +:+ n3 t)] else []
      | None => []
      end in
    report "prp-npa1" (npa_targetI npa) ++ report "prp-npa2" (npa_targetV npa).

(** eq-diff1; looking up a root shortens the paths of the forest. *)
Fixpoint check_different (pairs : list (string * Term)) (u : unionFind) : list Inconsistency :=
  match pairs with
  | [] => []
  | (sk, d) :: pairs =>
      let dk := TermKey d in
      if (0 <? uf_size u)%nat then
        let '(rootS, u) := findKey u sk in
        let '(rootD, u) := findKey u dk in
        (if String.eqb rootS rootD && negb (is_empty rootS) && str_lt sk dk
         then [MkInconsistency "eq-diff1" (sk +:+ " is both owl:sameAs and owl:differentFrom " +:+ dk)] else []) ++
        check_different pairs u
      else check_different pairs u
  end.

(** ** The checks on the store *)

Section stores.
Context {St : Type} `{Store St}.
Implicit Types (g : Graph_) (st : St).

(** prp-irp. *)
Definition check_irreflexive e (t : Triple) (acc : list Inconsistency) : list Inconsistency :=
  if bool_decide (uri_key (Predicate t) ∈ irreflexiveProps e) && is_key (TermKey (Object t)) (Subject t)
  then acc ++ [MkInconsistency "prp-irp" (n3 (Subject t) +:+ " " +:+ n3u (Predicate t) +:+ " " +:+ n3 (Object t) +:+ " violates irreflexivity")]
  else acc.

(** prp-asyp: reported once for a pair. *)
Definition check_asymmetric g e st (t : Triple) stop (acc : list Inconsistency) : bool * stopper * list Inconsistency :=
  if negb (bool_decide (uri_key (Predicate t) ∈ asymmetricProps e)) then (true, stop, acc)
  else if isSubject (Object t) then
    let '(both, stop) := sp_contains g (Object t) (Predicate t) (Subject t) st stop in
    (true, stop,
     if both && str_lt (TermKey (Subject t)) (TermKey (Object t))
     then acc ++ [MkInconsistency "prp-asyp" (n3 (Subject t) +:+ " " +:+ n3u (Predicate t) +:+ " " +:+ n3 (Object t) +:+
                    " and reverse violates asymmetry")]
     else acc)
  else (true, stop, acc).

(** prp-pdw: reported once for a pair. *)
Fixpoint check_pdw g st (t : Triple) (disjoints : list URIRef) stop (acc : list Inconsistency) : stopper * list Inconsistency :=
  match disjoints with
  | [] => (stop, acc)
  | p2 :: disjoints =>
      let '(both, stop) := sp_contains g (Subject t) p2 (Object t) st stop in
      check_pdw g st t disjoints stop
        (if both && str_lt (uri_key (Predicate t)) (uri_key p2)
         then acc ++ [MkInconsistency "prp-pdw" (n3 (Subject t) +:+ " has disjoint properties " +:+ n3u (Predicate t) +:+ " and " +:+ n3u p2 +:+
                        " with same value " +:+ n3 (Object t))]
         else acc)
  end.

Definition check_property_disjoint g e st (t : Triple) stop (acc : list Inconsistency) : bool * stopper * list Inconsistency :=
  let '(stop, acc) := check_pdw g st t (entries (propDisjointWith e) (uri_key (Predicate t))) stop acc in (true, stop, acc).

Definition checkConsistency g e st stop : list Inconsistency * stopper :=
  let '(stop, ix) := sp_triples g None None None
    (scan (λ t ix, (index_type ix.1 t, index_object ix.2 t))) st stop (∅, ∅) in
  let x := MkClassIndexes ix.1 ix.2 ∅ in
  let '(stop, irp) := sp_triples g None None None (scan (check_irreflexive e)) st stop [] in
  let '(stop, asyp) := sp_triples g None None None (check_asymmetric g e st) st stop [] in
  let '(stop, pdw) := sp_triples g None None None (check_property_disjoint g e st) st stop [] in
  (check_nothing x ++ irp ++ asyp ++ pdw ++
   (allDisjointProps e ≫= check_disjoint_properties x) ++ check_disjoint_with e x ++
   (allDisjointClass e ≫= check_disjoint_classes x) ++
   check_different (range (differentFrom e) ≫= λ kd : string * list Term, (λ d, (kd.1, d)) <$> kd.2) (uf e) ++
   check_complements e x ++
   (restrictions e ≫= λ r, check_maxCard x r ++ check_maxQualCard x r) ++
   (negPropAsserts e ≫= check_npa x), stop).

(** ** Runs *)

(** The snapshot a pass works on. *)
Definition take_triple (t : Triple) stop (acc : list Triple) : bool * stopper * list Triple :=
  match sp_tick stop with (true, stop) => (false, stop, acc) | (false, stop) => (true, stop, acc ++ [t]) end.

(** A pass; one that was stopped has no new triples. *)
Definition owl_applyRules g e (d : dedupSet) st stop : owlIndexes * stopper * pass :=
  let '(stop, allTriples) := sp_triples g None None None take_triple st stop [] in
  match sp_poll stop with
  | (true, stop) => (e, stop, MkPass d [])
  | (false, stop) =>
      let '(e, stop, a) := applyEqualityRules e allTriples stop (MkPass d []) in
      if halted stop then (e, stop, MkPass (ded a) [])
      else
        let '(stop, a) := applyPropertyRules g e allTriples st stop a in
        if halted stop then (e, stop, MkPass (ded a) [])
        else
          let '(stop, a) := applyClassRules e allTriples stop a in
          if halted stop then (e, stop, MkPass (ded a) []) else (e, stop, a)
  end.

Fixpoint owl_loop (fuel : nat) g e (d : dedupSet) (totalAdded : Z) stop st : Z * list Inconsistency * stopper * St :=
  match fuel with
  | O => (totalAdded, [], stop, st)
  | S fuel =>
      let '(e, stop, a) := owl_applyRules g e d st stop in
      match sp_poll stop with
      | (true, stop) => (totalAdded, [], stop, st)
      | (false, stop) =>
          if bool_decide (newTriples a = []) then
            let '(inconsistencies, stop) := checkConsistency g e st stop in
            (totalAdded, inconsistencies, stop, st)
          else
            match add_pass isSchemaTriple g (newTriples a) 0 false stop st with
            | ((Some i, _), stop, st) => ((totalAdded + i)%Z, [], stop, st)
            | ((None, hasSchemaTriples), stop, st) =>
                let totalAdded := (totalAdded + Z.of_nat (length (newTriples a)))%Z in
                if hasSchemaTriples then
                  let '(stop, e) := owl_buildSchemaIndexes g st stop in
                  owl_loop fuel g e (ded a) totalAdded stop st
                else owl_loop fuel g e (ded a) totalAdded stop st
            end
      end
  end.

(** No pass but the last adds nothing, and no triple has a term that is not one of
    the graph, [rdf:type] or [owl:sameAs]: the triples over these bound the
    passes. *)
Definition owl_fuel g st : nat :=
  let n := length (g_Triples None g None None None st) in S (S ((3 * n + 2) * (3 * n + 2) * (3 * n + 2))).

(** [owlrlEngine.run]. *)
Definition owl_run g stop st : Z * list Inconsistency * stopper * St :=
  let '(stop, d) := sp_triples g None None None
    (scan (λ t d, (addNew d (Subject t) (Predicate t) (Object t)).2)) st stop ∅ in
  let '(stop, e) := owl_buildSchemaIndexes g st stop in
  owl_loop (owl_fuel g st) g e d 0 stop st.

(** [newOWLRLEngine] asks the store for its size first. *)
Definition newOWLRLEngine_run g stop st : Z * list Inconsistency * stopper * St :=
  let '(_, stop) := sp_length g st stop in owl_run g stop st.

Definition OWLRLClosureCheck (ctx : nat → option error) g st : Z * list Inconsistency * option error * St :=
  let '(n, ic, stop, st) := newOWLRLEngine_run g (newStopper ctx) st in
  match failure stop with
  | Some err => (n, [], Some err, st)
  | None => (n, ic, None, st)
  end.

Definition OWLRLClosure (ctx : nat → option error) g st : Z * option error * St :=
  let '(n, _, err, st) := OWLRLClosureCheck ctx g st in (n, err, st).

(** ** Entailment regimes *)

Definition ErrUnknownRegime : error := Sentinel "reasoning: unknown entailment regime".
(** A regime is a set of flags. *)
Definition RDFS : Z := 1.
Definition OWLRL : Z := 2.

(** The alternation of the two closures. *)
Fixpoint expand_loop (fuel : nat) g (total : Z) stop st : Z * list Inconsistency * option error * St :=
  match fuel with
  | O => (total, [], None, st)
  | S fuel =>
      let '(n, ic, stop, st) := newOWLRLEngine_run g stop st in
      let total := (total + n)%Z in
      match failure stop with
      | Some err => (total, [], Some err, st)
      | None =>
          if (n =? 0)%Z then (total, ic, None, st)
          else
            let '(m, stop, st) := newRDFSEngine_run g stop st in
            let total := (total + m)%Z in
            match failure stop with
            | Some err => (total, [], Some err, st)
            | None => if (m =? 0)%Z then (total, ic, None, st) else expand_loop fuel g total stop st
            end
      end
  end.

(** Each round but the last adds a triple over the same terms. *)
Definition expand_fuel g st : nat := owl_fuel g st.

Definition ExpandCheckContext (ctx : nat → option error) g (r : Z) st : Z * list Inconsistency * option error * St :=
  if (r =? 0)%Z || negb (Z.ldiff r (Z.lor RDFS OWLRL) =? 0)%Z then (0%Z, [], Some ErrUnknownRegime, st)
  else
    match sp_poll (newStopper ctx) with
    | (true, stop) => (0%Z, [], failure stop, st)
    | (false, stop) =>
        let '(total, stop, st') := newRDFSEngine_run g stop st in
        match failure stop with
        | Some err => (total, [], Some err, st')
        | None =>
            if (Z.land r OWLRL =? 0)%Z then (total, [], None, st')
            else expand_loop (expand_fuel g st) g total stop st'
        end
    end.
End stores.
End consistency.
