(* ===== verification/OwlSpec.v ===== *)
(** * OWL 2 RL: derivations

    The rules of the profile that the package implements, as closure conditions on a
    set of triples, and what a graph entails: the least set that contains it and
    is closed under them. *)

From S2P Require Import Prelude GoStrings Strconv Term TermKey TripleIndex Store MemoryStore Graph Collection Reasoning Rdfs RdfsCorrect Owl.
From stdpp Require Import relations options.

Abbreviation U := TURIRef.

(** ** Patterns of several triples *)

Section patterns.
Context (S : Triple → Prop).

Definition same_step (x y : Term) : Prop := S (MkTriple x OWL_SameAs y).
(** Connected by at least one [owl:sameAs] triple, in either direction. *)
Definition same_as (x y : Term) : Prop := tc (sc same_step) x y.

(** [LIST[l, ms]]. *)
Inductive rdf_list : Term → list Term → Prop :=
| list_nil : rdf_list (U RDF_Nil) []
| list_cons l v r vs : S (MkTriple l RDF_First v) → S (MkTriple l RDF_Rest r) → rdf_list r vs → rdf_list l (v :: vs).

Inductive list_member : Term → Term → Prop :=
| member_here l v : S (MkTriple l RDF_First v) → list_member l v
| member_later l r v : S (MkTriple l RDF_Rest r) → list_member r v → list_member l v.

(** The first elements of a list, as far as it is written. *)
Inductive list_prefix : Term → list Term → Prop :=
| prefix_none l : list_prefix l []
| prefix_one l v : S (MkTriple l RDF_First v) → list_prefix l [v]
| prefix_more l v r vs : S (MkTriple l RDF_First v) → S (MkTriple l RDF_Rest r) → list_prefix r vs → list_prefix l (v :: vs).

(** A chain of properties leads from one term to another. *)
Inductive chain_path : list URIRef → Term → Term → Prop :=
| path_last p x y : S (MkTriple x p y) → chain_path [p] x y
| path_step p ps x y z : S (MkTriple x p y) → isSubject y = true → chain_path ps y z → chain_path (p :: ps) x z.

Definition restriction_on (r : Term) (p : URIRef) : Prop := S (MkTriple r RDF_Type (U OWL_Restriction)) ∧ S (MkTriple r OWL_OnProperty (U p)).
(** A cardinality written as a literal. *)
Definition says_card (r : Term) (q : URIRef) (n : Z) : Prop := ∃ l, S (MkTriple r q (TLiteral l)) ∧ ParseInt64 (lexical l) = Some n.

(** ** The rules *)

Record rdfs_closed : Prop := {
  c_rdfs2 s p o c : S (MkTriple (U p) RDFS_Domain c) → isSubject c = true → S (MkTriple s p o) → S (MkTriple s RDF_Type c);
  c_rdfs3 s p o c : S (MkTriple (U p) RDFS_Range c) → isSubject c = true → S (MkTriple s p o) → isSubject o = true → S (MkTriple o RDF_Type c);
  c_rdfs7 s p o q : S (MkTriple (U p) RDFS_SubPropertyOf (U q)) → S (MkTriple s p o) → S (MkTriple s q o);
  c_rdfs9 s c1 c2 : S (MkTriple c1 RDFS_SubClassOf c2) → isSubject c2 = true → S (MkTriple s RDF_Type c1) → S (MkTriple s RDF_Type c2)
}.

(** eq-sym and eq-trans, eq-rep-s, eq-rep-o. *)
Record eq_closed : Prop := {
  c_same x y : same_as x y → isSubject x = true → isSubject y = true → S (MkTriple x OWL_SameAs y);
  c_rep_s s p o s' : same_as s s' → isSubject s' = true → S (MkTriple s p o) → S (MkTriple s' p o);
  c_rep_o s p o o' : same_as o o' → S (MkTriple s p o) → S (MkTriple s p o')
}.

Record property_closed : Prop := {
  c_symp s p o : S (MkTriple (U p) RDF_Type (U OWL_SymmetricProperty)) → S (MkTriple s p o) → isSubject o = true → S (MkTriple o p s);
  c_inv1 s p1 p2 o : S (MkTriple (U p1) OWL_InverseOf (U p2)) → S (MkTriple s p1 o) → isSubject o = true → S (MkTriple o p2 s);
  c_inv2 s p1 p2 o : S (MkTriple (U p1) OWL_InverseOf (U p2)) → S (MkTriple s p2 o) → isSubject o = true → S (MkTriple o p1 s);
  c_eqp1 s p1 p2 o : S (MkTriple (U p1) OWL_EquivalentProperty (U p2)) → S (MkTriple s p1 o) → S (MkTriple s p2 o);
  c_eqp2 s p1 p2 o : S (MkTriple (U p1) OWL_EquivalentProperty (U p2)) → S (MkTriple s p2 o) → S (MkTriple s p1 o);
  c_eqc1 s c1 c2 : S (MkTriple c1 OWL_EquivalentClass c2) → isSubject c2 = true → S (MkTriple s RDF_Type c1) → S (MkTriple s RDF_Type c2);
  c_eqc2 s c1 c2 : S (MkTriple c1 OWL_EquivalentClass c2) → isSubject c2 = true → S (MkTriple s RDF_Type c2) → S (MkTriple s RDF_Type c1);
  c_trp p x y z : S (MkTriple (U p) RDF_Type (U OWL_TransitiveProperty)) → S (MkTriple x p y) → S (MkTriple y p z) → S (MkTriple x p z);
  c_fp p x y1 y2 : S (MkTriple (U p) RDF_Type (U OWL_FunctionalProperty)) → S (MkTriple x p y1) → S (MkTriple x p y2) →
    isSubject y1 = true → isSubject y2 = true → TermKey y1 ≠ TermKey y2 → S (MkTriple y1 OWL_SameAs y2);
  c_ifp p x1 x2 y : S (MkTriple (U p) RDF_Type (U OWL_InverseFunctionalProperty)) → S (MkTriple x1 p y) → S (MkTriple x2 p y) →
    TermKey x1 ≠ TermKey x2 → S (MkTriple x1 OWL_SameAs x2)
}.

Record restriction_closed : Prop := {
  c_hv1 r p v u : restriction_on r p → S (MkTriple r OWL_HasValue v) → S (MkTriple u RDF_Type r) → S (MkTriple u p v);
  c_hv2 r p v u : restriction_on r p → S (MkTriple r OWL_HasValue v) → S (MkTriple u p v) → S (MkTriple u RDF_Type r);
  c_svf1 r p c u v : restriction_on r p → S (MkTriple r OWL_SomeValuesFrom c) → S (MkTriple u p v) → S (MkTriple v RDF_Type c) →
    S (MkTriple u RDF_Type r);
  c_svf2 r p u v : restriction_on r p → S (MkTriple r OWL_SomeValuesFrom (U OWL_Thing)) → S (MkTriple u p v) → S (MkTriple u RDF_Type r);
  c_avf r p c u v : restriction_on r p → S (MkTriple r OWL_AllValuesFrom c) → S (MkTriple u RDF_Type r) → S (MkTriple u p v) →
    isSubject v = true → S (MkTriple v RDF_Type c);
  c_maxc2 r p u x y : restriction_on r p → says_card r OWL_MaxCardinality 1 → S (MkTriple u RDF_Type r) → S (MkTriple u p x) → S (MkTriple u p y) →
    isSubject x = true → isSubject y = true → TermKey x ≠ TermKey y → S (MkTriple x OWL_SameAs y);
  c_maxqc3 r p c u x y : restriction_on r p → says_card r OWL_MaxQualifiedCardinality 1 → S (MkTriple r OWL_OnClass c) →
    S (MkTriple u RDF_Type r) → S (MkTriple u p x) → S (MkTriple x RDF_Type c) → S (MkTriple u p y) → S (MkTriple y RDF_Type c) →
    isSubject x = true → isSubject y = true → TermKey x ≠ TermKey y → S (MkTriple x OWL_SameAs y);
  c_maxqc4 r p u x y : restriction_on r p → says_card r OWL_MaxQualifiedCardinality 1 → S (MkTriple r OWL_OnClass (U OWL_Thing)) →
    S (MkTriple u RDF_Type r) → S (MkTriple u p x) → S (MkTriple u p y) →
    isSubject x = true → isSubject y = true → TermKey x ≠ TermKey y → S (MkTriple x OWL_SameAs y)
}.

(** The property chain rule, the key rule, and the classes given by lists. *)
Record list_closed : Prop := {
  c_chain p l ps x z : S (MkTriple (U p) OWL_PropertyChainAxiom l) → rdf_list l (U <$> ps) → chain_path ps x z → S (MkTriple x p z);
  c_key c l ps x y : S (MkTriple c OWL_HasKey l) → rdf_list l (U <$> ps) → ps ≠ [] → S (MkTriple x RDF_Type c) → S (MkTriple y RDF_Type c) →
    (∀ p, p ∈ ps → ∃ z, S (MkTriple x p z) ∧ S (MkTriple y p z)) → TermKey x ≠ TermKey y → S (MkTriple x OWL_SameAs y);
  c_int1 c l ms y : S (MkTriple c OWL_IntersectionOf l) → rdf_list l ms → ms ≠ [] → (∀ m, m ∈ ms → S (MkTriple y RDF_Type m)) →
    S (MkTriple y RDF_Type c);
  c_int2 c l m y : S (MkTriple c OWL_IntersectionOf l) → list_member l m → S (MkTriple y RDF_Type c) → S (MkTriple y RDF_Type m);
  c_uni c l m y : S (MkTriple c OWL_UnionOf l) → list_member l m → S (MkTriple y RDF_Type m) → S (MkTriple y RDF_Type c);
  c_oo c l m : S (MkTriple c OWL_OneOf l) → list_member l m → isSubject m = true → S (MkTriple m RDF_Type c)
}.
End patterns.

(** The rules whose premises are triples only, and all of them; [rdfs] says
    whether those of RDFS belong to them. *)
Definition core_closed (rdfs : bool) (S : Triple → Prop) : Prop := (rdfs = true → rdfs_closed S) ∧ eq_closed S ∧ property_closed S.
Definition owl_closed (rdfs : bool) (S : Triple → Prop) : Prop := core_closed rdfs S ∧ restriction_closed S ∧ list_closed S.

(** What follows from a graph. *)
Definition owl_derives (rdfs : bool) (G : Triple → Prop) (t : Triple) : Prop :=
  ∀ S : Triple → Prop, (∀ u, G u → S u) → owl_closed rdfs S → S t.
Definition core_derives (rdfs : bool) (G : Triple → Prop) (t : Triple) : Prop :=
  ∀ S : Triple → Prop, (∀ u, G u → S u) → core_closed rdfs S → S t.

(** ** The rules are monotone *)

Section monotone.
Context (S S' : Triple → Prop) (HS : ∀ t, S t → S' t).

Lemma same_as_mono x y : same_as S x y → same_as S' x y.
Proof using HS. induction 1 as [x y Hxy|x y z Hxy _ IH]; [apply tc_once|eapply tc_l; [|exact IH]]; destruct Hxy; [left|right|left|right]; by apply HS. Qed.
Lemma rdf_list_mono l ms : rdf_list S l ms → rdf_list S' l ms.
Proof using HS. induction 1; econstructor; eauto. Qed.
Lemma list_member_mono l m : list_member S l m → list_member S' l m.
Proof using HS. induction 1; [by apply member_here, HS|eapply member_later; eauto]. Qed.
Lemma chain_path_mono ps x z : chain_path S ps x z → chain_path S' ps x z.
Proof using HS. induction 1; [by apply path_last, HS|eapply path_step; eauto]. Qed.
Lemma restriction_on_mono r p : restriction_on S r p → restriction_on S' r p.
Proof using HS. intros [? ?]. split; by apply HS. Qed.
Lemma says_card_mono r q n : says_card S r q n → says_card S' r q n.
Proof using HS. intros (l & ? & ?). exists l. split; [by apply HS|done]. Qed.
End monotone.

Lemma owl_given b G t : G t → owl_derives b G t.
Proof. intros Ht S HG _. by apply HG. Qed.

(** What is derivable is closed. *)
Section derivable.
Context (b : bool) (G : Triple → Prop).
Abbreviation D := (owl_derives b G).

Lemma derives_in S : (∀ u, G u → S u) → owl_closed b S → ∀ t, D t → S t.
Proof. intros HG HS t Ht. by apply Ht. Qed.

Lemma owl_derives_closed : owl_closed b D.
Proof.
  repeat split; intros; intros S HG HS; pose proof (derives_in S HG HS) as Hin;
    pose proof (same_as_mono D S Hin); pose proof (rdf_list_mono D S Hin); pose proof (list_member_mono D S Hin);
    pose proof (chain_path_mono D S Hin); pose proof (restriction_on_mono D S Hin); pose proof (says_card_mono D S Hin);
    pose proof HS as [[HR [HE HP]] [HT HL]]; try (specialize (HR ltac:(assumption))).
  - eapply (c_rdfs2 S HR); eauto.
  - eapply (c_rdfs3 S HR); eauto.
  - eapply (c_rdfs7 S HR); eauto.
  - eapply (c_rdfs9 S HR); eauto.
  - eapply (c_same S HE); eauto.
  - eapply (c_rep_s S HE); eauto.
  - eapply (c_rep_o S HE); eauto.
  - eapply (c_symp S HP); eauto.
  - eapply (c_inv1 S HP); eauto.
  - eapply (c_inv2 S HP); eauto.
  - eapply (c_eqp1 S HP); eauto.
  - eapply (c_eqp2 S HP); eauto.
  - eapply (c_eqc1 S HP); eauto.
  - eapply (c_eqc2 S HP); eauto.
  - eapply (c_trp S HP); eauto.
  - eapply (c_fp S HP); eauto.
  - eapply (c_ifp S HP); eauto.
  - eapply (c_hv1 S HT); eauto.
  - eapply (c_hv2 S HT); eauto.
  - eapply (c_svf1 S HT); eauto.
  - eapply (c_svf2 S HT); eauto.
  - eapply (c_avf S HT); eauto.
  - eapply (c_maxc2 S HT); eauto.
  - eapply (c_maxqc3 S HT); eauto.
  - eapply (c_maxqc4 S HT); eauto.
  - eapply (c_chain S HL); eauto.
  - eapply (c_key S HL); eauto. intros q Hq. match goal with HQ : ∀ p, p ∈ _ → _ |- _ => destruct (HQ q Hq) as (z & ? & ?) end. exists z. split; eauto.
  - eapply (c_int1 S HL); eauto.
  - eapply (c_int2 S HL); eauto.
  - eapply (c_uni S HL); eauto.
  - eapply (c_oo S HL); eauto.
Qed.
End derivable.

Lemma owl_derives_idem b G t : owl_derives b (owl_derives b G) t → owl_derives b G t.
Proof. intros Ht. apply Ht; [done|apply owl_derives_closed]. Qed.

Lemma owl_derives_mono b (G G' : Triple → Prop) t : (∀ t, G t → G' t) → owl_derives b G t → owl_derives b G' t.
Proof. intros HG Ht S HS Hc. apply Ht; [|done]. intros u Hu. by apply HS, HG. Qed.

Lemma core_derives_owl b G t : core_derives b G t → owl_derives b G t.
Proof. intros Ht S HG [HC _]. by apply Ht. Qed.

Lemma rdfs_derives_owl G t : rdfs_derives G t → owl_derives true G t.
Proof.
  destruct (owl_derives_closed true G) as [[HR _] _]. specialize (HR eq_refl).
  induction 1; [by apply owl_given|eapply c_rdfs2|eapply c_rdfs3|eapply c_rdfs7|eapply c_rdfs9]; eauto.
Qed.

(** ** What travels along derivations *)

Section owl_travels.
Context (Q R : Term → Prop) (HQ : Q (U RDF_Type)) (HR : R (U RDF_Type)) (HQs : Q (U OWL_SameAs)) (HRs : R (U OWL_SameAs)).
Abbreviation T := (travels Q R).

Definition anywhere (x : Term) : Prop := Q x ∧ (isSubject x = true → R x).

Lemma travels_same x y : same_as T x y → anywhere x ∧ anywhere y.
Proof.
  assert (Hstep : ∀ x y, sc (same_step T) x y → anywhere x ∧ anywhere y).
  { intros a c [H|H]; destruct H as (? & ? & ? & ? & ? & ?); cbn in *; by repeat split. }
  induction 1 as [x y H|x y z H _ IH]; [by apply Hstep|]. apply Hstep in H. split; [apply H|apply IH].
Qed.

Lemma travels_member l m : list_member T l m → anywhere m.
Proof. induction 1 as [l v (_ & _ & _ & _ & ? & ?)|]; [by split|done]. Qed.

Lemma travels_path ps x z : chain_path T ps x z → Q x ∧ R x ∧ anywhere z.
Proof. induction 1 as [p x y (? & ? & _ & _ & ? & ?)|p ps x y z (? & ? & _) _ _ IH]; cbn in *; [by repeat split|]. naive_solver. Qed.

Lemma travels_closed b : owl_closed b T.
Proof using HQ HR HQs HRs.
  unfold owl_closed, core_closed. repeat split; cbn; intros;
    repeat match goal with
    | H : same_as _ _ _ |- _ => apply travels_same in H as [[? ?] [? ?]]
    | H : list_member _ _ _ |- _ => apply travels_member in H as [? ?]
    | H : chain_path _ _ _ _ |- _ => apply travels_path in H as (? & ? & ? & ?)
    | H : restriction_on _ _ _ |- _ => destruct H as [? ?]
    | H : travels _ _ _ |- _ => destruct H as (? & ? & ? & ? & ? & ?); cbn [Subject Predicate Object] in *
    end; auto.
  - match goal with Hn : ?ms ≠ [], Hm : ∀ m, m ∈ ?ms → _ |- _ => destruct ms as [|m ms]; [done|]; destruct (Hm m) as (? & ? & ?); [by left|done] end.
  - match goal with Hn : ?ms ≠ [], Hm : ∀ m, m ∈ ?ms → _ |- _ => destruct ms as [|m ms]; [done|]; destruct (Hm m) as (? & ? & ?); [by left|done] end.
Qed.

Lemma owl_travels b G t : (∀ t, G t → T t) → owl_derives b G t → T t.
Proof using HQ HR HQs HRs. intros HG Ht. apply Ht; [exact HG|apply travels_closed]. Qed.
End owl_travels.

Lemma owl_derives_wf b G t : (∀ t, G t → triple_wf t) → owl_derives b G t → triple_wf t.
Proof.
  intros HG Ht. assert (H : travels term_wf (λ t, isSubject t = true) t).
  { apply (owl_travels term_wf (λ t, isSubject t = true)) with b G; [by eexists|done|by eexists|done| |done]. intros u Hu.
    destruct (HG u Hu) as (H1 & H2 & H3 & H4). by split_and!. }
  destruct H as (H1 & H2 & H3 & _ & H4 & _). by split_and!.
Qed.

Lemma owl_derives_bar_free b G t : (∀ t, G t → bar_free t) → owl_derives b G t → bar_free t.
Proof.
  intros HG Ht. assert (HT : travels (λ _, True) (λ x, has_byte "|" (TermKey x) = false) t).
  { apply (owl_travels (λ _, True) (λ x, has_byte "|" (TermKey x) = false)) with b G; [done|by vm_compute|done|by vm_compute| |done].
    intros u Hu. destruct (HG u Hu) as (? & ? & ?). by split_and!. }
  destruct HT as (_ & ? & _ & ? & _ & ?). by split_and!.
Qed.
