(* ===== verification/OwlIndex.v ===== *)
(** * OWL 2 RL: what the indexes say

    Every index holds what the triples of the graph say and nothing else. *)

From S2P Require Import Prelude GoStrings Strconv Term TermKey TripleIndex Store MemoryStore Graph Collection Reasoning Rdfs RdfsCorrect UnionFind Owl OwlSpec.
From stdpp Require Import relations options.

(** ** Steps that a stop may cut short *)

Lemma later_running s s' : later s s' → halted s' = false → halted s = false.
Proof. intros (_ & Hh & _) Hf. destruct (halted s); [|done]. by rewrite Hh in Hf. Qed.

(** A step ends later, and in a state with [P] unless it was stopped. *)
Definition step_to (s s' : stopper) (P : Prop) : Prop := later s s' ∧ (halted s' = false → P).

Lemma step_to_trans s s1 s2 P Q : step_to s s1 P → step_to s1 s2 Q → step_to s s2 (P ∧ Q).
Proof. intros [L1 H1] [L2 H2]. split; [by etrans|]. intros Hf. split; [|by apply H2]. by apply H1, (later_running s1 s2). Qed.

Lemma step_to_mono s s' (P Q : Prop) : (P → Q) → step_to s s' P → step_to s s' Q.
Proof. intros HPQ [L H]. split; [done|]. auto. Qed.

(** ** Lists as they are written in a graph *)

Section written.
Context (G D : Triple → Prop).

(** The list is in [G], and the triples of [D] say nothing else of its nodes. *)
Inductive written : Term → list Term → Prop :=
| written_nil : written (U RDF_Nil) []
| written_cons l v r vs : l ≠ U RDF_Nil → isSubject l = true → G (MkTriple l RDF_First v) → G (MkTriple l RDF_Rest r) →
    (∀ v', D (MkTriple l RDF_First v') → v' = v) → (∀ r', D (MkTriple l RDF_Rest r') → r' = r) →
    written r vs → written l (v :: vs).

Lemma written_fun l ms ms' : (∀ t, G t → D t) → written l ms → written l ms' → ms = ms'.
Proof.
  intros HGD H. revert ms'. induction H as [|l v r vs Hn _ Hv Hr Hv' Hr' _ IH]; inversion 1; subst; try done.
  f_equal; [symmetry; by apply Hv', HGD|]. apply IH. match goal with H : G (MkTriple l RDF_Rest ?r0), Hw : written ?r0 _ |- _ => rewrite <- (Hr' r0); [exact Hw|by apply HGD] end.
Qed.

Lemma written_list S l ms : (∀ t, G t → S t) → written l ms → rdf_list S l ms.
Proof. intros HS. induction 1; econstructor; eauto. Qed.

(** The lists that axioms name are written in the graph; those of properties
    consist of IRIs. *)
Definition lists_ok : Prop :=
  (∀ c l, D (MkTriple c OWL_IntersectionOf l) → ∃ ms, written l ms) ∧
  (∀ p l, D (MkTriple p OWL_PropertyChainAxiom l) → ∃ ps, written l (U <$> ps)) ∧
  (∀ c l, D (MkTriple c OWL_HasKey l) → ∃ ps, written l (U <$> ps)).
End written.

Lemma rdf_list_member S l ms m : rdf_list S l ms → m ∈ ms → list_member S l m.
Proof.
  induction 1 as [|l v r vs Hv Hr _ IH]; intros Hm; [by apply not_elem_of_nil in Hm|].
  apply elem_of_cons in Hm as [->|Hm]; [by apply member_here|]. eapply member_later; [exact Hr|by apply IH].
Qed.

Lemma list_prefix_member S l ms m : list_prefix S l ms → m ∈ ms → list_member S l m.
Proof.
  induction 1 as [l|l v Hv|l v r vs Hv Hr _ IH]; intros Hm; [by apply not_elem_of_nil in Hm|apply list_elem_of_singleton in Hm as ->; by apply member_here|].
  apply elem_of_cons in Hm as [->|Hm]; [by apply member_here|]. eapply member_later; [exact Hr|by apply IH].
Qed.

Lemma omap_uris (ps : list URIRef) : omap asURIRef (U <$> ps) = ps.
Proof. induction ps as [|p ps IH]; [done|]. cbn. by rewrite IH. Qed.

Section index.
Context {St : Type} `{StoreLaws St} (g : Graph_).
Abbreviation has st t := (t ∈ graph_triples (graph_of st g)).
Context (G D : Triple → Prop) (D_wf : ∀ t, D t → triple_wf t) (G_D : ∀ t, G t → D t).
Context (st : St) (Hst : sinv st) (HD : ∀ t, has st t → D t) (HG : ∀ t, G t → has st t).
Implicit Types (s : stopper).

Lemma node_matches n p t : term_wf n → uri_ok p → triple_wf t →
  pattern_matches (MkPattern (Some n) (Some p) None) t = true ↔ Subject t = n ∧ Predicate t = p.
Proof.
  intros Hn Hp (Hs & _ & Ht & _). unfold pattern_matches. cbn [pat_Subject pat_Predicate pat_Object OptTermKey OptPredKey].
  rewrite !andb_true_iff, !key_matches_iff, (bound_key (TURIRef p) Hp), (bound_key n Hn). change (bound EmptyString) with false. cbn [TermKey].
  split.
  - intros [[Hk1 Hk2] _]. split; [apply TermKey_inj; [done|done|]|apply uri_key_inj; [done|done|]]; naive_solver.
  - intros [<- <-]. naive_solver.
Qed.

(** ** Scans *)

Lemma scan_pred {A} p (f : Triple → A → A) s a : uri_ok p →
  ∃ s' l, sp_triples g None (Some p) None (scan f) st s a = (s', foldl (λ a t, f t a) a l) ∧
    (∀ t, t ∈ l → has st t ∧ Predicate t = p) ∧ step_to s s' (∀ t, has st t → Predicate t = p → t ∈ l).
Proof using D_wf Hst HD.
  intros Hp. destruct (sp_scan_spec g None (Some p) None f st s a Hst) as (l & s' & E & L & H1 & H2).
  pose proof (graph_of_keyed st g Hst) as Hk. exists s', l. split; [exact E|]. split; [|split; [done|]].
  - intros t Ht. apply H1, matching_elem in Ht as [Ht Hm]; [|done]. split; [done|]. apply predicate_matches in Hm; auto.
  - intros Hf t Ht Hpt. destruct H2 as [|H2]; [congruence|]. rewrite H2. apply matching_elem; [done|]. split; [done|]. apply predicate_matches; auto.
Qed.

Lemma each_pred {A} p (I : A → Prop) fn s a : uri_ok p → I a →
  (∀ t s a, has st t → Predicate t = p → ∃ s' a', fn t s a = (true, s', a') ∧ step_to s s' (I a → I a')) →
  ∃ s' m, sp_triples g None (Some p) None fn st s a = (s', m) ∧ step_to s s' (I m).
Proof using D_wf Hst HD.
  intros Hp Ha Hfn. destruct (halted s) eqn:Eh.
  { exists s, a. split; [by apply sp_triples_halted|]. split; [reflexivity|by intros]. }
  destruct (sp_triples_spec g None (Some p) None fn st s a Hst Eh) as [(l & s1 & Hl & _ & L1 & _ & E)|(s1 & L1 & E1 & E)]; rewrite E.
  2:{ exists s1, a. split; [done|]. split; [done|]. congruence. }
  assert (Hin : ∀ t, t ∈ l → has st t ∧ Predicate t = p).
  { intros t. rewrite Hl, matching_elem by (by apply graph_of_keyed). intros [Ht Hm]. split; [done|]. apply predicate_matches in Hm; auto. }
  assert (Hgo : ∀ l s a, (∀ t, t ∈ l → has st t ∧ Predicate t = p) →
    ∃ s' m, triples_go fn (Ok <$> l) s a = (s', m) ∧ step_to s s' (I a → I m)).
  { clear -Hfn. induction l as [|t l IH]; intros s0 a0 Hl.
    - exists s0, a0. split; [done|]. split; [reflexivity|done].
    - cbn [fmap list_fmap triples_go]. destruct (Hl t ltac:(by left)) as [Ht Hp].
      destruct (Hfn t s0 a0 Ht Hp) as (s1 & a1 & -> & S1). destruct (IH s1 a1) as (s2 & a2 & -> & S2); [intros; apply Hl; by right|].
      exists s2, a2. split; [done|]. eapply step_to_mono; [|exact (step_to_trans _ _ _ _ _ S1 S2)]. tauto. }
  destruct (Hgo l s1 a Hin) as (s' & m & E' & L2 & K2). exists s', m. split; [done|]. split; [by etrans|auto].
Qed.

(** ** One node *)

Lemma first_object_ok node p s : term_wf node → uri_ok p →
  ∃ s' r, first_object g node p st s = (s', r) ∧
    step_to s s' (r = None → ∀ o, ¬ has st (MkTriple node p o)) ∧ (∀ o, r = Some o → has st (MkTriple node p o)).
Proof using D_wf Hst HD.
  intros Hn Hp. unfold first_object. destruct (halted s) eqn:Eh.
  { rewrite sp_triples_halted by done. exists s, None. split; [done|]. split; [split; [reflexivity|congruence]|done]. }
  set (fn := λ _ _ _, _).
  destruct (sp_triples_spec g (Some node) (Some p) None fn st s None Hst Eh) as [(l & s1 & Hl & _ & L1 & _ & ->)|(s1 & L1 & E1 & ->)].
  2:{ exists s1, None. split; [done|]. split; [split; [done|congruence]|done]. }
  assert (Hin : ∀ t, t ∈ l ↔ has st t ∧ Subject t = node ∧ Predicate t = p).
  { intros t. rewrite Hl, matching_elem by (by apply graph_of_keyed). split; intros [Ht Hm]; (split; [done|]); apply node_matches in Hm || apply node_matches; auto. }
  destruct l as [|t l]; cbn [fmap list_fmap triples_go fn].
  - exists s1, None. split; [done|]. split; [|done]. split; [done|]. intros _ _ o Ho. apply (not_elem_of_nil (MkTriple node p o)). by apply Hin.
  - exists s1, (Some (Object t)). split; [done|]. split; [by split|]. intros o [= <-].
    destruct (proj1 (Hin t) ltac:(by left)) as (Ht & <- & <-). by destruct t.
Qed.

(** ** Lists *)

Lemma collect_prefix fuel : ∀ visited cur acc s,
  (∀ t, cur = Some t → term_wf t) → ∃ items s', collect_loop fuel g visited cur acc st s = (acc ++ items, s') ∧ later s s' ∧
    match cur with Some t => list_prefix D t items | None => items = [] end.
Proof using D_wf Hst HD.
  induction fuel as [|fuel IH]; intros visited cur acc s Hcur.
  { exists [], s. rewrite app_nil_r. split; [done|]. split; [reflexivity|]. destruct cur; [constructor|done]. }
  cbn [collect_loop]. destruct cur as [t|]; [|exists [], s; by rewrite app_nil_r].
  assert (Hend : ∀ s', later s s' → ∃ items s'', (acc, s') = (acc ++ items, s'') ∧ later s s'' ∧ list_prefix D t items).
  { intros s' L. exists [], s'. rewrite app_nil_r. split; [done|]. split; [done|constructor]. }
  case_bool_decide; [by apply Hend|]. case_bool_decide; [by apply Hend|]. destruct (isSubject t); cbn [negb]; [|by apply Hend].
  specialize (Hcur t eq_refl).
  destruct (first_object_ok t RDF_First s Hcur) as (s1 & r & E1 & [L1 _] & K1); [by eexists|]. unfold first_object in E1. rewrite E1.
  destruct r as [v|]; [|by apply Hend]. specialize (K1 v eq_refl).
  destruct (first_object_ok t RDF_Rest s1 Hcur) as (s2 & r2 & E2 & [L2 _] & K2); [by eexists|]. unfold first_object in E2. rewrite E2.
  destruct (IH ({[TermKey t]} ∪ visited) r2 (acc ++ [v]) s2) as (items & s3 & -> & L3 & Hm).
  { intros t' ->. specialize (K2 t' eq_refl). by apply HD, D_wf in K2 as (_ & _ & _ & ?). }
  exists (v :: items), s3. rewrite <- app_assoc. split; [done|]. split; [by do 2 (etrans; [eassumption|])|].
  destruct r2 as [r2|]; [eapply prefix_more; [by apply HD|by apply HD, K2|done]|]. rewrite Hm. by apply prefix_one, HD.
Qed.

(** A list that is written in the graph is collected whole. *)
Lemma collect_written cur ms : written G D cur ms → ∀ fuel visited acc s,
  (∀ x xs, written G D x xs → TermKey x ∈ visited → length ms < length xs) → length ms < fuel → term_wf cur →
  ∃ items s', collect_loop fuel g visited (Some cur) acc st s = (items, s') ∧ step_to s s' (items = acc ++ ms).
Proof using D_wf Hst HD HG G_D.
  induction 1 as [|l v r vs Hn Hsub Hv Hr Hv' Hr' Hw IH]; intros fuel visited acc s Hvis Hf Hwf; (destruct fuel as [|fuel]; [cbn in Hf; lia|]); cbn [collect_loop].
  { rewrite bool_decide_eq_true_2 by done. exists acc, s. split; [done|]. split; [reflexivity|]. by rewrite app_nil_r. }
  rewrite bool_decide_eq_false_2 by (intros E; apply Hn, TermKey_inj; [done|by eexists|done]).
  rewrite bool_decide_eq_false_2.
  2:{ intros Hin. pose proof (Hvis l (v :: vs) ltac:(by econstructor) Hin). lia. }
  rewrite Hsub. cbn [negb].
  destruct (first_object_ok l RDF_First s Hwf) as (s1 & o1 & E1 & [L1 N1] & K1); [by eexists|]. unfold first_object in E1. rewrite E1.
  destruct o1 as [v0|].
  2:{ exists acc, s1. split; [done|]. split; [done|]. intros Hf1. exfalso. eapply N1; [done|done|by apply HG]. }
  assert (v0 = v) as -> by (by apply Hv', HD, K1).
  destruct (first_object_ok l RDF_Rest s1 Hwf) as (s2 & o2 & E2 & [L2 N2] & K2); [by eexists|]. unfold first_object in E2. rewrite E2.
  destruct o2 as [r0|].
  - assert (r0 = r) as -> by (by apply Hr', HD, K2).
    destruct (IH fuel ({[TermKey l]} ∪ visited) (acc ++ [v]) s2) as (items & s3 & -> & L3 & K3).
    + intros x xs Hx [Hin|Hin]%elem_of_union.
      * apply elem_of_singleton in Hin. assert (x = l) as ->.
        { apply TermKey_inj; [|done|done]. inversion Hx; subst; [by eexists|]. match goal with HF : G (MkTriple x RDF_First _) |- _ => by apply G_D, D_wf in HF as [? _] end. }
        rewrite (written_fun G D l xs (v :: vs) G_D Hx); [cbn; lia|by econstructor].
      * specialize (Hvis x xs Hx Hin). cbn in Hvis. lia.
    + cbn in Hf. lia.
    + by apply G_D, D_wf in Hr as (_ & _ & _ & ?).
    + exists items, s3. split; [done|]. split; [by do 2 (etrans; [eassumption|])|]. intros Hf3. rewrite (K3 Hf3). by rewrite <- app_assoc.
  - destruct fuel as [|fuel]; [cbn in Hf; lia|]. cbn [collect_loop]. exists (acc ++ [v]), s2. split; [done|]. split; [by etrans|]. intros Hf2. exfalso. eapply N2; [done|done|by apply HG].
Qed.

Lemma written_length l ms : written G D l ms → length ms ≤ length (graph_triples (graph_of st g)).
Proof using HG G_D.
  intros Hw. assert (Hts : ∃ ts : list Triple, length ts = length ms ∧ NoDup ts ∧
    ∀ t, t ∈ ts → has st t ∧ ∃ xs, written G D (Subject t) xs ∧ length xs ≤ length ms).
  { induction Hw as [|l v r vs Hn Hsub Hv Hr Hv' Hr' Hw (ts & E & Hnd & Hts)]; [exists []; split; [done|]; split; [constructor|]; by intros t ?%not_elem_of_nil|].
    assert (Hwl : written G D l (v :: vs)) by (by econstructor).
    exists (MkTriple l RDF_First v :: ts). split; [cbn; by rewrite E|]. split.
    - apply NoDup_cons. split; [|done]. intros Hin. destruct (Hts _ Hin) as (_ & xs & Hx & Hlen). cbn [Subject] in Hx.
      rewrite (written_fun G D l xs (v :: vs) G_D Hx Hwl) in Hlen. cbn in Hlen. lia.
    - intros t [->|Hin]%elem_of_cons; [split; [by apply HG|]; by exists (v :: vs)|].
      destruct (Hts t Hin) as (Ht & xs & Hx & Hlen). split; [done|]. exists xs. split; [done|]. cbn. lia. }
  destruct Hts as (ts & <- & Hnd & Hts). apply submseteq_length, NoDup_submseteq; [done|]. intros t Ht. by apply Hts.
Qed.

Lemma list_items_written l ms s : written G D l ms → term_wf l → ∃ items s', list_items g l st s = (items, s') ∧ step_to s s' (items = ms).
Proof using D_wf Hst HD HG G_D.
  intros Hw Hl. unfold list_items, collectList. destruct (collect_written l ms Hw (list_fuel g st) ∅ [] s) as (items & s' & E & St'); [by intros x xs _ ?%not_elem_of_empty| |done|by exists items, s'].
  pose proof (written_length l ms Hw) as Hlen. unfold list_fuel. destruct (g_triples_ok st g None None None Hst) as (ts & -> & _ & Hts).
  rewrite matching_all in Hts. rewrite length_fmap, Hts. lia.
Qed.

Lemma list_items_prefix l s : term_wf l → ∃ items s', list_items g l st s = (items, s') ∧ later s s' ∧ list_prefix D l items.
Proof using D_wf Hst HD.
  intros Hl. unfold list_items, collectList. destruct (collect_prefix (list_fuel g st) ∅ (Some l) [] s) as (items & s' & E & L & Hm); [by intros t [= <-]|].
  by exists items, s'.
Qed.
End index.

(** ** Unions *)

Lemma uf_add_terms uf t k u : uf_terms (uf_add uf t).2 !! k = Some u → uf_terms uf !! k = Some u ∨ u = t.
Proof.
  unfold uf_add. destruct (parent uf !! TermKey t); [by left|]. cbn. rewrite lookup_insert. case_decide; [|by left]. intros [= <-]. by right.
Qed.

Lemma findKey_terms uf k : uf_terms (findKey uf k).2 = uf_terms uf.
Proof. unfold findKey. destruct (parent uf !! k); [|done]. by destruct (find_loop _ _ _). Qed.

Lemma uf_union_terms uf a b k u : uf_terms (uf_union uf a b) !! k = Some u → uf_terms uf !! k = Some u ∨ u = a ∨ u = b.
Proof.
  unfold uf_union. destruct (uf_add uf a) as [ak u1] eqn:E1, (uf_add u1 b) as [bk u2] eqn:E2.
  destruct (findKey u2 ak) as [ra u3] eqn:E3, (findKey u3 bk) as [rb u4] eqn:E4.
  assert (Ht : uf_terms u4 = uf_terms u2) by (change u4 with (rb, u4).2; rewrite <- E4, findKey_terms; change u3 with (ra, u3).2; by rewrite <- E3, findKey_terms).
  assert (Hgo : uf_terms u4 !! k = Some u → uf_terms uf !! k = Some u ∨ u = a ∨ u = b).
  { rewrite Ht. change u2 with (bk, u2).2. rewrite <- E2. intros [Hu| ->]%uf_add_terms; [|by right; right].
    change u1 with (ak, u1).2 in Hu. rewrite <- E1 in Hu. apply uf_add_terms in Hu as [|]; auto. }
  case_bool_decide; [done|]. repeat case_match; done.
Qed.

(** The union-find of a list of [owl:sameAs] triples. *)
Definition uf_of (l : list Triple) : unionFind := foldl (λ u t, uf_union u (Subject t) (Object t)) newUnionFind l.
Definition unions (l : list Triple) : list uf_op := (λ t, UfUnion (Subject t) (Object t)) <$> l.

Lemma uf_of_run l : uf_of l = uf_run (unions l).
Proof.
  unfold uf_of, uf_run, unions. generalize newUnionFind. induction l as [|t l IH]; intros u; [done|]. cbn [foldl fmap list_fmap]. apply IH.
Qed.

Lemma merged_unions l k k' : merged (unions l) k k' ↔ ∃ t, t ∈ l ∧ k = TermKey (Subject t) ∧ k' = TermKey (Object t).
Proof.
  unfold merged, unions. split.
  - intros (a & b & (t & [= -> ->] & Ht)%list_elem_of_fmap & -> & ->). by exists t.
  - intros (t & Ht & -> & ->). exists (Subject t), (Object t). split; [|done]. apply list_elem_of_fmap. by exists t.
Qed.

Lemma uf_of_terms l k u : uf_terms (uf_of l) !! k = Some u → ∃ t, t ∈ l ∧ (u = Subject t ∨ u = Object t).
Proof.
  unfold uf_of. assert (Hgo : ∀ uf, uf_terms (foldl (λ u t, uf_union u (Subject t) (Object t)) uf l) !! k = Some u →
    uf_terms uf !! k = Some u ∨ ∃ t, t ∈ l ∧ (u = Subject t ∨ u = Object t)).
  { induction l as [|t l IH]; intros uf; cbn [foldl]; [by left|]. intros [Hu|(t' & Ht' & Hu)]%IH; [|right; exists t'; split; [by right|done]].
    apply uf_union_terms in Hu as [Hu|Hu]; [by left|]. right. exists t. split; [by left|done]. }
  intros [Hu|]%Hgo; [|done]. cbn in Hu. by rewrite lookup_empty in Hu.
Qed.

Section uf_index.
Context (D : Triple → Prop) (D_wf : ∀ t, D t → triple_wf t).
Context (l : list Triple) (Hl : ∀ t, t ∈ l → D t ∧ Predicate t = OWL_SameAs).

Lemma same_as_wf x y : same_as D x y → term_wf x ∧ term_wf y.
Proof using D_wf.
  assert (Hstep : ∀ x y, sc (same_step D) x y → term_wf x ∧ term_wf y) by (intros a c [Hac|Hac]; apply D_wf in Hac as (? & _ & _ & ?); by split).
  induction 1 as [x y Hxy|x y z Hxy _ IH]; [by apply Hstep|]. split; [by apply Hstep in Hxy as [? _]|apply IH].
Qed.

Lemma same_step_of t : t ∈ l → same_step D (Subject t) (Object t).
Proof using Hl. intros Ht. destruct (Hl t Ht) as [HDt Hp]. unfold same_step. rewrite <- Hp. by destruct t. Qed.

Lemma merged_same k k' : rtsc (merged (unions l)) k k' → k = k' ∨ ∃ x y, same_as D x y ∧ TermKey x = k ∧ TermKey y = k'.
Proof using D_wf Hl.
  assert (Hstep : ∀ k z, sc (merged (unions l)) k z → ∃ x w, sc (same_step D) x w ∧ TermKey x = k ∧ TermKey w = z).
  { intros a c [Hac|Hac]; apply merged_unions in Hac as (t & Ht & -> & ->); apply same_step_of in Ht.
    - exists (Subject t), (Object t). split; [by left|done].
    - exists (Object t), (Subject t). split; [by right|done]. }
  induction 1 as [|k z k' Hkz _ IH]; [by left|right]. apply Hstep in Hkz as (x & w & Hxw & <- & Hw). destruct IH as [->|(w' & y & Hwy & Hw' & Hy)].
  - exists x, w. split; [by apply tc_once|done].
  - exists x, y. split; [|done]. apply tc_l with w; [done|]. assert (w = w') as ->; [|done].
    assert (Hsw : same_as D x w) by (by apply tc_once). apply TermKey_inj; [by apply same_as_wf in Hsw as [_ ?]|by apply same_as_wf in Hwy as [? _]|congruence].
Qed.

Lemma uf_term_wf k u : uf_terms (uf_of l) !! k = Some u → term_wf u ∧ TermKey u = k.
Proof using D_wf Hl.
  intros Hu. split.
  - destruct (uf_of_terms l k u Hu) as (t & Ht & Hor). destruct (Hl t Ht) as [HDt _]. apply D_wf in HDt as (? & _ & _ & ?). by destruct Hor as [-> | ->].
  - rewrite uf_of_run in Hu. by apply (proj2 (proj2 (proj1 (uf_run_ok (unions l))))).
Qed.

Lemma uf_sound x y : uf_terms (uf_of l) !! TermKey x = Some x → uf_terms (uf_of l) !! TermKey y = Some y →
  same (uf_of l) (TermKey x) (TermKey y) → TermKey x ≠ TermKey y → same_as D x y.
Proof using D_wf Hl.
  intros Hx Hy Hs Hne. rewrite uf_of_run in Hs. apply (proj2 (uf_run_ok (unions l))) in Hs.
  destruct (merged_same _ _ Hs) as [|(x' & y' & Hxy & Kx & Ky)]; [done|]. apply uf_term_wf in Hx as [Wx _], Hy as [Wy _].
  destruct (same_as_wf _ _ Hxy) as [Wx' Wy']. by rewrite <- (TermKey_inj x' x Wx' Wx Kx), <- (TermKey_inj y' y Wy' Wy Ky).
Qed.

(** Terms that triples of the list connect are registered, in one class. *)
Lemma uf_complete (S : Triple → Prop) x y : (∀ a b, S (MkTriple a OWL_SameAs b) → MkTriple a OWL_SameAs b ∈ l) → same_as S x y →
  same (uf_of l) (TermKey x) (TermKey y) ∧
  (TermKey x ≠ TermKey y → term_wf x → term_wf y → uf_terms (uf_of l) !! TermKey x = Some x ∧ uf_terms (uf_of l) !! TermKey y = Some y).
Proof using D_wf Hl.
  intros HS Hxy. assert (Hs : same (uf_of l) (TermKey x) (TermKey y)).
  { rewrite uf_of_run. apply (proj2 (uf_run_ok (unions l))).
    assert (Hstep : ∀ a c, sc (same_step S) a c → sc (merged (unions l)) (TermKey a) (TermKey c)).
    { intros a c [Hac|Hac]; apply HS in Hac; [left|right]; apply merged_unions; by eexists. }
    induction Hxy as [x y Hxy|x y z Hxy _ IH]; [by apply rtc_once, Hstep|]. eapply rtc_l; [by apply Hstep|exact IH]. }
  split; [done|]. intros Hne Wx Wy. destruct Hs as [|(r & Hrx & Hry)]; [done|].
  assert (Hreg : ∀ z, term_wf z → root (parent (uf_of l)) (TermKey z) r → uf_terms (uf_of l) !! TermKey z = Some z).
  { intros z Wz Hr. apply root_dom in Hr. pose proof (proj1 (uf_run_ok (unions l))) as Hok. rewrite <- uf_of_run in Hok. apply (proj1 (proj2 Hok)) in Hr as [u Hu].
    pose proof (uf_term_wf _ _ Hu) as [Wu Ku]. by rewrite Hu, (TermKey_inj u z Wu Wz Ku). }
  by split; apply Hreg.
Qed.
End uf_index.

(** ** Soundness and completeness of the indexes *)

Section owl_index.
Context (D : Triple → Prop).

Definition typed_set (c : URIRef) (s : gset string) : Prop := ∀ k, k ∈ s → ∃ x, TermKey x = k ∧ D (MkTriple x RDF_Type (U c)).
Definition linked (p : URIRef) (m : gmap string (list URIRef)) : Prop :=
  ∀ k q, q ∈ entries m k → ∃ x, uri_key x = k ∧ (D (MkTriple (U x) p (U q)) ∨ D (MkTriple (U q) p (U x))).
Definition linked_classes (m : gmap string (list Term)) : Prop :=
  ∀ k c, c ∈ entries m k → ∃ x, TermKey x = k ∧
    (isSubject c = true ∧ D (MkTriple x OWL_EquivalentClass c) ∨ isSubject x = true ∧ D (MkTriple c OWL_EquivalentClass x)).

Record restriction_sound (r : owlRestriction) : Prop := {
  rs_on : restriction_on D (r_node r) (onProperty r);
  rs_hv v : hasValue r = Some v → D (MkTriple (r_node r) OWL_HasValue v);
  rs_svf c : someValuesFrom r = Some c → D (MkTriple (r_node r) OWL_SomeValuesFrom c);
  rs_avf c : allValuesFrom r = Some c → D (MkTriple (r_node r) OWL_AllValuesFrom c);
  rs_onc c : onClass r = Some c → D (MkTriple (r_node r) OWL_OnClass c);
  rs_mc n : maxCard r = n → n ≠ (-1)%Z → says_card D (r_node r) OWL_MaxCardinality n;
  rs_mqc n : maxQualCard r = n → n ≠ (-1)%Z → says_card D (r_node r) OWL_MaxQualifiedCardinality n
}.

(** A group of properties or classes said to be disjoint. *)
Definition disjoint_group (c : URIRef) (us : list URIRef) : Prop :=
  ∃ n l ms, D (MkTriple n RDF_Type (U c)) ∧ D (MkTriple n OWL_Members l) ∧ list_prefix D l ms ∧ us = omap asURIRef ms.

Definition npa_sound (a : negPropAssertion) : Prop :=
  ∃ n, D (MkTriple n RDF_Type (U OWL_NegativePropertyAssertion)) ∧ D (MkTriple n OWL_SourceIndividual (npa_source a)) ∧
    D (MkTriple n OWL_AssertionProperty (U (npa_property a))) ∧
    (∀ t, npa_targetI a = Some t → D (MkTriple n OWL_TargetIndividual t)) ∧ (∀ t, npa_targetV a = Some t → D (MkTriple n OWL_TargetValue t)).

Record owl_sound (e : owlIndexes) : Prop := {
  os_sym : typed_set OWL_SymmetricProperty (symmetricProps e);
  os_trans : typed_set OWL_TransitiveProperty (transitiveProps e);
  os_func : typed_set OWL_FunctionalProperty (functionalProps e);
  os_ifunc : typed_set OWL_InverseFunctionalProperty (invFuncProps e);
  os_inv : linked OWL_InverseOf (inverseOf e);
  os_eqp : linked OWL_EquivalentProperty (equivProp e);
  os_eqc : linked_classes (equivClass e);
  os_chain k chain : chain ∈ entries (propChainAxiom e) k →
    ∃ p l, uri_key p = k ∧ D (MkTriple (U p) OWL_PropertyChainAxiom l) ∧ rdf_list D l (U <$> chain) ∧ 2 ≤ length chain;
  os_key k keys : hasKeyIndex e !! k = Some keys →
    ∃ c l, TermKey c = k ∧ D (MkTriple c OWL_HasKey l) ∧ rdf_list D l (U <$> keys) ∧ keys ≠ [];
  os_restr : Forall restriction_sound (restrictions e);
  os_int k ms : intersectionOf e !! k = Some ms → ∃ c l, TermKey c = k ∧ D (MkTriple c OWL_IntersectionOf l) ∧ rdf_list D l ms ∧ ms ≠ [];
  os_uni k ms : unionOf e !! k = Some ms → ∃ c l, TermKey c = k ∧ D (MkTriple c OWL_UnionOf l) ∧ ∀ m, m ∈ ms → list_member D l m;
  os_one k ms : oneOfMembers e !! k = Some ms → ∃ c l, TermKey c = k ∧ D (MkTriple c OWL_OneOf l) ∧ ∀ m, m ∈ ms → list_member D l m;
  os_irr : typed_set OWL_IrreflexiveProperty (irreflexiveProps e);
  os_asym : typed_set OWL_AsymmetricProperty (asymmetricProps e);
  os_pdw : linked OWL_PropertyDisjointWith (propDisjointWith e);
  os_dw : linked OWL_DisjointWith (disjointWith e);
  os_adp us : us ∈ allDisjointProps e → disjoint_group OWL_AllDisjointProperties us;
  os_adc us : us ∈ allDisjointClass e → disjoint_group OWL_AllDisjointClasses us;
  os_com k c : complementOf e !! k = Some c → ∃ x, TermKey x = k ∧ D (MkTriple x OWL_ComplementOf c);
  os_diff k d : d ∈ entries (differentFrom e) k → ∃ x, TermKey x = k ∧ (D (MkTriple x OWL_DifferentFrom d) ∨ D (MkTriple d OWL_DifferentFrom x));
  os_npa : Forall npa_sound (negPropAsserts e);
  os_uf : uf_ok (uf e);
  os_term k u : uf_terms (uf e) !! k = Some u → term_wf u;
  os_same x y : uf_terms (uf e) !! TermKey x = Some x → uf_terms (uf e) !! TermKey y = Some y →
    same (uf e) (TermKey x) (TermKey y) → TermKey x ≠ TermKey y → same_as D x y
}.

(** Every axiom of [S] that has one triple is in its index, up to its key. *)
Definition typed_complete (c : URIRef) (s : gset string) : Prop := ∀ x, D (MkTriple x RDF_Type (U c)) → TermKey x ∈ s.
Definition linked_complete (p : URIRef) (m : gmap string (list URIRef)) : Prop :=
  ∀ x q, D (MkTriple (U x) p (U q)) → uri_key q ∈ uri_key <$> entries m (uri_key x) ∧ uri_key x ∈ uri_key <$> entries m (uri_key q).
Definition classes_complete (m : gmap string (list Term)) : Prop :=
  ∀ x c, D (MkTriple x OWL_EquivalentClass c) → isSubject c = true →
    TermKey c ∈ TermKey <$> entries m (TermKey x) ∧ TermKey x ∈ TermKey <$> entries m (TermKey c).

Record owl_complete (e : owlIndexes) : Prop := {
  oc_sym : typed_complete OWL_SymmetricProperty (symmetricProps e);
  oc_trans : typed_complete OWL_TransitiveProperty (transitiveProps e);
  oc_func : typed_complete OWL_FunctionalProperty (functionalProps e);
  oc_ifunc : typed_complete OWL_InverseFunctionalProperty (invFuncProps e);
  oc_inv : linked_complete OWL_InverseOf (inverseOf e);
  oc_eqp : linked_complete OWL_EquivalentProperty (equivProp e);
  oc_eqc : classes_complete (equivClass e);
  oc_irr : typed_complete OWL_IrreflexiveProperty (irreflexiveProps e);
  oc_asym : typed_complete OWL_AsymmetricProperty (asymmetricProps e);
  oc_pdw : linked_complete OWL_PropertyDisjointWith (propDisjointWith e);
  oc_dw : linked_complete OWL_DisjointWith (disjointWith e);
  oc_diff x y : D (MkTriple x OWL_DifferentFrom y) → y ∈ entries (differentFrom e) (TermKey x) ∧ (isSubject y = true → x ∈ entries (differentFrom e) (TermKey y));
  oc_same x y : same_as D x y → TermKey x ≠ TermKey y →
    same (uf e) (TermKey x) (TermKey y) ∧ uf_terms (uf e) !! TermKey x = Some x ∧ uf_terms (uf e) !! TermKey y = Some y
}.
End owl_index.
