(* ===== verification/OwlInput.v ===== *)
(** * OWL 2 RL: graphs whose axioms are written plainly

    Conditions on the triples of a graph, to be read off it, under which the lists
    that axioms name stay what they are whatever the rules derive. *)

From S2P Require Import Prelude GoStrings Strconv Term TermKey TripleIndex Store MemoryStore Graph Collection Reasoning Rdfs RdfsCorrect UnionFind Owl OwlSpec OwlIndex.
From stdpp Require Import relations options.

(** The vocabulary of axioms with lists, and that of conclusions about equality. *)
Definition list_axioms : list URIRef := [OWL_IntersectionOf; OWL_UnionOf; OWL_OneOf; OWL_PropertyChainAxiom].
Definition list_parts : list URIRef := [RDF_First; RDF_Rest].
Definition equality_words : list URIRef :=
  [OWL_SameAs; OWL_FunctionalProperty; OWL_InverseFunctionalProperty; OWL_MaxCardinality; OWL_MaxQualifiedCardinality; OWL_HasKey].
Definition reserved : list URIRef := list_axioms ++ list_parts ++ equality_words.

Lemma words_apart l l' : forallb (λ p, forallb (λ q, negb (String.eqb (uri_key p) (uri_key q))) l') l = true → ∀ p, p ∈ l → p ∉ l'.
Proof.
  rewrite forallb_forall. intros Hf p Hp Hp'. apply list_elem_of_In, Hf in Hp. rewrite forallb_forall in Hp. apply list_elem_of_In, Hp in Hp'.
  by rewrite String.eqb_refl in Hp'.
Qed.
Lemma axioms_parts p : p ∈ list_axioms → p ∉ list_parts.
Proof. by apply words_apart. Qed.
Lemma words_others p : p ∈ equality_words → p ∉ list_axioms ++ list_parts.
Proof. by apply words_apart. Qed.
Lemma in_reserved p : p ∈ reserved ↔ p ∈ list_axioms ∨ p ∈ list_parts ∨ p ∈ equality_words.
Proof. unfold reserved. by rewrite !elem_of_app. Qed.

Section plain.
Context (b : bool) (G : Triple → Prop) (L : Term → Prop).
Abbreviation D := (owl_derives b G).

(** Neither a node of a list nor a reserved word. *)
Definition ordinary (x : Term) : Prop := ¬ L x ∧ ∀ p, p ∈ reserved → x ≠ U p.

Definition plain_triple (t : Triple) : Prop :=
  (Predicate t ∉ reserved ∧ ordinary (Subject t) ∧ ordinary (Object t)) ∨
  (Predicate t ∈ list_axioms ∧ ordinary (Subject t) ∧ L (Object t)) ∨
  (Predicate t = RDF_First ∧ L (Subject t) ∧ ordinary (Object t)) ∨
  (Predicate t = RDF_Rest ∧ L (Subject t) ∧ L (Object t)).

(** The nodes of lists occur in lists and as the objects of list axioms only, each
    list is written once, that of a chain with IRIs, and nothing concludes that
    terms are the same. *)
Record plain_lists : Prop := {
  pl_triple t : G t → plain_triple t;
  pl_list l : L l → ∃ ms, written G G l ms;
  pl_chain p l : G (MkTriple p OWL_PropertyChainAxiom l) → ∃ ps, written G G l (U <$> ps)
}.

(** What the derivable triples are like. *)
Definition plain (t : Triple) : Prop :=
  (Predicate t ∉ reserved ∧ ordinary (Subject t) ∧ ordinary (Object t)) ∨
  (Predicate t ∈ list_axioms ∧ ordinary (Subject t) ∧ ∃ s, G (MkTriple s (Predicate t) (Object t))) ∨
  (Predicate t ∈ list_parts ∧ G t).

Lemma plain_other s p o : plain (MkTriple s p o) → p ∉ reserved → ordinary s ∧ ordinary o.
Proof. rewrite in_reserved. intros [(_ & ? & ?)|[(Hp & _)|(Hp & _)]] Hn; [done|tauto|tauto]. Qed.

Lemma plain_axiom s p o : plain (MkTriple s p o) → p ∈ list_axioms → ordinary s ∧ ∃ s', G (MkTriple s' p o).
Proof.
  intros [(Hp & _)|[(_ & ? & ?)|(Hp & _)]] Hin; [|done|by apply axioms_parts in Hin]. cbn [Predicate] in Hp. rewrite in_reserved in Hp. tauto.
Qed.

Lemma plain_word s p o : plain (MkTriple s p o) → p ∉ equality_words.
Proof.
  intros Hpl Hw. pose proof (words_others p Hw) as Hn. rewrite elem_of_app in Hn. destruct Hpl as [(Hp & _)|[(Hp & _)|(Hp & _)]]; cbn [Predicate] in Hp; [|tauto|tauto].
  rewrite in_reserved in Hp. tauto.
Qed.

Lemma plain_part s p o : plain_lists → plain (MkTriple s p o) → p ∈ list_parts → G (MkTriple s p o) ∧ L s.
Proof.
  intros HG [(Hp & _)|[(Hp & _)|(_ & Ht)]] Hin; cbn [Predicate] in *; [rewrite in_reserved in Hp; tauto|by apply axioms_parts in Hp|].
  split; [done|]. destruct (pl_triple HG _ Ht) as [(Hp & _)|[(Hp & _)|[(_ & ? & _)|(_ & ? & _)]]]; cbn [Subject Predicate Object] in *; [|by apply axioms_parts in Hp|done|done].
  rewrite in_reserved in Hp. tauto.
Qed.

Context (HG : plain_lists).

Lemma plain_given t : G t → plain t.
Proof using HG.
  intros Ht. destruct (pl_triple HG t Ht) as [?|[(? & ? & ?)|[(E & _)|(E & _)]]]; [by left|right; left|right; right; rewrite E..].
  - split; [done|]. split; [done|]. exists (Subject t). by destruct t.
  - split; [by left|done].
  - split; [by right; left|done].
Qed.

Lemma plain_no_same x y : ¬ same_as plain x y.
Proof.
  assert (Hs : ∀ x y, ¬ sc (same_step plain) x y) by (intros a c [H|H]; apply plain_word in H; apply H; by left).
  destruct 1 as [x y H|x y z H]; by apply Hs in H.
Qed.

Lemma plain_member l m : list_member plain l m → ordinary m.
Proof using HG.
  induction 1 as [l v Hv|]; [|done]. destruct (plain_part _ _ _ HG Hv ltac:(by left)) as [Ht HL].
  destruct (pl_triple HG _ Ht) as [(Hp & _)|[(Hp & _)|[(_ & _ & ?)|(Hp & _)]]]; cbn [Predicate Object] in *; [| |done|].
  - exfalso. apply Hp. apply in_reserved. right. left. by left.
  - exfalso. apply axioms_parts in Hp. apply Hp. by left.
  - by apply (f_equal uri_key) in Hp; vm_compute in Hp.
Qed.

Lemma ordinary_pred p : ordinary (U p) → p ∉ reserved.
Proof. intros [_ Hn] Hp. by apply (Hn p Hp). Qed.

Lemma plain_path ps x z : (∀ p, p ∈ ps → ordinary (U p)) → chain_path plain ps x z → ordinary x ∧ ordinary z.
Proof.
  intros Hps. induction 1 as [p x y H|p ps x y z H _ _ IH].
  - apply (plain_other x p y H). apply ordinary_pred, Hps. by left.
  - split; [|apply IH; intros q Hq; apply Hps; by right]. apply (plain_other x p y H). apply ordinary_pred, Hps. by left.
Qed.

Lemma word_not_ordinary p : p ∈ reserved → ¬ ordinary (U p).
Proof. intros Hp [_ Hn]. by apply (Hn p Hp). Qed.

Ltac not_reserved := first [assumption | by apply ordinary_pred | match goal with |- ?p ∉ _ => is_const p; apply (words_apart [p] reserved eq_refl); by left end].
Ltac plain_facts :=
  repeat match goal with H : plain (MkTriple ?s ?p ?o) |- _ => apply (plain_other s p o) in H as [? ?]; [|not_reserved] end.
Ltac list_in := repeat first [by left | right].
Ltac plain_absurd :=
  match goal with
  | H : ordinary (U ?p) |- _ => is_const p; apply (word_not_ordinary p) in H; [done|unfold reserved, list_axioms, list_parts, equality_words; cbn [app]; solve [list_in]]
  | H : plain (MkTriple _ ?p _) |- _ => is_const p; apply plain_word in H; apply H; unfold equality_words; solve [list_in]
  end.

Lemma plain_closed : owl_closed b plain.
Proof using HG.
  assert (Hout : ∀ s p o, p ∉ reserved → ordinary s → ordinary o → plain (MkTriple s p o)) by (intros; by left).
  assert (Htype : RDF_Type ∉ reserved) by (apply (words_apart [RDF_Type] reserved eq_refl); by left).
  assert (Hsame : ∀ x y, ¬ same_as plain x y) by apply plain_no_same.
  repeat split; intros; try (by exfalso; eapply Hsame);
    repeat match goal with
    | H : restriction_on plain _ _ |- _ => destruct H as [? ?]
    | H : says_card plain _ _ _ |- _ => destruct H as (? & ? & _)
    | H : list_member plain _ _ |- _ => apply plain_member in H
    end; plain_facts.
  all: try (by apply Hout; [not_reserved|..]).
  all: try (by exfalso; plain_absurd).
  - match goal with Hp : plain _, Hc : rdf_list _ _ _, Hx : chain_path _ _ _ _ |- _ =>
      apply (plain_axiom (U p) OWL_PropertyChainAxiom l) in Hp as [Hp _]; [|unfold list_axioms; list_in];
      apply plain_path in Hx as [? ?]; [by apply Hout; [by apply ordinary_pred|..]|];
      intros q Hq; eapply plain_member, rdf_list_member; [exact Hc|by apply list_elem_of_fmap_2] end.
  - match goal with Hp : plain _, Hn : ms ≠ [], Hm : ∀ m, m ∈ ms → _ |- _ =>
      apply (plain_axiom c OWL_IntersectionOf l) in Hp as [Hp _]; [|unfold list_axioms; list_in];
      destruct ms as [|m ms]; [done|]; destruct (plain_other y RDF_Type m (Hm m ltac:(by left)) Htype); by apply Hout end.
  - match goal with Hp : plain _ |- _ => apply (plain_axiom c OWL_UnionOf l) in Hp as [Hp _]; [by apply Hout|unfold list_axioms; list_in] end.
  - match goal with Hp : plain _ |- _ => apply (plain_axiom c OWL_OneOf l) in Hp as [Hp _]; [by apply Hout|unfold list_axioms; list_in] end.
Qed.

Lemma derives_plain t : D t → plain t.
Proof using HG. intros Ht. apply Ht; [apply plain_given|apply plain_closed]. Qed.

(** The lists are then what they are in the graph. *)
Lemma written_derived l ms : written G G l ms → written G D l ms.
Proof using HG.
  assert (Hpart : ∀ l p o, p ∈ list_parts → D (MkTriple l p o) → G (MkTriple l p o)).
  { intros l0 p o Hp Ht%derives_plain. by apply (plain_part l0 p o HG Ht). }
  induction 1 as [|l v r vs Hn Hs Hv Hr Hv' Hr' _ IH]; [constructor|]. econstructor; [done|done|exact Hv|exact Hr| | |done].
  - intros v' Hd. apply Hv', Hpart; [by left|done].
  - intros r' Hd. apply Hr', Hpart; [by right; left|done].
Qed.

Lemma plain_lists_ok : lists_ok G D.
Proof using HG.
  assert (Hax : ∀ p s l, p ∈ list_axioms → D (MkTriple s p l) → ∃ s', G (MkTriple s' p l)).
  { intros p s l Hp Ht%derives_plain. by apply (plain_axiom s p l Ht) in Hp as [_ ?]. }
  split; [|split].
  - intros c l Ht. destruct (Hax OWL_IntersectionOf c l) as (s & Hs); [by left|done|].
    destruct (pl_triple HG _ Hs) as [(Hp & _)|[(_ & _ & Hl)|[(Hp & _)|(Hp & _)]]]; cbn [Predicate Object] in *.
    + exfalso. apply Hp, in_reserved. left. by left.
    + destruct (pl_list HG l Hl) as (ms & Hms). exists ms. by apply written_derived.
    + by apply (f_equal uri_key) in Hp; vm_compute in Hp.
    + by apply (f_equal uri_key) in Hp; vm_compute in Hp.
  - intros p l Ht. destruct (Hax OWL_PropertyChainAxiom p l) as (s & Hs); [unfold list_axioms; list_in|done|].
    destruct (pl_chain HG s l Hs) as (ps & Hps). exists ps. by apply written_derived.
  - intros c l Ht%derives_plain. exfalso. apply plain_word in Ht. apply Ht. unfold equality_words. list_in.
Qed.

(** Nor is there a functional property. *)
Lemma plain_functional p : ¬ D (MkTriple (U p) RDF_Type (U OWL_FunctionalProperty)).
Proof using HG.
  intros Ht%derives_plain. apply plain_other in Ht as [_ Ho]; [|apply (words_apart [RDF_Type] reserved eq_refl); by left].
  apply (word_not_ordinary OWL_FunctionalProperty); [|done]. unfold reserved, list_axioms, list_parts, equality_words. cbn [app]. list_in.
Qed.
End plain.

(** ** A check *)

Section check.
Context (l : list Triple) (nodes : list Term).
Abbreviation G := (λ t, t ∈ l).
Abbreviation L := (λ x, x ∈ nodes).

Definition ordinary_b (x : Term) : bool := negb (bool_decide (x ∈ nodes)) && forallb (λ p, negb (bool_decide (x = U p))) reserved.
Definition plain_triple_b (t : Triple) : bool :=
  (negb (bool_decide (Predicate t ∈ reserved)) && ordinary_b (Subject t) && ordinary_b (Object t)) ||
  (bool_decide (Predicate t ∈ list_axioms) && ordinary_b (Subject t) && bool_decide (Object t ∈ nodes)) ||
  (bool_decide (Predicate t = RDF_First) && bool_decide (Subject t ∈ nodes) && ordinary_b (Object t)) ||
  (bool_decide (Predicate t = RDF_Rest) && bool_decide (Subject t ∈ nodes) && bool_decide (Object t ∈ nodes)).

Definition objects_of (s : Term) (p : URIRef) : list Term := Object <$> List.filter (λ t, bool_decide (Subject t = s ∧ Predicate t = p)) l.

(** The list at a node, if it is written once. *)
Fixpoint read_list (fuel : nat) (node : Term) : option (list Term) :=
  match fuel with
  | O => None
  | S fuel =>
      if bool_decide (node = U RDF_Nil) then Some []
      else match objects_of node RDF_First, objects_of node RDF_Rest with
           | [v], [r] => if isSubject node then cons v <$> read_list fuel r else None
           | _, _ => None
           end
  end.

Definition chain_b (t : Triple) : bool :=
  negb (bool_decide (Predicate t = OWL_PropertyChainAxiom)) ||
  match read_list (S (length l)) (Object t) with Some ms => bool_decide (U <$> omap asURIRef ms = ms) | None => false end.
Definition list_b (node : Term) : bool := match read_list (S (length l)) node with Some _ => true | None => false end.
Definition plain_check : bool := forallb plain_triple_b l && forallb list_b nodes && forallb chain_b l.

Lemma ordinary_b_ok x : ordinary_b x = true → ordinary L x.
Proof.
  unfold ordinary_b. rewrite andb_true_iff, negb_true_iff, bool_decide_eq_false, forallb_forall. intros [Hn Hp]. split; [done|].
  intros p Hin. apply list_elem_of_In, Hp in Hin. by rewrite negb_true_iff, bool_decide_eq_false in Hin.
Qed.

Lemma plain_triple_b_ok t : plain_triple_b t = true → plain_triple L t.
Proof.
  unfold plain_triple_b, plain_triple. rewrite !orb_true_iff, !andb_true_iff, !negb_true_iff, !bool_decide_eq_true, !bool_decide_eq_false.
  pose proof (ordinary_b_ok (Subject t)). pose proof (ordinary_b_ok (Object t)). tauto.
Qed.

Lemma objects_of_elem s p o : o ∈ objects_of s p ↔ MkTriple s p o ∈ l.
Proof.
  unfold objects_of. rewrite list_elem_of_fmap. setoid_rewrite list_elem_of_In at 1. setoid_rewrite List.filter_In. setoid_rewrite bool_decide_eq_true. split.
  - intros (t & -> & Ht & <- & <-). apply list_elem_of_In. by destruct t.
  - intros Ht%list_elem_of_In. by exists (MkTriple s p o).
Qed.

Lemma read_list_ok fuel : ∀ node ms, read_list fuel node = Some ms → written G G node ms.
Proof.
  induction fuel as [|fuel IH]; intros node ms; [done|]. cbn [read_list]. case_bool_decide as En; [intros [= <-]; subst; constructor|].
  destruct (objects_of node RDF_First) as [|v [|]] eqn:Ef; try done. destruct (objects_of node RDF_Rest) as [|r [|]] eqn:Er; try done.
  destruct (isSubject node) eqn:Es; [|done]. destruct (read_list fuel r) as [vs|] eqn:Ev; [|done]. intros [= <-].
  apply written_cons with r; [done|done|apply objects_of_elem; rewrite Ef; by left|apply objects_of_elem; rewrite Er; by left| | |by apply IH].
  - intros v' Hv%objects_of_elem. rewrite Ef in Hv. by apply list_elem_of_singleton in Hv.
  - intros r' Hr%objects_of_elem. rewrite Er in Hr. by apply list_elem_of_singleton in Hr.
Qed.

Lemma plain_check_ok : plain_check = true → plain_lists G L.
Proof.
  unfold plain_check. rewrite !andb_true_iff, !forallb_forall. intros [[H1 H2] H3]. split.
  - intros t Ht. by apply plain_triple_b_ok, H1, list_elem_of_In.
  - intros n Hn%list_elem_of_In%H2. unfold list_b in Hn. destruct (read_list _ n) as [ms|] eqn:E; [|done]. exists ms. by eapply read_list_ok.
  - intros p n Hn%list_elem_of_In%H3. unfold chain_b in Hn. cbn [Predicate Object] in Hn. rewrite bool_decide_eq_true_2 in Hn by done. cbn [negb orb] in Hn.
    destruct (read_list _ n) as [ms|] eqn:E; [|done]. apply bool_decide_eq_true in Hn. exists (omap asURIRef ms). rewrite Hn. by eapply read_list_ok.
Qed.
End check.

(** Conditions on a graph hold of the same triples written differently. *)
Lemma plain_lists_iff (G G' : Triple → Prop) L : (∀ t, G t ↔ G' t) → plain_lists G L → plain_lists G' L.
Proof.
  intros HG [H1 H2 H3]. assert (Hw : ∀ l ms, written G G l ms → written G' G' l ms).
  { induction 1 as [|l v r vs Hn Hs Hv Hr Hv' Hr' _ IH]; [constructor|]. econstructor; [done|done|by apply HG|by apply HG| | |done]; intros w Hw; [apply Hv'|apply Hr']; by apply HG. }
  split.
  - intros t Ht. by apply H1, HG.
  - intros l Hl. destruct (H2 l Hl) as (ms & Hms). exists ms. by apply Hw.
  - intros p l Hp%HG. destruct (H3 p l Hp) as (ps & Hps). exists ps. by apply Hw.
Qed.
