(* ===== verification/OwlBuild.v ===== *)
(** * OWL 2 RL: building the indexes

    [buildSchemaIndexes], when it is not stopped, gives indexes that are sound for
    what follows from the graph and complete for the axioms of the graph. *)

From S2P Require Import Prelude GoStrings Strconv Term TermKey TripleIndex Store MemoryStore Graph Collection Reasoning Rdfs RdfsCorrect UnionFind Owl OwlSpec OwlIndex.
From stdpp Require Import relations options.

(** ** Accumulators *)

Section unique.
Context {T : Type} (key : T → string).
Implicit Types (m : gmap string (list T)).

Lemma entries_add_unique m k u k' x : x ∈ entries (add_unique key m k u) k' → x ∈ entries m k' ∨ (k' = k ∧ x = u).
Proof.
  unfold add_unique. unfold entries at 1. rewrite lookup_insert. case_decide as E; [|by left]. subst. cbn. unfold appendUnique.
  destruct (existsb _ _); [by left|]. rewrite elem_of_app, list_elem_of_singleton. naive_solver.
Qed.

Lemma keys_add_unique m k u k' kx : kx ∈ key <$> entries m k' → kx ∈ key <$> entries (add_unique key m k u) k'.
Proof.
  unfold add_unique. unfold entries at 2. rewrite lookup_insert. case_decide as E; [|done]. subst. cbn. unfold appendUnique.
  destruct (existsb _ _); [done|]. rewrite fmap_app, elem_of_app. by left.
Qed.

Lemma key_add_unique m k u : key u ∈ key <$> entries (add_unique key m k u) k.
Proof.
  unfold add_unique. unfold entries at 1. rewrite lookup_insert_eq. cbn. unfold appendUnique. destruct (existsb _ _) eqn:E.
  - apply existsb_exists in E as (x & Hx & Hk). apply String.eqb_eq in Hk. rewrite <- Hk. apply list_elem_of_fmap_2. by apply list_elem_of_In.
  - rewrite fmap_app, elem_of_app. right. cbn. by left.
Qed.
End unique.

Lemma foldl_ind {A B} (f : A → B → A) (I : A → Prop) l : ∀ a, I a → (∀ a t, t ∈ l → I a → I (f a t)) → I (foldl f a l).
Proof.
  induction l as [|t l IH]; intros a Ha Hf; [done|]. cbn. apply IH; [apply Hf; [by left|done]|]. intros b u Hu. apply Hf. by right.
Qed.

(** What one element establishes and the others keep. *)
Lemma foldl_reach {A B} (f : A → B → A) (I : A → Prop) l t : t ∈ l → (∀ a, I (f a t)) → (∀ a u, I a → I (f a u)) → ∀ a, I (foldl f a l).
Proof.
  intros Ht Hf Hk. induction l as [|u l IH]; intros a; [by apply not_elem_of_nil in Ht|]. cbn.
  apply elem_of_cons in Ht as [<-|Ht]; [|by apply IH]. apply foldl_ind; [apply Hf|]. intros b v _. apply Hk.
Qed.

(** ** The scan of the types *)

Ltac type_cases :=
  repeat match goal with
  | |- context [String.eqb ?k (uri_key ?c)] => destruct (String.eqb_spec k (uri_key c)) as [->|_]; [reflexivity|]
  end; reflexivity.

Section scan_type.
Context (t : Triple) (a : typeScan).
Abbreviation ok := (TermKey (Object t)).
Abbreviation sk := (TermKey (Subject t)).

Lemma scan_symmetric : ty_symmetric (scan_type t a) = if String.eqb ok (uri_key OWL_SymmetricProperty) then {[sk]} ∪ ty_symmetric a else ty_symmetric a.
Proof. unfold scan_type. destruct a. generalize (TermKey (Object t)). intros k. type_cases. Qed.
Lemma scan_transitive : ty_transitive (scan_type t a) = if String.eqb ok (uri_key OWL_TransitiveProperty) then {[sk]} ∪ ty_transitive a else ty_transitive a.
Proof. unfold scan_type. destruct a. generalize (TermKey (Object t)). intros k. type_cases. Qed.
Lemma scan_functional : ty_functional (scan_type t a) = if String.eqb ok (uri_key OWL_FunctionalProperty) then {[sk]} ∪ ty_functional a else ty_functional a.
Proof. unfold scan_type. destruct a. generalize (TermKey (Object t)). intros k. type_cases. Qed.
Lemma scan_invFunc : ty_invFunc (scan_type t a) = if String.eqb ok (uri_key OWL_InverseFunctionalProperty) then {[sk]} ∪ ty_invFunc a else ty_invFunc a.
Proof. unfold scan_type. destruct a. generalize (TermKey (Object t)). intros k. type_cases. Qed.
Lemma scan_restriction : restrictionNodes (scan_type t a) = if String.eqb ok (uri_key OWL_Restriction) then <[sk := Subject t]> (restrictionNodes a) else restrictionNodes a.
Proof. unfold scan_type. destruct a. generalize (TermKey (Object t)). intros k. type_cases. Qed.
Lemma scan_irreflexive : ty_irreflexive (scan_type t a) = if String.eqb ok (uri_key OWL_IrreflexiveProperty) then {[sk]} ∪ ty_irreflexive a else ty_irreflexive a.
Proof. unfold scan_type. destruct a. generalize (TermKey (Object t)). intros k. type_cases. Qed.
Lemma scan_asymmetric : ty_asymmetric (scan_type t a) = if String.eqb ok (uri_key OWL_AsymmetricProperty) then {[sk]} ∪ ty_asymmetric a else ty_asymmetric a.
Proof. unfold scan_type. destruct a. generalize (TermKey (Object t)). intros k. type_cases. Qed.
Lemma scan_adp : allDisjPropNodes (scan_type t a) = if String.eqb ok (uri_key OWL_AllDisjointProperties) then allDisjPropNodes a ++ [Subject t] else allDisjPropNodes a.
Proof. unfold scan_type. destruct a. generalize (TermKey (Object t)). intros k. type_cases. Qed.
Lemma scan_adc : allDisjClassNodes (scan_type t a) = if String.eqb ok (uri_key OWL_AllDisjointClasses) then allDisjClassNodes a ++ [Subject t] else allDisjClassNodes a.
Proof. unfold scan_type. destruct a. generalize (TermKey (Object t)). intros k. type_cases. Qed.
Lemma scan_npa : negPANodes (scan_type t a) = if String.eqb ok (uri_key OWL_NegativePropertyAssertion) then negPANodes a ++ [Subject t] else negPANodes a.
Proof. unfold scan_type. destruct a. generalize (TermKey (Object t)). intros k. type_cases. Qed.
End scan_type.

Section scans.
Context (D S : Triple → Prop) (D_wf : ∀ t, D t → triple_wf t) (S_D : ∀ t, S t → D t).
Context (l : list Triple) (p : URIRef) (Hl : ∀ t, t ∈ l → S t ∧ Predicate t = p) (Hl' : ∀ t, S t → Predicate t = p → t ∈ l).

Lemma in_scan s o : S (MkTriple s p o) → MkTriple s p o ∈ l.
Proof using Hl'. intros Hs. by apply Hl'. Qed.

Lemma of_scan t : t ∈ l → D (MkTriple (Subject t) p (Object t)).
Proof using S_D Hl. intros Ht. destruct (Hl t Ht) as [Ht' Hp]. rewrite <- Hp. apply S_D. destruct t. exact Ht'. Qed.

(** One set of typed nodes; [field] is its place. *)
Lemma scan_typed (field : typeScan → gset string) c a : uri_ok c → p = RDF_Type → field a = ∅ →
  (∀ t a, field (scan_type t a) = if String.eqb (TermKey (Object t)) (uri_key c) then {[TermKey (Subject t)]} ∪ field a else field a) →
  let r := field (foldl (λ a t, scan_type t a) a l) in typed_set D c r ∧ typed_complete S c r.
Proof using D_wf S_D Hl Hl'.
  intros Hc Hp Ha Hf. split.
  - apply (foldl_ind _ (λ a, typed_set D c (field a))).
    + rewrite Ha. by intros k ?%not_elem_of_empty.
    + intros b t Ht Hb k. rewrite Hf. destruct (String.eqb_spec (TermKey (Object t)) (uri_key c)) as [E|_]; [|apply Hb].
      intros [Hk|Hk]%elem_of_union; [|by apply Hb]. apply elem_of_singleton in Hk as ->. exists (Subject t). split; [done|].
      pose proof (of_scan t Ht) as HDt. rewrite Hp in HDt. assert (Ho : Object t = U c) by (apply TermKey_inj; [by apply D_wf in HDt as (_ & _ & _ & ?)|done|done]).
      by rewrite <- Ho.
  - intros x Hx. rewrite <- Hp in Hx. apply (foldl_reach _ (λ a, TermKey x ∈ field a) l (MkTriple x p (U c))); [by apply in_scan| |].
    + intros b. rewrite Hf. cbn [Object Subject TermKey]. rewrite String.eqb_refl. set_solver.
    + intros b u Hb. rewrite Hf. destruct (String.eqb _ _); set_solver.
Qed.

Lemma scan_linked : let r := foldl (λ m t, link_uris t m) ∅ l in linked D p r ∧ linked_complete S p r.
Proof using D_wf S_D Hl Hl'.
  split.
  - apply (foldl_ind _ (linked D p)).
    + intros k q. unfold entries. rewrite lookup_empty. by intros ?%not_elem_of_nil.
    + intros m t Ht Hm. unfold link_uris. pose proof (of_scan t Ht) as HDt.
      destruct (Object t) as [p2| | | |]; try done. destruct (Subject t) as [p1| | | |]; try done. cbn [asURIRef].
      intros k q [[Hq|[-> ->]]%entries_add_unique|[-> ->]]%entries_add_unique; [by apply Hm|exists p1; auto..|exists p2; auto].
  - intros x q Hx. assert (Hkeep : ∀ k kq, ∀ m t, kq ∈ uri_key <$> entries m k → kq ∈ uri_key <$> entries (link_uris t m) k).
    { intros k kq m t Hk. unfold link_uris. destruct (asURIRef (Object t)), (asURIRef (Subject t)); try done. by do 2 apply keys_add_unique. }
    apply in_scan in Hx. split; eapply foldl_reach; [exact Hx| |intros; by apply Hkeep|exact Hx| |intros; by apply Hkeep]; intros m; cbn.
    + apply keys_add_unique, key_add_unique.
    + apply key_add_unique.
Qed.

Lemma scan_classes : p = OWL_EquivalentClass → let r := foldl (λ m t, link_classes t m) ∅ l in linked_classes D r ∧ classes_complete S r.
Proof using D_wf S_D Hl Hl'.
  intros Hp. split.
  - apply (foldl_ind _ (linked_classes D)).
    + intros k q. unfold entries. rewrite lookup_empty. by intros ?%not_elem_of_nil.
    + intros m t Ht Hm. unfold link_classes, asSubject. pose proof (of_scan t Ht) as HDt. rewrite Hp in HDt. destruct (isSubject (Object t)) eqn:E; [|done].
      intros k q [[Hq|[-> ->]]%entries_add_unique|[-> ->]]%entries_add_unique; [by apply Hm|exists (Subject t); auto|exists (Object t); auto].
  - intros x c Hx Hc. rewrite <- Hp in Hx. assert (Hkeep : ∀ k kq, ∀ m t, kq ∈ TermKey <$> entries m k → kq ∈ TermKey <$> entries (link_classes t m) k).
    { intros k kq m t Hk. unfold link_classes. destruct (asSubject (Object t)); [|done]. by do 2 apply keys_add_unique. }
    apply in_scan in Hx. split; eapply foldl_reach; [exact Hx| |intros; by apply Hkeep|exact Hx| |intros; by apply Hkeep]; intros m;
      unfold link_classes, asSubject; cbn [Object Subject]; rewrite Hc.
    + apply keys_add_unique, key_add_unique.
    + apply key_add_unique.
Qed.

Lemma scan_nodes a : p = RDF_Type → restrictionNodes a = ∅ →
  ∀ k n, restrictionNodes (foldl (λ a t, scan_type t a) a l) !! k = Some n → D (MkTriple n RDF_Type (U OWL_Restriction)).
Proof using D_wf S_D Hl.
  intros Hp Ha. apply (foldl_ind _ (λ a, ∀ k n, restrictionNodes a !! k = Some n → D (MkTriple n RDF_Type (U OWL_Restriction)))).
  - intros k n. by rewrite Ha, lookup_empty.
  - intros b t Ht Hb k n. rewrite scan_restriction. destruct (String.eqb_spec (TermKey (Object t)) (uri_key OWL_Restriction)) as [E|_]; [|apply Hb].
    intros [[<- <-]|[_ Hn]]%lookup_insert_Some; [|by eapply Hb]. pose proof (of_scan t Ht) as HDt. rewrite Hp in HDt.
    assert (Ho : Object t = U OWL_Restriction) by (apply TermKey_inj; [by apply D_wf in HDt as (_ & _ & _ & ?)|by eexists|done]). by rewrite <- Ho.
Qed.

(** One list of typed nodes; [field] is its place. *)
Lemma scan_listed (field : typeScan → list Term) c a : uri_ok c → p = RDF_Type → field a = [] →
  (∀ t a, field (scan_type t a) = if String.eqb (TermKey (Object t)) (uri_key c) then field a ++ [Subject t] else field a) →
  ∀ n, n ∈ field (foldl (λ a t, scan_type t a) a l) → D (MkTriple n RDF_Type (U c)).
Proof using D_wf S_D Hl.
  intros Hc Hp Ha Hf. apply (foldl_ind _ (λ a, ∀ n, n ∈ field a → D (MkTriple n RDF_Type (U c)))).
  - rewrite Ha. by intros n ?%not_elem_of_nil.
  - intros b t Ht Hb n. rewrite Hf. destruct (String.eqb_spec (TermKey (Object t)) (uri_key c)) as [E|_]; [|apply Hb].
    intros [Hn| ->%list_elem_of_singleton]%elem_of_app; [by apply Hb|]. pose proof (of_scan t Ht) as HDt. rewrite Hp in HDt.
    assert (Ho : Object t = U c) by (apply TermKey_inj; [by apply D_wf in HDt as (_ & _ & _ & ?)|done|done]). by rewrite <- Ho.
Qed.

Lemma scan_complements : p = OWL_ComplementOf → ∀ k c,
  foldl (λ (m : gmap string Term) t, <[TermKey (Subject t) := Object t]> m) ∅ l !! k = Some c → ∃ x, TermKey x = k ∧ D (MkTriple x OWL_ComplementOf c).
Proof using S_D Hl.
  intros Hp. apply (foldl_ind _ (λ m : gmap string Term, ∀ k c, m !! k = Some c → ∃ x, TermKey x = k ∧ D (MkTriple x OWL_ComplementOf c))).
  - intros k c. by rewrite lookup_empty.
  - intros m t Ht Hm k c. intros [[<- <-]|[_ Hk]]%lookup_insert_Some; [|by apply Hm]. exists (Subject t). split; [done|]. rewrite <- Hp. by apply of_scan.
Qed.

Lemma scan_different : p = OWL_DifferentFrom → ∀ k d, d ∈ entries (foldl (λ m t, link_different t m) ∅ l) k →
  ∃ x, TermKey x = k ∧ (D (MkTriple x OWL_DifferentFrom d) ∨ D (MkTriple d OWL_DifferentFrom x)).
Proof using S_D Hl.
  intros Hp. apply (foldl_ind _ (λ m, ∀ k d, d ∈ entries m k → ∃ x, TermKey x = k ∧ (D (MkTriple x OWL_DifferentFrom d) ∨ D (MkTriple d OWL_DifferentFrom x)))).
  - intros k d. unfold entries. rewrite lookup_empty. by intros ?%not_elem_of_nil.
  - intros m t Ht Hm k d. pose proof (of_scan t Ht) as HDt. rewrite Hp in HDt. unfold link_different.
    destruct (isSubject (Object t)); rewrite !entries_append.
    + intros [[Hin|[-> ->]]|[-> ->]]; [by apply Hm|exists (Subject t); split; [done|by left]|exists (Object t); split; [done|by right]].
    + intros [Hin|[-> ->]]; [by apply Hm|exists (Subject t); split; [done|by left]].
Qed.

Lemma scan_different_all x y : p = OWL_DifferentFrom → S (MkTriple x OWL_DifferentFrom y) → let m := foldl (λ m t, link_different t m) ∅ l in
  y ∈ entries m (TermKey x) ∧ (isSubject y = true → x ∈ entries m (TermKey y)).
Proof using Hl'.
  intros Hp Hxy. rewrite <- Hp in Hxy. apply in_scan in Hxy. assert (Hkeep : ∀ k d m t, d ∈ entries m k → d ∈ entries (link_different t m) k).
  { intros k d m t Hd. unfold link_different. destruct (isSubject (Object t)); rewrite !entries_append; tauto. }
  split; [|intros Hy]; eapply foldl_reach; [exact Hxy| |intros; by apply Hkeep|exact Hxy| |intros; by apply Hkeep]; intros m; unfold link_different; cbn [Subject Object].
  - destruct (isSubject y); rewrite !entries_append; tauto.
  - rewrite Hy, !entries_append. tauto.
Qed.
End scans.

(** ** The parts read node by node *)

Section build.
Context {St : Type} {store_St : Store St} {laws_St : StoreLaws St} `{GoRange} (g : Graph_).
Abbreviation has st t := (t ∈ graph_triples (graph_of st g)).
Context (G D : Triple → Prop) (D_wf : ∀ t, D t → triple_wf t) (G_D : ∀ t, G t → D t) (Hlists : lists_ok G D).
Context (st : St) (Hst : sinv st) (HD : ∀ t, has st t → D t) (HG : ∀ t, G t → has st t).
Implicit Types (s : stopper).

Lemma has_wf t : has st t → triple_wf t.
Proof using D_wf HD. intros Ht. by apply D_wf, HD. Qed.

(** A loop whose body ends later ends later. *)
Lemma sp_triples_later {A} sub p o (fn : Triple → stopper → A → bool * stopper * A) s a :
  (∀ t s a, has st t → later s (fn t s a).1.2) → later s (sp_triples g sub p o fn st s a).1.
Proof using Hst.
  intros Hfn. destruct (halted s) eqn:Eh; [by rewrite sp_triples_halted|].
  destruct (sp_triples_spec g sub p o fn st s a Hst Eh) as [(l & s1 & Hl & _ & L1 & _ & ->)|(s1 & L1 & _ & ->)]; [|done].
  etrans; [exact L1|]. assert (Hin : ∀ t, t ∈ l → has st t).
  { intros t. rewrite Hl, matching_elem by (by apply graph_of_keyed). by intros [? _]. }
  clear -Hfn Hin. revert s1 a. induction l as [|t l IH]; intros s1 a; cbn [fmap list_fmap triples_go fst]; [reflexivity|].
  pose proof (Hfn t s1 a ltac:(apply Hin; by left)) as L. destruct (fn t s1 a) as [[[] s2] a2]; cbn [fst snd] in *; [|done].
  etrans; [exact L|]. apply IH. intros u Hu. apply Hin. by right.
Qed.

Lemma uri_items_prefix l s : term_wf l → ∃ ms s', uri_items g l st s = (omap asURIRef ms, s') ∧ later s s' ∧ list_prefix D l ms.
Proof using D_wf Hst HD.
  intros Hl. unfold uri_items. destruct (list_items_prefix g D D_wf st Hst HD l s Hl) as (items & s' & -> & L & Hp). by exists items, s'.
Qed.

Lemma uri_items_written l ps s : written G D l (U <$> ps) → term_wf l →
  ∃ items s', uri_items g l st s = (items, s') ∧ step_to s s' (items = ps).
Proof using D_wf Hst HD HG G_D.
  intros Hw Hl. unfold uri_items. destruct (list_items_written g G D D_wf G_D st Hst HD HG l _ s Hw Hl) as (items & s' & -> & St').
  exists (omap asURIRef items), s'. split; [done|]. eapply step_to_mono; [|exact St']. intros ->. apply omap_uris.
Qed.

Lemma cardinality_ok q node r n : (∀ o, r = Some o → has st (MkTriple node q o)) → cardinality_of r = n → n ≠ (-1)%Z → says_card D node q n.
Proof using HD.
  intros Hr <- Hn. unfold cardinality_of in *. destruct r as [[| |lit| |]|]; try done. destruct (ParseInt64 (lexical lit)) as [v|] eqn:E; [|done].
  exists lit. split; [by apply HD, Hr|done].
Qed.

Lemma read_restriction_ok node s : term_wf node → D (MkTriple node RDF_Type (U OWL_Restriction)) →
  ∃ r s', read_restriction g st node s = (r, s') ∧ later s s' ∧ ∀ x, r = Some x → restriction_sound D x.
Proof using D_wf Hst HD.
  intros Hw HDn. unfold read_restriction. pose proof (first_object_ok g D D_wf st Hst HD node) as Hfirst.
  destruct (Hfirst OWL_OnProperty s Hw) as (s1 & r1 & -> & [L1 _] & H1); [by eexists|].
  destruct (Hfirst OWL_SomeValuesFrom s1 Hw) as (s2 & r2 & -> & [L2 _] & H2); [by eexists|].
  destruct (Hfirst OWL_AllValuesFrom s2 Hw) as (s3 & r3 & -> & [L3 _] & H3); [by eexists|].
  destruct (Hfirst OWL_HasValue s3 Hw) as (s4 & r4 & -> & [L4 _] & H4); [by eexists|].
  destruct (Hfirst OWL_HasSelf s4 Hw) as (s5 & r5 & -> & [L5 _] & _); [by eexists|].
  destruct (Hfirst OWL_MaxCardinality s5 Hw) as (s6 & r6 & -> & [L6 _] & H6); [by eexists|].
  destruct (Hfirst OWL_MaxQualifiedCardinality s6 Hw) as (s7 & r7 & -> & [L7 _] & H7); [by eexists|].
  destruct (Hfirst OWL_OnClass s7 Hw) as (s8 & r8 & -> & [L8 _] & H8); [by eexists|].
  eexists _, s8. split; [done|]. split; [by do 7 (etrans; [eassumption|])|].
  intros x. destruct r1 as [[u| | | |]|]; try done. intros [= <-].
  constructor; cbn [r_node onProperty hasValue someValuesFrom allValuesFrom onClass maxCard maxQualCard].
  - split; [done|]. by apply HD, H1.
  - intros v ->. by apply HD, H4.
  - intros v ->. by apply HD, H2.
  - intros v ->. by apply HD, H3.
  - intros v ->. by apply HD, H8.
  - intros n. by apply cardinality_ok.
  - intros n. by apply cardinality_ok.
Qed.

Lemma buildRestrictions_ok nodes : ∀ s, (∀ n, n ∈ nodes → D (MkTriple n RDF_Type (U OWL_Restriction))) →
  ∃ rs s', buildRestrictions g st nodes s = (rs, s') ∧ later s s' ∧ Forall (restriction_sound D) rs.
Proof using D_wf Hst HD.
  induction nodes as [|n nodes IH]; intros s Hn; cbn [buildRestrictions]; [by exists [], s|].
  pose proof (Hn n ltac:(by left)) as HDn. pose proof (D_wf _ HDn) as (Hw & _).
  destruct (read_restriction_ok n s Hw HDn) as (r & s1 & -> & L1 & Hr). destruct (IH s1) as (rs & s2 & -> & L2 & Hrs); [intros m Hm; apply Hn; by right|].
  eexists _, s2. split; [done|]. split; [by etrans|]. destruct r as [r|]; [|done]. constructor; [by apply Hr|done].
Qed.

Lemma buildAllDisjoint_ok c nodes : ∀ s, (∀ n, n ∈ nodes → D (MkTriple n RDF_Type (U c))) →
  ∃ gs s', buildAllDisjoint g st nodes s = (gs, s') ∧ later s s' ∧ ∀ us, us ∈ gs → disjoint_group D c us.
Proof using D_wf Hst HD.
  induction nodes as [|n nodes IH]; intros s Hn; cbn [buildAllDisjoint]; [exists [], s; split; [done|]; split; [done|]; by intros us ?%not_elem_of_nil|].
  set (fn := λ _ _ _, _). pose proof (Hn n ltac:(by left)) as HDn. pose proof (D_wf _ HDn) as (Wn & _). cbn in Wn.
  assert (Hone : ∃ s1 us, sp_triples g (Some n) (Some OWL_Members) None fn st s [] = (s1, us) ∧ later s s1 ∧ (us = [] ∨ disjoint_group D c us)).
  { destruct (halted s) eqn:Eh; [exists s, []; rewrite sp_triples_halted by done; split; [done|]; split; [done|by left]|].
    destruct (sp_triples_spec g (Some n) (Some OWL_Members) None fn st s [] Hst Eh) as [(l & s1 & Hl & _ & L1 & _ & ->)|(s1 & L1 & E1 & ->)].
    2:{ exists s1, []. split; [done|]. split; [done|by left]. }
    destruct l as [|t l]; cbn [fmap list_fmap triples_go]; [exists s1, []; split; [done|]; split; [done|by left]|].
    assert (Ht : t ∈ t :: l) by (by left). rewrite Hl, matching_elem in Ht by (by apply graph_of_keyed). destruct Ht as [Ht Hm].
    pose proof (has_wf t Ht) as Wt. apply node_matches in Hm as [Es Ep]; [|done|by eexists|done].
    unfold fn. destruct (uri_items_prefix (Object t) s1 ltac:(by destruct Wt as (_ & _ & _ & ?))) as (ms & s2 & -> & L2 & Hp).
    exists s2, (omap asURIRef ms). split; [done|]. split; [by etrans|]. right. exists n, (Object t), ms. split; [done|]. split; [|done].
    rewrite <- Es, <- Ep. apply HD. by destruct t. }
  destruct Hone as (s1 & us & -> & L1 & Hus). destruct (IH s1) as (rest & s2 & -> & L2 & Hrest); [intros m Hm; apply Hn; by right|].
  eexists _, s2. split; [done|]. split; [by etrans|]. destruct (2 <=? length us)%nat eqn:El; [|done].
  intros vs [->|Hv]%elem_of_cons; [|by apply Hrest]. destruct Hus as [->|]; done.
Qed.

Lemma buildNegPropAssertions_ok nodes : ∀ s, (∀ n, n ∈ nodes → D (MkTriple n RDF_Type (U OWL_NegativePropertyAssertion))) →
  ∃ npas s', buildNegPropAssertions g st nodes s = (npas, s') ∧ later s s' ∧ Forall (npa_sound D) npas.
Proof using D_wf Hst HD.
  induction nodes as [|n nodes IH]; intros s Hn; cbn [buildNegPropAssertions]; [by exists [], s|].
  pose proof (first_object_ok g D D_wf st Hst HD n) as Hfirst. pose proof (Hn n ltac:(by left)) as HDn. pose proof (D_wf _ HDn) as (Hw & _).
  destruct (Hfirst OWL_SourceIndividual s Hw) as (s1 & r1 & -> & [L1 _] & K1); [by eexists|].
  destruct (Hfirst OWL_AssertionProperty s1 Hw) as (s2 & r2 & -> & [L2 _] & K2); [by eexists|].
  destruct (Hfirst OWL_TargetIndividual s2 Hw) as (s3 & r3 & -> & [L3 _] & K3); [by eexists|].
  destruct (Hfirst OWL_TargetValue s3 Hw) as (s4 & r4 & -> & [L4 _] & K4); [by eexists|].
  destruct (IH s4) as (rest & s5 & -> & L5 & Hrest); [intros m Hm; apply Hn; by right|].
  eexists _, s5. split; [done|]. split; [by do 4 (etrans; [eassumption|])|].
  destruct r1 as [x|]; [|done]. cbn [mbind option_bind]. unfold asSubject at 1. destruct (isSubject x); [|done].
  destruct r2 as [y|]; [|done]. cbn [mbind option_bind]. destruct y as [q| | | |]; try done. cbn [asURIRef]. destruct (is_empty (uri_key q)); [done|]. constructor; [|done].
  exists n. cbn [npa_source npa_property npa_targetI npa_targetV]. split; [done|]. split; [by apply HD, K1|]. split; [by apply HD, K2|]. split.
  - intros t. destruct r3 as [z|]; [|done]. cbn [mbind option_bind]. unfold asSubject. destruct (isSubject z); [|done]. intros [= <-]. by apply HD, K3.
  - intros t ->. by apply HD, K4.
Qed.

(** ** The list-based indexes *)

Lemma index_chain_ok s : ∃ s' m, sp_triples g None (Some OWL_PropertyChainAxiom) None (index_chain g st) st s ∅ = (s', m) ∧
  step_to s s' (∀ k chain, chain ∈ entries m k →
    ∃ p l, uri_key p = k ∧ D (MkTriple (U p) OWL_PropertyChainAxiom l) ∧ rdf_list D l (U <$> chain) ∧ 2 ≤ length chain).
Proof using D_wf Hst HD HG G_D Hlists.
  apply (each_pred g D D_wf st Hst HD); [by eexists| |].
  { intros k chain. unfold entries. rewrite lookup_empty. by intros ?%not_elem_of_nil. }
  intros t s0 m Ht Hp. unfold index_chain. destruct (Subject t) as [u| | | |] eqn:Es; cbn [asURIRef];
    try (exists s0, m; split; [done|]; split; [reflexivity|done]).
  pose proof (has_wf t Ht) as (_ & _ & _ & Wo). assert (HDt : D (MkTriple (U u) OWL_PropertyChainAxiom (Object t))) by (rewrite <- Es, <- Hp; apply HD; by destruct t).
  destruct (proj1 (proj2 Hlists) _ _ HDt) as (ps & Hps). destruct (uri_items_written (Object t) ps s0 Hps Wo) as (items & s1 & -> & St1).
  eexists _, _. split; [done|]. eapply step_to_mono; [|exact St1]. intros -> Hm k chain. destruct (2 <=? length ps)%nat eqn:El; [|apply Hm].
  intros [Hc|[-> ->]]%entries_append; [by apply Hm|]. exists u, (Object t). split; [done|]. split; [done|]. split; [by eapply written_list|by apply Nat.leb_le].
Qed.

Lemma index_key_ok s : ∃ s' m, sp_triples g None (Some OWL_HasKey) None (index_key g st) st s ∅ = (s', m) ∧
  step_to s s' (∀ k keys, m !! k = Some keys → ∃ c l, TermKey c = k ∧ D (MkTriple c OWL_HasKey l) ∧ rdf_list D l (U <$> keys) ∧ keys ≠ []).
Proof using D_wf Hst HD HG G_D Hlists.
  apply (each_pred g D D_wf st Hst HD); [by eexists|intros k keys; by rewrite lookup_empty|].
  intros t s0 m Ht Hp. unfold index_key. pose proof (has_wf t Ht) as (_ & _ & _ & Wo).
  assert (HDt : D (MkTriple (Subject t) OWL_HasKey (Object t))) by (rewrite <- Hp; apply HD; by destruct t).
  destruct (proj2 (proj2 Hlists) _ _ HDt) as (ps & Hps). destruct (uri_items_written (Object t) ps s0 Hps Wo) as (items & s1 & -> & St1).
  eexists _, _. split; [done|]. eapply step_to_mono; [|exact St1]. intros -> Hm k keys. destruct (0 <? length ps)%nat eqn:El; [|apply Hm].
  intros [[<- <-]|[_ Hk]]%lookup_insert_Some; [|by apply Hm]. exists (Subject t), (Object t). split; [done|]. split; [done|].
  split; [by eapply written_list|]. by destruct ps.
Qed.

Lemma index_list_later t s (m : gmap string (list Term)) : has st t → later s (index_list g st t s m).1.2.
Proof using D_wf Hst HD.
  intros Ht. unfold index_list. pose proof (has_wf t Ht) as (_ & _ & _ & Wo).
  destruct (list_items_prefix g D D_wf st Hst HD (Object t) s Wo) as (items & s' & -> & L & _). exact L.
Qed.

Lemma index_int_ok s : ∃ s' m, sp_triples g None (Some OWL_IntersectionOf) None (index_list g st) st s ∅ = (s', m) ∧
  step_to s s' (∀ k ms, m !! k = Some ms → ∃ c l, TermKey c = k ∧ D (MkTriple c OWL_IntersectionOf l) ∧ rdf_list D l ms ∧ ms ≠ []).
Proof using D_wf Hst HD HG G_D Hlists.
  apply (each_pred g D D_wf st Hst HD); [by eexists|intros k keys; by rewrite lookup_empty|].
  intros t s0 m Ht Hp. unfold index_list. pose proof (has_wf t Ht) as (_ & _ & _ & Wo).
  assert (HDt : D (MkTriple (Subject t) OWL_IntersectionOf (Object t))) by (rewrite <- Hp; apply HD; by destruct t).
  destruct (proj1 Hlists _ _ HDt) as (ms & Hms). destruct (list_items_written g G D D_wf G_D st Hst HD HG (Object t) ms s0 Hms Wo) as (items & s1 & -> & St1).
  eexists _, _. split; [done|]. eapply step_to_mono; [|exact St1]. intros -> Hm k keys. destruct (0 <? length ms)%nat eqn:El; [|apply Hm].
  intros [[<- <-]|[_ Hk]]%lookup_insert_Some; [|by apply Hm]. exists (Subject t), (Object t). split; [done|]. split; [done|].
  split; [by eapply written_list|]. by destruct ms.
Qed.

Lemma index_members_ok p s : uri_ok p → ∃ s' m, sp_triples g None (Some p) None (index_list g st) st s ∅ = (s', m) ∧
  step_to s s' (∀ k ms, m !! k = Some ms → ∃ c l, TermKey c = k ∧ D (MkTriple c p l) ∧ ∀ x, x ∈ ms → list_member D l x).
Proof using D_wf Hst HD.
  intros Hp. apply (each_pred g D D_wf st Hst HD); [done|intros k keys; by rewrite lookup_empty|].
  intros t s0 m Ht Hpt. unfold index_list. pose proof (has_wf t Ht) as (_ & _ & _ & Wo).
  assert (HDt : D (MkTriple (Subject t) p (Object t))) by (rewrite <- Hpt; apply HD; by destruct t).
  destruct (list_items_prefix g D D_wf st Hst HD (Object t) s0 Wo) as (items & s1 & -> & L & Hm).
  eexists _, _. split; [done|]. split; [done|]. intros _ Hinv k ms. destruct (0 <? length items)%nat; [|apply Hinv].
  intros [[<- <-]|[_ Hk]]%lookup_insert_Some; [|by apply Hinv]. exists (Subject t), (Object t). split; [done|]. split; [done|]. intros x. by apply list_prefix_member.
Qed.

(** ** All of them *)

Lemma owl_build_ok s : ∃ s' e, owl_buildSchemaIndexes g st s = (s', e) ∧ step_to s s' (owl_sound D e ∧ owl_complete (λ t, has st t) e).
Proof using D_wf Hst HD HG G_D Hlists.
  unfold owl_buildSchemaIndexes. pose proof (λ A, @scan_pred St store_St laws_St g D D_wf st Hst HD A) as Hscan.
  destruct (Hscan _ RDF_Type scan_type s noTypes) as (s1 & l1 & -> & F1 & [L1 C1]); [by eexists|].
  destruct (Hscan _ OWL_InverseOf link_uris s1 ∅) as (s2 & l2 & -> & F2 & [L2 C2]); [by eexists|].
  destruct (Hscan _ OWL_EquivalentProperty link_uris s2 ∅) as (s3 & l3 & -> & F3 & [L3 C3]); [by eexists|].
  destruct (Hscan _ OWL_EquivalentClass link_classes s3 ∅) as (s4 & l4 & -> & F4 & [L4 C4]); [by eexists|].
  destruct (Hscan _ OWL_PropertyDisjointWith link_uris s4 ∅) as (s5 & l5 & -> & F5 & [L5 C5]); [by eexists|].
  destruct (index_chain_ok s5) as (s6 & chains & -> & [L6 C6]). destruct (index_key_ok s6) as (s7 & keys & -> & [L7 C7]).
  destruct (Hscan _ OWL_SameAs (λ t u, uf_union u (Subject t) (Object t)) s7 newUnionFind) as (s8 & l8 & -> & F8 & [L8 C8]); [by eexists|].
  fold (uf_of l8). set (ty := foldl _ noTypes l1).
  destruct (buildRestrictions_ok (range (restrictionNodes ty)).*2 s8) as (rs & s9 & -> & L9 & C9).
  { intros n ([k n'] & -> & Hk)%list_elem_of_fmap. rewrite range_perm in Hk. apply elem_of_map_to_list in Hk. cbn [snd].
    by apply (scan_nodes D (λ t, has st t) D_wf HD l1 RDF_Type F1 noTypes eq_refl eq_refl k). }
  destruct (index_int_ok s9) as (s10 & int & -> & [L10 C10]).
  destruct (index_members_ok OWL_UnionOf s10) as (s11 & uni & -> & [L11 C11]); [by eexists|].
  destruct (Hscan _ OWL_ComplementOf (λ t (m : gmap string Term), <[TermKey (Subject t) := Object t]> m) s11 ∅) as (s12 & l12 & -> & F12 & [L12 _]); [by eexists|].
  destruct (index_members_ok OWL_OneOf s12) as (s13 & one & -> & [L13 C13]); [by eexists|].
  pose proof (λ field c, scan_listed D (λ t, has st t) D_wf HD l1 RDF_Type F1 field c noTypes) as HL.
  destruct (buildAllDisjoint_ok OWL_AllDisjointProperties (allDisjPropNodes ty) s13) as (adp & s14 & -> & L14 & C14); [by apply HL; [by eexists|done|done|apply scan_adp]|].
  destruct (buildAllDisjoint_ok OWL_AllDisjointClasses (allDisjClassNodes ty) s14) as (adc & s15 & -> & L15 & C15); [by apply HL; [by eexists|done|done|apply scan_adc]|].
  destruct (buildNegPropAssertions_ok (negPANodes ty) s15) as (npa & s16 & -> & L16 & C16); [by apply HL; [by eexists|done|done|apply scan_npa]|].
  destruct (Hscan _ OWL_DifferentFrom link_different s16 ∅) as (s17 & l17 & -> & F17 & [L17 C17]); [by eexists|].
  destruct (Hscan _ OWL_DisjointWith link_uris s17 ∅) as (s18 & l18 & -> & F18 & [L18 C18]); [by eexists|].
  eexists s18, _. split; [reflexivity|]. split; [by do 17 (etrans; [eassumption|])|].
  intros Hf. assert (R : ∀ a b, later a b → halted b = false → halted a = false) by apply later_running.
  pose proof (R _ _ L18 Hf) as R17. pose proof (R _ _ L17 R17) as R16. pose proof (R _ _ L16 R16) as R15. pose proof (R _ _ L15 R15) as R14.
  pose proof (R _ _ L14 R14) as R13. pose proof (R _ _ L13 R13) as R12. pose proof (R _ _ L12 R12) as R11. pose proof (R _ _ L11 R11) as R10.
  pose proof (R _ _ L10 R10) as R9. pose proof (R _ _ L9 R9) as R8. pose proof (R _ _ L8 R8) as R7. pose proof (R _ _ L7 R7) as R6.
  pose proof (R _ _ L6 R6) as R5. pose proof (R _ _ L5 R5) as R4. pose proof (R _ _ L4 R4) as R3. pose proof (R _ _ L3 R3) as R2. pose proof (R _ _ L2 R2) as R1.
  pose proof (λ field c, scan_typed D (λ t, has st t) D_wf HD l1 RDF_Type F1 (C1 R1) field c noTypes) as HT.
  destruct (HT ty_symmetric OWL_SymmetricProperty) as [A1 B1]; [by eexists|done|done|apply scan_symmetric|].
  destruct (HT ty_transitive OWL_TransitiveProperty) as [A2 B2]; [by eexists|done|done|apply scan_transitive|].
  destruct (HT ty_functional OWL_FunctionalProperty) as [A3 B3]; [by eexists|done|done|apply scan_functional|].
  destruct (HT ty_invFunc OWL_InverseFunctionalProperty) as [A4 B4]; [by eexists|done|done|apply scan_invFunc|].
  destruct (HT ty_irreflexive OWL_IrreflexiveProperty) as [A8 B8]; [by eexists|done|done|apply scan_irreflexive|].
  destruct (HT ty_asymmetric OWL_AsymmetricProperty) as [A9 B9]; [by eexists|done|done|apply scan_asymmetric|].
  destruct (scan_linked D (λ t, has st t) D_wf HD l5 OWL_PropertyDisjointWith F5 (C5 R5)) as [A10 B10].
  destruct (scan_linked D (λ t, has st t) D_wf HD l18 OWL_DisjointWith F18 (C18 Hf)) as [A11 B11].
  pose proof (scan_complements D (λ t, has st t) HD l12 OWL_ComplementOf F12 eq_refl) as A12.
  pose proof (scan_different D (λ t, has st t) HD l17 OWL_DifferentFrom F17 eq_refl) as A13.
  pose proof (λ x y, scan_different_all (λ t, has st t) l17 OWL_DifferentFrom (C17 R17) x y eq_refl) as A14.
  destruct (scan_linked D (λ t, has st t) D_wf HD l2 OWL_InverseOf F2 (C2 R2)) as [A5 B5].
  destruct (scan_linked D (λ t, has st t) D_wf HD l3 OWL_EquivalentProperty F3 (C3 R3)) as [A6 B6].
  destruct (scan_classes D (λ t, has st t) D_wf HD l4 OWL_EquivalentClass F4 (C4 R4) eq_refl) as [A7 B7].
  assert (Hl8 : ∀ t, t ∈ l8 → D t ∧ Predicate t = OWL_SameAs) by (intros t Ht; destruct (F8 t Ht); by split; [apply HD|]).
  split.
  - constructor; cbn; auto.
    + rewrite uf_of_run. by apply uf_run_ok.
    + intros k u Hu. by apply (uf_term_wf D D_wf l8 Hl8) in Hu as [? _].
    + apply (uf_sound D D_wf l8 Hl8).
  - constructor; cbn; auto. intros x y Hxy Hne. destruct (uf_complete D D_wf l8 Hl8 (λ t, has st t) x y) as [Hs Hr]; [intros a c Hac; by apply (C8 R8)|done|].
    destruct (same_as_wf (λ t, has st t) (λ t Ht, D_wf t (HD t Ht)) x y Hxy). split; [done|by apply Hr].
Qed.
End build.
