(* ===== verification/OwlPasses.v ===== *)
(** * OWL 2 RL: what the rules emit

    What the indexes of a pass hold, and that everything the rules emit from triples
    that follow from the graph follows too. *)

From S2P Require Import Prelude GoStrings Strconv Term TermKey TripleIndex Store MemoryStore Graph Collection Reasoning Rdfs RdfsCorrect UnionFind Owl OwlRules OwlSpec OwlIndex OwlBuild.
From stdpp Require Import relations options.

Lemma elem_filter_bool {A} (f : A → bool) (l : list A) x : x ∈ List.filter f l ↔ x ∈ l ∧ f x = true.
Proof. by rewrite list_elem_of_In, List.filter_In, <- list_elem_of_In. Qed.

Lemma is_key_iff k t : is_key k t = true ↔ TermKey t = k.
Proof. apply String.eqb_eq. Qed.

(** ** Grouping by two keys *)

Section group.
Context (cond : Triple → bool) (kf : Triple → string * string) (vf : Triple → Term).
Definition group2 (m : gmap (string * string) (list Term)) (t : Triple) : gmap (string * string) (list Term) :=
  if cond t then append_to2 m (kf t) (vf t) else m.

Lemma group2_entries l : ∀ m k, entries2 (foldl group2 m l) k = entries2 m k ++ (vf <$> List.filter (λ t, cond t && bool_decide (kf t = k)) l).
Proof.
  induction l as [|t l IH]; intros m k; cbn [foldl List.filter]; [by rewrite app_nil_r|]. rewrite IH. unfold group2. destruct (cond t); cbn [andb]; [|done].
  unfold append_to2. unfold entries2 at 1. rewrite lookup_insert. case_decide as E.
  - rewrite bool_decide_eq_true_2 by done. cbn. by rewrite E, <- app_assoc.
  - by rewrite bool_decide_eq_false_2.
Qed.

Lemma group2_elem l k x : x ∈ entries2 (foldl group2 ∅ l) k ↔ ∃ t, t ∈ l ∧ cond t = true ∧ kf t = k ∧ vf t = x.
Proof.
  rewrite group2_entries. unfold entries2 at 1. rewrite lookup_empty. cbn. rewrite list_elem_of_fmap. setoid_rewrite elem_filter_bool.
  setoid_rewrite andb_true_iff. setoid_rewrite bool_decide_eq_true. naive_solver.
Qed.

Lemma group2_NoDup l k : NoDup l → (∀ t u, t ∈ l → u ∈ l → kf t = kf u → TermKey (vf t) = TermKey (vf u) → t = u) →
  NoDup (TermKey <$> entries2 (foldl group2 ∅ l) k).
Proof.
  intros Hnd Hinj. rewrite group2_entries. unfold entries2 at 1. rewrite lookup_empty. cbn. rewrite <- list_fmap_compose.
  apply NoDup_fmap_2_strong.
  - intros t u Ht Hu Hk. apply elem_filter_bool in Ht as [Ht [_ Kt]%andb_true_iff], Hu as [Hu [_ Ku]%andb_true_iff].
    apply bool_decide_eq_true in Kt, Ku. apply Hinj; [done|done|congruence|done].
  - clear Hinj. induction Hnd as [|t l Ht Hnd IH]; [constructor|]. cbn [List.filter]. destruct (_ && _); [|done]. constructor; [|done].
    by intros [Hin _]%elem_filter_bool.
Qed.

(** What a range over the groups visits. *)
Lemma group2_range `{GoRange} l (k : string * string) objs : (k, objs) ∈ range2 (foldl group2 ∅ l) → objs = entries2 (foldl group2 ∅ l) k.
Proof. rewrite range2_perm, elem_of_map_to_list. unfold entries2. by intros ->. Qed.

Lemma group2_range_elem `{GoRange} l (k : string * string) x : x ∈ entries2 (foldl group2 ∅ l) k → (k, entries2 (foldl group2 ∅ l) k) ∈ range2 (foldl group2 ∅ l).
Proof.
  intros Hx. rewrite range2_perm, elem_of_map_to_list. unfold entries2 in *. destruct (foldl group2 ∅ l !! k); [done|]. by apply not_elem_of_nil in Hx.
Qed.
End group.

(** ** Pairs *)

Lemma same_both_elem x y r : r ∈ same_both x y ↔ isSubject x = true ∧ isSubject y = true ∧ (r = MkTriple x OWL_SameAs y ∨ r = MkTriple y OWL_SameAs x).
Proof.
  unfold same_both. destruct (isSubject x), (isSubject y); cbn [andb]; rewrite ?elem_of_cons, elem_of_nil; naive_solver.
Qed.

Lemma star_pairs_elem objs r : r ∈ star_pairs objs → ∃ x y, x ∈ objs ∧ y ∈ objs ∧ isSubject x = true ∧ isSubject y = true ∧
  r = MkTriple x OWL_SameAs y ∧ (NoDup (TermKey <$> objs) → TermKey x ≠ TermKey y).
Proof.
  destruct objs as [|x rest]; [by intros ?%not_elem_of_nil|]. cbn. intros (y & Hr & Hy)%list_elem_of_bind. apply same_both_elem in Hr as (Hx & Hy' & Hr).
  assert (Hne : NoDup (TermKey x :: (TermKey <$> rest)) → TermKey x ≠ TermKey y).
  { intros [Hn _]%NoDup_cons E. apply Hn. rewrite E. by apply list_elem_of_fmap_2. }
  destruct Hr as [-> | ->]; [exists x, y|exists y, x]; repeat split; try done; try (by left); try (by right); intros Hnd; apply Hne in Hnd; congruence.
Qed.

Lemma subject_pairs_elem objs r : r ∈ subject_pairs objs → ∃ x y, x ∈ objs ∧ y ∈ objs ∧ r = MkTriple x OWL_SameAs y ∧ (NoDup (TermKey <$> objs) → TermKey x ≠ TermKey y).
Proof.
  destruct objs as [|x rest]; [by intros ?%not_elem_of_nil|]. cbn. intros (y & Hr & Hy)%list_elem_of_bind. rewrite !elem_of_cons, elem_of_nil in Hr.
  assert (Hne : NoDup (TermKey x :: (TermKey <$> rest)) → TermKey x ≠ TermKey y).
  { intros [Hn _]%NoDup_cons E. apply Hn. rewrite E. by apply list_elem_of_fmap_2. }
  destruct Hr as [-> |[-> |[]]]; [exists x, y|exists y, x]; repeat split; try done; try (by left); try (by right); intros Hnd; apply Hne in Hnd; congruence.
Qed.

Lemma class_pairs_elem ms r : NoDup (TermKey <$> ms) → r ∈ class_pairs ms ↔
  ∃ x y, x ∈ ms ∧ y ∈ ms ∧ TermKey x ≠ TermKey y ∧ isSubject x = true ∧ isSubject y = true ∧ r = MkTriple x OWL_SameAs y.
Proof.
  induction ms as [|x ms IH]; intros Hnd; cbn [class_pairs].
  { rewrite elem_of_nil. split; [done|]. by intros (x & y & ?%not_elem_of_nil & _). }
  rewrite fmap_cons in Hnd. apply NoDup_cons in Hnd as [Hn Hnd]. rewrite elem_of_app, (IH Hnd), list_elem_of_bind. setoid_rewrite same_both_elem.
  assert (Hne : ∀ y, y ∈ ms → TermKey x ≠ TermKey y) by (intros y Hy E; apply Hn; rewrite E; by apply list_elem_of_fmap_2). split.
  - intros [(y & (Sx & Sy & [-> | ->]) & Hy)|(a & b & Ha & Hb & Hr)].
    + exists x, y. repeat split; [by left|by right|by apply Hne|done..].
    + exists y, x. repeat split; [by right|by left|intros E; by apply (Hne y Hy)|done..].
    + exists a, b. repeat split; [by right|by right|naive_solver..].
  - intros (a & b & Ha & Hb & Hab & Sa & Sb & ->). apply elem_of_cons in Ha as [Ha|Ha], Hb as [Hb|Hb]; subst.
    + done.
    + left. exists b. repeat split; auto.
    + left. exists a. repeat split; auto.
    + right. exists a, b. repeat split; auto.
Qed.

(** ** The indexes of the triples of a pass *)

Lemma has_type_insert (m : gmap string unit) k k' : has_type (<[k := tt]> m) k' = bool_decide (k = k') || has_type m k'.
Proof.
  unfold has_type. rewrite lookup_insert. case_decide as E; [by rewrite bool_decide_eq_true_2|]. by rewrite bool_decide_eq_false_2.
Qed.

Definition types_of (m : gmap string (gmap string unit)) (sk : string) : gmap string unit := default ∅ (m !! sk).

Lemma exists_cons {A} (Q : A → Prop) t (l : list A) : (∃ u, u ∈ t :: l ∧ Q u) ↔ Q t ∨ ∃ u, u ∈ l ∧ Q u.
Proof.
  split.
  - intros (u & [->|Hu]%elem_of_cons & HQ); [by left|right; by exists u].
  - intros [HQ|(u & Hu & HQ)]; [exists t; split; [by left|done]|exists u; split; [by right|done]].
Qed.

Lemma index_type_elem l sk ck : has_type (types_of (foldl index_type ∅ l) sk) ck = true ↔
  ∃ t, t ∈ l ∧ uri_key (Predicate t) = uri_key RDF_Type ∧ TermKey (Subject t) = sk ∧ TermKey (Object t) = ck.
Proof.
  unfold index_type. generalize (uri_key RDF_Type). intros K. set (f := λ m t, _).
  set (Q := λ t, uri_key (Predicate t) = K ∧ TermKey (Subject t) = sk ∧ TermKey (Object t) = ck).
  assert (Hstep : ∀ m t, has_type (types_of (f m t) sk) ck = true ↔ has_type (types_of m sk) ck = true ∨ Q t).
  { intros m t. unfold f, Q. destruct (String.eqb_spec (uri_key (Predicate t)) K) as [E|E]; [|tauto].
    unfold types_of at 1. rewrite lookup_insert. case_decide as Es; [|fold (types_of m sk); tauto]. subst sk. cbn [from_option id].
    fold (types_of m (TermKey (Subject t))). rewrite has_type_insert, orb_true_iff, bool_decide_eq_true. tauto. }
  assert (Hgo : ∀ m, has_type (types_of (foldl f m l) sk) ck = true ↔ has_type (types_of m sk) ck = true ∨ ∃ t, t ∈ l ∧ Q t).
  { induction l as [|t l IH]; intros m; cbn [foldl].
    - split; [by left|]. intros [|(t & ?%not_elem_of_nil & _)]; done.
    - rewrite IH, Hstep, exists_cons. tauto. }
  rewrite Hgo. unfold types_of at 1. rewrite lookup_empty. unfold has_type. cbn. rewrite lookup_empty. split; [by intros [|]|by right].
Qed.

Lemma types_range `{GoRange} (m : gmap string (gmap string unit)) kt : kt ∈ range m → kt.2 = types_of m kt.1.
Proof. destruct kt as [k t]. rewrite range_perm, elem_of_map_to_list. unfold types_of. cbn. by intros ->. Qed.

Lemma types_range_elem `{GoRange} (m : gmap string (gmap string unit)) sk ck : has_type (types_of m sk) ck = true → (sk, types_of m sk) ∈ range m.
Proof.
  unfold types_of. intros Hk. rewrite range_perm, elem_of_map_to_list. destruct (m !! sk) as [t|] eqn:E; [done|].
  cbn in Hk. unfold has_type in Hk. by rewrite lookup_empty in Hk.
Qed.

Lemma index_object_group l : foldl index_object ∅ l = foldl (group2 (λ _, true) (λ t, (TermKey (Subject t), uri_key (Predicate t))) Object) ∅ l.
Proof. reflexivity. Qed.
Lemma index_subject_group l : foldl index_subject ∅ l = foldl (group2 (λ _, true) (λ t, (uri_key (Predicate t), TermKey (Object t))) Subject) ∅ l.
Proof. reflexivity. Qed.
Lemma functional_group e l : foldl (group_functional e) ∅ l =
  foldl (group2 (λ t, bool_decide (uri_key (Predicate t) ∈ functionalProps e)) (λ t, (uri_key (Predicate t), TermKey (Subject t))) Object) ∅ l.
Proof. reflexivity. Qed.
Lemma invFunc_group e l : foldl (group_invFunc e) ∅ l =
  foldl (group2 (λ t, bool_decide (uri_key (Predicate t) ∈ invFuncProps e)) (λ t, (uri_key (Predicate t), TermKey (Object t))) Subject) ∅ l.
Proof. reflexivity. Qed.

Lemma find_subject_Some sk l t : find_subject sk l = Some t → t ∈ l ∧ TermKey (Subject t) = sk.
Proof. intros Hf. apply List.find_some in Hf as [Hin Hk]. split; [by apply list_elem_of_In|by apply is_key_iff]. Qed.
Lemma find_with_Some p sk l t : find_with p sk l = Some t → t ∈ l ∧ uri_key (Predicate t) = uri_key p ∧ TermKey (Subject t) = sk.
Proof.
  intros Hf. apply List.find_some in Hf as [Hin [Hp Hk]%andb_true_iff]. split; [by apply list_elem_of_In|].
  split; [by apply String.eqb_eq|by apply is_key_iff].
Qed.

(** ** The edges of the transitive properties *)

Lemma edges_ok e l : 
  (∀ k pe, foldl (add_edge e) ∅ l !! k = Some pe → k ∈ transitiveProps e ∧ (∃ t, t ∈ l ∧ Predicate t = pe_pred pe ∧ uri_key (Predicate t) = k) ∧
     ∀ sk o, o ∈ entries (pe_fwd pe) sk ↔ ∃ t, t ∈ l ∧ uri_key (Predicate t) = k ∧ TermKey (Subject t) = sk ∧ Object t = o) ∧
  (∀ t, t ∈ l → uri_key (Predicate t) ∈ transitiveProps e → is_Some (foldl (add_edge e) ∅ l !! uri_key (Predicate t))).
Proof.
  induction l as [|t l [IH1 IH2]] using rev_ind; cbn [foldl].
  { split; [intros k pe; by rewrite lookup_empty|by intros t ?%not_elem_of_nil]. }
  rewrite foldl_app. cbn [foldl]. set (m := foldl (add_edge e) ∅ l) in *. unfold add_edge. set (pk := uri_key (Predicate t)).
  assert (Hmore : ∀ Q : Triple → Prop, (∃ u, u ∈ l ++ [t] ∧ Q u) ↔ (∃ u, u ∈ l ∧ Q u) ∨ Q t).
  { intros Q. setoid_rewrite elem_of_app. setoid_rewrite list_elem_of_singleton. split.
    - intros (u & [Hu| ->] & HQ); [left; by exists u|by right].
    - intros [(u & Hu & HQ)|HQ]; [exists u; split; [by left|done]|exists t; split; [by right|done]]. }
  case_bool_decide as Et.
  - split.
    + intros k pe. rewrite lookup_insert. case_decide as Ek.
      * intros [= <-]. subst k. cbn [pe_pred pe_fwd]. split; [done|]. split.
        -- apply Hmore. destruct (m !! pk) as [pe|] eqn:Em; cbn; [|by right]. left. by apply IH1.
        -- intros sk o. rewrite entries_append, Hmore. destruct (m !! pk) as [pe|] eqn:Em; cbn [from_option id].
           ++ rewrite (proj2 (proj2 (IH1 _ _ Em))). split; (intros [?|(? & ?)]; [by left|right]); [by split|naive_solver].
           ++ cbn [pe_fwd]. assert (Hno : ¬ ∃ u, u ∈ l ∧ uri_key (Predicate u) = pk ∧ TermKey (Subject u) = sk ∧ Object u = o).
              { intros (u & Hu & Hk & _). destruct (IH2 u Hu) as [pe Hpe]; rewrite ?Hk in *; [done|congruence]. }
              unfold entries. rewrite lookup_empty. cbn. rewrite elem_of_nil. split; (intros [?|(? & ?)]; [done|right]); [by split|naive_solver].
      * intros Hk. destruct (IH1 _ _ Hk) as (A & B & C). split; [done|]. split; [apply Hmore; by left|]. intros sk o. rewrite C, Hmore.
        split; [by left|]. intros [|[E _]]; [done|]. by destruct Ek.
    + intros u [Hu| ->%list_elem_of_singleton]%elem_of_app Hk; [|rewrite lookup_insert_eq; by eexists].
      rewrite lookup_insert_is_Some'. right. by apply IH2.
  - split.
    + intros k pe Hk. destruct (IH1 _ _ Hk) as (A & B & C). split; [done|]. split; [apply Hmore; by left|]. intros sk o. rewrite C, Hmore.
      split; [by left|]. intros [|[E _]]; [done|]. subst k. done.
    + intros u [Hu| ->%list_elem_of_singleton]%elem_of_app Hk; [by apply IH2|done].
Qed.

Section walk.
Context {T : Type} (key : T → string) (m : gmap string (list T)).

(** The walk brings in what the queue reaches, and all of it is visited. *)
Lemma close_loop_walk k0 fuel : ∀ visited supers queue,
  length queue + pending m visited < fuel → Forall (reachable key m k0) queue →
  (∀ k, k ∈ visited → ∀ c, c ∈ entries m k → key c ∈ visited ∨ c ∈ queue) →
  ∃ more, close_loop key fuel m visited supers queue = supers ++ more ∧ Forall (reachable key m k0) more ∧
    let V k := k ∈ visited ∨ k ∈ key <$> more in
    (∀ c, c ∈ queue → V (key c)) ∧ ∀ k, V k → ∀ c, c ∈ entries m k → V (key c).
Proof.
  induction fuel as [|fuel IH]; intros visited supers queue Hf Hq Hv; [lia|]. destruct queue as [|cur queue]; cbn [close_loop].
  - exists []. rewrite app_nil_r. split; [done|]. split; [constructor|]. cbn. split; [by intros c ?%not_elem_of_nil|].
    intros k [Hk|Hk]; [|by apply not_elem_of_nil in Hk]. intros c Hc. destruct (Hv k Hk c Hc) as [|Hn]; [by left|]. by apply not_elem_of_nil in Hn.
  - apply Forall_cons in Hq as [Hcur Hq]. case_bool_decide as Ev.
    + destruct (IH visited supers queue) as (more & E & R & V1 & V2); [cbn in Hf; lia|done| |].
      { intros k Hk c Hc. destruct (Hv k Hk c Hc) as [|[->|]%elem_of_cons]; auto. }
      exists more. split; [done|]. split; [done|]. cbn zeta. split; [|done]. intros c [->|Hc]%elem_of_cons; [by left|by apply V1].
    + destruct (IH ({[key cur]} ∪ visited) (supers ++ [cur]) (queue ++ entries m (key cur))) as (more & E & R & V1 & V2).
      * rewrite length_app. rewrite (pending_visit m (key cur)) in Hf by done. cbn in Hf. lia.
      * apply Forall_app. split; [done|]. apply Forall_forall. intros x Hx. destruct Hcur as (k' & Hk' & Hin).
        exists (key cur). split; [|done]. eapply rtc_r; [exact Hk'|]. by exists cur.
      * intros k [Hk|Hk]%elem_of_union c Hc.
        -- apply elem_of_singleton in Hk as ->. right. set_solver.
        -- destruct (Hv k Hk c Hc) as [|[->|]%elem_of_cons]; set_solver.
      * exists (cur :: more). split; [by rewrite E, <- app_assoc|]. split; [by constructor|]. cbn zeta in *.
        assert (HV : ∀ k, (k ∈ {[key cur]} ∪ visited ∨ k ∈ key <$> more) ↔ (k ∈ visited ∨ k ∈ key <$> cur :: more)).
        { intros k. rewrite fmap_cons, elem_of_cons, elem_of_union, elem_of_singleton. tauto. }
        split.
        -- intros c Hc. apply HV. apply elem_of_cons in Hc as [->|Hc]; [left; set_solver|]. apply V1. apply elem_of_app. by left.
        -- intros k Hk c Hc. apply HV. apply HV in Hk. by eapply V2.
Qed.
End walk.

Lemma walk_edges_ok fwd o : 
  Forall (reachable TermKey fwd (TermKey o)) (walk_edges fwd o) ∧
  (∀ c, reachable TermKey fwd (TermKey o) c → TermKey c = TermKey o ∨ TermKey c ∈ TermKey <$> walk_edges fwd o).
Proof.
  unfold walk_edges. set (nexts := entries fwd (TermKey o)).
  destruct (close_loop_walk TermKey fwd (TermKey o) (close_fuel fwd nexts) {[TermKey o]} [] nexts) as (more & -> & R & V1 & V2).
  - unfold close_fuel, pending. assert (Hle : length (munion (λ l : list Term, l) (filter (λ kl : string * list Term, kl.1 ∉ ({[TermKey o]} : gset string)) fwd)) ≤ length (munion (λ l : list Term, l) fwd)); [|lia].
    pose proof (pending_visit fwd (TermKey o) ∅ (not_elem_of_empty _)) as Hp. unfold pending in Hp.
    rewrite union_empty_r_L in Hp. rewrite (map_filter_id (λ kl : string * list Term, kl.1 ∉ (∅ : gset string))) in Hp; [lia|]. intros. apply not_elem_of_empty.
  - apply Forall_forall. intros c Hc. exists (TermKey o). split; [reflexivity|done].
  - intros k ->%elem_of_singleton c Hc. by right.
  - rewrite app_nil_l. split; [done|]. intros c (k' & Hk' & Hc). cbn zeta in V2.
    assert (Hk : k' ∈ ({[TermKey o]} : gset string) ∨ k' ∈ TermKey <$> more).
    { clear Hc. revert Hk'. apply (rtc_ind_r (R := above_of TermKey fwd) (λ k, k ∈ ({[TermKey o]} : gset string) ∨ k ∈ TermKey <$> more)); [left; set_solver|].
      intros k1 k2 _ (x & Hx & <-) IH. by eapply V2. }
    destruct (V2 k' Hk c Hc) as [Hin|Hin]; [left; set_solver|by right].
Qed.

(** ** Soundness *)

Section pass.
Context `{GoRange} (D : Triple → Prop) (D_wf : ∀ t, D t → triple_wf t).
Context (b : bool) (D_closed : owl_closed b D).
Context (l : list Triple) (HD : ∀ t, t ∈ l → D t) (Hnd : NoDup l).
Context (e : owlIndexes) (He : owl_sound D e).

Let EQ : eq_closed D := proj1 (proj2 (proj1 D_closed)).
Let PR : property_closed D := proj2 (proj2 (proj1 D_closed)).
Let RE : restriction_closed D := proj1 (proj2 D_closed).
Let LI : list_closed D := proj2 (proj2 D_closed).

(** Keys stand for terms. *)
Lemma subj_eq t t' : D t → D t' → TermKey (Subject t) = TermKey (Subject t') → Subject t = Subject t'.
Proof using D_wf. intros H1 H2. apply D_wf in H1 as (? & _), H2 as (? & _). by apply TermKey_inj. Qed.
Lemma subj_obj_eq t t' : D t → D t' → TermKey (Subject t) = TermKey (Object t') → Subject t = Object t'.
Proof using D_wf. intros H1 H2. apply D_wf in H1 as (? & _), H2 as (_ & _ & _ & ?). by apply TermKey_inj. Qed.
Lemma obj_eq t t' : D t → D t' → TermKey (Object t) = TermKey (Object t') → Object t = Object t'.
Proof using D_wf. intros H1 H2. apply D_wf in H1 as (_ & _ & _ & ?), H2 as (_ & _ & _ & ?). by apply TermKey_inj. Qed.
Lemma pred_eq t p : D t → uri_ok p → uri_key (Predicate t) = uri_key p → Predicate t = p.
Proof using D_wf. intros H1 Hp. apply D_wf in H1 as (_ & _ & ? & _). by apply uri_key_inj. Qed.
Lemma subj_uri_eq t p : D t → uri_ok p → TermKey (Subject t) = uri_key p → Subject t = U p.
Proof using D_wf. intros H1 Hp Hk. apply D_wf in H1 as (? & _). by apply TermKey_inj. Qed.
Lemma obj_uri_eq t p : D t → uri_ok p → TermKey (Object t) = uri_key p → Object t = U p.
Proof using D_wf. intros H1 Hp Hk. apply D_wf in H1 as (_ & _ & _ & ?). by apply TermKey_inj. Qed.
Lemma D_triple t s p o : D t → Subject t = s → Predicate t = p → Object t = o → D (MkTriple s p o).
Proof. intros Ht <- <- <-. by destruct t. Qed.
Lemma pred_ok t : D t → uri_ok (Predicate t).
Proof using D_wf. intros Ht. by apply D_wf in Ht as (_ & _ & ? & _). Qed.

(** The node a typed set names is the property of a triple. *)
Lemma typed_pred c s t : typed_set D c s → D t → uri_key (Predicate t) ∈ s → D (MkTriple (U (Predicate t)) RDF_Type (U c)).
Proof using D_wf.
  intros Hs Ht Hk. destruct (Hs _ Hk) as (x & Kx & Hx). pose proof (subj_uri_eq _ (Predicate t) Hx (pred_ok t Ht) Kx) as E. cbn in E. by rewrite <- E.
Qed.

Lemma linked_pred p m t q : uri_ok p → linked D p m → D t → q ∈ entries m (uri_key (Predicate t)) →
  D (MkTriple (U (Predicate t)) p (U q)) ∨ D (MkTriple (U q) p (U (Predicate t))).
Proof using D_wf.
  intros Hp Hm Ht Hq. destruct (Hm _ _ Hq) as (x & Kx & [Hx|Hx]).
  - left. pose proof (subj_uri_eq _ (Predicate t) Hx (pred_ok t Ht) Kx) as E. cbn in E. by rewrite <- E.
  - right. pose proof (obj_uri_eq _ (Predicate t) Hx (pred_ok t Ht) Kx) as E. cbn in E. by rewrite <- E.
Qed.

Lemma property_results_sound t : D t → Forall D (property_results e t).
Proof using D_wf He D_closed PR.
  intros Ht. pose proof (D_triple t _ _ _ Ht eq_refl eq_refl eq_refl) as Ht'. unfold property_results. rewrite !Forall_app. split; [|split; [|split]].
  - case_bool_decide as Ek; [|constructor]. destruct (isSubject (Object t)) eqn:Es; [|constructor]. constructor; [|constructor].
    apply (c_symp D PR _ _ _ (typed_pred _ _ t (os_sym D e He) Ht Ek) Ht' Es).
  - destruct (isSubject (Object t)) eqn:Es; [|constructor]. apply Forall_fmap, Forall_forall. intros q Hq.
    destruct (linked_pred OWL_InverseOf _ t q ltac:(by eexists) (os_inv D e He) Ht Hq) as [Hl|Hl]; [by eapply (c_inv1 D PR)|by eapply (c_inv2 D PR)].
  - apply Forall_fmap, Forall_forall. intros q Hq.
    destruct (linked_pred OWL_EquivalentProperty _ t q ltac:(by eexists) (os_eqp D e He) Ht Hq) as [Hl|Hl]; [by eapply (c_eqp1 D PR)|by eapply (c_eqp2 D PR)].
  - destruct (String.eqb_spec (uri_key (Predicate t)) (uri_key RDF_Type)) as [Ep|_]; [|constructor]. apply pred_eq in Ep; [|done|by eexists].
    rewrite Ep in Ht'. apply Forall_fmap, Forall_forall. intros c Hc. destruct (os_eqc D e He _ _ Hc) as (x & Kx & [[Hs Hx]|[Hs Hx]]).
    + pose proof (subj_obj_eq _ t Hx Ht Kx) as E. cbn in E. subst x. by eapply (c_eqc1 D PR).
    + pose proof (obj_eq _ t Hx Ht Kx) as E. cbn in E. subst x. by eapply (c_eqc2 D PR).
Qed.

Lemma transitive_sound : Forall D (range (foldl (add_edge e) ∅ l) ≫= λ kp : string * propEdges, transitive_results kp.2 l).
Proof using D_wf He D_closed HD PR.
  apply Forall_forall. intros r ([k pe] & Hr & Hk)%list_elem_of_bind. rewrite range_perm, elem_of_map_to_list in Hk. cbn [snd] in Hr.
  destruct (proj1 (edges_ok e l) _ _ Hk) as (Htr & (t0 & Ht0 & Hpe & Hk0) & Hfwd). unfold transitive_results in Hr.
  apply list_elem_of_bind in Hr as (t & Hr & Ht). destruct (String.eqb_spec (uri_key (Predicate t)) (uri_key (pe_pred pe))) as [Ep|_]; [|by apply not_elem_of_nil in Hr].
  apply list_elem_of_fmap in Hr as (c & -> & Hc). pose proof (HD t Ht) as HDt.
  assert (Hp : Predicate t = pe_pred pe) by (apply pred_eq; [done|rewrite <- Hpe; by apply pred_ok, HD|done]). rewrite <- Hp.
  pose proof (typed_pred _ _ t (os_trans D e He) HDt) as Hty. rewrite Hp in Hty. rewrite Hpe in Hk0. rewrite Hk0 in Hty. specialize (Hty Htr). rewrite Hp.
  destruct (walk_edges_ok (pe_fwd pe) (Object t)) as [Hreach _]. rewrite Forall_forall in Hreach. destruct (Hreach c Hc) as (k' & Hk' & Hin).
  assert (Hstart : D (MkTriple (Subject t) (pe_pred pe) (Object t))) by (by apply (D_triple t)).
  assert (Hstep : ∀ x y sk, D (MkTriple (Subject t) (pe_pred pe) x) → TermKey x = sk → y ∈ entries (pe_fwd pe) sk → D (MkTriple (Subject t) (pe_pred pe) y)).
  { intros x y sk Hx <- (u & Hu & Ku & Su & <-)%Hfwd. pose proof (subj_obj_eq u _ (HD u Hu) Hx Su) as E. cbn in E.
    eapply (c_trp D PR); [exact Hty|exact Hx|]. apply (D_triple u); [by apply HD|done| |done].
    apply pred_eq; [by apply HD|rewrite <- Hp; by apply pred_ok|by rewrite Hk0]. }
  clear Hc Hreach. remember (TermKey (Object t)) as k1 eqn:E1. revert E1 Hstart. generalize (Object t).
  induction Hk' as [k1|k1 k2 k3 (x & Hx & <-) _ IH]; intros o E1 Ho; [by eapply Hstep|]. apply (IH Hin x eq_refl). by eapply Hstep.
Qed.

(** Values of a functional property, and what has a value of an inverse one. *)
Lemma functional_sound : Forall D (range2 (foldl (group_functional e) ∅ l) ≫= λ ko : (string * string) * list Term, star_pairs ko.2).
Proof using D_wf He D_closed HD PR Hnd.
  rewrite functional_group. apply Forall_forall. intros r ([k objs] & Hr & Hk)%list_elem_of_bind. cbn [snd] in Hr. apply group2_range in Hk as ->.
  destruct (star_pairs_elem _ _ Hr) as (x & y & Hx & Hy & Sx & Sy & -> & Hne).
  apply group2_elem in Hx as (t & Ht & Ct & Kt & <-), Hy as (u & Hu & Cu & Ku & <-). apply bool_decide_eq_true in Ct.
  pose proof (HD t Ht) as HDt. pose proof (HD u Hu) as HDu. rewrite <- Ku in Kt. injection Kt as Kp Ks.
  assert (Ep : Predicate t = Predicate u) by (apply pred_eq; [done|by apply pred_ok|done]).
  assert (Es : Subject t = Subject u) by (by apply subj_eq).
  apply (c_fp D PR (Predicate t) (Subject t)); [by eapply typed_pred; [apply (os_func D e He)|..]|by apply (D_triple t)|by apply (D_triple u)|done|done|].
  apply Hne, group2_NoDup; [done|]. intros v w Hv Hw [= Kp' Ks'] Ko. pose proof (HD v Hv) as HDv. pose proof (HD w Hw) as HDw.
  assert (Predicate v = Predicate w) by (apply pred_eq; [done|by apply pred_ok|done]). assert (Subject v = Subject w) by (by apply subj_eq).
  assert (Object v = Object w) by (by apply obj_eq). destruct v, w. cbn in *. congruence.
Qed.

Lemma invFunc_sound : Forall D (range2 (foldl (group_invFunc e) ∅ l) ≫= λ ks : (string * string) * list Term, subject_pairs ks.2).
Proof using D_wf He D_closed HD PR Hnd.
  rewrite invFunc_group. apply Forall_forall. intros r ([k objs] & Hr & Hk)%list_elem_of_bind. cbn [snd] in Hr. apply group2_range in Hk as ->.
  destruct (subject_pairs_elem _ _ Hr) as (x & y & Hx & Hy & -> & Hne).
  apply group2_elem in Hx as (t & Ht & Ct & Kt & <-), Hy as (u & Hu & Cu & Ku & <-). apply bool_decide_eq_true in Ct.
  pose proof (HD t Ht) as HDt. pose proof (HD u Hu) as HDu. rewrite <- Ku in Kt. injection Kt as Kp Ko.
  assert (Ep : Predicate t = Predicate u) by (apply pred_eq; [done|by apply pred_ok|done]).
  assert (Eo : Object t = Object u) by (by apply obj_eq).
  apply (c_ifp D PR (Predicate t) _ _ (Object t)); [by eapply typed_pred; [apply (os_ifunc D e He)|..]|by apply (D_triple t)|by apply (D_triple u)|].
  apply Hne, group2_NoDup; [done|]. intros v w Hv Hw [= Kp' Ks'] Ks. pose proof (HD v Hv) as HDv. pose proof (HD w Hw) as HDw.
  assert (Predicate v = Predicate w) by (apply pred_eq; [done|by apply pred_ok|done]). assert (Subject v = Subject w) by (by apply subj_eq).
  assert (Object v = Object w) by (by apply obj_eq). destruct v, w. cbn in *. congruence.
Qed.

(** ** Equality *)

Lemma class_members cls u : classes (uf e) = (cls, u) → ∀ ms, ms ∈ cls → NoDup (TermKey <$> ms) ∧
  ∀ x y, x ∈ ms → y ∈ ms → term_wf x ∧ (TermKey x ≠ TermKey y → same_as D x y).
Proof using D_wf He.
  intros Ec ms Hms. destruct (classes_ok (uf e) (os_uf D e He)) as (cls' & u' & Ec' & _ & _ & Hcls & _). rewrite Ec in Ec'. injection Ec' as <- <-.
  destruct (Hcls ms Hms) as (Hn & _ & r & Hin). split; [done|]. intros x y [Hx Rx]%Hin [Hy Ry]%Hin.
  split; [by apply (os_term D e He) in Hx|]. intros Hne. apply (os_same D e He x y Hx Hy); [|done]. right. by exists r.
Qed.

Lemma class_pairs_sound cls u : classes (uf e) = (cls, u) → Forall D (cls ≫= class_pairs).
Proof using D_wf He D_closed EQ.
  intros Ec. apply Forall_forall. intros r (ms & Hr & Hms)%list_elem_of_bind. destruct (class_members cls u Ec ms Hms) as [Hn Hin].
  apply class_pairs_elem in Hr as (x & y & Hx & Hy & Hne & Sx & Sy & ->); [|done]. apply (c_same D EQ); [|done..]. by apply Hin.
Qed.

Lemma memberOf_elem (cls : list (list Term)) k x : x ∈ entries (memberOf cls) k → ∃ ms y, ms ∈ cls ∧ x ∈ ms ∧ y ∈ ms ∧ TermKey y = k.
Proof.
  unfold memberOf. assert (Hin : ∀ ms m, (∀ x k, x ∈ entries m k → ∃ ms y, ms ∈ cls ∧ x ∈ ms ∧ y ∈ ms ∧ TermKey y = k) → ms ∈ cls →
    ∀ x k, x ∈ entries (index_members m ms) k → ∃ ms y, ms ∈ cls ∧ x ∈ ms ∧ y ∈ ms ∧ TermKey y = k).
  { intros ms m Hm Hms. unfold index_members.
    assert (Hgo : ∀ zs m, (∀ z, z ∈ zs → z ∈ ms) → (∀ x k, x ∈ entries m k → ∃ ms y, ms ∈ cls ∧ x ∈ ms ∧ y ∈ ms ∧ TermKey y = k) →
      ∀ x k, x ∈ entries (foldl (λ m x, <[TermKey x := ms]> m) m zs) k → ∃ ms y, ms ∈ cls ∧ x ∈ ms ∧ y ∈ ms ∧ TermKey y = k); [|by apply Hgo].
    induction zs as [|z zs IH]; intros m' Hsub Hm'; [done|]. cbn [foldl]. apply IH; [intros w Hw; apply Hsub; by right|].
    intros x' k'. unfold entries at 1. rewrite lookup_insert. case_decide as E; [|apply Hm']. cbn. intros Hx'. exists ms, z. split; [done|]. split; [done|].
    split; [apply Hsub; by left|done]. }
  revert x k. apply (foldl_ind _ (λ m, ∀ x k, x ∈ entries m k → ∃ ms y, ms ∈ cls ∧ x ∈ ms ∧ y ∈ ms ∧ TermKey y = k)).
  - intros x k. unfold entries. rewrite lookup_empty. by intros ?%not_elem_of_nil.
  - intros m ms Hms Hm. by apply Hin.
Qed.

Lemma others_elem t zs x : x ∈ others t zs ↔ x ∈ zs ∧ TermKey x ≠ TermKey t.
Proof.
  unfold others. rewrite elem_filter_bool, negb_true_iff. unfold is_key. by rewrite String.eqb_neq.
Qed.

Lemma replacement cls u x z : classes (uf e) = (cls, u) → term_wf x → z ∈ others x (entries (memberOf cls) (TermKey x)) → same_as D x z.
Proof using D_wf He.
  intros Ec Wx [Hz Hne]%others_elem. apply memberOf_elem in Hz as (ms & y & Hms & Hz & Hy & Ky).
  destruct (class_members cls u Ec ms Hms) as [_ Hin]. destruct (Hin y z Hy Hz) as [Wy Hs].
  assert (y = x) as -> by (by apply TermKey_inj). apply Hs. congruence.
Qed.

Lemma replacements_sound cls u : classes (uf e) = (cls, u) → Forall D (l ≫= replacements (memberOf cls)).
Proof using D_wf He D_closed EQ HD.
  intros Ec. apply Forall_forall. intros r (t & Hr & Ht)%list_elem_of_bind. pose proof (HD t Ht) as HDt. pose proof (D_wf t HDt) as (Ws & _ & _ & Wo).
  pose proof (D_triple t _ _ _ HDt eq_refl eq_refl eq_refl) as Ht'. unfold replacements in Hr. rewrite !elem_of_app in Hr.
  assert (Hs : ∀ se, se ∈ List.filter isSubject (others (Subject t) (entries (memberOf cls) (TermKey (Subject t)))) → same_as D (Subject t) se ∧ isSubject se = true).
  { intros se [Hse Ss]%elem_filter_bool. split; [|done]. by eapply replacement. }
  assert (Ho : ∀ oe, oe ∈ others (Object t) (entries (memberOf cls) (TermKey (Object t))) → same_as D (Object t) oe) by (intros oe Hoe; by eapply replacement).
  destruct Hr as [(se & -> & Hse)%list_elem_of_fmap|[(oe & -> & Hoe)%list_elem_of_fmap|(se & Hr & Hse)%list_elem_of_bind]].
  - destruct (Hs se Hse). by eapply (c_rep_s D EQ).
  - eapply (c_rep_o D EQ); [by apply Ho|done].
  - apply list_elem_of_fmap in Hr as (oe & -> & Hoe). destruct (Hs se Hse). eapply (c_rep_s D EQ); [done|done|]. eapply (c_rep_o D EQ); [by apply Ho|done].
Qed.

(** ** Chains and keys *)

Lemma index_predicate_elem k t : t ∈ entries (foldl index_predicate ∅ l) k ↔ t ∈ l ∧ uri_key (Predicate t) = k.
Proof.
  assert (Hgo : ∀ ts m, t ∈ entries (foldl index_predicate m ts) k ↔ t ∈ entries m k ∨ (t ∈ ts ∧ uri_key (Predicate t) = k)).
  { clear. induction ts as [|u ts IH]; intros m; cbn [foldl]; [rewrite elem_of_nil; tauto|]. rewrite IH. unfold index_predicate at 1.
    rewrite entries_append, elem_of_cons. split; [intros [[?|[-> ->]]|[? ?]]|intros [?|[[->|?] <-]]]; tauto. }
  rewrite Hgo. unfold entries at 1. rewrite lookup_empty. cbn. rewrite elem_of_nil. tauto.
Qed.

Lemma chain_step t p : t ∈ entries (foldl index_predicate ∅ l) (uri_key p) → uri_ok p → D (MkTriple (Subject t) p (Object t)).
Proof using D_wf HD.
  intros [Ht Kt]%index_predicate_elem Hp. pose proof (HD t Ht) as HDt. apply (D_triple t); [done|done| |done]. by apply pred_eq.
Qed.

Lemma evalChainStep_sound chain start result : Forall uri_ok chain → ∀ cur r, term_wf cur → r ∈ evalChainStep (foldl index_predicate ∅ l) chain start cur result →
  ∃ z, r = MkTriple start result z ∧ chain_path D chain cur z.
Proof using D_wf HD.
  induction 1 as [|p chain Hp Hchain IH]; intros cur r Hc Hr; [by apply not_elem_of_nil in Hr|]. cbn [evalChainStep] in Hr.
  apply list_elem_of_bind in Hr as (t & Hr & Ht). pose proof (chain_step t p Ht Hp) as HDt.
  destruct (is_key (TermKey cur) (Subject t)) eqn:Ek; cbn [negb] in Hr; [|by apply not_elem_of_nil in Hr].
  apply is_key_iff in Ek. pose proof (D_wf _ HDt) as (Ws & _ & _ & Wo). cbn in Ws, Wo. apply TermKey_inj in Ek; [|done|done]. rewrite Ek in HDt.
  destruct chain as [|q chain].
  - apply list_elem_of_singleton in Hr as ->. exists (Object t). split; [done|]. by apply path_last.
  - destruct (isSubject (Object t)) eqn:Es; [|by apply not_elem_of_nil in Hr]. destruct (IH (Object t) r Wo Hr) as (z & -> & Hz).
    exists z. split; [done|]. by eapply path_step.
Qed.

Lemma evalChain_sound chain result r : Forall uri_ok chain → r ∈ evalChain (foldl index_predicate ∅ l) chain result →
  ∃ x z, r = MkTriple x result z ∧ chain_path D chain x z.
Proof using D_wf HD.
  intros Hchain Hr. destruct chain as [|p chain]; [by apply not_elem_of_nil in Hr|]. apply Forall_cons in Hchain as [Hp Hchain]. cbn [evalChain] in Hr.
  apply list_elem_of_bind in Hr as (t & Hr & Ht). pose proof (chain_step t p Ht Hp) as HDt. pose proof (D_wf _ HDt) as (_ & _ & _ & Wo). cbn in Wo.
  destruct chain as [|q chain].
  - apply list_elem_of_singleton in Hr as ->. exists (Subject t), (Object t). split; [done|]. by apply path_last.
  - destruct (isSubject (Object t)) eqn:Es; [|by apply not_elem_of_nil in Hr].
    destruct (evalChainStep_sound (q :: chain) (Subject t) result Hchain (Object t) r Wo Hr) as (z & -> & Hz).
    exists (Subject t), z. split; [done|]. by eapply path_step.
Qed.

Lemma rdf_list_uris ls ps : rdf_list D ls (U <$> ps) → Forall uri_ok ps.
Proof using D_wf.
  intros Hl. remember (U <$> ps) as ms eqn:E. revert ps E. induction Hl as [|x v r vs Hv _ _ IH]; intros [|p ps] E; try done.
  cbn in E. injection E as -> E. constructor; [|by apply IH]. by apply D_wf in Hv as (_ & _ & _ & ?).
Qed.

Lemma chains_sound pk chains prop : (pk, chains) ∈ range (propChainAxiom e) → uri_ok prop → uri_key prop = pk →
  Forall D (chains ≫= λ chain, evalChain (foldl index_predicate ∅ l) chain prop).
Proof using D_wf He D_closed HD LI.
  intros Hr Hok Hk. rewrite range_perm, elem_of_map_to_list in Hr. apply Forall_forall. intros r (chain & Hin & Hc)%list_elem_of_bind.
  destruct (os_chain D e He pk chain) as (p & ls & Kp & HDp & Hlist & _); [unfold entries; by rewrite Hr|].
  assert (p = prop) as -> by (apply uri_key_inj; [by apply D_wf in HDp as (? & _)|done|congruence]).
  destruct (evalChain_sound chain prop r (rdf_list_uris _ _ Hlist) Hin) as (x & z & -> & Hpath). by eapply (c_chain D LI).
Qed.

Lemma instance_elem ck x : x ∈ entries (foldl (index_instance e) ∅ l) ck → ∃ c, TermKey c = ck ∧ D (MkTriple x RDF_Type c).
Proof using D_wf HD.
  revert ck x. apply (foldl_ind _ (λ m : gmap string (list Term), ∀ ck x, x ∈ entries m ck → ∃ c, TermKey c = ck ∧ D (MkTriple x RDF_Type c))).
  - intros ck x. unfold entries. rewrite lookup_empty. by intros ?%not_elem_of_nil.
  - intros m t Ht Hm ck x. unfold index_instance. destruct (String.eqb_spec (uri_key (Predicate t)) (uri_key RDF_Type)) as [Ep|_]; [|apply Hm].
    destruct (hasKeyIndex e !! _); [|apply Hm]. intros [Hx|[-> ->]]%entries_append; [by apply Hm|]. exists (Object t). split; [done|].
    pose proof (HD t Ht) as HDt. apply (D_triple t); [done|done| |done]. apply pred_eq; [done|by eexists|done].
Qed.

Lemma objects_elem s p o : term_wf s → uri_ok p → o ∈ entries2 (foldl index_object ∅ l) (TermKey s, uri_key p) ↔ MkTriple s p o ∈ l.
Proof using D_wf HD.
  intros Ws Hp. rewrite index_object_group, group2_elem. split.
  - intros (t & Ht & _ & [= Ks Kp] & <-). pose proof (HD t Ht) as HDt. apply pred_eq in Kp as <-; [|done|done].
    assert (Es : Subject t = s) by (apply TermKey_inj; [by apply D_wf in HDt as (? & _)|done|done]). rewrite <- Es. by destruct t.
  - intros Ht. by exists (MkTriple s p o).
Qed.

Lemma subjects_elem s p o : uri_ok p → term_wf o → s ∈ entries2 (foldl index_subject ∅ l) (uri_key p, TermKey o) ↔ MkTriple s p o ∈ l.
Proof using D_wf HD.
  intros Hp Wo. rewrite index_subject_group, group2_elem. split.
  - intros (t & Ht & _ & [= Kp Ko] & <-). pose proof (HD t Ht) as HDt. apply pred_eq in Kp as <-; [|done|done].
    assert (Eo : Object t = o) by (apply TermKey_inj; [by apply D_wf in HDt as (_ & _ & _ & ?)|done|done]). rewrite <- Eo. by destruct t.
  - intros Ht. by exists (MkTriple s p o).
Qed.

Lemma type_elem s c : term_wf s → term_wf c → has_type (types_of (foldl index_type ∅ l) (TermKey s)) (TermKey c) = true ↔ MkTriple s RDF_Type c ∈ l.
Proof using D_wf HD.
  intros Ws Wc. rewrite index_type_elem. split.
  - intros (t & Ht & Kp & Ks & Ko). pose proof (HD t Ht) as HDt. apply pred_eq in Kp; [|done|by eexists].
    assert (Es : Subject t = s) by (apply TermKey_inj; [by apply D_wf in HDt as (? & _)|done|done]).
    assert (Eo : Object t = c) by (apply TermKey_inj; [by apply D_wf in HDt as (_ & _ & _ & ?)|done|done]). rewrite <- Es, <- Eo, <- Kp. by destruct t.
  - intros Ht. exists (MkTriple s RDF_Type c). done.
Qed.

Lemma hasCommonValue_iff a c : hasCommonValue a c = true ↔ ∃ x y, x ∈ a ∧ y ∈ c ∧ TermKey x = TermKey y.
Proof.
  assert (Hset : ∀ a c, existsb (λ v, bool_decide (TermKey v ∈ (list_to_set (TermKey <$> a) : gset string))) c = true ↔ ∃ x y, x ∈ a ∧ y ∈ c ∧ TermKey x = TermKey y).
  { clear. intros a c. rewrite existsb_exists. setoid_rewrite bool_decide_eq_true. setoid_rewrite elem_of_list_to_set. setoid_rewrite list_elem_of_fmap.
    split; [intros (y & Hy%list_elem_of_In & x & Hk & Hx)|intros (x & y & Hx & Hy & Hk)]; [by exists x, y|exists y; split; [by apply list_elem_of_In|by exists x]]. }
  destruct a as [|a0 a], c as [|c0 c]; [| | |exact (Hset (a0 :: a) (c0 :: c))]; split; try done; intros (x & y & Hx & Hy & _); by apply not_elem_of_nil in Hx || by apply not_elem_of_nil in Hy.
Qed.

Lemma key_pairs_elem vals ps xs r : r ∈ key_pairs vals ps xs → ∃ x y, x ∈ xs ∧ y ∈ xs ∧ TermKey x ≠ TermKey y ∧ r = MkTriple x OWL_SameAs y ∧
  ∀ p, p ∈ ps → ∃ v w, v ∈ entries2 vals (TermKey x, uri_key p) ∧ w ∈ entries2 vals (TermKey y, uri_key p) ∧ TermKey v = TermKey w.
Proof.
  induction xs as [|x xs IH]; cbn [key_pairs]; [by intros ?%not_elem_of_nil|].
  intros [(y & Hr & Hy)%list_elem_of_bind|Hr]%elem_of_app.
  - destruct (negb _ && _) eqn:Ec; [|by apply not_elem_of_nil in Hr]. apply andb_true_iff in Ec as [Hne%negb_true_iff%String.eqb_neq Hm].
    unfold keys_match in Hm. rewrite forallb_forall in Hm. setoid_rewrite <- list_elem_of_In in Hm. setoid_rewrite hasCommonValue_iff in Hm.
    rewrite !elem_of_cons, elem_of_nil in Hr. destruct Hr as [-> |[-> |[]]].
    + exists x, y. split; [by left|]. split; [by right|]. split; [done|]. split; [done|exact Hm].
    + exists y, x. split; [by right|]. split; [by left|]. split; [congruence|]. split; [done|]. intros p Hp. destruct (Hm p Hp) as (v & w & ? & ? & ?). by exists w, v.
  - destruct (IH Hr) as (a & c & Ha & Hc & Hrest). exists a, c. split; [by right|]. by split; [right|].
Qed.

Lemma keys_sound : Forall D (range (hasKeyIndex e) ≫= λ ck : string * list URIRef,
  key_pairs (foldl index_object ∅ l) ck.2 (entries (foldl (index_instance e) ∅ l) ck.1)).
Proof using D_wf He D_closed HD LI.
  apply Forall_forall. intros r ([ck ps] & Hr & Hk)%list_elem_of_bind. rewrite range_perm, elem_of_map_to_list in Hk. cbn [fst snd] in Hr.
  destruct (os_key D e He ck ps Hk) as (c & ls & Kc & HDc & Hlist & Hne). pose proof (rdf_list_uris _ _ Hlist) as Hps. rewrite Forall_forall in Hps.
  destruct (key_pairs_elem _ _ _ _ Hr) as (x & y & Hx & Hy & Hxy & -> & Hm).
  assert (Hinst : ∀ z, z ∈ entries (foldl (index_instance e) ∅ l) ck → D (MkTriple z RDF_Type c)).
  { intros z (c' & Kc' & Hz)%instance_elem. assert (c' = c) as ->; [|done].
    apply TermKey_inj; [by apply D_wf in Hz as (_ & _ & _ & ?)|by apply D_wf in HDc as (? & _)|congruence]. }
  apply (c_key D LI c ls ps); auto. intros p Hp. destruct (Hm p Hp) as (v & w & Hv & Hw & Kvw).
  pose proof (Hinst x Hx) as Hx'. pose proof (Hinst y Hy) as Hy'. apply D_wf in Hx' as (Wx & _), Hy' as (Wy & _).
  apply objects_elem in Hv; [|done|by apply Hps]. apply objects_elem in Hw; [|done|by apply Hps]. exists v. split; [by apply HD|].
  assert (v = w) as ->; [|by apply HD]. apply TermKey_inj; [by apply HD, D_wf in Hv as (_ & _ & _ & ?)|by apply HD, D_wf in Hw as (_ & _ & _ & ?)|done].
Qed.

(** ** Classes *)

Let x : classIndexes := class_indexes l.

Lemma of_type t : t ∈ l → uri_key (Predicate t) = uri_key RDF_Type → D (MkTriple (Subject t) RDF_Type (Object t)).
Proof using D_wf HD. intros Ht Kp. pose proof (HD t Ht) as HDt. apply (D_triple t); [done|done| |done]. apply pred_eq; [done|by eexists|done]. Qed.

(** The key of an instance belongs to one. *)
Lemma instances_elem sk c : term_wf c → sk ∈ instances_of x (TermKey c) ↔ ∃ s, TermKey s = sk ∧ term_wf s ∧ MkTriple s RDF_Type c ∈ l.
Proof using D_wf HD.
  intros Wc. unfold instances_of. rewrite list_elem_of_fmap. setoid_rewrite elem_filter_bool. split.
  - intros (kt & -> & Hkt & Hty). rewrite (types_range _ _ Hkt) in Hty. change (typeIndex x) with (foldl index_type ∅ l) in Hty.
    apply index_type_elem in Hty as (t & Ht & Kp & Ks & Ko). pose proof (of_type t Ht Kp) as HDt. pose proof (HD t Ht) as HDt0.
    exists (Subject t). split; [done|]. split; [by apply D_wf in HDt as (? & _)|].
    assert (Object t = c) as <- by (apply TermKey_inj; [by apply D_wf in HDt as (_ & _ & _ & ?)|done|done]).
    apply pred_eq in Kp as <-; [by destruct t|done|by eexists].
  - intros (s & <- & Ws & Hs). exists (TermKey s, types_of (typeIndex x) (TermKey s)). split; [done|].
    assert (Hty : has_type (types_of (typeIndex x) (TermKey s)) (TermKey c) = true) by (by apply type_elem).
    split; [|exact Hty]. by eapply types_range_elem.
Qed.

Lemma instance_D sk c : D (MkTriple c RDF_Type (U OWL_Restriction)) → sk ∈ instances_of x (TermKey c) → ∃ s, TermKey s = sk ∧ term_wf s ∧ D (MkTriple s RDF_Type c).
Proof using D_wf HD.
  intros Hc Hs. apply instances_elem in Hs as (s & Ks & Ws & Hs); [|by apply D_wf in Hc as (? & _)]. exists s. split; [done|]. split; [done|by apply HD].
Qed.

(** Objects listed for an instance. *)
Lemma objs_D s p o : term_wf s → uri_ok p → o ∈ entries2 (propObjs x) (TermKey s, uri_key p) → D (MkTriple s p o).
Proof using D_wf HD. intros Ws Hp Ho. by apply HD, objects_elem. Qed.

Lemma objs_NoDup k : NoDup (TermKey <$> entries2 (propObjs x) k).
Proof using D_wf HD Hnd.
  change (propObjs x) with (foldl index_object ∅ l). rewrite index_object_group. apply group2_NoDup; [done|].
  intros v w Hv Hw [= Ks Kp] Ko. pose proof (HD v Hv) as HDv. pose proof (HD w Hw) as HDw.
  assert (Predicate v = Predicate w) by (apply pred_eq; [done|by apply pred_ok|done]). assert (Subject v = Subject w) by (by apply subj_eq).
  assert (Object v = Object w) by (by apply obj_eq). destruct v, w. cbn in *. congruence.
Qed.

Section restriction.
Context (r : owlRestriction) (Hr : restriction_sound D r).
Abbreviation node := (r_node r).
Abbreviation p := (onProperty r).

Lemma restriction_parts : D (MkTriple node RDF_Type (U OWL_Restriction)) ∧ uri_ok p ∧ term_wf node.
Proof using D_wf Hr. destruct (rs_on D r Hr) as [H1 H2]. split; [done|]. split; [by apply D_wf in H2 as (_ & _ & _ & ?)|by apply D_wf in H1 as (? & _)]. Qed.

Lemma hasValue_sound : Forall D (hasValue_results x l r).
Proof using D_wf HD D_closed RE Hr.
  destruct restriction_parts as (Hn & Hp & Wn). unfold hasValue_results. destruct (hasValue r) as [v|] eqn:Ev; [|constructor].
  pose proof (rs_hv D r Hr v Ev) as Hv. pose proof (D_wf _ Hv) as (_ & _ & _ & Wv). cbn in Wv. apply Forall_app. split; apply Forall_forall; intros t.
  - intros (sk & Ht & Hsk)%list_elem_of_bind. destruct (instance_D sk node Hn Hsk) as (s & <- & Ws & Hs).
    destruct (find_subject (TermKey s) l) as [u|] eqn:Ef; [|by apply not_elem_of_nil in Ht]. apply list_elem_of_singleton in Ht as ->.
    apply find_subject_Some in Ef as [Hu Ks]. assert (Subject u = s) as -> by (apply TermKey_inj; [by apply HD, D_wf in Hu as (? & _)|done|done]).
    by eapply (c_hv1 D RE); [apply (rs_on D r Hr)|..].
  - intros (s & -> & Hs)%list_elem_of_fmap. apply subjects_elem in Hs; [|done|done]. eapply (c_hv2 D RE); [apply (rs_on D r Hr)|done|by apply HD].
Qed.

Lemma someValues_sound : Forall D (someValues_results x l r).
Proof using D_wf HD D_closed RE Hr.
  destruct restriction_parts as (Hn & Hp & Wn). unfold someValues_results. destruct (someValuesFrom r) as [c|] eqn:Ec; [|constructor].
  pose proof (rs_svf D r Hr c Ec) as Hc. pose proof (D_wf _ Hc) as (_ & _ & _ & Wc). cbn in Wc. apply Forall_forall.
  intros t' (t & Ht' & Ht)%list_elem_of_bind. destruct (String.eqb_spec (uri_key (Predicate t)) (uri_key p)) as [Kp|_]; cbn [negb] in Ht'; [|by apply not_elem_of_nil in Ht'].
  pose proof (HD t Ht) as HDt. pose proof (D_wf t HDt) as (_ & _ & _ & Wo). assert (HDp : D (MkTriple (Subject t) p (Object t))) by (apply (D_triple t); [done|done|by apply pred_eq|done]).
  destruct (is_key (uri_key OWL_Thing) c) eqn:Et; cbn [orb] in Ht'.
  - apply list_elem_of_singleton in Ht' as ->. apply is_key_iff in Et. assert (c = U OWL_Thing) as -> by (apply TermKey_inj; [done|by eexists|done]).
    by eapply (c_svf2 D RE); [apply (rs_on D r Hr)|..].
  - destruct (has_type _ _) eqn:Ety; [|by apply not_elem_of_nil in Ht']. apply list_elem_of_singleton in Ht' as ->.
    change (default ∅ (typeIndex x !! TermKey (Object t))) with (types_of (foldl index_type ∅ l) (TermKey (Object t))) in Ety. apply type_elem in Ety; [|done|done].
    eapply (c_svf1 D RE); [apply (rs_on D r Hr)|done|exact HDp|by apply HD].
Qed.

Lemma allValues_sound : Forall D (allValues_results x r).
Proof using D_wf HD D_closed RE Hr.
  destruct restriction_parts as (Hn & Hp & Wn). unfold allValues_results. destruct (allValuesFrom r) as [c|] eqn:Ec; [|constructor].
  apply Forall_forall. intros t (sk & Ht & Hsk)%list_elem_of_bind. destruct (instance_D sk node Hn Hsk) as (s & <- & Ws & Hs).
  apply list_elem_of_fmap in Ht as (o & -> & [Ho So]%elem_filter_bool). apply objs_D in Ho; [|done|done].
  by eapply (c_avf D RE); [apply (rs_on D r Hr)|apply (rs_avf D r Hr)|..].
Qed.

Lemma maxCard_sound : Forall D (maxCard_results x r).
Proof using D_wf HD Hnd D_closed RE Hr.
  destruct restriction_parts as (Hn & Hp & Wn). unfold maxCard_results. destruct (Z.eqb_spec (maxCard r) 1) as [Em|_]; cbn [negb]; [|constructor].
  apply Forall_forall. intros t (sk & Ht & Hsk)%list_elem_of_bind. destruct (instance_D sk node Hn Hsk) as (s & <- & Ws & Hs).
  destruct (star_pairs_elem _ _ Ht) as (a & c & Ha & Hc & Sa & Sc & -> & Hne). apply objs_D in Ha; [|done|done]. apply objs_D in Hc; [|done|done].
  eapply (c_maxc2 D RE); [apply (rs_on D r Hr)|apply (rs_mc D r Hr 1 Em); lia|done..|]. by apply Hne, objs_NoDup.
Qed.

Lemma qualified_elem c objs o : o ∈ qualified x c objs → o ∈ objs ∧ (TermKey c = uri_key OWL_Thing ∨ has_type (types_of (foldl index_type ∅ l) (TermKey o)) (TermKey c) = true).
Proof.
  unfold qualified. intros [Ho Hq%orb_true_iff]%elem_filter_bool. split; [done|]. destruct Hq as [Hq|Hq]; [left; by apply is_key_iff|by right].
Qed.

Lemma filter_keys_NoDup (f : Term → bool) objs : NoDup (TermKey <$> objs) → NoDup (TermKey <$> List.filter f objs).
Proof.
  induction objs as [|o objs IH]; [done|]. rewrite fmap_cons. intros [Hn Hd]%NoDup_cons. cbn [List.filter]. destruct (f o); [|by apply IH].
  rewrite fmap_cons. apply NoDup_cons. split; [|by apply IH]. intros (y & Ky & [Hy _]%elem_filter_bool)%list_elem_of_fmap. apply Hn. rewrite Ky. by apply list_elem_of_fmap_2.
Qed.

Lemma maxQualCard_sound : Forall D (maxQualCard_results x r).
Proof using D_wf HD Hnd D_closed RE Hr.
  destruct restriction_parts as (Hn & Hp & Wn). unfold maxQualCard_results. destruct (onClass r) as [c|] eqn:Ec; [|constructor].
  destruct (Z.eqb_spec (maxQualCard r) 1) as [Em|_]; cbn [negb]; [|constructor].
  pose proof (rs_onc D r Hr c Ec) as Hc. pose proof (D_wf _ Hc) as (_ & _ & _ & Wc). cbn in Wc.
  apply Forall_forall. intros t (sk & Ht & Hsk)%list_elem_of_bind. destruct (instance_D sk node Hn Hsk) as (s & <- & Ws & Hs).
  destruct (star_pairs_elem _ _ Ht) as (a & d & Ha & Hd & Sa & Sd & -> & Hne). specialize (Hne (filter_keys_NoDup _ _ (objs_NoDup _))).
  apply qualified_elem in Ha as [Ha Qa], Hd as [Hd Qd]. apply objs_D in Ha; [|done|done]. apply objs_D in Hd; [|done|done].
  pose proof (D_wf _ Ha) as (_ & _ & _ & Wa). pose proof (D_wf _ Hd) as (_ & _ & _ & Wd). cbn in Wa, Wd.
  pose proof (rs_mqc D r Hr 1 Em ltac:(lia)) as Hcard. destruct (decide (TermKey c = uri_key OWL_Thing)) as [Et|Et].
  - assert (c = U OWL_Thing) as -> by (apply TermKey_inj; [done|by eexists|done]). eapply (c_maxqc4 D RE); [apply (rs_on D r Hr)|done..].
  - destruct Qa as [|Qa], Qd as [|Qd]; try done. apply type_elem in Qa; [|done|done]. apply type_elem in Qd; [|done|done].
    eapply (c_maxqc3 D RE); [apply (rs_on D r Hr)|done|exact Hc|exact Hs|exact Ha|by apply HD|exact Hd|by apply HD|done..].
Qed.
End restriction.

(** A class that a triple names, found again. *)
Lemma find_class p ck c t : uri_ok p → TermKey c = ck → term_wf c → find_with p ck l = Some t → Subject t = c ∧ D (MkTriple c p (Object t)).
Proof using D_wf HD.
  intros Hp Kc Wc (Ht & Kp & Ks)%find_with_Some. pose proof (HD t Ht) as HDt. pose proof (D_wf t HDt) as (Ws & _).
  assert (Es : Subject t = c) by (apply TermKey_inj; [done|done|congruence]). split; [done|]. apply (D_triple t); [done|done| |done]. by apply pred_eq.
Qed.

Lemma has_all_D ms s : Forall term_wf ms → term_wf s → has_all x ms (TermKey s) = true → ∀ m, m ∈ ms → D (MkTriple s RDF_Type m).
Proof using D_wf HD.
  unfold has_all. rewrite forallb_forall, Forall_forall. intros Wms Ws Hall m Hm. apply HD, type_elem; [done|by apply Wms|].
  apply Hall. by apply list_elem_of_In.
Qed.

Lemma rdf_list_wf ls ms : rdf_list D ls ms → Forall term_wf ms.
Proof using D_wf. induction 1 as [|y v r vs Hv _ _ IH]; constructor; [by apply D_wf in Hv as (_ & _ & _ & ?)|done]. Qed.

Lemma candidates_elem m0 k s : term_wf m0 → candidates x l m0 !! k = Some s → TermKey s = k ∧ term_wf s.
Proof using D_wf HD.
  intros Wm. unfold candidates. revert k s. apply (foldl_ind _ (λ m : gmap string Term, ∀ k s, m !! k = Some s → TermKey s = k ∧ term_wf s)).
  - intros k s. by rewrite lookup_empty.
  - intros m sk _ Hm k s. destruct (find_with RDF_Type sk l) as [t|] eqn:Ef; [|apply Hm]. apply find_with_Some in Ef as (Ht & _ & Ks).
    intros [[<- <-]|[_ Hk]]%lookup_insert_Some; [|by apply Hm]. split; [done|]. by apply HD, D_wf in Ht as (? & _).
Qed.

Lemma intersection_sound : Forall D (range (intersectionOf e) ≫= λ cm : string * list Term, intersection_results x l cm.1 cm.2).
Proof using D_wf He D_closed HD LI.
  apply Forall_forall. intros r ([ck ms] & Hr & Hk)%list_elem_of_bind. rewrite range_perm, elem_of_map_to_list in Hk. cbn [fst snd] in Hr.
  destruct (os_int D e He ck ms Hk) as (c & ls & Kc & HDc & Hlist & Hne). pose proof (rdf_list_wf _ _ Hlist) as Wms. pose proof (D_wf _ HDc) as (Wc & _). cbn in Wc.
  unfold intersection_results in Hr. destruct ms as [|m0 ms]; [done|]. pose proof (Forall_inv Wms) as Wm0.
  apply list_elem_of_bind in Hr as ([k s] & Hr & Hc). rewrite range_perm, elem_of_map_to_list in Hc. destruct (candidates_elem m0 k s Wm0 Hc) as [<- Ws]. cbn [fst snd] in Hr.
  destruct (has_all x (m0 :: ms) (TermKey s)) eqn:Ea; [|by apply not_elem_of_nil in Hr].
  destruct (find_with OWL_IntersectionOf ck l) as [t|] eqn:Ef; [|by apply not_elem_of_nil in Hr]. apply list_elem_of_singleton in Hr as ->. unfold subject_of.
  destruct (find_class OWL_IntersectionOf ck c t ltac:(by eexists) Kc Wc Ef) as [-> _]. eapply (c_int1 D LI); [exact HDc|exact Hlist|done|]. by apply has_all_D.
Qed.

Lemma member_sound : Forall D (range (intersectionOf e) ≫= λ cm : string * list Term, member_results x l cm.1 cm.2).
Proof using D_wf He D_closed HD LI.
  apply Forall_forall. intros r ([ck ms] & Hr & Hk)%list_elem_of_bind. rewrite range_perm, elem_of_map_to_list in Hk. cbn [fst snd] in Hr.
  destruct (os_int D e He ck ms Hk) as (c & ls & <- & HDc & Hlist & Hne). pose proof (D_wf _ HDc) as (Wc & _). cbn in Wc.
  unfold member_results in Hr. apply list_elem_of_bind in Hr as (sk & Hr & Hs). apply instances_elem in Hs as (s & <- & Ws & Hs); [|done].
  destruct (find_with RDF_Type (TermKey s) l) as [t|] eqn:Ef; [|by apply not_elem_of_nil in Hr]. destruct (find_class RDF_Type _ s t ltac:(by eexists) eq_refl Ws Ef) as [Es _].
  cbn [subject_of] in Hr. rewrite Es in Hr. apply list_elem_of_fmap in Hr as (m & -> & Hm). eapply (c_int2 D LI); [exact HDc|by eapply rdf_list_member|by apply HD].
Qed.

Lemma list_member_wf ls m : list_member D ls m → term_wf m.
Proof using D_wf. induction 1 as [ls v Hv|]; [by apply D_wf in Hv as (_ & _ & _ & ?)|done]. Qed.

Lemma union_sound : Forall D (range (unionOf e) ≫= λ cm : string * list Term, union_results x l cm.1 cm.2).
Proof using D_wf He D_closed HD LI.
  apply Forall_forall. intros r ([ck ms] & Hr & Hk)%list_elem_of_bind. rewrite range_perm, elem_of_map_to_list in Hk. cbn [fst snd] in Hr.
  destruct (os_uni D e He ck ms Hk) as (c & ls & <- & HDc & Hms). pose proof (D_wf _ HDc) as (Wc & _). cbn in Wc.
  unfold union_results in Hr. apply list_elem_of_bind in Hr as (kt & Hr & Hkt). destruct (existsb _ ms) eqn:Ex; [|by apply not_elem_of_nil in Hr].
  apply existsb_exists in Ex as (m & Hm%list_elem_of_In & Hty). rewrite (types_range _ _ Hkt) in Hty.
  destruct (find_with RDF_Type kt.1 l) as [t|] eqn:Ef; [|by apply not_elem_of_nil in Hr].
  destruct (find_with OWL_UnionOf (TermKey c) l) as [ut|] eqn:Eu; [|by apply not_elem_of_nil in Hr]. unfold subject_of in Hr. apply list_elem_of_singleton in Hr as ->.
  destruct (find_class OWL_UnionOf _ c ut ltac:(by eexists) eq_refl Wc Eu) as [-> _]. apply find_with_Some in Ef as (Ht & _ & Ks).
  pose proof (D_wf _ (HD t Ht)) as (Ws & _). rewrite <- Ks in Hty. pose proof (Hms m Hm) as Hmem.
  apply type_elem in Hty; [|done|by eapply list_member_wf]. eapply (c_uni D LI); [exact HDc|exact Hmem|by apply HD].
Qed.

Lemma oneOf_sound : Forall D (range (oneOfMembers e) ≫= λ cm : string * list Term, oneOf_results l cm.1 cm.2).
Proof using D_wf He D_closed HD LI.
  apply Forall_forall. intros r ([ck ms] & Hr & Hk)%list_elem_of_bind. rewrite range_perm, elem_of_map_to_list in Hk. cbn [fst snd] in Hr.
  destruct (os_one D e He ck ms Hk) as (c & ls & <- & HDc & Hms). pose proof (D_wf _ HDc) as (Wc & _). cbn in Wc. unfold oneOf_results in Hr.
  destruct (find_with OWL_OneOf (TermKey c) l) as [t|] eqn:Ef; [|by apply not_elem_of_nil in Hr]. cbn [subject_of] in Hr.
  destruct (find_class OWL_OneOf _ c t ltac:(by eexists) eq_refl Wc Ef) as [Es _]. rewrite Es in Hr.
  apply list_elem_of_fmap in Hr as (m & -> & [Hm Sm]%elem_filter_bool). eapply (c_oo D LI); [exact HDc|by apply Hms|done].
Qed.
End pass.

(** An axiom between two IRIs, found from either side. *)
Lemma linked_in (D S : Triple → Prop) (D_wf : ∀ t, D t → triple_wf t) (S_D : ∀ t, S t → D t) p m x q :
  linked D p m → linked_complete S p m → S (MkTriple (U x) p (U q)) → q ∈ entries m (uri_key x) ∧ x ∈ entries m (uri_key q).
Proof.
  intros Hs Hm Hx. destruct (Hm x q Hx) as [H1 H2]. pose proof (D_wf _ (S_D _ Hx)) as (Wx & _ & _ & Wq). cbn in Wx, Wq.
  assert (Hin : ∀ k a, uri_ok a → uri_key a ∈ uri_key <$> entries m k → a ∈ entries m k).
  { intros k a Wa (a' & Ka & Ha)%list_elem_of_fmap. assert (a = a') as ->; [|done]. apply uri_key_inj; [done| |done].
    destruct (Hs k a' Ha) as (y & _ & [Hy|Hy]); apply D_wf in Hy as (? & _ & _ & ?); done. }
  split; by apply Hin.
Qed.
