(* ===== verification/OwlClash.v ===== *)
(** * OWL 2 RL: what the consistency checks report

    Every inconsistency reported is one of the graph, and of those that a fixed
    number of triples shows none is missed. *)

From S2P Require Import Prelude GoStrings Strconv Term TermKey TripleIndex Store MemoryStore Graph Collection Reasoning Rdfs RdfsCorrect UnionFind Owl OwlRules OwlEngine OwlSpec OwlIndex OwlBuild OwlPasses.
From stdpp Require Import relations options.

(** ** Inconsistencies *)

Section clashes.
Context (S : Triple → Prop).

(** Two members of a list said to be disjoint, at different places. *)
Definition disjoint_members (c p q : URIRef) : Prop :=
  ∃ us i j, disjoint_group S c us ∧ i < j ∧ us !! i = Some p ∧ us !! j = Some q.
Definition either_way (p : URIRef) (x y : Term) : Prop := S (MkTriple x p y) ∨ S (MkTriple y p x).

(** The premises of the rules that conclude [false]. *)
Inductive owl_clash : string → Prop :=
| clash_nothing x : S (MkTriple x RDF_Type (U OWL_Nothing)) → owl_clash "cls-nothing2"
| clash_irp p x : S (MkTriple (U p) RDF_Type (U OWL_IrreflexiveProperty)) → S (MkTriple x p x) → owl_clash "prp-irp"
| clash_asyp p x y : S (MkTriple (U p) RDF_Type (U OWL_AsymmetricProperty)) → S (MkTriple x p y) → S (MkTriple y p x) → owl_clash "prp-asyp"
| clash_pdw p q x y : either_way OWL_PropertyDisjointWith (U p) (U q) → S (MkTriple x p y) → S (MkTriple x q y) → owl_clash "prp-pdw"
| clash_adp p q x y : disjoint_members OWL_AllDisjointProperties p q → S (MkTriple x p y) → S (MkTriple x q y) → owl_clash "prp-adp"
| clash_dw c d x : either_way OWL_DisjointWith (U c) (U d) → S (MkTriple x RDF_Type (U c)) → S (MkTriple x RDF_Type (U d)) → owl_clash "cax-dw"
| clash_adc c d x : disjoint_members OWL_AllDisjointClasses c d → S (MkTriple x RDF_Type (U c)) → S (MkTriple x RDF_Type (U d)) → owl_clash "cax-adc"
| clash_diff x y : same_as S x y → either_way OWL_DifferentFrom x y → owl_clash "eq-diff1"
| clash_com c d x : S (MkTriple c OWL_ComplementOf d) → S (MkTriple x RDF_Type c) → S (MkTriple x RDF_Type d) → owl_clash "cls-com"
| clash_maxc1 r p x y : restriction_on S r p → says_card S r OWL_MaxCardinality 0 → S (MkTriple x RDF_Type r) → S (MkTriple x p y) → owl_clash "cls-maxc1"
| clash_maxqc1 r p c x y : restriction_on S r p → says_card S r OWL_MaxQualifiedCardinality 0 → S (MkTriple r OWL_OnClass c) →
    S (MkTriple x RDF_Type r) → S (MkTriple x p y) → S (MkTriple y RDF_Type c) → owl_clash "cls-maxqc1"
| clash_maxqc2 r p x y : restriction_on S r p → says_card S r OWL_MaxQualifiedCardinality 0 → S (MkTriple r OWL_OnClass (U OWL_Thing)) →
    S (MkTriple x RDF_Type r) → S (MkTriple x p y) → owl_clash "cls-maxqc2"
| clash_npa1 n s p t : S (MkTriple n OWL_SourceIndividual s) → S (MkTriple n OWL_AssertionProperty (U p)) → S (MkTriple n OWL_TargetIndividual t) →
    S (MkTriple s p t) → owl_clash "prp-npa1"
| clash_npa2 n s p t : S (MkTriple n OWL_SourceIndividual s) → S (MkTriple n OWL_AssertionProperty (U p)) → S (MkTriple n OWL_TargetValue t) →
    S (MkTriple s p t) → owl_clash "prp-npa2".

(** Those that the checks cannot miss; a pair is reported in one of its two orders,
    so the two have to differ. *)
Inductive plain_clash : string → Prop :=
| plain_nothing x : S (MkTriple x RDF_Type (U OWL_Nothing)) → plain_clash "cls-nothing2"
| plain_irp p x : S (MkTriple (U p) RDF_Type (U OWL_IrreflexiveProperty)) → S (MkTriple x p x) → plain_clash "prp-irp"
| plain_asyp p x y : S (MkTriple (U p) RDF_Type (U OWL_AsymmetricProperty)) → S (MkTriple x p y) → S (MkTriple y p x) → x ≠ y → plain_clash "prp-asyp"
| plain_pdw p q x y : either_way OWL_PropertyDisjointWith (U p) (U q) → S (MkTriple x p y) → S (MkTriple x q y) → p ≠ q → plain_clash "prp-pdw"
| plain_dw c d x : either_way OWL_DisjointWith (U c) (U d) → S (MkTriple x RDF_Type (U c)) → S (MkTriple x RDF_Type (U d)) → c ≠ d → plain_clash "cax-dw"
| plain_diff x y : same_as S x y → S (MkTriple x OWL_DifferentFrom y) → isSubject y = true → x ≠ y → plain_clash "eq-diff1".
End clashes.

(** ** The order of keys, and classes *)

Lemma str_lt_irrefl a : str_lt a a = false.
Proof. unfold str_lt, String.ltb. pose proof (String.compare_antisym a a) as E. by destruct (String.compare a a). Qed.

Lemma str_lt_total a b : a ≠ b → str_lt a b = true ∨ str_lt b a = true.
Proof.
  unfold str_lt, String.ltb. intros Hne. rewrite (String.compare_antisym b a). destruct (String.compare a b) eqn:E; cbn; [|by left|by right].
  by apply String.compare_eq_iff in E.
Qed.

Lemma same_classes_trans u v w : same_classes u v → same_classes v w → same_classes u w.
Proof. intros (A1 & A2 & A3) (B1 & B2 & B3). split; [intros k r; by rewrite B1, A1|]. split; congruence. Qed.

Lemma rep_same_classes u v k r : same_classes u v → uf_ok u → uf_ok v → rep u k r → rep v k r.
Proof.
  intros (Hr & _ & Ht) Hu Hv. unfold rep. destruct (parent u !! k) as [p|] eqn:E.
  - intros Hroot. apply Hr in Hroot. destruct (root_dom _ _ _ Hroot) as [q ->]. done.
  - intros ->. destruct (parent v !! k) as [q|] eqn:E'; [|done]. assert (Hs : is_Some (parent v !! k)) by (by eexists).
    apply (proj1 (proj2 Hv)) in Hs. rewrite Ht in Hs. apply (proj1 (proj2 Hu)) in Hs. rewrite E in Hs. by destruct Hs.
Qed.

(** ** The scans *)

Lemma foldl_pair {A B T} (f : A → T → A) (h : B → T → B) l : ∀ a b, foldl (λ ab t, (f ab.1 t, h ab.2 t)) (a, b) l = (foldl f a l, foldl h b l).
Proof. induction l as [|t l IH]; intros a b; [done|]. cbn. apply IH. Qed.

Lemma triples_collect {A} (fn : Triple → stopper → list A → bool * stopper * list A) (f : Triple → list A) l :
  (∀ t s acc, t ∈ l → ∃ s' r, fn t s acc = (true, s', acc ++ r) ∧ step_to s s' (r = f t)) →
  ∀ s acc, ∃ s' r, triples_go fn (Ok <$> l) s acc = (s', acc ++ r) ∧ step_to s s' (r = l ≫= f).
Proof.
  induction l as [|t l IH]; intros Hfn s acc; cbn [fmap list_fmap triples_go].
  { exists s, []. rewrite app_nil_r. split; [done|]. by split. }
  destruct (Hfn t s acc ltac:(by left)) as (s1 & r1 & -> & S1).
  destruct (IH (λ t s acc Ht, Hfn t s acc ltac:(by right)) s1 (acc ++ r1)) as (s2 & r2 & -> & S2).
  exists s2, (r1 ++ r2). rewrite <- app_assoc. split; [done|]. eapply step_to_mono; [|exact (step_to_trans _ _ _ _ _ S1 S2)]. by intros [-> ->].
Qed.

Section checks.
Context {St : Type} {store_St : Store St} {laws_St : StoreLaws St} `{GoRange} (g : Graph_) (st : St) (Hst : sinv st).
Abbreviation has t := (t ∈ graph_triples (graph_of st g)).
Context (D : Triple → Prop) (D_wf : ∀ t, D t → triple_wf t) (HD : ∀ t, has t → D t).
Context (e : owlIndexes) (He : owl_sound D e).

Lemma sp_contains_ok sub p o s : triple_wf (MkTriple sub p o) →
  ∃ b s', sp_contains g sub p o st s = (b, s') ∧ step_to s s' (b = true ↔ has (MkTriple sub p o)).
Proof using D_wf Hst HD.
  intros Hw. unfold sp_contains. destruct (sp_err s) as [er|] eqn:E.
  { exists false, s. split; [done|]. split; [reflexivity|]. unfold halted. by rewrite E. }
  unfold observe. destruct (sp_ctx s (sp_seen s)) as [er|] eqn:Ec.
  - unfold g_Contains. rewrite triples_done. cbn [ErrorIterator]. set (s1 := MkStop _ _ _ _). destruct (sp_fail_halted "reading the graph" er s1) as [H1 H2].
    exists false. eexists. split; [done|]. split; [|congruence]. split_and!; [exact H2|done|]. intros Hb. by rewrite Hb in Ec.
  - pose proof (g_contains_ok st g (MkTriple sub p o) Hst Hw) as Eg. cbn [Subject Predicate Object] in Eg. rewrite Eg. eexists _, _. split; [done|]. split; [exact (observe_later s)|]. intros _.
    pose proof (graph_of_keyed st g Hst) as Hk. rewrite bool_decide_eq_true. split.
    + intros [u Hu]. pose proof (Hk _ _ Hu) as Ku. assert (Hin : has u) by (apply graph_triples_elem; [done|]; by rewrite Ku).
      pose proof (D_wf u (HD u Hin)) as (W1 & _ & W2 & W3). destruct Hw as (V1 & _ & V2 & V3). cbn in V1, V2, V3.
      destruct u as [a q c]. cbn in *. unfold tkey in Ku. cbn in Ku. injection Ku as K1 K2 K3.
      by rewrite <- (TermKey_inj a sub W1 V1 K1), <- (uri_key_inj q p W2 V2 K2), <- (TermKey_inj c o W3 V3 K3).
    + intros Ht. apply graph_triples_elem in Ht; [|done]. by eexists.
Qed.

(** What the two checks that look into the store report for a triple. *)
Definition asym_report (both : bool) (t : Triple) : list Inconsistency :=
  if both && str_lt (TermKey (Subject t)) (TermKey (Object t))
  then [MkInconsistency "prp-asyp" (n3 (Subject t) +:+ " " +:+ n3u (Predicate t) +:+ " " +:+ n3 (Object t) +:+ " and reverse violates asymmetry")] else [].
Definition pdw_report (both : bool) (t : Triple) (p2 : URIRef) : list Inconsistency :=
  if both && str_lt (uri_key (Predicate t)) (uri_key p2)
  then [MkInconsistency "prp-pdw" (n3 (Subject t) +:+ " has disjoint properties " +:+ n3u (Predicate t) +:+ " and " +:+ n3u p2 +:+
         " with same value " +:+ n3 (Object t))] else [].

Definition has_b (t : Triple) : bool := bool_decide (has t).
Definition asym_results (t : Triple) : list Inconsistency :=
  if bool_decide (uri_key (Predicate t) ∈ asymmetricProps e) && isSubject (Object t)
  then asym_report (has_b (MkTriple (Object t) (Predicate t) (Subject t))) t else [].
Definition pdw_results (t : Triple) : list Inconsistency :=
  entries (propDisjointWith e) (uri_key (Predicate t)) ≫= λ p2, pdw_report (has_b (MkTriple (Subject t) p2 (Object t))) t p2.

Lemma has_b_of (b : bool) t : (b = true ↔ has t) → b = has_b t.
Proof. unfold has_b. destruct b; intros [H1 H2]; symmetry; [apply bool_decide_eq_true; auto|apply bool_decide_eq_false; intros Ht; by apply H2 in Ht]. Qed.

Lemma check_asymmetric_ok t s acc : has t → ∃ s' r, check_asymmetric g e st t s acc = (true, s', acc ++ r) ∧ step_to s s' (r = asym_results t).
Proof using D_wf Hst HD.
  intros Ht. pose proof (D_wf t (HD t Ht)) as (W1 & W0 & W2 & W3). unfold check_asymmetric, asym_results.
  case_bool_decide as Ea; cbn [negb andb]; [|exists s, []; rewrite app_nil_r; split; [done|]; by split].
  destruct (isSubject (Object t)) eqn:Es; [|exists s, []; rewrite app_nil_r; split; [done|]; by split].
  destruct (sp_contains_ok (Object t) (Predicate t) (Subject t) s) as (both & s1 & -> & S1); [by split_and!|].
  exists s1, (asym_report both t). split; [unfold asym_report; destruct (both && _); by rewrite ?app_nil_r|].
  eapply step_to_mono; [|exact S1]. intros Hb%has_b_of. by rewrite Hb.
Qed.

Lemma linked_ok p m k q : linked D p m → q ∈ entries m k → uri_ok q.
Proof using D_wf. intros Hl Hq. destruct (Hl k q Hq) as (x & _ & [Hx|Hx]); by apply D_wf in Hx as (? & _ & _ & ?). Qed.

Lemma check_pdw_ok t ps : has t → (∀ p, p ∈ ps → uri_ok p) → ∀ s acc, ∃ s' r, check_pdw g st t ps s acc = (s', acc ++ r) ∧
  step_to s s' (r = ps ≫= λ p2, pdw_report (has_b (MkTriple (Subject t) p2 (Object t))) t p2).
Proof using D_wf Hst HD.
  intros Ht. pose proof (D_wf t (HD t Ht)) as (W1 & W0 & W2 & W3). induction ps as [|p ps IH]; intros Hps s acc; cbn [check_pdw].
  { exists s, []. rewrite app_nil_r. split; [done|]. by split. }
  destruct (sp_contains_ok (Subject t) p (Object t) s) as (both & s1 & -> & S1); [split_and!; [done|done|apply Hps; by left|done]|].
  set (acc' := if both && _ then _ else acc). assert (Hacc : acc' = acc ++ pdw_report both t p) by (unfold acc', pdw_report; destruct (both && _); by rewrite ?app_nil_r).
  destruct (IH (λ q Hq, Hps q ltac:(by right)) s1 acc') as (s2 & r & -> & S2). exists s2, (pdw_report both t p ++ r). rewrite Hacc, <- app_assoc. split; [done|].
  eapply step_to_mono; [|exact (step_to_trans _ _ _ _ _ S1 S2)]. intros [Hb%has_b_of ->]. by rewrite Hb.
Qed.

Definition irp_results (t : Triple) : list Inconsistency := check_irreflexive e t [].

Lemma irp_scan l : foldl (λ a t, check_irreflexive e t a) [] l = l ≫= irp_results.
Proof.
  assert (Hgo : ∀ acc, foldl (λ a t, check_irreflexive e t a) acc l = acc ++ (l ≫= irp_results)); [|apply Hgo].
  induction l as [|t l IH]; intros acc; [by rewrite app_nil_r|]. cbn [foldl]. rewrite IH. change ((t :: l) ≫= irp_results) with (irp_results t ++ (l ≫= irp_results)).
  rewrite app_assoc. f_equal. unfold irp_results, check_irreflexive. destruct (_ && _); [done|by rewrite app_nil_r].
Qed.

Lemma scan_all_ok (fn : Triple → stopper → list Inconsistency → bool * stopper * list Inconsistency) f s :
  (∀ t s acc, has t → ∃ s' r, fn t s acc = (true, s', acc ++ r) ∧ step_to s s' (r = f t)) →
  ∃ s' r, sp_triples g None None None fn st s [] = (s', r) ∧ step_to s s' (∃ l, (∀ t, t ∈ l ↔ has t) ∧ r = l ≫= f).
Proof using Hst.
  intros Hfn. destruct (halted s) eqn:Eh; [exists s, []; rewrite sp_triples_halted by done; split; [done|]; split; [done|congruence]|].
  destruct (sp_triples_spec g None None None fn st s [] Hst Eh) as [(l & s1 & Hl & _ & L1 & _ & ->)|(s1 & L1 & E1 & ->)].
  2:{ exists s1, []. split; [done|]. split; [done|congruence]. }
  rewrite matching_all in Hl. destruct (triples_collect fn f l) with s1 ([] : list Inconsistency) as (s2 & r & -> & S2); [intros t s0 acc Ht; apply Hfn; by rewrite <- Hl|].
  exists s2, r. split; [done|]. split; [etrans; [exact L1|apply S2]|]. intros Hf. exists l. split; [intros t; by rewrite Hl|by apply S2].
Qed.

(** The reports, when nothing was cut short. *)
Lemma checkConsistency_ok s ic s' : checkConsistency g e st s = (ic, s') → halted s' = false →
  ∃ l l1 l2 l3, l ≡ₚ graph_triples (graph_of st g) ∧ (∀ t, t ∈ l1 ↔ has t) ∧ (∀ t, t ∈ l2 ↔ has t) ∧ (∀ t, t ∈ l3 ↔ has t) ∧
    let x := class_indexes l in ic =
    check_nothing x ++ (l1 ≫= irp_results) ++ (l2 ≫= asym_results) ++ (l3 ≫= pdw_results) ++
    (allDisjointProps e ≫= check_disjoint_properties x) ++ check_disjoint_with e x ++
    (allDisjointClass e ≫= check_disjoint_classes x) ++
    check_different (range (differentFrom e) ≫= λ kd : string * list Term, (λ d, (kd.1, d)) <$> kd.2) (uf e) ++
    check_complements e x ++ (restrictions e ≫= λ r, check_maxCard x r ++ check_maxQualCard x r) ++ (negPropAsserts e ≫= check_npa x).
Proof using D_wf Hst HD He.
  unfold checkConsistency. intros E Hf.
  destruct (sp_scan_spec g None None None (λ t ix, (index_type ix.1 t, index_object ix.2 t)) st s (∅, ∅) Hst) as (l & s1 & E1 & L1 & _ & C1). rewrite E1 in E. clear E1.
  rewrite (foldl_pair index_type index_object) in E.
  destruct (sp_scan_spec g None None None (check_irreflexive e) st s1 [] Hst) as (l1 & s2 & E2 & L2 & _ & C2). rewrite E2 in E. clear E2. rewrite irp_scan in E.
  destruct (scan_all_ok (check_asymmetric g e st) asym_results s2) as (s3 & r3 & E3 & L3 & C3); [intros t s0 acc Ht; by apply check_asymmetric_ok|]. rewrite E3 in E. clear E3.
  destruct (scan_all_ok (check_property_disjoint g e st) pdw_results s3) as (s4 & r4 & E4 & L4 & C4).
  { intros t s0 acc Ht. unfold check_property_disjoint. destruct (check_pdw_ok t (entries (propDisjointWith e) (uri_key (Predicate t))) Ht) with s0 acc as (s5 & r & -> & S5).
    - intros p Hp. by eapply linked_ok; [apply (os_pdw D e He)|].
    - by exists s5, r. }
  rewrite E4 in E. clear E4. injection E as <- <-.
  pose proof (later_running _ _ L4 Hf) as R3. pose proof (later_running _ _ L3 R3) as R2. pose proof (later_running _ _ L2 R2) as R1.
  destruct C1 as [C1|C1]; [congruence|]. destruct C2 as [C2|C2]; [congruence|]. rewrite matching_all in C1, C2.
  destruct (C3 R3) as (l2 & Hl2 & ->), (C4 Hf) as (l3 & Hl3 & ->). exists l, l1, l2, l3. split; [done|]. split; [intros t; by rewrite C2|]. split; [done|]. by split.
Qed.

(** ** Reports are inconsistencies *)

Abbreviation clashes ic := (Forall (λ i, owl_clash D (Rule i)) ic).

Lemma clashes_bind {A} (f : A → list Inconsistency) xs : (∀ x, x ∈ xs → clashes (f x)) → clashes (xs ≫= f).
Proof. intros Hf. apply Forall_forall. intros i (x & Hi & Hx)%list_elem_of_bind. specialize (Hf x Hx). rewrite Forall_forall in Hf. by apply Hf. Qed.

Lemma irp_sound t : D t → clashes (irp_results t).
Proof using D_wf He.
  intros Ht. unfold irp_results, check_irreflexive. case_bool_decide as Ei; cbn [andb]; [|constructor]. destruct (is_key _ _) eqn:Ek; [|constructor].
  constructor; [|constructor]. apply is_key_iff in Ek. pose proof (D_wf t Ht) as (W1 & _ & _ & W3). apply TermKey_inj in Ek; [|done|done].
  apply (clash_irp D (Predicate t) (Subject t)); [by eapply typed_pred; [exact D_wf|apply (os_irr D e He)|..]|]. rewrite Ek at 2. by destruct t.
Qed.

Lemma asym_sound t : D t → clashes (asym_results t).
Proof using D_wf HD He.
  intros Ht. unfold asym_results. case_bool_decide as Ea; cbn [andb]; [|constructor]. destruct (isSubject (Object t)); [|constructor].
  unfold asym_report. destruct (has_b _) eqn:Eb; cbn [andb]; [|constructor]. destruct (str_lt _ _); [|constructor]. constructor; [|constructor].
  apply bool_decide_eq_true in Eb. apply (clash_asyp D (Predicate t) (Subject t) (Object t)); [by eapply typed_pred; [exact D_wf|apply (os_asym D e He)|..]|by destruct t|by apply HD].
Qed.

Lemma pdw_sound t : D t → clashes (pdw_results t).
Proof using D_wf HD He.
  intros Ht. apply clashes_bind. intros q Hq. unfold pdw_report. destruct (has_b _) eqn:Eb; cbn [andb]; [|constructor]. destruct (str_lt _ _); [|constructor].
  constructor; [|constructor]. apply bool_decide_eq_true in Eb. apply (clash_pdw D (Predicate t) q (Subject t) (Object t)); [|by destruct t|by apply HD].
  by eapply linked_pred; [exact D_wf|by eexists|apply (os_pdw D e He)|..].
Qed.

Section indexes.
Context (l : list Triple) (Hl : ∀ t, t ∈ l → D t).
Let x : classIndexes := class_indexes l.

(** What a type in the index says, and an object. *)
Lemma typed_of kt ck : kt ∈ range (typeIndex x) → has_type kt.2 ck = true → ∃ s c, TermKey s = kt.1 ∧ TermKey c = ck ∧ D (MkTriple s RDF_Type c).
Proof using D_wf Hl.
  intros Hkt Hty. rewrite (types_range _ _ Hkt) in Hty. change (typeIndex x) with (foldl index_type ∅ l) in Hty.
  apply index_type_elem in Hty as (t & Ht & Kp & Ks & Ko). exists (Subject t), (Object t). split; [done|]. split; [done|].
  apply Hl in Ht. rewrite <- (pred_eq D D_wf t RDF_Type Ht ltac:(by eexists) Kp). by destruct t.
Qed.

Lemma class_of_key kt c : term_wf c → kt ∈ range (typeIndex x) → has_type kt.2 (TermKey c) = true → ∃ s, TermKey s = kt.1 ∧ D (MkTriple s RDF_Type c).
Proof using D_wf Hl.
  intros Wc Hkt Hty. destruct (typed_of kt _ Hkt Hty) as (s & c' & Ks & Kc & HDs). exists s. split; [done|].
  assert (c' = c) as <-; [|done]. apply TermKey_inj; [by apply D_wf in HDs as (_ & _ & _ & ?)|done|done].
Qed.

Lemma object_of k o : o ∈ entries2 (propObjs x) k → ∃ s p, TermKey s = k.1 ∧ uri_key p = k.2 ∧ D (MkTriple s p o).
Proof using Hl.
  change (propObjs x) with (foldl index_object ∅ l). rewrite index_object_group, group2_elem. intros (t & Ht & _ & <- & <-).
  exists (Subject t), (Predicate t). split; [done|]. split; [done|]. apply Hl in Ht. by destruct t.
Qed.

Lemma object_D s p o : term_wf s → uri_ok p → o ∈ entries2 (propObjs x) (TermKey s, uri_key p) → D (MkTriple s p o).
Proof using D_wf Hl. apply (objs_D D D_wf l Hl). Qed.

Lemma one_subject s s' p o c : D (MkTriple s p o) → D (MkTriple s' RDF_Type c) → TermKey s = TermKey s' → s = s'.
Proof using D_wf. intros H1 H2 Hk. apply D_wf in H1 as (? & _), H2 as (? & _). by apply TermKey_inj. Qed.

Lemma nothing_sound : clashes (check_nothing x).
Proof using D_wf Hl.
  apply clashes_bind. intros kt Hkt. destruct (has_type _ _) eqn:Et; [|constructor]. constructor; [|constructor].
  destruct (class_of_key kt (U OWL_Nothing) ltac:(by eexists) Hkt Et) as (s & _ & Hs). by apply (clash_nothing D s).
Qed.

Lemma group_pairs_elem {A} (us : list A) p q : (p, q) ∈ group_pairs us → ∃ i j, i < j ∧ us !! i = Some p ∧ us !! j = Some q.
Proof.
  induction us as [|u us IH]; cbn [group_pairs]; [by intros ?%not_elem_of_nil|]. intros [(y & [= -> ->] & Hy)%list_elem_of_fmap|Hin]%elem_of_app.
  - apply list_elem_of_lookup in Hy as (j & Hj). exists 0, (S j). split; [lia|]. by split.
  - destruct (IH Hin) as (i & j & Hij & Hi & Hj). exists (S i), (S j). split; [lia|]. by split.
Qed.

Lemma group_uris c us p : disjoint_group D c us → p ∈ us → uri_ok p.
Proof using D_wf.
  intros (n & ls & ms & _ & _ & Hms & ->) (m & Hm & Em)%list_elem_of_omap. pose proof (list_prefix_member _ _ _ _ Hms Hm) as Hmem.
  assert (term_wf m) as Wm by (eapply list_member_wf; [exact D_wf|exact Hmem]). destruct m as [u| | | |]; cbn in Em; [|done..]. by injection Em as <-.
Qed.

Lemma adp_sound us : disjoint_group D OWL_AllDisjointProperties us → clashes (check_disjoint_properties x us).
Proof using D_wf Hl.
  intros Hus. apply clashes_bind. intros [p q] Hpq. destruct (group_pairs_elem us p q Hpq) as (i & j & Hij & Hi & Hj). cbn [fst snd].
  pose proof (group_uris _ _ p Hus ltac:(by eapply list_elem_of_lookup_2)) as Wp. pose proof (group_uris _ _ q Hus ltac:(by eapply list_elem_of_lookup_2)) as Wq.
  apply clashes_bind. intros [[sk pk] objs] Hko. cbn [fst snd]. destruct (String.eqb_spec pk (uri_key p)) as [->|_]; cbn [negb]; [|constructor].
  assert (objs = entries2 (propObjs x) (sk, uri_key p)) as ->.
  { change (propObjs x) with (foldl index_object ∅ l) in *. rewrite index_object_group in *. by apply group2_range in Hko. }
  apply clashes_bind. intros o Ho. apply clashes_bind. intros o' Ho'. destruct (is_key _ _) eqn:Ek; [|constructor]. constructor; [|constructor].
  apply is_key_iff in Ek. apply object_of in Ho as (s & p' & Ks & Kp & Ho). apply object_of in Ho' as (s' & q' & Ks' & Kq & Ho'). cbn [fst snd] in *.
  pose proof (D_wf _ Ho) as (V1 & _ & V2 & V3). pose proof (D_wf _ Ho') as (V1' & _ & V2' & V3'). cbn in V1, V2, V3, V1', V2', V3'.
  assert (p' = p) as -> by (by apply uri_key_inj). assert (q' = q) as -> by (by apply uri_key_inj). assert (o' = o) as -> by (by apply TermKey_inj).
  assert (s' = s) as -> by (apply TermKey_inj; [done|done|congruence]). apply (clash_adp D p q s o); [by exists us, i, j|done|done].
Qed.

Lemma dw_sound : clashes (check_disjoint_with e x).
Proof using D_wf He Hl.
  apply clashes_bind. intros kt Hkt. apply clashes_bind. intros [ck []] Hck. apply clashes_bind. intros d Hd. cbn [fst snd] in *.
  destruct (has_type kt.2 (uri_key d)) eqn:Ed; cbn [andb]; [|constructor]. destruct (str_lt _ _); [|constructor]. constructor; [|constructor].
  assert (Ec : has_type kt.2 ck = true) by (rewrite range_perm, elem_of_map_to_list in Hck; unfold has_type; by rewrite Hck).
  destruct (os_dw D e He ck d Hd) as (c & <- & Hcd). assert (Hw : uri_ok c ∧ uri_ok d) by (destruct Hcd as [Hx|Hx]; apply D_wf in Hx as (? & _ & _ & ?); by split).
  destruct (class_of_key kt (U c) (proj1 Hw) Hkt Ec) as (s & Ks & Hs). destruct (class_of_key kt (U d) (proj2 Hw) Hkt Ed) as (s' & Ks' & Hs').
  apply (clash_dw D c d s); [exact Hcd|done|]. by rewrite (one_subject s s' _ _ _ Hs Hs' ltac:(congruence)).
Qed.

Lemma filter_two {A} (f : A → bool) us p q rest : List.filter f us = p :: q :: rest → ∃ i j, i < j ∧ us !! i = Some p ∧ us !! j = Some q ∧ f p = true ∧ f q = true.
Proof.
  intros E. assert (Hpq : ∃ us1 us2 us3, us = us1 ++ p :: us2 ++ q :: us3).
  { induction us as [|u us IH]; [done|]. cbn [List.filter] in E. destruct (f u).
    - injection E as -> E. assert (Hq : q ∈ us) by (apply (elem_filter_bool f); rewrite E; by left).
      apply list_elem_of_split in Hq as (us2 & us3 & ->). by exists [], us2, us3.
    - destruct (IH E) as (us1 & us2 & us3 & ->). by exists (u :: us1), us2, us3. }
  assert (Hin : ∀ y, y ∈ p :: q :: rest → f y = true) by (intros y Hy; rewrite <- E in Hy; by apply elem_filter_bool in Hy as [_ ?]).
  destruct Hpq as (us1 & us2 & us3 & ->). exists (length us1), (length us1 + S (length us2)). split; [lia|]. split; [by apply list_lookup_middle|]. split.
  - rewrite lookup_app_r by lia. replace (length us1 + S (length us2) - length us1) with (S (length us2)) by lia. cbn. by apply list_lookup_middle.
  - split; apply Hin; [by left|right; by left].
Qed.

Lemma adc_sound us : disjoint_group D OWL_AllDisjointClasses us → clashes (check_disjoint_classes x us).
Proof using D_wf Hl.
  intros Hus. apply clashes_bind. intros kt Hkt. destruct (List.filter _ us) as [|c [|d rest]] eqn:Ef; [constructor|constructor|]. constructor; [|constructor].
  destruct (filter_two _ _ _ _ _ Ef) as (i & j & Hij & Hi & Hj & Tc & Td).
  destruct (class_of_key kt (U c)) as (s & Ks & Hs); [by eapply group_uris, list_elem_of_lookup_2|done|done|].
  destruct (class_of_key kt (U d)) as (s' & Ks' & Hs'); [by eapply group_uris, list_elem_of_lookup_2|done|done|].
  apply (clash_adc D c d s); [by exists us, i, j|done|]. by rewrite (one_subject s s' _ _ _ Hs Hs' ltac:(congruence)).
Qed.

Lemma com_sound : clashes (check_complements e x).
Proof using D_wf He Hl.
  apply clashes_bind. intros [ck d] Hcd. rewrite range_perm, elem_of_map_to_list in Hcd. apply clashes_bind. intros kt Hkt. cbn [fst snd].
  destruct (has_type kt.2 ck) eqn:Ec; cbn [andb]; [|constructor]. destruct (has_type kt.2 (TermKey d)) eqn:Ed; [|constructor]. constructor; [|constructor].
  destruct (os_com D e He ck d Hcd) as (c & <- & Hc). pose proof (D_wf _ Hc) as (Wc & _ & _ & Wd).
  destruct (class_of_key kt c Wc Hkt Ec) as (s & Ks & Hs). destruct (class_of_key kt d Wd Hkt Ed) as (s' & Ks' & Hs').
  apply (clash_com D c d s); [done|done|]. by rewrite (one_subject s s' _ _ _ Hs Hs' ltac:(congruence)).
Qed.

Lemma npa_reports_sound a : npa_sound D a → clashes (check_npa x a).
Proof using D_wf Hl.
  intros (n & _ & Hsrc & Hp & Hi & Hv). pose proof (D_wf _ Hsrc) as (_ & _ & _ & Ws). pose proof (D_wf _ Hp) as (_ & _ & _ & Wp). cbn in Ws, Wp.
  apply clashes_bind. intros o Ho. apply object_D in Ho; [|done|done]. pose proof (D_wf _ Ho) as (_ & _ & _ & Wo). cbn in Wo. apply Forall_app. split.
  - destruct (npa_targetI a) as [t|] eqn:Et; [|constructor]. destruct (is_key _ _) eqn:Ek; [|constructor]. constructor; [|constructor].
    apply is_key_iff in Ek. specialize (Hi t eq_refl). assert (o = t) as -> by (apply TermKey_inj; [done|by apply D_wf in Hi as (_ & _ & _ & ?)|done]).
    by apply (clash_npa1 D n (npa_source a) (npa_property a) t).
  - destruct (npa_targetV a) as [t|] eqn:Et; [|constructor]. destruct (is_key _ _) eqn:Ek; [|constructor]. constructor; [|constructor].
    apply is_key_iff in Ek. specialize (Hv t eq_refl). assert (o = t) as -> by (apply TermKey_inj; [done|by apply D_wf in Hv as (_ & _ & _ & ?)|done]).
    by apply (clash_npa2 D n (npa_source a) (npa_property a) t).
Qed.

Lemma maxCard_reports_sound r : restriction_sound D r → clashes (check_maxCard x r).
Proof using D_wf Hl.
  intros Hr. destruct (restriction_parts D D_wf r Hr) as (Hn & Hp & Wn). unfold check_maxCard. destruct (Z.eqb_spec (maxCard r) 0) as [Em|_]; cbn [negb]; [|constructor].
  apply clashes_bind. intros sk Hsk. destruct (instance_D D D_wf l Hl sk (r_node r) Hn Hsk) as (s & <- & Ws & Hs).
  destruct (entries2 (propObjs x) (TermKey s, uri_key (onProperty r))) as [|o os] eqn:Eo; cbn; [constructor|]. constructor; [|constructor].
  apply (clash_maxc1 D (r_node r) (onProperty r) s o); [apply (rs_on D r Hr)|apply (rs_mc D r Hr 0 Em); lia|done|]. apply object_D; [done|done|]. rewrite Eo. by left.
Qed.

Lemma maxQualCard_reports_sound r : restriction_sound D r → clashes (check_maxQualCard x r).
Proof using D_wf Hl.
  intros Hr. destruct (restriction_parts D D_wf r Hr) as (Hn & Hp & Wn). unfold check_maxQualCard. destruct (onClass r) as [c|] eqn:Ec; [|constructor].
  destruct (Z.eqb_spec (maxQualCard r) 0) as [Em|_]; cbn [negb]; [|constructor]. pose proof (rs_onc D r Hr c Ec) as Hc. pose proof (D_wf _ Hc) as (_ & _ & _ & Wc). cbn in Wc.
  pose proof (rs_mqc D r Hr 0 Em ltac:(lia)) as Hcard.
  apply clashes_bind. intros sk Hsk. destruct (instance_D D D_wf l Hl sk (r_node r) Hn Hsk) as (s & <- & Ws & Hs). cbn zeta. destruct (is_key _ c) eqn:Et.
  - apply is_key_iff in Et. assert (c = U OWL_Thing) as -> by (apply TermKey_inj; [done|by eexists|done]).
    destruct (entries2 (propObjs x) (TermKey s, uri_key (onProperty r))) as [|o os] eqn:Eo; [constructor|]. constructor; [|constructor].
    apply (clash_maxqc2 D (r_node r) (onProperty r) s o); [apply (rs_on D r Hr)|done|done|done|]. apply object_D; [done|done|]. rewrite Eo. by left.
  - destruct (existsb _ _) eqn:Ex; [|constructor]. constructor; [|constructor]. apply existsb_exists in Ex as (o & Ho%list_elem_of_In & Hty).
    apply object_D in Ho; [|done|done]. apply (clash_maxqc1 D (r_node r) (onProperty r) c s o); [apply (rs_on D r Hr)|done|done|done|done|].
    apply Hl, (type_elem D D_wf l Hl); [by apply D_wf in Ho as (_ & _ & _ & ?)|done|exact Hty].
Qed.
End indexes.

(** ** Terms said to be different *)

Lemma check_different_sound pairs : ∀ u, uf_ok u → same_classes (uf e) u → ∀ i, i ∈ check_different pairs u →
  ∃ sk d, (sk, d) ∈ pairs ∧ same (uf e) sk (TermKey d) ∧ sk ≠ TermKey d ∧ Rule i = "eq-diff1".
Proof.
  induction pairs as [|[sk d] pairs IH]; intros u Hu Hc i; cbn [check_different]; [by intros ?%not_elem_of_nil|].
  destruct (0 <? uf_size u)%nat.
  2:{ intros Hi. destruct (IH u Hu Hc i Hi) as (sk' & d' & Hin & Hrest). exists sk', d'. split; [by right|done]. }
  destruct (findKey_ok u sk Hu) as (r & u1 & -> & Hr & Hu1 & Hc1). destruct (findKey_ok u1 (TermKey d) Hu1) as (r' & u2 & -> & Hr' & Hu2 & Hc2).
  pose proof (same_classes_trans _ _ _ Hc Hc1) as Hc01. pose proof (same_classes_trans _ _ _ Hc01 Hc2) as Hc02.
  intros [Hi|Hi]%elem_of_app.
  - destruct (String.eqb_spec r r') as [<-|_]; cbn [andb] in Hi; [|by apply not_elem_of_nil in Hi]. destruct (negb (is_empty r)); cbn [andb] in Hi; [|by apply not_elem_of_nil in Hi].
    destruct (str_lt sk (TermKey d)) eqn:El; [|by apply not_elem_of_nil in Hi]. apply list_elem_of_singleton in Hi as ->. exists sk, d. split; [by left|]. split; [|split; [|done]].
    + apply (same_classes_same _ _ _ _ Hc01). apply (rep_same u1 _ _ r); [|done]. exact (rep_same_classes u u1 _ _ Hc1 Hu Hu1 Hr).
    + intros E. rewrite E in El. by rewrite str_lt_irrefl in El.
  - destruct (IH u2 Hu2 Hc02 i Hi) as (sk' & d' & Hin & Hrest). exists sk', d'. split; [by right|done].
Qed.

Lemma check_different_complete pairs sk d : (sk, d) ∈ pairs → same (uf e) sk (TermKey d) → sk ≠ EmptyString → str_lt sk (TermKey d) = true →
  ∀ u, uf_ok u → same_classes (uf e) u → ∃ i, i ∈ check_different pairs u ∧ Rule i = "eq-diff1".
Proof using He.
  intros Hin Hs Hne Hlt. induction pairs as [|[sk' d'] pairs IH]; intros u Hu Hc; [by apply not_elem_of_nil in Hin|]. cbn [check_different].
  assert (Hsk : sk ≠ TermKey d) by (intros E; rewrite E, str_lt_irrefl in Hlt; done).
  assert (Hpos : (0 <? uf_size u)%nat = true).
  { destruct Hs as [|(r & Hr & _)]; [done|]. apply Hc in Hr. apply root_dom in Hr as [p Hp]. apply Nat.ltb_lt. unfold uf_size.
    destruct (size (parent u)) eqn:E; [|lia]. apply map_size_empty_inv in E. by rewrite E, lookup_empty in Hp. }
  rewrite Hpos. destruct (findKey_ok u sk' Hu) as (r & u1 & -> & Hr & Hu1 & Hc1). destruct (findKey_ok u1 (TermKey d') Hu1) as (r' & u2 & -> & Hr' & Hu2 & Hc2).
  pose proof (same_classes_trans _ _ _ Hc Hc1) as Hc01. pose proof (same_classes_trans _ _ _ Hc01 Hc2) as Hc02.
  apply elem_of_cons in Hin as [[= <- <-]|Hin].
  - assert (r = r') as <- by (eapply (same_rep u1); [by apply (same_classes_same _ _ _ _ Hc01)|exact (rep_same_classes u u1 _ _ Hc1 Hu Hu1 Hr)|exact Hr']).
    assert (Hre : negb (is_empty r) = true).
    { destruct Hs as [|(r0 & Hr0 & _)]; [done|]. apply Hc in Hr0. unfold rep in Hr. destruct (root_dom _ _ _ Hr0) as [p Hp]. rewrite Hp in Hr.
      apply root_is_root in Hr. assert (is_Some (uf_terms u !! r)) as [z Hz] by (apply (proj1 (proj2 Hu)); by eexists).
      pose proof (proj2 (proj2 Hu) _ _ Hz) as Kz. replace (uf_terms u) with (uf_terms (uf e)) in Hz by (symmetry; apply Hc).
      apply (os_term D e He) in Hz. apply TermKey_nonempty in Hz. rewrite Kz in Hz. by destruct r. }
    rewrite String.eqb_refl, Hre, Hlt. cbn [andb app]. eexists. split; [by left|done].
  - destruct (IH Hin u2 Hu2 Hc02) as (i & Hi & Ei). exists i. split; [apply elem_of_app; by right|done].
Qed.

Lemma diff_sound i : i ∈ check_different (range (differentFrom e) ≫= λ kd : string * list Term, (λ d, (kd.1, d)) <$> kd.2) (uf e) → owl_clash D (Rule i).
Proof using D_wf He.
  intros Hi. destruct (check_different_sound _ (uf e) (os_uf D e He) ltac:(done) i Hi) as (sk & d & Hin & Hs & Hne & ->).
  apply list_elem_of_bind in Hin as ([k ds] & Hin & Hk). rewrite range_perm, elem_of_map_to_list in Hk. cbn [fst snd] in Hin.
  apply list_elem_of_fmap in Hin as (d' & [= -> ->] & Hd). destruct (os_diff D e He k d') as (x & <- & Hx); [apply elem_entries; by exists ds|].
  assert (Hw : term_wf x ∧ term_wf d') by (destruct Hx as [Hx|Hx]; apply D_wf in Hx as (? & _ & _ & ?); by split).
  apply (clash_diff D x d'); [|exact Hx]. assert (Hreg : ∀ z, term_wf z → (∃ r, root (parent (uf e)) (TermKey z) r) → uf_terms (uf e) !! TermKey z = Some z).
  { intros z Wz (r & Hr). apply root_dom in Hr. pose proof (os_uf D e He) as Hok. apply (proj1 (proj2 Hok)) in Hr as [v Hv].
    rewrite Hv. f_equal. apply TermKey_inj; [by apply (os_term D e He) in Hv|done|by apply (proj2 (proj2 Hok)) in Hv]. }
  pose proof Hs as [|(r & Hr1 & Hr2)]; [done|]. apply (os_same D e He); [apply Hreg; [apply Hw|by exists r]|apply Hreg; [apply Hw|by exists r]|done|done].
Qed.

(** ** All of them *)

Lemma reports_sound s ic s' : checkConsistency g e st s = (ic, s') → halted s' = false → ∀ i, i ∈ ic → owl_clash D (Rule i).
Proof using D_wf Hst HD He.
  intros E Hf. destruct (checkConsistency_ok s ic s' E Hf) as (l & l1 & l2 & l3 & Hl & Hl1 & Hl2 & Hl3 & ->).
  assert (HDl : ∀ t, t ∈ l → D t) by (intros t; rewrite Hl; apply HD). apply Forall_forall. rewrite !Forall_app. split_and!.
  - by apply nothing_sound.
  - apply clashes_bind. intros t Ht%Hl1. by apply irp_sound, HD.
  - apply clashes_bind. intros t Ht%Hl2. by apply asym_sound, HD.
  - apply clashes_bind. intros t Ht%Hl3. by apply pdw_sound, HD.
  - apply clashes_bind. intros us Hus. by apply adp_sound, (os_adp D e He).
  - by apply dw_sound.
  - apply clashes_bind. intros us Hus. by apply adc_sound, (os_adc D e He).
  - apply Forall_forall. intros i. apply diff_sound.
  - by apply com_sound.
  - apply clashes_bind. intros r Hr. pose proof (os_restr D e He) as Hall. rewrite Forall_forall in Hall. apply Forall_app.
    split; [by apply maxCard_reports_sound, Hall|by apply maxQualCard_reports_sound, Hall].
  - apply clashes_bind. intros a Ha. pose proof (os_npa D e He) as Hall. rewrite Forall_forall in Hall. by apply npa_reports_sound, Hall.
Qed.

Context (Hc : owl_complete (λ t, has t) e).

Lemma typed_in l s c : (∀ t, t ∈ l ↔ has t) → has (MkTriple s RDF_Type c) →
  (TermKey s, types_of (typeIndex (class_indexes l)) (TermKey s)) ∈ range (typeIndex (class_indexes l)) ∧
  has_type (types_of (typeIndex (class_indexes l)) (TermKey s)) (TermKey c) = true.
Proof using.
  intros Hl Ht. assert (Hty : has_type (types_of (typeIndex (class_indexes l)) (TermKey s)) (TermKey c) = true).
  { change (typeIndex (class_indexes l)) with (foldl index_type ∅ l). apply index_type_elem. exists (MkTriple s RDF_Type c). split; [by apply Hl|done]. }
  split; [by eapply types_range_elem|done].
Qed.

(** An axiom between two IRIs said in either order. *)
Lemma either_in p m x q : linked D p m → linked_complete (λ t, has t) p m → either_way (λ t, has t) p (U x) (U q) →
  q ∈ entries m (uri_key x) ∧ x ∈ entries m (uri_key q) ∧ uri_ok x ∧ uri_ok q.
Proof using D_wf HD.
  intros Hs Hm Hx. assert (Hw : uri_ok x ∧ uri_ok q) by (destruct Hx as [Hx|Hx]; apply HD, D_wf in Hx as (? & _ & _ & ?); by split).
  destruct Hx as [Hx|Hx]; apply (linked_in D (λ t, has t) D_wf HD p m _ _ Hs Hm) in Hx as [? ?]; tauto.
Qed.

Lemma pdw_reported l p q x y : (∀ t, t ∈ l ↔ has t) → q ∈ entries (propDisjointWith e) (uri_key p) → has (MkTriple x p y) → has (MkTriple x q y) →
  str_lt (uri_key p) (uri_key q) = true → ∃ i, i ∈ (l ≫= pdw_results) ∧ Rule i = "prp-pdw".
Proof using.
  intros Hl Hq H1 H2 Hlt. eexists. split; [|shelve]. apply list_elem_of_bind. exists (MkTriple x p y). split; [|by apply Hl]. unfold pdw_results. apply list_elem_of_bind.
  exists q. split; [|done]. cbn [Subject Predicate Object]. unfold pdw_report, has_b. rewrite bool_decide_eq_true_2 by done. cbn [Predicate]. rewrite Hlt. by left.
  Unshelve. done.
Qed.

Lemma asym_reported l p x y : (∀ t, t ∈ l ↔ has t) → uri_key p ∈ asymmetricProps e → has (MkTriple x p y) → has (MkTriple y p x) →
  str_lt (TermKey x) (TermKey y) = true → ∃ i, i ∈ (l ≫= asym_results) ∧ Rule i = "prp-asyp".
Proof using D_wf HD.
  intros Hl Hp H1 H2 Hlt. pose proof (D_wf _ (HD _ H2)) as (_ & Sy & _). cbn in Sy. eexists. split; [|shelve]. apply list_elem_of_bind. exists (MkTriple x p y). split; [|by apply Hl].
  unfold asym_results. cbn [Subject Predicate Object]. rewrite bool_decide_eq_true_2, Sy by done. cbn [andb]. unfold asym_report, has_b. rewrite bool_decide_eq_true_2 by done.
  cbn [Subject Object]. rewrite Hlt. by left.
  Unshelve. done.
Qed.

Lemma dw_reported l c d x : (∀ t, t ∈ l ↔ has t) → d ∈ entries (disjointWith e) (uri_key c) → has (MkTriple x RDF_Type (U c)) → has (MkTriple x RDF_Type (U d)) →
  str_lt (uri_key c) (uri_key d) = true → ∃ i, i ∈ check_disjoint_with e (class_indexes l) ∧ Rule i = "cax-dw".
Proof using.
  intros Hl Hd H1 H2 Hlt. destruct (typed_in l x (U c) Hl H1) as [Hr Tc], (typed_in l x (U d) Hl H2) as [_ Td]. cbn [TermKey] in Tc, Td.
  eexists. split; [|shelve]. apply list_elem_of_bind. eexists. split; [|exact Hr]. apply list_elem_of_bind. exists (uri_key c, tt). split.
  - apply list_elem_of_bind. exists d. split; [|exact Hd]. cbn [fst snd]. rewrite Td, Hlt. by left.
  - cbn [snd]. rewrite range_perm, elem_of_map_to_list. unfold has_type in Tc. by destruct (_ !! uri_key c) as [[]|].
  Unshelve. done.
Qed.

Lemma reports_complete s ic s' rule : checkConsistency g e st s = (ic, s') → halted s' = false → plain_clash (λ t, has t) rule → ∃ i, i ∈ ic ∧ Rule i = rule.
Proof using D_wf Hst HD He Hc.
  intros E Hf Hcl. destruct (checkConsistency_ok s ic s' E Hf) as (l & l1 & l2 & l3 & Hl & Hl1 & Hl2 & Hl3 & ->).
  assert (Hl0 : ∀ t, t ∈ l ↔ has t) by (intros t; by rewrite Hl). assert (Hw : ∀ t, has t → triple_wf t) by (intros t Ht; by apply D_wf, HD).
  setoid_rewrite elem_of_app. repeat setoid_rewrite elem_of_app. destruct Hcl as [x Hx|p x Hp Hx|p x y Hp H1 H2 Hne|p q x y Hpq H1 H2 Hne|c d x Hcd H1 H2 Hne|x y Hs Hd Hy Hne].
  - destruct (typed_in l x _ Hl0 Hx) as [Hr Ht]. eexists. split; [left; apply list_elem_of_bind; eexists; split; [|exact Hr]; cbn [snd]; cbn [TermKey] in Ht; rewrite Ht; by left|done].
  - eexists. split; [right; left; apply list_elem_of_bind; exists (MkTriple x p x); split; [|by apply Hl1]; unfold irp_results, check_irreflexive|].
    + cbn [Subject Predicate Object]. rewrite bool_decide_eq_true_2 by (by apply (oc_irr _ e Hc) in Hp). unfold is_key. rewrite String.eqb_refl. by left.
    + done.
  - apply (oc_asym _ e Hc) in Hp. cbn [TermKey] in Hp.
    assert (Hk : TermKey x ≠ TermKey y) by (intros Ek; apply Hne, TermKey_inj; [by apply Hw in H1 as (? & _)|by apply Hw in H2 as (? & _)|done]).
    destruct (str_lt_total _ _ Hk) as [Hlt|Hlt]; [destruct (asym_reported l2 p x y Hl2 Hp H1 H2 Hlt) as (i & Hi & Ei)|destruct (asym_reported l2 p y x Hl2 Hp H2 H1 Hlt) as (i & Hi & Ei)];
      exists i; (split; [tauto|done]).
  - destruct (either_in _ _ p q (os_pdw D e He) (oc_pdw _ e Hc) Hpq) as (Hq & Hp & Wp & Wq).
    assert (Hk : uri_key p ≠ uri_key q) by (intros Ek; by apply Hne, uri_key_inj).
    destruct (str_lt_total _ _ Hk) as [Hlt|Hlt]; [destruct (pdw_reported l3 p q x y Hl3 Hq H1 H2 Hlt) as (i & Hi & Ei)|destruct (pdw_reported l3 q p x y Hl3 Hp H2 H1 Hlt) as (i & Hi & Ei)];
      exists i; (split; [tauto|done]).
  - destruct (either_in _ _ c d (os_dw D e He) (oc_dw _ e Hc) Hcd) as (Hd & Hcc & Wc & Wd).
    assert (Hk : uri_key c ≠ uri_key d) by (intros Ek; by apply Hne, uri_key_inj).
    destruct (str_lt_total _ _ Hk) as [Hlt|Hlt]; [destruct (dw_reported l c d x Hl0 Hd H1 H2 Hlt) as (i & Hi & Ei)|destruct (dw_reported l d c x Hl0 Hcc H2 H1 Hlt) as (i & Hi & Ei)];
      exists i; (split; [tauto|done]).
  - destruct (Hw _ Hd) as (Wx & _ & _ & Wy). cbn in Wx, Wy. assert (Hk : TermKey x ≠ TermKey y) by (intros Ek; by apply Hne, TermKey_inj).
    destruct (oc_same _ e Hc x y Hs Hk) as (Hsame & _). destruct (oc_diff _ e Hc x y Hd) as [Hxy Hyx]. specialize (Hyx Hy).
    assert (Hpair : ∀ k v, v ∈ entries (differentFrom e) k → (k, v) ∈ (range (differentFrom e) ≫= λ kd : string * list Term, (λ d, (kd.1, d)) <$> kd.2)).
    { intros k v (ds & Hk' & Hv)%elem_entries. apply list_elem_of_bind. exists (k, ds). split; [cbn; by apply list_elem_of_fmap_2|by rewrite range_perm, elem_of_map_to_list]. }
    pose proof (os_uf D e He) as Hok. assert (Hrep : ∃ i, i ∈ check_different (range (differentFrom e) ≫= λ kd : string * list Term, (λ d, (kd.1, d)) <$> kd.2) (uf e) ∧ Rule i = "eq-diff1").
    { destruct (str_lt_total _ _ Hk) as [Hlt|Hlt].
      - eapply (check_different_complete _ (TermKey x) y); [by apply Hpair|done|by apply TermKey_nonempty|done|done|done].
      - eapply (check_different_complete _ (TermKey y) x); [by apply Hpair|by apply (Equivalence_Symmetric (Equivalence := same_equiv (uf e)))|by apply TermKey_nonempty|done|done|done]. }
    destruct Hrep as (i & Hi & Ei). exists i. split; [tauto|done].
Qed.
End checks.
