(* ===== verification/OwlRun.v ===== *)
(** * OWL 2 RL: passes and runs

    A pass derives triples that follow from the graph, the loop ends, and what it
    leaves has no triple that the core rules would add. *)

From S2P Require Import Prelude GoStrings Strconv Term TermKey TripleIndex Store MemoryStore Graph Collection Reasoning Rdfs RdfsCorrect UnionFind Owl OwlRules OwlEngine OwlSpec OwlIndex OwlBuild OwlPasses OwlClash.
From stdpp Require Import relations options.

(** ** What a pass emits *)

Section fired.
Context (P : Triple → Prop) (d0 : dedupSet).

(** From one state to a later one: the triples that were new are kept, and those of
    [l] are among the keys seen unless the run was stopped. *)
Definition fired (s s' : stopper) (a a' : pass) (l : list Triple) : Prop :=
  step_to s s' (∀ t, t ∈ l → ded_key t ∈ ded a') ∧ ded a ⊆ ded a' ∧ pass_ok P d0 a'.

Lemma fired_none s s' a : later s s' → pass_ok P d0 a → fired s s' a a [].
Proof. intros L Ha. split; [|by split]. split; [done|]. by intros _ t ?%not_elem_of_nil. Qed.

Lemma fired_app s s1 s2 a a1 a2 l1 l2 : fired s s1 a a1 l1 → fired s1 s2 a1 a2 l2 → fired s s2 a a2 (l1 ++ l2).
Proof.
  intros (S1 & I1 & _) (S2 & I2 & P2). split; [|split; [by etrans|done]]. eapply step_to_mono; [|exact (step_to_trans _ _ _ _ _ S1 S2)].
  intros [H1 H2] t [Ht|Ht]%elem_of_app; [by apply I2, H1|by apply H2].
Qed.

Lemma fired_more s s1 s2 a a1 a2 l : fired s s1 a a1 l → fired s1 s2 a1 a2 [] → fired s s2 a a2 l.
Proof. intros F1 F2. rewrite <- (app_nil_r l). by eapply fired_app. Qed.

Lemma fired_forget s s' a a' l : fired s s' a a' l → fired s s' a a' [].
Proof. intros (S1 & I1 & P1). split; [|by split]. split; [apply S1|]. by intros _ t ?%not_elem_of_nil. Qed.

Lemma emits_fired l s a : Forall P l → pass_ok P d0 a → ∃ s' a', emits l s a = (s', a') ∧ fired s s' a a' l.
Proof.
  intros Hl Ha. unfold emits. rewrite emit_all_list, list_fmap_id. destruct (emits_ok P d0 l s a Hl Ha) as (s' & a' & E & L & H1 & H2 & H3).
  exists s', a'. split; [done|]. split; [|by split]. split; [done|]. intros Hf. destruct H3 as [|H3]; [congruence|done].
Qed.
End fired.

(** Halves of the forest that finding the classes shortens. *)
Lemma with_uf_sound D e u : uf_ok u → same_classes (uf e) u → owl_sound D e → owl_sound D (with_uf e u).
Proof.
  intros Hu Hc He. assert (Ht : uf_terms u = uf_terms (uf e)) by apply Hc. destruct (He) as [].
  constructor; cbn; rewrite ?Ht; try done.
  intros x y Hx Hy Hs Hne. apply os_same; [done|done| |done]. by rewrite <- (same_classes_same _ _ _ _ Hc).
Qed.
Lemma with_uf_complete S e u : same_classes (uf e) u → owl_complete S e → owl_complete S (with_uf e u).
Proof.
  intros Hc He. assert (Ht : uf_terms u = uf_terms (uf e)) by apply Hc. destruct (He) as [].
  constructor; cbn; try done. intros x y Hs Hne. rewrite Ht, (same_classes_same _ _ _ _ Hc). by apply oc_same.
Qed.

Section pass.
Context {St : Type} `{StoreLaws St} `{GoRange} (g : Graph_).
Abbreviation has st t := (t ∈ graph_triples (graph_of st g)).
Context (b : bool) (D : Triple → Prop) (D_wf : ∀ t, D t → triple_wf t) (D_closed : owl_closed b D).

(** The results of the rules for equality and for properties that look at triples
    only. *)
Definition equality_results (e : owlIndexes) (l : list Triple) : list Triple :=
  let '(cls, u) := classes (uf e) in
  (cls ≫= class_pairs) ++ (if (0 <? uf_size u)%nat then l ≫= replacements (memberOf cls) else []).
Definition property_all (e : owlIndexes) (l : list Triple) : list Triple :=
  (l ≫= property_results e) ++
  (range (foldl (add_edge e) ∅ l) ≫= λ kp : string * propEdges, transitive_results kp.2 l) ++
  (range2 (foldl (group_functional e) ∅ l) ≫= λ ko : (string * string) * list Term, star_pairs ko.2) ++
  (range2 (foldl (group_invFunc e) ∅ l) ≫= λ ks : (string * string) * list Term, subject_pairs ks.2).
Definition core_results (e : owlIndexes) (l : list Triple) : list Triple := equality_results e l ++ property_all e l.

Section rules.
Context (l : list Triple) (HD : ∀ t, t ∈ l → D t) (Hnd : NoDup l) (d0 : dedupSet).

Lemma applyEqualityRules_ok e s a : owl_sound D e → pass_ok D d0 a →
  ∃ u s' a', applyEqualityRules e l s a = (with_uf e u, s', a') ∧ uf_ok u ∧ same_classes (uf e) u ∧ fired D d0 s s' a a' (equality_results e l).
Proof using D_wf D_closed HD.
  intros He Ha. unfold applyEqualityRules, equality_results. destruct (classes_ok (uf e) (os_uf D e He)) as (cls & u & Ec & Hu & Hc & _). rewrite Ec.
  destruct (emits_fired D d0 (cls ≫= class_pairs) s a) as (s1 & a1 & -> & F1); [by eapply (class_pairs_sound D D_wf b D_closed e He)|done|].
  assert (Ha1 : pass_ok D d0 a1) by apply F1. destruct (0 <? uf_size u)%nat.
  - destruct (emits_fired D d0 (l ≫= replacements (memberOf cls)) s1 a1) as (s2 & a2 & -> & F2); [by eapply (replacements_sound D D_wf b D_closed l HD e He)|done|].
    exists u, s2, a2. split; [done|]. split; [done|]. split; [done|]. by eapply fired_app.
  - exists u, s1, a1. split; [done|]. split; [done|]. split; [done|]. eapply fired_app; [exact F1|]. by apply fired_none.
Qed.

Section store.
Context (st : St) (Hst : sinv st) (Hhas : ∀ t, has st t → D t).

Lemma termForKey_ok k s : ∃ s' r, termForKey g k st s = (s', r) ∧ later s s' ∧ ∀ p, r = Some p → uri_ok p ∧ uri_key p = k.
Proof using D_wf Hst Hhas.
  unfold termForKey. destruct (halted s) eqn:Eh; [exists s, None; by rewrite sp_triples_halted|]. set (fn := λ t _ _, _).
  destruct (sp_triples_spec g None (Some OWL_PropertyChainAxiom) None fn st s None Hst Eh) as [(ts & s1 & Hts & _ & L1 & _ & ->)|(s1 & L1 & _ & ->)]; [|by exists s1, None].
  assert (Hin : ∀ t, t ∈ ts → has st t).
  { intros t. rewrite Hts, matching_elem by (by apply graph_of_keyed). by intros [? _]. }
  clear Hts Eh. induction ts as [|t ts IH]; cbn [fmap list_fmap triples_go]; [by exists s1, None|].
  assert (Hr : ∃ s' r, triples_go fn (Ok <$> ts) s1 None = (s', r) ∧ later s s' ∧ ∀ p, r = Some p → uri_ok p ∧ uri_key p = k) by (apply IH; intros t' Ht'; apply Hin; by right).
  unfold fn at 1. destruct (asURIRef (Subject t)) as [p|] eqn:Eu; [|exact Hr].
  assert (Es : Subject t = TURIRef p) by (destruct (Subject t); cbn in Eu; congruence).
  destruct (String.eqb_spec (uri_key p) k) as [Ek|_]; [|exact Hr]. exists s1, (Some p). split; [done|]. split; [done|]. intros q [= <-]. split; [|done].
  specialize (Hin t ltac:(by left)). apply Hhas, D_wf in Hin as (W & _). by rewrite Es in W.
Qed.

Lemma apply_chains_ok e axioms : owl_sound D e → (∀ kc, kc ∈ axioms → kc ∈ range (propChainAxiom e)) → ∀ s a, pass_ok D d0 a →
  ∃ s' a', apply_chains g (foldl index_predicate ∅ l) axioms st s a = (s', a') ∧ fired D d0 s s' a a' [].
Proof using D_wf D_closed HD Hst Hhas.
  intros He. induction axioms as [|[pk chains] axioms IH]; intros Hin s a Ha; cbn [apply_chains]; [exists s, a; split; [done|]; by apply fired_none|].
  destruct (termForKey_ok pk s) as (s1 & r & -> & L1 & Hr).
  assert (Hstep : ∃ s2 a2, (match r with Some p => emits (chains ≫= λ chain, evalChain (foldl index_predicate ∅ l) chain p) s1 a | None => (s1, a) end) = (s2, a2) ∧
    fired D d0 s1 s2 a a2 []).
  { destruct r as [p|]; [|exists s1, a; split; [done|]; by apply fired_none]. destruct (Hr p eq_refl) as [Wp Kp].
    destruct (emits_fired D d0 (chains ≫= λ chain, evalChain (foldl index_predicate ∅ l) chain p) s1 a) as (s2 & a2 & E & F); [|done|].
    - eapply (chains_sound D D_wf b D_closed l HD e He); [apply Hin; by left|done|done].
    - exists s2, a2. split; [done|]. by eapply fired_forget. }
  destruct Hstep as (s2 & a2 & -> & F2). destruct (IH (λ kc Hkc, Hin kc ltac:(by right)) s2 a2 ltac:(apply F2)) as (s3 & a3 & -> & F3).
  exists s3, a3. split; [done|]. eapply fired_more; [|exact F3]. eapply fired_more; [by apply fired_none|done].
Qed.

Lemma applyPropertyRules_ok e s a : owl_sound D e → pass_ok D d0 a →
  ∃ s' a', applyPropertyRules g e l st s a = (s', a') ∧ fired D d0 s s' a a' (property_all e l).
Proof using D_wf D_closed HD Hnd Hst Hhas.
  intros He Ha. unfold applyPropertyRules, property_all.
  destruct (emits_fired D d0 (l ≫= property_results e) s a) as (s1 & a1 & -> & F1); [|done|].
  { apply Forall_forall. intros r (t & Hr & Ht)%list_elem_of_bind. by eapply Forall_forall in Hr; [|apply (property_results_sound D D_wf b D_closed e He t), HD]. }
  destruct (emits_fired D d0 _ s1 a1 (transitive_sound D D_wf b D_closed l HD e He) ltac:(apply F1)) as (s2 & a2 & -> & F2).
  destruct (emits_fired D d0 _ s2 a2 (functional_sound D D_wf b D_closed l HD Hnd e He) ltac:(apply F2)) as (s3 & a3 & -> & F3).
  destruct (emits_fired D d0 _ s3 a3 (invFunc_sound D D_wf b D_closed l HD Hnd e He) ltac:(apply F3)) as (s4 & a4 & -> & F4).
  destruct (apply_chains_ok e (range (propChainAxiom e)) He (λ kc Hkc, Hkc) s4 a4 ltac:(apply F4)) as (s5 & a5 & -> & F5).
  destruct (emits_fired D d0 _ s5 a5 (keys_sound D D_wf b D_closed l HD e He) ltac:(apply F5)) as (s6 & a6 & -> & F6).
  exists s6, a6. split; [done|]. do 2 (eapply fired_app; [eassumption|]). apply fired_forget in F6.
  eapply fired_app; [exact F3|]. eapply fired_more; [|exact F6]. by eapply fired_more.
Qed.
End store.

Lemma applyClassRules_ok e s a : owl_sound D e → pass_ok D d0 a →
  ∃ s' a', applyClassRules e l s a = (s', a') ∧ fired D d0 s s' a a' [].
Proof using D_wf D_closed HD Hnd.
  intros He Ha. unfold applyClassRules.
  assert (HR : ∀ f, (∀ r, restriction_sound D r → Forall D (f r)) → Forall D (restrictions e ≫= f)).
  { intros f Hf. apply Forall_forall. intros t (r & Ht & Hr)%list_elem_of_bind. pose proof (os_restr D e He) as Hall. rewrite Forall_forall in Hall.
    by eapply Forall_forall in Ht; [|by apply Hf, Hall]. }
  destruct (emits_fired D d0 ((restrictions e ≫= hasValue_results (class_indexes l) l) ++
     (restrictions e ≫= someValues_results (class_indexes l) l) ++
     (restrictions e ≫= allValues_results (class_indexes l)) ++
     (restrictions e ≫= maxCard_results (class_indexes l)) ++
     (restrictions e ≫= maxQualCard_results (class_indexes l)) ++
     (range (intersectionOf e) ≫= λ cm : string * list Term, intersection_results (class_indexes l) l cm.1 cm.2) ++
     (range (intersectionOf e) ≫= λ cm : string * list Term, member_results (class_indexes l) l cm.1 cm.2) ++
     (range (unionOf e) ≫= λ cm : string * list Term, union_results (class_indexes l) l cm.1 cm.2) ++
     (range (oneOfMembers e) ≫= λ cm : string * list Term, oneOf_results l cm.1 cm.2)) s a) as (s1 & a1 & E & F); [|done|].
  - rewrite !Forall_app. split; [|split; [|split; [|split; [|split; [|split; [|split; [|split]]]]]]].
    + apply HR. by apply (hasValue_sound D D_wf b D_closed l HD).
    + apply HR. by apply (someValues_sound D D_wf b D_closed l HD).
    + apply HR. by apply (allValues_sound D D_wf b D_closed l HD).
    + apply HR. by apply (maxCard_sound D D_wf b D_closed l HD Hnd).
    + apply HR. by apply (maxQualCard_sound D D_wf b D_closed l HD Hnd).
    + by apply (intersection_sound D D_wf b D_closed l HD e He).
    + by apply (member_sound D D_wf b D_closed l HD e He).
    + by apply (union_sound D D_wf b D_closed l HD e He).
    + by apply (oneOf_sound D D_wf b D_closed l HD e He).
  - exists s1, a1. split; [exact E|]. by eapply fired_forget.
Qed.
End rules.

(** ** A whole pass *)

(** The snapshot has all the triples, unless it was cut short. *)
Lemma take_triples l : ∀ s acc, ∃ s' taken, triples_go take_triple (Ok <$> l) s acc = (s', acc ++ taken) ∧ step_to s s' (taken = l).
Proof.
  induction l as [|t l IH]; intros s acc; cbn [fmap list_fmap triples_go].
  { exists s, []. rewrite app_nil_r. split; [done|]. by split. }
  unfold take_triple at 1. destruct (sp_tick_spec s) as (s1 & -> & L1). destruct (halted s1) eqn:E1.
  - exists s1, []. rewrite app_nil_r. split; [done|]. split; [done|]. congruence.
  - destruct (IH s1 (acc ++ [t])) as (s2 & taken & -> & S2). exists s2, (t :: taken). rewrite <- app_assoc. split; [done|].
    split; [etrans; [exact L1|apply S2]|]. intros Hf. f_equal. by apply S2.
Qed.

Lemma polled s : ∃ s', sp_poll s = (halted s', s') ∧ later s s' ∧ (halted s = true → halted s' = true).
Proof. destruct (sp_poll_spec s) as (s' & E & L). exists s'. split; [done|]. split; [done|apply L]. Qed.

Lemma owl_applyRules_ok e d st s : sinv st → (∀ t, has st t → D t) → owl_sound D e →
  ∃ e' s' a, owl_applyRules g e d st s = (e', s', a) ∧ owl_sound D e' ∧ (∀ S, owl_complete S e → owl_complete S e') ∧
    step_to s s' (pass_ok D d a ∧ ∃ l, l ≡ₚ graph_triples (graph_of st g) ∧ NoDup l ∧ ∀ r, r ∈ core_results e l → ded_key r ∈ ded a).
Proof using D_wf D_closed.
  intros Hst Hhas He. unfold owl_applyRules.
  assert (Htake : ∃ s1 l, sp_triples g None None None take_triple st s [] = (s1, l) ∧
    step_to s s1 (l ≡ₚ graph_triples (graph_of st g) ∧ NoDup l)).
  { destruct (halted s) eqn:Eh; [exists s, []; rewrite sp_triples_halted by done; split; [done|]; split; [done|congruence]|].
    destruct (sp_triples_spec g None None None take_triple st s [] Hst Eh) as [(l & s1 & Hl & Hnd & L1 & _ & ->)|(s1 & L1 & E1 & ->)].
    - rewrite matching_all in Hl. destruct (take_triples l s1 []) as (s2 & taken & -> & S2). exists s2, taken. split; [done|].
      split; [etrans; [exact L1|apply S2]|]. intros Hf. by rewrite (proj2 S2 Hf).
    - exists s1, []. split; [done|]. split; [done|congruence]. }
  destruct Htake as (s1 & l & -> & S1). destruct (polled s1) as (s2 & -> & L2 & _). destruct (halted s2) eqn:E2.
  { exists e, s2, (MkPass d []). split; [done|]. split; [done|]. split; [done|]. split; [etrans; [apply S1|done]|congruence]. }
  destruct (proj2 S1 (later_running _ _ L2 E2)) as [Hl Hnd].
  assert (HD : ∀ t, t ∈ l → D t) by (intros t; rewrite Hl; apply Hhas).
  assert (Ha0 : pass_ok D d (MkPass d [])) by (split_and!; cbn; [set_solver|constructor|by intros t ?%not_elem_of_nil]).
  destruct (applyEqualityRules_ok l HD d e s2 (MkPass d []) He Ha0) as (u & s3 & a3 & -> & Hu & Hc & F3).
  pose proof (with_uf_sound D e u Hu Hc He) as Hu'. assert (L13 : later s s3) by (do 2 (etrans; [eassumption || apply S1|]); apply F3).
  assert (Hend : ∀ s' a', later s s' → halted s' = true → ∃ e' s'' a, (with_uf e u, s', MkPass (ded a') []) = (e', s'', a) ∧ owl_sound D e' ∧
    (∀ S, owl_complete S e → owl_complete S e') ∧
    step_to s s'' (pass_ok D d a ∧ ∃ l, l ≡ₚ graph_triples (graph_of st g) ∧ NoDup l ∧ ∀ r, r ∈ core_results e l → ded_key r ∈ ded a)).
  { intros s' a' L Hh. exists (with_uf e u), s', (MkPass (ded a') []). split; [done|]. split; [done|].
    split; [intros S; by apply with_uf_complete|]. split; [done|congruence]. }
  destruct (halted s3) eqn:E3; [by apply Hend|].
  destruct (applyPropertyRules_ok l HD Hnd d st Hst Hhas (with_uf e u) s3 a3 Hu' ltac:(apply F3)) as (s4 & a4 & -> & F4).
  assert (L14 : later s s4) by (etrans; [done|apply F4]). destruct (halted s4) eqn:E4; [by apply Hend|].
  destruct (applyClassRules_ok l HD Hnd d (with_uf e u) s4 a4 Hu' ltac:(apply F4)) as (s5 & a5 & -> & F5).
  assert (L15 : later s s5) by (etrans; [done|apply F5]). destruct (halted s5) eqn:E5; [by apply Hend|].
  exists (with_uf e u), s5, a5. split; [done|]. split; [done|]. split; [intros S; by apply with_uf_complete|]. split; [done|]. intros _.
  split; [apply F5|]. exists l. split; [done|]. split; [done|]. intros r Hr. apply F5. pose proof (fired_app _ _ _ _ _ _ _ _ _ _ F3 F4) as F34.
  by apply (proj2 (proj1 F34)).
Qed.

Lemma owl_applyRules_halted e d st s : halted s = true → ∃ s', owl_applyRules g e d st s = (e, s', MkPass d []) ∧ later s s' ∧ halted s' = true.
Proof.
  intros Hh. unfold owl_applyRules. rewrite sp_triples_halted by done. destruct (polled s) as (s' & -> & L & Hs). exists s'. by rewrite (Hs Hh).
Qed.

(** ** The checks look only *)

Lemma sp_contains_later sub p o st s : sinv st → later s (sp_contains g sub p o st s).2.
Proof.
  intros Hst. unfold sp_contains. destruct (sp_err s) as [e|] eqn:E; [done|]. unfold observe. destruct (sp_ctx s (sp_seen s)) as [e|] eqn:Ec; unfold g_Contains.
  - rewrite triples_done. cbn [ErrorIterator]. set (s1 := MkStop _ _ _ _). destruct (sp_fail_halted "reading the graph" e s1) as [H1' H2'].
    split_and!; [exact H2'|done|]. intros Hb. by rewrite Hb in Ec.
  - destruct (triples_ok st (MkPattern (Some sub) (Some p) (Some o)) (identifier g) Hst) as (l & -> & _ & _). destruct l; exact (observe_later s).
Qed.

Lemma check_pdw_later t st ps : sinv st → ∀ s acc, later s (check_pdw g st t ps s acc).1.
Proof.
  intros Hst. induction ps as [|p ps IH]; intros s acc; cbn [check_pdw]; [reflexivity|].
  pose proof (sp_contains_later (Subject t) p (Object t) st s Hst) as L. destruct (sp_contains g (Subject t) p (Object t) st s) as [both s1]. cbn [snd] in L.
  etrans; [exact L|apply IH].
Qed.

Lemma checkConsistency_later e st s : sinv st → later s (checkConsistency g e st s).2.
Proof.
  intros Hst. unfold checkConsistency. pose proof (λ A, @sp_triples_later _ _ _ g st Hst A None None None) as Hl.
  pose proof (Hl _ (scan (λ t ix, (index_type ix.1 t, index_object ix.2 t))) s (∅, ∅) (λ _ _ _ _, reflexivity _)) as L1.
  destruct (sp_triples _ _ _ _ _ _ s _) as [s1 ix]. cbn [fst] in L1.
  pose proof (Hl _ (scan (check_irreflexive e)) s1 [] (λ _ _ _ _, reflexivity _)) as L2. destruct (sp_triples _ _ _ _ _ _ s1 _) as [s2 irp]. cbn [fst] in L2.
  pose proof (Hl _ (check_asymmetric g e st) s2 []) as L3. destruct (sp_triples _ _ _ _ _ _ s2 _) as [s3 asyp]. cbn [fst] in L3.
  pose proof (Hl _ (check_property_disjoint g e st) s3 []) as L4. destruct (sp_triples _ _ _ _ _ _ s3 _) as [s4 pdw]. cbn [fst snd] in *.
  etrans; [exact L1|]. etrans; [exact L2|]. etrans; [apply L3|apply L4].
  - intros t s' a _. unfold check_asymmetric. case_match; [reflexivity|]. case_match; [|reflexivity].
    pose proof (sp_contains_later (Object t) (Predicate t) (Subject t) st s' Hst) as L. by destruct (sp_contains _ _ _ _ _ _).
  - intros t s' a _. unfold check_property_disjoint. pose proof (check_pdw_later t st (entries (propDisjointWith e) (uri_key (Predicate t))) Hst s' a) as L.
    by destruct (check_pdw _ _ _ _ _ _).
Qed.
End pass.

(** Triples that are not of the schema leave its index complete. *)
Lemma owl_complete_more (S S' : Triple → Prop) (l1 : list Triple) e :
  (∀ t, S' t → S t ∨ t ∈ l1) → existsb isSchemaTriple l1 = false → owl_complete S e → owl_complete S' e.
Proof.
  intros HS Hsch [].
  assert (Hin : ∀ t, S' t → isSchemaTriple t = true → S t).
  { intros t [Ht|Ht]%HS Hs; [done|]. exfalso. assert (existsb isSchemaTriple l1 = true) as E; [|congruence].
    apply existsb_exists. exists t. split; [by apply list_elem_of_In|done]. }
  constructor; try (by intros x Hx; eauto); try (by intros x q Hx; eauto).
  intros x y Hxy. apply oc_same. clear -Hxy Hin. assert (Hst : ∀ a c, sc (same_step S') a c → sc (same_step S) a c).
  { intros a c [Hac|Hac]; [left|right]; by apply Hin. }
  induction Hxy as [x y Hxy|x y z Hxy _ IH]; [by apply tc_once, Hst|]. eapply tc_l; [by apply Hst|exact IH].
Qed.

(** ** The loop *)

Section loop.
Context {St : Type} {store_St : Store St} {laws_St : StoreLaws St} `{GoRange} (g : Graph_).
Abbreviation has st t := (t ∈ graph_triples (graph_of st g)).
Context (b : bool) (G : Triple → Prop) (G_wf : ∀ t, G t → triple_wf t).
Abbreviation D := (owl_derives b G).
Context (G_lists : lists_ok G D).
Context (N : nat) (D_bound : ∀ st, sinv st → (∀ t, has st t → D t) → size (graph_of st g) ≤ N).

Let D_wf : ∀ t, D t → triple_wf t := λ t, owl_derives_wf b G t G_wf.
Let D_closed : owl_closed b D := owl_derives_closed b G.
Let G_D : ∀ t, G t → D t := λ t, owl_given b G t.

(** What a finished run has: an index of the schema and nothing new to derive by the
    core rules, up to the keys of triples. *)
Definition owl_saturated st : Prop :=
  ∃ e l, owl_sound D e ∧ owl_complete (λ t, has st t) e ∧ l ≡ₚ graph_triples (graph_of st g) ∧ NoDup l ∧
    ∀ r, r ∈ core_results e l → ∃ u, has st u ∧ ded_key u = ded_key r.

(** What its checks report: contradictions in what the triples entail, and every
    contradiction among its triples that they cannot miss. *)
Definition owl_checked st (ic : list Inconsistency) : Prop :=
  (∀ i, i ∈ ic → owl_clash D (Rule i)) ∧ ∀ rule, plain_clash (λ t, has st t) rule → ∃ i, i ∈ ic ∧ Rule i = rule.

(** The graph between two passes: all of the given triples and only derivable ones. *)
Definition owl_between st : Prop := sinv st ∧ (∀ t, has st t → D t) ∧ ∀ t, G t → has st t.

Definition owl_result (total : Z) s st (res : Z * list Inconsistency * stopper * St) : Prop :=
  let '(n, ic, s', st') := res in
  later s s' ∧ owl_between st' ∧ (∀ t, has st t → has st' t) ∧
  size (graph_of st g) ≤ size (graph_of st' g) ∧
  n = (total + Z.of_nat (size (graph_of st' g)) - Z.of_nat (size (graph_of st g)))%Z ∧
  (halted s' = false → owl_saturated st' ∧ owl_checked st' ic).

Lemma owl_result_same total ic s s' st : owl_between st → later s s' → (halted s' = false → owl_saturated st ∧ owl_checked st ic) →
  owl_result total s st (total, ic, s', st).
Proof. intros Hb L Hsat. split; [done|]. split; [done|]. split; [done|]. split; [done|]. split; [lia|done]. Qed.

Lemma owl_result_after total total' s s1 st st1 res : later s s1 → (∀ t, has st t → has st1 t) →
  size (graph_of st g) ≤ size (graph_of st1 g) →
  total' = (total + Z.of_nat (size (graph_of st1 g)) - Z.of_nat (size (graph_of st g)))%Z →
  owl_result total' s1 st1 res → owl_result total s st res.
Proof.
  intros L Hm Hsz -> HR. destruct res as [[[n ic] s'] st']. destruct HR as (R1 & R2 & R3 & R4 & R5 & R6).
  split; [by etrans|]. split; [done|]. split; [auto|]. split; [lia|]. split; [lia|done].
Qed.

Lemma owl_loop_ok fuel : ∀ e d total s st,
  owl_between st → (halted s = false → owl_sound D e ∧ owl_complete (λ t, has st t) e ∧ ded_ok g d st) →
  N - size (graph_of st g) < fuel → owl_result total s st (owl_loop fuel g e d total s st).
Proof using G_wf G_lists D_bound.
  induction fuel as [|fuel IH]; intros e d total s st Hb Hinv Hf; [lia|]. cbn [owl_loop]. pose proof Hb as (Hs & HD & HG).
  destruct (halted s) eqn:E0.
  { destruct (owl_applyRules_halted g e d st s E0) as (s' & E & L & Hh). rewrite E. destruct (polled s') as (s2 & -> & L2 & Hh2). rewrite (Hh2 Hh).
    apply owl_result_same; [done|by etrans|]. by rewrite (Hh2 Hh). }
  destruct (Hinv eq_refl) as (He & Hic & Hd).
  destruct (owl_applyRules_ok g b D D_wf D_closed e d st s Hs HD He) as (e1 & s1 & a & -> & He1 & Hc1 & S1).
  destruct (polled s1) as (s2 & -> & L2 & _). assert (L02 : later s s2) by (etrans; [apply S1|done]).
  destruct (halted s2) eqn:E2; [apply owl_result_same; [done|done|congruence]|].
  pose proof (later_running _ _ L2 E2) as R1.
  destruct (proj2 S1 R1) as ((P1 & P2 & P3) & l & Hl & Hnd & Hres).
  case_bool_decide as Enew.
  { pose proof (checkConsistency_later g e1 st s2 Hs) as L3. destruct (checkConsistency g e1 st s2) as [ic s3] eqn:Eic. cbn [snd] in L3.
    apply owl_result_same; [done|by etrans|]. intros Hf3. split; [exists e, l; split_and!; try done|split].
    - intros r Hr. apply Hd. specialize (Hres r Hr). rewrite P1, Enew in Hres. set_solver.
    - by apply (reports_sound g st Hs D D_wf HD e1 He1 s2 ic s3).
    - intros rule. by apply (reports_complete g st Hs D D_wf HD e1 He1 (Hc1 _ Hic) s2 ic s3). }
  destruct (add_pass_ok g isSchemaTriple (newTriples a) 0 false s2 st Hs E2 P2) as (r & s4 & st4 & l1 & l2 & -> & Hsplit & L4 & Hs4 & Hm4 & Hsz4 & Hr).
  { intros t u Ht Hu He'. apply (P3 t Ht), Hd. by exists u. }
  assert (Hb4 : owl_between st4).
  { split; [done|]. split; [|intros t Ht; apply Hm4; left; by apply HG]. intros t [Ht|Ht]%Hm4; [by apply HD|]. apply P3. rewrite Hsplit. set_solver. }
  assert (L04 : later s s4) by (by etrans). assert (Hm : ∀ t, has st t → has st4 t) by (intros t Ht; apply Hm4; by left).
  destruct Hr as [[E4 Hr]|(E4 & -> & ->)].
  { destruct r as [[i|] sch]; cbn in Hr; [|done]. injection Hr as ->.
    split; [done|]. split; [done|]. split; [done|]. split; [lia|]. split; [rewrite Hsz4; lia|congruence]. }
  rewrite app_nil_r in Hsplit. subst l1. cbn [orb].
  assert (Hpos : 1 ≤ length (newTriples a)) by (destruct (newTriples a); [done|cbn; lia]).
  assert (Hd4 : ded_ok g (ded a) st4).
  { intros k. rewrite P1, elem_of_union, elem_of_list_to_set, list_elem_of_fmap, (Hd k). setoid_rewrite Hm4. naive_solver. }
  pose proof (D_bound st4 Hs4 (proj1 (proj2 Hb4))) as HN.
  assert (Hnext : ∀ e' s5, later s4 s5 → (halted s5 = false → owl_sound D e' ∧ owl_complete (λ t, has st4 t) e') →
    owl_result total s st (owl_loop fuel g e' (ded a) (total + Z.of_nat (length (newTriples a))) s5 st4)).
  { intros e' s5 L5 Hc'. eapply owl_result_after; [etrans; [exact L04|exact L5]|exact Hm|lia| |apply IH; [done| |lia]].
    - rewrite Hsz4. lia.
    - intros Hf5. destruct (Hc' Hf5). done. }
  destruct (existsb isSchemaTriple (newTriples a)) eqn:Esch.
  - destruct (owl_build_ok g G D D_wf G_D G_lists st4 Hs4 (proj1 (proj2 Hb4)) (proj2 (proj2 Hb4)) s4) as (s5 & e' & -> & L5 & Hc').
    by apply Hnext.
  - apply Hnext; [reflexivity|]. intros _. split; [done|]. eapply owl_complete_more; [|exact Esch|apply Hc1, Hic]. intros t Ht. by apply Hm4.
Qed.
End loop.
