(* ===== verification/OwlCorrect.v ===== *)
(** * OWL 2 RL: soundness, termination, completeness of the core rules

    The closure adds derivable triples only, and a run that was not stopped leaves a
    graph that is closed under the rules for equality and for properties. *)

From S2P Require Import Prelude GoStrings Strconv Term TermKey TripleIndex Store MemoryStore Graph Collection Reasoning Rdfs RdfsCorrect UnionFind Owl OwlRules OwlEngine OwlSpec OwlIndex OwlInput OwlBuild OwlPasses OwlClash OwlRun.
From stdpp Require Import relations options.

(** ** Pairs connect what they come from *)

Lemma subject_pairs_same objs x y : x ∈ objs → y ∈ objs → TermKey x ≠ TermKey y → same_as (λ t, t ∈ subject_pairs objs) x y.
Proof.
  destruct objs as [|h rest]; [by intros ?%not_elem_of_nil|]. intros Hx Hy Hne. set (S := λ t, t ∈ subject_pairs (h :: rest)).
  assert (Hh : ∀ z, z ∈ rest → same_step S h z ∧ same_step S z h).
  { intros z Hz. split; apply list_elem_of_bind; exists z; (split; [|done]); set_solver. }
  apply elem_of_cons in Hx as [->|Hx], Hy as [->|Hy]; [done| | |].
  - apply tc_once. left. by apply Hh.
  - apply tc_once. left. by apply Hh.
  - eapply tc_l; [left; apply Hh; exact Hx|]. apply tc_once. left. by apply Hh.
Qed.

Lemma star_pairs_subjects objs : (∀ x, x ∈ objs → isSubject x = true) → star_pairs objs = subject_pairs objs.
Proof.
  destruct objs as [|h rest]; [done|]. intros Hs. cbn. assert (Hh : isSubject h = true) by (apply Hs; by left).
  assert (Hr : ∀ x, x ∈ rest → isSubject x = true) by (intros x Hx; apply Hs; by right). clear Hs.
  induction rest as [|y rest IH]; [done|]. cbn. unfold same_both at 1. rewrite Hh, (Hr y) by (by left). cbn. f_equal. f_equal. apply IH. intros x Hx. apply Hr. by right.
Qed.

(** ** The members of classes *)

Section members.
Context (cls : list (list Term)).
Context (Hone : ∀ ms ms' x x' z, ms ∈ cls → ms' ∈ cls → x ∈ ms → x' ∈ ms' → TermKey x = TermKey x' → z ∈ ms → z ∈ ms').

Lemma memberOf_complete ms x y : ms ∈ cls → x ∈ ms → y ∈ ms → y ∈ entries (memberOf cls) (TermKey x).
Proof using Hone.
  intros Hms Hx Hy. set (k := TermKey x). set (I := λ m : gmap string (list Term), ∃ ms' x', ms' ∈ cls ∧ x' ∈ ms' ∧ TermKey x' = k ∧ m !! k = Some ms').
  assert (Hmem : ∀ ms' m z, ms' ∈ cls → z ∈ ms' → TermKey z = k → I (index_members m ms')).
  { intros ms' m z Hms' Hz Kz. unfold index_members. apply (foldl_reach _ I ms' z); [done| |].
    - intros a. exists ms', z. rewrite Kz, lookup_insert_eq. done.
    - intros a u Ia. unfold I. rewrite lookup_insert. case_decide as E; [|exact Ia]. exists ms', z. done. }
  assert (Hkeep : ∀ ms' m, ms' ∈ cls → I m → I (index_members m ms')).
  { intros ms' m Hms' Im. unfold index_members. apply (foldl_ind _ I); [done|]. intros a u Hu Ia. unfold I. rewrite lookup_insert.
    case_decide as E; [|exact Ia]. exists ms', u. done. }
  assert (HI : I (memberOf cls)).
  { assert (Hgo : ∀ cs m, (∀ c, c ∈ cs → c ∈ cls) → ms ∈ cs → I (foldl index_members m cs)); [|by apply Hgo].
    induction cs as [|c cs IH]; intros m Hsub Hin; [by apply not_elem_of_nil in Hin|]. cbn [foldl].
    apply elem_of_cons in Hin as [<-|Hin]; [|apply IH; [|done]; intros v Hv; apply Hsub; by right].
    apply (foldl_ind _ I); [by apply (Hmem ms m x)|]. intros a u Hu. apply Hkeep, Hsub. by right. }
  destruct HI as (ms' & x' & Hms' & Hx' & Kx' & E). unfold entries. rewrite E. cbn. by apply (Hone ms ms' x x').
Qed.
End members.

(** ** What a saturated graph has *)

Section core.
Context {St : Type} {store_St : Store St} {laws_St : StoreLaws St} `{GoRange} (g : Graph_).
Abbreviation has st t := (t ∈ graph_triples (graph_of st g)).
Context (b : bool) (D : Triple → Prop) (D_wf : ∀ t, D t → triple_wf t) (D_closed : owl_closed b D) (D_bar : ∀ t, D t → bar_free t).
Context (D_fp : ∀ p x y, D (MkTriple (U p) RDF_Type (U OWL_FunctionalProperty)) → D (MkTriple x p y) → isSubject y = true).
Context (S : Triple → Prop) (S_D : ∀ t, S t → D t) (l : list Triple) (Hl : ∀ t, t ∈ l ↔ S t) (Hnd : NoDup l).
Context (e : owlIndexes) (He : owl_sound D e) (Hc : owl_complete S e).
Context (Hfires : ∀ r, r ∈ core_results e l → ∃ u, S u ∧ ded_key u = ded_key r).

Lemma core_results_sound r : r ∈ core_results e l → D r.
Proof using D_wf D_closed S_D Hl Hnd He.
  assert (HD : ∀ t, t ∈ l → D t) by (intros t Ht; by apply S_D, Hl). revert r. apply Forall_forall. unfold core_results, equality_results, property_all.
  destruct (classes (uf e)) as [cls u] eqn:Ec. rewrite !Forall_app. split; [split|split; [|split; [|split]]].
  - by eapply (class_pairs_sound D D_wf b D_closed e He).
  - destruct (0 <? uf_size u)%nat; [|constructor]. by eapply (replacements_sound D D_wf b D_closed l HD e He).
  - apply Forall_forall. intros r (t & Hr & Ht)%list_elem_of_bind. by eapply Forall_forall in Hr; [|apply (property_results_sound D D_wf b D_closed e He t), HD].
  - by eapply transitive_sound.
  - by eapply functional_sound.
  - by eapply invFunc_sound.
Qed.

Lemma fires r : r ∈ core_results e l → S r.
Proof using D_wf D_closed D_bar S_D Hl Hnd He Hfires.
  intros Hr. destruct (Hfires r Hr) as (u & Hu & Ku). pose proof (core_results_sound r Hr) as HDr. pose proof (S_D u Hu) as HDu.
  by rewrite <- (ded_key_wf_inj u r (D_wf u HDu) (D_wf r HDr) (D_bar u HDu) (D_bar r HDr) Ku).
Qed.

Lemma fires_property r : r ∈ property_all e l → S r.
Proof using D_wf D_closed D_bar S_D Hl Hnd He Hfires. intros Hr. apply fires. apply elem_of_app. by right. Qed.

Lemma S_wf t : S t → triple_wf t.
Proof using D_wf S_D. intros Ht. by apply D_wf, S_D. Qed.

(** ** Equality *)

Section classes.
Context (cls : list (list Term)) (u : unionFind) (Ec : classes (uf e) = (cls, u)).

Lemma class_of x y : same_as S x y → TermKey x ≠ TermKey y → ∃ ms, ms ∈ cls ∧ x ∈ ms ∧ y ∈ ms.
Proof using He Hc Ec.
  intros Hs Hne. destruct (oc_same S e Hc x y Hs Hne) as (Hsame & Hx & Hy).
  destruct (classes_ok (uf e) (os_uf D e He)) as (cls' & u' & Ec' & _ & _ & _ & Hin). rewrite Ec in Ec'. injection Ec' as <- <-. by apply Hin.
Qed.

Lemma class_once ms ms' x x' z : ms ∈ cls → ms' ∈ cls → x ∈ ms → x' ∈ ms' → TermKey x = TermKey x' → z ∈ ms → z ∈ ms'.
Proof using He Ec.
  intros Hms Hms' Hx Hx' Kx Hz. destruct (classes_ok (uf e) (os_uf D e He)) as (cls' & u' & Ec' & _ & _ & Hcls & _). rewrite Ec in Ec'. injection Ec' as <- <-.
  destruct (Hcls ms Hms) as (_ & _ & r & Hr), (Hcls ms' Hms') as (_ & _ & r' & Hr'). apply Hr in Hx as [_ Hx], Hz as [Hz0 Hz]. apply Hr' in Hx' as [_ Hx'].
  rewrite Kx in Hx. rewrite (root_fun _ _ _ _ Hx Hx') in Hz. by apply Hr'.
Qed.

Lemma replacement_of x y : same_as S x y → TermKey x ≠ TermKey y → y ∈ others x (entries (memberOf cls) (TermKey x)).
Proof using He Hc Ec.
  intros Hs Hne. destruct (class_of x y Hs Hne) as (ms & Hms & Hx & Hy). apply others_elem. split; [|congruence].
  eapply memberOf_complete; [exact class_once|done..].
Qed.

Lemma replaced t x y r : same_as S x y → TermKey x ≠ TermKey y → S t → r ∈ replacements (memberOf cls) t → S r.
Proof using D_wf D_closed D_bar S_D Hl Hnd He Hc Hfires Ec.
  intros Hs Hne Ht Hr. apply fires. unfold core_results, equality_results. rewrite Ec, !elem_of_app. left. right.
  destruct (classes_ok (uf e) (os_uf D e He)) as (cls' & u' & Ec' & Hu & Hsc & _ & _). rewrite Ec in Ec'. injection Ec' as <- <-.
  destruct (oc_same S e Hc x y Hs Hne) as (_ & Hx & _). replace (uf_terms (uf e)) with (uf_terms u) in Hx by (by apply Hsc).
  assert (is_Some (parent u !! TermKey x)) as [p Hp] by (apply (proj1 (proj2 Hu)); by eexists).
  assert ((0 <? uf_size u)%nat = true) as ->.
  { apply Nat.ltb_lt. unfold uf_size. destruct (size (parent u)) eqn:E; [|lia]. apply map_size_empty_inv in E. by rewrite E, lookup_empty in Hp. }
  apply list_elem_of_bind. exists t. split; [done|]. by apply Hl.
Qed.
End classes.

Lemma saturated_equality : eq_closed S.
Proof using D_wf D_closed D_bar S_D Hl Hnd He Hc Hfires.
  destruct (classes (uf e)) as [cls u] eqn:Ec.
  assert (Hs : ∀ s p o s', same_as S s s' → isSubject s' = true → S (MkTriple s p o) → S (MkTriple s' p o)).
  { intros s p o s' Hss Hsub Ht. destruct (decide (TermKey s = TermKey s')) as [E|E].
    - destruct (same_as_wf S S_wf s s' Hss) as [W W']. by rewrite <- (TermKey_inj s s' W W' E).
    - eapply (replaced cls u Ec); [exact Hss|exact E|exact Ht|]. unfold replacements. rewrite !elem_of_app. left. apply list_elem_of_fmap.
      exists s'. split; [done|]. apply elem_filter_bool. split; [|done]. by eapply replacement_of. }
  assert (Ho : ∀ s p o o', same_as S o o' → S (MkTriple s p o) → S (MkTriple s p o')).
  { intros s p o o' Hoo Ht. destruct (decide (TermKey o = TermKey o')) as [E|E].
    - destruct (same_as_wf S S_wf o o' Hoo) as [W W']. by rewrite <- (TermKey_inj o o' W W' E).
    - eapply (replaced cls u Ec); [exact Hoo|exact E|exact Ht|]. unfold replacements. rewrite !elem_of_app. right. left. apply list_elem_of_fmap.
      exists o'. split; [done|]. by eapply replacement_of. }
  split; [|exact Hs|exact Ho]. intros x y Hxy Sx Sy. destruct (decide (TermKey x = TermKey y)) as [E|E].
  - destruct (same_as_wf S S_wf x y Hxy) as [W W']. pose proof (TermKey_inj x y W W' E). subst y.
    assert (Hz : ∃ z, sc (same_step S) x z) by (clear -Hxy; inversion Hxy; subst; eexists; eassumption). destruct Hz as (z & [Hz|Hz]).
    + apply (Ho _ _ z); [|done]. apply tc_once. by right.
    + apply (Hs z); [|done|done]. apply tc_once. by left.
  - destruct (class_of cls u Ec x y Hxy E) as (ms & Hms & Hx & Hy). apply fires. unfold core_results, equality_results. rewrite Ec, !elem_of_app. left. left.
    apply list_elem_of_bind. exists ms. split; [|done]. apply class_pairs_elem; [|by exists x, y]. by eapply (class_members D D_wf e He cls u Ec).
Qed.

(** ** Properties *)

Lemma classes_in m x c : linked_classes D m → classes_complete S m → S (MkTriple x OWL_EquivalentClass c) → isSubject c = true →
  c ∈ entries m (TermKey x) ∧ x ∈ entries m (TermKey c).
Proof using D_wf S_D.
  intros Hs Hm Hx Hc'. destruct (Hm x c Hx Hc') as [H1 H2]. pose proof (S_wf _ Hx) as (Wx & _ & _ & Wc). cbn in Wx, Wc.
  assert (Hin : ∀ k a, term_wf a → TermKey a ∈ TermKey <$> entries m k → a ∈ entries m k).
  { intros k a Wa (a' & Ka & Ha)%list_elem_of_fmap. assert (a = a') as ->; [|done]. apply TermKey_inj; [done| |done].
    destruct (Hs k a' Ha) as (y & _ & [[_ Hy]|[_ Hy]]); apply D_wf in Hy as (? & _ & _ & ?); done. }
  split; by apply Hin.
Qed.

(** What the rules that look at one triple derive. *)
Lemma fires_one t r : S t → r ∈ property_results e t → S r.
Proof using D_wf D_closed D_bar S_D Hl Hnd He Hfires.
  intros Ht Hr. apply fires_property. unfold property_all. rewrite !elem_of_app. left. apply list_elem_of_bind. exists t. split; [done|by apply Hl].
Qed.

Lemma fires_inverse s p q o : S (MkTriple s p o) → q ∈ entries (inverseOf e) (uri_key p) → isSubject o = true → S (MkTriple o q s).
Proof using D_wf D_closed D_bar S_D Hl Hnd He Hfires.
  intros Ht Hq Ho. apply (fires_one _ _ Ht). unfold property_results. rewrite !elem_of_app. right. left. cbn [Subject Predicate Object]. rewrite Ho.
  apply list_elem_of_fmap. by exists q.
Qed.

Lemma fires_equivalent s p q o : S (MkTriple s p o) → q ∈ entries (equivProp e) (uri_key p) → S (MkTriple s q o).
Proof using D_wf D_closed D_bar S_D Hl Hnd He Hfires.
  intros Ht Hq. apply (fires_one _ _ Ht). unfold property_results. rewrite !elem_of_app. right. right. left. apply list_elem_of_fmap. by exists q.
Qed.

Lemma fires_class s c c' : S (MkTriple s RDF_Type c) → c' ∈ entries (equivClass e) (TermKey c) → S (MkTriple s RDF_Type c').
Proof using D_wf D_closed D_bar S_D Hl Hnd He Hfires.
  intros Ht Hc'. apply (fires_one _ _ Ht). unfold property_results. rewrite !elem_of_app. right. right. right. cbn [Subject Predicate Object].
  rewrite String.eqb_refl. apply list_elem_of_fmap. by exists c'.
Qed.

Lemma fires_symmetric s p o : S (MkTriple s p o) → uri_key p ∈ symmetricProps e → isSubject o = true → S (MkTriple o p s).
Proof using D_wf D_closed D_bar S_D Hl Hnd He Hfires.
  intros Ht Hp Ho. apply (fires_one _ _ Ht). unfold property_results. rewrite !elem_of_app. left. cbn [Subject Predicate Object].
  rewrite bool_decide_eq_true_2, Ho by done. by left.
Qed.

(** Triples of one property, from their keys. *)
Lemma same_property t p : S t → uri_ok p → uri_key (Predicate t) = uri_key p → t = MkTriple (Subject t) p (Object t).
Proof using D_wf S_D. intros Ht Hp Hk. rewrite <- (pred_eq D D_wf t p (S_D t Ht) Hp Hk). by destruct t. Qed.

Lemma fires_transitive p x y z : uri_key p ∈ transitiveProps e → S (MkTriple x p y) → S (MkTriple y p z) → S (MkTriple x p z).
Proof using D_wf D_closed D_bar S_D Hl Hnd He Hfires.
  intros Hp H1 H2. pose proof (S_wf _ H1) as (_ & _ & Wp & _). pose proof (S_wf _ H2) as (_ & _ & _ & Wz). cbn in Wp, Wz.
  destruct (proj2 (edges_ok e l) (MkTriple x p y) ltac:(by apply Hl) Hp) as [pe Hpe]. cbn [Predicate] in Hpe.
  destruct (proj1 (edges_ok e l) _ _ Hpe) as (_ & (t0 & Ht0%Hl & E0 & K0) & Hfwd). rewrite E0 in K0.
  assert (Ep : pe_pred pe = p) by (apply uri_key_inj; [|done|done]; rewrite <- E0; by apply S_wf in Ht0 as (_ & _ & ? & _)).
  assert (Hz : reachable TermKey (pe_fwd pe) (TermKey y) z).
  { exists (TermKey y). split; [reflexivity|]. apply Hfwd. exists (MkTriple y p z). split; [by apply Hl|done]. }
  assert (Hin : ∀ c, c ∈ walk_edges (pe_fwd pe) y → S (MkTriple x p c)).
  { intros c Hcw. apply fires_property. unfold property_all. rewrite !elem_of_app. right. left. apply list_elem_of_bind. exists (uri_key p, pe).
    split; [|by rewrite range_perm, elem_of_map_to_list]. cbn [snd]. unfold transitive_results. apply list_elem_of_bind. exists (MkTriple x p y).
    split; [|by apply Hl]. cbn [Subject Predicate Object]. rewrite Ep, String.eqb_refl. apply list_elem_of_fmap. by exists c. }
  destruct (proj2 (walk_edges_ok (pe_fwd pe) y) z Hz) as [Kz|(c & Kc & Hcw)%list_elem_of_fmap].
  - assert (z = y) as ->; [|done]. apply TermKey_inj; [done|by apply S_wf in H1 as (_ & _ & _ & ?)|done].
  - assert (z = c) as ->; [|by apply Hin]. apply TermKey_inj; [done| |done]. apply Hin in Hcw. by apply S_wf in Hcw as (_ & _ & _ & ?).
Qed.

Lemma fires_functional p x y1 y2 : S (MkTriple (U p) RDF_Type (U OWL_FunctionalProperty)) → S (MkTriple x p y1) → S (MkTriple x p y2) →
  TermKey y1 ≠ TermKey y2 → same_as S y1 y2.
Proof using D_wf D_closed D_bar D_fp S_D Hl Hnd He Hc Hfires.
  intros Hty H1 H2 Hne. pose proof (oc_func S e Hc _ Hty) as Hk. cbn [TermKey] in Hk. pose proof (S_wf _ H1) as (_ & _ & Wp & _). cbn in Wp.
  set (objs := entries2 (foldl (group_functional e) ∅ l) (uri_key p, TermKey x)).
  assert (Hin : ∀ y, S (MkTriple x p y) → y ∈ objs).
  { intros y Hy. unfold objs. rewrite functional_group. apply group2_elem. exists (MkTriple x p y). split; [by apply Hl|]. by rewrite bool_decide_eq_true_2. }
  assert (Hsub : ∀ y, y ∈ objs → isSubject y = true).
  { intros y Hy. unfold objs in Hy. rewrite functional_group in Hy. apply group2_elem in Hy as (t & Ht%Hl & _ & [= Kp _] & <-).
    rewrite (same_property t p Ht Wp Kp) in Ht. eapply D_fp; apply S_D; [exact Hty|exact Ht]. }
  eapply same_as_mono; [|by apply (subject_pairs_same objs); [apply Hin|apply Hin|]]. cbn beta. intros t Ht. apply fires_property. unfold property_all. rewrite !elem_of_app. right. right. left.
  apply list_elem_of_bind. exists ((uri_key p, TermKey x), objs). split; [cbn [snd]; by rewrite (star_pairs_subjects objs Hsub)|].
  pose proof (Hin y1 H1) as Hy1. unfold objs in *. rewrite functional_group in *. by eapply group2_range_elem.
Qed.

Lemma fires_invFunc p x1 x2 y : S (MkTriple (U p) RDF_Type (U OWL_InverseFunctionalProperty)) → S (MkTriple x1 p y) → S (MkTriple x2 p y) →
  TermKey x1 ≠ TermKey x2 → same_as S x1 x2.
Proof using D_wf D_closed D_bar S_D Hl Hnd He Hc Hfires.
  intros Hty H1 H2 Hne. pose proof (oc_ifunc S e Hc _ Hty) as Hk. cbn [TermKey] in Hk.
  set (subjs := entries2 (foldl (group_invFunc e) ∅ l) (uri_key p, TermKey y)).
  assert (Hin : ∀ x, S (MkTriple x p y) → x ∈ subjs).
  { intros x Hx. unfold subjs. rewrite invFunc_group. apply group2_elem. exists (MkTriple x p y). split; [by apply Hl|]. by rewrite bool_decide_eq_true_2. }
  eapply same_as_mono; [|by apply (subject_pairs_same subjs); [apply Hin|apply Hin|]]. cbn beta. intros t Ht. apply fires_property. unfold property_all. rewrite !elem_of_app. right. right. right.
  apply list_elem_of_bind. exists ((uri_key p, TermKey y), subjs). split; [done|].
  pose proof (Hin x1 H1) as Hy1. unfold subjs in *. rewrite invFunc_group in *. by eapply group2_range_elem.
Qed.

Lemma saturated_property : property_closed S.
Proof using D_wf D_closed D_bar D_fp S_D Hl Hnd He Hc Hfires.
  destruct saturated_equality as [Hsame _ _]. split.
  - intros s p o Hty Ht Ho. eapply fires_symmetric; [exact Ht|by apply (oc_sym S e Hc) in Hty|done].
  - intros s p1 p2 o Hi Ht Ho. eapply fires_inverse; [exact Ht|by apply (linked_in D S D_wf S_D _ _ _ _ (os_inv D e He) (oc_inv S e Hc) Hi)|done].
  - intros s p1 p2 o Hi Ht Ho. eapply fires_inverse; [exact Ht|by apply (linked_in D S D_wf S_D _ _ _ _ (os_inv D e He) (oc_inv S e Hc) Hi)|done].
  - intros s p1 p2 o Hi Ht. eapply fires_equivalent; [exact Ht|by apply (linked_in D S D_wf S_D _ _ _ _ (os_eqp D e He) (oc_eqp S e Hc) Hi)].
  - intros s p1 p2 o Hi Ht. eapply fires_equivalent; [exact Ht|by apply (linked_in D S D_wf S_D _ _ _ _ (os_eqp D e He) (oc_eqp S e Hc) Hi)].
  - intros s c1 c2 Hi Hs Ht. eapply fires_class; [exact Ht|by apply (classes_in _ _ _ (os_eqc D e He) (oc_eqc S e Hc) Hi)].
  - intros s c1 c2 Hi Hs Ht. eapply fires_class; [exact Ht|by apply (classes_in _ _ _ (os_eqc D e He) (oc_eqc S e Hc) Hi)].
  - intros p x y z Hty H1 H2. eapply fires_transitive; [by apply (oc_trans S e Hc) in Hty|exact H1|exact H2].
  - intros p x y1 y2 Hty H1 H2 S1 S2 Hne. apply Hsame; [|done|done]. by eapply fires_functional.
  - intros p x1 x2 y Hty H1 H2 Hne. apply Hsame; [by eapply fires_invFunc|by apply S_wf in H1 as (_ & ? & _)|by apply S_wf in H2 as (_ & ? & _)].
Qed.

Lemma saturated_core : core_closed false S.
Proof using D_wf D_closed D_bar D_fp S_D Hl Hnd He Hc Hfires.
  split; [done|]. split; [apply saturated_equality|apply saturated_property].
Qed.
End core.

(** ** Runs *)

(** The keys of the terms of some triples, of [rdf:type] and of [owl:sameAs]. *)
Definition owl_universe (l : list Triple) : list string := uri_key OWL_SameAs :: key_universe l.

Section run.
Context {St : Type} {store_St : Store St} {laws_St : StoreLaws St} `{GoRange} (g : Graph_).
Abbreviation has st t := (t ∈ graph_triples (graph_of st g)).

Lemma graph_triples_length (m : gcontent) : length (graph_triples m) = size m.
Proof. unfold graph_triples. rewrite length_fmap. apply length_map_to_list. Qed.

Lemma owl_fuel_size (st : St) : sinv st → owl_fuel g st = Datatypes.S (Datatypes.S ((3 * size (graph_of st g) + 2) * (3 * size (graph_of st g) + 2) * (3 * size (graph_of st g) + 2))).
Proof.
  intros Hs. unfold owl_fuel. destruct (g_triples_ok st g None None None Hs) as (l & -> & _ & Hl). rewrite matching_all in Hl. rewrite length_fmap, Hl. by rewrite graph_triples_length.
Qed.

Lemma owl_derivable_bound b (st0 st : St) : sinv st0 → sinv st → (∀ t, has st t → owl_derives b (λ t, has st0 t) t) →
  size (graph_of st g) ≤ pred (pred (owl_fuel g st0)).
Proof.
  intros Hs0 Hs HD. rewrite owl_fuel_size by done. cbn [pred]. set (l := graph_triples (graph_of st0 g)).
  assert (Hlen : length (owl_universe l) = 3 * size (graph_of st0 g) + 2).
  { unfold owl_universe. cbn [length]. rewrite key_universe_length. assert (El : length l = size (graph_of st0 g)) by apply graph_triples_length. lia. }
  rewrite <- Hlen. apply keyed_size; [by apply graph_of_keyed|]. intros t Ht%HD.
  assert (HT : travels (λ x, TermKey x ∈ owl_universe l) (λ _, True) t).
  { apply (owl_travels (λ x, TermKey x ∈ owl_universe l) (λ _, True)) with b (λ t, has st0 t); [apply elem_of_cons; right; apply elem_of_cons; by left|done|apply elem_of_cons; by left|done| |exact Ht].
    intros u Hu. split_and!; try done; apply elem_of_cons; right; apply (key_universe_elem l u); set_solver. }
  destruct HT as (? & _ & ? & _ & ? & _). by split_and!.
Qed.

Context (b : bool) (G : Triple → Prop) (G_wf : ∀ t, G t → triple_wf t) (G_lists : lists_ok G (owl_derives b G)).

Lemma newOWLRLEngine_run_ok (st : St) s : owl_between g b G st →
  (∀ st', sinv st' → (∀ t, has st' t → owl_derives b G t) → size (graph_of st' g) ≤ pred (pred (owl_fuel g st))) →
  owl_result g b G 0 s st (newOWLRLEngine_run g s st).
Proof using G_wf G_lists.
  intros Hb HN. pose proof Hb as (Hs & HD & HG). set (G_D := λ t, owl_given b G t). set (D_wf := λ t, owl_derives_wf b G t G_wf).
  unfold newOWLRLEngine_run. pose proof (sp_length_spec g st s Hs) as L0. destruct (sp_length g st s) as [z s0]. cbn [snd] in L0. unfold owl_run.
  destruct (sp_scan_spec g None None None (λ t d, (addNew d (Subject t) (Predicate t) (Object t)).2) st s0 ∅ Hs) as (l & s1 & -> & L1 & _ & H1). rewrite fold_addNew.
  destruct (owl_build_ok g G (owl_derives b G) D_wf G_D G_lists st Hs HD HG s1) as (s2 & e & -> & L2 & Hc).
  assert (L : later s s2) by (do 2 (etrans; [eassumption|]); done).
  eapply owl_result_after; [exact L|done|done|instantiate (1 := 0%Z); lia|]. apply (owl_loop_ok g b G G_wf G_lists (pred (pred (owl_fuel g st))) HN); [done| |].
  - intros Hf. destruct (Hc Hf) as [He Hic]. split; [done|]. split; [done|]. destruct H1 as [H1|H1]; [by rewrite (proj1 (proj2 L2) H1) in Hf|].
    rewrite matching_all in H1. intros k. rewrite elem_of_union, elem_of_list_to_set, list_elem_of_fmap. setoid_rewrite H1. set_solver.
  - rewrite owl_fuel_size by done. cbn [pred]. lia.
Qed.

(** What it takes for the core rules to be complete: keys of triples are joined
    with a vertical bar, which no IRI contains, and the values of functional
    properties are resources. *)
Definition functional_resources : Prop :=
  ∀ p x y, owl_derives b G (MkTriple (U p) RDF_Type (U OWL_FunctionalProperty)) → owl_derives b G (MkTriple x p y) → isSubject y = true.

Lemma owl_saturated_core st : owl_between g b G st → (∀ t, G t → bar_free t) → functional_resources → owl_saturated g b G st → core_closed false (λ t, has st t).
Proof using G_wf.
  intros (Hs & HD & HG) Hbar Hfp (e & l & He & Hc & Hl & Hnd & Hfires).
  refine (saturated_core b (owl_derives b G) (λ t, owl_derives_wf b G t G_wf) (owl_derives_closed b G) (λ t, owl_derives_bar_free b G t Hbar) Hfp _ HD l _ Hnd e He Hc Hfires).
  intros t. by rewrite Hl.
Qed.
End run.

(** ** The closure *)

Section properties.
Context {St : Type} {store_St : Store St} {laws_St : StoreLaws St} `{GoRange}.
Abbreviation graph st g := (λ t, t ∈ graph_triples (graph_of st g)).

Lemma failure_halted s : failure s = None ↔ halted s = false.
Proof. unfold failure, halted. by destruct (sp_err s). Qed.

Lemma OWLRLClosureCheck_ok ctx (st : St) g : sinv st → graph_wf (graph_of st g) → lists_ok (graph st g) (owl_derives false (graph st g)) →
  ∃ n ic err s' st', OWLRLClosureCheck ctx g st = (n, ic, err, st') ∧ later (newStopper ctx) s' ∧ err = failure s' ∧
    owl_between g false (graph st g) st' ∧ n = (Z.of_nat (size (graph_of st' g)) - Z.of_nat (size (graph_of st g)))%Z ∧
    (halted s' = false → owl_saturated g false (graph st g) st' ∧ owl_checked g false (graph st g) st' ic).
Proof.
  intros Hs Hwf Hlists. unfold OWLRLClosureCheck.
  assert (HR : owl_result g false (graph st g) 0 (newStopper ctx) st (newOWLRLEngine_run g (newStopper ctx) st)).
  { apply newOWLRLEngine_run_ok; [intros t; by apply graph_triple_wf|done| |].
    - split; [done|]. split; [intros t; apply (owl_given false (graph st g))|done].
    - intros st' Hs' HD. by apply (owl_derivable_bound g false). }
  destruct (newOWLRLEngine_run g (newStopper ctx) st) as [[[n ic] s'] st']. destruct HR as (L & Hb & _ & _ & Hn & Hsat).
  exists n, (match failure s' with Some _ => [] | None => ic end), (failure s'), s', st'. split; [by destruct (failure s')|]. split; [done|]. split; [done|]. split; [done|]. split; [rewrite Hn; lia|]. intros Hf. rewrite (proj2 (failure_halted s') Hf). by apply Hsat.
Qed.


End properties.

(** ** Concrete inputs *)

#[local] Instance owl_range_instance : GoRange | 100 := sorted_range.

Definition ex_blank (n : string) : Term := TBNode (MkBNode ("B:" +:+ n)).
Definition ex_nodes : list Term := (ex_blank <$> ["l1"; "l2"; "k1"; "k2"]) ++ [U RDF_Nil].

(** A class that is an intersection, a chain of properties, a transitive property,
    and instances of them. *)
Definition ex_owl : list Triple :=
  [MkTriple (ex_class "C") OWL_IntersectionOf (ex_blank "l1");
   MkTriple (ex_blank "l1") RDF_First (ex_class "A"); MkTriple (ex_blank "l1") RDF_Rest (ex_blank "l2");
   MkTriple (ex_blank "l2") RDF_First (ex_class "B"); MkTriple (ex_blank "l2") RDF_Rest (U RDF_Nil);
   MkTriple (ex_class "grandparent") OWL_PropertyChainAxiom (ex_blank "k1");
   MkTriple (ex_blank "k1") RDF_First (ex_class "parent"); MkTriple (ex_blank "k1") RDF_Rest (ex_blank "k2");
   MkTriple (ex_blank "k2") RDF_First (ex_class "parent"); MkTriple (ex_blank "k2") RDF_Rest (U RDF_Nil);
   MkTriple (ex_class "x") RDF_Type (ex_class "A"); MkTriple (ex_class "x") RDF_Type (ex_class "B");
   MkTriple (ex_class "a") (ex_iri "parent") (ex_class "b"); MkTriple (ex_class "b") (ex_iri "parent") (ex_class "c");
   MkTriple (ex_class "ancestor") RDF_Type (U OWL_TransitiveProperty);
   MkTriple (ex_class "a") (ex_iri "ancestor") (ex_class "b"); MkTriple (ex_class "b") (ex_iri "ancestor") (ex_class "c")].

Abbreviation ex_owl_graph := (λ t, t ∈ graph_triples (graph_of (ex_rdfs ex_owl) ex_node)).

Lemma ex_owl_ok : Forall (λ t, triple_wf t ∧ bar_free t) ex_owl.
Proof. repeat constructor; try (by eexists); try (eexists; split; [|reflexivity]; done); by vm_compute. Qed.

Lemma ex_graph_elem l : Forall (λ t, graph_of (ex_rdfs l) ex_node !! tkey t = Some t) l → ∀ t, t ∈ graph_triples (graph_of (ex_rdfs l) ex_node) ↔ t ∈ l.
Proof.
  intros Hin t. assert (Hk : graph_all (λ t, t ∈ l) (graph_of (ex_rdfs l) ex_node)) by (apply ex_rdfs_all; by apply Forall_forall).
  destruct Hk as [Hk Ha]. rewrite graph_triples_elem by done. split; [apply Ha|]. rewrite Forall_forall in Hin. apply Hin.
Qed.

Lemma ex_owl_elem t : ex_owl_graph t ↔ t ∈ ex_owl.
Proof. apply ex_graph_elem. repeat constructor; by vm_compute. Qed.

Lemma ex_owl_wf : graph_wf (graph_of (ex_rdfs ex_owl) ex_node).
Proof. apply ex_rdfs_all. eapply Forall_impl; [exact ex_owl_ok|]. by intros t [? _]. Qed.

Lemma ex_owl_bar t : ex_owl_graph t → bar_free t.
Proof. intros Ht%ex_owl_elem. pose proof ex_owl_ok as Hall. rewrite Forall_forall in Hall. by apply Hall. Qed.

Lemma ex_owl_plain : plain_lists ex_owl_graph (λ x, x ∈ ex_nodes).
Proof.
  apply (plain_lists_iff (λ t, t ∈ ex_owl)); [intros t; symmetry; apply ex_owl_elem|]. apply plain_check_ok. by vm_compute.
Qed.

Lemma ex_owl_functional b : functional_resources b ex_owl_graph.
Proof. intros p x y Hp. exfalso. by eapply plain_functional; [exact ex_owl_plain|exact Hp]. Qed.



(** What it adds: [x] is a [C], [a] has [c] as ancestor and as grandparent. *)
Lemma ex_owl_added : (OWLRLClosure background ex_node (ex_rdfs ex_owl)).1 = (3%Z, None) ∧
  let st' := (OWLRLClosure background ex_node (ex_rdfs ex_owl)).2 in
  ∀ t, t ∈ [MkTriple (ex_class "x") RDF_Type (ex_class "C"); MkTriple (ex_class "a") (ex_iri "ancestor") (ex_class "c");
            MkTriple (ex_class "a") (ex_iri "grandparent") (ex_class "c")] → graph_of st' ex_node !! tkey t = Some t.
Proof.
  split; [by vm_compute|]. intros st' t Ht. assert (Hall : Forall (λ t, graph_of st' ex_node !! tkey t = Some t)
    [MkTriple (ex_class "x") RDF_Type (ex_class "C"); MkTriple (ex_class "a") (ex_iri "ancestor") (ex_class "c");
     MkTriple (ex_class "a") (ex_iri "grandparent") (ex_class "c")]) by (repeat constructor; by vm_compute).
  rewrite Forall_forall in Hall. by apply Hall.
Qed.

(** An individual of two disjoint classes; an asymmetric property that relates two
    individuals both ways; and a second asymmetric property that relates an individual
    to itself, which is not reported. *)
Definition ex_clash : list Triple :=
  [MkTriple (ex_class "C") OWL_DisjointWith (ex_class "D"); MkTriple (ex_class "x") RDF_Type (ex_class "C");
   MkTriple (ex_class "x") RDF_Type (ex_class "D"); MkTriple (ex_class "parent") RDF_Type (U OWL_AsymmetricProperty);
   MkTriple (ex_class "a") (ex_iri "parent") (ex_class "b"); MkTriple (ex_class "b") (ex_iri "parent") (ex_class "a");
   MkTriple (ex_class "knows") RDF_Type (U OWL_AsymmetricProperty); MkTriple (ex_class "a") (ex_iri "knows") (ex_class "a")].

Lemma ex_clash_reported : Rule <$> (OWLRLClosureCheck background ex_node (ex_rdfs ex_clash)).1.1.2 = ["prp-asyp"; "cax-dw"].
Proof. by vm_compute. Qed.

Abbreviation ex_clash_graph := (λ t, t ∈ graph_triples (graph_of (ex_rdfs ex_clash) ex_node)).

Lemma ex_clash_elem t : ex_clash_graph t ↔ t ∈ ex_clash.
Proof. apply ex_graph_elem. repeat constructor; by vm_compute. Qed.

Lemma ex_clash_wf : graph_wf (graph_of (ex_rdfs ex_clash) ex_node).
Proof. apply ex_rdfs_all. repeat constructor; try (by eexists); try (eexists; split; [|reflexivity]; done); by vm_compute. Qed.

Lemma ex_clash_plain : plain_lists ex_clash_graph (λ x, x ∈ [U RDF_Nil]).
Proof. apply (plain_lists_iff (λ t, t ∈ ex_clash)); [intros t; symmetry; apply ex_clash_elem|]. apply plain_check_ok. by vm_compute. Qed.


(** A cell of a list that a pass derives does not make the indexes be rebuilt: the
    first run ends with the union unread, and a second one adds the type of [x]. *)
Definition ex_late : list Triple :=
  [MkTriple (ex_class "item") OWL_EquivalentProperty (U RDF_First); MkTriple (ex_class "C") OWL_UnionOf (ex_blank "l1");
   MkTriple (ex_blank "l1") (ex_iri "item") (ex_class "A"); MkTriple (ex_blank "l1") RDF_Rest (U RDF_Nil);
   MkTriple (ex_class "x") RDF_Type (ex_class "A")].

Lemma ex_late_twice : let '(n, _, st) := OWLRLClosure background ex_node (ex_rdfs ex_late) in
  (n, (OWLRLClosure background ex_node st).1.1) = (1%Z, 1%Z).
Proof. by vm_compute. Qed.

(** A literal read before two resources keeps a functional property from equating
    them. *)
Definition ex_values (l : list Term) : list Triple :=
  MkTriple (ex_class "p") RDF_Type (U OWL_FunctionalProperty) :: (MkTriple (ex_class "x") (ex_iri "p") <$> l).

Lemma ex_values_missed : let run l := (OWLRLClosure background ex_node (ex_rdfs (ex_values l))).1.1 in
  let one := TLiteral (NewLiteral (VString "1") []) in
  (run [ex_class "a"; ex_class "b"; one], run [one; ex_class "a"; ex_class "b"]) = (4%Z, 0%Z).
Proof. by vm_compute. Qed.

(** A member of a chain that is not an IRI is left out of its index: the chain of
    [p], an anonymous property and [q] is applied as that of [p] and [q]. *)
Definition ex_short_chain : list Triple :=
  [MkTriple (ex_class "c") OWL_PropertyChainAxiom (ex_blank "k1");
   MkTriple (ex_blank "k1") RDF_First (ex_class "p"); MkTriple (ex_blank "k1") RDF_Rest (ex_blank "k2");
   MkTriple (ex_blank "k2") RDF_First (ex_blank "i"); MkTriple (ex_blank "k2") RDF_Rest (ex_blank "k3");
   MkTriple (ex_blank "k3") RDF_First (ex_class "q"); MkTriple (ex_blank "k3") RDF_Rest (U RDF_Nil);
   MkTriple (ex_class "x") (ex_iri "p") (ex_class "y"); MkTriple (ex_class "y") (ex_iri "q") (ex_class "z")].

Lemma ex_chain_shortened : let '(n, err, st) := OWLRLClosure background ex_node (ex_rdfs ex_short_chain) in
  let t := MkTriple (ex_class "x") (ex_iri "c") (ex_class "z") in
  (n, err, graph_of st ex_node !! tkey t) = (1%Z, None, Some t).
Proof. by vm_compute. Qed.
