(* ===== verification/OwlExpand.v ===== *)
(** * Entailment regimes: RDFS and OWL 2 RL together

    Expanding a graph alternates the two closures until neither adds a triple. *)

From S2P Require Import Prelude GoStrings Strconv Term TermKey TripleIndex Store MemoryStore Graph Collection Reasoning Rdfs RdfsCorrect UnionFind Owl OwlRules OwlEngine OwlSpec OwlIndex OwlInput OwlBuild OwlPasses OwlClash OwlRun OwlCorrect.
From stdpp Require Import relations options.

Section expand.
Context {St : Type} {store_St : Store St} {laws_St : StoreLaws St} `{GoRange} (g : Graph_).
Abbreviation has st t := (t ∈ graph_triples (graph_of st g)).

(** A graph that has grown by nothing is the same. *)
Lemma same_size_same (st st' : St) : sinv st → sinv st' → (∀ t, has st t → has st' t) → size (graph_of st' g) = size (graph_of st g) →
  ∀ t, has st' t → has st t.
Proof.
  intros Hs Hs' Hsub Hsz t Ht. destruct (g_triples_ok st g None None None Hs) as (l & _ & Hnd & Hl), (g_triples_ok st' g None None None Hs') as (l' & _ & Hnd' & Hl').
  rewrite matching_all in Hl, Hl'. assert (Hlen : length l' ≤ length l) by (pose proof (graph_triples_length (graph_of st g)); pose proof (graph_triples_length (graph_of st' g)); rewrite Hl, Hl'; lia).
  assert (Hm : l ⊆+ l') by (apply NoDup_submseteq; [done|]; intros u; rewrite Hl, Hl'; apply Hsub).
  apply submseteq_length_Permutation in Hm; [|done]. by rewrite <- Hl, Hm, Hl'.
Qed.

Lemma graph_wf_has st : sinv st → (∀ t, has st t → triple_wf t) → graph_wf (graph_of st g).
Proof.
  intros Hs Hw. pose proof (graph_of_keyed st g Hs) as Hk. split; [done|]. intros k t Hin. apply Hw, graph_triples_elem; [done|]. by rewrite (Hk _ _ Hin).
Qed.

Lemma rdfs_derives_closed (G : Triple → Prop) : rdfs_closed (rdfs_derives G).
Proof. split; eauto using rdfs_derives. Qed.

Lemma rdfs_closed_iff (S S' : Triple → Prop) : (∀ t, S t ↔ S' t) → rdfs_closed S → rdfs_closed S'.
Proof. intros HS [H1 H2 H3 H4]. split; intros *; rewrite <- ?HS; eauto. Qed.

Lemma eq_closed_iff (S S' : Triple → Prop) : (∀ t, S t ↔ S' t) → eq_closed S → eq_closed S'.
Proof.
  intros HS [H1 H2 H3]. assert (Hs : ∀ x y, same_as S' x y → same_as S x y) by (intros x y; apply same_as_mono; intros t; apply HS).
  split; intros *; rewrite <- ?HS; eauto.
Qed.

Lemma property_closed_iff (S S' : Triple → Prop) : (∀ t, S t ↔ S' t) → property_closed S → property_closed S'.
Proof. intros HS []. split; intros *; rewrite <- ?HS; eauto. Qed.

Context (G : Triple → Prop) (G_wf : ∀ t, G t → triple_wf t) (G_bar : ∀ t, G t → bar_free t).
Abbreviation D := (owl_derives true G).
Context (G_lists : lists_ok G D) (G_fp : functional_resources true G).
Context (N : nat) (D_bound : ∀ st, sinv st → (∀ t, has st t → D t) → size (graph_of st g) ≤ N).

Definition grown (total : Z) st (total' : Z) st' : Prop :=
  (∀ t, has st t → has st' t) ∧ size (graph_of st g) ≤ size (graph_of st' g) ∧
  total' = (total + Z.of_nat (size (graph_of st' g)) - Z.of_nat (size (graph_of st g)))%Z.

Lemma grown_trans n st n1 st1 n2 st2 : grown n st n1 st1 → grown n1 st1 n2 st2 → grown n st n2 st2.
Proof. intros (A1 & A2 & A3) (B1 & B2 & B3). split; [auto|]. split; [lia|]. lia. Qed.

Lemma grown_add total n st st' : grown 0 st n st' → grown total st (total + n) st'.
Proof. intros (A1 & A2 & A3). split; [done|]. split; [done|]. lia. Qed.

(** One closure by RDFS. *)
Lemma rdfs_step s st : owl_between g true G st →
  ∃ n s' st', newRDFSEngine_run g s st = (n, s', st') ∧ later s s' ∧ owl_between g true G st' ∧ grown 0 st n st' ∧
    (∀ t, has st' t → rdfs_derives (λ t, has st t) t) ∧
    (halted s' = false → ∀ t, rdfs_derives (λ t, has st t) t → has st' t).
Proof using G_wf G_bar.
  intros (Hs & HD & HG). assert (Hw : ∀ t, has st t → triple_wf t) by (intros t Ht; by eapply owl_derives_wf; [exact G_wf|apply HD]).
  pose proof (newRDFSEngine_run_ok g s st Hs (graph_wf_has st Hs Hw)) as HR. destruct (newRDFSEngine_run g s st) as [[n s'] st'].
  destruct HR as (L & Hs' & HD' & Hsub & Hsz & Hn & Hsat). exists n, s', st'. split; [done|]. split; [done|]. split; [|split; [|split; [exact HD'|]]].
  - split; [done|]. split; [|auto]. intros t Ht%HD'%rdfs_derives_owl. apply owl_derives_idem. by eapply owl_derives_mono; [|exact Ht].
  - done.
  - intros Hf. destruct Hsat as [|Hsat]; [congruence|]. eapply (saturated_complete g _ Hw); [|exact HD'|exact Hsub|exact Hsat].
    intros t Ht. by eapply owl_derives_bar_free; [exact G_bar|apply HD].
Qed.

(** One closure by OWL 2 RL. *)
Lemma owl_step s st : owl_between g true G st → N ≤ pred (pred (owl_fuel g st)) →
  ∃ n ic s' st', newOWLRLEngine_run g s st = (n, ic, s', st') ∧ later s s' ∧ owl_between g true G st' ∧ grown 0 st n st' ∧
    (halted s' = false → core_closed false (λ t, has st' t)).
Proof using G_wf G_bar G_lists G_fp D_bound.
  intros Hb HN. pose proof (newOWLRLEngine_run_ok g true G G_wf G_lists st s Hb) as HR. destruct (newOWLRLEngine_run g s st) as [[[n ic] s'] st'].
  destruct HR as (L & Hb' & Hsub & Hsz & Hn & Hsat); [intros st2 Hs2 HD2; etrans; [by apply D_bound|done]|].
  exists n, ic, s', st'. split; [done|]. split; [done|]. split; [done|]. split; [done|]. intros Hf.
  eapply owl_saturated_core; [exact G_wf|exact Hb'|exact G_bar|exact G_fp|by apply Hsat].
Qed.

Lemma owl_fuel_mono (st st' : St) : sinv st → sinv st' → size (graph_of st g) ≤ size (graph_of st' g) → owl_fuel g st ≤ owl_fuel g st'.
Proof. intros Hs Hs' Hsz. rewrite !owl_fuel_size by done. do 2 apply le_n_S. repeat apply Nat.mul_le_mono; lia. Qed.

(** The alternation: each round but the last adds a triple. *)
Definition expanded (s : stopper) st (res : Z * list Inconsistency * option error * St) (total : Z) : Prop :=
  let '(n, _, err, st') := res in
  owl_between g true G st' ∧ grown total st n st' ∧ (err = None → core_closed true (λ t, has st' t)) ∧
  (sp_ctx s = background → halted s = false → err = None).

Lemma expand_loop_ok fuel : ∀ total s st, owl_between g true G st → N ≤ pred (pred (owl_fuel g st)) →
  rdfs_closed (λ t, has st t) → N - size (graph_of st g) < fuel → expanded s st (expand_loop fuel g total s st) total.
Proof using G_wf G_bar G_lists G_fp D_bound.
  induction fuel as [|fuel IH]; intros total s st Hb HN Hrdfs Hf; [lia|]. cbn [expand_loop].
  destruct (owl_step s st Hb HN) as (n & ic & s1 & st1 & -> & L1 & Hb1 & Hg1 & Hcore).
  destruct (failure s1) as [err|] eqn:E1.
  { split; [done|]. split; [by apply grown_add|]. split; [done|]. intros Hbg Hh. destruct (halted s1) eqn:Eh; [by rewrite (proj2 (proj2 L1) Hbg Eh) in Hh|].
    apply failure_halted in Eh. congruence. }
  apply failure_halted in E1. specialize (Hcore E1). destruct (Z.eqb_spec n 0) as [->|Hn].
  { split; [done|]. split; [by apply grown_add|]. split; [|done]. intros _. split; [intros _|apply Hcore].
    eapply rdfs_closed_iff; [|exact Hrdfs]. intros t. split; [apply Hg1|]. apply same_size_same; [apply Hb|apply Hb1|apply Hg1|]. destruct Hg1 as (_ & ? & ?). lia. }
  destruct (rdfs_step s1 st1 Hb1) as (m & s2 & st2 & -> & L2 & Hb2 & Hg2 & Hsnd & Hcpl).
  pose proof (grown_trans _ _ _ _ _ _ (grown_add total _ _ _ Hg1) (grown_add (total + n) _ _ _ Hg2)) as Hg.
  destruct (failure s2) as [err|] eqn:E2.
  { split; [done|]. split; [done|]. split; [done|]. intros Hbg Hh. destruct (halted s2) eqn:Eh.
    - assert (halted s1 = true); [|congruence]. apply L2; [|done]. by rewrite (proj1 L1).
    - apply failure_halted in Eh. congruence. }
  apply failure_halted in E2. specialize (Hcpl E2).
  assert (Hrdfs2 : rdfs_closed (λ t, has st2 t)).
  { eapply rdfs_closed_iff; [|apply rdfs_derives_closed]. intros t. split; [apply Hcpl|apply Hsnd]. }
  destruct (Z.eqb_spec m 0) as [->|Hm].
  { split; [done|]. split; [done|]. split; [|done]. intros _. split; [done|].
    assert (Hiff : ∀ t, has st1 t ↔ has st2 t).
    { intros t. split; [apply Hg2|]. apply same_size_same; [apply Hb1|apply Hb2|apply Hg2|]. destruct Hg2 as (_ & ? & ?). lia. }
    destruct Hcore as (_ & He & Hp). split; [exact (eq_closed_iff _ _ Hiff He)|exact (property_closed_iff _ _ Hiff Hp)]. }
  pose proof (D_bound st2 (proj1 Hb2) (proj1 (proj2 Hb2))) as HN2.
  assert (HR : expanded s2 st2 (expand_loop fuel g (total + n + m) s2 st2) (total + n + m)).
  { apply IH; [done| |done|destruct Hg1 as (_ & ? & ?), Hg2 as (_ & ? & ?); lia].
    etrans; [exact HN|]. pose proof (owl_fuel_mono st st2 (proj1 Hb) (proj1 Hb2)). destruct Hg as (_ & ? & _). lia. }
  destruct (expand_loop fuel g (total + n + m) s2 st2) as [[[n' ic'] err] st']. destruct HR as (R1 & R2 & R3 & R4).
  split; [done|]. split; [by eapply grown_trans|]. split; [done|]. intros Hbg Hh. apply R4; [|done]. by rewrite (proj1 L2), (proj1 L1).
Qed.
End expand.

(** ** The entry point *)

Definition known_regime (r : Z) : Prop := r = RDFS ∨ r = OWLRL ∨ r = Z.lor RDFS OWLRL.

Lemma regime_check r : (r =? 0)%Z || negb (Z.ldiff r (Z.lor RDFS OWLRL) =? 0)%Z = negb (bool_decide (known_regime r)).
Proof.
  assert (Hcase : known_regime r ↔ r ≠ 0%Z ∧ Z.ldiff r 3 = 0%Z).
  { unfold known_regime, RDFS, OWLRL. cbn. split; [by intros [-> |[-> | ->]]|]. intros [Hn Hd].
    change 3%Z with (Z.ones 2) in Hd. rewrite Z.ldiff_ones_r in Hd by lia.
    rewrite Z.shiftr_div_pow2, Z.shiftl_mul_pow2 in Hd by lia. change (2 ^ 2)%Z with 4%Z in Hd.
    pose proof (Z.div_mod r 4). pose proof (Z.mod_pos_bound r 4).
    change (Z.lor 1 2) with 3%Z. lia. }
  destruct (Z.eqb_spec r 0) as [->|Hr]; cbn [orb].
  - rewrite bool_decide_eq_false_2; [done|]. rewrite Hcase. tauto.
  - destruct (Z.eqb_spec (Z.ldiff r (Z.lor RDFS OWLRL)) 0) as [E|E]; cbn [negb].
    + rewrite bool_decide_eq_true_2; [done|]. by apply Hcase.
    + rewrite bool_decide_eq_false_2; [done|]. rewrite Hcase. tauto.
Qed.

Section properties.
Context {St : Type} {store_St : Store St} {laws_St : StoreLaws St} `{GoRange}.
Abbreviation graph st g := (λ t, t ∈ graph_triples (graph_of st g)).

End properties.

(** ** Concrete inputs *)

#[local] Instance expand_range_instance : GoRange | 100 := sorted_range.


(** A class above the intersection: only the two closures together type [x] with it. *)
Definition ex_both : list Triple := MkTriple (ex_class "C") RDFS_SubClassOf (ex_class "D") :: ex_owl.

Lemma ex_both_added : 
  let run r := (ExpandCheckContext background ex_node r (ex_rdfs ex_both)).1.1.1 in
  (run RDFS, run OWLRL, (OWLRLClosure background ex_node (ex_rdfs ex_both)).1.1) = (0%Z, 4%Z, 3%Z).
Proof. by vm_compute. Qed.
